(* ===== verification/_CoqProject ===== *)
-Q . S2P
Prelude.v
Types.v
ConfigEntry.v
Membership.v
Persistence.v
CommitWaiter.v
CommitCallbacks.v
ConfigSync.v
Node.v
Bytes.v
Base64.v
JsonSerializer.v
CborSerializer.v
FilePersistence.v
Machines.v
KvStateMachine.v
MachineProofs.v
CaStateMachine.v
CaProofs.v
Doubles.v
ErrorHandler.v
FutureCollector.v
FutureChannel.v
FutureBackends.v
CollectorBackends.v
MemoryPool.v
Log.v
Roles.v
Sample.v
AppendEntries.v
Apply.v
Election.v
Snapshot.v
Replication.v
MembershipChange.v
Client.v
QuorumLoop.v
Lifecycle.v
Frames.v
VoteProofs.v
LogProofs.v
CatchUp.v
SnapshotProofs.v
SnapshotTransfer.v
MembershipProofs.v
ClientProofs.v
ApplyProofs.v
CommitProofs.v
ElectionSafety.v
Divergence.v
CoapBlocks.v
CoapMessages.v
SerializerRegistry.v
CoapRpc.v
SimObjects.v
NetworkSim.v
SimConnections.v
SimProofs.v
SimBehaviour.v
SimRpc.v
SimRpcServers.v
SimRpcDivergence.v
TcpRpc.v
HttpPools.v
HttpCalls.v
HttpTls.v
HttpServers.v
AsyncScope.v
Gossip.v
QuorumManagers.v
