(* ===== verification/Prelude.v ===== *)
(** Kythira: a verification library for the Raft implementation.

    * The program

    Kythira is a C++ library for replicated state machines.  [class node]
    ([include/raft/raft.hpp]) runs the Raft protocol: elections with an optional
    pre-vote, log replication with a peer-to-peer catch-up, snapshots, joint
    membership changes with learners and placement groups, client sessions and
    linearizable reads, and a loop that replaces failed nodes.  It is assembled
    from a persistence engine, a state machine, a membership manager, a commit
    waiter that answers clients when their entry is applied, a configuration
    synchronizer that follows a membership change through its two phases, and an
    RPC layer with serializers, retries and collection of futures.  Around it are
    transports (HTTP over three libraries, CoAP with format negotiation, plain TCP),
    futures over several libraries, gossip between peers, managers that keep the
    number of nodes, and a network simulator for tests.

    * How code is modelled

    Integers of the code are [N] with the wrap-around of [uint64_t] written out
    ([⊕], [⊖], this file); durations and signed integers are [Z]; [double] is
    IEEE binary64 ([Doubles]).  A call returns, throws or has undefined behaviour
    ([outcome]); stateful code is in the monad [M], which keeps the effects made
    before an exception.  Every handler is one critical section of the node's
    mutex, as in the code; the mutex is visible only where the code misuses it.
    A continuation of a future is a definition of its own that takes the results
    as an argument; requests to other nodes are recorded in [outbox], promises
    that were resolved in [resolved].  Random draws and the clock are part of the
    state.  An [unordered_map] is iterated in the order of [map_to_list], or in an
    order that is a parameter.  Where threads meet, critical sections and atomic
    operations are the steps of a relation.  Operating system, daemons and
    third-party libraries are parameters, their documented behaviour is a
    hypothesis or the law of a class, and a concrete instance shows it can hold.
    Logging, metrics and sleeping are left out.

    * Files

    Data and the components a node is built from:
    - [Types] ([types.hpp]), [Bytes], [Doubles];
    - [ConfigEntry] ([config_entry.hpp]): configurations as JSON, with Boost.JSON
      as the class [JsonLib] and its laws [JsonLibOk];
    - [Membership] ([membership.hpp]), [Persistence] ([persistence.hpp]): the
      concepts as classes with contracts, and the default implementations;
    - [FilePersistence] ([file_persistence.hpp]): the engine over files, a second
      implementation of the persistence contract;
    - [CommitWaiter] ([commit_waiter.hpp]), [ConfigSync]
      ([configuration_synchronizer.hpp]);
    - [KvStateMachine] ([test_state_machine.hpp]), [Machines] ([examples/]),
      [CaStateMachine] ([ca_state_machine.hpp]): state machines;
    - [Base64], [JsonSerializer] ([json_serializer.hpp]), [CborSerializer]
      ([cbor_serializer.hpp]), [ErrorHandler] ([error_handler.hpp]),
      [FutureCollector] ([future_collector.hpp]), [MemoryPool]
      ([memory_pool.hpp]) and [AsyncScope] ([async_scope.hpp]);
    - [FutureChannel] ([future_stdexec.hpp]: the channel between a promise and its
      future, and promises that are moved), [FutureBackends] ([future_stdexec.hpp],
      [future_boost.hpp]: the continuations of both against one reference, with the
      libraries as the classes [StdExec] and [BoostThread]) and [CollectorBackends]
      (collecting many futures in both).

    The node, all of [raft.hpp]; definitions have the names of the member
    functions: [Node] (the data members), [Log], [Roles], [AppendEntries] (the
    consistency check), [Apply] (commitment and application), [Election],
    [Snapshot], [Replication], [MembershipChange], [Client], [QuorumLoop],
    [Lifecycle].  [Sample] has concrete nodes for examples.

    Around the node:
    - [SerializerRegistry] ([serializer_registry.hpp], [peer_capability_cache.hpp],
      [http_content_negotiation.hpp]): registries of serializers as a class with
      laws, and the choice of media types;
    - CoAP ([coap_utils.hpp], [coap_block_option.hpp], [coap_transport_impl.hpp]):
      [CoapBlocks] (block-wise transfer), [CoapRpc] (calls with negotiation, the
      serialization cache), [CoapMessages] (endpoints, tokens, duplicates, the
      request limit);
    - [TcpRpc] ([tcp_rpc.hpp]): frames on a stream and remote calls;
    - HTTP ([http_transport_impl.hpp], [beast_http_transport_impl.hpp],
      [proxygen_http_transport_impl.hpp]): [HttpPools] (URLs and the connections a
      client keeps), [HttpCalls] (calls with negotiation, the three clients as
      instances of the class [HttpCalls] and the three servers of [HttpServes]),
      [HttpTls] (validation and reload of certificates), [HttpServers] (start, stop
      and sessions);
    - [Gossip] ([peer2peer_replication.hpp], [tcp_gossip_transport.hpp]): the
      replicators as instances of a class, and a network of them;
    - [QuorumManagers] ([quorum_management.hpp], [docker_quorum_manager.hpp]);
    - the simulator ([network_simulator/]): [SimObjects] (connections, listeners,
      pool, listener manager, tracker), [NetworkSim] (topology, routing, queues, stop
      and reset over a heap of these objects), [SimConnections] (the operations of
      connections, listeners and nodes).

    Results: [Frames] (what the handlers leave alone), [LogProofs],
    [ApplyProofs], [CommitProofs], [VoteProofs], [ElectionSafety],
    [SnapshotProofs], [MembershipProofs], [ClientProofs], [MachineProofs],
    [CaProofs], [SimProofs], [SimBehaviour] and [Divergence].

    * What is shown

    - Elections: at most one leader per term in every execution of a cluster with
      a fixed configuration; a vote is granted exactly under the voting rule and
      is durable then; pre-votes change nothing; timeouts stay in their bounds.
    - Logs: the consistency check refines the merge of a log with a leader's
      entries; a successful exchange makes the logs agree; a rejection makes
      progress; a leader's log only grows.
    - Commitment and application: the commit index is the largest committable
      one; entries are applied in order, once, under every failure policy; without
      failures application catches up.
    - Snapshots, recovery and storage: a chunked transfer reassembles the data;
      compaction keeps the suffix; recovery restores what was stored; reopening the
      files gives the abstract store after the same writes; an installed snapshot
      replaces the commands before it, for every machine of [SnapshotLaws].
    - Membership: changes of the voters are joint and one at a time, quorums of
      successive configurations overlap, learners leave the voters alone.
    - Clients: operations are resolved at most once; reads wait for a set that
      meets every majority; provisioning stays within the deficit.
    - Encodings: the messages and configurations are read back, from JSON and from
      CBOR; a CBOR decoder never reads outside any buffer; the three Base64 codecs
      agree; Block options, endpoints, Accept headers and gossip messages are read
      back.
    - Transports: a TCP call runs the peer's handler at most once and never makes an
      answer up, whatever the system calls do; frames arrive in order however they
      are split; a CoAP call ends with a format both sides know, or with 4.15; a
      payload is reassembled only from consecutive blocks; tokens are distinct and
      the request limit holds under any interleaving.
    - HTTP: a call runs the peer's handler at most once over any network, and returns
      its answer when both sides have a media type in common and nothing fails; the
      three clients agree but for how they name failures of the network; URLs are
      read back; pools stay within their size; the server takes material exactly
      when all its checks pass; servers start again after stop, and a drained one is
      quiet.
    - Futures: a channel gives one result once to its receiver, also when promises
      are moved and destroyed; the continuations of both backends behave as one
      reference; [collectAll] gives all results, [collectN] and the two kinds of
      [collectAny] the first, the same in both backends.
    - Gossip: an exchange gives both ends the union of their views; a source that is
      offered advertised itself recently and is a member.
    - Shutdown: once a drain returned, no continuation runs and none will start.
    - Quorum managers: reports are consistent, maintenance removes the unreachable
      nodes and provisions within the deficit.
    - Simulator: paths are shortest, messages follow routes and keep their order; a
      connection is a faithful stream in every execution of interleaved operations,
      and connecting, accepting, writing and reading work end to end; the pool keeps
      its bound, evicts the least recently used connection and gives out only usable
      ones; ports are refused while in use; idle connections are closed.
    - Services: retries end within their policy; the early collector resolves
      exactly when the outcome is decided; allocations are disjoint; a lock is
      exclusive until it expires; the authority's history is append-only and its
      commands execute as built.
    - [Divergence], and single theorems elsewhere, are executions in which the code
      departs from its documentation or from the protocol: a stale entry committed
      by a read's heartbeat, a committed entry overwritten in catch-up, a read
      that misses a committed write, two votes in a term after a torn write, large
      CoAP requests that never arrive, a cache that sends an old request, a gossip
      thread that does not start again, a container removed by mistake, a dangling
      reference into a pool of connections, a session that starts after stop, a
      continuation called twice, a pooled connection given to two nodes.  They
      do not contradict the theorems above, whose hypotheses exclude them (a
      storage that does not fail, a log that was not compacted, requests of the
      leader of the term).

    * Bounds

    Loops that are not structural take fuel that is shown to be enough: a batch
    of [Apply] handles at most 100 entries, a chunked transfer has at most one
    chunk per byte, a retry chain has at most [max_attempts] rounds, a restore
    reads at most one entry per byte of its input, the Base64 loops run at most
    two and three times, reading and writing a stream takes at most one call per
    byte, cutting a payload at most one block per byte, a negotiation at most one
    attempt per media type, a path search visits each node once, and the search
    for a port tries each of the 65536.

    * Not modelled

    The folly backend of futures and the executors, the gRPC and TLS transports, the
    reads and writes of an HTTP session, the parts of CoAP that are libcoap's
    (sessions, DTLS, multicast, retransmission) and block-wise answers, the
    simulator's timers (which nothing calls), DNS, cloud providers, the certificate
    service, the Ion and Protocol Buffers serializers, logging and metrics, and the
    executables.  They are I/O or wrappers of third-party libraries; where the
    node uses them their answers are arguments of the definitions.  Except where a
    step relation is given, threads are interleaved at the granularity of critical
    sections only. *)

From Stdlib Require Export Init.Byte Strings.Byte.
From stdpp Require Export base numbers strings gmap countable list.

(** ** Fixed-width unsigned integers

    Terms, log indices, node identifiers, sizes and counters of the C++ code
    are [std::uint64_t] / [std::size_t].  They are modelled by [N] together
    with the wrap-around of the machine type written out. *)

Declare Scope u64_scope.
Delimit Scope u64_scope with u64.

Definition u64_modulus : N := 18446744073709551616.
Definition u32_modulus : N := 4294967296.

Definition u64_wrap (x : N) : N := (x mod u64_modulus)%N.
Definition u64_add (a b : N) : N := u64_wrap (a + b).
Definition u64_sub (a b : N) : N := u64_wrap (a + (u64_modulus - u64_wrap b)).
Definition u64_mul (a b : N) : N := u64_wrap (a * b).

Infix "⊕" := u64_add (at level 50, left associativity) : u64_scope.
Infix "⊖" := u64_sub (at level 50, left associativity) : u64_scope.
Open Scope u64_scope.

Definition is_u64 (x : N) : Prop := (x < u64_modulus)%N.

Lemma u64_add_small a b : (a + b < u64_modulus)%N → a ⊕ b = (a + b)%N.
Proof. intros H. unfold u64_add, u64_wrap. by apply N.mod_small. Qed.

Lemma u64_sub_small a b : (b ≤ a)%N → is_u64 a → a ⊖ b = (a - b)%N.
Proof.
  unfold is_u64, u64_sub, u64_wrap. intros Hle Ha.
  rewrite (N.mod_small b) by lia.
  replace (a + (u64_modulus - b))%N with (a - b + 1 * u64_modulus)%N by lia.
  rewrite N.Div0.mod_add. apply N.mod_small. lia.
Qed.

Lemma u64_wrap_lt x : is_u64 (u64_wrap x).
Proof. apply N.mod_lt. done. Qed.

Lemma u64_add_lt a b : is_u64 (a ⊕ b).
Proof. apply u64_wrap_lt. Qed.

Lemma u64_sub_lt a b : is_u64 (a ⊖ b).
Proof. apply u64_wrap_lt. Qed.

(** The wrap-around case of unsigned subtraction. *)
Lemma u64_sub_underflow : 0 ⊖ 1 = (u64_modulus - 1)%N.
Proof. reflexivity. Qed.

Create HintDb u64.
#[export] Hint Resolve u64_wrap_lt u64_add_lt u64_sub_lt : u64.

(** ** Exceptions, undefined behaviour and the state monad

    A C++ operation either returns, throws, or has undefined behaviour.  The
    effects it made on the object before throwing stay visible, hence the
    state is returned next to the outcome. *)

#[export] Instance byte_eq_decision : EqDecision byte := Byte.byte_eq_dec.

Inductive exn : Type :=
  | runtime_error (what : string)
  | invalid_argument (what : string)
  | out_of_range (what : string)
  | json_error (what : string)
  | serialization_exception (what : string)
  | bad_optional_access
  | leadership_lost_exception (old_term new_term : N)
  | commit_timeout_exception (entry_index : N) (timeout_ms : Z)
  | raft_completion_exception (what : string)
  | configuration_change_exception (phase reason : string)
  | future_collection_exception (operation : string) (failed : N)
  | learner_capacity_exceeded_exception
  | voting_capacity_exceeded_exception
  | network_exception (what : string)
  | coap_transport_error (what : string)
  | coap_network_error (what : string)
  | coap_protocol_error (what : string)
  | coap_client_error (code : N)
  | coap_server_error (code : N)
  | coap_unsupported_content_format_error (what : string)
  | unsupported_media_type_error (media_type : string)
  | no_route_exception (what : string)
  | port_in_use_exception (what : string)
  | std_exception
  | logic_error (what : string)
  | system_error (what : string)
  | timeout_exception
  | connection_closed_exception
  | http_client_error (status : N) (body : list Byte.byte)
  | http_server_error (status : N) (body : list Byte.byte)
  | http_timeout_error (what : string)
  | serialization_error (what : string)
  | ssl_configuration_error (what : string)
  | ssl_context_error (what : string)
  | certificate_validation_error (what : string)
  | operation_cancelled
  | broken_promise
  | future_timeout
  | gcp_operation_timeout (what : string)
  | arm_not_found.

#[export] Instance exn_eq_dec : EqDecision exn.
Proof. solve_decision. Defined.

Inductive outcome (A : Type) : Type :=
  | Ret (a : A)
  | Throw (e : exn)
  | Undef (what : string).
Arguments Ret {A} a.
Arguments Throw {A} e.
Arguments Undef {A} what.

#[export] Instance outcome_eq_dec `{EqDecision A} : EqDecision (outcome A).
Proof. solve_decision. Defined.

Definition outcome_bind {A B} (f : A → outcome B) (o : outcome A) : outcome B :=
  match o with
  | Ret a => f a
  | Throw e => Throw e
  | Undef w => Undef w
  end.

Notation "'let?' x ':=' c 'in' k" := (outcome_bind (λ x, k) c)
  (at level 10, x pattern, c at level 100, k at level 200).

Definition M (S A : Type) : Type := S → outcome A * S.

Section monad.
Context {S : Type}.

Definition mreturn {A} (a : A) : M S A := λ s, (Ret a, s).
Definition mthrow {A} (e : exn) : M S A := λ s, (Throw e, s).
Definition mundef {A} (w : string) : M S A := λ s, (Undef w, s).
Definition mlet {A B} (m : M S A) (f : A → M S B) : M S B := λ s,
  match m s with
  | (Ret a, s') => f a s'
  | (Throw e, s') => (Throw e, s')
  | (Undef w, s') => (Undef w, s')
  end.
Definition mget : M S S := λ s, (Ret s, s).
Definition mmodify (f : S → S) : M S () := λ s, (Ret tt, f s).
Definition mlift {A} (o : outcome A) : M S A := λ s, (o, s).
Definition mcatch {A} (m : M S A) (h : exn → M S A) : M S A := λ s,
  match m s with
  | (Throw e, s') => h e s'
  | r => r
  end.
Definition mwhen (b : bool) (m : M S ()) : M S () :=
  if b then m else mreturn tt.

Fixpoint mfor {A} (l : list A) (body : A → M S ()) : M S () :=
  match l with
  | [] => mreturn tt
  | x :: l => mlet (body x) (λ _, mfor l body)
  end.

End monad.

Notation "'let!' x ':=' c 'in' k" := (mlet c (λ x, k))
  (at level 10, x pattern, c at level 100, k at level 200).
Notation "'do!' c 'in' k" := (mlet c (λ _, k))
  (at level 10, c at level 100, k at level 200).

(** Computations on one half of a state. *)
Definition on_fst {A B X} (m : M A X) : M (A * B) X := λ s, let '(r, a) := m s.1 in (r, (a, s.2)).
Definition on_snd {A B X} (m : M B X) : M (A * B) X := λ s, let '(r, b) := m s.2 in (r, (s.1, b)).

Definition result_of {S A} (m : M S A) (s : S) : outcome A := (m s).1.
Definition state_of {S A} (m : M S A) (s : S) : S := (m s).2.

(** *** Running a monadic program step by step *)

Section run.
Context {S A B : Type}.
Lemma let_eval (m : M S A) (k : A → M S B) s a s' : m s = (Ret a, s') → mlet m k s = k a s'.
Proof. unfold mlet. by intros ->. Qed.
Lemma let_modify (f : S → S) (k : () → M S B) s : mlet (mmodify f) k s = k tt (f s).
Proof. done. Qed.
Lemma let_lift (a : A) (k : A → M S B) s : mlet (mlift (Ret a)) k s = k a s.
Proof. done. Qed.
Lemma let_get (k : S → M S B) s : mlet mget k s = k s s.
Proof. done. Qed.
End run.
Lemma mfor_modify {S T} (l : list T) (f : T → S → S) s :
  mfor l (λ a, mmodify (f a)) s = (Ret tt, foldl (λ s a, f a s) s l).
Proof. revert s. induction l as [|a l IH]; intros s; simpl; [done|]. rewrite let_modify. apply IH. Qed.

(** *** Transition relations

    [steps R m]: every run of [m], whatever its outcome, relates its initial to
    its final state by [R].  For a preorder [R] the statement composes, which
    is how frame conditions and monotonicity of whole handlers are proved. *)

Definition steps {S A} (R : relation S) (m : M S A) : Prop :=
  ∀ s, R s (m s).2.

Section steps.
Context {S : Type} (R : relation S) `{!PreOrder R}.

Lemma steps_return {A} (a : A) : steps R (mreturn a).
Proof. intros s. reflexivity. Qed.
Lemma steps_throw {A} e : steps R (@mthrow S A e).
Proof. intros s. reflexivity. Qed.
Lemma steps_undef {A} w : steps R (@mundef S A w).
Proof. intros s. reflexivity. Qed.
Lemma steps_get : steps R (@mget S).
Proof. intros s. reflexivity. Qed.
Lemma steps_lift {A} (o : outcome A) : steps R (@mlift S A o).
Proof. intros s. reflexivity. Qed.
Lemma steps_modify f : (∀ s, R s (f s)) → steps R (@mmodify S f).
Proof. intros H s. apply H. Qed.
Lemma steps_let {A B} (m : M S A) (f : A → M S B) :
  steps R m → (∀ a, steps R (f a)) → steps R (mlet m f).
Proof.
  intros Hm Hf s. unfold mlet. specialize (Hm s).
  destruct (m s) as [[a|e|w] s'] eqn:E; simpl in *; [|done|done].
  etrans; [exact Hm|apply Hf].
Qed.
Lemma steps_catch {A} (m : M S A) h :
  steps R m → (∀ e, steps R (h e)) → steps R (mcatch m h).
Proof.
  intros Hm Hh s. unfold mcatch. specialize (Hm s).
  destruct (m s) as [[a|e|w] s'] eqn:E; simpl in *; [done| |done].
  etrans; [exact Hm|apply Hh].
Qed.
Lemma steps_when b m : steps R m → steps R (mwhen b m).
Proof. intros H. destruct b; [done|apply steps_return]. Qed.
Lemma steps_for {A} (l : list A) body :
  (∀ x, steps R (body x)) → steps R (mfor l body).
Proof.
  intros H. induction l as [|x l IH]; simpl; [apply steps_return|].
  apply steps_let; [apply H|intros _; exact IH].
Qed.
Lemma steps_if {A} (b : bool) (m1 m2 : M S A) :
  steps R m1 → steps R m2 → steps R (if b then m1 else m2).
Proof. by destruct b. Qed.
End steps.

(** Continuing from an intermediate state. *)
Lemma steps_from {S A} (R : relation S) `{!PreOrder R} (m : M S A) s s1 :
  R s s1 → steps R m → R s (m s1).2.
Proof. intros H Hm. etrans; [exact H|apply Hm]. Qed.

(** [steps_auto] walks through a handler, leaving the state updates and the
    calls it has no hint for. *)
Create HintDb steps.
Ltac steps_step :=
  match goal with
  | |- steps _ (mreturn _) => refine (steps_return _ _)
  | |- steps _ (mthrow _) => refine (steps_throw _ _)
  | |- steps _ (mundef _) => refine (steps_undef _ _)
  | |- steps _ mget => refine (steps_get _)
  | |- steps _ (mlift _) => refine (steps_lift _ _)
  | |- steps _ (mlet _ _) => refine (steps_let _ _ _ _ _); [| intros ?]
  | |- steps _ (mcatch _ _) => refine (steps_catch _ _ _ _ _); [| intros ?]
  | |- steps _ (mwhen _ _) => refine (steps_when _ _ _ _)
  | |- steps _ (mfor _ _) => refine (steps_for _ _ _ _); intros ?
  | |- steps _ (match ?x with _ => _ end) => destruct x
  | |- steps _ (let _ := _ in _) => cbv zeta
  | |- steps _ (λ s, (_, s)) => intros ?; reflexivity
  end.
Ltac steps_auto := repeat (steps_step || solve [auto with steps]).

(** ** Record updates

    A record declares its expansion [λ r, mk (f1 r) ... (fn r)] as an instance
    of [Eta]; [setter f] is then the update of the field [f]. *)
Class Eta (R : Type) : Type := eta : R → R.

Ltac setter f :=
  match type of f with
  | ?R → ?T =>
    let e := eval cbv delta [eta] in (eta : R → R) in
    let e := eval hnf in e in
    match eval pattern f in e with
    | ?g _ =>
      let u := constr:(λ (v : T) (r : R), g (λ _, v) r) in
      let u := eval cbv beta in u in exact u
    end
  end.

(** ** Index ranges: the [for (i = a; i <= b; ++i)] loops over indices *)

Definition nrange (a b : N) : list N :=
  (λ k, (a + N.of_nat k)%N) <$> seq 0 (N.to_nat (b + 1 - a)).

Lemma elem_of_nrange a b x : x ∈ nrange a b ↔ (a <= x <= b)%N.
Proof.
  unfold nrange. rewrite list_elem_of_fmap. split.
  - intros (k & -> & Hk). apply elem_of_seq in Hk. lia.
  - intros [H1 H2]. exists (N.to_nat (x - a)). rewrite elem_of_seq. lia.
Qed.

Lemma nrange_length a b : length (nrange a b) = N.to_nat (b + 1 - a).
Proof. unfold nrange. by rewrite length_fmap, length_seq. Qed.

Lemma nrange_lookup a b k :
  k < N.to_nat (b + 1 - a) → nrange a b !! k = Some (a + N.of_nat k)%N.
Proof.
  intros H. unfold nrange. rewrite list_lookup_fmap, lookup_seq_lt by done. done.
Qed.

Lemma nrange_cons a b : (a <= b)%N → nrange a b = a :: nrange (a + 1) b.
Proof.
  intros H. unfold nrange.
  replace (N.to_nat (b + 1 - a)) with (S (N.to_nat (b + 1 - (a + 1)))) by lia.
  simpl. f_equal; [lia|]. rewrite <-fmap_S_seq, <-list_fmap_compose.
  apply list_fmap_ext. intros i x _. simpl. lia.
Qed.

Lemma nrange_nil a b : (b < a)%N → nrange a b = [].
Proof. intros H. unfold nrange. by replace (N.to_nat (b + 1 - a)) with 0 by lia. Qed.

Lemma nrange_snoc a b : (a <= b + 1)%N → nrange a (b + 1) = nrange a b ++ [(b + 1)%N].
Proof.
  intros H. unfold nrange.
  replace (N.to_nat (b + 1 + 1 - a)) with (N.to_nat (b + 1 - a) + 1) by lia.
  rewrite seq_app, fmap_app. simpl. f_equal. f_equal. lia.
Qed.

(** ** Counting with [filter]: majorities of one list overlap *)

Section filter.
Context {A : Type} (Q1 Q2 : A → Prop)
  {dec1 : ∀ x, Decision (Q1 x)} {dec2 : ∀ x, Decision (Q2 x)}.

Lemma filter_all (l : list A) : (∀ x, x ∈ l → Q1 x) → filter Q1 l = l.
Proof.
  induction l as [|x l IH]; intros H; [done|].
  rewrite filter_cons_True, IH; [done| |]; intros; apply H; set_solver.
Qed.

Lemma filter_length_mono (l : list A) :
  (∀ x, x ∈ l → Q1 x → Q2 x) → length (filter Q1 l) ≤ length (filter Q2 l).
Proof.
  induction l as [|x l IH]; intros H; [done|]. rewrite !filter_cons.
  assert (Q1 x → Q2 x) by (apply H; set_solver).
  assert (length (filter Q1 l) ≤ length (filter Q2 l)) by (apply IH; set_solver).
  repeat case_decide; simpl; try lia. naive_solver.
Qed.

Lemma filter_overlap (l : list A) :
  length l < length (filter Q1 l) + length (filter Q2 l) → ∃ x, x ∈ l ∧ Q1 x ∧ Q2 x.
Proof.
  induction l as [|x l IH]; simpl; [lia|]. rewrite !filter_cons.
  repeat case_decide; simpl; intros Hl.
  - exists x. set_solver.
  - destruct IH as (y & ? & ?); [lia|]. exists y. set_solver.
  - destruct IH as (y & ? & ?); [lia|]. exists y. set_solver.
  - destruct IH as (y & ? & ?); [lia|]. exists y. set_solver.
Qed.
End filter.

(** What every step of a fold keeps, the fold keeps. *)
Lemma foldl_view {S A V} (view : S → V) (f : S → A → S) l s :
  (∀ s a, view (f s a) = view s) → view (foldl f s l) = view s.
Proof. intros H. revert s. induction l as [|a l IH]; intros s; simpl; [done|]. by rewrite IH. Qed.

Lemma omap_submseteq {A B} (f : A → option B) (l k : list A) : l ⊆+ k → omap f l ⊆+ omap f k.
Proof.
  intros [r ->]%submseteq_Permutation. rewrite omap_app. by apply submseteq_inserts_r.
Qed.

Lemma foldl_invariant {S A} (I : S → Prop) (f : S → A → S) l s :
  (∀ s a, I s → I (f s a)) → I s → I (foldl f s l).
Proof. intros H. revert s. induction l as [|a l IH]; intros s Hs; simpl; [done|]. apply IH, H, Hs. Qed.

(** Inserting the entries of a map one after the other gives the map. *)
Lemma foldl_insert_map {K A} `{Countable K} (m : gmap K A) :
  foldl (λ acc kv, <[kv.1 := kv.2]> acc) ∅ (map_to_list m) = m.
Proof.
  assert (∀ (l : list (K * A)) (acc : gmap K A),
    foldl (λ acc kv, <[kv.1 := kv.2]> acc) acc l = list_to_map (reverse l) ∪ acc) as Hl.
  { induction l as [|[k v] l IH]; intros acc; cbn [foldl].
    { by rewrite reverse_nil, list_to_map_nil, (left_id_L ∅ (∪)). }
    rewrite IH, reverse_cons, list_to_map_app. cbn [fst snd list_to_map foldr].
    rewrite <-(assoc_L (∪)). f_equal. by rewrite insert_union_singleton_l, <-insert_empty. }
  rewrite Hl, (right_id_L ∅ (∪)). rewrite <-(list_to_map_to_list m) at 2.
  symmetry. apply list_to_map_proper; [apply NoDup_fst_map_to_list|].
  symmetry. apply reverse_Permutation.
Qed.
