(* ===== verification/Types.v ===== *)
(** Data types of [include/raft/types.hpp]: roles, log entries, cluster
    configurations, snapshots, RPC messages, and the node configuration with
    its validation.  C++ structs are records, enums are inductives, durations
    are [Z] (signed milliseconds), [double] is its exact rational value (or an
    infinity or NaN). *)

From Stdlib Require Import QArith.
From S2P Require Import Prelude.
Local Close Scope Q_scope.

Abbreviation bytes := (list byte).

(** ** Roles and log entries *)

Inductive server_state : Type := follower | candidate | leader.
Inductive entry_type : Type := normal | configuration | no_op.

#[export] Instance server_state_eq_dec : EqDecision server_state.
Proof. solve_decision. Defined.
#[export] Instance entry_type_eq_dec : EqDecision entry_type.
Proof. solve_decision. Defined.

Definition is_leader_state (s : server_state) : bool :=
  match s with leader => true | _ => false end.
Definition is_candidate_state (s : server_state) : bool :=
  match s with candidate => true | _ => false end.

Record log_entry : Type := mk_entry {
  e_term : N;
  e_index : N;
  e_command : bytes;
  e_type : entry_type
}.

#[export] Instance log_entry_eq_dec : EqDecision log_entry.
Proof. solve_decision. Defined.

(** ** Cluster configurations and snapshots *)

Record cluster_configuration : Type := mk_config {
  _nodes : list N;
  _is_joint_consensus : bool;
  _old_nodes : option (list N);
  _learners : list N
}.

#[export] Instance cluster_configuration_eq_dec : EqDecision cluster_configuration.
Proof. solve_decision. Defined.

Definition empty_configuration : cluster_configuration := mk_config [] false None [].

Record snapshot : Type := mk_snapshot {
  last_included_index : N;
  last_included_term : N;
  snap_configuration : cluster_configuration;
  state_machine_state : bytes
}.

(** ** RPC messages *)

Record request_vote_request : Type := mk_vote_req {
  rv_term : N;
  rv_candidate_id : N;
  rv_last_log_index : N;
  rv_last_log_term : N
}.

Record request_vote_response : Type := mk_vote_resp {
  rvr_term : N;
  rvr_vote_granted : bool
}.

Record append_entries_request : Type := mk_append_req {
  ae_term : N;
  ae_leader_id : N;
  ae_prev_log_index : N;
  ae_prev_log_term : N;
  ae_entries : list log_entry;
  ae_leader_commit : N
}.

Record append_entries_response : Type := mk_append_resp {
  aer_term : N;
  aer_success : bool;
  aer_conflict_index : option N;
  aer_conflict_term : option N
}.

Record install_snapshot_request : Type := mk_snap_req {
  is_term : N;
  is_leader_id : N;
  is_last_included_index : N;
  is_last_included_term : N;
  is_offset : N;
  is_data : bytes;
  is_done : bool
}.

Record install_snapshot_response : Type := mk_snap_resp { isr_term : N }.

Record fetch_log_entries_request : Type := mk_fetch_req {
  fl_requester_id : N;
  fl_from_index : N;
  fl_to_index : N
}.

Record fetch_log_entries_response : Type := mk_fetch_resp {
  flr_responder_id : N;
  flr_available : bool;
  flr_prev_log_term : N;
  flr_entries : list log_entry
}.

(** ** Doubles, as used by the retry policies *)

Inductive double : Type :=
  | dfin (q : Q)
  | dinf (negative : bool)
  | dnan.

(** [a < b] and [a <= b] on doubles; every comparison with NaN is false. *)
Definition double_le (a b : double) : bool :=
  match a, b with
  | dnan, _ | _, dnan => false
  | dfin x, dfin y => Qle_bool x y
  | dinf true, _ | _, dinf false => true
  | dinf false, dfin _ | dfin _, dinf true => false
  | dinf false, dinf true => false
  end.
Definition double_lt (a b : double) : bool :=
  match a, b with
  | dnan, _ | _, dnan => false
  | _, _ => negb (double_le b a)
  end.

(** The values of the literals of the source, rounded to binary64. *)
Definition d_0_0 : double := dfin (0 # 1).
Definition d_0_1 : double := dfin (3602879701896397 # 36028797018963968).
Definition d_1_0 : double := dfin (1 # 1).
Definition d_1_2 : double := dfin (5404319552844595 # 4503599627370496).
Definition d_1_5 : double := dfin (3 # 2).
Definition d_2_0 : double := dfin (2 # 1).

(** ** Retry policies and the node configuration *)

Record retry_policy_config : Type := mk_retry {
  initial_delay : Z;
  max_delay : Z;
  backoff_multiplier : double;
  jitter_factor : double;
  max_attempts : N
}.

Definition retry_policy_is_valid (p : retry_policy_config) : bool :=
  (0 <? initial_delay p)%Z && (initial_delay p <=? max_delay p)%Z &&
  double_lt d_1_0 (backoff_multiplier p) && double_le d_0_0 (jitter_factor p) &&
  double_le (jitter_factor p) d_1_0 && (0 <? max_attempts p)%N.

Record adaptive_timeout_config : Type := mk_adaptive {
  at_enabled : bool;
  at_min_timeout : Z;
  at_max_timeout : Z;
  at_adaptation_factor : double;
  at_sample_window_size : N
}.

Definition adaptive_timeout_is_valid (c : adaptive_timeout_config) : bool :=
  (0 <? at_min_timeout c)%Z && (at_min_timeout c <=? at_max_timeout c)%Z &&
  double_lt d_1_0 (at_adaptation_factor c) && (0 <? at_sample_window_size c)%N.

Inductive application_failure_policy : Type := halt | retry | skip.

Record raft_configuration : Type := mk_raft_configuration {
  election_timeout_min : Z;
  election_timeout_max : Z;
  heartbeat_interval : Z;
  rpc_timeout : Z;
  append_entries_timeout : Z;
  request_vote_timeout : Z;
  install_snapshot_timeout : Z;
  max_entries_per_append : N;
  snapshot_threshold_bytes : N;
  snapshot_chunk_size : N;
  heartbeat_retry_policy : retry_policy_config;
  append_entries_retry_policy : retry_policy_config;
  request_vote_retry_policy : retry_policy_config;
  install_snapshot_retry_policy : retry_policy_config;
  get_adaptive_timeout_config : adaptive_timeout_config;
  bootstrap_retry_interval : Z;
  bootstrap_peer_find_timeout : Z;
  quorum_check_interval : Z;
  quorum_heartbeat_failure_threshold : N;
  progress_gossip_interval : Z;
  catch_up_gap_threshold : N;
  catch_up_fetch_max_entries : N;
  catch_up_fetch_timeout : Z;
  get_application_failure_policy : application_failure_policy;
  application_retry_max_attempts : N;
  application_retry_initial_delay : Z;
  application_retry_max_delay : Z;
  application_retry_backoff_multiplier : double
}.

(** The member initialisers of [struct raft_configuration]. *)
Definition default_raft_configuration : raft_configuration := {|
  election_timeout_min := 150;
  election_timeout_max := 300;
  heartbeat_interval := 50;
  rpc_timeout := 100;
  append_entries_timeout := 5000;
  request_vote_timeout := 2000;
  install_snapshot_timeout := 30000;
  max_entries_per_append := 100;
  snapshot_threshold_bytes := 10000000;
  snapshot_chunk_size := 1000000;
  heartbeat_retry_policy := mk_retry 50 1000 d_1_5 d_0_1 3;
  append_entries_retry_policy := mk_retry 100 5000 d_2_0 d_0_1 5;
  request_vote_retry_policy := mk_retry 100 2000 d_2_0 d_0_1 3;
  install_snapshot_retry_policy := mk_retry 500 30000 d_2_0 d_0_1 10;
  get_adaptive_timeout_config := mk_adaptive false 50 10000 d_1_2 10;
  bootstrap_retry_interval := 5000;
  bootstrap_peer_find_timeout := 2000;
  quorum_check_interval := 30000;
  quorum_heartbeat_failure_threshold := 3;
  progress_gossip_interval := 500;
  catch_up_gap_threshold := 50;
  catch_up_fetch_max_entries := 500;
  catch_up_fetch_timeout := 5000;
  get_application_failure_policy := halt;
  application_retry_max_attempts := 3;
  application_retry_initial_delay := 100;
  application_retry_max_delay := 5000;
  application_retry_backoff_multiplier := d_2_0
|}.

Definition error_if (b : bool) (message : string) : list string :=
  if b then [message] else [].

Definition get_validation_errors (c : raft_configuration) : list string :=
  error_if (election_timeout_min c <=? 0)%Z "election_timeout_min must be positive" ++
  error_if (election_timeout_max c <=? election_timeout_min c)%Z
    "election_timeout_max must be greater than election_timeout_min" ++
  error_if (heartbeat_interval c <=? 0)%Z "heartbeat_interval must be positive" ++
  error_if (Z.quot (election_timeout_min c) 3 <? heartbeat_interval c)%Z
    "heartbeat_interval should be less than or equal to election_timeout_min/3 to prevent false timeouts" ++
  error_if (rpc_timeout c <=? 0)%Z "rpc_timeout must be positive" ++
  error_if (append_entries_timeout c <=? 0)%Z "append_entries_timeout must be positive" ++
  error_if (request_vote_timeout c <=? 0)%Z "request_vote_timeout must be positive" ++
  error_if (install_snapshot_timeout c <=? 0)%Z "install_snapshot_timeout must be positive" ++
  error_if (negb (retry_policy_is_valid (heartbeat_retry_policy c)))
    "heartbeat_retry_policy is invalid" ++
  error_if (negb (retry_policy_is_valid (append_entries_retry_policy c)))
    "append_entries_retry_policy is invalid" ++
  error_if (negb (retry_policy_is_valid (request_vote_retry_policy c)))
    "request_vote_retry_policy is invalid" ++
  error_if (negb (retry_policy_is_valid (install_snapshot_retry_policy c)))
    "install_snapshot_retry_policy is invalid" ++
  error_if (negb (adaptive_timeout_is_valid (get_adaptive_timeout_config c)))
    "adaptive_timeout_config is invalid" ++
  error_if (max_entries_per_append c =? 0)%N "max_entries_per_append must be positive" ++
  error_if (snapshot_threshold_bytes c =? 0)%N "snapshot_threshold_bytes must be positive" ++
  error_if (snapshot_chunk_size c =? 0)%N "snapshot_chunk_size must be positive" ++
  error_if (snapshot_threshold_bytes c <? snapshot_chunk_size c)%N
    "snapshot_chunk_size should not exceed snapshot_threshold_bytes" ++
  error_if (quorum_check_interval c <=? 0)%Z "quorum_check_interval must be positive" ++
  error_if (quorum_heartbeat_failure_threshold c <? 1)%N
    "quorum_heartbeat_failure_threshold must be >= 1".

Definition validate (c : raft_configuration) : bool :=
  match get_validation_errors c with [] => true | _ => false end.

Example default_configuration_validates : validate default_raft_configuration = true.
Proof. vm_compute. reflexivity. Qed.

Lemma error_if_nil b message : error_if b message = [] → b = false.
Proof. by destruct b. Qed.

(** The facts of a validated configuration that the node's timers and chunked
    transfers rely on. *)
Lemma validate_spec c :
  validate c = true →
  (0 < election_timeout_min c < election_timeout_max c)%Z ∧
  (0 < heartbeat_interval c)%Z ∧ (3 * heartbeat_interval c <= election_timeout_min c)%Z ∧
  (0 < max_entries_per_append c)%N ∧
  (0 < snapshot_chunk_size c <= snapshot_threshold_bytes c)%N ∧
  (0 < quorum_heartbeat_failure_threshold c)%N.
Proof.
  unfold validate. destruct (get_validation_errors c) eqn:E; [|done]. intros _.
  unfold get_validation_errors in E.
  repeat match goal with
  | H : _ ++ _ = [] |- _ => apply app_nil in H as [?%error_if_nil H]
  | H : error_if _ _ = [] |- _ => apply error_if_nil in H
  end.
  assert (Z.quot (election_timeout_min c) 3 * 3 <= election_timeout_min c)%Z.
  { rewrite Z.mul_comm. apply Z.mul_quot_le; lia. }
  generalize dependent (Z.quot (election_timeout_min c) 3). intros q ? ?.
  repeat match goal with H : (_ <=? _)%Z = false |- _ => apply Z.leb_gt in H end.
  repeat match goal with H : (_ <? _)%Z = false |- _ => apply Z.ltb_ge in H end.
  repeat match goal with H : (_ <? _)%N = false |- _ => apply N.ltb_ge in H end.
  repeat match goal with H : (_ =? _)%N = false |- _ => apply N.eqb_neq in H end.
  repeat split; lia.
Qed.
