(* ===== verification/ConfigEntry.v ===== *)
(** Encoding of cluster configurations as log-entry payloads
    ([include/raft/config_entry.hpp]).

    The text layer (printing and parsing JSON) is Boost.JSON, which is not part
    of the repository: it is a parameter, the class [JsonLib], with the laws of
    its documentation as the class [JsonLibOk].  The value layer (which keys
    are written, which accessors are called, what throws) is translated from
    the source. *)

From S2P Require Import Prelude Types.

Set Warnings "-register-all".

(** ** JSON values: the kinds of [boost::json::value] the code uses *)

Inductive json : Type :=
  | jnull
  | jbool (b : bool)
  | jint64 (z : Z)
  | juint64 (n : N)
  | jstring (s : string)
  | jarray (l : list json)
  | jobject (kv : list (string * json)).

Section json_ind.
Variable P : json → Prop.
Hypothesis Hnull : P jnull.
Hypothesis Hbool : ∀ b, P (jbool b).
Hypothesis Hint : ∀ z, P (jint64 z).
Hypothesis Huint : ∀ n, P (juint64 n).
Hypothesis Hstring : ∀ s, P (jstring s).
Hypothesis Harray : ∀ l, Forall P l → P (jarray l).
Hypothesis Hobject : ∀ kv, Forall (λ p, P p.2) kv → P (jobject kv).

Fixpoint json_ind_nested (v : json) : P v :=
  match v with
  | jnull => Hnull
  | jbool b => Hbool b
  | jint64 z => Hint z
  | juint64 n => Huint n
  | jstring s => Hstring s
  | jarray l => Harray l
      ((fix go l := match l return Forall P l with
        | [] => Forall_nil_2 _
        | x :: l => Forall_cons_2 _ x l (json_ind_nested x) (go l)
        end) l)
  | jobject kv => Hobject kv
      ((fix go kv := match kv return Forall (λ p, P p.2) kv with
        | [] => Forall_nil_2 _
        | p :: kv => Forall_cons_2 (λ p, P p.2) p kv (json_ind_nested p.2) (go kv)
        end) kv)
  end.
End json_ind.

Definition int64_max : N := 9223372036854775807.

(** What parsing the printed text gives back: the parser stores every integer
    that fits in an [int64] as [int64], whatever kind was printed. *)
Fixpoint json_normalize (v : json) : json :=
  match v with
  | juint64 n => if (n <=? int64_max)%N then jint64 (Z.of_N n) else juint64 n
  | jarray l => jarray (map json_normalize l)
  | jobject kv => jobject (map (λ p, (p.1, json_normalize p.2)) kv)
  | _ => v
  end.

Definition ascii_string (s : string) : Prop :=
  Forall (λ c, Ascii.N_of_ascii c < 128)%N (String.list_ascii_of_string s).

(** Values whose text is valid and unambiguous: distinct keys, ASCII strings,
    integers in the range of their kind. *)
Fixpoint json_wf (v : json) : Prop :=
  match v with
  | jnull | jbool _ => True
  | jint64 z => (- 2 ^ 63 <= z < 2 ^ 63)%Z
  | juint64 n => is_u64 n
  | jstring s => ascii_string s
  | jarray l => fold_right (λ v P, json_wf v ∧ P) True l
  | jobject kv =>
      NoDup (map fst kv) ∧
      fold_right (λ p P, (ascii_string p.1 ∧ json_wf p.2) ∧ P) True kv
  end.

Class JsonLib : Type := {
  json_serialize : json → bytes;
  json_parse : bytes → outcome json
}.

Class JsonLibOk `{!JsonLib} : Prop := {
  json_parse_serialize v :
    json_wf v → json_parse (json_serialize v) = Ret (json_normalize v)
}.

(** The printer is compact: no line break is printed, inside strings they are
    escaped. *)
Class JsonLibLines `{!JsonLib} : Prop := {
  json_serialize_nonempty v : json_serialize v ≠ [];
  json_serialize_line v : x0a ∉ json_serialize v
}.

(** ** Accessors *)

Fixpoint json_lookup (kv : list (string * json)) (k : string) : option json :=
  match kv with
  | [] => None
  | (k', v) :: kv => if String.eqb k' k then Some v else json_lookup kv k
  end.

(** [obj.contains(k)] *)
Definition json_contains (kv : list (string * json)) (k : string) : bool :=
  match json_lookup kv k with Some _ => true | None => false end.

(** [obj\[k\]] on a mutable object: a missing key is inserted with value null. *)
Definition json_at (kv : list (string * json)) (k : string) : json :=
  default jnull (json_lookup kv k).

Definition as_object (v : json) : outcome (list (string * json)) :=
  match v with jobject kv => Ret kv | _ => Throw (json_error "not an object") end.
Definition as_array (v : json) : outcome (list json) :=
  match v with jarray l => Ret l | _ => Throw (json_error "not an array") end.
Definition as_int64 (v : json) : outcome Z :=
  match v with jint64 z => Ret z | _ => Throw (json_error "not an int64") end.
Definition as_bool (v : json) : outcome bool :=
  match v with jbool b => Ret b | _ => Throw (json_error "not a bool") end.
Definition as_string (v : json) : outcome string :=
  match v with jstring s => Ret s | _ => Throw (json_error "not a string") end.

(** [static_cast<std::uint64_t>] of an [int64]. *)
Definition u64_of_Z (z : Z) : N := Z.to_N (z mod Z.of_N u64_modulus).

(** ** serialize_configuration / deserialize_configuration *)

Definition json_ids (ids : list N) : json := jarray (map juint64 ids).

Definition configuration_to_json (cfg : cluster_configuration) : json :=
  jobject
    ([("nodes", json_ids (_nodes cfg));
      ("is_joint_consensus", jbool (_is_joint_consensus cfg))] ++
     (match _is_joint_consensus cfg, _old_nodes cfg with
      | true, Some old => [("old_nodes", json_ids old)]
      | _, _ => []
      end) ++
     [("learners", json_ids (_learners cfg))]).

Fixpoint ids_of_json (l : list json) : outcome (list N) :=
  match l with
  | [] => Ret []
  | v :: l =>
      let? z := as_int64 v in
      let? ids := ids_of_json l in
      Ret (u64_of_Z z :: ids)
  end.

Definition json_to_configuration (v : json) : outcome cluster_configuration :=
  let? obj := as_object v in
  let? nodes_json := as_array (json_at obj "nodes") in
  let? nodes := ids_of_json nodes_json in
  let? joint :=
    (if json_contains obj "is_joint_consensus"
     then as_bool (json_at obj "is_joint_consensus") else Ret false) in
  let? old_nodes :=
    (if joint && json_contains obj "old_nodes" then
       let? old_json := as_array (json_at obj "old_nodes") in
       let? old := ids_of_json old_json in
       Ret (Some old)
     else Ret None) in
  let? learners :=
    (if json_contains obj "learners" then
       let? learners_json := as_array (json_at obj "learners") in
       ids_of_json learners_json
     else Ret []) in
  Ret (mk_config nodes joint old_nodes learners).

Section codec.
Context `{!JsonLib}.

Definition serialize_configuration (cfg : cluster_configuration) : bytes :=
  json_serialize (configuration_to_json cfg).

Definition deserialize_configuration (data : bytes) : outcome cluster_configuration :=
  let? v := json_parse data in
  json_to_configuration v.
End codec.

(** ** Round trip *)

(** Identifiers the decoder can read back: [as_int64] refuses larger ones. *)
Definition id_fits (n : N) : Prop := (n <= int64_max)%N.

Definition config_ids (cfg : cluster_configuration) : list N :=
  _nodes cfg ++
  (if _is_joint_consensus cfg then default [] (_old_nodes cfg) else []) ++
  _learners cfg.

(** The part of a configuration the payload carries: [old_nodes] only in joint
    consensus. *)
Definition canonical_config (cfg : cluster_configuration) : cluster_configuration :=
  mk_config (_nodes cfg) (_is_joint_consensus cfg)
    (if _is_joint_consensus cfg then _old_nodes cfg else None) (_learners cfg).

Lemma u64_of_Z_of_N n : id_fits n → u64_of_Z (Z.of_N n) = n.
Proof.
  unfold id_fits, u64_of_Z, int64_max. intros H.
  rewrite Z.mod_small by (unfold u64_modulus; lia). apply N2Z.id.
Qed.

Lemma ids_of_json_normalize ids :
  Forall id_fits ids → ids_of_json (map json_normalize (map juint64 ids)) = Ret ids.
Proof.
  induction 1 as [|n ids Hn _ IH]; [done|]. simpl.
  destruct (n <=? int64_max)%N eqn:E; [|apply N.leb_gt in E; unfold id_fits in Hn; lia].
  simpl. rewrite IH. simpl. by rewrite u64_of_Z_of_N.
Qed.

Lemma ids_of_json_too_large ids :
  Exists (λ n, ¬ id_fits n) ids →
  ∃ e, ids_of_json (map json_normalize (map juint64 ids)) = Throw e.
Proof.
  induction 1 as [n ids Hn|n ids _ [e IH]]; simpl.
  - destruct (n <=? int64_max)%N eqn:E; [apply N.leb_le in E; contradiction|].
    simpl. eauto.
  - destruct (n <=? int64_max)%N; simpl; [rewrite IH|]; simpl; eauto.
Qed.

Lemma json_ids_wf ids : Forall is_u64 ids → json_wf (json_ids ids).
Proof. induction 1; simpl in *; auto. Qed.

Lemma ascii_string_decide s :
  forallb (λ c, Ascii.N_of_ascii c <? 128)%N (String.list_ascii_of_string s) = true →
  ascii_string s.
Proof.
  unfold ascii_string. rewrite forallb_forall, Forall_forall.
  intros H x Hx. apply N.ltb_lt, H. by apply list_elem_of_In.
Qed.

Lemma configuration_to_json_wf cfg :
  Forall is_u64 (config_ids cfg) → json_wf (configuration_to_json cfg).
Proof.
  unfold config_ids. rewrite !Forall_app. intros (Hn & Ho & Hl).
  unfold configuration_to_json.
  destruct cfg as [nodes [] [old|] learners]; simpl in *;
    repeat split; try (by apply ascii_string_decide); try (by apply json_ids_wf);
    try (by apply (bool_decide_unpack _)).
Qed.

Section roundtrip.
Context `{!JsonLib, !JsonLibOk}.

Lemma deserialize_serialize_configuration cfg :
  Forall id_fits (config_ids cfg) →
  deserialize_configuration (serialize_configuration cfg) = Ret (canonical_config cfg).
Proof.
  intros Hids. unfold deserialize_configuration, serialize_configuration.
  rewrite json_parse_serialize.
  2:{ apply configuration_to_json_wf. eapply Forall_impl; [exact Hids|].
      unfold id_fits, is_u64, int64_max, u64_modulus. lia. }
  unfold config_ids in Hids. rewrite !Forall_app in Hids. destruct Hids as (Hn & Ho & Hl).
  destruct cfg as [nodes [] [old|] learners]; cbn -[ids_of_json] in *;
    repeat (rewrite ids_of_json_normalize by done; cbn -[ids_of_json]); done.
Qed.

Lemma deserialize_large_id_throws cfg :
  Forall is_u64 (config_ids cfg) → Exists (λ n, ¬ id_fits n) (_nodes cfg) →
  ∃ e, deserialize_configuration (serialize_configuration cfg) = Throw e.
Proof.
  intros Hids Hex. unfold deserialize_configuration, serialize_configuration.
  rewrite json_parse_serialize by (by apply configuration_to_json_wf).
  destruct (ids_of_json_too_large _ Hex) as [e He]. exists e.
  destruct cfg as [nodes [] [old|] learners]; cbn -[ids_of_json] in *;
    rewrite He; done.
Qed.

(** Configuration entries round-trip exactly for identifiers below 2^63: a
    configuration of 64-bit node ids, all of which the JSON library's signed
    integers can hold, is read back as written (a set of old voters outside joint
    consensus is not written, so it is normalised away); if a voter's id cannot,
    reading the entry throws, on every node that stored it. *)
Theorem configuration_roundtrip cfg :
  Forall is_u64 (config_ids cfg) →
  (Forall id_fits (config_ids cfg) →
   deserialize_configuration (serialize_configuration cfg) = Ret (canonical_config cfg)) ∧
  (Exists (λ n, ¬ id_fits n) (_nodes cfg) →
   ∃ e, deserialize_configuration (serialize_configuration cfg) = Throw e).
Proof.
  intros Hids.
  exact (conj (deserialize_serialize_configuration cfg) (deserialize_large_id_throws cfg Hids)).
Qed.
End roundtrip.

(** ** A concrete text layer

    A prefix code of JSON values into bytes that satisfies the laws of
    [JsonLibOk]; the concrete runs of the development use it. *)

Module CodeJson.
Abbreviation leaf := (bool + (Z + (N + string)))%type.

Fixpoint to_tree (v : json) : gen_tree leaf :=
  match v with
  | jnull => GenNode 0 []
  | jbool b => GenLeaf (inl b)
  | jint64 z => GenLeaf (inr (inl z))
  | juint64 n => GenLeaf (inr (inr (inl n)))
  | jstring s => GenLeaf (inr (inr (inr s)))
  | jarray l => GenNode 1 (map to_tree l)
  | jobject kv =>
      GenNode 2 (map (λ p, GenNode 3 [GenLeaf (inr (inr (inr p.1))); to_tree p.2]) kv)
  end.


Fixpoint of_tree (t : gen_tree leaf) : json :=
  match t with
  | GenLeaf (inl b) => jbool b
  | GenLeaf (inr (inl z)) => jint64 z
  | GenLeaf (inr (inr (inl n))) => juint64 n
  | GenLeaf (inr (inr (inr s))) => jstring s
  | GenNode 1 l => jarray (map of_tree l)
  | GenNode 2 l =>
      jobject (map (λ t, match t with
                         | GenNode 3 [GenLeaf (inr (inr (inr k))); v] => (k, of_tree v)
                         | _ => (EmptyString, jnull)
                         end) l)
  | _ => jnull
  end.

Lemma of_to_tree v : of_tree (to_tree v) = v.
Proof.
  induction v as [| | | | |l IH|kv IH] using json_ind_nested; simpl; try done; f_equal.
  - induction IH as [|x l Hx _ IH]; simpl; congruence.
  - induction IH as [|[k x] l Hx _ IH]; simpl in *; congruence.
Qed.

Fixpoint bits_of (p : positive) : bytes :=
  match p with
  | xH => []
  | xO p => x30 :: bits_of p
  | xI p => x31 :: bits_of p
  end.
Fixpoint of_bits (l : bytes) : option positive :=
  match l with
  | [] => Some xH
  | x30 :: l => xO <$> of_bits l
  | x31 :: l => xI <$> of_bits l
  | _ => None
  end.

Lemma of_bits_bits_of p : of_bits (bits_of p) = Some p.
Proof. induction p; simpl; rewrite ?IHp; done. Qed.

#[export] Instance code_json : JsonLib := {|
  json_serialize v := x7b :: bits_of (encode (to_tree v));
  json_parse b :=
    match of_bits (tail b) ≫= decode with
    | Some t => Ret (json_normalize (of_tree t))
    | None => Throw (json_error "syntax error")
    end
|}.

#[export] Instance code_json_ok : JsonLibOk.
Proof.
  constructor. intros v _. simpl. rewrite of_bits_bits_of. simpl.
  rewrite decode_encode. by rewrite of_to_tree.
Qed.

#[export] Instance code_json_lines : JsonLibLines.
Proof.
  constructor; intros v; [done|]. simpl. apply not_elem_of_cons. split; [done|].
  generalize (encode (to_tree v)) as p. induction p; simpl; [..|apply not_elem_of_nil];
    apply not_elem_of_cons; done.
Qed.
End CodeJson.

(** The largest 64-bit id is not read back. *)
Definition large_id_configuration : cluster_configuration :=
  mk_config [1; 18446744073709551615]%N false None [].

Lemma configuration_roundtrip_witness :
  ∃ e, @deserialize_configuration CodeJson.code_json
         (@serialize_configuration CodeJson.code_json large_id_configuration) = Throw e.
Proof.
  apply (@configuration_roundtrip CodeJson.code_json CodeJson.code_json_ok large_id_configuration).
  - repeat constructor.
  - right. left. intros H. by vm_compute in H.
Defined.
