(* ===== verification/Membership.v ===== *)
(** The membership manager ([include/raft/membership.hpp]): the interface the
    node calls and the default implementation, which accepts every node. *)

From S2P Require Import Prelude Types.

Class MembershipManager : Type := {
  validate_new_node : N → bool;
  authenticate_node : N → bool;
  create_joint_configuration :
    cluster_configuration → cluster_configuration → cluster_configuration;
  is_node_in_configuration : N → cluster_configuration → bool
}.

(** What the node relies on: the membership test is exact. *)
Class MembershipManagerOk `{!MembershipManager} : Prop := {
  is_node_in_configuration_spec n cfg :
    is_node_in_configuration n cfg = true ↔
    n ∈ _nodes cfg ∨ _is_joint_consensus cfg = true ∧ ∃ old, _old_nodes cfg = Some old ∧ n ∈ old
}.

(** The linear membership scans of the source (loops and [std::find]). *)
Definition contains_id (l : list N) (n : N) : bool := existsb (N.eqb n) l.

Lemma contains_id_spec l n : contains_id l n = true ↔ n ∈ l.
Proof.
  unfold contains_id. rewrite existsb_exists. split.
  - intros (x & Hx & ->%N.eqb_eq). by apply list_elem_of_In.
  - intros H. exists n. split; [by apply list_elem_of_In|apply N.eqb_refl].
Qed.

Module default_membership_manager.
Definition validate_new_node (n : N) : bool := true.
Definition authenticate_node (n : N) : bool := true.

Definition create_joint_configuration (old_config new_config : cluster_configuration) :
    cluster_configuration :=
  {| _nodes := _nodes new_config;
     _is_joint_consensus := true;
     _old_nodes := Some (_nodes old_config);
     _learners := [] |}.

Definition is_node_in_configuration (n : N) (cfg : cluster_configuration) : bool :=
  if contains_id (_nodes cfg) n then true
  else if _is_joint_consensus cfg then
    match _old_nodes cfg with
    | Some old => contains_id old n
    | None => false
    end
  else false.

#[export] Instance manager : MembershipManager := {|
  Membership.validate_new_node := validate_new_node;
  Membership.authenticate_node := authenticate_node;
  Membership.create_joint_configuration := create_joint_configuration;
  Membership.is_node_in_configuration := is_node_in_configuration
|}.
End default_membership_manager.

#[export] Instance default_manager_ok :
  @MembershipManagerOk default_membership_manager.manager.
Proof.
  constructor. intros n cfg. simpl. unfold default_membership_manager.is_node_in_configuration.
  destruct (contains_id (_nodes cfg) n) eqn:En.
  { apply contains_id_spec in En. tauto. }
  assert (n ∉ _nodes cfg) as Hn.
  { intros H%contains_id_spec. congruence. }
  destruct (_is_joint_consensus cfg); [destruct (_old_nodes cfg) as [old|]|].
  - rewrite contains_id_spec. naive_solver.
  - naive_solver.
  - naive_solver.
Qed.
