(* ===== verification/Persistence.v ===== *)
(** Durable storage ([include/raft/persistence.hpp]).

    [PersistenceEngine] is the interface of the [persistence_engine] concept,
    [PersistenceEngineOk] its contract: there is an abstract [store], and every
    operation that returns acts on it as documented.  The in-memory engine, with
    its fault-injection points, is shown to meet the contract. *)

From S2P Require Import Prelude Types.

(** ** Abstract store: the contract of the concept *)

Record store : Type := mk_store {
  st_term : N;
  st_voted_for : option N;
  st_log : gmap N log_entry;
  st_snapshot : option snapshot
}.

Definition store_empty : store := mk_store 0 None ∅ None.
Definition store_set_term (t : N) (s : store) : store :=
  mk_store t (st_voted_for s) (st_log s) (st_snapshot s).
Definition store_set_vote (n : N) (s : store) : store :=
  mk_store (st_term s) (Some n) (st_log s) (st_snapshot s).
Definition store_append (e : log_entry) (s : store) : store :=
  mk_store (st_term s) (st_voted_for s) (<[e_index e := e]> (st_log s)) (st_snapshot s).
Definition store_truncate (i : N) (s : store) : store :=
  mk_store (st_term s) (st_voted_for s)
    (filter (λ p, (p.1 < i)%N) (st_log s)) (st_snapshot s).
Definition store_delete_before (i : N) (s : store) : store :=
  mk_store (st_term s) (st_voted_for s)
    (filter (λ p, (i <= p.1)%N) (st_log s)) (st_snapshot s).
Definition store_set_snapshot (sn : snapshot) (s : store) : store :=
  mk_store (st_term s) (st_voted_for s) (st_log s) (Some sn).

Class PersistenceEngine (P : Type) : Type := {
  save_current_term : N → M P ();
  load_current_term : P → N;
  save_voted_for : N → M P ();
  load_voted_for : P → option N;
  append_log_entry : log_entry → M P ();
  get_log_entry : N → P → option log_entry;
  get_log_entries : N → N → P → list log_entry;
  get_last_log_index : P → N;
  truncate_log : N → M P ();
  save_snapshot : snapshot → M P ();
  load_snapshot : P → option snapshot;
  delete_log_entries_before : N → M P ()
}.

(** [acts abs m f]: whenever [m] returns, it changed the abstract state by [f]. *)
Definition acts {P} (abs : P → store) (m : M P ()) (f : store → store) : Prop :=
  ∀ p p', m p = (Ret tt, p') → abs p' = f (abs p).

Class PersistenceEngineOk (P : Type) `{!PersistenceEngine P} : Type := {
  abs : P → store;
  save_current_term_ok t : acts abs (save_current_term t) (store_set_term t);
  load_current_term_ok p : load_current_term p = st_term (abs p);
  save_voted_for_ok n : acts abs (save_voted_for n) (store_set_vote n);
  load_voted_for_ok p : load_voted_for p = st_voted_for (abs p);
  append_log_entry_ok e : acts abs (append_log_entry e) (store_append e);
  get_log_entry_ok i p : get_log_entry i p = st_log (abs p) !! i;
  get_log_entries_ok a b p :
    get_log_entries a b p = omap (λ i, st_log (abs p) !! i) (nrange a b);
  get_last_log_index_ge i p : is_Some (st_log (abs p) !! i) → (i <= get_last_log_index p)%N;
  get_last_log_index_attained p :
    get_last_log_index p = 0%N ∨ is_Some (st_log (abs p) !! get_last_log_index p);
  truncate_log_ok i : acts abs (truncate_log i) (store_truncate i);
  save_snapshot_ok sn : acts abs (save_snapshot sn) (store_set_snapshot sn);
  load_snapshot_ok p : load_snapshot p = st_snapshot (abs p);
  delete_log_entries_before_ok i :
    acts abs (delete_log_entries_before i) (store_delete_before i)
}.

(** The operations that change the storage, and engines that do not fail: from
    a [reliable] state every write returns, to a reliable state. *)
Inductive write_op {P} `{!PersistenceEngine P} : M P () → Prop :=
  | write_term t : write_op (save_current_term t)
  | write_vote n : write_op (save_voted_for n)
  | write_entry e : write_op (append_log_entry e)
  | write_truncate i : write_op (truncate_log i)
  | write_snapshot sn : write_op (save_snapshot sn)
  | write_delete i : write_op (delete_log_entries_before i).

Class ReliableEngine (P : Type) `{!PersistenceEngine P} : Type := {
  reliable : P → Prop;
  reliable_write m p : write_op m → reliable p → ∃ p', m p = (Ret tt, p') ∧ reliable p'
}.

Create HintDb persistence.
#[export] Hint Constructors write_op : persistence.

(** ** The in-memory engine *)

Module memory_persistence_engine.
Record engine : Type := mk_engine {
  _current_term : N;
  _voted_for : option N;
  _log : gmap N log_entry;
  _snapshot : option snapshot;
  (** The libfiu failure points that are switched on; none in a normal
      build, where [fiu_do_on] compiles to nothing. *)
  fiu_enabled : string → bool
}.

Definition initial : engine := mk_engine 0 None ∅ None (λ _, false).

Definition fiu_do_on (name what : string) : M engine () := λ p,
  if fiu_enabled p name then (Throw (runtime_error what), p) else (Ret tt, p).

Definition save_current_term (term : N) : M engine () :=
  do! fiu_do_on "raft/persistence/save_current_term" "chaos: save_current_term" in
  mmodify (λ p, mk_engine term (_voted_for p) (_log p) (_snapshot p) (fiu_enabled p)).

Definition load_current_term (p : engine) : N := _current_term p.

Definition save_voted_for (node : N) : M engine () :=
  do! fiu_do_on "raft/persistence/save_voted_for" "chaos: save_voted_for" in
  mmodify (λ p, mk_engine (_current_term p) (Some node) (_log p) (_snapshot p) (fiu_enabled p)).

Definition load_voted_for (p : engine) : option N := _voted_for p.

Definition append_log_entry (entry : log_entry) : M engine () :=
  do! fiu_do_on "raft/persistence/append_log_entry" "chaos: append_log_entry" in
  mmodify (λ p, mk_engine (_current_term p) (_voted_for p)
                  (<[e_index entry := entry]> (_log p)) (_snapshot p) (fiu_enabled p)).

Definition get_log_entry (index : N) (p : engine) : option log_entry := _log p !! index.

Definition get_log_entries (start stop : N) (p : engine) : list log_entry :=
  omap (λ i, get_log_entry i p) (nrange start stop).

Definition get_last_log_index (p : engine) : N :=
  map_fold (λ index _ max_index, if (max_index <? index)%N then index else max_index)
    0%N (_log p).

Definition truncate_log (index : N) : M engine () :=
  do! fiu_do_on "raft/persistence/truncate_log" "chaos: truncate_log" in
  mmodify (λ p, mk_engine (_current_term p) (_voted_for p)
                  (filter (λ kv, ¬ (index <= kv.1)%N) (_log p)) (_snapshot p) (fiu_enabled p)).

Definition save_snapshot (snap : snapshot) : M engine () :=
  do! fiu_do_on "raft/persistence/save_snapshot" "chaos: save_snapshot" in
  mmodify (λ p, mk_engine (_current_term p) (_voted_for p) (_log p) (Some snap) (fiu_enabled p)).

Definition load_snapshot (p : engine) : option snapshot := _snapshot p.

Definition delete_log_entries_before (index : N) : M engine () :=
  mmodify (λ p, mk_engine (_current_term p) (_voted_for p)
                  (filter (λ kv, ¬ (kv.1 < index)%N) (_log p)) (_snapshot p) (fiu_enabled p)).

#[export] Instance memory_engine : PersistenceEngine engine := {|
  Persistence.save_current_term := save_current_term;
  Persistence.load_current_term := load_current_term;
  Persistence.save_voted_for := save_voted_for;
  Persistence.load_voted_for := load_voted_for;
  Persistence.append_log_entry := append_log_entry;
  Persistence.get_log_entry := get_log_entry;
  Persistence.get_log_entries := get_log_entries;
  Persistence.get_last_log_index := get_last_log_index;
  Persistence.truncate_log := truncate_log;
  Persistence.save_snapshot := save_snapshot;
  Persistence.load_snapshot := load_snapshot;
  Persistence.delete_log_entries_before := delete_log_entries_before
|}.

Definition to_store (p : engine) : store :=
  mk_store (_current_term p) (_voted_for p) (_log p) (_snapshot p).

Lemma guarded_acts name what f g :
  (∀ p, to_store (f p) = g (to_store p)) →
  acts to_store (do! fiu_do_on name what in mmodify f) g.
Proof.
  intros H p p'. unfold mlet, fiu_do_on. destruct (fiu_enabled p name); simpl; [done|].
  intros [= <-]. apply H.
Qed.

Lemma guarded_returns name what f p :
  fiu_enabled p name = false → (do! fiu_do_on name what in mmodify f) p = (Ret tt, f p).
Proof. intros H. unfold mlet, fiu_do_on. by rewrite H. Qed.

(** Without fault injection the engine is reliable. *)
#[export] Instance memory_engine_reliable : ReliableEngine engine.
Proof.
  refine {| reliable p := ∀ name, fiu_enabled p name = false |}.
  intros m p Hm Hp. destruct Hm; simpl; eexists;
    (split; [first [by apply guarded_returns|reflexivity]|exact Hp]).
Defined.

Lemma last_index_spec (m : gmap N log_entry) :
  let last := map_fold (λ index _ max_index,
                if (max_index <? index)%N then index else max_index) 0%N m in
  (∀ i, is_Some (m !! i) → (i <= last)%N) ∧ (last = 0%N ∨ is_Some (m !! last)).
Proof.
  apply (map_fold_weak_ind (λ r m, (∀ i, is_Some (m !! i) → (i <= r)%N) ∧
                               (r = 0%N ∨ is_Some (m !! r)))).
  - split; [|by left]. intros i [? Hi]. by rewrite lookup_empty in Hi.
  - intros i x m' r Hi [IH1 IH2]. destruct (N.ltb_spec r i).
    + split; [|right; rewrite lookup_insert_eq; eauto].
      intros j Hj. destruct (decide (i = j)) as [->|]; [lia|].
      rewrite lookup_insert_ne in Hj by done. specialize (IH1 j Hj). lia.
    + split.
      * intros j Hj. destruct (decide (i = j)) as [->|]; [lia|].
        rewrite lookup_insert_ne in Hj by done. by apply IH1.
      * destruct IH2 as [?|IH2]; [by left|right].
        destruct (decide (i = r)) as [->|]; [rewrite lookup_insert_eq; eauto|].
        by rewrite lookup_insert_ne.
Qed.

#[export] Instance memory_engine_ok : PersistenceEngineOk engine.
Proof.
  refine {| abs := to_store |}; intros; simpl; try done.
  - by apply guarded_acts.
  - by apply guarded_acts.
  - by apply guarded_acts.
  - by apply (proj1 (last_index_spec (_log p))).
  - apply (proj2 (last_index_spec (_log p))).
  - apply guarded_acts. intros p. unfold to_store, store_truncate. simpl. f_equal.
    apply map_filter_ext. simpl. intros. lia.
  - by apply guarded_acts.
  - intros p p' [= <-]. unfold to_store, store_delete_before. simpl. f_equal.
    apply map_filter_ext. simpl. intros. lia.
Defined.
End memory_persistence_engine.
