(* ===== verification/CommitWaiter.v ===== *)
(** The commit waiter ([include/raft/commit_waiter.hpp]): the client operations
    waiting for their log entry to be committed and applied.

    A registered pair of callbacks is a value of a type [C] (the node uses the
    promise the pair resolves); calling one of them is recorded as a [call].
    The buckets of the [unordered_map] are visited in the order of
    [map_to_list], one of the orders the C++ container may use.

    The callbacks of this file return, as those of the node do.  Over any sequence
    of operations the registered callbacks are then exactly those called plus
    those still pending.  [CommitCallbacks] has the operations for callbacks that
    throw. *)

From S2P Require Import Prelude Types.

(** Time points of [steady_clock] are nanoseconds, durations milliseconds. *)
Definition ns_per_ms : Z := 1000000.

Record pending_operation (C : Type) : Type := mk_pending {
  entry_index : N;
  callbacks : C;
  submitted_at : Z;
  op_timeout : option Z
}.
Arguments mk_pending {C} _ _ _ _.
Arguments entry_index {C} _.
Arguments callbacks {C} _.
Arguments submitted_at {C} _.
Arguments op_timeout {C} _.

(** [pending_operation::is_timed_out] at the time [now]. *)
Definition op_is_timed_out {C} (now : Z) (op : pending_operation C) : bool :=
  match op_timeout op with
  | None => false
  | Some timeout => (timeout * ns_per_ms <? now - submitted_at op)%Z
  end.

(** The call of one callback of a registered pair. *)
Inductive call (C : Type) : Type :=
  | fulfill_call (c : C) (result : bytes)
  | reject_call (c : C) (e : exn).
Arguments fulfill_call {C} _ _.
Arguments reject_call {C} _ _.

Definition called {C} (a : call C) : C :=
  match a with fulfill_call c _ => c | reject_call c _ => c end.

Abbreviation commit_waiter C := (gmap N (list (pending_operation C))).

Section commit_waiter.
Context {C : Type}.
Implicit Types (w : commit_waiter C) (op : pending_operation C).

Definition register_operation (index : N) (c : C) (timeout : option Z) (now : Z) w :
    commit_waiter C :=
  <[index := default [] (w !! index) ++ [mk_pending index c now timeout]]> w.

(** The loop over the buckets: [f] says which calls are made for a bucket and
    what remains of it ([None]: the bucket is erased). *)
Definition visit (f : N → list (pending_operation C) →
                       list (call C) * option (list (pending_operation C))) w :
    list (call C) * commit_waiter C :=
  (map_to_list w ≫= (λ kv, (f kv.1 kv.2).1), map_imap (λ k ops, (f k ops).2) w).

(** One operation of a bucket in [notify_committed_and_applied]: the result
    function may throw, which rejects the operation. *)
Definition resolve_with (result : outcome bytes) op : call C :=
  match result with
  | Ret r => fulfill_call (callbacks op) r
  | Throw e => reject_call (callbacks op) e
  | Undef what => reject_call (callbacks op) (runtime_error what)
  end.

Definition notify_committed_and_applied (commit_index : N) (get_result : N → outcome bytes) w :
    list (call C) * commit_waiter C :=
  visit (λ k ops, if (k <=? commit_index)%N
                  then (resolve_with (get_result k) <$> ops, None)
                  else ([], Some ops)) w.

(** The overload without a result function. *)
Definition notify_committed (commit_index : N) w : list (call C) * commit_waiter C :=
  notify_committed_and_applied commit_index (λ _, Ret []) w.

Definition reject_all (e : exn) (ops : list (pending_operation C)) : list (call C) :=
  (λ op, reject_call (callbacks op) e) <$> ops.

Definition cancelled (reason : string) : exn :=
  raft_completion_exception ("Operation cancelled: " +:+ reason).

Definition cancel_all_operations (reason : string) w : list (call C) * commit_waiter C :=
  visit (λ _ ops, (reject_all (cancelled reason) ops, None)) w.

Definition cancel_all_operations_leadership_lost (old_term new_term : N) w :
    list (call C) * commit_waiter C :=
  visit (λ _ ops, (reject_all (leadership_lost_exception old_term new_term) ops, None)) w.

Definition cancel_timed_out_bucket (now : Z) (ops : list (pending_operation C)) :
    list (call C) * option (list (pending_operation C)) :=
  let expired := filter (λ op, op_is_timed_out now op = true) ops in
  let kept := filter (λ op, ¬ op_is_timed_out now op = true) ops in
  ((λ op, reject_call (callbacks op)
            (commit_timeout_exception (entry_index op) (default 0%Z (op_timeout op)))) <$> expired,
   match kept with [] => None | _ => Some kept end).

Definition cancel_timed_out_operations (now : Z) w : list (call C) * commit_waiter C :=
  visit (λ _ ops, cancel_timed_out_bucket now ops) w.

Definition cancel_operations_for_index (index : N) (reason : string) w :
    list (call C) * commit_waiter C :=
  match w !! index with
  | None => ([], w)
  | Some ops => (reject_all (cancelled reason) ops, delete index w)
  end.

Definition cancel_operations_after_index (after_index : N) (reason : string) w :
    list (call C) * commit_waiter C :=
  visit (λ k ops, if (after_index <? k)%N
                  then (reject_all (cancelled reason) ops, None)
                  else ([], Some ops)) w.

(** The operations waiting in all buckets, and the getters over them. *)
Definition pending w : list (pending_operation C) := map_to_list w ≫= snd.
Definition get_pending_count w : N := N.of_nat (length (pending w)).
Definition get_pending_count_for_index (index : N) w : N :=
  N.of_nat (length (default [] (w !! index))).
Definition has_pending_operations w : bool := negb (bool_decide (w = ∅)).

(** *** Conservation *)

Lemma pending_insert k ops w :
  w !! k = None → pending (<[k := ops]> w) ≡ₚ ops ++ pending w.
Proof.
  intros H. unfold pending. by rewrite map_to_list_insert by done.
Qed.

Lemma pending_delete k ops w :
  w !! k = Some ops → pending w ≡ₚ ops ++ pending (delete k w).
Proof.
  intros H. rewrite <-(insert_delete_id w k ops) at 1 by done.
  by rewrite pending_insert by apply lookup_delete_eq.
Qed.

(** A loop that splits each bucket into called and kept operations splits the
    whole waiter. *)
Lemma visit_conserves f w :
  (∀ k ops, w !! k = Some ops →
     callbacks <$> ops ≡ₚ (called <$> (f k ops).1) ++ (callbacks <$> default [] (f k ops).2)) →
  callbacks <$> pending w ≡ₚ
    (called <$> (visit f w).1) ++ (callbacks <$> pending (visit f w).2).
Proof.
  unfold visit. simpl. induction w as [|k ops w Hk IH] using map_ind; intros Hf; [done|].
  rewrite pending_insert, map_to_list_insert, map_imap_insert by done. simpl.
  rewrite !fmap_app.
  rewrite (Hf k ops) by apply lookup_insert_eq.
  rewrite IH.
  2: { intros k' ops' Hk'. apply Hf. rewrite lookup_insert_ne; [done|congruence]. }
  assert (map_imap (λ k ops, (f k ops).2) w !! k = None) as Hn.
  { by rewrite map_lookup_imap, Hk. }
  destruct (f k ops).2 as [kept|]; simpl.
  - rewrite pending_insert, fmap_app by done. solve_Permutation.
  - rewrite delete_id by done. solve_Permutation.
Qed.

Lemma callbacks_resolve result (ops : list (pending_operation C)) :
  called <$> (resolve_with result <$> ops) = callbacks <$> ops.
Proof.
  rewrite <-list_fmap_compose. apply list_fmap_ext. by destruct result.
Qed.

Lemma callbacks_reject_all e (ops : list (pending_operation C)) :
  called <$> reject_all e ops = callbacks <$> ops.
Proof. unfold reject_all. by rewrite <-list_fmap_compose. Qed.

Lemma register_pending index c timeout now w :
  callbacks <$> pending (register_operation index c timeout now w) ≡ₚ
    c :: (callbacks <$> pending w).
Proof.
  unfold register_operation. destruct (w !! index) as [ops|] eqn:E; simpl.
  - rewrite <-insert_delete_eq, pending_insert by apply lookup_delete_eq.
    rewrite (pending_delete index ops w) by done. rewrite !fmap_app. simpl. solve_Permutation.
  - by rewrite pending_insert.
Qed.

(** *** Sequences of operations *)

Inductive waiter_op : Type :=
  | op_register (index : N) (c : C) (timeout : option Z)
  | op_notify (commit_index : N) (get_result : N → outcome bytes)
  | op_cancel_all (reason : string)
  | op_leadership_lost (old_term new_term : N)
  | op_cancel_timed_out
  | op_cancel_for_index (index : N) (reason : string)
  | op_cancel_after_index (after_index : N) (reason : string).

(** One operation at the time [now]. *)
Definition waiter_step (now : Z) (o : waiter_op) w : list (call C) * commit_waiter C :=
  match o with
  | op_register index c timeout => ([], register_operation index c timeout now w)
  | op_notify commit_index get_result => notify_committed_and_applied commit_index get_result w
  | op_cancel_all reason => cancel_all_operations reason w
  | op_leadership_lost old_term new_term => cancel_all_operations_leadership_lost old_term new_term w
  | op_cancel_timed_out => cancel_timed_out_operations now w
  | op_cancel_for_index index reason => cancel_operations_for_index index reason w
  | op_cancel_after_index after_index reason => cancel_operations_after_index after_index reason w
  end.

Fixpoint waiter_run (trace : list (Z * waiter_op)) w : list (call C) * commit_waiter C :=
  match trace with
  | [] => ([], w)
  | (now, o) :: trace =>
      let '(calls, w') := waiter_step now o w in
      let '(calls', w'') := waiter_run trace w' in
      (calls ++ calls', w'')
  end.

Definition registered_by (o : waiter_op) : list C :=
  match o with op_register _ c _ => [c] | _ => [] end.

Lemma waiter_step_conserves now o w :
  registered_by o ++ (callbacks <$> pending w) ≡ₚ
    (called <$> (waiter_step now o w).1) ++ (callbacks <$> pending (waiter_step now o w).2).
Proof.
  destruct o as [index c timeout|ci get|reason|t1 t2| |index reason|index reason];
    cbn [waiter_step registered_by app].
  - simpl. by rewrite register_pending.
  - apply visit_conserves. intros k ops _.
    destruct (k <=? ci)%N; simpl; [by rewrite callbacks_resolve, app_nil_r|done].
  - apply visit_conserves. intros k ops _. simpl. by rewrite callbacks_reject_all, app_nil_r.
  - apply visit_conserves. intros k ops _. simpl. by rewrite callbacks_reject_all, app_nil_r.
  - apply visit_conserves. intros k ops _. unfold cancel_timed_out_bucket. simpl.
    rewrite <-list_fmap_compose. trans (callbacks <$>
      (filter (λ op, op_is_timed_out now op = true) ops ++
       filter (λ op, ¬ op_is_timed_out now op = true) ops)).
    { apply fmap_Permutation. symmetry. apply filter_app_complement. }
    rewrite fmap_app. by destruct (filter (λ op, ¬ _) ops).
  - unfold cancel_operations_for_index. destruct (w !! index) as [ops|] eqn:E; [|done]. simpl.
    rewrite callbacks_reject_all, <-fmap_app. apply fmap_Permutation. by apply pending_delete.
  - apply visit_conserves. intros k ops _.
    destruct (index <? k)%N; simpl; [by rewrite callbacks_reject_all, app_nil_r|done].
Qed.

Lemma waiter_run_conserves trace w :
  (trace ≫= (λ p, registered_by p.2)) ++ (callbacks <$> pending w) ≡ₚ
    (called <$> (waiter_run trace w).1) ++ (callbacks <$> pending (waiter_run trace w).2).
Proof.
  revert w. induction trace as [|[now o] trace IH]; intros w; simpl; [done|].
  pose proof (waiter_step_conserves now o w) as Hs.
  destruct (waiter_step now o w) as [calls w'] eqn:E. specialize (IH w').
  destruct (waiter_run trace w') as [calls' w''] eqn:E'. simpl in *.
  rewrite fmap_app, <-(assoc_L (++) (called <$> calls)), <-IH.
  rewrite (assoc_L (++) (called <$> calls)), (Permutation_app_comm (called <$> calls)).
  rewrite <-(assoc_L (++) _ (called <$> calls)), <-Hs. solve_Permutation.
Qed.

(** After a commit up to [commit_index] nothing at or below it waits, and what
    waits above it is untouched. *)
Lemma notify_committed_lookup commit_index get_result w k :
  (notify_committed_and_applied commit_index get_result w).2 !! k =
    if (k <=? commit_index)%N then None else w !! k.
Proof.
  unfold notify_committed_and_applied, visit. simpl. rewrite map_lookup_imap.
  destruct (w !! k) as [ops|]; simpl; [|by destruct (k <=? commit_index)%N].
  by destruct (k <=? commit_index)%N.
Qed.

(** The calls made by a commit notification: one per operation waiting at or
    below the commit index, with that index's result. *)
Lemma notify_committed_calls commit_index get_result w a :
  a ∈ (notify_committed_and_applied commit_index get_result w).1 ↔
    ∃ k ops op, w !! k = Some ops ∧ op ∈ ops ∧ (k <= commit_index)%N ∧
      a = resolve_with (get_result k) op.
Proof.
  unfold notify_committed_and_applied, visit. simpl. rewrite list_elem_of_bind. split.
  - intros ([k ops] & Ha & Hk%elem_of_map_to_list). simpl in Ha.
    destruct (N.leb_spec k commit_index); simpl in Ha; [|by apply not_elem_of_nil in Ha].
    apply list_elem_of_fmap in Ha as (op & -> & Hop). naive_solver.
  - intros (k & ops & op & Hk & Hop & Hle & ->). exists (k, ops).
    split; [|by apply elem_of_map_to_list]. simpl.
    rewrite (proj2 (N.leb_le _ _)) by done. simpl. apply list_elem_of_fmap. eauto.
Qed.

End commit_waiter.
Arguments waiter_op : clear implicits.
