(* ===== verification/CommitCallbacks.v ===== *)
(** The commit waiter of [commit_waiter.hpp] with callbacks that may throw.

    [CommitWaiter] says which callbacks each operation calls and what stays, for
    callbacks that return; the callbacks of the node do, they resolve a promise.
    Here a callback is any function: whether a call returns or throws is a
    parameter that may depend on all calls made before.  An exception leaves an
    operation of the waiter where it was thrown, with the calls made so far and
    with the operations that were not yet erased.

    Shown: no registered operation is lost, whatever the callbacks throw; while no
    reject callback throws, each operation is resolved exactly once; and with
    callbacks that return the operations are those of [CommitWaiter]. *)

From S2P Require Import Prelude Types CommitWaiter.

(** A call of a callback, with what it threw. *)
Abbreviation made_call C := (call C * option exn)%type.

Record waiter_state (C : Type) : Type := mk_waiter {
  made : list (made_call C);
  waiting : commit_waiter C
}.
Arguments mk_waiter {C} _ _.
Arguments made {C} _.
Arguments waiting {C} _.

Module commit_waiter.
Section operations.
Context {C : Type}.
(** What the next call throws, after the calls already made. *)
Context (throws : list (made_call C) → call C → option exn).
Implicit Types (s : waiter_state C) (op : pending_operation C).

Definition invoke (a : call C) : M (waiter_state C) () := λ s,
  let r := throws (made s) a in
  (match r with None => Ret tt | Some e => Throw e end, mk_waiter (made s ++ [(a, r)]) (waiting s)).

Definition with_waiting (f : commit_waiter C → commit_waiter C) : M (waiter_state C) () :=
  mmodify (λ s, mk_waiter (made s) (f (waiting s))).

Definition register_operation (index : N) (c : C) (timeout : option Z) (now : Z) : M (waiter_state C) () :=
  with_waiting (CommitWaiter.register_operation index c timeout now).

(** The body of the loop over the operations of an index: the [try] covers the
    result function and the fulfill callback. *)
Definition resolve (result : exn + bytes) op : M (waiter_state C) () :=
  mcatch
    (let! r := mlift (match result with inl e => Throw e | inr r => Ret r end) in
     invoke (fulfill_call (callbacks op) r))
    (λ e, invoke (reject_call (callbacks op) e)).

Definition notify_committed_and_applied (commit_index : N) (get_result : N → exn + bytes) :
    M (waiter_state C) () :=
  let! s := mget in
  mfor (map_to_list (waiting s)) (λ bucket,
    mwhen (bucket.1 <=? commit_index)%N
      (do! mfor bucket.2 (resolve (get_result bucket.1)) in
       with_waiting (delete bucket.1))).

Definition reject_each (e : exn) (ops : list (pending_operation C)) : M (waiter_state C) () :=
  mfor ops (λ op, invoke (reject_call (callbacks op) e)).

(** Every callback first, then [clear]. *)
Definition cancel_all_with (e : exn) : M (waiter_state C) () :=
  let! s := mget in
  do! mfor (map_to_list (waiting s)) (λ bucket, reject_each e bucket.2) in
  with_waiting (λ _, ∅).

Definition cancel_all_operations (reason : string) : M (waiter_state C) () :=
  cancel_all_with (cancelled reason).

Definition cancel_all_operations_leadership_lost (old_term new_term : N) : M (waiter_state C) () :=
  cancel_all_with (leadership_lost_exception old_term new_term).

(** The inner loop of [cancel_timed_out_operations]: [kept] has been passed, an
    operation leaves the vector after its callback returned. *)
Fixpoint expire_bucket (now : Z) (index : N) (kept ops : list (pending_operation C)) : M (waiter_state C) () :=
  match ops with
  | [] => mwhen (match kept with [] => true | _ => false end) (with_waiting (delete index))
  | op :: ops =>
      if op_is_timed_out now op then
        do! invoke (reject_call (callbacks op)
              (commit_timeout_exception (entry_index op) (default 0%Z (op_timeout op)))) in
        do! with_waiting <[index := kept ++ ops]> in
        expire_bucket now index kept ops
      else expire_bucket now index (kept ++ [op]) ops
  end.

Definition cancel_timed_out_operations (now : Z) : M (waiter_state C) () :=
  let! s := mget in
  mfor (map_to_list (waiting s)) (λ bucket, expire_bucket now bucket.1 [] bucket.2).

Definition cancel_operations_for_index (index : N) (reason : string) : M (waiter_state C) () :=
  let! s := mget in
  match waiting s !! index with
  | None => mreturn tt
  | Some ops =>
      do! reject_each (cancelled reason) ops in
      with_waiting (delete index)
  end.

Definition cancel_operations_after_index (after_index : N) (reason : string) : M (waiter_state C) () :=
  let! s := mget in
  mfor (map_to_list (waiting s)) (λ bucket,
    mwhen (after_index <? bucket.1)%N
      (do! reject_each (cancelled reason) bucket.2 in
       with_waiting (delete bucket.1))).
End operations.
End commit_waiter.

(** ** Sequences of operations *)

Inductive waiter_action (C : Type) : Type :=
  | do_register (index : N) (c : C) (timeout : option Z)
  | do_notify (commit_index : N) (get_result : N → exn + bytes)
  | do_cancel_all (reason : string)
  | do_leadership_lost (old_term new_term : N)
  | do_cancel_timed_out
  | do_cancel_for_index (index : N) (reason : string)
  | do_cancel_after_index (after_index : N) (reason : string).
Arguments do_register {C} _ _ _.
Arguments do_notify {C} _ _.
Arguments do_cancel_all {C} _.
Arguments do_leadership_lost {C} _ _.
Arguments do_cancel_timed_out {C}.
Arguments do_cancel_for_index {C} _ _.
Arguments do_cancel_after_index {C} _ _.

Definition registers {C} (o : waiter_action C) : list C :=
  match o with do_register _ c _ => [c] | _ => [] end.

Section actions.
Context {C : Type}.
Context (throws : list (made_call C) → call C → option exn).

Definition perform (now : Z) (o : waiter_action C) : M (waiter_state C) () :=
  match o with
  | do_register index c timeout => commit_waiter.register_operation index c timeout now
  | do_notify commit_index get_result =>
      commit_waiter.notify_committed_and_applied throws commit_index get_result
  | do_cancel_all reason => commit_waiter.cancel_all_operations throws reason
  | do_leadership_lost old_term new_term =>
      commit_waiter.cancel_all_operations_leadership_lost throws old_term new_term
  | do_cancel_timed_out => commit_waiter.cancel_timed_out_operations throws now
  | do_cancel_for_index index reason => commit_waiter.cancel_operations_for_index throws index reason
  | do_cancel_after_index after_index reason =>
      commit_waiter.cancel_operations_after_index throws after_index reason
  end.

(** The waiter after a sequence of operations, each called at a time; a caller may
    catch what one of them throws and go on. *)
Definition run_actions (trace : list (Z * waiter_action C)) : waiter_state C :=
  foldl (λ s a, state_of (perform a.1 a.2) s) (mk_waiter [] ∅) trace.
End actions.

(** ** Loops over the buckets *)

Abbreviation waiting_callbacks s := (callbacks <$> pending (waiting s)).

Section loops.
Context {C : Type}.
Implicit Types (s : waiter_state C) (w : commit_waiter C) (op : pending_operation C).

(** What a visit of one bucket does to the whole, a loop over all of them does, if a
    visit touches no other bucket. *)
Definition visits (P : relation (waiter_state C)) (index : N) (ops : list (pending_operation C))
    (m : M (waiter_state C) ()) : Prop :=
  ∀ s, waiting s !! index = Some ops →
    P s (m s).2 ∧ ∀ k, k ≠ index → waiting (m s).2 !! k = waiting s !! k.

Lemma bucket_loop (P : relation (waiter_state C)) `{!PreOrder P} f :
  (∀ index ops, visits P index ops (f (index, ops))) →
  ∀ s, P s (mfor (map_to_list (waiting s)) f s).2.
Proof.
  intros Hf s.
  assert (∀ buckets s, NoDup buckets.*1 → (∀ index ops, (index, ops) ∈ buckets → waiting s !! index = Some ops) →
    P s (mfor buckets f s).2) as H.
  { clear s. induction buckets as [|[index ops] buckets IH]; intros s Hnd Hin; cbn [mfor]; [reflexivity|].
    apply NoDup_cons in Hnd as [Hnew Hnd].
    destruct (Hf index ops s) as [HP Hother]; [apply Hin; set_solver|]. unfold mlet.
    destruct (f (index, ops) s) as [[[]|e|u] s'] eqn:E; [|exact HP|exact HP]. cbn [snd] in *.
    etrans; [exact HP|]. apply IH; [done|]. intros k ops' Hk. rewrite Hother; [apply Hin; set_solver|].
    intros ->. apply Hnew. apply list_elem_of_fmap. by exists (index, ops'). }
  apply H; [apply NoDup_fst_map_to_list|]. intros index ops. by rewrite elem_of_map_to_list.
Qed.

Lemma visits_when P `{!PreOrder P} b index ops m :
  visits P index ops m → visits P index ops (mwhen b m).
Proof. intros H. destruct b; [done|]. intros s _. by split. Qed.

Lemma waiting_remove index kept op ops w :
  w !! index = Some (kept ++ op :: ops) →
  callbacks <$> pending w ≡ₚ callbacks op :: (callbacks <$> pending (<[index := kept ++ ops]> w)).
Proof.
  intros Hw. rewrite (pending_delete index (kept ++ op :: ops) w) by done.
  rewrite <- (insert_delete_eq w), pending_insert by apply lookup_delete_eq.
  rewrite !fmap_app. cbn [fmap list_fmap]. solve_Permutation.
Qed.

Lemma waiting_erase index ops w :
  w !! index = Some ops → callbacks <$> pending w ≡ₚ (callbacks <$> ops) ++ (callbacks <$> pending (delete index w)).
Proof. intros Hw. rewrite <- fmap_app. apply fmap_Permutation. by apply pending_delete. Qed.
End loops.

(** ** Nothing is lost *)

Section kept.
Context {C : Type}.
Context (throws : list (made_call C) → call C → option exn).
Implicit Types (s : waiter_state C) (op : pending_operation C).

Definition returned (c : C) s : Prop := ∃ a, called a = c ∧ (a, None) ∈ made s.

(** Calls are only added; an operation leaves the waiter after a callback of it
    returned; none enters. *)
Definition keeps : relation (waiter_state C) := λ s s',
  made s ⊆ made s' ∧ waiting_callbacks s' ⊆ waiting_callbacks s ∧
  (∀ c, c ∈ waiting_callbacks s → c ∈ waiting_callbacks s' ∨ returned c s').

Lemma returned_mono c s s' : made s ⊆ made s' → returned c s → returned c s'.
Proof. intros H (a & Ha & Hin). exists a. split; [done|]. by apply H. Qed.

#[export] Instance keeps_preorder : PreOrder keeps.
Proof.
  split.
  - intros s. split_and!; [done|done|by left].
  - intros s1 s2 s3 (M1 & P1 & K1) (M2 & P2 & K2). split_and!; [set_solver|set_solver|].
    intros c Hc. destruct (K1 c Hc) as [Hc'|Hr]; [by apply K2|]. right. by eapply returned_mono.
Qed.

(** A program that calls callbacks only, and when it returns has reached one of
    each operation. *)
Definition serves (ops : list (pending_operation C)) (m : M (waiter_state C) ()) : Prop :=
  ∀ s, waiting (m s).2 = waiting s ∧ made s ⊆ made (m s).2 ∧
    ((m s).1 = Ret tt → ∀ op, op ∈ ops → returned (callbacks op) (m s).2).

Lemma serves_invoke op a : called a = callbacks op → serves [op] (commit_waiter.invoke throws a).
Proof.
  intros Ha s. unfold commit_waiter.invoke. cbn. split_and!; [done|set_solver|].
  destruct (throws (made s) a); [done|]. intros _ op' ->%list_elem_of_singleton. exists a. set_solver.
Qed.

Lemma serves_resolve result op : serves [op] (commit_waiter.resolve throws result op).
Proof.
  unfold commit_waiter.resolve. intros s. unfold mcatch. destruct result as [e|r]; unfold mlet, mlift; cbn beta iota.
  { apply (serves_invoke op (reject_call (callbacks op) e) eq_refl s). }
  pose proof (serves_invoke op (fulfill_call (callbacks op) r) eq_refl s) as (Hw & Hm & Hr).
  destruct (commit_waiter.invoke _ _ s) as [[[]|e|u] s']; [done| |done].
  destruct (serves_invoke op (reject_call (callbacks op) e) eq_refl s') as (Hw' & Hm' & Hr'). cbn [fst snd] in *.
  split_and!; [congruence|set_solver|done].
Qed.

Lemma serves_let ops ops' m m' : serves ops m → serves ops' m' → serves (ops ++ ops') (do! m in m').
Proof.
  intros H H' s. destruct (H s) as (Hw & Hm & Hr). unfold mlet.
  destruct (m s) as [[[]|e|u] s']; [|done|done]. destruct (H' s') as (Hw' & Hm' & Hr'). cbn [fst snd] in *.
  split_and!; [congruence|set_solver|]. intros Hret op [Hop|Hop]%elem_of_app; [|by apply Hr'].
  eapply returned_mono; [exact Hm'|by apply Hr].
Qed.

Lemma serves_for {A} (l : list A) (ops : A → list (pending_operation C)) f :
  (∀ x, serves (ops x) (f x)) → serves (l ≫= ops) (mfor l f).
Proof.
  intros H. induction l as [|x l IH]; cbn [mfor mbind list_bind].
  - intros s. split_and!; [done|done|set_solver].
  - by apply serves_let.
Qed.

Lemma serves_each (ops : list (pending_operation C)) f : (∀ op, serves [op] (f op)) → serves ops (mfor ops f).
Proof.
  intros H. replace ops with (ops ≫= λ op, [op]) at 1; [by apply serves_for|].
  induction ops as [|op ops IH]; [done|]. cbn [mbind list_bind app]. f_equal. exact IH.
Qed.

Lemma serves_reject e ops : serves ops (commit_waiter.reject_each throws e ops).
Proof. apply serves_each. intros op. by apply serves_invoke. Qed.

(** A bucket is erased once all its operations are reached. *)
Lemma visits_erase index ops m :
  serves ops m → visits keeps index ops (do! m in commit_waiter.with_waiting (delete index)).
Proof.
  intros H s Hw. destruct (H s) as (Hsame & Hm & Hr). unfold mlet.
  destruct (m s) as [[[]|e|u] s']; cbn [fst snd] in *.
  - split; cbn; [|intros k Hk; rewrite Hsame; by apply lookup_delete_ne].
    pose proof (waiting_erase index ops _ Hw) as Hp. split_and!; cbn [made waiting]; [done| |].
    + rewrite Hsame, Hp. set_solver.
    + rewrite Hsame. intros c. rewrite Hp, elem_of_app. intros [(op & -> & Hop)%list_elem_of_fmap|Hc]; [|by left].
      right. destruct (Hr eq_refl op Hop) as (a & Ha & Hin). by exists a.
  - rewrite Hsame. split; [|done]. unfold keeps. rewrite Hsame. split_and!; [done|done|by left].
  - rewrite Hsame. split; [|done]. unfold keeps. rewrite Hsame. split_and!; [done|done|by left].
Qed.

(** One operation of a bucket is erased after its callback returned. *)
Lemma visits_expire now index kept ops :
  visits keeps index (kept ++ ops) (commit_waiter.expire_bucket throws now index kept ops).
Proof.
  revert kept. induction ops as [|op ops IH]; intros kept s Hw; cbn [commit_waiter.expire_bucket].
  - destruct kept as [|op kept]; cbn [mwhen]; [|by split].
    apply (visits_erase index [] (mreturn tt)); [|done]. intros s'. split_and!; [done|done|set_solver].
  - destruct (op_is_timed_out now op).
    2:{ apply IH. by rewrite <- app_assoc. }
    set (a := reject_call _ _). destruct (serves_invoke op a eq_refl s) as (Hsame & Hm & Hr).
    destruct (commit_waiter.invoke throws a s) as [[[]|e|u] s'] eqn:E; cbn [fst snd] in Hsame, Hm, Hr.
    + rewrite (let_eval _ _ _ _ _ E). set (s2 := mk_waiter (made s') (<[index := kept ++ ops]> (waiting s'))).
      change (mlet (commit_waiter.with_waiting <[index := kept ++ ops]>) _ s')
        with (commit_waiter.expire_bucket throws now index kept ops s2).
      destruct (IH kept s2) as [HP Hother]; [unfold s2; cbn; by rewrite lookup_insert_eq|].
      split; [|intros k Hk; rewrite Hother by done; unfold s2; cbn; rewrite Hsame; by apply lookup_insert_ne].
      etrans; [|exact HP]. pose proof (waiting_remove index kept op ops _ Hw) as Hp. unfold s2.
      split_and!; cbn [made waiting]; [done|rewrite Hsame, Hp; set_solver|].
      rewrite Hsame. intros c. rewrite Hp, elem_of_cons. intros [->|Hc]; [|by left]. right.
      destruct (Hr eq_refl op) as (a' & Ha' & Hin); [set_solver|]. by exists a'.
    + unfold mlet. rewrite E. cbn [snd]. rewrite Hsame. split; [|done]. unfold keeps. rewrite Hsame. split_and!; [done|done|by left].
    + unfold mlet. rewrite E. cbn [snd]. rewrite Hsame. split; [|done]. unfold keeps. rewrite Hsame. split_and!; [done|done|by left].
Qed.

Lemma keeps_cancel_all e s : keeps s (commit_waiter.cancel_all_with throws e s).2.
Proof.
  unfold commit_waiter.cancel_all_with. rewrite let_get.
  assert (serves (pending (waiting s))
    (mfor (map_to_list (waiting s)) (λ bucket, commit_waiter.reject_each throws e bucket.2))) as H.
  { apply serves_for. intros bucket. apply serves_reject. }
  destruct (H s) as (Hsame & Hm & Hr). unfold mlet.
  destruct (mfor _ _ s) as [[[]|e'|u] s'] eqn:E; cbn [fst snd] in *.
  - split_and!; cbn [made waiting]; [done|set_solver|].
    intros c (op & -> & Hop)%list_elem_of_fmap. right. destruct (Hr eq_refl op Hop) as (a & Ha & Hin). by exists a.
  - unfold keeps. rewrite Hsame. split_and!; [done|done|by left].
  - unfold keeps. rewrite Hsame. split_and!; [done|done|by left].
Qed.

(** Every operation of the waiter but registration. *)
Lemma keeps_perform now o s :
  registers o = [] → keeps s (state_of (perform throws now o) s).
Proof.
  unfold state_of. destruct o as [index c timeout|ci get|reason|t1 t2| |index reason|index reason];
    cbn [registers perform]; intros Hreg; [done|..].
  - unfold commit_waiter.notify_committed_and_applied. rewrite let_get. apply bucket_loop; [apply _|].
    intros index ops. apply visits_when, visits_erase, serves_each; [apply _|]. apply serves_resolve.
  - apply keeps_cancel_all.
  - apply keeps_cancel_all.
  - unfold commit_waiter.cancel_timed_out_operations. rewrite let_get. apply bucket_loop; [apply _|].
    intros index ops. apply (visits_expire now index []).
  - unfold commit_waiter.cancel_operations_for_index. rewrite let_get.
    destruct (waiting s !! index) as [ops|] eqn:E; [|reflexivity].
    apply (visits_erase index ops); [apply serves_reject|done].
  - unfold commit_waiter.cancel_operations_after_index. rewrite let_get. apply bucket_loop; [apply _|].
    intros k ops. apply visits_when, visits_erase, serves_reject. apply _.
Qed.

Lemma register_kept index c timeout now s :
  waiting_callbacks (state_of (perform throws now (do_register index c timeout)) s) ≡ₚ c :: waiting_callbacks s ∧
  made (state_of (perform throws now (do_register index c timeout)) s) = made s.
Proof. split; [apply register_pending|done]. Qed.
End kept.

(** ** Each operation is resolved once *)

(** The calls that resolve one operation: its fulfill callback returned, its reject
    callback returned, or the former threw and the latter was given the exception. *)
Inductive resolution {C} (c : C) : list (made_call C) → Prop :=
  | resolved_fulfilled r : resolution c [(fulfill_call c r, None)]
  | resolved_rejected e : resolution c [(reject_call c e, None)]
  | resolved_after_throw r e : resolution c [(fulfill_call c r, Some e); (reject_call c e, None)].

Section once.
Context {C : Type}.
Context (throws : list (made_call C) → call C → option exn).
Context (rejects_return : ∀ calls c e, throws calls (reject_call c e) = None).
Implicit Types (s : waiter_state C) (op : pending_operation C) (groups : list (C * list (made_call C))).

Definition resolutions groups : Prop := Forall (λ g, resolution g.1 g.2) groups.
Definition calls_of groups : list (made_call C) := concat groups.*2.

(** The calls made in between are resolutions of operations that left the waiter. *)
Definition exact : relation (waiter_state C) := λ s s', ∃ groups,
  resolutions groups ∧ made s' = made s ++ calls_of groups ∧
  waiting_callbacks s ≡ₚ groups.*1 ++ waiting_callbacks s'.

#[export] Instance exact_preorder : PreOrder exact.
Proof.
  split.
  - intros s. exists []. split_and!; [constructor|by rewrite app_nil_r|done].
  - intros s1 s2 s3 (g1 & R1 & M1 & P1) (g2 & R2 & M2 & P2). exists (g1 ++ g2). split_and!.
    + by apply Forall_app.
    + rewrite M2, M1. unfold calls_of. by rewrite fmap_app, concat_app, app_assoc.
    + by rewrite P1, P2, fmap_app, app_assoc.
Qed.

(** A program that resolves these operations, in order, and returns. *)
Definition resolves (ops : list (pending_operation C)) (m : M (waiter_state C) ()) : Prop :=
  ∀ s, ∃ groups, resolutions groups ∧ groups.*1 = callbacks <$> ops ∧
    m s = (Ret tt, mk_waiter (made s ++ calls_of groups) (waiting s)).

Lemma resolves_reject_one op e :
  resolves [op] (commit_waiter.invoke throws (reject_call (callbacks op) e)).
Proof.
  intros s. exists [(callbacks op, [(reject_call (callbacks op) e, None)])]. split_and!; [|done|].
  - repeat constructor.
  - unfold commit_waiter.invoke. by rewrite rejects_return.
Qed.

Lemma resolves_resolve result op : resolves [op] (commit_waiter.resolve throws result op).
Proof.
  intros s. unfold commit_waiter.resolve, mcatch. destruct result as [e|r]; unfold mlet, mlift; cbn beta iota.
  { apply resolves_reject_one. }
  unfold commit_waiter.invoke. destruct (throws (made s) (fulfill_call (callbacks op) r)) as [e|] eqn:E.
  - exists [(callbacks op, [(fulfill_call (callbacks op) r, Some e); (reject_call (callbacks op) e, None)])].
    split_and!; [repeat constructor|done|]. rewrite rejects_return. cbn. by rewrite <- app_assoc.
  - exists [(callbacks op, [(fulfill_call (callbacks op) r, None)])]. split_and!; [repeat constructor|done..].
Qed.

Lemma resolves_let ops ops' m m' : resolves ops m → resolves ops' m' → resolves (ops ++ ops') (do! m in m').
Proof.
  intros H H' s. destruct (H s) as (g & R & F & E). rewrite (let_eval _ _ _ _ _ E).
  destruct (H' (mk_waiter (made s ++ calls_of g) (waiting s))) as (g' & R' & F' & ->). exists (g ++ g').
  split_and!; [by apply Forall_app|by rewrite !fmap_app, F, F'|]. cbn [made waiting].
  unfold calls_of. by rewrite fmap_app, concat_app, app_assoc.
Qed.

Lemma resolves_for {A} (l : list A) (ops : A → list (pending_operation C)) f :
  (∀ x, resolves (ops x) (f x)) → resolves (l ≫= ops) (mfor l f).
Proof.
  intros H. induction l as [|x l IH]; cbn [mfor mbind list_bind].
  - intros [calls w]. exists []. split_and!; [constructor|done|]. cbn. by rewrite app_nil_r.
  - by apply resolves_let.
Qed.

Lemma resolves_each (ops : list (pending_operation C)) f : (∀ op, resolves [op] (f op)) → resolves ops (mfor ops f).
Proof.
  intros H. replace ops with (ops ≫= λ op, [op]) at 1; [by apply resolves_for|].
  induction ops as [|op ops IH]; [done|]. cbn [mbind list_bind app]. f_equal. exact IH.
Qed.

Lemma resolves_reject e ops : resolves ops (commit_waiter.reject_each throws e ops).
Proof. apply resolves_each. intros op. apply resolves_reject_one. Qed.

Lemma exact_erase index ops m :
  resolves ops m → visits exact index ops (do! m in commit_waiter.with_waiting (delete index)).
Proof.
  intros H s Hw. destruct (H s) as (groups & R & F & E). rewrite (let_eval _ _ _ _ _ E). cbn [snd made waiting].
  split; [|intros k Hk; by apply lookup_delete_ne]. exists groups. split_and!; [done|done|].
  cbn [waiting]. rewrite F. by apply waiting_erase.
Qed.

Lemma exact_expire now index kept ops :
  visits exact index (kept ++ ops) (commit_waiter.expire_bucket throws now index kept ops).
Proof.
  revert kept. induction ops as [|op ops IH]; intros kept s Hw; cbn [commit_waiter.expire_bucket].
  - destruct kept as [|op kept]; cbn [mwhen]; [|by split].
    apply (exact_erase index [] (mreturn tt)); [|done]. apply (resolves_for [] (λ _ : (), []) (λ _, mreturn tt)).
    intros [] [calls w]. exists []. split_and!; [constructor|done|]. cbn. by rewrite app_nil_r.
  - destruct (op_is_timed_out now op).
    2:{ apply IH. by rewrite <- app_assoc. }
    edestruct (resolves_reject_one op) as (groups & R & F & E). rewrite (let_eval _ _ _ _ _ E).
    set (s2 := mk_waiter (made s ++ calls_of groups) (<[index := kept ++ ops]> (waiting s))).
    change (mlet (commit_waiter.with_waiting <[index := kept ++ ops]>) _ _)
      with (commit_waiter.expire_bucket throws now index kept ops s2).
    destruct (IH kept s2) as [HP Hother]; [unfold s2; cbn; by rewrite lookup_insert_eq|].
    split; [|intros k Hk; rewrite Hother by done; by apply lookup_insert_ne].
    etrans; [|exact HP]. exists groups. split_and!; [done|done|]. rewrite F. by apply waiting_remove.
Qed.

Lemma exact_cancel_all e s : exact s (commit_waiter.cancel_all_with throws e s).2.
Proof.
  unfold commit_waiter.cancel_all_with. rewrite let_get.
  assert (resolves (pending (waiting s))
    (mfor (map_to_list (waiting s)) (λ bucket, commit_waiter.reject_each throws e bucket.2))) as H.
  { apply resolves_for. intros bucket. apply resolves_reject. }
  destruct (H s) as (groups & R & F & E). rewrite (let_eval _ _ _ _ _ E). exists groups.
  split_and!; [done|done|]. cbn. by rewrite F, app_nil_r.
Qed.

Lemma exact_perform now o s : registers o = [] → exact s (state_of (perform throws now o) s).
Proof.
  unfold state_of. destruct o as [index c timeout|ci get|reason|t1 t2| |index reason|index reason];
    cbn [registers perform]; intros Hreg; [done|..].
  - unfold commit_waiter.notify_committed_and_applied. rewrite let_get. apply bucket_loop; [apply _|].
    intros index ops. apply visits_when, exact_erase, resolves_each; [apply _|]. apply resolves_resolve.
  - apply exact_cancel_all.
  - apply exact_cancel_all.
  - unfold commit_waiter.cancel_timed_out_operations. rewrite let_get. apply bucket_loop; [apply _|].
    intros index ops. apply (exact_expire now index []).
  - unfold commit_waiter.cancel_operations_for_index. rewrite let_get.
    destruct (waiting s !! index) as [ops|] eqn:E; [|reflexivity].
    apply (exact_erase index ops); [apply resolves_reject|done].
  - unfold commit_waiter.cancel_operations_after_index. rewrite let_get. apply bucket_loop; [apply _|].
    intros k ops. apply visits_when, exact_erase, resolves_reject. apply _.
Qed.
End once.

(** C33. Client operations are neither lost nor resolved twice.  The callbacks may throw as
    they like, and callers of the waiter may go on after an exception.  After any
    sequence of operations on an empty waiter every registered operation is still
    waiting or one of its callbacks returned, and nothing else waits or was called.
    As long as no reject callback throws, the calls that were made are, operation by
    operation, the resolutions of exactly the registered operations that no longer
    wait: a fulfill callback that returned, a reject callback that returned, or a
    fulfill callback that threw and then the reject callback with its exception. *)
Theorem operations_resolved_exactly_once {C} throws (trace : list (Z * waiter_action C)) :
  let registered := trace ≫= (λ a, registers a.2) in
  let s := run_actions throws trace in
  (∀ c, c ∈ registered → c ∈ waiting_callbacks s ∨ returned c s) ∧
  (∀ c, c ∈ waiting_callbacks s → c ∈ registered) ∧
  ((∀ calls c e, throws calls (reject_call c e) = None) →
   ∃ groups, resolutions groups ∧ made s = calls_of groups ∧ registered ≡ₚ groups.*1 ++ waiting_callbacks s).
Proof.
  induction trace as [|[now o] trace IH] using rev_ind; cbn zeta.
  { split_and!; [set_solver|set_solver|]. intros _. exists []. split_and!; [constructor|done|done]. }
  destruct IH as (Hlost & Hwait & Honce). unfold run_actions in *. rewrite foldl_app, bind_app.
  set (s := foldl _ _ trace) in *. cbn [foldl fst snd mbind list_bind]. rewrite app_nil_r.
  destruct (decide (registers o = [])) as [Hr|Hr].
  - rewrite Hr, app_nil_r. destruct (keeps_perform throws now o s Hr) as (Hm & Hp & Hk). split_and!.
    + intros c Hc. destruct (Hlost c Hc) as [Hc'|Hc']; [by apply Hk|]. right. by eapply returned_mono.
    + intros c Hc. by apply Hwait, Hp.
    + intros Hrej. destruct (Honce Hrej) as (g & R & E & P).
      destruct (exact_perform throws Hrej now o s Hr) as (g' & R' & E' & P'). exists (g ++ g').
      split_and!; [by apply Forall_app| |by rewrite P, P', fmap_app, app_assoc].
      rewrite E', E. unfold calls_of. by rewrite fmap_app, concat_app.
  - destruct o as [index c timeout| | | | | |]; try done.
    destruct (register_kept throws index c timeout now s) as [P E]. cbn [registers]. split_and!.
    + intros c'. rewrite P, elem_of_app, list_elem_of_singleton, elem_of_cons.
      intros [Hc| ->]; [|by left; left]. destruct (Hlost c' Hc) as [Hw|(a & Ha & Hin)]; [by left; right|].
      right. exists a. by rewrite E.
    + intros c'. rewrite P, elem_of_cons. set_solver.
    + intros Hrej. destruct (Honce Hrej) as (g & R & Eg & Pg). exists g. rewrite E, P, Pg.
      split_and!; [done|done|]. rewrite <- app_assoc. apply Permutation_app_head, (Permutation_app_comm _ [c]).
Qed.

(** Three clients at one index: the first takes its result, the fulfill callback of
    the second throws, the third has timed out before. *)
Definition sample_trace : list (Z * waiter_action string) :=
  [(0%Z, do_register 3 "a"%string None); (1%Z, do_register 3 "b"%string None);
   (2%Z, do_register 3 "c"%string (Some 10%Z)); (20000000%Z, do_cancel_timed_out);
   (20000001%Z, do_register 7 "d"%string None); (20000002%Z, do_notify 5 (λ _, inr []))].
Definition sample_throws (calls : list (made_call string)) (a : call string) : option exn :=
  match a with
  | fulfill_call c _ => if String.eqb c "b" then Some (runtime_error "promise already satisfied") else None
  | reject_call _ _ => None
  end.

Lemma operations_resolved_exactly_once_witness :
  (∃ groups, resolutions groups ∧ made (run_actions sample_throws sample_trace) = calls_of groups ∧
     ["a"; "b"; "c"; "d"]%string ≡ₚ groups.*1 ++ waiting_callbacks (run_actions sample_throws sample_trace)) ∧
  waiting_callbacks (run_actions sample_throws sample_trace) = ["d"%string] ∧
  length (made (run_actions sample_throws sample_trace)) = 4.
Proof.
  split; [|by vm_compute].
  refine (proj2 (proj2 (operations_resolved_exactly_once sample_throws sample_trace)) _). done.
Defined.

(** ** Callbacks that return *)

Section returning.
Context {C : Type}.
Context (throws : list (made_call C) → call C → option exn) (all_return : ∀ calls a, throws calls a = None).
Implicit Types (s : waiter_state C) (w : commit_waiter C) (op : pending_operation C).

Definition made_of (calls : list (call C)) : list (made_call C) := (λ a, (a, None)) <$> calls.

(** The program makes these calls and returns. *)
Definition just_calls (calls : list (call C)) (m : M (waiter_state C) ()) : Prop :=
  ∀ s, m s = (Ret tt, mk_waiter (made s ++ made_of calls) (waiting s)).

Lemma calls_invoke a : just_calls [a] (commit_waiter.invoke throws a).
Proof. intros s. unfold commit_waiter.invoke. by rewrite all_return. Qed.

Lemma calls_resolve (result : exn + bytes) op :
  just_calls [resolve_with (match result with inl e => Throw e | inr r => Ret r end) op]
    (commit_waiter.resolve throws result op).
Proof.
  intros s. unfold commit_waiter.resolve, mcatch. destruct result as [e|r]; unfold mlet, mlift; cbn beta iota.
  - apply calls_invoke.
  - by rewrite (calls_invoke _ s).
Qed.

Lemma calls_for {A} (l : list A) (calls : A → list (call C)) f :
  (∀ x, just_calls (calls x) (f x)) → just_calls (l ≫= calls) (mfor l f).
Proof.
  intros H. induction l as [|x l IH]; intros s; cbn [mfor mbind list_bind].
  - destruct s. cbn. by rewrite app_nil_r.
  - rewrite (let_eval _ _ _ _ _ (H x s)), IH. cbn [made waiting]. unfold made_of. by rewrite fmap_app, app_assoc.
Qed.

Lemma calls_each (ops : list (pending_operation C)) (call : pending_operation C → call C) f :
  (∀ op, just_calls [call op] (f op)) → just_calls (call <$> ops) (mfor ops f).
Proof.
  intros H. replace (call <$> ops) with (ops ≫= λ op, [call op]); [by apply calls_for|].
  induction ops as [|op ops IH]; [done|]. cbn [mbind list_bind app fmap list_fmap]. f_equal.
Qed.

Lemma calls_reject e ops : just_calls (reject_all e ops) (commit_waiter.reject_each throws e ops).
Proof. apply calls_each. intros op. apply calls_invoke. Qed.

(** What a bucket becomes. *)
Definition replace_bucket (index : N) (kept : option (list (pending_operation C))) : commit_waiter C → commit_waiter C :=
  partial_alter (λ _, kept) index.

(** A loop whose visits do what [f] says does what [visit] says. *)
Lemma loop_is_visit f body :
  (∀ index ops s, waiting s !! index = Some ops → body (index, ops) s =
    (Ret tt, mk_waiter (made s ++ made_of (f index ops).1) (replace_bucket index (f index ops).2 (waiting s)))) →
  ∀ s, mfor (map_to_list (waiting s)) body s =
    (Ret tt, mk_waiter (made s ++ made_of (visit f (waiting s)).1) (visit f (waiting s)).2).
Proof.
  intros Hbody s.
  assert (∀ buckets s, NoDup buckets.*1 → (∀ index ops, (index, ops) ∈ buckets → waiting s !! index = Some ops) →
    ∃ w, mfor buckets body s = (Ret tt, mk_waiter (made s ++ made_of (buckets ≫= λ b, (f b.1 b.2).1)) w) ∧
      (∀ index ops, (index, ops) ∈ buckets → w !! index = (f index ops).2) ∧
      (∀ index, index ∉ buckets.*1 → w !! index = waiting s !! index)) as H.
  { clear s. induction buckets as [|[index ops] buckets IH]; intros s Hnd Hin; cbn [mfor mbind list_bind].
    { exists (waiting s). destruct s. cbn. rewrite app_nil_r. split_and!; [done|set_solver|done]. }
    apply NoDup_cons in Hnd as [Hnew Hnd].
    assert (∀ k l, (k, l) ∈ buckets → k ≠ index) as Hne.
    { intros k l Hk ->. apply Hnew, list_elem_of_fmap. by exists (index, l). }
    rewrite (let_eval _ _ _ _ _ (Hbody index ops s (Hin index ops ltac:(left)))).
    set (s1 := mk_waiter _ _). destruct (IH s1 Hnd) as (w & -> & Hw & Hother).
    { intros k l Hk. unfold s1, replace_bucket. cbn [waiting]. rewrite lookup_partial_alter_ne; [apply Hin; set_solver|].
      intros ->. by eapply Hne. }
    exists w. unfold s1 in *. cbn [made waiting] in *. split_and!.
    - unfold made_of. by rewrite fmap_app, app_assoc.
    - intros k l [[= -> ->]|Hk]%elem_of_cons; [|by apply Hw]. rewrite Hother by done. apply lookup_partial_alter_eq.
    - intros k Hk. rewrite Hother by set_solver. apply lookup_partial_alter_ne. set_solver. }
  destruct (H (map_to_list (waiting s)) s) as (w & -> & Hw & Hother); [apply NoDup_fst_map_to_list| |].
  { intros index ops. by rewrite elem_of_map_to_list. }
  unfold visit. cbn [fst snd]. do 2 f_equal. apply map_eq. intros k. rewrite map_lookup_imap.
  destruct (waiting s !! k) as [ops|] eqn:E; cbn.
  - apply Hw. by apply elem_of_map_to_list.
  - rewrite Hother; [done|]. intros ([k' l] & -> & Hin)%list_elem_of_fmap. apply elem_of_map_to_list in Hin. cbn in E. congruence.
Qed.

Lemma erase_is_visit index calls m s :
  just_calls calls m →
  (do! m in commit_waiter.with_waiting (delete index)) s =
  (Ret tt, mk_waiter (made s ++ made_of calls) (replace_bucket index None (waiting s))).
Proof. intros H. by rewrite (let_eval _ _ _ _ _ (H s)). Qed.

Lemma skip_is_visit index ops s :
  waiting s !! index = Some ops →
  mreturn tt s = (Ret tt, mk_waiter (made s ++ made_of []) (replace_bucket index (Some ops) (waiting s))).
Proof.
  intros Hw. unfold replace_bucket. destruct s as [calls w]. cbn. rewrite app_nil_r. do 2 f_equal.
  rewrite <- (partial_alter_self w index) at 1. by rewrite <- Hw.
Qed.

Lemma none_expired now (kept : list (pending_operation C)) :
  Forall (λ op, op_is_timed_out now op = false) kept →
  filter (λ op, op_is_timed_out now op = true) kept = [].
Proof.
  induction 1 as [|op kept Hop _ IH]; [done|]. rewrite filter_cons, IH. case_decide; [congruence|done].
Qed.

Lemma expire_is_visit now index kept ops s :
  waiting s !! index = Some (kept ++ ops) →
  Forall (λ op, op_is_timed_out now op = false) kept →
  commit_waiter.expire_bucket throws now index kept ops s =
  (Ret tt, mk_waiter (made s ++ made_of (cancel_timed_out_bucket now (kept ++ ops)).1)
    (replace_bucket index (cancel_timed_out_bucket now (kept ++ ops)).2 (waiting s))).
Proof.
  revert kept s. induction ops as [|op ops IH]; intros kept s Hw Hk; cbn [commit_waiter.expire_bucket].
  - rewrite app_nil_r in *. unfold cancel_timed_out_bucket. cbn [fst snd].
    rewrite (none_expired now kept Hk).
    rewrite (filter_all _ kept) by (intros op Hop; rewrite Forall_forall in Hk; specialize (Hk op Hop); congruence).
    destruct kept as [|op kept]; cbn [mwhen].
    + unfold made_of. cbn. by rewrite app_nil_r.
    + by apply skip_is_visit.
  - unfold cancel_timed_out_bucket in *. rewrite !filter_app, !filter_cons in *.
    destruct (op_is_timed_out now op) eqn:Et; repeat case_decide; try done.
    + rewrite (let_eval _ _ _ _ _ (calls_invoke _ s)). unfold commit_waiter.with_waiting at 1.
      rewrite let_modify, IH; [|by apply lookup_insert_eq|done]. cbn [made waiting fst snd]. unfold replace_bucket.
      rewrite (none_expired now kept Hk).
      rewrite filter_app. rewrite (none_expired now kept Hk).
      rewrite filter_app. cbn. rewrite <- app_assoc. do 2 f_equal.
      apply map_eq. intros k. destruct (decide (index = k)) as [->|Hne]; [by rewrite !lookup_partial_alter_eq|].
      rewrite !lookup_partial_alter_ne by done. by apply lookup_insert_ne.
    + rewrite IH; [|by rewrite <- app_assoc|by apply Forall_app; split; [|constructor]].
      by rewrite !filter_app, !filter_cons, !Et, <- !app_assoc.
Qed.

Lemma cancel_all_is_visit e s :
  commit_waiter.cancel_all_with throws e s =
  (Ret tt, mk_waiter (made s ++ made_of (visit (λ _ ops, (reject_all e ops, None)) (waiting s)).1)
    (visit (λ _ ops, (reject_all e ops, None)) (waiting s)).2).
Proof.
  unfold commit_waiter.cancel_all_with. rewrite let_get.
  erewrite let_eval by (apply calls_for; intros bucket; apply calls_reject).
  unfold visit, commit_waiter.with_waiting, mmodify. cbn [made waiting fst snd]. f_equal. f_equal.
  apply (map_eq (M := gmap N)). intros k. rewrite map_lookup_imap, lookup_empty. by destruct (waiting s !! k).
Qed.

(** The operation of [CommitWaiter]. *)
Definition pure_op (o : waiter_action C) : waiter_op C :=
  match o with
  | do_register index c timeout => op_register index c timeout
  | do_notify commit_index get_result =>
      op_notify commit_index (λ k, match get_result k with inl e => Throw e | inr r => Ret r end)
  | do_cancel_all reason => op_cancel_all reason
  | do_leadership_lost old_term new_term => op_leadership_lost old_term new_term
  | do_cancel_timed_out => op_cancel_timed_out
  | do_cancel_for_index index reason => op_cancel_for_index index reason
  | do_cancel_after_index after_index reason => op_cancel_after_index after_index reason
  end.

(** With callbacks that return, an operation makes the calls of [CommitWaiter] and
    leaves what it leaves. *)
Theorem returning_callbacks now o s :
  perform throws now o s =
  (Ret tt, mk_waiter (made s ++ made_of (waiter_step now (pure_op o) (waiting s)).1)
    (waiter_step now (pure_op o) (waiting s)).2).
Proof.
  destruct o as [index c timeout|ci get|reason|t1 t2| |index reason|index reason]; cbn [perform pure_op waiter_step].
  - cbn. by rewrite app_nil_r.
  - unfold commit_waiter.notify_committed_and_applied. rewrite let_get. apply loop_is_visit.
    intros index ops s' Hw. cbn [fst snd]. destruct (index <=? ci)%N; cbn [mwhen]; [|by apply skip_is_visit].
    apply erase_is_visit, calls_each. intros op. apply calls_resolve.
  - apply cancel_all_is_visit.
  - apply cancel_all_is_visit.
  - unfold commit_waiter.cancel_timed_out_operations. rewrite let_get. apply loop_is_visit.
    intros index ops s' Hw. by apply (expire_is_visit now index []).
  - unfold commit_waiter.cancel_operations_for_index, cancel_operations_for_index. rewrite let_get.
    destruct (waiting s !! index) as [ops|]; [|destruct s; cbn; by rewrite app_nil_r].
    rewrite (erase_is_visit index (reject_all (cancelled reason) ops)); [done|apply calls_reject].
  - unfold commit_waiter.cancel_operations_after_index. rewrite let_get. apply loop_is_visit.
    intros k ops s' Hw. cbn [fst snd]. destruct (index <? k)%N; cbn [mwhen]; [|by apply skip_is_visit].
    apply erase_is_visit, calls_reject.
Qed.
End returning.
