(* ===== verification/ConfigSync.v ===== *)
(** The configuration synchronizer
    ([include/raft/configuration_synchronizer.hpp]): the two phases of a change
    of the voting set.

    A promise is named by the number its creator gave it; resolving it is
    recorded as a pair of the number and the outcome.  The mutex is only
    visible in [handle_timeout], which locks it twice. *)

From S2P Require Import Prelude Types CommitWaiter.

Inductive config_change_phase : Type := none | joint_consensus | final_configuration.

#[export] Instance config_change_phase_eq_dec : EqDecision config_change_phase.
Proof. solve_decision. Defined.

Record configuration_synchronizer : Type := mk_sync {
  _current_phase : config_change_phase;
  _target_configuration : option cluster_configuration;
  _change_promise : option N;
  _joint_config_index : option N;
  _final_config_index : option N;
  _change_started_at : Z;
  _change_timeout : Z
}.

Definition sync_initial : configuration_synchronizer := mk_sync none None None None None 0 60000.

Definition reset_state (s : configuration_synchronizer) : configuration_synchronizer :=
  mk_sync none None None None None (_change_started_at s) (_change_timeout s).

Abbreviation resolutions := (list (N * outcome bool)).

Definition is_configuration_change_in_progress (s : configuration_synchronizer) : bool :=
  bool_decide (_current_phase s ≠ none).

(** The future returned to the caller is that of [promise] in both cases. *)
Definition start_configuration_change (new_config : cluster_configuration) (timeout : Z)
    (now : Z) (promise : N) (s : configuration_synchronizer) :
    resolutions * configuration_synchronizer :=
  if is_configuration_change_in_progress s then
    ([(promise, Throw (configuration_change_exception "start"
                         "Configuration change already in progress"))], s)
  else
    ([], mk_sync joint_consensus (Some new_config) (Some promise) (_joint_config_index s)
           (_final_config_index s) now timeout).

Definition settle (s : configuration_synchronizer) (o : outcome bool) : resolutions :=
  match _change_promise s with Some p => [(p, o)] | None => [] end.

Definition notify_configuration_committed (config : cluster_configuration) (committed_index : N)
    (s : configuration_synchronizer) : resolutions * configuration_synchronizer :=
  match _current_phase s with
  | none => ([], s)
  | joint_consensus =>
      if _is_joint_consensus config then
        ([], mk_sync final_configuration (_target_configuration s) (_change_promise s)
               (Some committed_index) (_final_config_index s) (_change_started_at s)
               (_change_timeout s))
      else ([], s)
  | final_configuration =>
      match _target_configuration s with
      | Some target =>
          if negb (_is_joint_consensus config) && bool_decide (_nodes config = _nodes target)
          then (settle s (Ret true), reset_state s)
          else ([], s)
      | None => ([], s)
      end
  end.

Definition phase_name (p : config_change_phase) : string :=
  match p with joint_consensus => "joint_consensus" | _ => "final_configuration" end.

Definition cancel_configuration_change (reason : string) (s : configuration_synchronizer) :
    resolutions * configuration_synchronizer :=
  match _current_phase s with
  | none => ([], s)
  | p => (settle s (Throw (configuration_change_exception (phase_name p) reason)), reset_state s)
  end.

Definition is_timed_out (now : Z) (s : configuration_synchronizer) : bool :=
  match _current_phase s with
  | none => false
  | _ => (_change_timeout s * ns_per_ms <? now - _change_started_at s)%Z
  end.

(** [std::lock_guard] in a thread that does or does not hold the [std::mutex]
    already; the body runs with the mutex held. *)
Definition lock_guard {A} (held : bool) (body : bool → outcome A) : outcome A :=
  if held then Undef "std::mutex locked twice by one thread" else body true.

Definition is_timed_out_locking (held : bool) (now : Z) (s : configuration_synchronizer) : outcome bool :=
  lock_guard held (λ _, Ret (is_timed_out now s)).

Definition handle_timeout (now : Z) (s : configuration_synchronizer) :
    outcome (resolutions * configuration_synchronizer) :=
  lock_guard false (λ held,
    match _current_phase s with
    | none => Ret ([], s)
    | p =>
        let? timed_out := is_timed_out_locking held now s in
        Ret (if timed_out : bool then
               (settle s (Throw (configuration_change_exception (phase_name p)
                                   "Configuration change timed out")), reset_state s)
             else ([], s))
    end).

Definition is_waiting_for_joint_consensus (s : configuration_synchronizer) : bool :=
  bool_decide (_current_phase s = joint_consensus).
Definition is_waiting_for_final_configuration (s : configuration_synchronizer) : bool :=
  bool_decide (_current_phase s = final_configuration).

(** ** Invariant and step relation *)

(** A change in progress has its target and its promise; outside a change
    everything is reset. *)
Definition sync_wf (s : configuration_synchronizer) : Prop :=
  match _current_phase s with
  | none => _target_configuration s = None ∧ _change_promise s = None ∧
            _joint_config_index s = None ∧ _final_config_index s = None
  | joint_consensus => is_Some (_target_configuration s) ∧ is_Some (_change_promise s) ∧
            _joint_config_index s = None ∧ _final_config_index s = None
  | final_configuration => is_Some (_target_configuration s) ∧ is_Some (_change_promise s) ∧
            is_Some (_joint_config_index s) ∧ _final_config_index s = None
  end.

Inductive sync_event : Type :=
  | ev_start (new_config : cluster_configuration) (timeout : Z) (now : Z) (promise : N)
  | ev_committed (config : cluster_configuration) (index : N)
  | ev_cancel (reason : string).

Definition sync_step (e : sync_event) (s : configuration_synchronizer) :
    resolutions * configuration_synchronizer :=
  match e with
  | ev_start c t now p => start_configuration_change c t now p s
  | ev_committed c i => notify_configuration_committed c i s
  | ev_cancel r => cancel_configuration_change r s
  end.

Fixpoint sync_run (trace : list sync_event) (s : configuration_synchronizer) :
    resolutions * configuration_synchronizer :=
  match trace with
  | [] => ([], s)
  | e :: trace =>
      let '(r, s') := sync_step e s in
      let '(r', s'') := sync_run trace s' in (r ++ r', s'')
  end.

Definition started_by (e : sync_event) : list N :=
  match e with ev_start _ _ _ p => [p] | _ => [] end.

Definition open_promises (s : configuration_synchronizer) : list N :=
  match _change_promise s with Some p => [p] | None => [] end.

Lemma sync_initial_wf : sync_wf sync_initial.
Proof. done. Qed.

Lemma sync_step_wf e s : sync_wf s → sync_wf (sync_step e s).2.
Proof.
  destruct s as [ph tg pr ji fi st to]. unfold sync_wf.
  destruct e; destruct ph; simpl; unfold start_configuration_change,
    notify_configuration_committed, cancel_configuration_change; simpl; intros Hwf;
    destruct_and?; repeat case_match; simplify_eq/=; eauto 10.
Qed.

Lemma sync_step_conserves e s :
  sync_wf s →
  started_by e ++ open_promises s ≡ₚ (sync_step e s).1.*1 ++ open_promises (sync_step e s).2.
Proof.
  destruct s as [ph tg pr ji fi st to]. unfold sync_wf, open_promises.
  destruct e; destruct ph; simpl; unfold start_configuration_change,
    notify_configuration_committed, cancel_configuration_change; simpl; intros Hwf;
    destruct_and?; simplify_eq; try done;
    repeat case_match; simplify_eq/=; unfold settle in *; simplify_eq/=; done.
Qed.

Lemma sync_run_conserves trace s :
  sync_wf s →
  sync_wf (sync_run trace s).2 ∧
  (trace ≫= started_by) ++ open_promises s ≡ₚ
    (sync_run trace s).1.*1 ++ open_promises (sync_run trace s).2.
Proof.
  revert s. induction trace as [|e trace IH]; intros s Hwf; simpl; [done|].
  pose proof (sync_step_wf e s Hwf) as Hwf'. pose proof (sync_step_conserves e s Hwf) as Hc.
  destruct (sync_step e s) as [r s']. simpl in *. destruct (IH s' Hwf') as [IH1 IH2].
  destruct (sync_run trace s') as [r' s'']. simpl in *. split; [done|].
  rewrite fmap_app, <-(assoc_L (++) r.*1), <-IH2.
  rewrite (assoc_L (++) r.*1), (Permutation_app_comm r.*1).
  rewrite <-(assoc_L (++) _ r.*1), <-Hc. solve_Permutation.
Qed.

(** [opened_by pre s]: the change in progress in [s] was opened by an accepted
    start of the history [pre], was not cancelled since, and has passed the
    joint phase if [s] waits for the final configuration. *)
Definition opened_by (pre : list sync_event) (s : configuration_synchronizer) : Prop :=
  _current_phase s = none ∨
  ∃ before mid new_config timeout now promise,
    pre = before ++ ev_start new_config timeout now promise :: mid ∧
    (∀ reason, ev_cancel reason ∉ mid) ∧
    _target_configuration s = Some new_config ∧ _change_promise s = Some promise ∧
    (_current_phase s = final_configuration →
       ∃ joint index, ev_committed joint index ∈ mid ∧ _is_joint_consensus joint = true).

Lemma opened_by_extend pre e s s' :
  opened_by pre s → _current_phase s ≠ none → (∀ reason, e ≠ ev_cancel reason) →
  _target_configuration s' = _target_configuration s →
  _change_promise s' = _change_promise s →
  (_current_phase s' = final_configuration → _current_phase s ≠ final_configuration →
     ∃ joint index, e = ev_committed joint index ∧ _is_joint_consensus joint = true) →
  opened_by (pre ++ [e]) s'.
Proof.
  intros [?|(before & mid & c & t & now & p & -> & Hnc & Ht & Hp & Hj)] Hph Hne Et Ep Hfin; [done|].
  right. exists before, (mid ++ [e]), c, t, now, p. split_and!.
  - by rewrite <-(assoc_L (++)).
  - intros r [?|H%list_elem_of_singleton]%elem_of_app; [by eapply Hnc|]. by eapply Hne.
  - congruence.
  - congruence.
  - intros Hf. destruct (decide (_current_phase s = final_configuration)) as [Hs|Hs].
    + destruct (Hj Hs) as (j & i & ? & ?). exists j, i. rewrite elem_of_app. auto.
    + destruct (Hfin Hf Hs) as (j & i & -> & ?). exists j, i. rewrite elem_of_app, list_elem_of_singleton.
      auto.
Qed.

Lemma sync_step_opened_by pre e s :
  opened_by pre s → opened_by (pre ++ [e]) (sync_step e s).2.
Proof.
  intros H. destruct (decide (_current_phase s = none)) as [Hn|Hn].
  - destruct e as [c t now p|c i|r]; simpl; unfold notify_configuration_committed,
      cancel_configuration_change, start_configuration_change, is_configuration_change_in_progress;
      rewrite Hn; simpl; [|by left|by left].
    right. exists pre, [], c, t, now, p. split_and!; try done. intros r ?%not_elem_of_nil. done.
  - destruct e as [c t now p|c i|r]; simpl.
    + unfold start_configuration_change, is_configuration_change_in_progress.
      rewrite bool_decide_eq_true_2 by done. by eapply opened_by_extend.
    + unfold notify_configuration_committed. destruct (_current_phase s) eqn:Eph; [done| |].
      * destruct (_is_joint_consensus c) eqn:Ej;
          (eapply (opened_by_extend pre _ s); [done|congruence|done|done|done|]);
          simpl; [by eauto|congruence].
      * repeat case_match; simpl; try (by left);
          (eapply (opened_by_extend pre _ s); [done|congruence|done|done|done|congruence]).
    + left. unfold cancel_configuration_change. by destruct (_current_phase s) eqn:Eph.
Qed.

Lemma sync_run_opened_by trace pre s :
  opened_by pre s → opened_by (pre ++ trace) (sync_run trace s).2.
Proof.
  revert pre s. induction trace as [|e trace IH]; intros pre s H; simpl.
  { by rewrite app_nil_r. }
  apply (sync_step_opened_by pre e) in H. apply (IH (pre ++ [e])) in H.
  rewrite <-(assoc_L (++)) in H. simpl in H. destruct (sync_step e s) as [r s']. simpl in *.
  by destruct (sync_run trace s').
Qed.

(** C34. A membership change reports success only after both phases: when an event
    resolves a promise with success after any history, that event is the commit
    of a non-joint configuration with exactly the voters asked for, the promise
    is the one the change was started with, and a joint configuration was
    committed since the start with no cancellation in between. *)
Theorem change_completes_through_joint_phase trace e promise :
  (promise, Ret true) ∈ (sync_step e (sync_run trace sync_initial).2).1 →
  ∃ config index before mid new_config timeout now joint joint_index,
    e = ev_committed config index ∧ _is_joint_consensus config = false ∧
    _nodes config = _nodes new_config ∧
    trace = before ++ ev_start new_config timeout now promise :: mid ∧
    (∀ reason, ev_cancel reason ∉ mid) ∧
    ev_committed joint joint_index ∈ mid ∧ _is_joint_consensus joint = true.
Proof.
  pose proof (sync_run_opened_by trace [] sync_initial (or_introl eq_refl)) as H. simpl in H.
  generalize dependent (sync_run trace sync_initial).2. intros s H Hin.
  destruct e as [c t now p|config index|r]; simpl in Hin.
  - unfold start_configuration_change in Hin. case_match; simpl in Hin; set_solver.
  - destruct H as [Hn|(before & mid & c & t & now & p & -> & Hnc & Ht & Hp & Hj)];
      unfold notify_configuration_committed in Hin.
    { rewrite Hn in Hin. simpl in Hin. set_solver. }
    destruct (_current_phase s) eqn:Eph; [set_solver|case_match; set_solver|].
    destruct (Hj eq_refl) as (j & i & Hji & Hjj). rewrite Ht in Hin.
    destruct (_is_joint_consensus config) eqn:Ec; simpl in Hin; [set_solver|].
    case_bool_decide; simpl in Hin; [|set_solver].
    unfold settle in Hin. rewrite Hp in Hin. apply list_elem_of_singleton in Hin as [= ->].
    naive_solver.
  - unfold cancel_configuration_change, settle in Hin.
    repeat case_match; simpl in Hin; set_solver.
Qed.

Definition sample_change_trace : list sync_event :=
  [ev_start (mk_config [1; 2]%N false None []) 100 0 7;
   ev_committed (mk_config [1; 2]%N true (Some [1%N]) []) 1].

Lemma change_completes_through_joint_phase_witness :
  ∃ before mid new_config timeout now,
    sample_change_trace = before ++ ev_start new_config timeout now 7 :: mid.
Proof.
  destruct (change_completes_through_joint_phase sample_change_trace
    (ev_committed (mk_config [1; 2]%N false None []) 2) 7 ltac:(vm_compute; left))
    as (_ & _ & before & mid & new_config & timeout & now & _ & _ & _ & _ & _ & H & _).
  eauto 6.
Defined.

(** Outside a change [handle_timeout] does nothing; during a change it calls
    [is_timed_out] with the mutex held, which locks it a second time: undefined
    behaviour, so no change is ever reported as timed out. *)
Theorem handle_timeout_relocks now s :
  handle_timeout now s =
    match _current_phase s with
    | none => Ret ([], s)
    | _ => Undef "std::mutex locked twice by one thread"
    end.
Proof. unfold handle_timeout. by destruct (_current_phase s). Qed.
