(* ===== verification/Node.v ===== *)
(** State of a node ([class node] of [include/raft/raft.hpp]), its log accessors,
    timers and the notifications it makes.

    The record has the data members of the class that the handlers read or
    write, in particular the persistence engine [P] and the state machine [SM]
    the node is built over.  Members that only serve logging and metrics are
    left out.  What the node does to its environment is recorded: [outbox] lists
    the requests handed to the network client, [resolved] and [resolved_config]
    the promises settled.  A callback passed to a future is not run inside the
    handler that created it: it is a definition of its own, whose arguments are
    the captured variables and the result it is given.

    Every handler of the class runs under the node's mutex, so a definition is
    one critical section; functions that release and retake the mutex are split
    at that point.  [now] is the reading of [steady_clock] in nanoseconds; time
    advances between handlers. *)

From S2P Require Import Prelude Types ConfigEntry Membership Persistence CommitWaiter ConfigSync.

(** ** Interfaces of the node's components *)

(** The [state_machine] concept. *)
Class StateMachine (SM : Type) : Type := {
  sm_apply : bytes → N → M SM bytes;
  sm_get_state : SM → outcome bytes;
  sm_restore_from_snapshot : bytes → N → M SM ()
}.

(** [placement_group_target] of a quorum manager's desired topology. *)
Record placement_group_target : Type := mk_target {
  group_id : string;
  target_count : N;
  learner_capacity : option N
}.

Record client_session : Type := mk_session {
  last_serial_number : N;
  last_response : bytes
}.

(** A request handed to the network client, with the variables its response
    callback captures. *)
Inductive outgoing : Type :=
  | out_request_vote (target : N) (request : request_vote_request)
  | out_request_pre_vote (target : N) (request : request_vote_request)
  | out_append_entries (target : N) (next_idx : N) (request : append_entries_request)
  | out_heartbeat (target : N) (request : append_entries_request)
  | out_read_heartbeat (target : N) (request : append_entries_request)
  | out_install_snapshot (target : N) (snap : snapshot) (request : install_snapshot_request)
  | out_advertise_progress (term last_log_index : N)
  | out_find_catch_up_source (from_index to_index : N)
  | out_fetch_log_entries (target : N) (request : fetch_log_entries_request)
  | out_update_membership (members : list N).

Record node (P SM : Type) : Type := mk_node {
  _current_term : N;
  _voted_for : option N;
  _log : list log_entry;
  _commit_index : N;
  _last_applied : N;
  _state : server_state;
  _next_index : gmap N N;
  _match_index : gmap N N;
  _unresponsive_followers : gset N;
  _persistence : P;
  _state_machine : SM;
  _commit_waiter : commit_waiter N;
  _config_synchronizer : configuration_synchronizer;
  _config : raft_configuration;
  _node_id : N;
  _configuration : cluster_configuration;
  _boot_configuration : cluster_configuration;
  _election_timeout : Z;
  _last_heartbeat : Z;
  _last_leader_contact : option Z;
  _rng : list Z;
  _client_sessions : gmap N client_session;
  _known_leader : option N;
  _stop_requested : bool;
  _stop_flag : bool;
  _running : bool;
  _topology : list placement_group_target;
  _placement_map : gmap N string;
  _heartbeat_failure_counts : gmap N N;
  _pending_provisions : gmap string N;
  _pending_replacing : gmap string (option N);
  _last_quorum_check : Z;
  _quorum_check_active : bool;
  _quorum_immediate_check : bool;
  _last_progress_gossip : Z;
  _catch_up_in_flight : bool;
  snapshot_buffer : option bytes;
  now : Z;
  outbox : list outgoing;
  resolved : list (N * outcome bytes);
  resolved_config : list (N * outcome bool);
  next_promise : N
}.
Arguments _current_term {P SM} _.
Arguments _voted_for {P SM} _.
Arguments _log {P SM} _.
Arguments _commit_index {P SM} _.
Arguments _last_applied {P SM} _.
Arguments _state {P SM} _.
Arguments _next_index {P SM} _.
Arguments _match_index {P SM} _.
Arguments _unresponsive_followers {P SM} _.
Arguments _persistence {P SM} _.
Arguments _state_machine {P SM} _.
Arguments _commit_waiter {P SM} _.
Arguments _config_synchronizer {P SM} _.
Arguments _config {P SM} _.
Arguments _node_id {P SM} _.
Arguments _configuration {P SM} _.
Arguments _boot_configuration {P SM} _.
Arguments _election_timeout {P SM} _.
Arguments _last_heartbeat {P SM} _.
Arguments _last_leader_contact {P SM} _.
Arguments _rng {P SM} _.
Arguments _client_sessions {P SM} _.
Arguments _known_leader {P SM} _.
Arguments _stop_requested {P SM} _.
Arguments _stop_flag {P SM} _.
Arguments _running {P SM} _.
Arguments _topology {P SM} _.
Arguments _placement_map {P SM} _.
Arguments _heartbeat_failure_counts {P SM} _.
Arguments _pending_provisions {P SM} _.
Arguments _pending_replacing {P SM} _.
Arguments _last_quorum_check {P SM} _.
Arguments _quorum_check_active {P SM} _.
Arguments _quorum_immediate_check {P SM} _.
Arguments _last_progress_gossip {P SM} _.
Arguments _catch_up_in_flight {P SM} _.
Arguments snapshot_buffer {P SM} _.
Arguments now {P SM} _.
Arguments outbox {P SM} _.
Arguments resolved {P SM} _.
Arguments resolved_config {P SM} _.
Arguments next_promise {P SM} _.

#[export] Instance node_eta P SM : Eta (node P SM) := λ s,
  mk_node P SM (_current_term s) (_voted_for s) (_log s) (_commit_index s) (_last_applied s)
    (_state s) (_next_index s) (_match_index s) (_unresponsive_followers s)
    (_persistence s) (_state_machine s) (_commit_waiter s) (_config_synchronizer s)
    (_config s) (_node_id s) (_configuration s) (_boot_configuration s)
    (_election_timeout s) (_last_heartbeat s) (_last_leader_contact s) (_rng s)
    (_client_sessions s) (_known_leader s) (_stop_requested s) (_stop_flag s)
    (_running s) (_topology s) (_placement_map s) (_heartbeat_failure_counts s)
    (_pending_provisions s) (_pending_replacing s) (_last_quorum_check s)
    (_quorum_check_active s) (_quorum_immediate_check s) (_last_progress_gossip s)
    (_catch_up_in_flight s) (snapshot_buffer s) (now s) (outbox s) (resolved s)
    (resolved_config s) (next_promise s).

Section setters.
Context {P SM : Type}.
Abbreviation node := (node P SM).

Definition set_current_term : N → node → node := ltac:(setter (@_current_term P SM)).
Definition set_voted_for : option N → node → node := ltac:(setter (@_voted_for P SM)).
Definition set_log : list log_entry → node → node := ltac:(setter (@_log P SM)).
Definition set_commit_index : N → node → node := ltac:(setter (@_commit_index P SM)).
Definition set_last_applied : N → node → node := ltac:(setter (@_last_applied P SM)).
Definition set_state : server_state → node → node := ltac:(setter (@_state P SM)).
Definition set_next_index : gmap N N → node → node := ltac:(setter (@_next_index P SM)).
Definition set_match_index : gmap N N → node → node := ltac:(setter (@_match_index P SM)).
Definition set_unresponsive_followers : gset N → node → node := ltac:(setter (@_unresponsive_followers P SM)).
Definition set_persistence : P → node → node := ltac:(setter (@_persistence P SM)).
Definition set_state_machine : SM → node → node := ltac:(setter (@_state_machine P SM)).
Definition set_commit_waiter : commit_waiter N → node → node := ltac:(setter (@_commit_waiter P SM)).
Definition set_config_synchronizer : configuration_synchronizer → node → node := ltac:(setter (@_config_synchronizer P SM)).
Definition set_config : raft_configuration → node → node := ltac:(setter (@_config P SM)).
Definition set_node_id : N → node → node := ltac:(setter (@_node_id P SM)).
Definition set_configuration : cluster_configuration → node → node := ltac:(setter (@_configuration P SM)).
Definition set_boot_configuration : cluster_configuration → node → node := ltac:(setter (@_boot_configuration P SM)).
Definition set_election_timeout : Z → node → node := ltac:(setter (@_election_timeout P SM)).
Definition set_last_heartbeat : Z → node → node := ltac:(setter (@_last_heartbeat P SM)).
Definition set_last_leader_contact : option Z → node → node := ltac:(setter (@_last_leader_contact P SM)).
Definition set_rng : list Z → node → node := ltac:(setter (@_rng P SM)).
Definition set_client_sessions : gmap N client_session → node → node := ltac:(setter (@_client_sessions P SM)).
Definition set_known_leader : option N → node → node := ltac:(setter (@_known_leader P SM)).
Definition set_stop_requested : bool → node → node := ltac:(setter (@_stop_requested P SM)).
Definition set_stop_flag : bool → node → node := ltac:(setter (@_stop_flag P SM)).
Definition set_running : bool → node → node := ltac:(setter (@_running P SM)).
Definition set_topology : list placement_group_target → node → node := ltac:(setter (@_topology P SM)).
Definition set_placement_map : gmap N string → node → node := ltac:(setter (@_placement_map P SM)).
Definition set_heartbeat_failure_counts : gmap N N → node → node := ltac:(setter (@_heartbeat_failure_counts P SM)).
Definition set_pending_provisions : gmap string N → node → node := ltac:(setter (@_pending_provisions P SM)).
Definition set_pending_replacing : gmap string (option N) → node → node := ltac:(setter (@_pending_replacing P SM)).
Definition set_last_quorum_check : Z → node → node := ltac:(setter (@_last_quorum_check P SM)).
Definition set_quorum_check_active : bool → node → node := ltac:(setter (@_quorum_check_active P SM)).
Definition set_quorum_immediate_check : bool → node → node := ltac:(setter (@_quorum_immediate_check P SM)).
Definition set_last_progress_gossip : Z → node → node := ltac:(setter (@_last_progress_gossip P SM)).
Definition set_catch_up_in_flight : bool → node → node := ltac:(setter (@_catch_up_in_flight P SM)).
Definition set_snapshot_buffer : option bytes → node → node := ltac:(setter (@snapshot_buffer P SM)).
Definition set_now : Z → node → node := ltac:(setter (@now P SM)).
Definition set_outbox : list outgoing → node → node := ltac:(setter (@outbox P SM)).
Definition set_resolved : list (N * outcome bytes) → node → node := ltac:(setter (@resolved P SM)).
Definition set_resolved_config : list (N * outcome bool) → node → node := ltac:(setter (@resolved_config P SM)).
Definition set_next_promise : N → node → node := ltac:(setter (@next_promise P SM)).
End setters.

(** ** Node-level effects *)

Section effects.
Context {P SM : Type}.
Abbreviation node := (node P SM).
Implicit Types s : node.

Definition gets {A} (f : node → A) : M node A := λ s, (Ret (f s), s).

(** A call of the persistence engine or of the state machine. *)
Definition persist {A} (m : M P A) : M node A := λ s,
  let r := m (_persistence s) in (r.1, set_persistence r.2 s).
Definition run_state_machine {A} (m : M SM A) : M node A := λ s,
  let r := m (_state_machine s) in (r.1, set_state_machine r.2 s).

Definition send (o : outgoing) s : node := set_outbox (outbox s ++ [o]) s.

(** A promise made and settled on the spot; the result names its future. *)
Definition make_settled (o : outcome bytes) : M node N := λ s,
  (Ret (next_promise s),
   set_resolved (resolved s ++ [(next_promise s, o)])
     (set_next_promise (next_promise s + 1)%N s)).
Definition make_promise : M node N := λ s,
  (Ret (next_promise s), set_next_promise (next_promise s + 1)%N s).

(** Calls of the callbacks registered with the commit waiter settle their
    promise. *)
Definition settle_call (a : call N) : N * outcome bytes :=
  match a with
  | fulfill_call p r => (p, Ret r)
  | reject_call p e => (p, Throw e)
  end.
Definition with_waiter (f : commit_waiter N → list (call N) * commit_waiter N) s : node :=
  let r := f (_commit_waiter s) in
  set_resolved (resolved s ++ (settle_call <$> r.1)) (set_commit_waiter r.2 s).
Definition with_synchronizer
    (f : configuration_synchronizer → resolutions * configuration_synchronizer) s : node :=
  let r := f (_config_synchronizer s) in
  set_resolved_config (resolved_config s ++ r.1) (set_config_synchronizer r.2 s).

(** [_next_index\[k\] = v] and [_match_index\[k\] = v]. *)
Definition put_next_index (k v : N) s : node := set_next_index (<[k := v]> (_next_index s)) s.
Definition put_match_index (k v : N) s : node := set_match_index (<[k := v]> (_match_index s)) s.

End effects.

(** Running the state accesses at the head of a handler. *)
Lemma let_gets {P SM A B} (f : node P SM → A) (k : A → M (node P SM) B) s :
  mlet (gets f) k s = k (f s) s.
Proof. done. Qed.

(** Milliseconds elapsed since a time point, as [duration_cast] truncates. *)
Definition elapsed_ms (now since : Z) : Z := Z.quot (now - since) ns_per_ms.
