(* ===== verification/Bytes.v ===== *)
(** Bytes and fixed-width little-endian integers, as [std::memcpy] of an integer
    writes and reads them on the platforms the code targets. *)

From S2P Require Import Prelude Types.

Definition byte_of_N (n : N) : byte := default x00 (Byte.of_N (n mod 256)).

Lemma byte_of_N_to_N n : Byte.to_N (byte_of_N n) = (n mod 256)%N.
Proof.
  unfold byte_of_N. destruct (Byte.of_N (n mod 256)) as [b|] eqn:E; simpl.
  - by apply Byte.to_of_N.
  - apply Byte.of_N_None_iff in E. pose proof (N.mod_lt n 256). lia.
Qed.

Lemma to_N_lt b : (Byte.to_N b < 256)%N.
Proof. pose proof (Byte.to_N_bounded b). lia. Qed.

Lemma byte_of_to_N b : byte_of_N (Byte.to_N b) = b.
Proof.
  unfold byte_of_N. rewrite N.mod_small by apply to_N_lt. by rewrite Byte.of_to_N.
Qed.

#[export] Instance byte_countable : Countable byte :=
  inj_countable' Byte.to_N byte_of_N byte_of_to_N.

(** [width] bytes, least significant first. *)
Fixpoint le_bytes (width : nat) (n : N) : bytes :=
  match width with
  | O => []
  | S width' => byte_of_N n :: le_bytes width' (n / 256)
  end.

Fixpoint le_value (l : bytes) : N :=
  match l with
  | [] => 0%N
  | b :: l' => (Byte.to_N b + 256 * le_value l')%N
  end.

Lemma le_bytes_length width n : length (le_bytes width n) = width.
Proof. revert n. induction width as [|w IH]; intros n; simpl; [done|]. by rewrite IH. Qed.

Lemma le_value_bytes width n : le_value (le_bytes width n) = (n mod 256 ^ N.of_nat width)%N.
Proof.
  revert n. induction width as [|w IH]; intros n; simpl le_bytes.
  { simpl. by rewrite N.mod_1_r. }
  simpl le_value. rewrite IH, byte_of_N_to_N.
  replace (N.of_nat (S w)) with (N.succ (N.of_nat w)) by lia. rewrite N.pow_succ_r'.
  rewrite N.Div0.mod_mul_r. lia.
Qed.

Lemma le_value_bytes_small width n :
  (n < 256 ^ N.of_nat width)%N → le_value (le_bytes width n) = n.
Proof. intros H. rewrite le_value_bytes. by apply N.mod_small. Qed.

(** ** Readers: the bytes not read yet are the state of the parse *)

Definition read_bytes (n : N) (error : exn) (rest : bytes) : outcome (bytes * bytes) :=
  if (N.of_nat (length rest) <? n)%N then Throw error
  else Ret (take (N.to_nat n) rest, drop (N.to_nat n) rest).

Definition read_le (width : nat) (error : exn) (rest : bytes) : outcome (N * bytes) :=
  let? (l, rest') := read_bytes (N.of_nat width) error rest in Ret (le_value l, rest').

Lemma read_bytes_app l rest error :
  read_bytes (N.of_nat (length l)) error (l ++ rest) = Ret (l, rest).
Proof.
  unfold read_bytes. rewrite length_app.
  destruct (N.ltb_spec (N.of_nat (length l + length rest)) (N.of_nat (length l))); [lia|].
  by rewrite Nat2N.id, take_app_length, drop_app_length.
Qed.

Lemma read_le_app width n rest error :
  (n < 256 ^ N.of_nat width)%N →
  read_le width error (le_bytes width n ++ rest) = Ret (n, rest).
Proof.
  intros H. unfold read_le. rewrite <-(le_bytes_length width n) at 1.
  rewrite read_bytes_app. simpl. by rewrite le_value_bytes_small.
Qed.

Lemma read_bytes_shorter n error rest l rest' :
  read_bytes n error rest = Ret (l, rest') → length rest = length l + length rest' ∧ length l = N.to_nat n.
Proof.
  unfold read_bytes. destruct (N.ltb_spec (N.of_nat (length rest)) n); [done|].
  intros [= <- <-]. rewrite length_take, length_drop. lia.
Qed.
