(* ===== verification/Base64.v ===== *)
(** Base64, which the repository implements three times: in [json_rpc_serializer]
    ([json_serializer.hpp], a bit accumulator of type [int]), in
    [file_persistence_engine] ([file_persistence.hpp], blocks of three bytes and
    an accumulator of type [uint32_t]) and again in that style in
    [ca_state_machine.hpp].  The encoders are shown to be the same function, and
    each decoder to invert it. *)

From Stdlib Require Import Ascii.
From S2P Require Import Prelude Types Bytes.

Local Open Scope Z_scope.

(** ** Machine integers *)

Definition int32 (z : Z) : Z := (z + 2 ^ 31) mod 2 ^ 32 - 2 ^ 31.
Definition uint32 (z : Z) : Z := z mod 2 ^ 32.

Definition byte_value (b : byte) : Z := Z.of_N (Byte.to_N b).
Definition byte_of_Z (z : Z) : byte := byte_of_N (Z.to_N z).

Lemma byte_value_range b : 0 ≤ byte_value b < 256.
Proof. unfold byte_value. pose proof (to_N_lt b). lia. Qed.

Lemma byte_of_value z b : z = byte_value b → byte_of_Z z = b.
Proof. intros ->. unfold byte_of_Z, byte_value. rewrite N2Z.id. apply byte_of_to_N. Qed.

(** ** The codec of the RPC serializer *)

Module json_base64.
Definition base64_chars : list ascii :=
  String.list_ascii_of_string "ABCDEFGHIJKLMNOPQRSTUVWXYZabcdefghijklmnopqrstuvwxyz0123456789+/".

Definition char_at (i : Z) : ascii := default zero (base64_chars !! Z.to_nat i).

(** [while (valb >= 0)]: [valb] is below 8, so two iterations are enough
    ([push_sextets_done]). *)
Fixpoint push_sextets (fuel : nat) (val valb : Z) (result : list ascii) : Z * list ascii :=
  match fuel with
  | O => (valb, result)
  | S fuel' =>
      if 0 <=? valb
      then push_sextets fuel' val (valb - 6)
             (result ++ [char_at (Z.land (Z.shiftr val valb) 63)])
      else (valb, result)
  end.

Definition encode_byte (st : Z * Z * list ascii) (b : byte) : Z * Z * list ascii :=
  let '(val, valb, result) := st in
  let val := int32 (Z.shiftl val 8) + byte_value b in
  let valb := valb + 8 in
  let '(valb, result) := push_sextets 2 val valb result in
  (val, valb, result).

(** [while (result.size() % 4 != 0)]: at most three characters are missing. *)
Fixpoint pad (fuel : nat) (result : list ascii) : list ascii :=
  match fuel with
  | O => result
  | S fuel' =>
      if Nat.eqb (length result mod 4) 0 then result else pad fuel' (result ++ ["="%char])
  end.

Definition encode_tail (st : Z * Z * list ascii) : list ascii :=
  let '(val, valb, result) := st in
  let result :=
    if -6 <? valb
    then result ++ [char_at (Z.land (Z.shiftr (int32 (Z.shiftl val 8)) (valb + 8)) 63)]
    else result in
  pad 3 result.

Definition bytes_to_base64 (data : bytes) : list ascii :=
  encode_tail (foldl encode_byte (0, -6, []) data).

Definition base64_table : list Z :=
 [64; 64; 64; 64; 64; 64; 64; 64; 64; 64; 64; 64; 64; 64; 64; 64; 64; 64; 64; 64; 64; 64;
  64; 64; 64; 64; 64; 64; 64; 64; 64; 64; 64; 64; 64; 64; 64; 64; 64; 64; 64; 64; 64; 62;
  64; 64; 64; 63; 52; 53; 54; 55; 56; 57; 58; 59; 60; 61; 64; 64; 64; 64; 64; 64; 64; 0;
  1;  2;  3;  4;  5;  6;  7;  8;  9;  10; 11; 12; 13; 14; 15; 16; 17; 18; 19; 20; 21; 22;
  23; 24; 25; 64; 64; 64; 64; 64; 64; 26; 27; 28; 29; 30; 31; 32; 33; 34; 35; 36; 37; 38;
  39; 40; 41; 42; 43; 44; 45; 46; 47; 48; 49; 50; 51; 64; 64; 64; 64; 64; 64; 64; 64; 64;
  64; 64; 64; 64; 64; 64; 64; 64; 64; 64; 64; 64; 64; 64; 64; 64; 64; 64; 64; 64; 64; 64;
  64; 64; 64; 64; 64; 64; 64; 64; 64; 64; 64; 64; 64; 64; 64; 64; 64; 64; 64; 64; 64; 64;
  64; 64; 64; 64; 64; 64; 64; 64; 64; 64; 64; 64; 64; 64; 64; 64; 64; 64; 64; 64; 64; 64;
  64; 64; 64; 64; 64; 64; 64; 64; 64; 64; 64; 64; 64; 64; 64; 64; 64; 64; 64; 64; 64; 64;
  64; 64; 64; 64; 64; 64; 64; 64; 64; 64; 64; 64; 64; 64; 64; 64; 64; 64; 64; 64; 64; 64;
  64; 64; 64; 64; 64; 64; 64; 64; 64; 64; 64; 64; 64; 64].

Definition table_at (c : ascii) : Z := default 64 (base64_table !! nat_of_ascii c).

(** The loop over the characters; a character outside the alphabet ends it. *)
Fixpoint decode_chars (val valb : Z) (base64 : list ascii) : bytes :=
  match base64 with
  | [] => []
  | c :: rest =>
      if table_at c =? 64 then [] else
      let val := int32 (Z.shiftl val 6) + table_at c in
      let valb := valb + 6 in
      if 0 <=? valb
      then byte_of_Z (Z.land (Z.shiftr val valb) 255) :: decode_chars val (valb - 8) rest
      else decode_chars val valb rest
  end.

Definition base64_to_bytes (base64 : list ascii) : bytes := decode_chars 0 (-8) base64.
End json_base64.

(** ** The codec of the file engine *)

Module file_base64.
Definition k_b64 : list ascii :=
  String.list_ascii_of_string "ABCDEFGHIJKLMNOPQRSTUVWXYZabcdefghijklmnopqrstuvwxyz0123456789+/".

Definition char_at (i : Z) : ascii := default zero (k_b64 !! Z.to_nat i).

(** One round of the loop, with the second and third byte if there are any. *)
Definition encode_block (b0 : byte) (b1 b2 : option byte) : list ascii :=
  let v := Z.shiftl (byte_value b0) 16 in
  let v := match b1 with Some b => Z.lor v (Z.shiftl (byte_value b) 8) | None => v end in
  let v := match b2 with Some b => Z.lor v (byte_value b) | None => v end in
  [char_at (Z.land (Z.shiftr v 18) 63);
   char_at (Z.land (Z.shiftr v 12) 63);
   match b1 with Some _ => char_at (Z.land (Z.shiftr v 6) 63) | None => "="%char end;
   match b2 with Some _ => char_at (Z.land v 63) | None => "="%char end].

Fixpoint bytes_to_base64 (data : bytes) : list ascii :=
  match data with
  | [] => []
  | [b0] => encode_block b0 None None
  | [b0; b1] => encode_block b0 (Some b1) None
  | b0 :: b1 :: b2 :: rest => encode_block b0 (Some b1) (Some b2) ++ bytes_to_base64 rest
  end.

(** The table of the decoder, filled with -1 and then set along the alphabet. *)
Definition tbl (c : ascii) : Z :=
  foldl (λ t i, if bool_decide (char_at (Z.of_nat i) = c) then Z.of_nat i else t) (-1) (seq 0 64).

Fixpoint decode_chars (v bits : Z) (base64 : list ascii) : bytes :=
  match base64 with
  | [] => []
  | c :: rest =>
      if bool_decide (c = "="%char) then [] else
      if tbl c <? 0 then decode_chars v bits rest else
      let v := Z.lor (uint32 (Z.shiftl v 6)) (tbl c) in
      let bits := bits + 6 in
      if 8 <=? bits
      then byte_of_Z (Z.land (Z.shiftr v (bits - 8)) 255) :: decode_chars v (bits - 8) rest
      else decode_chars v bits rest
  end.

Definition base64_to_bytes (base64 : list ascii) : bytes := decode_chars 0 0 base64.
End file_base64.

(** ** The codec of the certificate authority *)

Module ca_base64.
Definition k_b64_alphabet : list ascii :=
  String.list_ascii_of_string "ABCDEFGHIJKLMNOPQRSTUVWXYZabcdefghijklmnopqrstuvwxyz0123456789+/".
Definition char_at (i : Z) : ascii := default zero (k_b64_alphabet !! Z.to_nat i).

Definition encode_block (b0 : byte) (b1 b2 : option byte) : list ascii :=
  let v := Z.shiftl (byte_value b0) 16 in
  let v := match b1 with Some b => Z.lor v (Z.shiftl (byte_value b) 8) | None => v end in
  let v := match b2 with Some b => Z.lor v (byte_value b) | None => v end in
  [char_at (Z.land (Z.shiftr v 18) 63);
   char_at (Z.land (Z.shiftr v 12) 63);
   match b1 with Some _ => char_at (Z.land (Z.shiftr v 6) 63) | None => "="%char end;
   match b2 with Some _ => char_at (Z.land v 63) | None => "="%char end].

Fixpoint base64_encode (data : bytes) : list ascii :=
  match data with
  | [] => []
  | [b0] => encode_block b0 None None
  | [b0; b1] => encode_block b0 (Some b1) None
  | b0 :: b1 :: b2 :: rest => encode_block b0 (Some b1) (Some b2) ++ base64_encode rest
  end.

Definition tbl (c : ascii) : Z :=
  foldl (λ t i, if bool_decide (char_at (Z.of_nat i) = c) then Z.of_nat i else t) (-1) (seq 0 64).

Fixpoint decode_chars (v bits : Z) (text : list ascii) : bytes :=
  match text with
  | [] => []
  | c :: rest =>
      if bool_decide (c = "="%char) then [] else
      if tbl c <? 0 then decode_chars v bits rest else
      let v := Z.lor (uint32 (Z.shiftl v 6)) (tbl c) in
      let bits := bits + 6 in
      if 8 <=? bits
      then byte_of_Z (Z.land (Z.shiftr v (bits - 8)) 255) :: decode_chars v (bits - 8) rest
      else decode_chars v bits rest
  end.
Definition base64_decode (text : list ascii) : bytes := decode_chars 0 0 text.
End ca_base64.

(** ** Sextets: the arithmetic the codecs come down to *)

Lemma land_63 x : Z.land x 63 = x mod 64.
Proof. apply (Z.land_ones x 6). lia. Qed.
Lemma land_255 x : Z.land x 255 = x mod 256.
Proof. apply (Z.land_ones x 8). lia. Qed.

Definition sextets (a b c : Z) : Z * Z * Z * Z :=
  (a / 4, a mod 4 * 16 + b / 16, b mod 16 * 4 + c / 64, c mod 64).

Ltac bits_to_arith :=
  change (-6 + 8) with 2 in *; change (-4 + 8) with 4 in *; change (-2 + 8) with 6 in *;
  change (6 - 6) with 0 in *;
  rewrite ?land_63, ?land_255, ?Z.shiftr_div_pow2, ?Z.shiftl_mul_pow2 in * by lia;
  change (2 ^ 18) with 262144 in *; change (2 ^ 16) with 65536 in *;
  change (2 ^ 12) with 4096 in *; change (2 ^ 8) with 256 in *; change (2 ^ 6) with 64 in *;
  change (2 ^ 4) with 16 in *; change (2 ^ 2) with 4 in *; change (2 ^ 0) with 1 in *;
  change (2 ^ 32) with 4294967296 in *; change (2 ^ 31) with 2147483648 in *.

(** Quotients and remainders by constants. *)
Ltac div_lia := Z.to_euclidean_division_equations; lia.

(** A disjunction of bits is a sum when the bits do not overlap. *)
Lemma lor_add x y k : 0 ≤ k → 0 ≤ y < 2 ^ k → Z.lor (x * 2 ^ k) y = x * 2 ^ k + y.
Proof.
  intros Hk Hy. assert (Z.land (x * 2 ^ k) y = 0) as H0.
  { apply Z.bits_inj'. intros n Hn. rewrite Z.land_spec, Z.bits_0.
    destruct (Z.lt_ge_cases n k) as [Hlt|Hge]; [by rewrite Z.mul_pow2_bits_low|].
    rewrite <- (Z.mod_small y (2 ^ k)), Z.mod_pow2_bits_high by lia. apply andb_false_r. }
  by rewrite <- Z.lxor_lor, <- Z.add_nocarry_lxor.
Qed.

(** The alphabet: each sextet's character is read back by both tables and is not
    the padding character. *)
Lemma alphabet i :
  0 ≤ i < 64 →
  json_base64.table_at (file_base64.char_at i) = i ∧
  file_base64.tbl (file_base64.char_at i) = i ∧
  file_base64.char_at i ≠ "="%char.
Proof.
  intros Hi.
  assert (forallb (λ k, let c := file_base64.char_at (Z.of_nat k) in
    (json_base64.table_at c =? Z.of_nat k) && (file_base64.tbl c =? Z.of_nat k)
    && negb (bool_decide (c = "="%char))) (seq 0 64) = true) as H by (vm_compute; reflexivity).
  rewrite forallb_forall in H. specialize (H (Z.to_nat i)). cbv zeta in H. rewrite Z2Nat.id in H by lia.
  rewrite !andb_true_iff, negb_true_iff, bool_decide_eq_false, !Z.eqb_eq in H.
  assert (In (Z.to_nat i) (seq 0 64)) as Hin by (apply in_seq; lia).
  destruct (H Hin) as [[? ?] ?]. done.
Qed.

(** Induction in steps of three bytes. *)
Lemma bytes_ind3 (P : bytes → Prop) :
  P [] → (∀ b0, P [b0]) → (∀ b0 b1, P [b0; b1]) →
  (∀ b0 b1 b2 data, P data → P (b0 :: b1 :: b2 :: data)) → ∀ data, P data.
Proof.
  intros H0 H1 H2 H3. fix IH 1. intros [|b0 [|b1 [|b2 data]]]; [done|apply H1|apply H2|apply H3, IH].
Qed.

(** *** Encoding *)

Section encoding.
Import json_base64.

(** Lists of characters are equal when their sextets are. *)
Ltac chars_equal :=
  repeat match goal with
  | |- (_ ++ _ = _ ++ _) => f_equal
  | |- (_ :: _ = _ :: _) => f_equal
  | |- (char_at _ = char_at _) => f_equal
  end; try reflexivity; div_lia.

Lemma push_sextets_done val valb result :
  valb < 12 → (push_sextets 2 val valb result).1 < 0.
Proof. intros H. simpl. repeat case_match; simpl; lia. Qed.

Lemma encode_byte_first val result b :
  encode_byte (val, -6, result) b =
  (int32 (Z.shiftl val 8) + byte_value b, -4, result ++ [char_at (byte_value b / 4)]).
Proof.
  pose proof (byte_value_range b). cbn -[Z.shiftl Z.shiftr Z.land char_at int32].
  do 3 f_equal. unfold int32. bits_to_arith. f_equal. div_lia.
Qed.

Lemma encode_byte_second val result b :
  encode_byte (val, -4, result) b =
  (int32 (Z.shiftl val 8) + byte_value b, -2,
   result ++ [char_at (val mod 4 * 16 + byte_value b / 16)]).
Proof.
  pose proof (byte_value_range b). cbn -[Z.shiftl Z.shiftr Z.land char_at int32].
  do 3 f_equal. unfold int32. bits_to_arith. f_equal. div_lia.
Qed.

Lemma encode_byte_third val result b :
  encode_byte (val, -2, result) b =
  (int32 (Z.shiftl val 8) + byte_value b, -6,
   result ++ [char_at (val mod 16 * 4 + byte_value b / 64); char_at (byte_value b mod 64)]).
Proof.
  pose proof (byte_value_range b). cbn -[Z.shiftl Z.shiftr Z.land char_at int32].
  rewrite <- app_assoc. cbn [app]. unfold int32. bits_to_arith. do 3 f_equal; [|f_equal]; f_equal; div_lia.
Qed.

Lemma pad_full result : (length result mod 4 = 0)%nat → pad 3 result = result.
Proof. intros H. cbn [pad]. by rewrite H. Qed.

Lemma length_mod_app {A} (r l : list A) :
  (length r mod 4 = 0)%nat → (length (r ++ l) mod 4 = length l mod 4)%nat.
Proof. intros H. rewrite length_app, Nat.Div0.add_mod, H, Nat.add_0_l. apply Nat.Div0.mod_mod. Qed.

Lemma pad_three r c1 c2 c3 :
  (length r mod 4 = 0)%nat → pad 3 (r ++ [c1; c2; c3]) = r ++ [c1; c2; c3; "="%char].
Proof.
  intros H. cbn [pad]. rewrite !(length_mod_app r), <- app_assoc by done. cbn [app length].
  rewrite !(length_mod_app r) by done. done.
Qed.

Lemma pad_two r c1 c2 :
  (length r mod 4 = 0)%nat → pad 3 (r ++ [c1; c2]) = r ++ [c1; c2; "="%char; "="%char].
Proof.
  intros H. cbn [pad]. repeat (rewrite (length_mod_app r), <- ?app_assoc by done; cbn [app]). done.
Qed.

(** The block encoder in terms of sextets. *)
Lemma encode_block_sextets b0 b1 b2 :
  let a := byte_value b0 in let b := byte_value b1 in let c := byte_value b2 in
  file_base64.encode_block b0 (Some b1) (Some b2) =
  [char_at (a / 4); char_at (a mod 4 * 16 + b / 16); char_at (b mod 16 * 4 + c / 64);
   char_at (c mod 64)] ∧
  file_base64.encode_block b0 (Some b1) None =
  [char_at (a / 4); char_at (a mod 4 * 16 + b / 16); char_at (b mod 16 * 4); "="%char] ∧
  file_base64.encode_block b0 None None =
  [char_at (a / 4); char_at (a mod 4 * 16); "="%char; "="%char].
Proof.
  cbv zeta. unfold file_base64.encode_block. pose proof (byte_value_range b0) as Ha.
  pose proof (byte_value_range b1) as Hb. pose proof (byte_value_range b2) as Hc.
  revert Ha Hb Hc. generalize (byte_value b0) as a, (byte_value b1) as b, (byte_value b2) as c.
  intros a b c Ha Hb Hc. bits_to_arith.
  assert (Z.lor (a * 65536) (b * 256) = a * 65536 + b * 256) as E1
    by (apply (lor_add a (b * 256) 16); lia).
  assert (Z.lor (a * 65536 + b * 256) c = a * 65536 + b * 256 + c) as E2.
  { replace (a * 65536 + b * 256) with ((a * 256 + b) * 2 ^ 8) by lia. apply lor_add; lia. }
  change file_base64.char_at with char_at.
  rewrite E1, E2. split_and!; chars_equal.
Qed.

(** The accumulator encodes as the blocks do, from any state between blocks. *)
Lemma encode_from data val result :
  (length result mod 4 = 0)%nat →
  encode_tail (foldl encode_byte (val, -6, result) data) =
  result ++ file_base64.bytes_to_base64 data.
Proof.
  revert val result. induction data as [|b0|b0 b1|b0 b1 b2 data IH] using bytes_ind3;
    intros val result Hl; cbn [foldl file_base64.bytes_to_base64].
  - rewrite app_nil_r. by apply pad_full.
  - destruct (encode_block_sextets b0 b0 b0) as (_ & _ & ->).
    rewrite encode_byte_first. unfold encode_tail. change (-6 <? -4) with true. cbv iota zeta.
    rewrite <- app_assoc. cbn [app]. rewrite pad_two by done. 
    pose proof (byte_value_range b0). unfold int32. bits_to_arith. chars_equal.
  - destruct (encode_block_sextets b0 b1 b0) as (_ & -> & _).
    rewrite encode_byte_first, encode_byte_second. unfold encode_tail.
    change (-6 <? -2) with true. cbv iota zeta.
    rewrite <- !app_assoc. cbn [app]. rewrite pad_three by done.
    pose proof (byte_value_range b0). pose proof (byte_value_range b1).
    unfold int32. bits_to_arith. chars_equal.
  - destruct (encode_block_sextets b0 b1 b2) as (-> & _ & _).
    rewrite encode_byte_first, encode_byte_second, encode_byte_third.
    rewrite <- !app_assoc. cbn [app]. rewrite IH by (by rewrite length_mod_app).
    rewrite <- app_assoc. cbn [app]. f_equal.
    pose proof (byte_value_range b0). pose proof (byte_value_range b1). unfold int32. bits_to_arith.
    chars_equal.
Qed.
End encoding.

(** The accumulators stay [int]s: adding below the shifted bits never overflows. *)
Lemma accumulate_in_range val k x :
  k = 6 ∨ k = 8 → 0 ≤ x < 2 ^ k → - 2 ^ 31 ≤ int32 (Z.shiftl val k) + x < 2 ^ 31.
Proof. unfold int32. intros [-> | ->] H; bits_to_arith; div_lia. Qed.

(** *** Decoding *)

(** One character of either decoder. *)
Lemma json_decode_char val valb i rest :
  0 ≤ i < 64 →
  json_base64.decode_chars val valb (file_base64.char_at i :: rest) =
  let val := int32 (Z.shiftl val 6) + i in
  if 0 <=? valb + 6
  then byte_of_Z (Z.land (Z.shiftr val (valb + 6)) 255)
         :: json_base64.decode_chars val (valb + 6 - 8) rest
  else json_base64.decode_chars val (valb + 6) rest.
Proof.
  intros Hi. destruct (alphabet i Hi) as (Ht & _). cbn [json_base64.decode_chars]. rewrite Ht.
  destruct (Z.eqb_spec i 64); [lia|done].
Qed.

Lemma file_decode_char v bits i rest :
  0 ≤ i < 64 →
  file_base64.decode_chars v bits (file_base64.char_at i :: rest) =
  let v := uint32 (Z.shiftl v 6) + i in
  if 8 <=? bits + 6
  then byte_of_Z (Z.land (Z.shiftr v (bits + 6 - 8)) 255)
         :: file_base64.decode_chars v (bits + 6 - 8) rest
  else file_base64.decode_chars v (bits + 6) rest.
Proof.
  intros Hi. destruct (alphabet i Hi) as (_ & Ht & Hne). cbn [file_base64.decode_chars].
  rewrite bool_decide_eq_false_2 by done. rewrite Ht.
  destruct (Z.ltb_spec i 0); [lia|]. cbv zeta.
  assert (Z.lor (uint32 (Z.shiftl v 6)) i = uint32 (Z.shiftl v 6) + i) as ->; [|done].
  unfold uint32. bits_to_arith.
  replace ((v * 64) mod 4294967296) with ((v mod 67108864) * 2 ^ 6) by div_lia.
  apply lor_add; lia.
Qed.

(** Reads the next character, given the range of its sextet, and decides whether
    a byte is complete. *)
Ltac read_char lem :=
  rewrite lem by div_lia; cbv zeta;
  repeat match goal with
  | |- context [if ?b then _ else _] =>
      let v := eval vm_compute in b in change b with v; cbv iota
  end.

(** The byte read off the accumulator. *)
Ltac byte_read :=
  apply byte_of_value; unfold int32, uint32; bits_to_arith; div_lia.

Section decoding.
Context (b0 b1 b2 : byte).

Ltac decode_block lem :=
  pose proof (byte_value_range b0); pose proof (byte_value_range b1); pose proof (byte_value_range b2);
  change json_base64.char_at with file_base64.char_at; cbn [app];
  repeat read_char lem;
  repeat (apply (f_equal2 cons); [byte_read|]); reflexivity.

Lemma json_decode_block val rest :
  ∃ val', json_base64.decode_chars val (-8)
            (file_base64.encode_block b0 (Some b1) (Some b2) ++ rest) =
          b0 :: b1 :: b2 :: json_base64.decode_chars val' (-8) rest.
Proof.
  destruct (encode_block_sextets b0 b1 b2) as (-> & _ & _). eexists. decode_block json_decode_char.
Qed.

Lemma file_decode_block v rest :
  ∃ v', file_base64.decode_chars v 0
          (file_base64.encode_block b0 (Some b1) (Some b2) ++ rest) =
        b0 :: b1 :: b2 :: file_base64.decode_chars v' 0 rest.
Proof.
  destruct (encode_block_sextets b0 b1 b2) as (-> & _ & _). eexists. decode_block file_decode_char.
Qed.

Lemma decode_two val v :
  json_base64.decode_chars val (-8) (file_base64.encode_block b0 (Some b1) None) = [b0; b1] ∧
  file_base64.decode_chars v 0 (file_base64.encode_block b0 (Some b1) None) = [b0; b1].
Proof.
  destruct (encode_block_sextets b0 b1 b2) as (_ & -> & _).
  split; [decode_block json_decode_char|decode_block file_decode_char].
Qed.

Lemma decode_one val v :
  json_base64.decode_chars val (-8) (file_base64.encode_block b0 None None) = [b0] ∧
  file_base64.decode_chars v 0 (file_base64.encode_block b0 None None) = [b0].
Proof.
  destruct (encode_block_sextets b0 b1 b2) as (_ & _ & ->).
  split; [decode_block json_decode_char|decode_block file_decode_char].
Qed.
End decoding.

Lemma decode_encoded data val v :
  json_base64.decode_chars val (-8) (file_base64.bytes_to_base64 data) = data ∧
  file_base64.decode_chars v 0 (file_base64.bytes_to_base64 data) = data.
Proof.
  revert val v. induction data as [|b0|b0 b1|b0 b1 b2 data IH] using bytes_ind3; intros val v.
  - done.
  - apply (decode_one b0 b0 b0).
  - apply (decode_two b0 b1 b0).
  - cbn [file_base64.bytes_to_base64].
    destruct (json_decode_block b0 b1 b2 val (file_base64.bytes_to_base64 data)) as [val' ->].
    destruct (file_decode_block b0 b1 b2 v (file_base64.bytes_to_base64 data)) as [v' ->].
    destruct (IH val' v') as [E1 E2]. by rewrite E1, E2.
Qed.

Lemma json_encode_eq data :
  json_base64.bytes_to_base64 data = file_base64.bytes_to_base64 data.
Proof. by apply (encode_from data 0 []). Qed.

Lemma json_roundtrip data :
  json_base64.base64_to_bytes (json_base64.bytes_to_base64 data) = data.
Proof.
  rewrite json_encode_eq. apply (decode_encoded data 0 0).
Qed.

Lemma file_roundtrip data :
  file_base64.base64_to_bytes (file_base64.bytes_to_base64 data) = data.
Proof. apply (decode_encoded data 0 0). Qed.

(** The text of an encoding is ASCII. *)
Lemma base64_ascii data : Forall (λ c, N_of_ascii c < 128)%N (file_base64.bytes_to_base64 data).
Proof.
  assert (∀ i, N_of_ascii (file_base64.char_at i) < 128)%N as H.
  { intros i. unfold file_base64.char_at. destruct (file_base64.k_b64 !! Z.to_nat i) as [c|] eqn:E; [|done].
    assert (Forall (λ c, N_of_ascii c < 128)%N file_base64.k_b64) as Hall
      by (apply (bool_decide_eq_true_1 _); vm_compute; reflexivity).
    by apply (Forall_lookup_1 _ _ _ _ Hall E). }
  induction data as [|b0|b0 b1|b0 b1 b2 data IH] using bytes_ind3;
    cbn [file_base64.bytes_to_base64]; unfold file_base64.encode_block; repeat constructor; auto.
Qed.

Lemma ca_encode_eq data : ca_base64.base64_encode data = file_base64.bytes_to_base64 data.
Proof. by induction data as [|b0|b0 b1|b0 b1 b2 data IH] using bytes_ind3; simpl; rewrite ?IH. Qed.

Lemma ca_decode_eq v bits text :
  ca_base64.decode_chars v bits text = file_base64.decode_chars v bits text.
Proof.
  revert v bits. induction text as [|c text IH]; intros v bits; [done|].
  cbn [ca_base64.decode_chars file_base64.decode_chars].
  change ca_base64.tbl with file_base64.tbl. by rewrite !IH.
Qed.

Lemma ca_roundtrip data : ca_base64.base64_decode (ca_base64.base64_encode data) = data.
Proof.
  unfold ca_base64.base64_decode. rewrite ca_decode_eq, ca_encode_eq. apply (decode_encoded data 0 0).
Qed.

(** The three Base64 implementations agree: the RPC serializer's bit
    accumulator and the block encoders of the file engine and of the certificate
    authority produce the same text for every byte sequence (the wrap-around of
    the [int] accumulator and its padding loop included), and each of the three
    decoders gives back the bytes from that text. *)
Theorem base64_implementations_agree data :
  json_base64.bytes_to_base64 data = file_base64.bytes_to_base64 data ∧
  ca_base64.base64_encode data = file_base64.bytes_to_base64 data ∧
  json_base64.base64_to_bytes (file_base64.bytes_to_base64 data) = data ∧
  file_base64.base64_to_bytes (json_base64.bytes_to_base64 data) = data ∧
  ca_base64.base64_decode (json_base64.bytes_to_base64 data) = data.
Proof.
  rewrite json_encode_eq, <- ca_encode_eq, ca_roundtrip, ca_encode_eq.
  destruct (decode_encoded data 0 0). by split_and!.
Qed.
