(* ===== verification/JsonSerializer.v ===== *)
(** The JSON encoding of the RPC messages ([json_rpc_serializer] of
    [json_serializer.hpp]), over the JSON library of [ConfigEntry]: which fields
    are written and read back, the message-type check, and the round trip of all
    fourteen messages. *)

From Stdlib Require Import Ascii.
From S2P Require Import Prelude Types ConfigEntry Bytes Base64.

(** ** Messages not used by the node's own handlers *)

Record request_pre_vote_request : Type := mk_pre_vote_req {
  pv_term : N;
  pv_candidate_id : N;
  pv_last_log_index : N;
  pv_last_log_term : N
}.
Record request_pre_vote_response : Type := mk_pre_vote_resp {
  pvr_term : N;
  pvr_vote_granted : bool
}.
Record peer_info : Type := mk_peer { pi_node_id : N; pi_address : string }.
Record cluster_join_request : Type := mk_join_req { cj_node_id : N; cj_contact_address : string }.
Record cluster_join_response : Type := mk_join_resp {
  cjr_accepted : bool;
  cjr_redirect : option peer_info
}.
Record cluster_leave_request : Type := mk_leave_req { cl_node_id : N }.
Record cluster_leave_response : Type := mk_leave_resp {
  clr_accepted : bool;
  clr_redirect : option peer_info
}.

(** ** Fields *)

Definition bytes_to_base64 (data : bytes) : string :=
  String.string_of_list_ascii (json_base64.bytes_to_base64 data).
Definition base64_to_bytes (base64 : string) : bytes :=
  json_base64.base64_to_bytes (String.list_ascii_of_string base64).

(** [static_cast<int>] of an entry type and back.  The cast back goes through the
    enumeration's [uint8_t]; a value without an enumerator is outside the model. *)
Definition entry_type_value (t : entry_type) : Z :=
  match t with normal => 0 | configuration => 1 | no_op => 2 end.
Definition entry_type_of_value (z : Z) : outcome entry_type :=
  match Z.to_N (z mod 256) with
  | 0%N => Ret normal
  | 1%N => Ret configuration
  | 2%N => Ret no_op
  | _ => Undef "entry_type value without an enumerator"
  end.

(** [static_cast<std::uint64_t>(obj\[k\].as_int64())] and its like. *)
Definition get_u64 (obj : list (string * json)) (k : string) : outcome N :=
  let? z := as_int64 (json_at obj k) in Ret (u64_of_Z z).
Definition get_bool (obj : list (string * json)) (k : string) : outcome bool := as_bool (json_at obj k).
Definition get_string (obj : list (string * json)) (k : string) : outcome string :=
  as_string (json_at obj k).

(** [obj.at(k)] on a constant object. *)
Definition json_at_const (obj : list (string * json)) (k : string) : outcome json :=
  match json_lookup obj k with
  | Some v => Ret v
  | None => Throw (out_of_range "object::at")
  end.

(** Parse, and check the message type. *)
Definition open_message (name : string) (v : json) : outcome (list (string * json)) :=
  let? obj := as_object v in
  let? type := get_string obj "type" in
  if String.eqb type name then Ret obj
  else Throw (serialization_exception ("Invalid message type for " +:+ name)).

(** ** Log entries *)

Definition entry_to_json (entry : log_entry) : json :=
  jobject [("term", juint64 (e_term entry)); ("index", juint64 (e_index entry));
           ("command", jstring (bytes_to_base64 (e_command entry)));
           ("entry_type", jint64 (entry_type_value (e_type entry)))].

Definition json_to_entry (entry_val : json) : outcome log_entry :=
  let? entry_obj := as_object entry_val in
  let? term_v := json_at_const entry_obj "term" in let? term := as_int64 term_v in
  let? index_v := json_at_const entry_obj "index" in let? index := as_int64 index_v in
  let? command_v := json_at_const entry_obj "command" in let? command := as_string command_v in
  let? type :=
    (if json_contains entry_obj "entry_type" then
       let? type_v := json_at_const entry_obj "entry_type" in
       let? z := as_int64 type_v in entry_type_of_value z
     else Ret normal) in
  Ret (mk_entry (u64_of_Z term) (u64_of_Z index) (base64_to_bytes command) type).

Fixpoint json_to_entries (l : list json) : outcome (list log_entry) :=
  match l with
  | [] => Ret []
  | v :: l =>
      let? e := json_to_entry v in
      let? es := json_to_entries l in
      Ret (e :: es)
  end.

Definition get_entries (obj : list (string * json)) : outcome (list log_entry) :=
  let? entries_array := as_array (json_at obj "entries") in json_to_entries entries_array.

(** ** Encoders *)

Definition request_vote_request_to_json (req : request_vote_request) : json :=
  jobject [("type", jstring "request_vote_request"); ("term", juint64 (rv_term req));
           ("candidate_id", juint64 (rv_candidate_id req));
           ("last_log_index", juint64 (rv_last_log_index req));
           ("last_log_term", juint64 (rv_last_log_term req))].

Definition request_vote_response_to_json (resp : request_vote_response) : json :=
  jobject [("type", jstring "request_vote_response"); ("term", juint64 (rvr_term resp));
           ("vote_granted", jbool (rvr_vote_granted resp))].

Definition request_pre_vote_request_to_json (req : request_pre_vote_request) : json :=
  jobject [("type", jstring "request_pre_vote_request"); ("term", juint64 (pv_term req));
           ("candidate_id", juint64 (pv_candidate_id req));
           ("last_log_index", juint64 (pv_last_log_index req));
           ("last_log_term", juint64 (pv_last_log_term req))].

Definition request_pre_vote_response_to_json (resp : request_pre_vote_response) : json :=
  jobject [("type", jstring "request_pre_vote_response"); ("term", juint64 (pvr_term resp));
           ("vote_granted", jbool (pvr_vote_granted resp))].

Definition append_entries_request_to_json (req : append_entries_request) : json :=
  jobject [("type", jstring "append_entries_request"); ("term", juint64 (ae_term req));
           ("leader_id", juint64 (ae_leader_id req));
           ("prev_log_index", juint64 (ae_prev_log_index req));
           ("prev_log_term", juint64 (ae_prev_log_term req));
           ("leader_commit", juint64 (ae_leader_commit req));
           ("entries", jarray (map entry_to_json (ae_entries req)))].

(** A field written only when the optional has a value. *)
Definition optional_field (k : string) (o : option N) : list (string * json) :=
  match o with Some n => [(k, juint64 n)] | None => [] end.

Definition append_entries_response_to_json (resp : append_entries_response) : json :=
  jobject ([("type", jstring "append_entries_response"); ("term", juint64 (aer_term resp));
            ("success", jbool (aer_success resp))] ++
           optional_field "conflict_index" (aer_conflict_index resp) ++
           optional_field "conflict_term" (aer_conflict_term resp)).

Definition install_snapshot_request_to_json (req : install_snapshot_request) : json :=
  jobject [("type", jstring "install_snapshot_request"); ("term", juint64 (is_term req));
           ("leader_id", juint64 (is_leader_id req));
           ("last_included_index", juint64 (is_last_included_index req));
           ("last_included_term", juint64 (is_last_included_term req));
           ("offset", juint64 (is_offset req));
           ("data", jstring (bytes_to_base64 (is_data req)));
           ("done", jbool (is_done req))].

Definition install_snapshot_response_to_json (resp : install_snapshot_response) : json :=
  jobject [("type", jstring "install_snapshot_response"); ("term", juint64 (isr_term resp))].

Definition cluster_join_request_to_json (req : cluster_join_request) : json :=
  jobject [("type", jstring "cluster_join_request"); ("node_id", juint64 (cj_node_id req));
           ("contact_address", jstring (cj_contact_address req))].

Definition redirect_fields (redirect : option peer_info) : list (string * json) :=
  match redirect with
  | Some p => [("redirect_node_id", juint64 (pi_node_id p)); ("redirect_address", jstring (pi_address p))]
  | None => []
  end.

Definition cluster_join_response_to_json (resp : cluster_join_response) : json :=
  jobject ([("type", jstring "cluster_join_response"); ("accepted", jbool (cjr_accepted resp))] ++
           redirect_fields (cjr_redirect resp)).

Definition cluster_leave_request_to_json (req : cluster_leave_request) : json :=
  jobject [("type", jstring "cluster_leave_request"); ("node_id", juint64 (cl_node_id req))].

Definition cluster_leave_response_to_json (resp : cluster_leave_response) : json :=
  jobject ([("type", jstring "cluster_leave_response"); ("accepted", jbool (clr_accepted resp))] ++
           redirect_fields (clr_redirect resp)).

Definition fetch_log_entries_request_to_json (req : fetch_log_entries_request) : json :=
  jobject [("type", jstring "fetch_log_entries_request");
           ("requester_id", juint64 (fl_requester_id req));
           ("from_index", juint64 (fl_from_index req)); ("to_index", juint64 (fl_to_index req))].

Definition fetch_log_entries_response_to_json (resp : fetch_log_entries_response) : json :=
  jobject [("type", jstring "fetch_log_entries_response");
           ("responder_id", juint64 (flr_responder_id resp));
           ("available", jbool (flr_available resp));
           ("prev_log_term", juint64 (flr_prev_log_term resp));
           ("entries", jarray (map entry_to_json (flr_entries resp)))].

(** ** Decoders *)

Definition json_to_request_vote_request (v : json) : outcome request_vote_request :=
  let? obj := open_message "request_vote_request" v in
  let? term := get_u64 obj "term" in
  let? last_log_index := get_u64 obj "last_log_index" in
  let? last_log_term := get_u64 obj "last_log_term" in
  let? candidate_id := get_u64 obj "candidate_id" in
  Ret (mk_vote_req term candidate_id last_log_index last_log_term).

Definition json_to_request_vote_response (v : json) : outcome request_vote_response :=
  let? obj := open_message "request_vote_response" v in
  let? term := get_u64 obj "term" in
  let? vote_granted := get_bool obj "vote_granted" in
  Ret (mk_vote_resp term vote_granted).

Definition json_to_request_pre_vote_request (v : json) : outcome request_pre_vote_request :=
  let? obj := open_message "request_pre_vote_request" v in
  let? term := get_u64 obj "term" in
  let? last_log_index := get_u64 obj "last_log_index" in
  let? last_log_term := get_u64 obj "last_log_term" in
  let? candidate_id := get_u64 obj "candidate_id" in
  Ret (mk_pre_vote_req term candidate_id last_log_index last_log_term).

Definition json_to_request_pre_vote_response (v : json) : outcome request_pre_vote_response :=
  let? obj := open_message "request_pre_vote_response" v in
  let? term := get_u64 obj "term" in
  let? vote_granted := get_bool obj "vote_granted" in
  Ret (mk_pre_vote_resp term vote_granted).

Definition json_to_append_entries_request (v : json) : outcome append_entries_request :=
  let? obj := open_message "append_entries_request" v in
  let? term := get_u64 obj "term" in
  let? prev_log_index := get_u64 obj "prev_log_index" in
  let? prev_log_term := get_u64 obj "prev_log_term" in
  let? leader_commit := get_u64 obj "leader_commit" in
  let? leader_id := get_u64 obj "leader_id" in
  let? entries := get_entries obj in
  Ret (mk_append_req term leader_id prev_log_index prev_log_term entries leader_commit).

Definition get_optional_u64 (obj : list (string * json)) (k : string) : outcome (option N) :=
  if json_contains obj k then let? n := get_u64 obj k in Ret (Some n) else Ret None.

Definition json_to_append_entries_response (v : json) : outcome append_entries_response :=
  let? obj := open_message "append_entries_response" v in
  let? term := get_u64 obj "term" in
  let? success := get_bool obj "success" in
  let? conflict_index := get_optional_u64 obj "conflict_index" in
  let? conflict_term := get_optional_u64 obj "conflict_term" in
  Ret (mk_append_resp term success conflict_index conflict_term).

Definition json_to_install_snapshot_request (v : json) : outcome install_snapshot_request :=
  let? obj := open_message "install_snapshot_request" v in
  let? term := get_u64 obj "term" in
  let? last_included_index := get_u64 obj "last_included_index" in
  let? last_included_term := get_u64 obj "last_included_term" in
  let? offset := get_u64 obj "offset" in
  let? data := get_string obj "data" in
  let? is_done := get_bool obj "done" in
  let? leader_id := get_u64 obj "leader_id" in
  Ret (mk_snap_req term leader_id last_included_index last_included_term offset
         (base64_to_bytes data) is_done).

Definition json_to_install_snapshot_response (v : json) : outcome install_snapshot_response :=
  let? obj := open_message "install_snapshot_response" v in
  let? term := get_u64 obj "term" in
  Ret (mk_snap_resp term).

Definition json_to_cluster_join_request (v : json) : outcome cluster_join_request :=
  let? obj := open_message "cluster_join_request" v in
  let? node_id := get_u64 obj "node_id" in
  let? contact_address := get_string obj "contact_address" in
  Ret (mk_join_req node_id contact_address).

Definition get_redirect (obj : list (string * json)) : outcome (option peer_info) :=
  if json_contains obj "redirect_node_id" then
    let? node_id := get_u64 obj "redirect_node_id" in
    let? address := get_string obj "redirect_address" in
    Ret (Some (mk_peer node_id address))
  else Ret None.

Definition json_to_cluster_join_response (v : json) : outcome cluster_join_response :=
  let? obj := open_message "cluster_join_response" v in
  let? accepted := get_bool obj "accepted" in
  let? redirect := get_redirect obj in
  Ret (mk_join_resp accepted redirect).

Definition json_to_cluster_leave_request (v : json) : outcome cluster_leave_request :=
  let? obj := open_message "cluster_leave_request" v in
  let? node_id := get_u64 obj "node_id" in
  Ret (mk_leave_req node_id).

Definition json_to_cluster_leave_response (v : json) : outcome cluster_leave_response :=
  let? obj := open_message "cluster_leave_response" v in
  let? accepted := get_bool obj "accepted" in
  let? redirect := get_redirect obj in
  Ret (mk_leave_resp accepted redirect).

Definition json_to_fetch_log_entries_request (v : json) : outcome fetch_log_entries_request :=
  let? obj := open_message "fetch_log_entries_request" v in
  let? requester_id := get_u64 obj "requester_id" in
  let? from_index := get_u64 obj "from_index" in
  let? to_index := get_u64 obj "to_index" in
  Ret (mk_fetch_req requester_id from_index to_index).

Definition json_to_fetch_log_entries_response (v : json) : outcome fetch_log_entries_response :=
  let? obj := open_message "fetch_log_entries_response" v in
  let? responder_id := get_u64 obj "responder_id" in
  let? available := get_bool obj "available" in
  let? prev_log_term := get_u64 obj "prev_log_term" in
  let? entries := get_entries obj in
  Ret (mk_fetch_resp responder_id available prev_log_term entries).

(** ** The serializer: every message, and [deserialize<T>] *)

Inductive message : Type :=
  | msg_request_vote_request (m : request_vote_request)
  | msg_request_vote_response (m : request_vote_response)
  | msg_request_pre_vote_request (m : request_pre_vote_request)
  | msg_request_pre_vote_response (m : request_pre_vote_response)
  | msg_append_entries_request (m : append_entries_request)
  | msg_append_entries_response (m : append_entries_response)
  | msg_install_snapshot_request (m : install_snapshot_request)
  | msg_install_snapshot_response (m : install_snapshot_response)
  | msg_cluster_join_request (m : cluster_join_request)
  | msg_cluster_join_response (m : cluster_join_response)
  | msg_cluster_leave_request (m : cluster_leave_request)
  | msg_cluster_leave_response (m : cluster_leave_response)
  | msg_fetch_log_entries_request (m : fetch_log_entries_request)
  | msg_fetch_log_entries_response (m : fetch_log_entries_response).

(** The type argument of [deserialize]. *)
Inductive message_kind : Type :=
  | k_request_vote_request | k_request_vote_response
  | k_request_pre_vote_request | k_request_pre_vote_response
  | k_append_entries_request | k_append_entries_response
  | k_install_snapshot_request | k_install_snapshot_response
  | k_cluster_join_request | k_cluster_join_response
  | k_cluster_leave_request | k_cluster_leave_response
  | k_fetch_log_entries_request | k_fetch_log_entries_response.

#[export] Instance message_kind_eq_dec : EqDecision message_kind.
Proof. solve_decision. Defined.

Definition kind_of (m : message) : message_kind :=
  match m with
  | msg_request_vote_request _ => k_request_vote_request
  | msg_request_vote_response _ => k_request_vote_response
  | msg_request_pre_vote_request _ => k_request_pre_vote_request
  | msg_request_pre_vote_response _ => k_request_pre_vote_response
  | msg_append_entries_request _ => k_append_entries_request
  | msg_append_entries_response _ => k_append_entries_response
  | msg_install_snapshot_request _ => k_install_snapshot_request
  | msg_install_snapshot_response _ => k_install_snapshot_response
  | msg_cluster_join_request _ => k_cluster_join_request
  | msg_cluster_join_response _ => k_cluster_join_response
  | msg_cluster_leave_request _ => k_cluster_leave_request
  | msg_cluster_leave_response _ => k_cluster_leave_response
  | msg_fetch_log_entries_request _ => k_fetch_log_entries_request
  | msg_fetch_log_entries_response _ => k_fetch_log_entries_response
  end.

Definition message_to_json (m : message) : json :=
  match m with
  | msg_request_vote_request m => request_vote_request_to_json m
  | msg_request_vote_response m => request_vote_response_to_json m
  | msg_request_pre_vote_request m => request_pre_vote_request_to_json m
  | msg_request_pre_vote_response m => request_pre_vote_response_to_json m
  | msg_append_entries_request m => append_entries_request_to_json m
  | msg_append_entries_response m => append_entries_response_to_json m
  | msg_install_snapshot_request m => install_snapshot_request_to_json m
  | msg_install_snapshot_response m => install_snapshot_response_to_json m
  | msg_cluster_join_request m => cluster_join_request_to_json m
  | msg_cluster_join_response m => cluster_join_response_to_json m
  | msg_cluster_leave_request m => cluster_leave_request_to_json m
  | msg_cluster_leave_response m => cluster_leave_response_to_json m
  | msg_fetch_log_entries_request m => fetch_log_entries_request_to_json m
  | msg_fetch_log_entries_response m => fetch_log_entries_response_to_json m
  end.

Definition outcome_map {A B} (f : A → B) (o : outcome A) : outcome B := let? a := o in Ret (f a).

Definition json_to_message (k : message_kind) (v : json) : outcome message :=
  match k with
  | k_request_vote_request => outcome_map msg_request_vote_request (json_to_request_vote_request v)
  | k_request_vote_response => outcome_map msg_request_vote_response (json_to_request_vote_response v)
  | k_request_pre_vote_request =>
      outcome_map msg_request_pre_vote_request (json_to_request_pre_vote_request v)
  | k_request_pre_vote_response =>
      outcome_map msg_request_pre_vote_response (json_to_request_pre_vote_response v)
  | k_append_entries_request =>
      outcome_map msg_append_entries_request (json_to_append_entries_request v)
  | k_append_entries_response =>
      outcome_map msg_append_entries_response (json_to_append_entries_response v)
  | k_install_snapshot_request =>
      outcome_map msg_install_snapshot_request (json_to_install_snapshot_request v)
  | k_install_snapshot_response =>
      outcome_map msg_install_snapshot_response (json_to_install_snapshot_response v)
  | k_cluster_join_request => outcome_map msg_cluster_join_request (json_to_cluster_join_request v)
  | k_cluster_join_response => outcome_map msg_cluster_join_response (json_to_cluster_join_response v)
  | k_cluster_leave_request => outcome_map msg_cluster_leave_request (json_to_cluster_leave_request v)
  | k_cluster_leave_response => outcome_map msg_cluster_leave_response (json_to_cluster_leave_response v)
  | k_fetch_log_entries_request =>
      outcome_map msg_fetch_log_entries_request (json_to_fetch_log_entries_request v)
  | k_fetch_log_entries_response =>
      outcome_map msg_fetch_log_entries_response (json_to_fetch_log_entries_response v)
  end.

Section serializer.
Context {JL : JsonLib}.

(** The conversions between [std::string] and a range of [std::byte] copy the
    characters; text is a byte sequence here. *)
Definition serialize (m : message) : bytes := json_serialize (message_to_json m).

Definition deserialize (k : message_kind) (data : bytes) : outcome message :=
  let? v := json_parse data in json_to_message k v.
End serializer.

(** The name a message carries in its [type] field. *)
Definition kind_name (k : message_kind) : string :=
  match k with
  | k_request_vote_request => "request_vote_request"
  | k_request_vote_response => "request_vote_response"
  | k_request_pre_vote_request => "request_pre_vote_request"
  | k_request_pre_vote_response => "request_pre_vote_response"
  | k_append_entries_request => "append_entries_request"
  | k_append_entries_response => "append_entries_response"
  | k_install_snapshot_request => "install_snapshot_request"
  | k_install_snapshot_response => "install_snapshot_response"
  | k_cluster_join_request => "cluster_join_request"
  | k_cluster_join_response => "cluster_join_response"
  | k_cluster_leave_request => "cluster_leave_request"
  | k_cluster_leave_response => "cluster_leave_response"
  | k_fetch_log_entries_request => "fetch_log_entries_request"
  | k_fetch_log_entries_response => "fetch_log_entries_response"
  end.

(** ** Well-formed messages: the numbers fit the library's signed integers and the
    addresses are ASCII *)

Definition entry_ok (e : log_entry) : Prop := id_fits (e_term e) ∧ id_fits (e_index e).
Definition peer_ok (p : peer_info) : Prop := id_fits (pi_node_id p) ∧ ascii_string (pi_address p).
Definition option_ok {A} (P : A → Prop) (o : option A) : Prop :=
  match o with Some a => P a | None => True end.

Definition message_ok (m : message) : Prop :=
  match m with
  | msg_request_vote_request m =>
      Forall id_fits [rv_term m; rv_candidate_id m; rv_last_log_index m; rv_last_log_term m]
  | msg_request_vote_response m => id_fits (rvr_term m)
  | msg_request_pre_vote_request m =>
      Forall id_fits [pv_term m; pv_candidate_id m; pv_last_log_index m; pv_last_log_term m]
  | msg_request_pre_vote_response m => id_fits (pvr_term m)
  | msg_append_entries_request m =>
      Forall id_fits [ae_term m; ae_leader_id m; ae_prev_log_index m; ae_prev_log_term m;
                      ae_leader_commit m] ∧ Forall entry_ok (ae_entries m)
  | msg_append_entries_response m =>
      id_fits (aer_term m) ∧ option_ok id_fits (aer_conflict_index m) ∧
      option_ok id_fits (aer_conflict_term m)
  | msg_install_snapshot_request m =>
      Forall id_fits [is_term m; is_leader_id m; is_last_included_index m; is_last_included_term m;
                      is_offset m]
  | msg_install_snapshot_response m => id_fits (isr_term m)
  | msg_cluster_join_request m => id_fits (cj_node_id m) ∧ ascii_string (cj_contact_address m)
  | msg_cluster_join_response m => option_ok peer_ok (cjr_redirect m)
  | msg_cluster_leave_request m => id_fits (cl_node_id m)
  | msg_cluster_leave_response m => option_ok peer_ok (clr_redirect m)
  | msg_fetch_log_entries_request m =>
      Forall id_fits [fl_requester_id m; fl_from_index m; fl_to_index m]
  | msg_fetch_log_entries_response m =>
      Forall id_fits [flr_responder_id m; flr_prev_log_term m] ∧ Forall entry_ok (flr_entries m)
  end.

(** ** Reading fields back *)

Definition norm_fields (kv : list (string * json)) : list (string * json) :=
  map (λ p, (p.1, json_normalize p.2)) kv.

Lemma lookup_norm_fields kv k :
  json_lookup (norm_fields kv) k = json_normalize <$> json_lookup kv k.
Proof. induction kv as [|[k' v] kv IH]; simpl; [done|]. by destruct (String.eqb k' k). Qed.

Lemma normalize_u64 n : id_fits n → json_normalize (juint64 n) = jint64 (Z.of_N n).
Proof. unfold id_fits. intros H. simpl. by apply N.leb_le in H as ->. Qed.

Section fields.
Context (kv : list (string * json)) (k : string).

Lemma field_u64 n :
  json_lookup kv k = Some (juint64 n) → id_fits n → get_u64 (norm_fields kv) k = Ret n.
Proof.
  intros E H. unfold get_u64, json_at. rewrite lookup_norm_fields, E. cbn [fmap option_fmap option_map default].
  rewrite normalize_u64 by done. cbn. by rewrite u64_of_Z_of_N.
Qed.

Lemma field_bool b : json_lookup kv k = Some (jbool b) → get_bool (norm_fields kv) k = Ret b.
Proof. intros E. unfold get_bool, json_at. by rewrite lookup_norm_fields, E. Qed.

Lemma field_string s : json_lookup kv k = Some (jstring s) → get_string (norm_fields kv) k = Ret s.
Proof. intros E. unfold get_string, json_at. by rewrite lookup_norm_fields, E. Qed.

Lemma field_contains : json_contains (norm_fields kv) k = json_contains kv k.
Proof. unfold json_contains. rewrite lookup_norm_fields. by destruct (json_lookup kv k). Qed.

Lemma field_optional o :
  json_lookup kv k = juint64 <$> o → option_ok id_fits o →
  get_optional_u64 (norm_fields kv) k = Ret o.
Proof.
  intros E H. unfold get_optional_u64. rewrite field_contains. unfold json_contains. rewrite E.
  destruct o as [n|]; simpl; [|done]. by rewrite (field_u64 n).
Qed.
End fields.

Lemma base64_to_bytes_inv data : base64_to_bytes (bytes_to_base64 data) = data.
Proof.
  unfold base64_to_bytes, bytes_to_base64.
  rewrite String.list_ascii_of_string_of_list_ascii. apply json_roundtrip.
Qed.

Lemma entry_type_roundtrip t : entry_type_of_value (entry_type_value t) = Ret t.
Proof. by destruct t. Qed.

Lemma json_to_entry_inv e :
  entry_ok e → json_to_entry (json_normalize (entry_to_json e)) = Ret e.
Proof.
  intros [H1 H2]. destruct e as [t i c ty]. simpl in H1, H2.
  change (json_normalize (entry_to_json (mk_entry t i c ty))) with
    (jobject [("term", json_normalize (juint64 t)); ("index", json_normalize (juint64 i));
      ("command", jstring (bytes_to_base64 c)); ("entry_type", jint64 (entry_type_value ty))]).
  rewrite !normalize_u64 by done. unfold json_to_entry.
  cbn -[u64_of_Z base64_to_bytes bytes_to_base64 entry_type_of_value entry_type_value].
  rewrite entry_type_roundtrip. cbn -[u64_of_Z base64_to_bytes bytes_to_base64].
  by rewrite !u64_of_Z_of_N, base64_to_bytes_inv.
Qed.

Lemma get_entries_inv kv es :
  json_lookup kv "entries" = Some (jarray (map entry_to_json es)) → Forall entry_ok es →
  get_entries (norm_fields kv) = Ret es.
Proof.
  intros E H. unfold get_entries, json_at. rewrite lookup_norm_fields, E.
  cbn -[json_to_entries]. clear E.
  induction H as [|e es He _ IH]; [done|]. cbn [map json_to_entries].
  rewrite json_to_entry_inv by done. cbn [outcome_bind]. by rewrite IH.
Qed.

Lemma get_redirect_inv kv o :
  json_lookup kv "redirect_node_id" = juint64 ∘ pi_node_id <$> o →
  json_lookup kv "redirect_address" = jstring ∘ pi_address <$> o →
  option_ok peer_ok o → get_redirect (norm_fields kv) = Ret o.
Proof.
  intros E1 E2 H. unfold get_redirect. rewrite field_contains. unfold json_contains. rewrite E1.
  destruct o as [[n a]|]; simpl; [|done]. destruct H as [Hn Ha]; simpl in *.
  by rewrite (field_u64 kv _ n), (field_string kv _ a).
Qed.

(** ** The round trip *)

Lemma message_fields m :
  ∃ kv, message_to_json m = jobject kv ∧ json_lookup kv "type" = Some (jstring (kind_name (kind_of m))).
Proof. by destruct m; eexists. Qed.

Lemma open_fields kv name type :
  json_lookup kv "type" = Some (jstring type) →
  open_message name (jobject (norm_fields kv)) =
  if String.eqb type name then Ret (norm_fields kv)
  else Throw (serialization_exception ("Invalid message type for " +:+ name)).
Proof. intros E. unfold open_message. cbn [as_object outcome_bind]. by rewrite (field_string kv "type" type). Qed.

(** Unfolds the decoder, or the encoder, of a message. *)
Ltac unfold_decoder :=
  cbv [json_to_message
    json_to_request_vote_request json_to_request_vote_response json_to_request_pre_vote_request
    json_to_request_pre_vote_response json_to_append_entries_request
    json_to_append_entries_response json_to_install_snapshot_request
    json_to_install_snapshot_response json_to_cluster_join_request json_to_cluster_join_response
    json_to_cluster_leave_request json_to_cluster_leave_response json_to_fetch_log_entries_request
    json_to_fetch_log_entries_response].
Ltac unfold_encoder :=
  cbv [message_to_json
    request_vote_request_to_json request_vote_response_to_json request_pre_vote_request_to_json
    request_pre_vote_response_to_json append_entries_request_to_json
    append_entries_response_to_json install_snapshot_request_to_json
    install_snapshot_response_to_json cluster_join_request_to_json cluster_join_response_to_json
    cluster_leave_request_to_json cluster_leave_response_to_json fetch_log_entries_request_to_json
    fetch_log_entries_response_to_json].

(** Every decoder starts with the check of the message type. *)
Lemma json_to_message_refuses k v e :
  open_message (kind_name k) v = Throw e → json_to_message k v = Throw e.
Proof. destruct k; cbv [kind_name]; intros H; unfold_decoder; by rewrite H. Qed.

Lemma kind_name_inj k1 k2 : kind_name k1 = kind_name k2 → k1 = k2.
Proof. by destruct k1, k2. Qed.

(** Reads the next field of an encoded message. *)
Ltac read_field :=
  first
    [ erewrite field_u64 by (reflexivity || assumption)
    | erewrite field_bool by reflexivity
    | erewrite field_string by reflexivity
    | erewrite get_entries_inv by (reflexivity || assumption) ];
  cbn [outcome_bind].

Ltac fits :=
  repeat match goal with
  | H : Forall _ (_ :: _) |- _ => apply Forall_cons in H as [? H]
  | H : Forall _ [] |- _ => clear H
  | H : _ ∧ _ |- _ => destruct H
  end.

Lemma json_to_message_inv m :
  message_ok m → json_to_message (kind_of m) (json_normalize (message_to_json m)) = Ret m.
Proof.
  intros H. destruct m as [m|m|m|m|m|m|m|m|m|m|m|m|m|m]; cbn [message_ok kind_of] in *; fits;
    unfold_decoder; unfold_encoder;
    match goal with |- context [json_normalize (jobject ?kv)] =>
      change (json_normalize (jobject kv)) with (jobject (norm_fields kv)) end;
    (erewrite open_fields by reflexivity); rewrite String.eqb_refl; cbn [outcome_bind];
    repeat read_field; try (destruct m; reflexivity).
  - destruct m as [t s ci ct].
    rewrite (field_optional _ "conflict_index" ci) by (done || by destruct ci, ct). cbn [outcome_bind].
    by rewrite (field_optional _ "conflict_term" ct) by (done || by destruct ci, ct).
  - rewrite base64_to_bytes_inv. by destruct m.
  - destruct m as [a o]. by rewrite (get_redirect_inv _ o) by (done || by destruct o).
  - destruct m as [a o]. by rewrite (get_redirect_inv _ o) by (done || by destruct o).
Qed.

(** *** Well-formedness of the encodings *)

Lemma base64_string_ascii data : ascii_string (bytes_to_base64 data).
Proof.
  unfold ascii_string, bytes_to_base64. rewrite String.list_ascii_of_string_of_list_ascii.
  rewrite json_encode_eq. apply base64_ascii.
Qed.

Lemma id_fits_u64 n : id_fits n → is_u64 n.
Proof. unfold id_fits, int64_max, is_u64, u64_modulus. lia. Qed.

Lemma entries_wf es : Forall entry_ok es → json_wf (jarray (map entry_to_json es)).
Proof.
  induction 1 as [|[t i c ty] es [Ht Hi] _ IH]; [done|]. split; [|exact IH].
  split; [by apply (bool_decide_eq_true_1 _)|].
  repeat split; try (by apply ascii_string_decide); try (by apply id_fits_u64);
    try apply base64_string_ascii; by destruct ty.
Qed.

(** Splits the well-formedness of an object into that of its keys and fields. *)
Ltac object_wf :=
  split; [by apply (bool_decide_eq_true_1 _)|];
  repeat split;
  first [ by apply ascii_string_decide | by apply id_fits_u64 | by apply entries_wf
        | apply base64_string_ascii | assumption ].

Lemma message_to_json_wf m : message_ok m → json_wf (message_to_json m).
Proof.
  intros H. destruct m as [m|m|m|m|m|m|m|m|m|m|m|m|m|m]; cbn [message_ok] in *; fits; unfold_encoder.
  all: match type of m with
    | append_entries_response => destruct m as [? ? [?|] [?|]]
    | cluster_join_response => destruct m as [? [[? ?]|]]
    | cluster_leave_response => destruct m as [? [[? ?]|]]
    | _ => idtac
    end; cbn [option_ok aer_conflict_index aer_conflict_term cjr_redirect clr_redirect] in *;
    unfold peer_ok in *; fits; object_wf.
Qed.

Section roundtrip.
Context {JL : JsonLib} {JLok : JsonLibOk}.

(** What is decoded from an encoded message, before the check of its type. *)
Lemma parse_serialized m : message_ok m → json_parse (serialize m) = Ret (json_normalize (message_to_json m)).
Proof. intros H. apply json_parse_serialize. by apply message_to_json_wf. Qed.

(** An encoded message, read as a message of any kind. *)
Lemma deserialize_serialized m k :
  message_ok m →
  deserialize k (serialize m) =
  if decide (k = kind_of m) then Ret m
  else Throw (serialization_exception ("Invalid message type for " +:+ kind_name k)).
Proof.
  intros H. unfold deserialize, serialize.
  change (json_serialize (message_to_json m)) with (serialize m).
  rewrite parse_serialized by done. cbn [outcome_bind].
  case_decide as Hk; [subst k; by apply json_to_message_inv|].
  apply json_to_message_refuses. destruct (message_fields m) as (kv & -> & Hty).
  change (json_normalize (jobject kv)) with (jobject (norm_fields kv)).
  rewrite (open_fields kv _ _ Hty). destruct (String.eqb_spec (kind_name (kind_of m)) (kind_name k)) as [E|];
    [|done]. by apply kind_name_inj in E.
Qed.

(** C15. The JSON serializer round-trips every RPC message and refuses every other
    kind: for each of the fourteen messages whose numbers fit the JSON library's
    signed integers, decoding the encoded bytes as the message's own type gives
    back the message, with payloads restored from Base64, and decoding them as
    any other type throws the serialization exception of that type. *)
Theorem messages_roundtrip m k :
  message_ok m →
  deserialize k (serialize m) =
  if decide (k = kind_of m) then Ret m
  else Throw (serialization_exception ("Invalid message type for " +:+ kind_name k)).
Proof. apply deserialize_serialized. Qed.
End roundtrip.

Definition sample_message : message :=
  msg_append_entries_request
    (mk_append_req 3 1 0 0 [mk_entry 3 1 [x00; xff; x61; x0a] normal; mk_entry 3 2 [] no_op] 1).

Lemma messages_roundtrip_witness :
  @deserialize CodeJson.code_json k_append_entries_request
    (@serialize CodeJson.code_json sample_message) = Ret sample_message.
Proof.
  apply (messages_roundtrip (JL := CodeJson.code_json) (JLok := CodeJson.code_json_ok)
    sample_message k_append_entries_request).
  repeat constructor; vm_compute; discriminate.
Defined.
