(* ===== verification/CborSerializer.v ===== *)
(** The CBOR encoding of the RPC messages ([cbor_rpc_serializer] of
    [cbor_serializer.hpp]): the hand-written codec at the level of bytes, its
    round trip on the fourteen messages, and the safety of decoding arbitrary
    bytes.

    The build buffer is the list of bytes written; the state of a decode is the
    list of bytes from the cursor to the end of the buffer. *)

From S2P Require Import Prelude Types ConfigEntry Bytes Base64 JsonSerializer.

Local Open Scope N_scope.

(** ** Encoding primitives *)

Definition major_uint : N := 0.
Definition major_byte_string : N := 2.
Definition major_text_string : N := 3.
Definition major_array : N := 4.
Definition major_map : N := 5.

Definition cbor_false : byte := xf4.
Definition cbor_true : byte := xf5.

(** [static_cast<std::byte>((value >> shift) & 0xFF)] *)
Definition byte_at (shift value : N) : byte := byte_of_N (N.land (N.shiftr value shift) 255).

Definition write_head (major value : N) : bytes :=
  let tag := N.shiftl major 5 in
  if value <? 24 then [byte_of_N (N.lor tag value)]
  else if value <=? 255 then [byte_of_N (N.lor tag 24); byte_at 0 value]
  else if value <=? 65535 then [byte_of_N (N.lor tag 25); byte_at 8 value; byte_at 0 value]
  else if value <=? 4294967295
  then [byte_of_N (N.lor tag 26); byte_at 24 value; byte_at 16 value; byte_at 8 value; byte_at 0 value]
  else byte_of_N (N.lor tag 27) ::
       map (λ shift, byte_at shift value) [56; 48; 40; 32; 24; 16; 8; 0].

Definition write_uint (value : N) : bytes := write_head major_uint value.

Definition write_byte_string (data : bytes) : bytes :=
  write_head major_byte_string (N.of_nat (length data)) ++ data.

Definition write_text_string (text : string) : bytes :=
  write_head major_text_string (N.of_nat (String.length text)) ++ String.list_byte_of_string text.

Definition write_bool (value : bool) : bytes := [if value then cbor_true else cbor_false].

Definition write_array_header (count : nat) : bytes := write_head major_array (N.of_nat count).
Definition write_map_header (count : nat) : bytes := write_head major_map (N.of_nat count).

Definition write_discriminant (discriminant : string) : bytes :=
  write_text_string "type" ++ write_text_string discriminant.

(** The underlying value of an entry type. *)
Definition entry_type_code (t : entry_type) : N :=
  match t with normal => 0 | configuration => 1 | no_op => 2 end.

Definition write_entry (entry : log_entry) : bytes :=
  write_map_header 4 ++
  write_text_string "term" ++ write_uint (e_term entry) ++
  write_text_string "index" ++ write_uint (e_index entry) ++
  write_text_string "command" ++ write_byte_string (e_command entry) ++
  write_text_string "entry_type" ++ write_uint (entry_type_code (e_type entry)).

Definition write_entries (entries : list log_entry) : bytes :=
  write_array_header (length entries) ++ concat (map write_entry entries).

(** ** Encoders *)

Definition write_request_vote_request (req : request_vote_request) : bytes :=
  write_map_header 5 ++ write_discriminant "request_vote_request" ++
  write_text_string "term" ++ write_uint (rv_term req) ++
  write_text_string "candidate_id" ++ write_uint (rv_candidate_id req) ++
  write_text_string "last_log_index" ++ write_uint (rv_last_log_index req) ++
  write_text_string "last_log_term" ++ write_uint (rv_last_log_term req).

Definition write_request_vote_response (resp : request_vote_response) : bytes :=
  write_map_header 3 ++ write_discriminant "request_vote_response" ++
  write_text_string "term" ++ write_uint (rvr_term resp) ++
  write_text_string "vote_granted" ++ write_bool (rvr_vote_granted resp).

Definition write_request_pre_vote_request (req : request_pre_vote_request) : bytes :=
  write_map_header 5 ++ write_discriminant "request_pre_vote_request" ++
  write_text_string "term" ++ write_uint (pv_term req) ++
  write_text_string "candidate_id" ++ write_uint (pv_candidate_id req) ++
  write_text_string "last_log_index" ++ write_uint (pv_last_log_index req) ++
  write_text_string "last_log_term" ++ write_uint (pv_last_log_term req).

Definition write_request_pre_vote_response (resp : request_pre_vote_response) : bytes :=
  write_map_header 3 ++ write_discriminant "request_pre_vote_response" ++
  write_text_string "term" ++ write_uint (pvr_term resp) ++
  write_text_string "vote_granted" ++ write_bool (pvr_vote_granted resp).

Definition write_append_entries_request (req : append_entries_request) : bytes :=
  write_map_header 7 ++ write_discriminant "append_entries_request" ++
  write_text_string "term" ++ write_uint (ae_term req) ++
  write_text_string "leader_id" ++ write_uint (ae_leader_id req) ++
  write_text_string "prev_log_index" ++ write_uint (ae_prev_log_index req) ++
  write_text_string "prev_log_term" ++ write_uint (ae_prev_log_term req) ++
  write_text_string "leader_commit" ++ write_uint (ae_leader_commit req) ++
  write_text_string "entries" ++ write_entries (ae_entries req).

(** A key that is left out when the optional is empty. *)
Definition write_optional (key : string) (o : option N) : bytes :=
  match o with Some n => write_text_string key ++ write_uint n | None => [] end.
Definition present {A} (o : option A) : nat := match o with Some _ => 1 | None => 0 end.

Definition write_append_entries_response (resp : append_entries_response) : bytes :=
  write_map_header (3 + present (aer_conflict_index resp) + present (aer_conflict_term resp)) ++
  write_discriminant "append_entries_response" ++
  write_text_string "term" ++ write_uint (aer_term resp) ++
  write_text_string "success" ++ write_bool (aer_success resp) ++
  write_optional "conflict_index" (aer_conflict_index resp) ++
  write_optional "conflict_term" (aer_conflict_term resp).

Definition write_install_snapshot_request (req : install_snapshot_request) : bytes :=
  write_map_header 8 ++ write_discriminant "install_snapshot_request" ++
  write_text_string "term" ++ write_uint (is_term req) ++
  write_text_string "leader_id" ++ write_uint (is_leader_id req) ++
  write_text_string "last_included_index" ++ write_uint (is_last_included_index req) ++
  write_text_string "last_included_term" ++ write_uint (is_last_included_term req) ++
  write_text_string "offset" ++ write_uint (is_offset req) ++
  write_text_string "data" ++ write_byte_string (is_data req) ++
  write_text_string "done" ++ write_bool (is_done req).

Definition write_install_snapshot_response (resp : install_snapshot_response) : bytes :=
  write_map_header 2 ++ write_discriminant "install_snapshot_response" ++
  write_text_string "term" ++ write_uint (isr_term resp).

Definition write_cluster_join_request (req : cluster_join_request) : bytes :=
  write_map_header 3 ++ write_discriminant "cluster_join_request" ++
  write_text_string "node_id" ++ write_uint (cj_node_id req) ++
  write_text_string "contact_address" ++ write_text_string (cj_contact_address req).

Definition write_redirect (redirect : option peer_info) : bytes :=
  match redirect with
  | Some p =>
      write_text_string "redirect_node_id" ++ write_uint (pi_node_id p) ++
      write_text_string "redirect_address" ++ write_text_string (pi_address p)
  | None => []
  end.

Definition write_cluster_join_response (resp : cluster_join_response) : bytes :=
  write_map_header (2 + 2 * present (cjr_redirect resp)) ++
  write_discriminant "cluster_join_response" ++
  write_text_string "accepted" ++ write_bool (cjr_accepted resp) ++
  write_redirect (cjr_redirect resp).

Definition write_cluster_leave_request (req : cluster_leave_request) : bytes :=
  write_map_header 2 ++ write_discriminant "cluster_leave_request" ++
  write_text_string "node_id" ++ write_uint (cl_node_id req).

Definition write_cluster_leave_response (resp : cluster_leave_response) : bytes :=
  write_map_header (2 + 2 * present (clr_redirect resp)) ++
  write_discriminant "cluster_leave_response" ++
  write_text_string "accepted" ++ write_bool (clr_accepted resp) ++
  write_redirect (clr_redirect resp).

Definition write_fetch_log_entries_request (req : fetch_log_entries_request) : bytes :=
  write_map_header 4 ++ write_discriminant "fetch_log_entries_request" ++
  write_text_string "requester_id" ++ write_uint (fl_requester_id req) ++
  write_text_string "from_index" ++ write_uint (fl_from_index req) ++
  write_text_string "to_index" ++ write_uint (fl_to_index req).

Definition write_fetch_log_entries_response (resp : fetch_log_entries_response) : bytes :=
  write_map_header 5 ++ write_discriminant "fetch_log_entries_response" ++
  write_text_string "responder_id" ++ write_uint (flr_responder_id resp) ++
  write_text_string "available" ++ write_bool (flr_available resp) ++
  write_text_string "prev_log_term" ++ write_uint (flr_prev_log_term resp) ++
  write_text_string "entries" ++ write_entries (flr_entries resp).

Definition cbor_serialize (m : message) : bytes :=
  match m with
  | msg_request_vote_request m => write_request_vote_request m
  | msg_request_vote_response m => write_request_vote_response m
  | msg_request_pre_vote_request m => write_request_pre_vote_request m
  | msg_request_pre_vote_response m => write_request_pre_vote_response m
  | msg_append_entries_request m => write_append_entries_request m
  | msg_append_entries_response m => write_append_entries_response m
  | msg_install_snapshot_request m => write_install_snapshot_request m
  | msg_install_snapshot_response m => write_install_snapshot_response m
  | msg_cluster_join_request m => write_cluster_join_request m
  | msg_cluster_join_response m => write_cluster_join_response m
  | msg_cluster_leave_request m => write_cluster_leave_request m
  | msg_cluster_leave_response m => write_cluster_leave_response m
  | msg_fetch_log_entries_request m => write_fetch_log_entries_request m
  | msg_fetch_log_entries_response m => write_fetch_log_entries_response m
  end.

(** ** Decoding primitives *)

Definition decode_error {A} (what : string) : M bytes A := mthrow (serialization_exception what).

Definition read_byte : M bytes N := λ cur,
  match cur with
  | [] => decode_error "CBOR decode: unexpected end of input" cur
  | b :: rest => (Ret (Byte.to_N b), rest)
  end.

(** [value = (value << 8) | read_byte(cur)], [n] times. *)
Fixpoint read_big_endian (n : nat) (value : N) : M bytes N :=
  match n with
  | O => mreturn value
  | S n => let! b := read_byte in read_big_endian n (N.lor (u64_wrap (N.shiftl value 8)) b)
  end.

Definition read_head : M bytes (N * N) :=
  let! initial := read_byte in
  let major := N.shiftr initial 5 in
  let info := N.land initial 31 in
  let! value :=
    if info <? 24 then mreturn info
    else if info =? 24 then read_byte
    else if info =? 25 then
      let! b1 := read_byte in let! b0 := read_byte in mreturn (N.lor (N.shiftl b1 8) b0)
    else if info =? 26 then
      let! b3 := read_byte in let! b2 := read_byte in let! b1 := read_byte in let! b0 := read_byte in
      mreturn (N.lor (N.lor (N.lor (N.shiftl b3 24) (N.shiftl b2 16)) (N.shiftl b1 8)) b0)
    else if info =? 27 then read_big_endian 8 0
    else decode_error "CBOR decode: unsupported additional-info value" in
  mreturn (major, value).

Definition read_head_of (expected_major : N) : M bytes N :=
  let! (major, value) := read_head in
  if negb (major =? expected_major) then decode_error "CBOR decode: unexpected major type"
  else mreturn value.

Definition read_uint : M bytes N := read_head_of major_uint.

(** [narrow<Target>], by the largest value of the target. *)
Definition narrow (max value : N) : M bytes N :=
  if max <? value then decode_error "CBOR decode: integer value exceeds target type range"
  else mreturn value.
Definition u64_max : N := 18446744073709551615.
Definition read_narrowed : M bytes N := let! value := read_uint in narrow u64_max value.

Definition require_available (count : N) : M bytes () := λ cur,
  if N.of_nat (length cur) <? count
  then decode_error "CBOR decode: declared length exceeds remaining input" cur
  else (Ret tt, cur).

(** The bytes from the cursor on, copied through a pointer, without a check. *)
Definition copy_raw (len : N) : M bytes bytes := λ cur,
  if N.of_nat (length cur) <? len then (Undef "read past the end of the buffer", cur)
  else (Ret (take (N.to_nat len) cur), drop (N.to_nat len) cur).

Definition read_byte_string : M bytes bytes :=
  let! len := read_head_of major_byte_string in
  do! require_available len in copy_raw len.

Definition read_text_string : M bytes string :=
  let! len := read_head_of major_text_string in
  do! require_available len in
  let! text := copy_raw len in
  mreturn (String.string_of_list_byte text).

Definition read_bool : M bytes bool :=
  let! initial := read_byte in
  if initial =? Byte.to_N cbor_true then mreturn true
  else if initial =? Byte.to_N cbor_false then mreturn false
  else decode_error "CBOR decode: expected boolean simple value".

Definition read_array_header : M bytes N :=
  let! count := read_head_of major_array in
  do! require_available count in mreturn count.

Definition read_map_header : M bytes N :=
  let! pairs := read_head_of major_map in
  do! require_available pairs in mreturn pairs.

Definition require_discriminant (pairs : N) (expected : string) : M bytes () :=
  if pairs <? 1 then decode_error "CBOR decode: message map missing type discriminant" else
  let! key := read_text_string in
  if negb (String.eqb key "type")
  then decode_error "CBOR decode: first map key is not the type discriminant" else
  let! value := read_text_string in
  if negb (String.eqb value expected)
  then decode_error ("Invalid message type, expected " +:+ expected)
  else mreturn tt.

(** The loop over [n] key-value pairs; [field] is its body.  A field that was
    read is [Some], so that [have_term] and its like are whether the field is. *)
Fixpoint read_fields {F} (n : nat) (field : string → F → M bytes F) (f : F) : M bytes F :=
  match n with
  | O => mreturn f
  | S n =>
      let! key := read_text_string in
      let! f := field key f in
      read_fields n field f
  end.

Definition unexpected_key {A} (owner key : string) : M bytes A :=
  decode_error ("Unexpected key in " +:+ owner +:+ ": " +:+ key).
Definition missing_field {A} (owner : string) : M bytes A :=
  decode_error ("Missing required field in " +:+ owner).

(** [read_entries]; the cast to an enumeration of a value without an enumerator
    is outside the model. *)
Definition read_entry_type : M bytes entry_type :=
  let! value := read_uint in
  let! code := narrow 255 value in
  match code with
  | 0 => mreturn normal
  | 1 => mreturn configuration
  | 2 => mreturn no_op
  | _ => mundef "entry_type value without an enumerator"
  end.

Definition read_entry : M bytes log_entry :=
  let! pairs := read_map_header in
  let! f := read_fields (N.to_nat pairs) (λ key '(term, index, command, type),
      if String.eqb key "term" then
        let! n := read_narrowed in mreturn (Some n, index, command, type)
      else if String.eqb key "index" then
        let! n := read_narrowed in mreturn (term, Some n, command, type)
      else if String.eqb key "command" then
        let! c := read_byte_string in mreturn (term, index, Some c, type)
      else if String.eqb key "entry_type" then
        let! t := read_entry_type in mreturn (term, index, command, t)
      else unexpected_key "log entry" key) (None, None, None, normal) in
  match f with
  | (Some term, Some index, Some command, type) => mreturn (mk_entry term index command type)
  | _ => missing_field "log entry"
  end.

Fixpoint read_entry_list (n : nat) : M bytes (list log_entry) :=
  match n with
  | O => mreturn []
  | S n => let! e := read_entry in let! es := read_entry_list n in mreturn (e :: es)
  end.

Definition read_entries : M bytes (list log_entry) :=
  let! count := read_array_header in read_entry_list (N.to_nat count).

(** ** Decoders *)

(** The head of a message: its map header and discriminant; the number of pairs
    that follow. *)
Definition open_map (name : string) : M bytes nat :=
  let! pairs := read_map_header in
  do! require_discriminant pairs name in
  mreturn (N.to_nat (pairs - 1)).

Definition read_request_vote_request : M bytes request_vote_request :=
  let! n := open_map "request_vote_request" in
  let! f := read_fields n (λ key '(term, cid, lli, llt),
      if String.eqb key "term" then let! v := read_narrowed in mreturn (Some v, cid, lli, llt)
      else if String.eqb key "candidate_id" then
        let! v := read_narrowed in mreturn (term, Some v, lli, llt)
      else if String.eqb key "last_log_index" then
        let! v := read_narrowed in mreturn (term, cid, Some v, llt)
      else if String.eqb key "last_log_term" then
        let! v := read_narrowed in mreturn (term, cid, lli, Some v)
      else unexpected_key "request_vote_request" key) (None, None, None, None) in
  match f with
  | (Some term, Some cid, Some lli, Some llt) => mreturn (mk_vote_req term cid lli llt)
  | _ => missing_field "request_vote_request"
  end.

Definition read_request_vote_response : M bytes request_vote_response :=
  let! n := open_map "request_vote_response" in
  let! f := read_fields n (λ key '(term, granted),
      if String.eqb key "term" then let! v := read_narrowed in mreturn (Some v, granted)
      else if String.eqb key "vote_granted" then let! v := read_bool in mreturn (term, Some v)
      else unexpected_key "request_vote_response" key) (None, None) in
  match f with
  | (Some term, Some granted) => mreturn (mk_vote_resp term granted)
  | _ => missing_field "request_vote_response"
  end.

Definition read_request_pre_vote_request : M bytes request_pre_vote_request :=
  let! n := open_map "request_pre_vote_request" in
  let! f := read_fields n (λ key '(term, cid, lli, llt),
      if String.eqb key "term" then let! v := read_narrowed in mreturn (Some v, cid, lli, llt)
      else if String.eqb key "candidate_id" then
        let! v := read_narrowed in mreturn (term, Some v, lli, llt)
      else if String.eqb key "last_log_index" then
        let! v := read_narrowed in mreturn (term, cid, Some v, llt)
      else if String.eqb key "last_log_term" then
        let! v := read_narrowed in mreturn (term, cid, lli, Some v)
      else unexpected_key "request_pre_vote_request" key) (None, None, None, None) in
  match f with
  | (Some term, Some cid, Some lli, Some llt) => mreturn (mk_pre_vote_req term cid lli llt)
  | _ => missing_field "request_pre_vote_request"
  end.

Definition read_request_pre_vote_response : M bytes request_pre_vote_response :=
  let! n := open_map "request_pre_vote_response" in
  let! f := read_fields n (λ key '(term, granted),
      if String.eqb key "term" then let! v := read_narrowed in mreturn (Some v, granted)
      else if String.eqb key "vote_granted" then let! v := read_bool in mreturn (term, Some v)
      else unexpected_key "request_pre_vote_response" key) (None, None) in
  match f with
  | (Some term, Some granted) => mreturn (mk_pre_vote_resp term granted)
  | _ => missing_field "request_pre_vote_response"
  end.

Definition read_append_entries_request : M bytes append_entries_request :=
  let! n := open_map "append_entries_request" in
  let! f := read_fields n (λ key '(term, lid, pli, plt, commit, entries),
      if String.eqb key "term" then
        let! v := read_narrowed in mreturn (Some v, lid, pli, plt, commit, entries)
      else if String.eqb key "leader_id" then
        let! v := read_narrowed in mreturn (term, Some v, pli, plt, commit, entries)
      else if String.eqb key "prev_log_index" then
        let! v := read_narrowed in mreturn (term, lid, Some v, plt, commit, entries)
      else if String.eqb key "prev_log_term" then
        let! v := read_narrowed in mreturn (term, lid, pli, Some v, commit, entries)
      else if String.eqb key "leader_commit" then
        let! v := read_narrowed in mreturn (term, lid, pli, plt, Some v, entries)
      else if String.eqb key "entries" then
        let! v := read_entries in mreturn (term, lid, pli, plt, commit, Some v)
      else unexpected_key "append_entries_request" key) (None, None, None, None, None, None) in
  match f with
  | (Some term, Some lid, Some pli, Some plt, Some commit, Some entries) =>
      mreturn (mk_append_req term lid pli plt entries commit)
  | _ => missing_field "append_entries_request"
  end.

Definition read_append_entries_response : M bytes append_entries_response :=
  let! n := open_map "append_entries_response" in
  let! f := read_fields n (λ key '(term, success, ci, ct),
      if String.eqb key "term" then let! v := read_narrowed in mreturn (Some v, success, ci, ct)
      else if String.eqb key "success" then let! v := read_bool in mreturn (term, Some v, ci, ct)
      else if String.eqb key "conflict_index" then
        let! v := read_narrowed in mreturn (term, success, Some v, ct)
      else if String.eqb key "conflict_term" then
        let! v := read_narrowed in mreturn (term, success, ci, Some v)
      else unexpected_key "append_entries_response" key) (None, None, None, None) in
  match f with
  | (Some term, Some success, ci, ct) => mreturn (mk_append_resp term success ci ct)
  | _ => missing_field "append_entries_response"
  end.

Definition read_install_snapshot_request : M bytes install_snapshot_request :=
  let! n := open_map "install_snapshot_request" in
  let! f := read_fields n (λ key '(term, lid, lii, lit, offset, data, is_done),
      if String.eqb key "term" then
        let! v := read_narrowed in mreturn (Some v, lid, lii, lit, offset, data, is_done)
      else if String.eqb key "leader_id" then
        let! v := read_narrowed in mreturn (term, Some v, lii, lit, offset, data, is_done)
      else if String.eqb key "last_included_index" then
        let! v := read_narrowed in mreturn (term, lid, Some v, lit, offset, data, is_done)
      else if String.eqb key "last_included_term" then
        let! v := read_narrowed in mreturn (term, lid, lii, Some v, offset, data, is_done)
      else if String.eqb key "offset" then
        let! v := read_narrowed in mreturn (term, lid, lii, lit, Some v, data, is_done)
      else if String.eqb key "data" then
        let! v := read_byte_string in mreturn (term, lid, lii, lit, offset, Some v, is_done)
      else if String.eqb key "done" then
        let! v := read_bool in mreturn (term, lid, lii, lit, offset, data, Some v)
      else unexpected_key "install_snapshot_request" key) (None, None, None, None, None, None, None) in
  match f with
  | (Some term, Some lid, Some lii, Some lit, Some offset, Some data, Some is_done) =>
      mreturn (mk_snap_req term lid lii lit offset data is_done)
  | _ => missing_field "install_snapshot_request"
  end.

Definition read_install_snapshot_response : M bytes install_snapshot_response :=
  let! n := open_map "install_snapshot_response" in
  let! f := read_fields n (λ key term,
      if String.eqb key "term" then let! v := read_narrowed in mreturn (Some v)
      else unexpected_key "install_snapshot_response" key) None in
  match f with
  | Some term => mreturn (mk_snap_resp term)
  | _ => missing_field "install_snapshot_response"
  end.

Definition read_cluster_join_request : M bytes cluster_join_request :=
  let! n := open_map "cluster_join_request" in
  let! f := read_fields n (λ key '(node, address),
      if String.eqb key "node_id" then let! v := read_narrowed in mreturn (Some v, address)
      else if String.eqb key "contact_address" then
        let! v := read_text_string in mreturn (node, Some v)
      else unexpected_key "cluster_join_request" key) (None, None) in
  match f with
  | (Some node, Some address) => mreturn (mk_join_req node address)
  | _ => missing_field "cluster_join_request"
  end.

(** The two parts of a redirect come together or not at all. *)
Definition check_redirect (owner : string) (node : option N) (address : option string) :
    M bytes (option peer_info) :=
  match node, address with
  | Some n, Some a => mreturn (Some (mk_peer n a))
  | None, None => mreturn None
  | _, _ => decode_error ("Incomplete redirect in " +:+ owner)
  end.

Definition read_cluster_join_response : M bytes cluster_join_response :=
  let! n := open_map "cluster_join_response" in
  let! f := read_fields n (λ key '(accepted, node, address),
      if String.eqb key "accepted" then let! v := read_bool in mreturn (Some v, node, address)
      else if String.eqb key "redirect_node_id" then
        let! v := read_narrowed in mreturn (accepted, Some v, address)
      else if String.eqb key "redirect_address" then
        let! v := read_text_string in mreturn (accepted, node, Some v)
      else unexpected_key "cluster_join_response" key) (None, None, None) in
  match f with
  | (Some accepted, node, address) =>
      let! redirect := check_redirect "cluster_join_response" node address in
      mreturn (mk_join_resp accepted redirect)
  | _ => missing_field "cluster_join_response"
  end.

Definition read_cluster_leave_request : M bytes cluster_leave_request :=
  let! n := open_map "cluster_leave_request" in
  let! f := read_fields n (λ key node,
      if String.eqb key "node_id" then let! v := read_narrowed in mreturn (Some v)
      else unexpected_key "cluster_leave_request" key) None in
  match f with
  | Some node => mreturn (mk_leave_req node)
  | _ => missing_field "cluster_leave_request"
  end.

Definition read_cluster_leave_response : M bytes cluster_leave_response :=
  let! n := open_map "cluster_leave_response" in
  let! f := read_fields n (λ key '(accepted, node, address),
      if String.eqb key "accepted" then let! v := read_bool in mreturn (Some v, node, address)
      else if String.eqb key "redirect_node_id" then
        let! v := read_narrowed in mreturn (accepted, Some v, address)
      else if String.eqb key "redirect_address" then
        let! v := read_text_string in mreturn (accepted, node, Some v)
      else unexpected_key "cluster_leave_response" key) (None, None, None) in
  match f with
  | (Some accepted, node, address) =>
      let! redirect := check_redirect "cluster_leave_response" node address in
      mreturn (mk_leave_resp accepted redirect)
  | _ => missing_field "cluster_leave_response"
  end.

Definition read_fetch_log_entries_request : M bytes fetch_log_entries_request :=
  let! n := open_map "fetch_log_entries_request" in
  let! f := read_fields n (λ key '(requester, from_index, to_index),
      if String.eqb key "requester_id" then
        let! v := read_narrowed in mreturn (Some v, from_index, to_index)
      else if String.eqb key "from_index" then
        let! v := read_narrowed in mreturn (requester, Some v, to_index)
      else if String.eqb key "to_index" then
        let! v := read_narrowed in mreturn (requester, from_index, Some v)
      else unexpected_key "fetch_log_entries_request" key) (None, None, None) in
  match f with
  | (Some requester, Some from_index, Some to_index) => mreturn (mk_fetch_req requester from_index to_index)
  | _ => missing_field "fetch_log_entries_request"
  end.

Definition read_fetch_log_entries_response : M bytes fetch_log_entries_response :=
  let! n := open_map "fetch_log_entries_response" in
  let! f := read_fields n (λ key '(responder, available, plt, entries),
      if String.eqb key "responder_id" then
        let! v := read_narrowed in mreturn (Some v, available, plt, entries)
      else if String.eqb key "available" then
        let! v := read_bool in mreturn (responder, Some v, plt, entries)
      else if String.eqb key "prev_log_term" then
        let! v := read_narrowed in mreturn (responder, available, Some v, entries)
      else if String.eqb key "entries" then
        let! v := read_entries in mreturn (responder, available, plt, Some v)
      else unexpected_key "fetch_log_entries_response" key) (None, None, None, None) in
  match f with
  | (Some responder, Some available, Some plt, Some entries) =>
      mreturn (mk_fetch_resp responder available plt entries)
  | _ => missing_field "fetch_log_entries_response"
  end.

Definition mfmap {S A B} (f : A → B) (m : M S A) : M S B := let! a := m in mreturn (f a).

Definition read_message (k : message_kind) : M bytes message :=
  match k with
  | k_request_vote_request => mfmap msg_request_vote_request read_request_vote_request
  | k_request_vote_response => mfmap msg_request_vote_response read_request_vote_response
  | k_request_pre_vote_request => mfmap msg_request_pre_vote_request read_request_pre_vote_request
  | k_request_pre_vote_response => mfmap msg_request_pre_vote_response read_request_pre_vote_response
  | k_append_entries_request => mfmap msg_append_entries_request read_append_entries_request
  | k_append_entries_response => mfmap msg_append_entries_response read_append_entries_response
  | k_install_snapshot_request => mfmap msg_install_snapshot_request read_install_snapshot_request
  | k_install_snapshot_response => mfmap msg_install_snapshot_response read_install_snapshot_response
  | k_cluster_join_request => mfmap msg_cluster_join_request read_cluster_join_request
  | k_cluster_join_response => mfmap msg_cluster_join_response read_cluster_join_response
  | k_cluster_leave_request => mfmap msg_cluster_leave_request read_cluster_leave_request
  | k_cluster_leave_response => mfmap msg_cluster_leave_response read_cluster_leave_response
  | k_fetch_log_entries_request => mfmap msg_fetch_log_entries_request read_fetch_log_entries_request
  | k_fetch_log_entries_response => mfmap msg_fetch_log_entries_response read_fetch_log_entries_response
  end.

(** [deserialize<T>].  What follows the map is not looked at. *)
Definition cbor_deserialize (k : message_kind) (data : bytes) : outcome message :=
  result_of (read_message k) data.

(** ** Headers are read back *)

Lemma N_lor_add x y k : y < 2 ^ k → N.lor (x * 2 ^ k) y = x * 2 ^ k + y.
Proof.
  intros H. apply N2Z.inj. rewrite N2Z.inj_lor, N2Z.inj_add, N2Z.inj_mul, N2Z.inj_pow.
  apply N2Z.inj_lt in H. rewrite N2Z.inj_pow in H. apply lor_add; lia.
Qed.

Lemma byte_at_value shift value : Byte.to_N (byte_at shift value) = N.shiftr value shift mod 256.
Proof.
  unfold byte_at. rewrite byte_of_N_to_N. change 255 with (N.ones 8). rewrite N.land_ones.
  apply N.Div0.mod_mod.
Qed.

(** One more byte of a big-endian number. *)
Lemma big_endian_step shift value :
  N.lor (N.shiftl (N.shiftr value (shift + 8)) 8) (Byte.to_N (byte_at shift value)) = N.shiftr value shift.
Proof.
  rewrite byte_at_value, <- N.shiftr_shiftr, N.shiftl_mul_pow2, (N.shiftr_div_pow2 _ 8).
  rewrite N_lor_add by (apply N.mod_lt; lia).
  rewrite N.mul_comm. symmetry. apply N.div_mod'.
Qed.

Lemma shiftr_u64 value shift : is_u64 value → is_u64 (N.shiftl (N.shiftr value (shift + 8)) 8).
Proof.
  unfold is_u64. intros H. rewrite <- N.shiftr_shiftr, N.shiftl_mul_pow2, !N.shiftr_div_pow2.
  pose proof (N.Div0.mul_div_le (value / 2 ^ shift) (2 ^ 8)).
  pose proof (N.Div0.div_le_upper_bound value (2 ^ shift) value). nia.
Qed.

(** [reads m w a]: reading [w], whatever follows it, gives [a] and leaves what
    follows. *)
Definition reads {A} (m : M bytes A) (w : bytes) (a : A) : Prop :=
  ∀ rest, m (w ++ rest) = (Ret a, rest).

Lemma reads_return {A} (a : A) : reads (mreturn a) [] a.
Proof. done. Qed.

Lemma reads_let {A B} (m : M bytes A) (k : A → M bytes B) w1 w2 a b :
  reads m w1 a → reads (k a) w2 b → reads (mlet m k) (w1 ++ w2) b.
Proof. intros H1 H2 rest. unfold mlet. by rewrite <- app_assoc, H1, H2. Qed.

(** The last piece. *)
Lemma reads_let_return {A B} (m : M bytes A) (k : A → M bytes B) w a b :
  reads m w a → k a = mreturn b → reads (mlet m k) w b.
Proof. intros H1 H2 rest. unfold mlet. by rewrite H1, H2. Qed.

Lemma reads_byte b : reads read_byte [b] (Byte.to_N b).
Proof. done. Qed.

(** The initial byte of an item. *)
Lemma initial_byte major info :
  major < 8 → info < 32 →
  let b := Byte.to_N (byte_of_N (N.lor (N.shiftl major 5) info)) in
  N.shiftr b 5 = major ∧ N.land b 31 = info.
Proof.
  intros Hm Hi. cbv zeta. rewrite byte_of_N_to_N, N.shiftl_mul_pow2, N_lor_add by done.
  change 31 with (N.ones 5). rewrite N.land_ones, N.shiftr_div_pow2.
  rewrite (N.mod_small _ 256) by lia. change (2 ^ 5) with 32.
  split; zify; Z.to_euclidean_division_equations; lia.
Qed.

Lemma reads_big_endian value :
  is_u64 value →
  reads (read_big_endian 8 0) (map (λ shift, byte_at shift value) [56; 48; 40; 32; 24; 16; 8; 0]) value.
Proof.
  intros Hv rest. cbn [map app read_big_endian].
  assert (∀ acc shift n bs, acc = N.shiftr value (shift + 8) →
    read_big_endian (S n) acc (byte_at shift value :: bs) = read_big_endian n (N.shiftr value shift) bs) as step.
  { intros acc shift n bs ->. cbn [read_big_endian]. unfold mlet. cbn [read_byte].
    rewrite <- (big_endian_step shift value). unfold u64_wrap.
    by rewrite (N.mod_small _ u64_modulus) by (by apply shiftr_u64). }
  assert (0 = N.shiftr value (56 + 8)) as E0.
  { rewrite N.shiftr_div_pow2. symmetry. by apply N.div_small. }
  change (read_big_endian 8 0 (byte_at 56 value :: byte_at 48 value :: byte_at 40 value :: byte_at 32 value
    :: byte_at 24 value :: byte_at 16 value :: byte_at 8 value :: byte_at 0 value :: rest) = (Ret value, rest)).
  rewrite (step 0 56 7%nat) by done. rewrite !step by done. by rewrite N.shiftr_0_r.
Qed.

(** A number of four bytes is put together from its bytes. *)
Lemma four_bytes value :
  value <= 4294967295 →
  let b shift := Byte.to_N (byte_at shift value) in
  N.lor (N.lor (N.lor (N.shiftl (b 24) 24) (N.shiftl (b 16) 16)) (N.shiftl (b 8) 8)) (b 0) = value.
Proof.
  intros Hv b.
  assert (b 24 = N.shiftr value (16 + 8)) as ->.
  { change (16 + 8) with 24. unfold b. rewrite byte_at_value. rewrite N.shiftr_div_pow2. apply N.mod_small.
    apply N.Div0.div_lt_upper_bound. change (2 ^ 24 * 256) with 4294967296. lia. }
  assert (∀ x y s k, N.lor (N.shiftl x (s + k)) (N.shiftl y k) = N.shiftl (N.lor (N.shiftl x s) y) k) as E.
  { intros. by rewrite N.shiftl_lor, N.shiftl_shiftl. }
  unfold b. rewrite (E _ _ 8 16), (big_endian_step 16 value). change 16 with (8 + 8) at 1.
  rewrite (E _ _ 8 8), (big_endian_step 8 value). change 8 with (0 + 8) at 1.
  rewrite (big_endian_step 0 value). apply N.shiftr_0_r.
Qed.

Lemma reads_head major value :
  major < 8 → is_u64 value → reads read_head (write_head major value) (major, value).
Proof.
  intros Hm Hv rest. unfold write_head, read_head.
  assert (∀ info w b, info < 32 → b = byte_of_N (N.lor (N.shiftl major 5) info) →
    reads (if info <? 24 then mreturn info else if info =? 24 then read_byte else if info =? 25 then
      let! b1 := read_byte in let! b0 := read_byte in mreturn (N.lor (N.shiftl b1 8) b0)
    else if info =? 26 then
      let! b3 := read_byte in let! b2 := read_byte in let! b1 := read_byte in let! b0 := read_byte in
      mreturn (N.lor (N.lor (N.lor (N.shiftl b3 24) (N.shiftl b2 16)) (N.shiftl b1 8)) b0)
    else if info =? 27 then read_big_endian 8 0
    else decode_error "CBOR decode: unsupported additional-info value") w value →
    read_head ((b :: w) ++ rest) = (Ret (major, value), rest)) as K.
  { intros info w b Hi -> Hr. destruct (initial_byte major info Hm Hi) as [E1 E2].
    cbn [app]. unfold read_head, mlet at 1. cbn [read_byte]. rewrite E1, E2.
    erewrite let_eval by apply Hr. done. }
  destruct (N.ltb_spec value 24); [|destruct (N.leb_spec value 255); [|destruct (N.leb_spec value 65535);
    [|destruct (N.leb_spec value 4294967295)]]].
  - apply (K value); [lia|done|]. by destruct (N.ltb_spec value 24); [|lia].
  - apply (K 24); [lia|done|]. intros r. cbn. unfold read_byte. rewrite byte_at_value, N.shiftr_0_r.
    by rewrite N.mod_small by lia.
  - apply (K 25); [lia|done|]. intros r. cbn -[N.lor N.shiftl].
    assert (Byte.to_N (byte_at 8 value) = N.shiftr value (0 + 8)) as E8.
    { rewrite byte_at_value. apply N.mod_small. rewrite N.shiftr_div_pow2.
      apply N.Div0.div_lt_upper_bound. change (2 ^ 8 * 256) with 65536. lia. }
    unfold mlet. cbn -[N.lor N.shiftl byte_at]. rewrite E8, big_endian_step. by rewrite N.shiftr_0_r.
  - apply (K 26); [lia|done|]. intros r. unfold mlet. cbn -[N.lor N.shiftl byte_at].
    by rewrite four_bytes.
  - apply (K 27); [lia|done|]. by apply reads_big_endian.
Qed.

Lemma reads_head_of major value :
  major < 8 → is_u64 value → reads (read_head_of major) (write_head major value) value.
Proof.
  intros Hm Hv rest. unfold read_head_of. erewrite let_eval by (by apply reads_head).
  cbn beta iota. by rewrite N.eqb_refl.
Qed.

Lemma reads_narrowed value : is_u64 value → reads read_narrowed (write_uint value) value.
Proof.
  intros Hv rest. unfold read_narrowed. erewrite let_eval by (by apply reads_head_of).
  unfold narrow. by destruct (N.ltb_spec u64_max value); [unfold is_u64, u64_modulus, u64_max in *; lia|].
Qed.

Lemma reads_bool b : reads read_bool (write_bool b) b.
Proof. by destruct b. Qed.

(** A checked copy of what is there. *)
Lemma available_app w rest n :
  n <= N.of_nat (length w) → require_available n (w ++ rest) = (Ret tt, w ++ rest).
Proof.
  intros H. unfold require_available. rewrite length_app.
  by destruct (N.ltb_spec (N.of_nat (length w + length rest)) n); [lia|].
Qed.

Lemma copy_raw_app w rest : copy_raw (N.of_nat (length w)) (w ++ rest) = (Ret w, rest).
Proof.
  unfold copy_raw. rewrite length_app.
  destruct (N.ltb_spec (N.of_nat (length w + length rest)) (N.of_nat (length w))); [lia|].
  by rewrite Nat2N.id, take_app_length, drop_app_length.
Qed.

Lemma reads_byte_string data :
  is_u64 (N.of_nat (length data)) → reads read_byte_string (write_byte_string data) data.
Proof.
  intros Hl rest. unfold read_byte_string, write_byte_string. rewrite <- app_assoc.
  erewrite let_eval by (by apply reads_head_of). erewrite let_eval by (by apply available_app).
  apply copy_raw_app.
Qed.

Lemma length_list_byte_of_string s : length (String.list_byte_of_string s) = String.length s.
Proof.
  unfold String.list_byte_of_string. rewrite length_map.
  induction s as [|c s IH]; simpl; congruence.
Qed.

Definition text_ok (s : string) : Prop := is_u64 (N.of_nat (String.length s)).

Lemma reads_text_string s : text_ok s → reads read_text_string (write_text_string s) s.
Proof.
  intros Hl rest. unfold read_text_string, write_text_string. rewrite <- app_assoc.
  erewrite let_eval by (by apply reads_head_of). rewrite <- length_list_byte_of_string.
  erewrite let_eval by (by apply available_app). erewrite let_eval by apply copy_raw_app.
  by rewrite String.string_of_list_byte_of_string.
Qed.

(** A header announces no more pairs than bytes follow. *)
Lemma reads_map_header {B} count (k : N → M bytes B) w b :
  is_u64 (N.of_nat count) → (count ≤ length w)%nat → reads (k (N.of_nat count)) w b →
  reads (mlet read_map_header k) (write_map_header count ++ w) b.
Proof.
  intros Hc Hl Hk rest. unfold mlet, read_map_header. rewrite <- app_assoc.
  erewrite let_eval by (by apply reads_head_of). erewrite let_eval by (apply available_app; lia). apply Hk.
Qed.

Lemma reads_array_header {B} count (k : N → M bytes B) w b :
  is_u64 (N.of_nat count) → (count ≤ length w)%nat → reads (k (N.of_nat count)) w b →
  reads (mlet read_array_header k) (write_array_header count ++ w) b.
Proof.
  intros Hc Hl Hk rest. unfold mlet, read_array_header. rewrite <- app_assoc.
  erewrite let_eval by (by apply reads_head_of). erewrite let_eval by (apply available_app; lia). apply Hk.
Qed.

(** Every item takes at least a byte. *)
Lemma write_head_length major value : (1 ≤ length (write_head major value))%nat.
Proof. unfold write_head. repeat case_match; simpl; lia. Qed.

Lemma write_text_length s : (1 ≤ length (write_text_string s))%nat.
Proof.
  unfold write_text_string. rewrite length_app.
  pose proof (write_head_length major_text_string (N.of_nat (String.length s))). lia.
Qed.

(** *** The loop over the fields *)

(** [n] pairs, written as [w], take the fields from [f] to [g]; they are no more
    than the bytes they take, which is what a map header is checked against. *)
Definition pairs_read {F} (field : string → F → M bytes F) (f : F) (n : nat) (w : bytes) (g : F) : Prop :=
  reads (read_fields n field f) w g ∧ (n ≤ length w)%nat.

Lemma pairs_read_nil {F} (field : string → F → M bytes F) f : pairs_read field f 0 [] f.
Proof. split; [apply reads_return|simpl; lia]. Qed.

Lemma pairs_read_cons {F} (field : string → F → M bytes F) f f' n key payload w g :
  text_ok key → reads (field key f) payload f' → pairs_read field f' n w g →
  pairs_read field f (S n) (write_text_string key ++ payload ++ w) g.
Proof.
  intros Hk Hf [Hn Hl]. split.
  - cbn [read_fields]. eapply reads_let; [by apply reads_text_string|]. by eapply reads_let.
  - rewrite !length_app. pose proof (write_text_length key). lia.
Qed.

Lemma pairs_read_last {F} (field : string → F → M bytes F) f f' key payload :
  text_ok key → reads (field key f) payload f' →
  pairs_read field f 1 (write_text_string key ++ payload) f'.
Proof.
  intros Hk Hf. rewrite <- (app_nil_r payload). eapply pairs_read_cons; eauto using pairs_read_nil.
Qed.

Lemma discriminant_run pairs name expected rest :
  1 <= pairs → text_ok name →
  require_discriminant pairs expected (write_discriminant name ++ rest) =
  if String.eqb name expected then (Ret tt, rest)
  else (Throw (serialization_exception ("Invalid message type, expected " +:+ expected)), rest).
Proof.
  intros Hp Hn. unfold require_discriminant, write_discriminant. rewrite <- app_assoc.
  destruct (N.ltb_spec pairs 1); [lia|].
  erewrite let_eval by (by apply reads_text_string).
  change (String.eqb "type" "type") with true. cbn [negb].
  erewrite let_eval by (by apply reads_text_string). by destruct (String.eqb name expected).
Qed.

(** The head of a message of [count] fields. *)
Lemma open_map_run count name expected w rest :
  (count < 20)%nat → (count ≤ length w)%nat → text_ok name →
  open_map expected ((write_map_header (S count) ++ write_discriminant name ++ w) ++ rest) =
  if String.eqb name expected then (Ret count, w ++ rest)
  else (Throw (serialization_exception ("Invalid message type, expected " +:+ expected)), w ++ rest).
Proof.
  intros Hc Hl Hn. unfold open_map, read_map_header. rewrite <- !app_assoc.
  erewrite let_eval; cycle 1.
  { erewrite let_eval by (apply reads_head_of; unfold is_u64, u64_modulus; [done|lia]).
    rewrite (app_assoc (write_discriminant name)).
    erewrite let_eval; [done|]. apply available_app. unfold write_discriminant.
    rewrite !length_app. pose proof (write_text_length "type"). lia. }
  rewrite <- app_assoc. unfold mlet. rewrite discriminant_run by (done || lia).
  destruct (String.eqb name expected); [|done]. unfold mreturn. do 2 f_equal. lia.
Qed.

Lemma reads_message {F B} name count (field : string → F → M bytes F) f g (k : F → M bytes B) w b :
  (count < 20)%nat → text_ok name → pairs_read field f count w g → k g = mreturn b →
  reads (let! n := open_map name in let! f' := read_fields n field f in k f')
    (write_map_header (S count) ++ write_discriminant name ++ w) b.
Proof.
  intros Hc Hn [Hf Hl] Hk rest.
  erewrite let_eval by (by rewrite (open_map_run _ name), String.eqb_refl).
  erewrite let_eval by apply Hf. by rewrite Hk.
Qed.

(** *** Entries and messages *)

Definition entry_fits (e : log_entry) : Prop :=
  is_u64 (e_term e) ∧ is_u64 (e_index e) ∧ is_u64 (N.of_nat (length (e_command e))).
Definition entries_fit (es : list log_entry) : Prop :=
  is_u64 (N.of_nat (length es)) ∧ Forall entry_fits es.
Definition peer_fits (p : peer_info) : Prop := is_u64 (pi_node_id p) ∧ text_ok (pi_address p).

(** Numbers of 64 bits and lengths that a [std::size_t] holds. *)
Definition message_fits (m : message) : Prop :=
  match m with
  | msg_request_vote_request m =>
      is_u64 (rv_term m) ∧ is_u64 (rv_candidate_id m) ∧ is_u64 (rv_last_log_index m) ∧ is_u64 (rv_last_log_term m)
  | msg_request_vote_response m => is_u64 (rvr_term m)
  | msg_request_pre_vote_request m =>
      is_u64 (pv_term m) ∧ is_u64 (pv_candidate_id m) ∧ is_u64 (pv_last_log_index m) ∧ is_u64 (pv_last_log_term m)
  | msg_request_pre_vote_response m => is_u64 (pvr_term m)
  | msg_append_entries_request m =>
      is_u64 (ae_term m) ∧ is_u64 (ae_leader_id m) ∧ is_u64 (ae_prev_log_index m) ∧
      is_u64 (ae_prev_log_term m) ∧ is_u64 (ae_leader_commit m) ∧ entries_fit (ae_entries m)
  | msg_append_entries_response m =>
      is_u64 (aer_term m) ∧ option_ok is_u64 (aer_conflict_index m) ∧ option_ok is_u64 (aer_conflict_term m)
  | msg_install_snapshot_request m =>
      is_u64 (is_term m) ∧ is_u64 (is_leader_id m) ∧ is_u64 (is_last_included_index m) ∧
      is_u64 (is_last_included_term m) ∧ is_u64 (is_offset m) ∧ is_u64 (N.of_nat (length (is_data m)))
  | msg_install_snapshot_response m => is_u64 (isr_term m)
  | msg_cluster_join_request m => is_u64 (cj_node_id m) ∧ text_ok (cj_contact_address m)
  | msg_cluster_join_response m => option_ok peer_fits (cjr_redirect m)
  | msg_cluster_leave_request m => is_u64 (cl_node_id m)
  | msg_cluster_leave_response m => option_ok peer_fits (clr_redirect m)
  | msg_fetch_log_entries_request m =>
      is_u64 (fl_requester_id m) ∧ is_u64 (fl_from_index m) ∧ is_u64 (fl_to_index m)
  | msg_fetch_log_entries_response m =>
      is_u64 (flr_responder_id m) ∧ is_u64 (flr_prev_log_term m) ∧ entries_fit (flr_entries m)
  end.

Lemma reads_entry_type t : reads read_entry_type (write_uint (entry_type_code t)) t.
Proof. by destruct t. Qed.

Create HintDb cbor.
#[export] Hint Resolve reads_narrowed reads_bool reads_byte_string reads_text_string reads_entry_type : cbor.

(** Each pair in turn: the key is looked up, the value read. *)
Ltac read_pair := cbn -[reads read_narrowed read_bool read_byte_string read_text_string read_entry_type
    read_entries write_entries write_uint write_bool write_byte_string write_text_string];
  eapply reads_let_return; [eauto with cbor | reflexivity].
Ltac read_pairs := repeat (
  first [ eapply pairs_read_last; [reflexivity | read_pair]
        | eapply pairs_read_cons; [reflexivity | read_pair |]
        | eapply pairs_read_nil ]).

Lemma reads_entry e : entry_fits e → reads read_entry (write_entry e) e.
Proof.
  intros (Ht & Hi & Hc). unfold read_entry, write_entry.
  match goal with |- reads _ (_ ++ ?w) _ =>
    eassert (pairs_read _ (None, None, None, normal) 4 w
       (Some (e_term e), Some (e_index e), Some (e_command e), e_type e)) as [Hf Hl] end.
  2:{ apply reads_map_header; [done|exact Hl|]. eapply reads_let_return; [exact Hf|]. by destruct e. }
  read_pairs.
Qed.

Lemma reads_entry_list es :
  Forall entry_fits es → reads (read_entry_list (length es)) (concat (map write_entry es)) es.
Proof.
  induction 1 as [|e es He Hes IH]; [apply reads_return|]. cbn [length read_entry_list map concat].
  eapply reads_let; [by apply reads_entry|]. by eapply reads_let_return.
Qed.

Lemma write_entry_length e : (1 ≤ length (write_entry e))%nat.
Proof.
  unfold write_entry. rewrite length_app. pose proof (write_head_length major_map (N.of_nat 4)).
  unfold write_map_header. lia.
Qed.

Lemma written_entries_length es : (length es ≤ length (concat (map write_entry es)))%nat.
Proof.
  induction es as [|e es IH]; cbn [length map concat]; [lia|]. rewrite length_app.
  pose proof (write_entry_length e). lia.
Qed.

Lemma reads_entries es : entries_fit es → reads read_entries (write_entries es) es.
Proof.
  intros [Hl Hes]. apply reads_array_header; [done|apply written_entries_length|].
  rewrite Nat2N.id. by apply reads_entry_list.
Qed.
#[export] Hint Resolve reads_entries : cbor.

Lemma reads_mfmap {A B} (f : A → B) m w a : reads m w a → reads (mfmap f m) w (f a).
Proof. intros H. by eapply reads_let_return. Qed.

Ltac unfold_cbor := cbv [write_request_vote_request write_request_vote_response
  write_request_pre_vote_request write_request_pre_vote_response write_append_entries_request
  write_append_entries_response write_install_snapshot_request write_install_snapshot_response
  write_cluster_join_request write_cluster_join_response write_cluster_leave_request
  write_cluster_leave_response write_fetch_log_entries_request write_fetch_log_entries_response
  read_request_vote_request read_request_vote_response read_request_pre_vote_request
  read_request_pre_vote_response read_append_entries_request read_append_entries_response
  read_install_snapshot_request read_install_snapshot_response read_cluster_join_request
  read_cluster_join_response read_cluster_leave_request read_cluster_leave_response
  read_fetch_log_entries_request read_fetch_log_entries_response].

Ltac reads_body := eapply reads_message; [lia | reflexivity | solve [read_pairs] | reflexivity].

(** Each message is read back by the decoder of its kind. *)
Lemma reads_serialized m : message_fits m → reads (read_message (kind_of m)) (cbor_serialize m) m.
Proof.
  intros H.
  destruct m as [[]|[]|[]|[]|[]|[? ? [] []]|[]|[]|[]|[? [[]|]]|[]|[? [[]|]]|[]|[]];
    cbn [message_fits kind_of read_message cbor_serialize] in *; apply reads_mfmap; unfold_cbor;
    cbn [aer_conflict_index aer_conflict_term cjr_redirect clr_redirect option_ok] in H; unfold peer_fits in *;
    repeat match goal with Hc : _ ∧ _ |- _ => destruct Hc end; try reads_body; unfold write_optional, write_redirect;
    cbn [aer_conflict_index aer_conflict_term cjr_redirect clr_redirect present Nat.add Nat.mul];
    rewrite <- ?app_assoc, ?app_nil_l, ?app_nil_r.
  all: reads_body.
Qed.

(** *** A message of another kind is refused *)

Lemma serialized_shape m :
  ∃ count w, cbor_serialize m = write_map_header (S count) ++ write_discriminant (kind_name (kind_of m)) ++ w ∧
    (count < 20)%nat ∧ (count ≤ length w)%nat.
Proof.
  destruct m as [[]|[]|[]|[]|[]|[? ? [] []]|[]|[]|[]|[? [[]|]]|[]|[? [[]|]]|[]|[]];
    cbn [kind_of cbor_serialize kind_name]; unfold_cbor; unfold write_optional, write_redirect;
    cbn [aer_conflict_index aer_conflict_term cjr_redirect clr_redirect present Nat.add Nat.mul];
    eexists _, _; (split; [reflexivity|]); (split; [lia|]); rewrite !length_app;
    repeat match goal with |- context [write_text_string ?s] =>
      pose proof (write_text_length s); generalize dependent (write_text_string s); intros end; lia.
Qed.

Lemma read_message_refuses k s e s' :
  open_map (kind_name k) s = (Throw e, s') → result_of (read_message k) s = Throw e.
Proof.
  destruct k; cbn [kind_name read_message]; intros H; unfold_cbor; unfold result_of, mfmap, mlet;
    by rewrite H.
Qed.

(** An encoded message, read by any of the decoders. *)
Lemma cbor_deserialize_serialized k m :
  message_fits m →
  cbor_deserialize k (cbor_serialize m) =
  if decide (k = kind_of m) then Ret m
  else Throw (serialization_exception ("Invalid message type, expected " +:+ kind_name k)).
Proof.
  intros H. unfold cbor_deserialize. rewrite <- (app_nil_r (cbor_serialize m)). case_decide as E.
  - subst k. unfold result_of. by rewrite reads_serialized.
  - destruct (serialized_shape m) as (count & w & -> & Hc & Hl).
    eapply read_message_refuses. rewrite open_map_run; [|done|done|by destruct m].
    destruct (String.eqb_spec (kind_name (kind_of m)) (kind_name k)) as [K|]; [|done].
    by apply kind_name_inj in K.
Qed.

(** C16. Messages survive their CBOR encoding.  The decoder of a message's own kind
    gives it back, whatever the values of its fields up to the full 64 bits; each of
    the thirteen other decoders refuses it with a serialization exception that names
    the kind expected. *)
Theorem cbor_roundtrip k m :
  message_fits m →
  cbor_deserialize k (cbor_serialize m) =
  if decide (k = kind_of m) then Ret m
  else Throw (serialization_exception ("Invalid message type, expected " +:+ kind_name k)).
Proof. apply cbor_deserialize_serialized. Qed.

(** Not only in JSON's signed range: the largest number of 64 bits. *)
Definition cbor_sample : message :=
  msg_append_entries_request
    (mk_append_req u64_max 1 70000 300 [mk_entry 3 1 [x00; xff; x61; x0a] normal; mk_entry 3 2 [] no_op] 24).

Lemma cbor_sample_fits : message_fits cbor_sample.
Proof.
  do 6 (split; [by vm_compute|]).
  repeat (apply Forall_cons_2; [do 2 (split; [by vm_compute|]); by vm_compute|]). apply Forall_nil_2.
Qed.

Lemma cbor_roundtrip_witness :
  cbor_deserialize k_append_entries_request (cbor_serialize cbor_sample) = Ret cbor_sample ∧
  cbor_deserialize k_cluster_join_request (cbor_serialize cbor_sample) =
    Throw (serialization_exception "Invalid message type, expected cluster_join_request").
Proof.
  split; [apply (cbor_roundtrip k_append_entries_request) | apply (cbor_roundtrip k_cluster_join_request)];
    apply cbor_sample_fits.
Defined.

(** ** Decoding arbitrary bytes *)

Definition no_enumerator : string := "entry_type value without an enumerator".

(** [decodes P m]: on any buffer, [m] gives a value with [P] and leaves a suffix
    of the buffer, or throws a serialization exception, or casts a number that no
    entry type has; in particular it never reads past the end. *)
Definition decodes {A} (P : A → Prop) (m : M bytes A) : Prop :=
  ∀ cur, is_u64 (N.of_nat (length cur)) →
  match m cur with
  | (Ret a, cur') => P a ∧ cur' `suffix_of` cur
  | (Throw e, _) => ∃ what, e = serialization_exception what
  | (Undef what, _) => what = no_enumerator
  end.

Lemma decodes_return {A} (P : A → Prop) a : P a → decodes P (mreturn a).
Proof. intros H cur _. by split. Qed.

Lemma decodes_error {A} (P : A → Prop) what : decodes P (decode_error what).
Proof. intros cur _. by exists what. Qed.

Lemma decodes_let {A B} (P : A → Prop) (Q : B → Prop) (m : M bytes A) (k : A → M bytes B) :
  decodes P m → (∀ a, P a → decodes Q (k a)) → decodes Q (mlet m k).
Proof.
  intros Hm Hk cur Hc. unfold mlet. specialize (Hm cur Hc). destruct (m cur) as [[a|e|u] cur'']; [|done..].
  destruct Hm as [Ha Hs]. assert (is_u64 (N.of_nat (length cur''))) as Hc'.
  { apply suffix_length in Hs. unfold is_u64 in *. lia. }
  specialize (Hk a Ha cur'' Hc'). destruct (k a cur'') as [[b|e|u] cur']; [|done..].
  destruct Hk. split; [done|]. by etrans.
Qed.

Lemma decodes_weaken {A} (P Q : A → Prop) m : (∀ a, P a → Q a) → decodes P m → decodes Q m.
Proof.
  intros H Hm cur Hc. specialize (Hm cur Hc). destruct (m cur) as [[a|e|u] cur']; [|done..].
  destruct Hm. split; [by apply H|done].
Qed.

Create HintDb decoding.
#[export] Hint Resolve decodes_return decodes_error : decoding.
Ltac decode_step := eapply decodes_let; [eauto with decoding | intros ? ?; cbv beta in *].

Lemma decodes_byte : decodes (λ b, b < 256) read_byte.
Proof.
  intros [|b cur] _; simpl; [eauto|]. split; [|by exists [b]]. pose proof (Byte.to_N_bounded b). lia.
Qed.
#[export] Hint Resolve decodes_byte : decoding.

Lemma lor_u64 x y : is_u64 x → is_u64 y → is_u64 (N.lor x y).
Proof.
  intros Hx Hy. unfold is_u64, u64_modulus in *. change 18446744073709551616 with (2 ^ 64) in *.
  destruct (N.eq_dec x 0) as [->|Hx0]; [by rewrite N.lor_0_l|].
  destruct (N.eq_dec y 0) as [->|Hy0]; [by rewrite N.lor_0_r|].
  assert (N.lor x y ≠ 0) by (intros E; by apply N.lor_eq_0_iff in E as [? _]).
  apply N.log2_lt_pow2; [lia|]. rewrite N.log2_lor.
  apply N.max_lub_lt; (apply N.log2_lt_pow2; [lia|done]).
Qed.

Lemma decodes_big_endian n value : is_u64 value → decodes is_u64 (read_big_endian n value).
Proof.
  revert value. induction n as [|n IH]; intros value Hv; [by apply decodes_return|].
  cbn [read_big_endian]. decode_step. apply IH, lor_u64.
  - apply u64_wrap_lt.
  - unfold is_u64, u64_modulus. lia.
Qed.

Lemma shiftl_u64 b n : b < 256 → n <= 24 → is_u64 (N.shiftl b n).
Proof.
  intros Hb Hn. unfold is_u64, u64_modulus. rewrite N.shiftl_mul_pow2.
  pose proof (N.pow_le_mono_r 2 n 24 ltac:(lia) Hn). nia.
Qed.

Lemma decodes_head : decodes (λ p, is_u64 p.2) read_head.
Proof.
  unfold read_head. decode_step.
  assert (∀ b, b < 256 → is_u64 b) as small by (unfold is_u64, u64_modulus; lia).
  eapply (decodes_let is_u64); [|intros v Hv; by apply decodes_return].
  repeat case_match; [| | | | |apply decodes_error].
  - apply decodes_return, small. eapply N.lt_trans; [by apply N.ltb_lt|lia].
  - eapply decodes_weaken; [exact small|apply decodes_byte].
  - repeat decode_step. apply decodes_return, lor_u64; [apply shiftl_u64|apply small]; lia.
  - repeat decode_step. apply decodes_return. repeat apply lor_u64; try apply shiftl_u64; try apply small; lia.
  - by apply decodes_big_endian.
Qed.

Lemma decodes_head_of major : decodes is_u64 (read_head_of major).
Proof.
  unfold read_head_of. eapply decodes_let; [apply decodes_head|]. intros [m v] Hv.
  case_match; eauto with decoding.
Qed.
#[export] Hint Resolve decodes_head_of : decoding.

Lemma decodes_narrowed : decodes is_u64 read_narrowed.
Proof. unfold read_narrowed, read_uint. decode_step. unfold narrow. case_match; eauto with decoding. Qed.

Lemma decodes_bool : decodes (λ _, True) read_bool.
Proof. unfold read_bool. decode_step. repeat case_match; eauto with decoding. Qed.

(** A length that was checked is copied. *)
Lemma decodes_copy len :
  decodes (λ data, is_u64 (N.of_nat (length data))) (do! require_available len in copy_raw len).
Proof.
  intros cur Hc. unfold mlet, require_available.
  destruct (N.ltb_spec (N.of_nat (length cur)) len) as [|Hl]; [by eexists|].
  unfold copy_raw. destruct (N.ltb_spec (N.of_nat (length cur)) len); [lia|].
  split; [rewrite length_take; unfold is_u64 in *; lia|]. apply suffix_drop.
Qed.

Lemma decodes_byte_string : decodes (λ data, is_u64 (N.of_nat (length data))) read_byte_string.
Proof. unfold read_byte_string. decode_step. apply decodes_copy. Qed.

Lemma length_string_of_list_byte l : String.length (String.string_of_list_byte l) = length l.
Proof. by rewrite <- length_list_byte_of_string, String.list_byte_of_string_of_list_byte. Qed.

Lemma decodes_text_string : decodes text_ok read_text_string.
Proof.
  unfold read_text_string. decode_step. rename a into len.
  assert (decodes text_ok (let! text := (do! require_available len in copy_raw len) in
      mreturn (String.string_of_list_byte text))) as Hd.
  { eapply decodes_let; [apply decodes_copy|]. intros text Ht. apply decodes_return.
    unfold text_ok. by rewrite length_string_of_list_byte. }
  intros cur Hc. specialize (Hd cur Hc). unfold mlet in *.
  destruct (require_available len cur) as [[u|e|w] s]; [|done..].
  by destruct (copy_raw len s) as [[u'|e|w] s'].
Qed.

(** A header's count is no more than the bytes that are left. *)
Lemma decodes_count major :
  decodes is_u64 (let! count := read_head_of major in do! require_available count in mreturn count).
Proof.
  decode_step. intros cur Hc. unfold mlet, require_available.
  match goal with |- context [N.ltb ?x ?y] => destruct (N.ltb x y) end; [by eexists|by split].
Qed.

Lemma decodes_map_header : decodes is_u64 read_map_header.
Proof. apply decodes_count. Qed.
Lemma decodes_array_header : decodes is_u64 read_array_header.
Proof. apply decodes_count. Qed.
#[export] Hint Resolve decodes_narrowed decodes_bool decodes_byte_string decodes_text_string
  decodes_map_header decodes_array_header : decoding.

Lemma decodes_open_map name : decodes (λ _, True) (open_map name).
Proof.
  unfold open_map. decode_step. unfold require_discriminant.
  eapply (decodes_let (λ _, True)); [|intros; by apply decodes_return].
  case_match; [apply decodes_error|]. decode_step. case_match; [apply decodes_error|].
  decode_step. case_match; eauto with decoding.
Qed.
#[export] Hint Resolve decodes_open_map : decoding.

Lemma decodes_fields {F} (I : F → Prop) (field : string → F → M bytes F) n f :
  (∀ key f, I f → decodes I (field key f)) → I f → decodes I (read_fields n field f).
Proof.
  intros Hfield. revert f. induction n as [|n IH]; intros f Hf; [by apply decodes_return|].
  cbn [read_fields]. decode_step. eapply decodes_let; [by apply Hfield|]. eauto.
Qed.

Lemma decodes_entry_type : decodes (λ _, True) read_entry_type.
Proof.
  unfold read_entry_type, read_uint. decode_step. eapply (decodes_let (λ _, True)).
  { unfold narrow. case_match; eauto with decoding. }
  intros code _. repeat case_match; eauto with decoding; by intros cur.
Qed.
#[export] Hint Resolve decodes_entry_type : decoding.

(** The fields read so far have the property of the message's; then the checks
    that all are there. *)
Ltac split_fields :=
  repeat match goal with
  | p : _ * _ |- _ => destruct p
  | H : _ ∧ _ |- _ => destruct H
  end.
Ltac decode_fields I :=
  eapply decodes_let;
  [ apply (decodes_fields I);
    [ intros ? ? ?; split_fields; cbv beta iota in *; split_fields; repeat case_match;
      try apply decodes_error; decode_step; apply decodes_return;
      cbn [option_ok]; repeat match goal with |- _ ∧ _ => split end; assumption
    | cbn [option_ok]; repeat split ]
  | intros; split_fields; cbv beta iota in *; split_fields; repeat case_match;
    try apply decodes_error; cbn [option_ok] in * ].

Lemma decodes_entry : decodes entry_fits read_entry.
Proof.
  unfold read_entry. decode_step.
  decode_fields (λ f : option N * option N * option bytes * entry_type,
    let '(term, index, command, _) := f in
    option_ok is_u64 term ∧ option_ok is_u64 index ∧
    option_ok (λ c, is_u64 (N.of_nat (length c))) command).
  by apply decodes_return.
Qed.

Lemma decodes_entry_list n : decodes (λ es, length es = n ∧ Forall entry_fits es) (read_entry_list n).
Proof.
  induction n as [|n IH]; cbn [read_entry_list]; [by apply decodes_return|].
  eapply decodes_let; [apply decodes_entry|]. intros e He. eapply decodes_let; [apply IH|].
  intros es [Hl Hes]. apply decodes_return. split; [simpl; by rewrite Hl|by constructor].
Qed.

Lemma decodes_entries : decodes entries_fit read_entries.
Proof.
  unfold read_entries. decode_step. eapply decodes_weaken; [|apply decodes_entry_list].
  intros es [Hl Hes]. split; [|done]. by rewrite Hl, N2Nat.id.
Qed.
#[export] Hint Resolve decodes_entries : decoding.

Lemma decodes_redirect owner node address :
  option_ok is_u64 node → option_ok text_ok address →
  decodes (option_ok peer_fits) (check_redirect owner node address).
Proof. intros Hn Ha. destruct node, address; eauto with decoding. by apply decodes_return. Qed.

Ltac decode_as I := unfold_cbor; decode_step; decode_fields I.

Lemma decodes_request_vote_request :
  decodes (λ m, message_fits (msg_request_vote_request m)) read_request_vote_request.
Proof.
  decode_as (λ f : option N * option N * option N * option N, let '(a, b, c, d) := f in
    option_ok is_u64 a ∧ option_ok is_u64 b ∧ option_ok is_u64 c ∧ option_ok is_u64 d).
  by apply decodes_return.
Qed.

Lemma decodes_request_vote_response :
  decodes (λ m, message_fits (msg_request_vote_response m)) read_request_vote_response.
Proof.
  decode_as (λ f : option N * option bool, let '(a, _) := f in option_ok is_u64 a). by apply decodes_return.
Qed.

Lemma decodes_request_pre_vote_request :
  decodes (λ m, message_fits (msg_request_pre_vote_request m)) read_request_pre_vote_request.
Proof.
  decode_as (λ f : option N * option N * option N * option N, let '(a, b, c, d) := f in
    option_ok is_u64 a ∧ option_ok is_u64 b ∧ option_ok is_u64 c ∧ option_ok is_u64 d).
  by apply decodes_return.
Qed.

Lemma decodes_request_pre_vote_response :
  decodes (λ m, message_fits (msg_request_pre_vote_response m)) read_request_pre_vote_response.
Proof.
  decode_as (λ f : option N * option bool, let '(a, _) := f in option_ok is_u64 a). by apply decodes_return.
Qed.

Lemma decodes_append_entries_request :
  decodes (λ m, message_fits (msg_append_entries_request m)) read_append_entries_request.
Proof.
  decode_as (λ f : option N * option N * option N * option N * option N * option (list log_entry),
    let '(a, b, c, d, e, es) := f in
    option_ok is_u64 a ∧ option_ok is_u64 b ∧ option_ok is_u64 c ∧ option_ok is_u64 d ∧
    option_ok is_u64 e ∧ option_ok entries_fit es).
  by apply decodes_return.
Qed.

Lemma decodes_append_entries_response :
  decodes (λ m, message_fits (msg_append_entries_response m)) read_append_entries_response.
Proof.
  decode_as (λ f : option N * option bool * option N * option N, let '(a, _, c, d) := f in
    option_ok is_u64 a ∧ option_ok is_u64 c ∧ option_ok is_u64 d).
  by apply decodes_return.
Qed.

Lemma decodes_install_snapshot_request :
  decodes (λ m, message_fits (msg_install_snapshot_request m)) read_install_snapshot_request.
Proof.
  decode_as (λ f : option N * option N * option N * option N * option N * option bytes * option bool,
    let '(a, b, c, d, e, data, _) := f in
    option_ok is_u64 a ∧ option_ok is_u64 b ∧ option_ok is_u64 c ∧ option_ok is_u64 d ∧
    option_ok is_u64 e ∧ option_ok (λ c, is_u64 (N.of_nat (length c))) data).
  by apply decodes_return.
Qed.

Lemma decodes_install_snapshot_response :
  decodes (λ m, message_fits (msg_install_snapshot_response m)) read_install_snapshot_response.
Proof. decode_as (option_ok is_u64). by apply decodes_return. Qed.

Lemma decodes_cluster_join_request :
  decodes (λ m, message_fits (msg_cluster_join_request m)) read_cluster_join_request.
Proof.
  decode_as (λ f : option N * option string, let '(a, b) := f in option_ok is_u64 a ∧ option_ok text_ok b).
  by apply decodes_return.
Qed.

Lemma decodes_cluster_join_response :
  decodes (λ m, message_fits (msg_cluster_join_response m)) read_cluster_join_response.
Proof.
  decode_as (λ f : option bool * option N * option string, let '(_, a, b) := f in
    option_ok is_u64 a ∧ option_ok text_ok b).
  eapply decodes_let; [by apply decodes_redirect|]. intros r Hr. by apply decodes_return.
Qed.

Lemma decodes_cluster_leave_request :
  decodes (λ m, message_fits (msg_cluster_leave_request m)) read_cluster_leave_request.
Proof. decode_as (option_ok is_u64). by apply decodes_return. Qed.

Lemma decodes_cluster_leave_response :
  decodes (λ m, message_fits (msg_cluster_leave_response m)) read_cluster_leave_response.
Proof.
  decode_as (λ f : option bool * option N * option string, let '(_, a, b) := f in
    option_ok is_u64 a ∧ option_ok text_ok b).
  eapply decodes_let; [by apply decodes_redirect|]. intros r Hr. by apply decodes_return.
Qed.

Lemma decodes_fetch_log_entries_request :
  decodes (λ m, message_fits (msg_fetch_log_entries_request m)) read_fetch_log_entries_request.
Proof.
  decode_as (λ f : option N * option N * option N, let '(a, b, c) := f in
    option_ok is_u64 a ∧ option_ok is_u64 b ∧ option_ok is_u64 c).
  by apply decodes_return.
Qed.

Lemma decodes_fetch_log_entries_response :
  decodes (λ m, message_fits (msg_fetch_log_entries_response m)) read_fetch_log_entries_response.
Proof.
  decode_as (λ f : option N * option bool * option N * option (list log_entry), let '(a, _, c, es) := f in
    option_ok is_u64 a ∧ option_ok is_u64 c ∧ option_ok entries_fit es).
  by apply decodes_return.
Qed.
#[export] Hint Resolve decodes_request_vote_request decodes_request_vote_response
  decodes_request_pre_vote_request decodes_request_pre_vote_response decodes_append_entries_request
  decodes_append_entries_response decodes_install_snapshot_request decodes_install_snapshot_response
  decodes_cluster_join_request decodes_cluster_join_response decodes_cluster_leave_request
  decodes_cluster_leave_response decodes_fetch_log_entries_request
  decodes_fetch_log_entries_response : decoding.

(** What a decoder of the kind [k] gives is a message of the kind that fits. *)
Lemma decodes_message k : decodes (λ m, kind_of m = k ∧ message_fits m) (read_message k).
Proof. destruct k; cbn [read_message]; unfold mfmap; decode_step; by apply decodes_return. Qed.

(** C17. Decoding is safe on any buffer.  Whatever the bytes and the kind asked for,
    the decoder never reads past the end of the buffer: it gives a message of that
    kind, whose re-encoding decodes to the same message, or throws a serialization
    exception; the one operation outside defined values is the cast of an entry's
    type number that no enumerator has. *)
Theorem cbor_decoding_safe k data :
  is_u64 (N.of_nat (length data)) →
  match cbor_deserialize k data with
  | Ret m => kind_of m = k ∧ cbor_deserialize k (cbor_serialize m) = Ret m
  | Throw e => ∃ what, e = serialization_exception what
  | Undef what => what = no_enumerator
  end.
Proof.
  intros Hd. pose proof (decodes_message k data Hd) as H. unfold cbor_deserialize at 1, result_of.
  destruct (read_message k data) as [[m|e|u] rest]; [|done..]. destruct H as [[Hk Hm] _].
  split; [done|]. subst k. unfold cbor_deserialize, result_of.
  rewrite <- (app_nil_r (cbor_serialize m)). by rewrite reads_serialized.
Qed.

(** A map that announces 2{^64} - 1 pairs. *)
Lemma cbor_decoding_safe_witness :
  is_u64 (N.of_nat (length [xbb; xff; xff; xff; xff; xff; xff; xff; xff; x64])) ∧
  ∃ what, cbor_deserialize k_request_vote_request [xbb; xff; xff; xff; xff; xff; xff; xff; xff; x64]
    = Throw (serialization_exception what).
Proof.
  assert (is_u64 (N.of_nat (length [xbb; xff; xff; xff; xff; xff; xff; xff; xff; x64]))) as Hd by done.
  split; [exact Hd|]. pose proof (cbor_decoding_safe k_request_vote_request _ Hd) as [what E].
  exists what. by rewrite <- E.
Defined.
