(* ===== verification/FilePersistence.v ===== *)
(** The file-backed engine ([file_persistence_engine] of
    [file_persistence.hpp]): memory and the four files of its directory, the text
    formats, and what a restart reads back. *)

From Stdlib Require Import Ascii.
From stdpp Require Import sorting.
From S2P Require Import Prelude Types ConfigEntry Persistence Bytes Base64 JsonSerializer.

(** ** Decimal text: [std::to_string] and [std::stoull] *)

Definition digit (d : N) : byte := byte_of_N (48 + d).
Definition is_digit (c : byte) : bool := (48 <=? Byte.to_N c)%N && (Byte.to_N c <=? 57)%N.

(** The digits of [n] in front of [acc]; 20 digits are enough for 64 bits. *)
Fixpoint put_digits (fuel : nat) (n : N) (acc : bytes) : bytes :=
  match fuel with
  | O => acc
  | S fuel' =>
      let acc := digit (n mod 10) :: acc in
      if (n / 10 =? 0)%N then acc else put_digits fuel' (n / 10) acc
  end.
Definition to_string (n : N) : bytes := put_digits 20 n [].

Fixpoint read_digits (value : N) (text : bytes) : N :=
  match text with
  | c :: rest => if is_digit c then read_digits (value * 10 + (Byte.to_N c - 48)) rest else value
  | [] => value
  end.

Definition is_space (c : byte) : bool :=
  (Byte.to_N c =? 32)%N || ((9 <=? Byte.to_N c)%N && (Byte.to_N c <=? 13)%N).

Fixpoint skip_spaces (text : bytes) : bytes :=
  match text with
  | c :: rest => if is_space c then skip_spaces rest else text
  | [] => []
  end.

(** White space, an optional sign, digits up to the first other character; a
    negative number wraps. *)
Definition stoull (text : bytes) : outcome N :=
  let text := skip_spaces text in
  let '(negative, text) :=
    match text with
    | x2d :: rest => (true, rest)
    | x2b :: rest => (false, rest)
    | _ => (false, text)
    end in
  match text with
  | c :: _ =>
      if is_digit c then
        let n := read_digits 0 text in
        if (n <? u64_modulus)%N then Ret (if negative : bool then 0 ⊖ n else n)
        else Throw (out_of_range "stoull")
      else Throw (invalid_argument "stoull")
  | [] => Throw (invalid_argument "stoull")
  end.

Lemma digit_value d : (d < 10)%N → is_digit (digit d) = true ∧ (Byte.to_N (digit d) - 48 = d)%N.
Proof.
  intros H. unfold is_digit, digit. rewrite byte_of_N_to_N, N.mod_small by lia.
  split; [|lia]. apply andb_true_iff. split; apply N.leb_le; lia.
Qed.

Lemma read_put_digits fuel n acc :
  (n < 10 ^ N.of_nat fuel)%N → read_digits 0 (put_digits fuel n acc) = read_digits n acc.
Proof.
  revert n acc. induction fuel as [|fuel IH]; intros n acc Hn.
  { simpl in *. by replace n with 0%N by lia. }
  cbn [put_digits]. destruct (digit_value (n mod 10)) as [Hd Hv]; [apply N.mod_lt; lia|].
  pose proof (N.div_mod' n 10) as Hdm.
  destruct (N.eqb_spec (n / 10) 0) as [E|E].
  - cbn [read_digits]. rewrite Hd, Hv. f_equal. lia.
  - rewrite IH.
    + cbn [read_digits]. rewrite Hd, Hv. f_equal. lia.
    + replace (N.of_nat (S fuel)) with (N.succ (N.of_nat fuel)) in Hn by lia.
      rewrite N.pow_succ_r' in Hn. apply N.Div0.div_lt_upper_bound. lia.
Qed.

Lemma put_digits_head fuel n acc :
  ∃ c l, put_digits (S fuel) n acc = c :: l ∧ is_digit c = true.
Proof.
  revert n acc. induction fuel as [|fuel IH]; intros n acc;
    cbn [put_digits]; destruct (digit_value (n mod 10)) as [Hd _]; try (apply N.mod_lt; lia).
  - destruct (n / 10 =? 0)%N; eauto.
  - destruct (n / 10 =? 0)%N; [eauto|]. apply IH.
Qed.

Lemma put_digits_digits fuel n acc :
  Forall (λ c, is_digit c = true) acc → Forall (λ c, is_digit c = true) (put_digits fuel n acc).
Proof.
  revert n acc. induction fuel as [|fuel IH]; intros n acc H; cbn [put_digits]; [done|].
  destruct (digit_value (n mod 10)) as [Hd _]; [apply N.mod_lt; lia|].
  destruct (n / 10 =? 0)%N; [by constructor|]. apply IH. by constructor.
Qed.

Lemma to_string_digits n c : c ∈ to_string n → is_digit c = true.
Proof.
  intros H. by apply (proj1 (Forall_forall _ _) (put_digits_digits 20 n [] (Forall_nil_2 _))).
Qed.

Lemma to_string_nonempty n : to_string n ≠ [].
Proof. unfold to_string. by destruct (put_digits_head 19 n []) as (c & l & -> & _). Qed.

Lemma stoull_to_string n : is_u64 n → stoull (to_string n) = Ret n.
Proof.
  intros Hn. unfold stoull, to_string. destruct (put_digits_head 19 n []) as (c & l & E & Hc).
  assert (read_digits 0 (c :: l) = n) as Hr.
  { rewrite <- E, read_put_digits; [done|]. unfold is_u64, u64_modulus in Hn. simpl. lia. }
  rewrite E. assert (skip_spaces (c :: l) = c :: l) as ->.
  { cbn [skip_spaces]. destruct (is_space c) eqn:Hs; [|done]. exfalso. revert Hc Hs.
    unfold is_digit, is_space. destruct c; vm_compute; discriminate. }
  assert (match c :: l with
          | x2d :: rest => (true, rest) | x2b :: rest => (false, rest) | _ => (false, c :: l)
          end = (false, c :: l)) as ->.
  { revert Hc. clear. destruct c; vm_compute; done. }
  rewrite Hc, Hr. unfold is_u64 in Hn. apply N.ltb_lt in Hn. by rewrite Hn.
Qed.

(** ** Text formats *)

(** [as_int64] fields, read through [obj\[k\]]. *)
Definition file_bytes_to_base64 (data : bytes) : string :=
  String.string_of_list_ascii (file_base64.bytes_to_base64 data).
Definition file_base64_to_bytes (base64 : string) : bytes :=
  file_base64.base64_to_bytes (String.list_ascii_of_string base64).

Module file_persistence_engine.
Section engine.
Context {JL : JsonLib}.

Definition entry_to_json (e : log_entry) : bytes :=
  json_serialize (jobject
    [("term", juint64 (e_term e)); ("index", juint64 (e_index e));
     ("command", jstring (file_bytes_to_base64 (e_command e)));
     ("type", jint64 (entry_type_value (e_type e)))]).

Definition json_to_entry (text : bytes) : outcome log_entry :=
  let? v := json_parse text in
  let? obj := as_object v in
  let? term := get_u64 obj "term" in
  let? index := get_u64 obj "index" in
  let? command := get_string obj "command" in
  let? type :=
    (if json_contains obj "type"
     then let? z := as_int64 (json_at obj "type") in entry_type_of_value z
     else Ret normal) in
  Ret (mk_entry term index (file_base64_to_bytes command) type).

Definition snapshot_to_json (snap : snapshot) : bytes :=
  let cfg := snap_configuration snap in
  json_serialize (jobject
    ([("last_included_index", juint64 (last_included_index snap));
      ("last_included_term", juint64 (last_included_term snap));
      ("state", jstring (file_bytes_to_base64 (state_machine_state snap)));
      ("nodes", json_ids (_nodes cfg));
      ("is_joint_consensus", jbool (_is_joint_consensus cfg))] ++
     match _is_joint_consensus cfg, _old_nodes cfg with
     | true, Some old => [("old_nodes", json_ids old)]
     | _, _ => []
     end)).

Definition json_to_snapshot (text : bytes) : outcome snapshot :=
  let? v := json_parse text in
  let? obj := as_object v in
  let? index := get_u64 obj "last_included_index" in
  let? term := get_u64 obj "last_included_term" in
  let? state := get_string obj "state" in
  let? nodes_json := as_array (json_at obj "nodes") in
  let? nodes := ids_of_json nodes_json in
  let? joint :=
    (if json_contains obj "is_joint_consensus" then get_bool obj "is_joint_consensus" else Ret false) in
  let? old_nodes :=
    (if joint && json_contains obj "old_nodes" then
       let? old_json := as_array (json_at obj "old_nodes") in
       let? old := ids_of_json old_json in Ret (Some old)
     else Ret None) in
  Ret (mk_snapshot index term (mk_config nodes joint old_nodes []) (file_base64_to_bytes state)).

(** ** The directory *)

Inductive path : Type := term_path | voted_for_path | log_path | snapshot_path.
#[global] Instance path_eq_dec : EqDecision path.
Proof. solve_decision. Defined.

(** The content of each file, [None] when it does not exist. *)
Abbreviation files := (path → option bytes).
Definition no_files : files := λ _, None.
Definition write_file (p : path) (content : bytes) (fs : files) : files :=
  λ q, if decide (q = p) then Some content else fs q.

(** The members of the engine, its directory, and the environment: the failure
    points that are switched on, whether a file can be opened for writing, whether
    [rename] succeeds, and how many bytes of a write reach the file.  The code looks
    at neither the state of the stream after [write] and [flush] nor at the end of
    the stream's life, so a write that falls short is not reported. *)
Record engine : Type := mk_file_engine {
  _current_term : N;
  _voted_for : option N;
  _log : gmap N log_entry;
  _snapshot : option snapshot;
  disk : files;
  fiu_enabled : string → bool;
  can_open : path → bool;
  can_rename : path → bool;
  bytes_written : files → path → nat → nat
}.

#[global] Instance engine_eta : Eta engine := λ e,
  mk_file_engine (_current_term e) (_voted_for e) (_log e) (_snapshot e) (disk e) (fiu_enabled e)
    (can_open e) (can_rename e) (bytes_written e).
Definition set_current_term : N → engine → engine := ltac:(setter _current_term).
Definition set_voted_for : option N → engine → engine := ltac:(setter _voted_for).
Definition set_log : gmap N log_entry → engine → engine := ltac:(setter _log).
Definition set_snapshot : option snapshot → engine → engine := ltac:(setter _snapshot).
Definition set_disk : files → engine → engine := ltac:(setter disk).

Definition fiu_do_on (name what : string) : M engine () := λ e,
  if fiu_enabled e name then (Throw (runtime_error what), e) else (Ret tt, e).

(** What reaches the file [p] of the content that is written to it. *)
Definition stored (p : path) (content : bytes) (e : engine) : bytes :=
  take (bytes_written e (disk e) p (length content)) content.

(** The temporary file is invisible to readers; the rename makes its content the
    content of [path]. *)
Definition atomic_write (p : path) (content : bytes) : M engine () := λ e,
  if negb (can_open e p) then (Throw (runtime_error "file_persistence: cannot write"), e)
  else if negb (can_rename e p) then (Throw (runtime_error "filesystem_error: rename"), e)
  else (Ret tt, set_disk (write_file p (stored p content e) (disk e)) e).

(** [std::ios::app] *)
Definition append_to_log (content : bytes) : M engine () := λ e,
  if negb (can_open e log_path)
  then (Throw (runtime_error "file_persistence: cannot open log for append"), e)
  else (Ret tt, set_disk (write_file log_path (default [] (disk e log_path) ++ stored log_path content e) (disk e)) e).

(** ** Operations *)

Definition save_current_term (term : N) : M engine () :=
  do! fiu_do_on "raft/persistence/save_current_term" "chaos: save_current_term" in
  do! atomic_write term_path (to_string term) in
  mmodify (set_current_term term).
Definition load_current_term (e : engine) : N := _current_term e.

Definition save_voted_for (node : N) : M engine () :=
  do! fiu_do_on "raft/persistence/save_voted_for" "chaos: save_voted_for" in
  do! atomic_write voted_for_path (to_string node) in
  mmodify (set_voted_for (Some node)).
Definition load_voted_for (e : engine) : option N := _voted_for e.

Definition line_of (entry : log_entry) : bytes := entry_to_json entry ++ [x0a].

Definition append_log_entry (entry : log_entry) : M engine () :=
  do! fiu_do_on "raft/persistence/append_log_entry" "chaos: append_log_entry" in
  do! mmodify (λ e, set_log (<[e_index entry := entry]> (_log e)) e) in
  append_to_log (line_of entry).

Definition get_log_entry (index : N) (e : engine) : option log_entry := _log e !! index.
Definition get_log_entries (start stop : N) (e : engine) : list log_entry :=
  omap (λ i, _log e !! i) (nrange start stop).
Definition get_last_log_index (e : engine) : N :=
  map_fold (λ idx _ max, if (max <? idx)%N then idx else max) 0%N (_log e).

(** The entries of the log in index order. *)
Definition sorted_entries (log : gmap N log_entry) : list log_entry :=
  omap (λ idx, log !! idx) (merge_sort N.le (map_to_list log).*1).

Definition rewrite_log_file : M engine () := λ e,
  atomic_write log_path (concat (line_of <$> sorted_entries (_log e))) e.

Definition truncate_log (index : N) : M engine () :=
  do! fiu_do_on "raft/persistence/truncate_log" "chaos: truncate_log" in
  do! mmodify (λ e, set_log (filter (λ kv, ¬ (index <= kv.1)%N) (_log e)) e) in
  rewrite_log_file.

Definition delete_log_entries_before (index : N) : M engine () :=
  do! mmodify (λ e, set_log (filter (λ kv, ¬ (kv.1 < index)%N) (_log e)) e) in
  rewrite_log_file.

Definition save_snapshot (snap : snapshot) : M engine () :=
  do! fiu_do_on "raft/persistence/save_snapshot" "chaos: save_snapshot" in
  do! atomic_write snapshot_path (snapshot_to_json snap) in
  mmodify (set_snapshot (Some snap)).
Definition load_snapshot (e : engine) : option snapshot := _snapshot e.

(** ** Opening a directory *)

(** [std::getline] until the end of the text: the lines, and the text after the
    last line break if it is not empty. *)
Fixpoint lines_from (line text : bytes) : list bytes :=
  match text with
  | [] => match line with [] => [] | _ => [line] end
  | x0a :: rest => line :: lines_from [] rest
  | c :: rest => lines_from (line ++ [c]) rest
  end.
Definition lines : bytes → list bytes := lines_from [].

(** [try { ... } catch (...) {}]: what throws is ignored. *)
Definition or_ignore {A} (keep : A) (o : outcome A) : outcome A :=
  match o with Ret a => Ret a | Throw _ => Ret keep | Undef w => Undef w end.

Fixpoint load_log (ls : list bytes) (log : gmap N log_entry) : outcome (gmap N log_entry) :=
  match ls with
  | [] => Ret log
  | [] :: ls => load_log ls log
  | line :: ls =>
      let? log := or_ignore log (let? e := json_to_entry line in Ret (<[e_index e := e]> log)) in
      load_log ls log
  end.

Definition load_voted_for_file (fs : files) : outcome (option N) :=
  match fs voted_for_path with
  | Some text =>
      if bool_decide (text = [x6e; x6f; x6e; x65] ∨ text = []) then Ret None
      else or_ignore None (let? n := stoull text in Ret (Some n))
  | None => Ret None
  end.

(** The constructor: [load_all] over the files of the directory. *)
Definition load_all (fs : files) (fiu : string → bool) (openable renamable : path → bool)
    (reach : files → path → nat → nat) : outcome engine :=
  let? term :=
    match fs term_path with
    | Some text => or_ignore 0%N (stoull text)
    | None => Ret 0%N
    end in
  let? voted_for := load_voted_for_file fs in
  let? log :=
    match fs log_path with
    | Some text => load_log (lines text) ∅
    | None => Ret ∅
    end in
  let? snap :=
    match fs snapshot_path with
    | Some [] | None => Ret None
    | Some text => or_ignore None (let? s := json_to_snapshot text in Ret (Some s))
    end in
  Ret (mk_file_engine term voted_for log snap fs fiu openable renamable reach).

(** ** The engine meets the contract of the persistence concept *)

#[export] Instance file_engine : PersistenceEngine engine := {|
  Persistence.save_current_term := save_current_term;
  Persistence.load_current_term := load_current_term;
  Persistence.save_voted_for := save_voted_for;
  Persistence.load_voted_for := load_voted_for;
  Persistence.append_log_entry := append_log_entry;
  Persistence.get_log_entry := get_log_entry;
  Persistence.get_log_entries := get_log_entries;
  Persistence.get_last_log_index := get_last_log_index;
  Persistence.truncate_log := truncate_log;
  Persistence.save_snapshot := save_snapshot;
  Persistence.load_snapshot := load_snapshot;
  Persistence.delete_log_entries_before := delete_log_entries_before
|}.

Definition to_store (e : engine) : store :=
  mk_store (_current_term e) (_voted_for e) (_log e) (_snapshot e).

(** What a write does when it returns. *)
Lemma fiu_returns name what e o e' :
  fiu_do_on name what e = (Ret o, e') → e' = e.
Proof. unfold fiu_do_on. case_match; by intros [=]. Qed.

Lemma atomic_write_returns p content e o e' :
  atomic_write p content e = (Ret o, e') → e' = set_disk (write_file p (stored p content e) (disk e)) e.
Proof. unfold atomic_write. repeat case_match; by intros [=]. Qed.

Lemma append_to_log_returns content e o e' :
  append_to_log content e = (Ret o, e') →
  e' = set_disk (write_file log_path (default [] (disk e log_path) ++ stored log_path content e) (disk e)) e.
Proof. unfold append_to_log. case_match; by intros [=]. Qed.

(** Runs through the steps of an operation that returned. *)
Ltac returned H :=
  repeat match type of H with
  | mlet ?m _ ?e = (Ret _, _) =>
      unfold mlet at 1 in H; destruct (m e) as [[?|?|?] ?] eqn:?; [|discriminate H..];
      try match goal with
      | E : fiu_do_on _ _ _ = _ |- _ => apply fiu_returns in E; subst
      | E : atomic_write _ _ _ = _ |- _ => apply atomic_write_returns in E; subst
      | E : mmodify _ _ = _ |- _ => injection E as <- <-
      end
  end;
  try match type of H with
  | mmodify _ _ = _ => injection H as <-
  | append_to_log _ _ = _ => apply append_to_log_returns in H
  | rewrite_log_file _ = _ => unfold rewrite_log_file in H; apply atomic_write_returns in H
  end; subst; cbn [_current_term _voted_for _log _snapshot disk].

Definition written (p : path) (content : bytes) (e : engine) : engine :=
  set_disk (write_file p (stored p content e) (disk e)) e.

Lemma save_current_term_returns t e e' :
  save_current_term t e = (Ret tt, e') → e' = set_current_term t (written term_path (to_string t) e).
Proof. unfold save_current_term. intros H. returned H. done. Qed.

Lemma save_voted_for_returns n e e' :
  save_voted_for n e = (Ret tt, e') → e' = set_voted_for (Some n) (written voted_for_path (to_string n) e).
Proof. unfold save_voted_for. intros H. returned H. done. Qed.

Lemma append_log_entry_returns x e e' :
  append_log_entry x e = (Ret tt, e') →
  e' = set_log (<[e_index x := x]> (_log e))
         (set_disk (write_file log_path (default [] (disk e log_path) ++ stored log_path (line_of x) e) (disk e)) e).
Proof. unfold append_log_entry. intros H. returned H. done. Qed.

Definition rewritten (log : gmap N log_entry) (e : engine) : engine :=
  set_log log (written log_path (concat (line_of <$> sorted_entries log)) e).

Lemma truncate_log_returns i e e' :
  truncate_log i e = (Ret tt, e') → e' = rewritten (filter (λ kv, ¬ (i <= kv.1)%N) (_log e)) e.
Proof. unfold truncate_log. intros H. returned H. done. Qed.

Lemma delete_log_entries_before_returns i e e' :
  delete_log_entries_before i e = (Ret tt, e') →
  e' = rewritten (filter (λ kv, ¬ (kv.1 < i)%N) (_log e)) e.
Proof. unfold delete_log_entries_before. intros H. returned H. done. Qed.

Lemma save_snapshot_returns s e e' :
  save_snapshot s e = (Ret tt, e') →
  e' = set_snapshot (Some s) (written snapshot_path (snapshot_to_json s) e).
Proof. unfold save_snapshot. intros H. returned H. done. Qed.

#[export] Instance file_engine_ok : PersistenceEngineOk engine.
Proof.
  refine {| abs := to_store |}; intros; simpl; try done.
  - by intros e e' ->%save_current_term_returns.
  - by intros e e' ->%save_voted_for_returns.
  - by intros e' e'' ->%append_log_entry_returns.
  - by apply (proj1 (memory_persistence_engine.last_index_spec (_log p))).
  - apply (proj2 (memory_persistence_engine.last_index_spec (_log p))).
  - intros e e' ->%truncate_log_returns. unfold to_store, store_truncate. simpl. f_equal.
    apply map_filter_ext. simpl. intros. lia.
  - by intros e e' ->%save_snapshot_returns.
  - intros e e' ->%delete_log_entries_before_returns. unfold to_store, store_delete_before. simpl.
    f_equal. apply map_filter_ext. simpl. intros. lia.
Defined.

(** Without faults every write returns. *)
Definition fault_free (e : engine) : Prop :=
  (∀ name, fiu_enabled e name = false) ∧ (∀ p, can_open e p = true) ∧ (∀ p, can_rename e p = true) ∧
  (∀ fs p n, n ≤ bytes_written e fs p n).

Lemma fault_free_fiu name what e : fault_free e → fiu_do_on name what e = (Ret tt, e).
Proof. intros (H & _). unfold fiu_do_on. by rewrite H. Qed.
Lemma fault_free_write p content e :
  fault_free e → atomic_write p content e = (Ret tt, written p content e).
Proof. intros (_ & H1 & H2 & _). unfold atomic_write. by rewrite H1, H2. Qed.

#[export] Instance file_engine_reliable : ReliableEngine engine.
Proof.
  refine {| reliable := fault_free |}. intros m e Hm He.
  destruct Hm; simpl;
    unfold save_current_term, save_voted_for, append_log_entry, truncate_log, save_snapshot,
      delete_log_entries_before, rewrite_log_file, mlet;
    rewrite ?(fault_free_fiu _ _ e He); cbn [mmodify];
    rewrite ?(fault_free_write _ _ e He), ?fault_free_write by exact He;
    try (eexists; split; [reflexivity|exact He]).
  unfold append_to_log. cbn [can_open]. destruct He as (H1 & H2 & H3 & H4).
  unfold set_log at 1. cbn [can_open]. rewrite H2. eexists. split; [reflexivity|]. by split_and!.
Defined.

(** ** Reading back what was written *)

Section reload.
Context {JLok : JsonLibOk} {JLlines : JsonLibLines}.

Lemma file_base64_inv data : file_base64_to_bytes (file_bytes_to_base64 data) = data.
Proof.
  unfold file_base64_to_bytes, file_bytes_to_base64.
  rewrite String.list_ascii_of_string_of_list_ascii. apply file_roundtrip.
Qed.

Lemma file_base64_string data : ascii_string (file_bytes_to_base64 data).
Proof.
  unfold ascii_string, file_bytes_to_base64.
  rewrite String.list_ascii_of_string_of_list_ascii. apply base64_ascii.
Qed.

Lemma file_json_to_entry_inv e : entry_ok e → json_to_entry (entry_to_json e) = Ret e.
Proof.
  intros [Ht Hi]. unfold json_to_entry, entry_to_json. rewrite json_parse_serialize.
  2:{ split; [by apply (bool_decide_eq_true_1 _)|].
      repeat split; first [by apply ascii_string_decide|by apply id_fits_u64
        |apply file_base64_string|by destruct (e_type e)]. }
  cbn [outcome_bind].
  match goal with |- context [json_normalize (jobject ?kv)] =>
    change (json_normalize (jobject kv)) with (jobject (norm_fields kv)) end.
  cbn [as_object outcome_bind]. do 2 (erewrite field_u64 by (reflexivity || assumption); cbn [outcome_bind]).
  erewrite field_string by reflexivity. cbn [outcome_bind].
  rewrite field_contains. unfold json_at. rewrite lookup_norm_fields.
  cbn -[entry_type_of_value entry_type_value file_base64_to_bytes file_bytes_to_base64].
  rewrite entry_type_roundtrip. cbn -[file_base64_to_bytes file_bytes_to_base64].
  rewrite file_base64_inv. by destruct e.
Qed.

(** What the snapshot file carries of a snapshot: no learners, and the old voters
    only in joint consensus. *)
Definition persisted_snapshot (s : snapshot) : snapshot :=
  let cfg := snap_configuration s in
  mk_snapshot (last_included_index s) (last_included_term s)
    (mk_config (_nodes cfg) (_is_joint_consensus cfg)
       (if _is_joint_consensus cfg then _old_nodes cfg else None) [])
    (state_machine_state s).

Definition snapshot_ok (s : snapshot) : Prop :=
  id_fits (last_included_index s) ∧ id_fits (last_included_term s) ∧
  Forall id_fits (_nodes (snap_configuration s)) ∧
  option_ok (Forall id_fits) (_old_nodes (snap_configuration s)).

Lemma json_to_snapshot_inv s :
  snapshot_ok s → json_to_snapshot (snapshot_to_json s) = Ret (persisted_snapshot s).
Proof.
  intros (Hi & Ht & Hn & Ho). unfold json_to_snapshot, snapshot_to_json. rewrite json_parse_serialize.
  2:{ destruct s as [i t [nodes [] [old|] learners] st]; simpl in *;
        (split; [by apply (bool_decide_eq_true_1 _)|]); repeat split;
        first [by apply ascii_string_decide|by apply id_fits_u64|apply file_base64_string
          |apply json_ids_wf; eapply Forall_impl; [eassumption|apply id_fits_u64]]. }
  cbn [outcome_bind].
  match goal with |- context [json_normalize (jobject ?kv)] =>
    change (json_normalize (jobject kv)) with (jobject (norm_fields kv)) end.
  cbn [as_object outcome_bind].
  do 2 (erewrite field_u64 by (reflexivity || assumption); cbn [outcome_bind]).
  erewrite field_string by reflexivity. cbn [outcome_bind].
  rewrite !field_contains. unfold json_at. rewrite !lookup_norm_fields.
  destruct s as [i t [nodes [] [old|] learners] st]; unfold option_ok in Ho;
    cbn -[ids_of_json file_base64_to_bytes file_bytes_to_base64 norm_fields] in *;
    rewrite ids_of_json_normalize by done; cbn -[ids_of_json file_base64_to_bytes file_bytes_to_base64];
    rewrite ?ids_of_json_normalize by done; cbn -[file_base64_to_bytes file_bytes_to_base64];
    by rewrite file_base64_inv.
Qed.

(** *** The log file *)

Definition replay (log : gmap N log_entry) (es : list log_entry) : gmap N log_entry :=
  foldl (λ m e, <[e_index e := e]> m) log es.

Lemma lines_from_break line l rest :
  x0a ∉ l → lines_from line (l ++ x0a :: rest) = (line ++ l) :: lines_from [] rest.
Proof.
  revert line. induction l as [|c l IH]; intros line Hl; cbn [app].
  - by rewrite app_nil_r.
  - apply not_elem_of_cons in Hl as [Hc Hl]. rewrite (app_assoc line [c] l : line ++ c :: l = _), <- IH by done.
    destruct c; done.
Qed.

Lemma lines_log es : lines (concat (line_of <$> es)) = entry_to_json <$> es.
Proof.
  induction es as [|e es IH]; [done|]. cbn [fmap list_fmap concat]. unfold line_of at 1.
  rewrite <- app_assoc. cbn [app]. unfold lines. rewrite lines_from_break by apply json_serialize_line.
  f_equal. exact IH.
Qed.

Lemma load_log_inv es log :
  Forall entry_ok es → load_log (entry_to_json <$> es) log = Ret (replay log es).
Proof.
  intros H. revert log. induction H as [|e es He _ IH]; intros log; [done|].
  cbn [fmap list_fmap load_log]. destruct (entry_to_json e) as [|c l] eqn:E.
  { by apply json_serialize_nonempty in E. }
  rewrite <- E, file_json_to_entry_inv by done. cbn [outcome_bind or_ignore]. apply IH.
Qed.

(** Logs keyed by the index of their entries, as every operation keeps them. *)
Definition keyed (log : gmap N log_entry) : Prop :=
  ∀ i e, log !! i = Some e → e_index e = i ∧ entry_ok e.

Lemma keyed_replay log es : keyed log → Forall entry_ok es → keyed (replay log es).
Proof.
  intros Hk H. revert log Hk. induction H as [|x es Hx _ IH]; intros log Hk; [done|]. apply IH.
  intros i e. destruct (decide (i = e_index x)) as [->|].
  - rewrite lookup_insert_eq. by intros [= <-].
  - rewrite lookup_insert_ne by done. apply Hk.
Qed.

Lemma replay_list_to_map es :
  NoDup (e_index <$> es) → replay ∅ es = list_to_map ((λ e, (e_index e, e)) <$> es).
Proof.
  induction es as [|e es IH] using rev_ind; [done|]. rewrite !fmap_app. intros Hd.
  unfold replay in *. rewrite foldl_app. simpl. rewrite list_to_map_snoc.
  - f_equal. apply IH. by apply NoDup_app in Hd as [? _].
  - rewrite <- list_fmap_compose. apply NoDup_app in Hd as (_ & Hd & _). intros Hin.
    apply (Hd _ Hin). by apply list_elem_of_here.
Qed.

Lemma omap_lookup_fst (log : gmap N log_entry) l :
  l ⊆ map_to_list log → omap (λ i, log !! i) l.*1 = l.*2.
Proof.
  induction l as [|[i e] l IH]; intros Hl; [done|]. cbn.
  assert (log !! i = Some e) as ->.
  { apply elem_of_map_to_list, Hl, list_elem_of_here. }
  rewrite IH; [done|]. intros x Hx. by apply Hl, list_elem_of_further.
Qed.

(** Sorting the entries loses none. *)
Lemma sorted_entries_perm log :
  keyed log → (λ e, (e_index e, e)) <$> sorted_entries log ≡ₚ map_to_list log.
Proof.
  intros Hk. unfold sorted_entries.
  assert (omap (λ idx, log !! idx) (merge_sort N.le (map_to_list log).*1) ≡ₚ (map_to_list log).*2) as ->.
  { rewrite <- (omap_lookup_fst log (map_to_list log)) by done. apply omap_Permutation, merge_sort_Permutation. }
  assert (∀ l, l ⊆ map_to_list log → (λ e, (e_index e, e)) <$> l.*2 = l) as H; [|by rewrite H].
  induction l as [|[i e] l IH]; intros Hl; [done|]. cbn.
  destruct (Hk i e) as [-> _]; [apply elem_of_map_to_list, Hl, list_elem_of_here|].
  f_equal. apply IH. intros x Hx. by apply Hl, list_elem_of_further.
Qed.

Lemma replay_sorted log : keyed log → replay ∅ (sorted_entries log) = log.
Proof.
  intros Hk. pose proof (sorted_entries_perm log Hk) as Hp.
  assert (NoDup (((λ e, (e_index e, e)) <$> sorted_entries log).*1)) as Hd.
  { rewrite Hp. apply NoDup_fst_map_to_list. }
  rewrite <- list_fmap_compose in Hd. rewrite replay_list_to_map by exact Hd.
  rewrite <- (list_to_map_to_list log) at 2. apply list_to_map_proper; [|done].
  by rewrite <- list_fmap_compose.
Qed.

Lemma sorted_entries_ok log : keyed log → Forall entry_ok (sorted_entries log).
Proof.
  intros Hk. apply Forall_forall. intros e He. unfold sorted_entries in He.
  apply list_elem_of_omap in He as (i & _ & Hi). by destruct (Hk i e Hi).
Qed.

(** *** The files agree with memory *)

Definition synced_term (e : engine) : Prop :=
  is_u64 (_current_term e) ∧
  (disk e term_path = None ∧ _current_term e = 0%N ∨
   disk e term_path = Some (to_string (_current_term e))).
Definition synced_vote (e : engine) : Prop :=
  match _voted_for e with
  | None => disk e voted_for_path = None
  | Some n => is_u64 n ∧ disk e voted_for_path = Some (to_string n)
  end.
Definition synced_log (e : engine) : Prop :=
  ∃ es, default [] (disk e log_path) = concat (line_of <$> es) ∧ Forall entry_ok es ∧
        _log e = replay ∅ es.
Definition synced_snapshot (e : engine) : Prop :=
  match _snapshot e with
  | None => disk e snapshot_path = None
  | Some s => snapshot_ok s ∧ disk e snapshot_path = Some (snapshot_to_json s)
  end.
Definition synced (e : engine) : Prop :=
  synced_term e ∧ synced_vote e ∧ synced_log e ∧ synced_snapshot e.

(** The whole of every write reaches its file. *)
Definition whole_writes (e : engine) : Prop := ∀ fs p n, n ≤ bytes_written e fs p n.

Lemma stored_whole p content e : whole_writes e → stored p content e = content.
Proof. intros H. apply take_ge, H. Qed.

(** What opening the directory of [e] gives. *)
Definition reopened (e : engine) : engine :=
  mk_file_engine (_current_term e) (_voted_for e) (_log e) (persisted_snapshot <$> _snapshot e)
    (disk e) (fiu_enabled e) (can_open e) (can_rename e) (bytes_written e).

Lemma to_string_not_none n : to_string n ≠ [x6e; x6f; x6e; x65] ∧ to_string n ≠ [].
Proof.
  unfold to_string. destruct (put_digits_head 19 n []) as (c & l & -> & Hc).
  split; [|done]. intros [= -> _]. done.
Qed.

Lemma load_all_synced e :
  synced e → load_all (disk e) (fiu_enabled e) (can_open e) (can_rename e) (bytes_written e) = Ret (reopened e).
Proof.
  intros ((Htu & Ht) & Hv & (es & Hl & Hes & Hlog) & Hs). unfold load_all, load_voted_for_file, reopened.
  assert (match disk e term_path with Some text => or_ignore 0%N (stoull text) | None => Ret 0%N end
          = Ret (_current_term e)) as ->.
  { destruct Ht as [[-> ->]| ->]; [done|]. by rewrite stoull_to_string. }
  cbn [outcome_bind].
  assert (load_voted_for_file (disk e) = Ret (_voted_for e)) as Hvote.
  { unfold load_voted_for_file, synced_vote in *. destruct (_voted_for e) as [n|]; [|by rewrite Hv].
    destruct Hv as [Hn ->]. destruct (to_string_not_none n). rewrite bool_decide_eq_false_2 by tauto.
    by rewrite stoull_to_string. }
  unfold load_voted_for_file in Hvote. rewrite Hvote. cbn [outcome_bind].
  assert (match disk e log_path with Some text => load_log (lines text) ∅ | None => Ret ∅ end
          = Ret (_log e)) as ->.
  { destruct (disk e log_path) as [text|]; simpl in Hl.
    - subst text. rewrite lines_log, load_log_inv by done. by rewrite Hlog.
    - destruct es as [|x es]; [by rewrite Hlog|]. exfalso. revert Hl. cbn.
      unfold line_of. rewrite <- app_assoc. by destruct (entry_to_json x). }
  cbn [outcome_bind]. unfold synced_snapshot in Hs. destruct (_snapshot e) as [s|]; [|by rewrite Hs].
  destruct Hs as [Hok ->]. destruct (snapshot_to_json s) as [|c l] eqn:E.
  { by apply json_serialize_nonempty in E. }
  rewrite <- E, json_to_snapshot_inv by done. done.
Qed.

(** *** Histories of writes *)

Inductive file_write : Type :=
  | fw_term (t : N) | fw_vote (n : N) | fw_append (e : log_entry)
  | fw_truncate (i : N) | fw_delete_before (i : N) | fw_snapshot (s : snapshot).

Definition perform (w : file_write) : M engine () :=
  match w with
  | fw_term t => save_current_term t
  | fw_vote n => save_voted_for n
  | fw_append e => append_log_entry e
  | fw_truncate i => truncate_log i
  | fw_delete_before i => delete_log_entries_before i
  | fw_snapshot s => save_snapshot s
  end.

(** The same write on the abstract store. *)
Definition store_write (st : store) (w : file_write) : store :=
  match w with
  | fw_term t => store_set_term t st
  | fw_vote n => store_set_vote n st
  | fw_append e => store_append e st
  | fw_truncate i => store_truncate i st
  | fw_delete_before i => store_delete_before i st
  | fw_snapshot s => store_set_snapshot s st
  end.

Definition write_ok (w : file_write) : Prop :=
  match w with
  | fw_term t => is_u64 t
  | fw_vote n => is_u64 n
  | fw_append e => entry_ok e
  | fw_snapshot s => snapshot_ok s
  | fw_truncate _ | fw_delete_before _ => True
  end.

Lemma synced_keyed e : synced_log e → keyed (_log e).
Proof.
  intros (es & _ & Hes & ->). apply keyed_replay; [|done]. intros i x Hx. by rewrite lookup_empty in Hx.
Qed.

Lemma synced_rewritten Q `{∀ x, Decision (Q x)} e :
  whole_writes e → synced_log e → synced_log (rewritten (filter Q (_log e)) e).
Proof.
  intros Hw Hk%synced_keyed. assert (keyed (filter Q (_log e))) as Hf.
  { intros i x [Hx _]%map_lookup_filter_Some. by apply Hk. }
  exists (sorted_entries (filter Q (_log e))). split; [cbn; by apply stored_whole|].
  split; [by apply sorted_entries_ok|]. by rewrite replay_sorted.
Qed.

Lemma perform_synced w e e' :
  write_ok w → whole_writes e → synced e → perform w e = (Ret tt, e') → synced e' ∧ whole_writes e'.
Proof.
  intros Hw Hwhole (Ht & Hv & Hl & Hs). destruct w; cbn [perform write_ok] in *.
  - intros ->%save_current_term_returns. split; [|done]. split; [|done]. split; [done|]. right. cbn. by rewrite stored_whole.
  - intros ->%save_voted_for_returns. split; [|done]. split; [done|]. split; [|done]. split; [done|]. cbn. by rewrite stored_whole.
  - intros ->%append_log_entry_returns. split; [|done]. do 2 (split; [done|]). split; [|done].
    destruct Hl as (es & Hd & Hes & Hlog). exists (es ++ [e0]). cbn. rewrite stored_whole, Hd, Hlog by done.
    rewrite fmap_app, concat_app. cbn. rewrite app_nil_r. split; [done|].
    split; [by apply Forall_app; split; [|constructor]|]. unfold replay. by rewrite foldl_app.
  - intros ->%truncate_log_returns. split; [|done]. do 2 (split; [done|]). split; [|done]. by apply synced_rewritten.
  - intros ->%delete_log_entries_before_returns. split; [|done]. do 2 (split; [done|]). split; [|done].
    by apply synced_rewritten.
  - intros ->%save_snapshot_returns. split; [|done]. do 3 (split; [done|]). split; [done|]. cbn. by rewrite stored_whole.
Qed.

Lemma perform_store w e e' :
  perform w e = (Ret tt, e') → to_store e' = store_write (to_store e) w.
Proof.
  destruct w as [t|n|x|i|i|s]; cbn [perform store_write]; intros H.
  - exact (save_current_term_ok t e e' H).
  - exact (save_voted_for_ok n e e' H).
  - exact (append_log_entry_ok x e e' H).
  - exact (truncate_log_ok i e e' H).
  - exact (delete_log_entries_before_ok i e e' H).
  - exact (save_snapshot_ok s e e' H).
Qed.

Lemma perform_all ws e e' :
  Forall write_ok ws → whole_writes e → synced e → mfor ws perform e = (Ret tt, e') →
  synced e' ∧ to_store e' = foldl store_write (to_store e) ws.
Proof.
  intros Hws. revert e. induction Hws as [|w ws Hw _ IH]; intros e Hwhole Hs; cbn [mfor foldl].
  - by intros [= <-].
  - unfold mlet. destruct (perform w e) as [[[]|?|?] e1] eqn:E; [|done..]. intros H.
    destruct (perform_synced w e e1 Hw Hwhole Hs E) as [Hs1 Hw1].
    destruct (IH e1) as [? ->]; [done|done|done|]. split; [done|].
    by rewrite (perform_store _ _ _ E).
Qed.

(** An engine on an empty directory. *)
Definition fresh (fiu : string → bool) (openable renamable : path → bool) (reach : files → path → nat → nat) :
    engine :=
  mk_file_engine 0 None ∅ None no_files fiu openable renamable reach.

(** What the files keep of a store. *)
Definition persisted_store (st : store) : store :=
  mk_store (st_term st) (st_voted_for st) (st_log st) (persisted_snapshot <$> st_snapshot st).

(** C11. A restart reads back what was written.  On a directory that was empty at first,
    and provided that the whole of every write reaches its file (the code does not
    look whether it does), after any sequence of writes that all returned opening
    the directory again succeeds and gives an engine whose term, vote and log are
    those of the abstract store after the same writes; terms and votes are of 64 bits
    and the numbers in entries and snapshots of 63.  Of the snapshot everything is
    restored but the learners, which the file does not contain, and the old voters
    of a configuration that is not joint. *)
Theorem reopen_restores_store fiu openable renamable reach ws e :
  Forall write_ok ws → (∀ fs p n, n ≤ reach fs p n) →
  mfor ws perform (fresh fiu openable renamable reach) = (Ret tt, e) →
  ∃ e', load_all (disk e) fiu openable renamable reach = Ret e' ∧
        to_store e' = persisted_store (foldl store_write store_empty ws).
Proof.
  intros Hws Hreach Hrun.
  destruct (perform_all ws (fresh fiu openable renamable reach) e Hws) as [Hs Hst]; [exact Hreach| |done|].
  { split; [split; [done|by left]|]. split; [done|]. split; [|done]. by exists []. }
  exists (mk_file_engine (_current_term e) (_voted_for e) (_log e) (persisted_snapshot <$> _snapshot e)
            (disk e) fiu openable renamable reach).
  split; [exact (load_all_synced (mk_file_engine (_current_term e) (_voted_for e) (_log e) (_snapshot e)
            (disk e) fiu openable renamable reach) Hs)|].
  change store_empty with (to_store (fresh fiu openable renamable reach)). by rewrite <- Hst.
Qed.

(** A write that does not reach the disk is not reported.  When the log file takes
    nothing of a line (the disk is full), appending the entry returns all the same,
    the engine has the entry, and after a restart it is gone. *)
Theorem unreported_write_is_lost x e :
  synced e → fiu_enabled e "raft/persistence/append_log_entry" = false → can_open e log_path = true →
  bytes_written e (disk e) log_path (length (line_of x)) = 0 →
  ∃ e', append_log_entry x e = (Ret tt, e') ∧ get_log_entry (e_index x) e' = Some x ∧
    load_all (disk e') (fiu_enabled e') (can_open e') (can_rename e') (bytes_written e') =
    Ret (set_disk (disk e') (reopened e)).
Proof.
  intros Hs Hf Ho Hn. eexists. split; [|split].
  - unfold append_log_entry, fiu_do_on, append_to_log, mlet. rewrite Hf. cbn [mmodify].
    change (can_open (set_log _ e)) with (can_open e). rewrite Ho. cbn [negb]. reflexivity.
  - cbn. apply lookup_insert_eq.
  - set (e1 := set_disk (write_file log_path (default [] (disk e log_path) ++ stored log_path (line_of x) e) (disk e)) e).
    assert (synced e1) as H1; [|exact (load_all_synced e1 H1)].
    destruct Hs as (Ht & Hv & (es & Hd & Hes) & Hsn). split; [exact Ht|]. split; [exact Hv|]. split; [|exact Hsn].
    exists es. split; [|exact Hes]. cbn. unfold stored. by rewrite Hn, take_0, app_nil_r.
Qed.
End reload.
End engine.
End file_persistence_engine.

Lemma unreported_write_is_lost_witness :
  ∃ e', @file_persistence_engine.append_log_entry CodeJson.code_json (mk_entry 3 1 [] no_op)
      (file_persistence_engine.fresh (λ _, false) (λ _, true) (λ _, true) (λ _ _ _, 0)) = (Ret tt, e') ∧
    file_persistence_engine.get_log_entry 1 e' = Some (mk_entry 3 1 [] no_op).
Proof.
  destruct (file_persistence_engine.unreported_write_is_lost (JLok := CodeJson.code_json_ok)
    (JLlines := CodeJson.code_json_lines) (mk_entry 3 1 [] no_op)
    (file_persistence_engine.fresh (λ _, false) (λ _, true) (λ _, true) (λ _ _ _, 0))) as (e' & E & Hm & _).
  - split; [split; [done|by left]|]. split; [done|]. split; [|done]. by exists [].
  - done.
  - done.
  - done.
  - by exists e'.
Defined.

Lemma reopen_restores_store_witness :
  let open := λ fs, @file_persistence_engine.load_all CodeJson.code_json fs (λ _, false) (λ _, true) (λ _, true) (λ _ _ n, n) in
  let writes :=
    [file_persistence_engine.fw_term 3; file_persistence_engine.fw_vote 2;
     file_persistence_engine.fw_append (mk_entry 3 1 [x0a; xff] normal);
     file_persistence_engine.fw_append (mk_entry 3 2 [] no_op);
     file_persistence_engine.fw_truncate 2] in
  let e := state_of (mfor writes (@file_persistence_engine.perform CodeJson.code_json))
             (file_persistence_engine.fresh (λ _, false) (λ _, true) (λ _, true) (λ _ _ n, n)) in
  ∃ e', open (file_persistence_engine.disk e) = Ret e' ∧
        file_persistence_engine._log e' = {[ 1%N := mk_entry 3 1 [x0a; xff] normal ]}.
Proof.
  intros open writes e.
  destruct (file_persistence_engine.reopen_restores_store (JLok := CodeJson.code_json_ok)
    (JLlines := CodeJson.code_json_lines) (λ _, false) (λ _, true) (λ _, true) (λ _ _ n, n) writes e)
    as (e' & Ho & Hs).
  - repeat constructor; vm_compute; discriminate.
  - done.
  - vm_compute. reflexivity.
  - exists e'. split; [exact Ho|]. exact (f_equal st_log Hs).
Defined.
