(* ===== verification/Machines.v ===== *)
(** The example state machines ([include/raft/examples/]): counter, versioned
    register, distributed lock and replicated log.  Strings are byte sequences. *)

From S2P Require Import Prelude Types Bytes Node FilePersistence.

(** ** Text *)

Definition str (s : string) : bytes := String.list_byte_of_string s.

(** [std::to_string] of a signed integer. *)
Definition to_string_signed (z : Z) : bytes :=
  if (z <? 0)%Z then x2d :: to_string (Z.to_N (- z)) else to_string (Z.to_N z).

(** [s.starts_with(prefix)] and what follows. *)
Fixpoint strip_prefix (prefix s : bytes) : option bytes :=
  match prefix, s with
  | [], _ => Some s
  | c :: prefix', d :: s' => if Byte.eqb c d then strip_prefix prefix' s' else None
  | _ :: _, [] => None
  end.

(** [split(s, delim)]: the pieces between delimiters, empty ones dropped. *)
Fixpoint split_from (delim : byte) (piece s : bytes) : list bytes :=
  match s with
  | [] => match piece with [] => [] | _ => [piece] end
  | c :: s' =>
      if Byte.eqb c delim then
        match piece with
        | [] => split_from delim [] s'
        | _ => piece :: split_from delim [] s'
        end
      else split_from delim (piece ++ [c]) s'
  end.
Definition split (delim : byte) (s : bytes) : list bytes := split_from delim [] s.

(** [s.find(delim)]: what precedes the first delimiter and what follows it. *)
Fixpoint find_delim (delim : byte) (s : bytes) : option (bytes * bytes) :=
  match s with
  | [] => None
  | c :: s' =>
      if Byte.eqb c delim then Some ([], s')
      else match find_delim delim s' with
           | Some (before, after) => Some (c :: before, after)
           | None => None
           end
  end.

(** ** Counter *)

Module counter_state_machine.
Definition int64_min : Z := (- 2 ^ 63)%Z.
Definition int64_max : Z := (2 ^ 63 - 1)%Z.

Record counter : Type := mk_counter { _value : Z }.

(** The new value; signed overflow is undefined. *)
Definition step (cmd : bytes) (value : Z) : outcome Z :=
  if bool_decide (cmd = str "INC") then
    if (value =? int64_max)%Z then Undef "signed overflow" else Ret (value + 1)%Z
  else if bool_decide (cmd = str "DEC") then
    if (value =? int64_min)%Z then Undef "signed overflow" else Ret (value - 1)%Z
  else if bool_decide (cmd = str "RESET") then Ret 0%Z
  else if bool_decide (cmd = str "GET") then Ret value
  else Throw (invalid_argument "Unknown command type").

Definition apply (command : bytes) (index : N) : M counter bytes :=
  let! s := mget in
  let! value := mlift (step command (_value s)) in
  do! mmodify (λ _, mk_counter value) in
  mreturn (to_string_signed value).

(** The object representation of an [int64_t]. *)
Definition get_state (s : counter) : bytes := le_bytes 8 (Z.to_N (_value s mod 2 ^ 64)).

Definition int64_of_N (n : N) : Z :=
  if (Z.of_N n <? 2 ^ 63)%Z then Z.of_N n else (Z.of_N n - 2 ^ 64)%Z.

Definition restore_from_snapshot (state : bytes) (last_index : N) : M counter () :=
  if (8 <=? length state)%nat
  then mmodify (λ _, mk_counter (int64_of_N (le_value (take 8 state))))
  else mreturn tt.

#[export] Instance machine : StateMachine counter := {|
  sm_apply := apply;
  sm_get_state := λ s, Ret (get_state s);
  sm_restore_from_snapshot := restore_from_snapshot
|}.
End counter_state_machine.

(** ** Register *)

Module register_state_machine.
Record register : Type := mk_register { _value : bytes; _version : N }.

Definition apply (command : bytes) (index : N) : M register bytes :=
  match strip_prefix (str "WRITE ") command with
  | Some value =>
      do! mmodify (λ s, mk_register value (_version s ⊕ 1)) in mreturn (str "OK")
  | None =>
      if bool_decide (command = str "READ") then λ s, (Ret (_value s), s)
      else
        match strip_prefix (str "CAS ") command with
        | Some args =>
            let! s := mget in
            match split x20 args with
            | [expected; new_value] =>
                if bool_decide (_value s = expected) then
                  do! mmodify (λ s, mk_register new_value (_version s ⊕ 1)) in mreturn (str "OK")
                else mreturn (str "FAILED")
            | _ => mreturn (str "FAILED")
            end
        | None => mthrow (invalid_argument "Unknown command type")
        end
  end.

Definition get_state (s : register) : bytes := to_string (_version s) ++ [x3a] ++ _value s.

Definition restore_from_snapshot (state : bytes) (last_index : N) : M register () :=
  match find_delim x3a state with
  | Some (before, after) =>
      let! version := mlift (stoull before) in
      mmodify (λ _, mk_register after version)
  | None => mreturn tt
  end.

#[export] Instance machine : StateMachine register := {|
  sm_apply := apply;
  sm_get_state := λ s, Ret (get_state s);
  sm_restore_from_snapshot := restore_from_snapshot
|}.
End register_state_machine.

(** ** Distributed lock *)

Module distributed_lock_state_machine.
Record lock_info : Type := mk_lock { owner : bytes; expiry_index : N }.
Record locks : Type := mk_locks { _locks : gmap bytes lock_info }.

(** [_locks\[lock_id\]] creates an unowned lock when there is none. *)
Definition acquire (lock_id new_owner : bytes) (timeout_entries index : N) : M locks bytes :=
  let! s := mget in
  let lock := default (mk_lock [] 0) (_locks s !! lock_id) in
  if bool_decide (owner lock = []) || (expiry_index lock <=? index)%N then
    do! mmodify (λ s, mk_locks (<[lock_id := mk_lock new_owner (index ⊕ timeout_entries)]> (_locks s))) in
    mreturn (str "OK")
  else
    do! mmodify (λ s, mk_locks (<[lock_id := lock]> (_locks s))) in
    mreturn (str "LOCKED").

Definition release (lock_id by_owner : bytes) : M locks bytes :=
  let! s := mget in
  match _locks s !! lock_id with
  | Some lock =>
      if bool_decide (owner lock = by_owner)
      then do! mmodify (λ s, mk_locks (delete lock_id (_locks s))) in mreturn (str "OK")
      else mreturn (str "NOT_OWNER")
  | None => mreturn (str "NOT_OWNER")
  end.

Definition query (lock_id : bytes) (index : N) : M locks bytes :=
  let! s := mget in
  match _locks s !! lock_id with
  | None => mreturn (str "FREE")
  | Some lock =>
      if (expiry_index lock <=? index)%N
      then do! mmodify (λ s, mk_locks (delete lock_id (_locks s))) in mreturn (str "FREE")
      else mreturn (str "LOCKED:" ++ owner lock)
  end.

Definition apply (command : bytes) (index : N) : M locks bytes :=
  match strip_prefix (str "ACQUIRE ") command with
  | Some args =>
      match split x20 args with
      | [lock_id; new_owner; timeout] =>
          let! timeout_entries := mlift (stoull timeout) in
          acquire lock_id new_owner timeout_entries index
      | _ => mthrow (invalid_argument "ACQUIRE requires lock_id, owner, timeout_entries")
      end
  | None =>
      match strip_prefix (str "RELEASE ") command with
      | Some args =>
          match split x20 args with
          | [lock_id; by_owner] => release lock_id by_owner
          | _ => mthrow (invalid_argument "RELEASE requires lock_id, owner")
          end
      | None =>
          match strip_prefix (str "QUERY ") command with
          | Some lock_id => query lock_id index
          | None => mthrow (invalid_argument "Unknown command")
          end
      end
  end.

Definition lock_text (kv : bytes * lock_info) : bytes :=
  kv.1 ++ [x3a] ++ owner kv.2 ++ [x3a] ++ to_string (expiry_index kv.2) ++ [x3b].

Definition get_state (s : locks) : bytes := concat (lock_text <$> map_to_list (_locks s)).

(** One entry of the snapshot; entries without exactly three parts are skipped. *)
Definition restore_entry (entry : bytes) : M locks () :=
  match split x3a entry with
  | [lock_id; lock_owner; expiry] =>
      let! expiry_index := mlift (stoull expiry) in
      mmodify (λ s, mk_locks (<[lock_id := mk_lock lock_owner expiry_index]> (_locks s)))
  | _ => mreturn tt
  end.

Definition restore_from_snapshot (state : bytes) (last_index : N) : M locks () :=
  do! mmodify (λ _, mk_locks ∅) in
  mfor (split x3b state) restore_entry.

#[export] Instance machine : StateMachine locks := {|
  sm_apply := apply;
  sm_get_state := λ s, Ret (get_state s);
  sm_restore_from_snapshot := restore_from_snapshot
|}.
End distributed_lock_state_machine.

(** ** Replicated log *)

Module replicated_log_state_machine.
Record entry : Type := mk_log_record { entry_index : N; entry_data : bytes }.
Record replicated_log : Type := mk_replicated_log { _entries : list entry }.

Definition apply (command : bytes) (index : N) : M replicated_log bytes :=
  match strip_prefix (str "APPEND ") command with
  | None => mthrow (invalid_argument "Invalid command format")
  | Some data =>
      do! mmodify (λ s, mk_replicated_log (_entries s ++ [mk_log_record index data])) in mreturn []
  end.

Definition entry_bytes (e : entry) : bytes :=
  le_bytes 8 (entry_index e) ++ le_bytes 8 (N.of_nat (length (entry_data e))) ++ entry_data e.

Definition get_state (s : replicated_log) : bytes := _entries s ≫= entry_bytes.

(** The loop over the state, from [offset] on; every round consumes at least 16
    bytes.  A size that makes [offset + size] wrap around passes the bounds check
    and names a range outside the vector. *)
Fixpoint restore_entries (fuel : nat) (state : bytes) (offset : N) (acc : list entry) :
    outcome (list entry) :=
  match fuel with
  | O => Ret acc
  | S fuel' =>
      if (offset ⊕ 16 <=? N.of_nat (length state))%N then
        let index := le_value (take 8 (drop (N.to_nat offset) state)) in
        let size := le_value (take 8 (drop (N.to_nat offset + 8) state)) in
        let offset := offset ⊕ 16 in
        if (N.of_nat (length state) <? offset ⊕ size)%N then Ret acc
        else if (N.of_nat (length state) <? offset + size)%N then Undef "iterator out of range"
        else
          let data := take (N.to_nat size) (drop (N.to_nat offset) state) in
          restore_entries fuel' state (offset ⊕ size) (acc ++ [mk_log_record index data])
      else Ret acc
  end.

Definition restore_from_snapshot (state : bytes) (last_index : N) : M replicated_log () :=
  do! mmodify (λ _, mk_replicated_log []) in
  let! entries := mlift (restore_entries (length state) state 0 []) in
  mmodify (λ _, mk_replicated_log entries).

#[export] Instance machine : StateMachine replicated_log := {|
  sm_apply := apply;
  sm_get_state := λ s, Ret (get_state s);
  sm_restore_from_snapshot := restore_from_snapshot
|}.
End replicated_log_state_machine.
