(* ===== verification/KvStateMachine.v ===== *)
(** The key-value state machine ([include/raft/test_state_machine.hpp]).
    Strings are byte sequences; lengths are 32-bit, the entry count 64-bit. *)

From S2P Require Import Prelude Types Bytes Node.

Record kv : Type := mk_kv {
  _store : gmap bytes bytes;
  _last_applied_index : N;
  kv_fiu_apply : bool
}.

Definition kv_initial : kv := mk_kv ∅ 0 false.
Definition set_store (m : gmap bytes bytes) (s : kv) : kv :=
  mk_kv m (_last_applied_index s) (kv_fiu_apply s).
Definition set_last_applied_index (i : N) (s : kv) : kv := mk_kv (_store s) i (kv_fiu_apply s).

Inductive command_type : Type := cmd_get | cmd_put | cmd_del.

(** [static_cast<command_type>]; other bytes are unknown commands. *)
Definition command_type_of (b : byte) : option command_type :=
  match Byte.to_N b with
  | 0%N => Some cmd_get
  | 1%N => Some cmd_put
  | 2%N => Some cmd_del
  | _ => None
  end.
Definition command_code (c : command_type) : byte :=
  match c with cmd_get => x00 | cmd_put => x01 | cmd_del => x02 end.

(** Parsing: the command's type, its key, and what follows. *)
Definition parse_key (command : bytes) : outcome (bytes * bytes) :=
  let? (key_length, rest) :=
    read_le 4 (invalid_argument "Invalid command format: missing key length") command in
  read_bytes key_length
    (invalid_argument "Invalid command format: key length exceeds command size") rest.

Definition parse_value (rest : bytes) : outcome bytes :=
  let? (value_length, rest') :=
    read_le 4 (invalid_argument "Invalid PUT command: missing value length") rest in
  let? (value, _) :=
    read_bytes value_length
      (invalid_argument "Invalid PUT command: value length exceeds command size") rest' in
  Ret value.

Definition execute (cmd : option command_type) (key rest : bytes) : M kv bytes :=
  match cmd with
  | Some cmd_put =>
      let! value := mlift (parse_value rest) in
      do! mmodify (λ s, set_store (<[key := value]> (_store s)) s) in mreturn []
  | Some cmd_get => λ s, (Ret (default [] (_store s !! key)), s)
  | Some cmd_del => do! mmodify (λ s, set_store (delete key (_store s)) s) in mreturn []
  | None => mthrow (invalid_argument "Unknown command type")
  end.

Definition apply (command : bytes) (index : N) : M kv bytes :=
  let! s := mget in
  if kv_fiu_apply s then mthrow (runtime_error "chaos: state_machine/apply") else
  match command with
  | [] => mthrow (invalid_argument "Empty command")
  | b :: args =>
      do! mmodify (set_last_applied_index index) in
      let! (key, rest) := mlift (parse_key args) in
      execute (command_type_of b) key rest
  end.

(** A length prefix and the bytes; [static_cast<uint32_t>] of the size. *)
Definition length_prefixed (l : bytes) : bytes := le_bytes 4 (N.of_nat (length l)) ++ l.

Definition encode_entry (kv : bytes * bytes) : bytes :=
  length_prefixed kv.1 ++ length_prefixed kv.2.

Definition get_state (s : kv) : bytes :=
  let entries := map_to_list (_store s) in
  le_bytes 8 (N.of_nat (length entries)) ++ (entries ≫= encode_entry).

Definition read_prefixed (missing exceeds : string) (rest : bytes) : outcome (bytes * bytes) :=
  let? (n, rest') := read_le 4 (invalid_argument missing) rest in
  read_bytes n (invalid_argument exceeds) rest'.

(** The loop over [num_entries]; each turn consumes at least eight bytes, so
    the number of bytes bounds the turns, and without bytes left the next turn
    throws. *)
Fixpoint restore_entries (fuel : nat) (num_entries : N) (rest : bytes) : M kv () :=
  if (num_entries =? 0)%N then mreturn tt else
  match fuel with
  | O => mthrow (invalid_argument "Invalid snapshot format: missing key length")
  | S fuel' =>
      let! (key, rest1) := mlift (read_prefixed "Invalid snapshot format: missing key length"
        "Invalid snapshot format: key length exceeds data size" rest) in
      let! (value, rest2) := mlift (read_prefixed "Invalid snapshot format: missing value length"
        "Invalid snapshot format: value length exceeds data size" rest1) in
      do! mmodify (λ s, set_store (<[key := value]> (_store s)) s) in
      restore_entries fuel' (num_entries - 1) rest2
  end.

Definition restore_from_snapshot (snapshot_data : bytes) (index : N) : M kv () :=
  do! mmodify (set_store ∅) in
  do! mmodify (set_last_applied_index index) in
  match snapshot_data with
  | [] => mreturn tt
  | _ =>
      let! (num_entries, rest) :=
        mlift (read_le 8 (invalid_argument "Invalid snapshot format: missing entry count") snapshot_data) in
      restore_entries (length rest) num_entries rest
  end.

(** Command builders. *)
Definition make_put_command (key value : bytes) : bytes :=
  command_code cmd_put :: length_prefixed key ++ length_prefixed value.
Definition make_get_command (key : bytes) : bytes := command_code cmd_get :: length_prefixed key.
Definition make_del_command (key : bytes) : bytes := command_code cmd_del :: length_prefixed key.

#[export] Instance kv_state_machine : StateMachine kv := {|
  sm_apply := apply;
  sm_get_state := λ s, Ret (get_state s);
  sm_restore_from_snapshot := restore_from_snapshot
|}.

(** ** Commands are executed as built *)

Definition fits (width : nat) (l : bytes) : Prop := (N.of_nat (length l) < 256 ^ N.of_nat width)%N.

Lemma parse_key_prefixed key rest :
  fits 4 key → parse_key (length_prefixed key ++ rest) = Ret (key, rest).
Proof.
  intros H. unfold parse_key, length_prefixed. rewrite <-app_assoc, read_le_app by exact H.
  apply read_bytes_app.
Qed.

Lemma parse_value_prefixed value :
  fits 4 value → parse_value (length_prefixed value) = Ret value.
Proof.
  intros H. unfold parse_value, length_prefixed. rewrite read_le_app by exact H. simpl.
  rewrite <-(app_nil_r value) at 2. by rewrite read_bytes_app.
Qed.

Lemma read_prefixed_app missing exceeds l rest :
  fits 4 l → read_prefixed missing exceeds (length_prefixed l ++ rest) = Ret (l, rest).
Proof.
  intros H. unfold read_prefixed, length_prefixed. rewrite <-app_assoc, read_le_app by exact H.
  apply read_bytes_app.
Qed.

Lemma apply_built cmd key rest index s :
  kv_fiu_apply s = false → fits 4 key →
  apply (command_code cmd :: length_prefixed key ++ rest) index s
  = execute (Some cmd) key rest (set_last_applied_index index s).
Proof.
  intros Hf Hk. unfold apply. rewrite let_get, Hf, let_modify, parse_key_prefixed by done.
  by destruct cmd.
Qed.

(** A command, whatever its bytes, is executed or refused with an exception. *)
Lemma read_bytes_defined n error rest w : read_bytes n error rest ≠ Undef w.
Proof. unfold read_bytes. by case_match. Qed.
Lemma read_le_defined width error rest w : read_le width error rest ≠ Undef w.
Proof.
  unfold read_le. destruct (read_bytes _ _ _) as [[]| |] eqn:E; [done|done|].
  by apply read_bytes_defined in E.
Qed.
Lemma parse_key_defined command w : parse_key command ≠ Undef w.
Proof.
  unfold parse_key. destruct (read_le _ _ _) as [[]| |] eqn:E; [apply read_bytes_defined|done|].
  by apply read_le_defined in E.
Qed.
Lemma parse_value_defined rest w : parse_value rest ≠ Undef w.
Proof.
  unfold parse_value. destruct (read_le _ _ _) as [[n l]| |] eqn:E; [|done|by apply read_le_defined in E].
  simpl. destruct (read_bytes _ _ _) as [[]| |] eqn:E'; [done|done|by apply read_bytes_defined in E'].
Qed.

Lemma apply_never_undef command index (sm : kv) w : (sm_apply command index sm).1 ≠ Undef w.
Proof.
  simpl. unfold apply. rewrite let_get. destruct (kv_fiu_apply sm); [done|].
  destruct command as [|b args]; [done|]. rewrite let_modify.
  unfold mlet at 1, mlift. destruct (parse_key args) as [[key rest]| |] eqn:E; simpl;
    [|done|by apply parse_key_defined in E].
  unfold execute. destruct (command_type_of b) as [[]|]; simpl; try done.
  unfold mlet, mlift. destruct (parse_value rest) eqn:E'; [done|done|by apply parse_value_defined in E'].
Qed.

(** ** Restoring a snapshot *)

Definition insert_entry (m : gmap bytes bytes) (e : bytes * bytes) : gmap bytes bytes :=
  <[e.1 := e.2]> m.

Lemma encode_entry_length e : 8 ≤ length (encode_entry e).
Proof. unfold encode_entry, length_prefixed. rewrite !length_app, !le_bytes_length. lia. Qed.

Lemma restore_entries_encoded entries fuel s :
  Forall (λ e, fits 4 e.1 ∧ fits 4 e.2) entries → length entries ≤ fuel →
  restore_entries fuel (N.of_nat (length entries)) (entries ≫= encode_entry) s
  = (Ret tt, set_store (foldl insert_entry (_store s) entries) s).
Proof.
  revert fuel s. induction entries as [|[k v] entries IH]; intros fuel s Hf Hl.
  { destruct s. by destruct fuel. }
  inversion_clear Hf as [|? ? [Hk Hv] Hf']. destruct fuel as [|fuel]; [simpl in Hl; lia|].
  unfold restore_entries; fold restore_entries.
  destruct (N.eqb_spec (N.of_nat (length ((k, v) :: entries))) 0) as [E|_]; [simpl in E; lia|].
  rewrite bind_cons. unfold encode_entry at 1. rewrite <-!app_assoc.
  rewrite read_prefixed_app by done. unfold mlet at 1, mlift at 1.
  rewrite read_prefixed_app by done. unfold mlet at 1, mlift at 1.
  rewrite let_modify.
  replace (N.of_nat (length ((k, v) :: entries)) - 1)%N with (N.of_nat (length entries)) by (simpl; lia).
  rewrite IH by (simpl in Hl; first [done | lia]). by destruct s.
Qed.

Lemma foldl_insert_map_to_list (m : gmap bytes bytes) :
  foldl insert_entry ∅ (map_to_list m) = m.
Proof. apply foldl_insert_map. Qed.

Lemma bind_encode_length entries : length entries ≤ length (entries ≫= encode_entry).
Proof.
  induction entries as [|e entries IH]; [done|]. rewrite bind_cons, length_app. simpl.
  pose proof (encode_entry_length e). lia.
Qed.

Lemma read_prefixed_shorter missing exceeds rest l rest' :
  read_prefixed missing exceeds rest = Ret (l, rest') → length rest' + 4 ≤ length rest.
Proof.
  unfold read_prefixed, read_le. destruct (read_bytes (N.of_nat 4) _ rest) as [[l0 r0]| |] eqn:E0; [|done|done].
  simpl. intros E1. apply read_bytes_shorter in E0, E1. lia.
Qed.

(** The number of turns is bounded by the bytes: more fuel changes nothing. *)
Lemma restore_entries_fuel fuel fuel' n rest s :
  length rest ≤ fuel → length rest ≤ fuel' →
  restore_entries fuel n rest s = restore_entries fuel' n rest s.
Proof.
  revert fuel' n rest s. induction fuel as [|fuel IH]; intros fuel' n rest s H1 H2.
  - destruct rest; [|simpl in H1; lia]. destruct fuel'; [done|]. simpl.
    by destruct (n =? 0)%N.
  - destruct fuel' as [|fuel'].
    { destruct rest; [|simpl in H2; lia]. simpl. by destruct (n =? 0)%N. }
    simpl. destruct (n =? 0)%N; [done|]. unfold mlet, mlift.
    destruct (read_prefixed _ _ rest) as [[k rest1]| |] eqn:E1; [|done|done].
    destruct (read_prefixed _ _ rest1) as [[v rest2]| |] eqn:E2; [|done|done].
    apply IH; cut (length rest2 < length rest); [lia| |lia|];
      apply read_prefixed_shorter in E1, E2; lia.
Qed.

Lemma restore_get_state (s s' : kv) (index : N) :
  (∀ k v, _store s !! k = Some v → fits 4 k ∧ fits 4 v) →
  (N.of_nat (size (_store s)) < 2 ^ 64)%N →
  restore_from_snapshot (get_state s) index s'
  = (Ret tt, mk_kv (_store s) index (kv_fiu_apply s')).
Proof.
  intros Hfit Hsize. unfold restore_from_snapshot, get_state. rewrite !let_modify.
  set (entries := map_to_list (_store s)).
  destruct (le_bytes 8 _ ++ _) as [|b rest] eqn:E.
  { apply (f_equal length) in E. rewrite length_app, le_bytes_length in E. simpl in E. lia. }
  rewrite <-E. rewrite read_le_app by (unfold entries; rewrite length_map_to_list; exact Hsize).
  rewrite let_lift, restore_entries_encoded.
  - unfold entries. cbn [_store set_last_applied_index set_store]. by rewrite foldl_insert_map_to_list.
  - apply Forall_forall. intros [k v] Hin. apply Hfit. by apply elem_of_map_to_list.
  - apply bind_encode_length.
Qed.

(** ** Results *)

(** A command built by [make_put_command], [make_get_command] or
    [make_del_command] is executed as what it was built for: a put stores the
    value under the key and answers nothing, a get answers the stored value
    (nothing when the key is absent) and leaves the store alone, a delete
    removes the key; each records the index.  The builders write 32-bit
    lengths, so key and value must be shorter than 2^32 bytes. *)
Theorem commands_execute_as_built (s : kv) (key value : bytes) (index : N) :
  kv_fiu_apply s = false → fits 4 key → fits 4 value →
  apply (make_put_command key value) index s
    = (Ret [], mk_kv (<[key := value]> (_store s)) index false)
  ∧ apply (make_get_command key) index s
    = (Ret (default [] (_store s !! key)), mk_kv (_store s) index false)
  ∧ apply (make_del_command key) index s
    = (Ret [], mk_kv (delete key (_store s)) index false).
Proof.
  intros Hf Hk Hv. unfold make_put_command, make_get_command, make_del_command.
  rewrite apply_built by done. rewrite <-(app_nil_r (length_prefixed key)).
  rewrite !apply_built by done. destruct s as [m i f]; simpl in Hf; subst f.
  unfold execute. by rewrite parse_value_prefixed.
Qed.

Lemma commands_execute_as_built_witness :
  apply (make_put_command [x61] [x62; x63]) 7 kv_initial
  = (Ret [], mk_kv {[ [x61] := [x62; x63] ]} 7 false).
Proof.
  refine (proj1 (commands_execute_as_built kv_initial [x61] [x62; x63] 7 eq_refl _ _));
    unfold fits; simpl; lia.
Defined.

(** Snapshots round trip: restoring what [get_state] produced, over any
    previous contents, succeeds and gives back exactly the store (and the
    snapshot's index), provided keys and values are shorter than 2^32 bytes and
    there are fewer than 2^64 entries, the widths of the format. *)
Theorem snapshot_roundtrip (s s' : kv) (index : N) :
  (∀ k v, _store s !! k = Some v → fits 4 k ∧ fits 4 v) →
  (N.of_nat (size (_store s)) < 2 ^ 64)%N →
  restore_from_snapshot (get_state s) index s'
  = (Ret tt, mk_kv (_store s) index (kv_fiu_apply s')).
Proof. apply restore_get_state. Qed.

Definition kv_example : kv := mk_kv (<[ [x61] := [x62] ]> {[ [] := [x63; x64] ]}) 3 false.

Lemma snapshot_roundtrip_witness :
  restore_from_snapshot (get_state kv_example) 9 kv_initial
  = (Ret tt, mk_kv (_store kv_example) 9 false).
Proof.
  apply (snapshot_roundtrip kv_example kv_initial 9); [|vm_compute; reflexivity].
  intros k v H. unfold kv_example, _store in H. apply lookup_insert_Some in H as [[<- <-]|[_ H]];
    [|apply lookup_singleton_Some in H as [<- <-]]; split; unfold fits; simpl; lia.
Defined.
