(* ===== verification/MachineProofs.v ===== *)
(** What the node relies on when it replaces a prefix of the log by a snapshot,
    as an interface of state machines, and the machines that meet it; mutual
    exclusion of the distributed lock. *)

From S2P Require Import Prelude Types Bytes Node KvStateMachine FilePersistence Machines.

(** ** Snapshots stand for the commands before them *)

(** [sm_obs]: the states a client cannot tell apart.  A machine whose state is
    [sm_good] restores, over any [sm_ready] state, to an indistinguishable one. *)
Class SnapshotLaws (S : Type) `{!StateMachine S} : Type := {
  sm_obs : relation S;
  sm_obs_equiv :: Equivalence sm_obs;
  sm_apply_obs c i : Proper (sm_obs ==> prod_relation eq sm_obs) (sm_apply c i);
  sm_good : S → Prop;
  sm_ready : S → S → Prop;
  sm_restore s s0 i :
    sm_good s → sm_ready s s0 →
    ∃ snap s1, sm_get_state s = Ret snap ∧
      sm_restore_from_snapshot snap i s0 = (Ret tt, s1) ∧ sm_obs s s1
}.

Section replay.
Context {S : Type} `{!StateMachine S}.

(** Applying commands in order, with the responses. *)
Fixpoint run_commands (cmds : list (bytes * N)) (s : S) : list (outcome bytes) * S :=
  match cmds with
  | [] => ([], s)
  | (c, i) :: cmds =>
      let '(r, s1) := sm_apply c i s in
      let '(rs, s2) := run_commands cmds s1 in (r :: rs, s2)
  end.

Lemma run_commands_app cmds1 cmds2 s :
  run_commands (cmds1 ++ cmds2) s =
  ((run_commands cmds1 s).1 ++ (run_commands cmds2 (run_commands cmds1 s).2).1,
   (run_commands cmds2 (run_commands cmds1 s).2).2).
Proof.
  revert s. induction cmds1 as [|[c i] cmds1 IH]; intros s; simpl.
  { by destruct (run_commands cmds2 s). }
  destruct (sm_apply c i s) as [r s1]. rewrite IH.
  destruct (run_commands cmds1 s1) as [rs s2]. simpl. by destruct (run_commands cmds2 s2).
Qed.

Context `{!SnapshotLaws S}.

Lemma run_commands_obs cmds s s' :
  sm_obs s s' →
  (run_commands cmds s).1 = (run_commands cmds s').1 ∧
  sm_obs (run_commands cmds s).2 (run_commands cmds s').2.
Proof.
  revert s s'. induction cmds as [|[c i] cmds IH]; intros s s' H; simpl; [done|].
  destruct (sm_apply_obs c i s s' H) as [E1 H1]. simpl in *.
  destruct (sm_apply c i s) as [r s1], (sm_apply c i s') as [r' s1']. simpl in *. subst r'.
  destruct (IH s1 s1' H1) as [E2 H2].
  destruct (run_commands cmds s1) as [rs s2], (run_commands cmds s1') as [rs' s2']. simpl in *.
  by subst.
Qed.

(** A replica that installs the snapshot another replica took after the commands
    [before], and then applies the commands [after], gives the same response to
    each of them and ends in an indistinguishable state. *)
Lemma snapshot_replay before after s s0 i :
  let taken := (run_commands before s).2 in
  sm_good taken → sm_ready taken s0 →
  ∃ snap s1, sm_get_state taken = Ret snap ∧
    sm_restore_from_snapshot snap i s0 = (Ret tt, s1) ∧
    (run_commands (before ++ after) s).1 = (run_commands before s).1 ++ (run_commands after s1).1 ∧
    sm_obs (run_commands (before ++ after) s).2 (run_commands after s1).2.
Proof.
  intros taken Hg Hr. destruct (sm_restore taken s0 i Hg Hr) as (snap & s1 & Hs & Hi & Ho).
  exists snap, s1. split; [done|]. split; [done|]. rewrite run_commands_app. simpl.
  destruct (run_commands_obs after taken s1 Ho) as [E H]. fold taken. by rewrite E.
Qed.
End replay.

(** Machines whose states are only equal to themselves. *)
Lemma apply_eq_proper {S} `{!StateMachine S} c i :
  Proper ((=) ==> prod_relation eq (=)) (sm_apply (SM := S) c i).
Proof. by intros s s' ->. Qed.

(** ** The key-value store *)

Definition kv_obs (s s' : kv) : Prop := _store s = _store s' ∧ kv_fiu_apply s = kv_fiu_apply s'.

#[export] Instance kv_laws : SnapshotLaws kv.
Proof.
  refine {| sm_obs := kv_obs;
            sm_good := λ s, (∀ k v, _store s !! k = Some v → fits 4 k ∧ fits 4 v) ∧
                            (N.of_nat (size (_store s)) < 2 ^ 64)%N;
            sm_ready := λ s s0, kv_fiu_apply s0 = kv_fiu_apply s |}.
  - split; [done|by intros s s' []|]. intros s1 s2 s3 [] []. split; congruence.
  - intros c i [m j f] [m' j' f'] [Em Ef]. simpl in Em, Ef. subst m' f'. simpl. unfold apply.
    rewrite !let_get. simpl. destruct f; [done|]. destruct c as [|b args]; [done|].
    rewrite !let_modify. destruct (parse_key args) as [[key rest]| |]; [|done..].
    unfold execute. destruct (command_type_of b) as [[]|]; done.
  - intros s s0 i [Hf Hn] Hr. eexists _, _. split; [reflexivity|].
    split; [exact (restore_get_state s s0 i Hf Hn)|]. split; [done|]. simpl. congruence.
Defined.

(** ** The counter *)

Section counter.
Import counter_state_machine.

Lemma int64_bytes v : (int64_min ≤ v ≤ int64_max)%Z → int64_of_N (Z.to_N (v mod 2 ^ 64)) = v.
Proof.
  unfold int64_min, int64_max, int64_of_N. intros Hv.
  pose proof (Z.mod_pos_bound v (2 ^ 64)) as Hb. rewrite Z2N.id by lia.
  destruct (Z.ltb_spec (v mod 2 ^ 64) (2 ^ 63)); Z.to_euclidean_division_equations; lia.
Qed.

#[export] Instance counter_laws : SnapshotLaws counter.
Proof.
  refine {| sm_obs := (=); sm_apply_obs := apply_eq_proper;
            sm_good := λ s, (int64_min ≤ _value s ≤ int64_max)%Z; sm_ready := λ _ _, True |}.
  intros [v] s0 i Hv _. simpl in Hv. exists (get_state (mk_counter v)), (mk_counter v).
  split; [done|]. split; [|done]. simpl. unfold restore_from_snapshot, get_state.
  rewrite le_bytes_length. cbn [Nat.leb]. unfold mmodify. do 2 f_equal.
  rewrite firstn_all2 by (by rewrite le_bytes_length). cbn [_value].
  rewrite le_value_bytes_small; [by apply int64_bytes|].
  pose proof (Z.mod_pos_bound v (2 ^ 64)). simpl. lia.
Defined.

(** The counter stays an [int64_t], whatever the commands. *)
Lemma counter_good c i s :
  (int64_min ≤ _value s ≤ int64_max)%Z → (int64_min ≤ _value (apply c i s).2 ≤ int64_max)%Z.
Proof.
  unfold int64_min, int64_max, apply, step. intros H. unfold mlet, mget, mlift, mmodify.
  repeat case_match; simplify_eq; simpl; try lia;
    repeat match goal with H : (_ =? _)%Z = false |- _ => apply Z.eqb_neq in H end;
    unfold int64_min, int64_max in *; lia.
Qed.
End counter.

(** ** The register *)

Lemma byte_eqb_same c : Byte.eqb c c = true.
Proof. by apply Byte.byte_dec_lb. Qed.
Lemma byte_eqb_ne c d : c ≠ d → Byte.eqb c d = false.
Proof. intros H. destruct (Byte.eqb c d) eqn:E; [|done]. by apply Byte.byte_dec_bl in E. Qed.

Lemma digits_avoid n delim : is_digit delim = false → delim ∉ to_string n.
Proof. intros H Hin. apply to_string_digits in Hin. congruence. Qed.

Section register.
Import register_state_machine.

Lemma find_delim_app delim before after :
  delim ∉ before → find_delim delim (before ++ delim :: after) = Some (before, after).
Proof.
  induction before as [|c before IH]; intros H; simpl; [by rewrite byte_eqb_same|].
  apply not_elem_of_cons in H as [Hc H]. rewrite byte_eqb_ne by done. by rewrite IH.
Qed.

#[export] Instance register_laws : SnapshotLaws register.
Proof.
  refine {| sm_obs := (=); sm_apply_obs := apply_eq_proper;
            sm_good := λ s, is_u64 (_version s); sm_ready := λ _ _, True |}.
  intros [v n] s0 i Hn _. simpl in Hn. exists (get_state (mk_register v n)), (mk_register v n).
  split; [done|]. split; [|done]. simpl. unfold restore_from_snapshot, get_state. simpl.
  rewrite find_delim_app by (by apply digits_avoid).
  by rewrite stoull_to_string.
Defined.

(** The version stays a [uint64_t]. *)
Lemma register_good c i s : is_u64 (_version s) → is_u64 (_version (apply c i s).2).
Proof.
  intros H. unfold apply. repeat case_match; try done; try apply u64_add_lt;
    unfold mlet, mget, mmodify, mreturn; repeat case_match; simplify_eq; simpl; try done; apply u64_add_lt.
Qed.
End register.

(** ** The lock table *)

Section locks.
Import distributed_lock_state_machine.

Lemma split_from_end delim piece l rest :
  delim ∉ l → piece ++ l ≠ [] →
  split_from delim piece (l ++ delim :: rest) = (piece ++ l) :: split_from delim [] rest.
Proof.
  revert piece. induction l as [|c l IH]; intros piece Hl Hne; simpl.
  - rewrite app_nil_r in *. rewrite byte_eqb_same. by destruct piece.
  - apply not_elem_of_cons in Hl as [Hc Hl]. rewrite byte_eqb_ne by done.
    rewrite IH; by rewrite <- ?app_assoc.
Qed.

Lemma split_from_last delim piece l :
  delim ∉ l → piece ++ l ≠ [] → split_from delim piece l = [piece ++ l].
Proof.
  revert piece. induction l as [|c l IH]; intros piece Hl Hne; simpl.
  - rewrite app_nil_r in *. by destruct piece.
  - apply not_elem_of_cons in Hl as [Hc Hl]. rewrite byte_eqb_ne by done.
    rewrite IH; by rewrite <- ?app_assoc.
Qed.

(** A word of the snapshot text. *)
Definition plain (l : bytes) : Prop := (l ≠ []) ∧ (x3a ∉ l) ∧ (x3b ∉ l).

Definition lock_good (kv : bytes * lock_info) : Prop :=
  plain kv.1 ∧ plain (owner kv.2) ∧ is_u64 (expiry_index kv.2).

(** The text of a lock without the final semicolon. *)
Definition lock_words (kv : bytes * lock_info) : bytes :=
  kv.1 ++ [x3a] ++ owner kv.2 ++ [x3a] ++ to_string (expiry_index kv.2).

Lemma restore_entry_words kv s :
  lock_good kv →
  restore_entry (lock_words kv) s = (Ret tt, mk_locks (<[kv.1 := kv.2]> (_locks s))).
Proof.
  destruct kv as [k [o x]]. intros ((Hk & Hkc & _) & (Ho & Hoc & _) & Hx). simpl in *.
  unfold restore_entry, lock_words, split. simpl.
  rewrite split_from_end by done. rewrite split_from_end by done.
  rewrite split_from_last; [|by apply digits_avoid|apply to_string_nonempty]. simpl.
  by rewrite stoull_to_string.
Qed.

Lemma split_locks kvs :
  Forall lock_good kvs → split x3b (concat (lock_text <$> kvs)) = lock_words <$> kvs.
Proof.
  induction 1 as [|[k [o x]] kvs ((Hk & Hkc & Hks) & (Ho & Hoc & Hos) & Hx) _ IH]; [done|].
  cbn [fmap list_fmap concat]. simpl in *.
  assert (lock_text (k, mk_lock o x) = lock_words (k, mk_lock o x) ++ [x3b]) as ->.
  { unfold lock_text, lock_words. simpl. by rewrite <- !app_assoc; simpl; rewrite <- !app_assoc. }
  unfold split in *. rewrite <- app_assoc. simpl. rewrite split_from_end.
  - by rewrite IH.
  - unfold lock_words. simpl. rewrite !elem_of_app, !elem_of_cons, !elem_of_app, !elem_of_cons.
    assert (x3b ∉ to_string x) by (by apply digits_avoid). naive_solver.
  - unfold lock_words. simpl. by destruct k.
Qed.

Lemma restore_entries_insert kvs s :
  Forall lock_good kvs →
  mfor (lock_words <$> kvs) restore_entry s =
  (Ret tt, mk_locks (foldl (λ m kv, <[kv.1 := kv.2]> m) (_locks s) kvs)).
Proof.
  intros H. revert s. induction H as [|kv kvs Hkv _ IH]; intros s; simpl; [by destruct s|].
  unfold mlet. rewrite restore_entry_words by done. by rewrite IH.
Qed.

#[export] Instance lock_laws : SnapshotLaws locks.
Proof.
  refine {| sm_obs := (=); sm_apply_obs := apply_eq_proper;
            sm_good := λ s, map_Forall (λ k x, lock_good (k, x)) (_locks s);
            sm_ready := λ _ _, True |}.
  intros [m] s0 i Hm _. simpl in Hm. exists (get_state (mk_locks m)), (mk_locks m).
  split; [done|]. split; [|done]. simpl. unfold restore_from_snapshot, get_state. simpl.
  assert (Forall lock_good (map_to_list m)) as Hall.
  { apply Forall_forall. intros [k x] Hin. apply elem_of_map_to_list in Hin. by apply Hm. }
  rewrite let_modify, split_locks, restore_entries_insert by done. simpl.
  by rewrite foldl_insert_map.
Defined.

(** *** Mutual exclusion *)

(** The command asks to release [lock_id] on behalf of [o]. *)
Definition releases (lock_id o command : bytes) : Prop :=
  ∃ args, strip_prefix (str "RELEASE ") command = Some args ∧ split x20 args = [lock_id; o].

Definition held (lock_id o : bytes) (x : N) (s : locks) : Prop :=
  _locks s !! lock_id = Some (mk_lock o x).

Lemma acquire_held lock_id o x who t i s :
  held lock_id o x s → o ≠ [] → (i < x)%N → acquire lock_id who t i s = (Ret (str "LOCKED"), s).
Proof.
  unfold held, acquire. intros H Ho Hi. rewrite let_get, H. cbn [from_option id owner expiry_index].
  rewrite bool_decide_eq_false_2 by done. destruct (N.leb_spec x i); [lia|]. cbn [orb].
  rewrite let_modify, insert_id by done. by destruct s.
Qed.

Lemma acquire_other k lock_id who t i s :
  k ≠ lock_id → _locks (acquire k who t i s).2 !! lock_id = _locks s !! lock_id.
Proof.
  intros Hk. unfold acquire. rewrite let_get. case_match; rewrite let_modify; simpl;
    by rewrite lookup_insert_ne.
Qed.

Lemma held_acquire lock_id o x k who t i s :
  held lock_id o x s → o ≠ [] → (i < x)%N → held lock_id o x (acquire k who t i s).2.
Proof.
  intros H Ho Hi. destruct (decide (k = lock_id)) as [->|Hk].
  - by rewrite (acquire_held lock_id o x).
  - unfold held. by rewrite acquire_other.
Qed.

Lemma held_release lock_id o x k who s :
  held lock_id o x s → (k, who) ≠ (lock_id, o) → held lock_id o x (release k who s).2.
Proof.
  unfold held, release. intros H Hne. rewrite let_get. destruct (_locks s !! k) as [l|] eqn:E; [|done].
  case_bool_decide as Ho; [|done]. rewrite let_modify. simpl.
  destruct (decide (k = lock_id)) as [->|]; [|by rewrite lookup_delete_ne].
  rewrite H in E. injection E as <-. simpl in Ho. congruence.
Qed.

Lemma held_query lock_id o x k i s :
  held lock_id o x s → (i < x)%N → held lock_id o x (query k i s).2.
Proof.
  unfold held, query. intros H Hi. rewrite let_get. destruct (_locks s !! k) as [l|] eqn:E; [|done].
  destruct (N.leb_spec (expiry_index l) i) as [Hle|]; [|done]. rewrite let_modify. simpl.
  destruct (decide (k = lock_id)) as [->|]; [|by rewrite lookup_delete_ne].
  rewrite H in E. injection E as <-. simpl in Hle. lia.
Qed.

Lemma held_apply lock_id o x c i s :
  held lock_id o x s → o ≠ [] → (i < x)%N → ¬ releases lock_id o c → held lock_id o x (apply c i s).2.
Proof.
  intros H Ho Hi Hr. unfold apply.
  destruct (strip_prefix (str "ACQUIRE ") c) as [args|].
  { destruct (split x20 args) as [|k [|w [|t [|? ?]]]]; try done.
    unfold mlet, mlift. destruct (stoull t); try done. by apply held_acquire. }
  destruct (strip_prefix (str "RELEASE ") c) as [args|] eqn:E.
  { destruct (split x20 args) as [|k [|w [|? ?]]] eqn:Es; try done. apply held_release; [done|].
    intros [= -> ->]. apply Hr. by exists args. }
  destruct (strip_prefix (str "QUERY ") c) as [k|]; [|done]. by apply held_query.
Qed.

Lemma held_run lock_id o x cmds s :
  held lock_id o x s → o ≠ [] → Forall (λ ci, (ci.2 < x)%N ∧ ¬ releases lock_id o ci.1) cmds →
  held lock_id o x (run_commands cmds s).2.
Proof.
  intros H Ho Hc. revert s H. induction Hc as [|[c i] cmds [Hi Hr] _ IH]; intros s H; simpl; [done|].
  pose proof (held_apply lock_id o x c i s H Ho Hi Hr) as H1.
  destruct (apply c i s) as [r s1]. simpl in *. specialize (IH s1 H1).
  by destruct (run_commands cmds s1).
Qed.

(** Mutual exclusion of the lock: once an acquisition for [timeout] entries is
    granted at [index], then through any further commands applied at indices
    below [index + timeout], none of which is the owner's release, the lock stays
    with its owner and its expiry, and every attempt to acquire it below that
    index is answered with LOCKED and changes nothing. *)
Theorem lock_exclusive_until_expiry lock_id o timeout index cmds s s1 :
  acquire lock_id o timeout index s = (Ret (str "OK"), s1) →
  o ≠ [] → is_u64 (index + timeout) →
  Forall (λ ci, (ci.2 < index + timeout)%N ∧ ¬ releases lock_id o ci.1) cmds →
  let s2 := (run_commands cmds s1).2 in
  _locks s2 !! lock_id = Some (mk_lock o (index + timeout)) ∧
  ∀ who t i, (i < index + timeout)%N → acquire lock_id who t i s2 = (Ret (str "LOCKED"), s2).
Proof.
  intros Ha Ho Hu Hc s2. assert (held lock_id o (index + timeout) s1) as H1.
  { revert Ha. unfold acquire. rewrite let_get. case_match; rewrite let_modify; [|done].
    intros [= <-]. unfold held. simpl. by rewrite lookup_insert_eq, u64_add_small. }
  pose proof (held_run lock_id o _ cmds s1 H1 Ho Hc) as H2.
  split; [exact H2|]. intros who t i Hi. by apply (acquire_held lock_id o (index + timeout)).
Qed.
End locks.

(** ** The replicated log *)

Section replicated_log.
Import replicated_log_state_machine.

Definition record_good (e : entry) : Prop := is_u64 (entry_index e).

Lemma take_drop_middle {A} (l1 l2 l3 : list A) n m :
  n = length l1 → m = length l2 → take m (drop n (l1 ++ l2 ++ l3)) = l2.
Proof. intros -> ->. by rewrite drop_app_length, take_app_length. Qed.

Lemma restore_entries_step fuel before i d rest acc :
  is_u64 i →
  is_u64 (N.of_nat (length (before ++ entry_bytes (mk_log_record i d) ++ rest)) + 16) →
  restore_entries (S fuel) (before ++ entry_bytes (mk_log_record i d) ++ rest) (N.of_nat (length before)) acc =
  restore_entries fuel (before ++ entry_bytes (mk_log_record i d) ++ rest)
    (N.of_nat (length (before ++ entry_bytes (mk_log_record i d)))) (acc ++ [mk_log_record i d]).
Proof.
  intros Hi Hu. set (state := before ++ entry_bytes (mk_log_record i d) ++ rest) in *.
  assert (state = before ++ le_bytes 8 i ++ (le_bytes 8 (N.of_nat (length d)) ++ d ++ rest)) as E1.
  { unfold state, entry_bytes. cbn [entry_index entry_data]. by rewrite <- !app_assoc. }
  assert (state = (before ++ le_bytes 8 i) ++ le_bytes 8 (N.of_nat (length d)) ++ (d ++ rest)) as E2
    by (rewrite E1; by rewrite <- !app_assoc).
  assert (state = (before ++ le_bytes 8 i ++ le_bytes 8 (N.of_nat (length d))) ++ d ++ rest) as E3
    by (rewrite E1; by rewrite <- !app_assoc).
  assert (length state = length before + 16 + length d + length rest) as El.
  { rewrite E1, !length_app, !le_bytes_length. lia. }
  assert (length (before ++ entry_bytes (mk_log_record i d)) = length before + 16 + length d) as Ee.
  { unfold entry_bytes. cbn [entry_index entry_data]. rewrite !length_app, !le_bytes_length. lia. }
  assert (le_value (take 8 (drop (N.to_nat (N.of_nat (length before))) state)) = i) as Ei.
  { rewrite E1, (take_drop_middle before) by (rewrite ?le_bytes_length; lia).
    apply le_value_bytes_small. exact Hi. }
  assert (le_value (take 8 (drop (N.to_nat (N.of_nat (length before)) + 8) state)) = N.of_nat (length d)) as Es.
  { rewrite E2, take_drop_middle by (rewrite ?length_app, ?le_bytes_length; lia).
    apply le_value_bytes_small. unfold is_u64, u64_modulus in Hu. simpl. lia. }
  assert (∀ k, k = length before + 16 → take (length d) (drop k state) = d) as Ed.
  { intros k ->. rewrite E3. apply take_drop_middle; rewrite ?length_app, ?le_bytes_length; lia. }
  cbn [restore_entries]. rewrite Ei, Es. unfold is_u64 in *.
  rewrite (u64_add_small _ 16) by lia. rewrite (u64_add_small _ (N.of_nat (length d))) by lia.
  destruct (N.leb_spec (N.of_nat (length before) + 16) (N.of_nat (length state))); [|lia].
  destruct (N.ltb_spec (N.of_nat (length state)) (N.of_nat (length before) + 16 + N.of_nat (length d)));
    [lia|].
  rewrite Nat2N.id, Ed by lia. f_equal. lia.
Qed.

Lemma restore_entries_inv es fuel before acc :
  Forall record_good es → length es ≤ fuel →
  is_u64 (N.of_nat (length (before ++ (es ≫= entry_bytes))) + 16) →
  restore_entries fuel (before ++ (es ≫= entry_bytes)) (N.of_nat (length before)) acc = Ret (acc ++ es).
Proof.
  intros Hes. revert fuel before acc. induction Hes as [|[i d] es Hi _ IH]; intros fuel before acc Hf Hu.
  - cbn [mbind list_bind] in *. rewrite app_nil_r in *. destruct fuel; simpl; [by rewrite app_nil_r|].
    rewrite u64_add_small by exact Hu.
    destruct (N.leb_spec (N.of_nat (length before) + 16) (N.of_nat (length before)));
      [lia|by rewrite app_nil_r].
  - destruct fuel as [|fuel]; [simpl in Hf; lia|]. rewrite bind_cons in *.
    rewrite restore_entries_step by done. rewrite app_assoc in *.
    rewrite IH; [by rewrite <- app_assoc|cbn [length] in Hf; lia|exact Hu].
Qed.

Lemma entries_length es : length es ≤ length (es ≫= entry_bytes).
Proof.
  induction es as [|e es IH]; [done|]. rewrite bind_cons, length_app. cbn [length].
  assert (16 ≤ length (entry_bytes e)) by (unfold entry_bytes; rewrite !length_app, !le_bytes_length; lia).
  lia.
Qed.

#[export] Instance replicated_log_laws : SnapshotLaws replicated_log.
Proof.
  refine {| sm_obs := (=); sm_apply_obs := apply_eq_proper;
            sm_good := λ s, Forall record_good (_entries s) ∧
                            is_u64 (N.of_nat (length (get_state s)) + 16);
            sm_ready := λ _ _, True |}.
  intros [es] s0 i [Hes Hu] _. simpl in Hes. exists (get_state (mk_replicated_log es)), (mk_replicated_log es).
  split; [done|]. split; [|done]. simpl. unfold restore_from_snapshot, get_state in *. simpl in *.
  rewrite let_modify. pose proof (restore_entries_inv es (length (es ≫= entry_bytes)) [] []) as H.
  change (N.of_nat (length (A := byte) [])) with 0%N in H. cbn [app] in H.
  rewrite H by (done || apply entries_length). done.
Defined.
End replicated_log.

(** ** States that commands lead to *)

Section reached.
Context {S : Type} `{!StateMachine S}.

Lemma run_commands_invariant (I : S → Prop) cmds s :
  (∀ c i s, (c, i) ∈ cmds → I s → I (sm_apply c i s).2) → I s → I (run_commands cmds s).2.
Proof.
  revert s. induction cmds as [|[c i] cmds IH]; intros s Hstep Hs; cbn [run_commands]; [done|].
  pose proof (Hstep c i s ltac:(left) Hs) as H1. destruct (sm_apply c i s) as [r s1].
  specialize (IH s1). destruct (run_commands cmds s1) as [rs s2]. apply IH; [|done].
  intros c' i' s' Hin. apply Hstep. by right.
Qed.

(** A measure that a command increases by at most one. *)
Lemma run_commands_measure (f : S → nat) cmds s :
  (∀ c i s, f (sm_apply c i s).2 ≤ f s + 1) → f (run_commands cmds s).2 ≤ f s + length cmds.
Proof.
  intros Hstep. revert s. induction cmds as [|[c i] cmds IH]; intros s; cbn [run_commands length]; [cbn; lia|].
  specialize (Hstep c i s). destruct (sm_apply c i s) as [r s1]. specialize (IH s1).
  destruct (run_commands cmds s1) as [rs s2]. cbn [snd] in *. lia.
Qed.
End reached.

Lemma le_value_bound l : (le_value l < 256 ^ N.of_nat (length l))%N.
Proof.
  induction l as [|b l IH]; [done|]. cbn [le_value length]. rewrite Nat2N.inj_succ, N.pow_succ_r'.
  pose proof (Byte.to_N_bounded b). lia.
Qed.

(** What is read with a length prefix fits the prefix. *)
Lemma read_prefixed_fits e1 e2 rest n rest1 l rest2 :
  read_le 4 e1 rest = Ret (n, rest1) → read_bytes n e2 rest1 = Ret (l, rest2) → fits 4 l.
Proof.
  unfold read_le. destruct (read_bytes (N.of_nat 4) e1 rest) as [[pre rest']| |] eqn:E; [|done..]. cbn [outcome_bind].
  intros [= <- <-] [_ Hl]%read_bytes_shorter. apply read_bytes_shorter in E as [_ Ep].
  unfold fits. rewrite Hl, N2Nat.id. pose proof (le_value_bound pre) as Hb. rewrite Ep in Hb. done.
Qed.

Lemma kv_apply_size c i (s : kv) : size (_store (sm_apply c i s).2) ≤ size (_store s) + 1.
Proof.
  change (sm_apply c i s) with (apply c i s). unfold apply. rewrite let_get.
  destruct (kv_fiu_apply s); [apply Nat.le_add_r|]. destruct c as [|b args]; [apply Nat.le_add_r|].
  rewrite let_modify. unfold mlet at 1, mlift. destruct (parse_key args) as [[key rest]| |]; [|apply Nat.le_add_r..].
  unfold execute. destruct (command_type_of b) as [[]|]; [apply Nat.le_add_r| |rewrite let_modify|apply Nat.le_add_r].
  - unfold mlet at 1, mlift. destruct (parse_value rest); [|apply Nat.le_add_r..]. rewrite let_modify.
    change (size (<[key := a]> (_store s)) ≤ size (_store s) + 1). rewrite map_size_insert. case_match; cbn; lia.
  - change (size (delete key (_store s)) ≤ size (_store s) + 1). rewrite map_size_delete. case_match; cbn; lia.
Qed.

Definition kv_fits (s : kv) : Prop :=
  kv_fiu_apply s = false ∧ ∀ k v, _store s !! k = Some v → fits 4 k ∧ fits 4 v.

Lemma kv_apply_fits c i (s : kv) : kv_fits s → kv_fits (sm_apply c i s).2.
Proof.
  intros [Hfiu Hs]. change (sm_apply c i s) with (apply c i s). unfold apply. rewrite let_get, Hfiu. destruct c as [|b args]; [done|].
  rewrite let_modify. destruct (parse_key args) as [[key rest]| |] eqn:Ek; unfold mlet, mlift; cbn; [|done..].
  assert (fits 4 key) as Hkey.
  { unfold parse_key in Ek. destruct (read_le _ _ _) as [[n rest1]| |] eqn:E1; [|done..]. cbn in Ek.
    by eapply read_prefixed_fits. }
  unfold execute. destruct (command_type_of b) as [[]|]; cbn; [done| | |done].
  - destruct (parse_value rest) as [value| |] eqn:Ev; cbn; [|done..]. split; [done|]. cbn. intros k v.
    assert (fits 4 value) as Hval.
    { unfold parse_value in Ev. destruct (read_le _ _ _) as [[n rest1]| |] eqn:E1; [|done..]. cbn in Ev.
      destruct (read_bytes _ _ _) as [[l rest2]| |] eqn:E2; [|done..]. injection Ev as <-.
      by eapply read_prefixed_fits. }
    intros [[<- <-]|[_ Hk]]%lookup_insert_Some; [done|by apply Hs].
  - split; [done|]. cbn. intros k v [_ Hk]%lookup_delete_Some. by apply Hs.
Qed.

Section reached_locks.
Import distributed_lock_state_machine.

(** Pieces are not empty and made of the bytes that were split. *)
Lemma split_pieces delim piece s p :
  p ∈ split_from delim piece s → p ≠ [] ∧ ∀ c, c ∈ p → c ∈ piece ++ s.
Proof.
  revert piece. induction s as [|c s IH]; intros piece; cbn [split_from].
  { destruct piece; [by intros ?%elem_of_nil|]. intros ->%list_elem_of_singleton. split; [done|].
    intros x. by rewrite app_nil_r. }
  destruct (Byte.eqb c delim).
  - destruct piece as [|c0 piece]; [intros H|intros [->|H]%elem_of_cons].
    + apply IH in H as [Hp H]. split; [done|]. intros x Hx. apply H in Hx. set_solver.
    + split; [done|]. set_solver.
    + apply IH in H as [Hp H]. split; [done|]. intros x Hx. apply H in Hx. set_solver.
  - intros H. apply IH in H as [Hp H]. split; [done|]. intros x Hx. apply H in Hx. set_solver.
Qed.

Lemma strip_prefix_suffix prefix s rest c : strip_prefix prefix s = Some rest → c ∈ rest → c ∈ s.
Proof.
  revert s. induction prefix as [|p prefix IH]; intros s; cbn; [by intros [= ->]|].
  destruct s as [|d s]; [done|]. destruct (Byte.eqb p d); [|done]. intros H Hc. right. by eapply IH.
Qed.

(** No byte that the snapshot text separates its fields with. *)
Definition free_of_separators (command : bytes) : Prop := (x3a ∉ command) ∧ (x3b ∉ command).

Definition locks_good (s : locks) : Prop := map_Forall (λ k x, lock_good (k, x)) (_locks s).

Lemma word_plain prefix command args delim p :
  strip_prefix prefix command = Some args → free_of_separators command → p ∈ split delim args → plain p.
Proof.
  intros Hs [Hc Hd] [Hp Hin]%split_pieces. split_and!; [done| |];
    intros H; apply Hin in H; cbn [app] in H; by eapply strip_prefix_suffix in H.
Qed.

Lemma acquire_good lock_id who t i s :
  plain lock_id → plain who → locks_good s → locks_good (acquire lock_id who t i s).2.
Proof.
  intros Hl Hw Hs. unfold acquire. rewrite let_get. case_match eqn:E; rewrite let_modify; cbn.
  - apply map_Forall_insert_2; [|done]. split_and!; [done|done|apply u64_add_lt].
  - destruct (_locks s !! lock_id) as [lock|] eqn:El; [|done]. cbn.
    apply map_Forall_insert_2; [|done]. by apply (Hs lock_id).
Qed.

Lemma lock_apply_good c i s : free_of_separators c → locks_good s → locks_good (apply c i s).2.
Proof.
  intros Hc Hs. unfold apply. destruct (strip_prefix (str "ACQUIRE ") c) as [args|] eqn:E.
  { assert (∀ p, p ∈ split x20 args → plain p) as Hp by (intros p; by eapply word_plain).
    destruct (split x20 args) as [|k [|w [|t [|? ?]]]]; try done. unfold mlet, mlift.
    destruct (stoull t); [|done..]. apply acquire_good; [apply Hp; set_solver|apply Hp; set_solver|done]. }
  destruct (strip_prefix (str "RELEASE ") c) as [args|].
  { destruct (split x20 args) as [|k [|w [|? ?]]]; try done. unfold release. rewrite let_get.
    repeat case_match; try done. rewrite let_modify. by apply map_Forall_delete. }
  destruct (strip_prefix (str "QUERY ") c) as [k|]; [|done]. unfold query. rewrite let_get.
  repeat case_match; try done. rewrite let_modify. by apply map_Forall_delete.
Qed.
End reached_locks.

Section reached_log.
Import replicated_log_state_machine.

Lemma log_apply_good c i s :
  is_u64 i → Forall record_good (_entries s) → Forall record_good (_entries (apply c i s).2).
Proof.
  intros Hi Hs. unfold apply. case_match; [|done]. rewrite let_modify. cbn.
  apply Forall_app. split; [done|]. by constructor.
Qed.
End reached_log.

(** ** Snapshots of the machines *)

#[local] Existing Instances counter_state_machine.machine register_state_machine.machine
  distributed_lock_state_machine.machine replicated_log_state_machine.machine.

(** After the commands [before], a snapshot is taken that another replica, in the
    state [s0], installs; from then on both give the same responses, and their states
    stay [same]. *)
Definition stands_for {S} `{!StateMachine S} (same : relation S) (initial : S) (before : list (bytes * N)) (s0 : S) :
    Prop :=
  ∀ after i, ∃ snap s1, sm_get_state (run_commands before initial).2 = Ret snap ∧
    sm_restore_from_snapshot snap i s0 = (Ret tt, s1) ∧
    (run_commands (before ++ after) initial).1 = (run_commands before initial).1 ++ (run_commands after s1).1 ∧
    same (run_commands (before ++ after) initial).2 (run_commands after s1).2.

Lemma stands_replay S `{!StateMachine S, !SnapshotLaws S} (initial : S) before s0 :
  sm_good (run_commands before initial).2 → sm_ready (run_commands before initial).2 s0 →
  stands_for sm_obs initial before s0.
Proof. intros Hg Hr rest i. by apply snapshot_replay. Qed.

(** C14. A snapshot replaces the commands before it.  Whatever bytes were applied to a new
    machine, a snapshot of it is taken, can be installed over any state of another
    replica, and both replicas then answer all further commands alike and end in
    the same state: for the counter and the register without condition; for the
    key-value store (whose states are compared but for the index last applied) after
    fewer than 2^64 commands and without injected faults; for the lock table when
    no command before the snapshot contains a colon or a semicolon, which its text
    uses as separators; for the replicated log when indices are of 64 bits and the
    snapshot's size is below 2^64 - 16. *)
Theorem snapshot_replaces_commands before :
  (∀ s0, stands_for (=) (counter_state_machine.mk_counter 0) before s0) ∧
  (∀ s0, stands_for (=) (register_state_machine.mk_register [] 0) before s0) ∧
  (∀ s0, (N.of_nat (length before) < 2 ^ 64)%N → kv_fiu_apply s0 = false → stands_for kv_obs kv_initial before s0) ∧
  (∀ s0, Forall (λ c, free_of_separators c.1) before →
     stands_for (=) (distributed_lock_state_machine.mk_locks ∅) before s0) ∧
  (∀ s0, let initial := replicated_log_state_machine.mk_replicated_log [] in
     Forall (λ c, is_u64 c.2) before →
     is_u64 (N.of_nat (length (replicated_log_state_machine.get_state (run_commands before initial).2)) + 16) →
     stands_for (=) initial before s0).
Proof.
  split_and!.
  - intros s0. refine (stands_replay counter_state_machine.counter _ before s0 _ _); [|done].
    apply (run_commands_invariant (S := counter_state_machine.counter)); [|done]. intros c j s _. apply counter_good.
  - intros s0. refine (stands_replay register_state_machine.register _ before s0 _ _); [|done].
    apply (run_commands_invariant (S := register_state_machine.register)); [|done]. intros c j s _. apply register_good.
  - intros s0 Hn Hfiu.
    assert (kv_fits (run_commands before kv_initial).2) as [Hf Hkv].
    { apply run_commands_invariant; [|by split]. intros c j s _. apply kv_apply_fits. }
    refine (stands_replay kv _ before s0 _ _); [|cbn; congruence]. split; [done|].
    pose proof (run_commands_measure (λ s : kv, size (_store s)) before kv_initial kv_apply_size) as Hsize.
    cbn [kv_initial _store] in Hsize. rewrite map_size_empty in Hsize. lia.
  - intros s0 Hc. refine (stands_replay distributed_lock_state_machine.locks _ before s0 _ _); [|done].
    apply (run_commands_invariant (S := distributed_lock_state_machine.locks)); [|by apply map_Forall_empty].
    intros c j s Hin. rewrite Forall_forall in Hc. apply lock_apply_good. apply (Hc _ Hin).
  - intros s0 initial Hi Hu. refine (stands_replay replicated_log_state_machine.replicated_log _ before s0 _ _); [|done].
    split; [|exact Hu].
    apply (run_commands_invariant (λ s, Forall record_good (replicated_log_state_machine._entries s))); [|by constructor].
    intros c j s Hin. apply log_apply_good. rewrite Forall_forall in Hi. apply (Hi _ Hin).
Qed.

(** ** Concrete runs *)

Section samples.
Import distributed_lock_state_machine.

Definition lock_run : list (bytes * N) := [(str "ACQUIRE db alice 10", 1%N)].
Definition lock_table : locks := mk_locks {[ str "db" := mk_lock (str "alice") 11 ]}.

Lemma lock_run_result : (run_commands lock_run (mk_locks ∅)).2 = lock_table.
Proof. vm_compute. reflexivity. Qed.

Lemma snapshot_replaces_commands_witness :
  ∃ snap s1, sm_restore_from_snapshot snap 1 (mk_locks ∅) = (Ret tt, s1) ∧
    (run_commands [(str "ACQUIRE db bob 5", 2%N)] s1).1 = [Ret (str "LOCKED")].
Proof.
  destruct (snapshot_replaces_commands lock_run) as (_ & _ & _ & Hlocks & _).
  destruct (Hlocks (mk_locks ∅)) with (after := [(str "ACQUIRE db bob 5", 2%N)]) (i := 1%N)
    as (snap & s1 & _ & Hr & He & _).
  - repeat constructor; by apply (bool_decide_eq_true_1 _).
  - exists snap, s1. split; [exact Hr|].
    assert ((run_commands (lock_run ++ [(str "ACQUIRE db bob 5", 2%N)]) (mk_locks ∅)).1
            = [Ret (str "OK")] ++ [Ret (str "LOCKED")]) as E1 by (vm_compute; reflexivity).
    assert ((run_commands lock_run (mk_locks ∅)).1 = [Ret (str "OK")]) as E2 by (vm_compute; reflexivity).
    rewrite E1, E2 in He. symmetry. exact (app_inv_head _ _ _ He).
Defined.

Lemma lock_exclusive_until_expiry_witness :
  acquire (str "db") (str "bob") 5 3 lock_table = (Ret (str "LOCKED"), lock_table).
Proof.
  apply (lock_exclusive_until_expiry (str "db") (str "alice") 10 1 [] (mk_locks ∅) lock_table);
    [vm_compute; reflexivity|done|reflexivity|constructor|reflexivity].
Defined.
End samples.
