(* ===== verification/CaStateMachine.v ===== *)
(** The replicated certificate authority ([ca_state_machine.hpp]): its commands,
    the ledger, snapshots, and the bundle in which the root key is replicated.

    OpenSSL is a parameter, the class [OpenSsl], with the behaviour its
    documentation promises as [OpenSslOk].  Time points are nanoseconds since the
    epoch. *)

From Stdlib Require Import Ascii.
From stdpp Require Import sorting.
From S2P Require Import Prelude Types ConfigEntry Bytes Base64 Node KvStateMachine JsonSerializer FilePersistence.
From S2P Require Import Machines MachineProofs.

(** ** The bundle of the encrypted root key *)

(** [PKCS5_PBKDF2_HMAC], the [EVP_Encrypt*] sequence, which gives the ciphertext
    and the tag, and the [EVP_Decrypt*] sequence, which may fail in a call or by a
    tag that does not match. *)
Inductive gcm_result : Type :=
  | gcm_plaintext (text : bytes)
  | gcm_tag_mismatch
  | gcm_failure.

Class OpenSsl : Type := {
  PKCS5_PBKDF2_HMAC : bytes → bytes → option bytes;
  gcm_encrypt : bytes → bytes → bytes → option (bytes * bytes);
  gcm_decrypt : bytes → bytes → bytes → bytes → gcm_result
}.

(** The tag has 16 bytes; decryption under the same key and nonce inverts
    encryption. *)
Class OpenSslOk `{!OpenSsl} : Prop := {
  gcm_tag_length key nonce text ciphertext tag :
    gcm_encrypt key nonce text = Some (ciphertext, tag) → length tag = 16;
  gcm_decrypt_encrypt key nonce text ciphertext tag :
    gcm_encrypt key nonce text = Some (ciphertext, tag) →
    gcm_decrypt key nonce tag ciphertext = gcm_plaintext text
}.

Definition k_salt_len : nat := 16.
Definition k_nonce_len : nat := 12.
Definition k_tag_len : nat := 16.

(** [throw_openssl_error]; the details of the error queue are left out. *)
Definition openssl {A} (context : string) (o : option A) : outcome A :=
  match o with Some a => Ret a | None => Throw (runtime_error context) end.

Section root_key.
Context {SSL : OpenSsl}.

Definition pbkdf2_derive_key (passphrase salt : bytes) : outcome bytes :=
  openssl "ca_state_machine: PBKDF2 key derivation failed" (PKCS5_PBKDF2_HMAC passphrase salt).

(** [salt] and [nonce]: what [RAND_bytes] gave for the two requests. *)
Definition encrypt_ca_private_key (key_pem passphrase : bytes) (salt nonce : option bytes)
    : outcome (list ascii) :=
  let? salt := openssl "ca_state_machine: RAND_bytes failed" salt in
  let? nonce := openssl "ca_state_machine: RAND_bytes failed" nonce in
  let? key := pbkdf2_derive_key passphrase salt in
  let? sealed := openssl "ca_state_machine: encryption failed" (gcm_encrypt key nonce key_pem) in
  let '(ciphertext, tag) := sealed in
  Ret (ca_base64.base64_encode (salt ++ nonce ++ tag ++ ciphertext)).

Definition decrypt_ca_private_key (encrypted_b64 : list ascii) (passphrase : bytes) : outcome bytes :=
  let bundle := ca_base64.base64_decode encrypted_b64 in
  let header_len := k_salt_len + k_nonce_len + k_tag_len in
  if length bundle <? header_len
  then Throw (invalid_argument "ca_state_machine: encrypted bootstrap material is truncated")
  else
    let salt := take k_salt_len bundle in
    let nonce := take k_nonce_len (drop k_salt_len bundle) in
    let tag := take k_tag_len (drop (k_salt_len + k_nonce_len) bundle) in
    let ciphertext := drop header_len bundle in
    let? key := pbkdf2_derive_key passphrase salt in
    match gcm_decrypt key nonce tag ciphertext with
    | gcm_plaintext text => Ret text
    | gcm_tag_mismatch => Throw (invalid_argument "ca_state_machine: decryption failed")
    | gcm_failure => Throw (runtime_error "ca_state_machine: EVP_Decrypt failed")
    end.
End root_key.

(** ** Ledger entries *)

Record ca_ledger_entry : Type := mk_ledger_entry {
  serial : N;
  subject : string;
  dns_names : list string;
  ip_addresses : list string;
  certificate_pem : string;
  not_before : Z;
  not_after : Z;
  revoked_at : option Z
}.

Definition epoch_seconds (tp : Z) : Z := Z.quot tp 1000000000.

(** The conversion to nanoseconds multiplies [int64_t]s. *)
Definition from_epoch_seconds (s : Z) : outcome Z :=
  let ns := (s * 1000000000)%Z in
  if (- 2 ^ 63 <=? ns)%Z && (ns <? 2 ^ 63)%Z then Ret ns
  else Undef "signed overflow in a duration conversion".

(** [to_number<uint64_t>()] and [to_number<int64_t>()]: both integer kinds are
    accepted when the value fits.  (A floating-point number with an integral value
    would be accepted too; the [json] of the model has none.) *)
Definition to_uint64 (v : json) : outcome N :=
  match v with
  | jint64 z => if (0 <=? z)%Z then Ret (Z.to_N z) else Throw (json_error "not exact")
  | juint64 n => Ret n
  | _ => Throw (json_error "not a number")
  end.
Definition to_int64 (v : json) : outcome Z :=
  match v with
  | jint64 z => Ret z
  | juint64 n => if (n <=? int64_max)%N then Ret (Z.of_N n) else Throw (json_error "not exact")
  | _ => Throw (json_error "not a number")
  end.

Definition string_array (l : list string) : json := jarray (map jstring l).

Fixpoint to_string_vector (l : list json) : outcome (list string) :=
  match l with
  | [] => Ret []
  | v :: l =>
      let? s := as_string v in
      let? rest := to_string_vector l in
      Ret (s :: rest)
  end.

Definition ledger_fields (e : ca_ledger_entry) : list (string * json) :=
  [("serial", juint64 (serial e)); ("subject", jstring (subject e));
   ("dns_names", string_array (dns_names e)); ("ip_addresses", string_array (ip_addresses e));
   ("certificate_pem", jstring (certificate_pem e));
   ("not_before", jint64 (epoch_seconds (not_before e)));
   ("not_after", jint64 (epoch_seconds (not_after e)))] ++
  match revoked_at e with
  | Some t => [("revoked_at", jint64 (epoch_seconds t))]
  | None => []
  end.

Definition ledger_entry_to_json (e : ca_ledger_entry) : json := jobject (ledger_fields e).

Definition at_string (obj : list (string * json)) (k : string) : outcome string :=
  let? v := json_at_const obj k in as_string v.
Definition at_strings (obj : list (string * json)) (k : string) : outcome (list string) :=
  let? v := json_at_const obj k in let? l := as_array v in to_string_vector l.
Definition at_uint64 (obj : list (string * json)) (k : string) : outcome N :=
  let? v := json_at_const obj k in to_uint64 v.
Definition at_time (obj : list (string * json)) (k : string) : outcome Z :=
  let? v := json_at_const obj k in let? s := to_int64 v in from_epoch_seconds s.

Definition json_to_ledger_entry (obj : list (string * json)) : outcome ca_ledger_entry :=
  let? serial := at_uint64 obj "serial" in
  let? subject := at_string obj "subject" in
  let? dns_names := at_strings obj "dns_names" in
  let? ip_addresses := at_strings obj "ip_addresses" in
  let? certificate_pem := at_string obj "certificate_pem" in
  let? not_before := at_time obj "not_before" in
  let? not_after := at_time obj "not_after" in
  let? revoked_at :=
    match json_lookup obj "revoked_at" with
    | Some v => let? s := to_int64 v in let? t := from_epoch_seconds s in Ret (Some t)
    | None => Ret None
    end in
  Ret (mk_ledger_entry serial subject dns_names ip_addresses certificate_pem
         not_before not_after revoked_at).

(** ** Commands *)

Inductive ca_command_type : Type :=
  | bootstrap_ca | record_issuance | record_revocation | ca_noop | record_rpc_tls_ready.

Definition ca_command_code (c : ca_command_type) : Z :=
  match c with
  | bootstrap_ca => 0 | record_issuance => 1 | record_revocation => 2 | ca_noop => 3
  | record_rpc_tls_ready => 4
  end.

(** [static_cast<ca_command_type>] of an [int], through [uint8_t]. *)
Definition ca_command_of (z : Z) : option ca_command_type :=
  match Z.to_N (z mod 256) with
  | 0%N => Some bootstrap_ca
  | 1%N => Some record_issuance
  | 2%N => Some record_revocation
  | 3%N => Some ca_noop
  | 4%N => Some record_rpc_tls_ready
  | _ => None
  end.

(** [to_number<int>()] *)
Definition to_int (v : json) : outcome Z :=
  let? z := to_int64 v in
  if (- 2 ^ 31 <=? z)%Z && (z <? 2 ^ 31)%Z then Ret z else Throw (json_error "not exact").

Section machine.
Context {JL : JsonLib}.

Definition encode_bootstrap_ca_command (root_cert_pem encrypted_ca_key_pem : string) : bytes :=
  json_serialize (jobject
    [("type", jint64 (ca_command_code bootstrap_ca)); ("root_cert_pem", jstring root_cert_pem);
     ("encrypted_ca_key_pem", jstring encrypted_ca_key_pem)]).

Definition encode_record_issuance_command (entry : ca_ledger_entry) : bytes :=
  json_serialize (jobject
    (ledger_fields entry ++ [("type", jint64 (ca_command_code record_issuance))])).

Definition encode_record_revocation_command (serial : N) (revoked_at : Z) : bytes :=
  json_serialize (jobject
    [("type", jint64 (ca_command_code record_revocation)); ("serial", juint64 serial);
     ("revoked_at", jint64 (epoch_seconds revoked_at))]).

Definition encode_noop_command : bytes :=
  json_serialize (jobject [("type", jint64 (ca_command_code ca_noop))]).

Definition encode_record_rpc_tls_ready_command (node_id : N) : bytes :=
  json_serialize (jobject
    [("type", jint64 (ca_command_code record_rpc_tls_ready)); ("node_id", juint64 node_id)]).

Definition error_result (error : string) : bytes :=
  json_serialize (jobject [("error", jstring error)]).

(** ** The state machine *)

Record ca : Type := mk_ca {
  _bootstrapped : bool;
  _encrypted_ca_key_pem : string;
  _root_cert_pem : string;
  _ledger : list ca_ledger_entry;
  _rpc_tls_ready : gset N;
  _ca_last_applied_index : N
}.

#[global] Instance ca_eta : Eta ca := λ s,
  mk_ca (_bootstrapped s) (_encrypted_ca_key_pem s) (_root_cert_pem s) (_ledger s) (_rpc_tls_ready s)
    (_ca_last_applied_index s).
Definition set_bootstrapped : bool → ca → ca := ltac:(setter _bootstrapped).
Definition set_encrypted_key : string → ca → ca := ltac:(setter _encrypted_ca_key_pem).
Definition set_root_cert : string → ca → ca := ltac:(setter _root_cert_pem).
Definition set_ledger : list ca_ledger_entry → ca → ca := ltac:(setter _ledger).
Definition set_rpc_tls_ready : gset N → ca → ca := ltac:(setter _rpc_tls_ready).
Definition set_ca_last_applied : N → ca → ca := ltac:(setter _ca_last_applied_index).

Definition ca_initial : ca := mk_ca false EmptyString EmptyString [] ∅ 0.

(** The assignment through the iterator of [find_if]: the first entry with the
    serial. *)
Definition set_revoked_at (t : Z) (e : ca_ledger_entry) : ca_ledger_entry :=
  mk_ledger_entry (serial e) (subject e) (dns_names e) (ip_addresses e) (certificate_pem e)
    (not_before e) (not_after e) (Some t).
Fixpoint revoke (n : N) (t : Z) (ledger : list ca_ledger_entry) : list ca_ledger_entry :=
  match ledger with
  | [] => []
  | e :: rest => if (serial e =? n)%N then set_revoked_at t e :: rest else e :: revoke n t rest
  end.

Definition apply_ca_command (cmd : option ca_command_type) (obj : list (string * json)) : M ca bytes :=
  match cmd with
  | Some bootstrap_ca =>
      let! s := mget in
      if _bootstrapped s then mreturn (error_result "already_bootstrapped") else
      let! cert := mlift (at_string obj "root_cert_pem") in
      do! mmodify (set_root_cert cert) in
      let! key := mlift (at_string obj "encrypted_ca_key_pem") in
      do! mmodify (set_encrypted_key key) in
      do! mmodify (set_bootstrapped true) in
      mreturn []
  | Some record_issuance =>
      let! e := mlift (json_to_ledger_entry obj) in
      do! mmodify (λ s, set_ledger (_ledger s ++ [e]) s) in mreturn []
  | Some record_revocation =>
      let! n := mlift (at_uint64 obj "serial") in
      let! s := mget in
      if negb (existsb (λ e, (serial e =? n)%N) (_ledger s))
      then mreturn (error_result "serial_not_found")
      else
        let! t := mlift (at_time obj "revoked_at") in
        do! mmodify (λ s, set_ledger (revoke n t (_ledger s)) s) in
        mreturn []
  | Some ca_noop => mreturn []
  | Some record_rpc_tls_ready =>
      let! id := mlift (at_uint64 obj "node_id") in
      do! mmodify (λ s, set_rpc_tls_ready ({[id]} ∪ _rpc_tls_ready s) s) in mreturn []
  | None => mthrow (invalid_argument "ca_state_machine: unknown command type")
  end.

(** The command as an object; what parsing threw is reported as malformed, with a
    message that the model leaves out. *)
Definition parse_command (command : bytes) : outcome (list (string * json)) :=
  match (let? v := json_parse command in as_object v) with
  | Throw _ => Throw (invalid_argument "ca_state_machine: malformed command")
  | o => o
  end.

Definition ca_apply (command : bytes) (index : N) : M ca bytes :=
  do! mmodify (set_ca_last_applied index) in
  let! obj := mlift (parse_command command) in
  match json_lookup obj "type" with
  | None => mthrow (invalid_argument "ca_state_machine: command missing type")
  | Some type_val =>
      let! z := mlift (to_int type_val) in
      apply_ca_command (ca_command_of z) obj
  end.

(** [std::set] iterates in increasing order. *)
Definition sorted_ids (ids : gset N) : list N := merge_sort N.le (elements ids).

Definition state_to_json (s : ca) : json :=
  jobject
    [("bootstrapped", jbool (_bootstrapped s));
     ("encrypted_ca_key_pem", jstring (_encrypted_ca_key_pem s));
     ("root_cert_pem", jstring (_root_cert_pem s));
     ("ledger", jarray (map ledger_entry_to_json (_ledger s)));
     ("rpc_tls_ready", json_ids (sorted_ids (_rpc_tls_ready s)))].

Definition ca_get_state (s : ca) : bytes := json_serialize (state_to_json s).

Fixpoint restore_ledger (l : list json) : M ca () :=
  match l with
  | [] => mreturn tt
  | v :: l =>
      let! obj := mlift (as_object v) in
      let! e := mlift (json_to_ledger_entry obj) in
      do! mmodify (λ s, set_ledger (_ledger s ++ [e]) s) in
      restore_ledger l
  end.

Fixpoint restore_ready (l : list json) : M ca () :=
  match l with
  | [] => mreturn tt
  | v :: l =>
      let! id := mlift (to_uint64 v) in
      do! mmodify (λ s, set_rpc_tls_ready ({[id]} ∪ _rpc_tls_ready s) s) in
      restore_ready l
  end.

Definition ca_restore_from_snapshot (snapshot : bytes) (index : N) : M ca () :=
  do! mmodify (set_ca_last_applied index) in
  match snapshot with
  | [] => mmodify (λ s, mk_ca false EmptyString EmptyString [] ∅ (_ca_last_applied_index s))
  | _ =>
      let! v := mlift (json_parse snapshot) in
      let! obj := mlift (as_object v) in
      let! bootstrapped_v := mlift (json_at_const obj "bootstrapped") in
      let! bootstrapped := mlift (as_bool bootstrapped_v) in
      do! mmodify (set_bootstrapped bootstrapped) in
      let! key := mlift (at_string obj "encrypted_ca_key_pem") in
      do! mmodify (set_encrypted_key key) in
      let! cert := mlift (at_string obj "root_cert_pem") in
      do! mmodify (set_root_cert cert) in
      do! mmodify (set_ledger []) in
      let! ledger_v := mlift (json_at_const obj "ledger") in
      let! ledger := mlift (as_array ledger_v) in
      do! restore_ledger ledger in
      do! mmodify (set_rpc_tls_ready ∅) in
      match json_lookup obj "rpc_tls_ready" with
      | None => mreturn tt
      | Some ready_v => let! ready := mlift (as_array ready_v) in restore_ready ready
      end
  end.

#[export] Instance ca_state_machine : StateMachine ca := {|
  sm_apply := ca_apply;
  sm_get_state := λ s, Ret (ca_get_state s);
  sm_restore_from_snapshot := ca_restore_from_snapshot
|}.
End machine.
