(* ===== verification/CaProofs.v ===== *)
(** The replicated certificate authority: the root key survives encryption and
    replication, commands record what they were built from, snapshots meet the
    interface of [MachineProofs], and no command rewrites history. *)

From Stdlib Require Import Ascii.
From stdpp Require Import sorting.
From S2P Require Import Prelude Types ConfigEntry Bytes Base64 Node KvStateMachine JsonSerializer FilePersistence.
From S2P Require Import Machines MachineProofs CaStateMachine.

(** ** The root key *)

Section root_key.
Context {SSL : OpenSsl} {SSLok : OpenSslOk}.

(** The root key is recovered from its replicated form: when the encryption
    calls succeed, decrypting the Base64 bundle under the same passphrase gives
    back the key, whatever salt and nonce were drawn (salt, nonce, tag and
    ciphertext are taken apart at the offsets they were put together). *)
Theorem root_key_recovered key_pem passphrase salt nonce bundle :
  length salt = k_salt_len → length nonce = k_nonce_len →
  encrypt_ca_private_key key_pem passphrase (Some salt) (Some nonce) = Ret bundle →
  decrypt_ca_private_key bundle passphrase = Ret key_pem.
Proof.
  unfold encrypt_ca_private_key, decrypt_ca_private_key. intros Hs Hn. cbn [openssl outcome_bind].
  destruct (pbkdf2_derive_key passphrase salt) as [key| |] eqn:Ek; [|done..]. cbn [outcome_bind].
  destruct (gcm_encrypt key nonce key_pem) as [[text tag]|] eqn:Ee; [|done]. cbn [openssl outcome_bind].
  intros [= <-]. pose proof (gcm_tag_length _ _ _ _ _ Ee) as Ht. rewrite ca_roundtrip. cbv zeta.
  assert (length (salt ++ nonce) = k_salt_len + k_nonce_len) as Hsn by (by rewrite length_app, Hs, Hn).
  assert (length ((salt ++ nonce) ++ tag) = k_salt_len + k_nonce_len + k_tag_len) as Hsnt
    by (by rewrite length_app, Hsn, Ht).
  rewrite (take_app_length' salt), (drop_app_length' salt), (take_app_length' nonce) by done.
  rewrite (app_assoc salt), (drop_app_length' (salt ++ nonce)), (take_app_length' tag) by done.
  rewrite (app_assoc _ tag), (drop_app_length' _ text) by done.
  rewrite (proj2 (Nat.ltb_ge _ _)) by (rewrite length_app, Hsnt; lia).
  rewrite Ek. cbn [outcome_bind]. by rewrite (gcm_decrypt_encrypt _ _ _ _ _ Ee).
Qed.
End root_key.

(** A stand-in cipher for the concrete run: it reverses the text, and its tag is
    constant. *)
Definition toy_ssl : OpenSsl := {|
  PKCS5_PBKDF2_HMAC pass salt := Some (pass ++ salt);
  gcm_encrypt key nonce text := Some (rev text, replicate 16 x2a);
  gcm_decrypt key nonce tag text :=
    if bool_decide (tag = replicate 16 x2a) then gcm_plaintext (rev text) else gcm_tag_mismatch
|}.

Lemma toy_ssl_ok : @OpenSslOk toy_ssl.
Proof.
  constructor; intros key nonce text ciphertext tag; simpl; intros [= <- <-]; [done|].
  by rewrite rev_involutive.
Qed.

Lemma root_key_recovered_witness :
  @decrypt_ca_private_key toy_ssl
    (ca_base64.base64_encode (replicate 16 x01 ++ replicate 12 x02 ++ replicate 16 x2a ++ [x63; x62; x61]))
    [x70] = Ret [x61; x62; x63].
Proof.
  apply (@root_key_recovered toy_ssl toy_ssl_ok [x61; x62; x63] [x70] (replicate 16 x01) (replicate 12 x02));
    reflexivity.
Defined.

(** ** Commands never rewrite history *)

(** What may happen to a ledger entry: it is revoked, or revoked again. *)
Definition entry_kept (e e' : ca_ledger_entry) : Prop :=
  e' = e ∨ ∃ t, e' = set_revoked_at t e.

(** The new ledger continues the old one. *)
Definition ledger_kept (l l' : list ca_ledger_entry) : Prop :=
  ∃ l1 l2, l' = l1 ++ l2 ∧ Forall2 entry_kept l l1.

Record history_kept (s s' : ca) : Prop := {
  kept_ledger : ledger_kept (_ledger s) (_ledger s');
  kept_ready : _rpc_tls_ready s ⊆ _rpc_tls_ready s';
  kept_root : _bootstrapped s = true →
    _bootstrapped s' = true ∧ _root_cert_pem s' = _root_cert_pem s ∧
    _encrypted_ca_key_pem s' = _encrypted_ca_key_pem s
}.

#[export] Instance entry_kept_preorder : PreOrder entry_kept.
Proof.
  split; [by left|]. intros e1 e2 e3 [->|[t ->]] [->|[t' ->]]; try (by left); right; eauto.
Qed.

#[export] Instance ledger_kept_preorder : PreOrder ledger_kept.
Proof.
  split.
  - intros l. exists l, []. by rewrite app_nil_r.
  - intros l1 l2 l3 (a & b & -> & H1) (c & d & -> & H2).
    apply Forall2_app_inv_l in H2 as (c1 & c2 & H2 & H3 & ->).
    exists c1, (c2 ++ d). split; [by rewrite app_assoc|]. by transitivity a.
Qed.

#[export] Instance history_kept_preorder : PreOrder history_kept.
Proof.
  split.
  - by intros s.
  - intros s1 s2 s3 [L1 R1 B1] [L2 R2 B2]. split; [by transitivity (_ledger s2)|set_solver|].
    intros H. destruct (B1 H) as (H2 & E1 & E2). destruct (B2 H2) as (H3 & E3 & E4).
    split_and!; congruence.
Qed.

Lemma revoke_kept n t l : ledger_kept l (revoke n t l).
Proof.
  exists (revoke n t l), []. rewrite app_nil_r. split; [done|].
  induction l as [|e l IH]; simpl; [done|].
  case_match; constructor; auto; [by right; exists t|reflexivity|reflexivity].
Qed.

Lemma ledger_kept_snoc l e : ledger_kept l (l ++ [e]).
Proof. exists l, [e]. by split. Qed.

Section history.
Context {JL : JsonLib}.

(** Every branch of a command, by the state it leaves. *)
Lemma apply_ca_command_kept cmd obj s : history_kept s (apply_ca_command cmd obj s).2.
Proof.
  destruct cmd as [[]|]; cbn [apply_ca_command]; try reflexivity; unfold mlet, mlift, mget, mmodify, mreturn;
    repeat case_match; simplify_eq; simpl; try reflexivity; split; simpl; try done;
    try apply revoke_kept; try apply ledger_kept_snoc; try set_solver; congruence.
Qed.

Lemma ca_apply_kept c i s : history_kept s (ca_apply c i s).2.
Proof.
  unfold ca_apply. rewrite let_modify. transitivity (set_ca_last_applied i s); [by split|].
  generalize (set_ca_last_applied i s). clear s. intros s. unfold mlet, mlift, mthrow.
  destruct (parse_command c) as [obj| |]; [|done..].
  destruct (json_lookup obj "type") as [v|]; [|done].
  destruct (to_int v) as [z| |]; [|done..]. apply apply_ca_command_kept.
Qed.

(** C37. The authority's history is append-only: whatever bytes are applied as
    commands, malformed ones and ones that throw half-way included, every ledger
    entry stays at its place with its serial, names, certificate and validity
    (only its revocation time can be set, and never cleared), no readiness of a
    node is forgotten, and the root certificate and encrypted root key do not
    change once the authority is bootstrapped. *)
Theorem ca_history_append_only cmds s :
  history_kept s (run_commands (S := ca) cmds s).2.
Proof.
  revert s. induction cmds as [|[c i] cmds IH]; intros s; simpl; [reflexivity|].
  pose proof (ca_apply_kept c i s) as H. destruct (ca_apply c i s) as [r s1]. simpl in H.
  specialize (IH s1). destruct (run_commands cmds s1) as [rs s2]. simpl in *. by transitivity s1.
Qed.
End history.

(** ** Reading back what was written *)

Local Open Scope Z_scope.

Definition is_time (t : Z) : Prop := - 2 ^ 63 ≤ t < 2 ^ 63.
Definition truncate_time (t : Z) : Z := epoch_seconds t * 1000000000.

Lemma epoch_seconds_bounds t : is_time t → - 2 ^ 63 ≤ epoch_seconds t < 2 ^ 63.
Proof. unfold is_time, epoch_seconds. intros H. Z.to_euclidean_division_equations; lia. Qed.

Lemma from_epoch_seconds_inv t : is_time t → from_epoch_seconds (epoch_seconds t) = Ret (truncate_time t).
Proof.
  intros H. unfold from_epoch_seconds. fold (truncate_time t).
  assert (is_time (truncate_time t)) as [H1 H2].
  { unfold is_time, truncate_time, epoch_seconds in *. Z.to_euclidean_division_equations; lia. }
  apply Z.leb_le in H1. apply Z.ltb_lt in H2. by rewrite H1, H2.
Qed.

Lemma truncate_time_idemp t : truncate_time (truncate_time t) = truncate_time t.
Proof.
  unfold truncate_time, epoch_seconds. by rewrite Z.quot_mul by lia.
Qed.

(** What a replica records of an entry: times lose the part below a second. *)
Definition recorded (e : ca_ledger_entry) : ca_ledger_entry :=
  mk_ledger_entry (serial e) (subject e) (dns_names e) (ip_addresses e) (certificate_pem e)
    (truncate_time (not_before e)) (truncate_time (not_after e)) (truncate_time <$> revoked_at e).

Record entry_valid (e : ca_ledger_entry) : Prop := {
  valid_serial : is_u64 (serial e);
  valid_strings : Forall ascii_string
    ([subject e; certificate_pem e] ++ dns_names e ++ ip_addresses e);
  valid_times : Forall is_time [not_before e; not_after e];
  valid_revoked : ∀ t, revoked_at e = Some t → is_time t
}.

Lemma to_uint64_normalize n : to_uint64 (json_normalize (juint64 n)) = Ret n.
Proof.
  simpl. destruct (n <=? int64_max)%N; [|done]. simpl. destruct (Z.leb_spec 0 (Z.of_N n)); [|lia].
  by rewrite N2Z.id.
Qed.

Lemma to_string_vector_normalize l :
  to_string_vector (map json_normalize (map jstring l)) = Ret l.
Proof. induction l as [|s l IH]; simpl; [done|]. by rewrite IH. Qed.

Section fields.
Context (kv : list (string * json)) (k : string).

Lemma field_at_uint64 n : json_lookup kv k = Some (juint64 n) → at_uint64 (norm_fields kv) k = Ret n.
Proof.
  intros E. unfold at_uint64, json_at_const. rewrite lookup_norm_fields, E. apply to_uint64_normalize.
Qed.
Lemma field_at_string s : json_lookup kv k = Some (jstring s) → at_string (norm_fields kv) k = Ret s.
Proof. intros E. unfold at_string, json_at_const. by rewrite lookup_norm_fields, E. Qed.
Lemma field_at_strings l : json_lookup kv k = Some (string_array l) → at_strings (norm_fields kv) k = Ret l.
Proof.
  intros E. unfold at_strings, json_at_const. rewrite lookup_norm_fields, E.
  apply to_string_vector_normalize.
Qed.
Lemma field_at_time t :
  json_lookup kv k = Some (jint64 (epoch_seconds t)) → is_time t →
  at_time (norm_fields kv) k = Ret (truncate_time t).
Proof.
  intros E H. unfold at_time, json_at_const. rewrite lookup_norm_fields, E. by apply from_epoch_seconds_inv.
Qed.
End fields.

(** [rest]: the command type, or nothing. *)
Lemma json_to_ledger_entry_inv e rest :
  entry_valid e → json_lookup rest "revoked_at" = None →
  json_to_ledger_entry (norm_fields (ledger_fields e ++ rest)) = Ret (recorded e).
Proof.
  intros [Hs _ Ht Hr] Hrest. rewrite !Forall_cons in Ht. destruct Ht as (Hb & Ha & _).
  destruct e as [n sub dns ips pem nb na rev]. cbn [serial not_before not_after revoked_at] in *.
  unfold json_to_ledger_entry.
  rewrite (field_at_uint64 _ "serial" n) by reflexivity. cbn [outcome_bind].
  rewrite (field_at_string _ "subject" sub) by reflexivity. cbn [outcome_bind].
  rewrite (field_at_strings _ "dns_names" dns) by reflexivity. cbn [outcome_bind].
  rewrite (field_at_strings _ "ip_addresses" ips) by reflexivity. cbn [outcome_bind].
  rewrite (field_at_string _ "certificate_pem" pem) by reflexivity. cbn [outcome_bind].
  rewrite (field_at_time _ "not_before" nb) by done. cbn [outcome_bind].
  rewrite (field_at_time _ "not_after" na) by done. cbn [outcome_bind].
  rewrite lookup_norm_fields. destruct rev as [t|].
  - change (json_lookup _ _) with (Some (jint64 (epoch_seconds t))).
    cbn [fmap option_fmap option_map json_normalize to_int64 outcome_bind].
    by rewrite from_epoch_seconds_inv by auto.
  - change (json_lookup _ _) with (json_lookup rest "revoked_at"). by rewrite Hrest.
Qed.

Lemma string_array_wf l : Forall ascii_string l → json_wf (string_array l).
Proof. induction 1; simpl in *; auto. Qed.

(** The fields of an entry are printable, also with a type appended. *)
Lemma ledger_fields_wf e (typed : bool) :
  entry_valid e →
  json_wf (jobject (ledger_fields e ++ if typed then [("type", jint64 1)] else [])).
Proof.
  intros [Hs Hstr Ht Hr]. rewrite !Forall_app, !Forall_cons in *.
  destruct Hstr as ((H1 & H2 & _) & H3 & H4), Ht as (Hb & Ha & _).
  apply string_array_wf in H3, H4. apply epoch_seconds_bounds in Hb, Ha.
  unfold ledger_fields. destruct (revoked_at e) as [t|] eqn:E;
    [specialize (Hr t eq_refl); apply epoch_seconds_bounds in Hr|]; destruct typed;
    (split; [by apply (bool_decide_eq_true_1 _)|]);
    repeat match goal with |- fold_right _ _ _ => cbn [app fold_right fst snd] | |- _ ∧ _ => split end;
    try (by apply ascii_string_decide); done.
Qed.

Section commands.
Context {JL : JsonLib} {JLok : JsonLibOk}.

Lemma ca_apply_encoded kv c i s :
  json_wf (jobject kv) → json_lookup kv "type" = Some (jint64 (ca_command_code c)) →
  ca_apply (json_serialize (jobject kv)) i s =
  apply_ca_command (Some c) (norm_fields kv) (set_ca_last_applied i s).
Proof.
  intros Hwf Ht. unfold ca_apply, parse_command. rewrite let_modify, json_parse_serialize by done.
  change (json_normalize (jobject kv)) with (jobject (norm_fields kv)). cbn [outcome_bind as_object].
  rewrite let_lift. rewrite lookup_norm_fields, Ht. by destruct c.
Qed.

(** The effect of each command on a replica, by what it was built from. *)
Inductive ca_command : Type :=
  | cmd_bootstrap (root_cert_pem encrypted_ca_key_pem : string)
  | cmd_issue (e : ca_ledger_entry)
  | cmd_revoke (n : N) (t : Z)
  | cmd_noop
  | cmd_tls_ready (node_id : N).

Definition encode_command (c : ca_command) : bytes :=
  match c with
  | cmd_bootstrap cert key => encode_bootstrap_ca_command cert key
  | cmd_issue e => encode_record_issuance_command e
  | cmd_revoke n t => encode_record_revocation_command n t
  | cmd_noop => encode_noop_command
  | cmd_tls_ready id => encode_record_rpc_tls_ready_command id
  end.

Definition command_valid (c : ca_command) : Prop :=
  match c with
  | cmd_bootstrap cert key => ascii_string cert ∧ ascii_string key
  | cmd_issue e => entry_valid e
  | cmd_revoke n t => is_u64 n ∧ is_time t
  | cmd_noop => True
  | cmd_tls_ready id => is_u64 id
  end.

Definition issued (n : N) (s : ca) : bool := bool_decide (n ∈ serial <$> _ledger s).

Definition command_effect (c : ca_command) (s : ca) : ca :=
  match c with
  | cmd_bootstrap cert key =>
      if _bootstrapped s then s
      else set_bootstrapped true (set_encrypted_key key (set_root_cert cert s))
  | cmd_issue e => set_ledger (_ledger s ++ [recorded e]) s
  | cmd_revoke n t =>
      match list_find (λ e, serial e = n) (_ledger s) with
      | Some (i, e) => set_ledger (<[i := set_revoked_at (truncate_time t) e]> (_ledger s)) s
      | None => s
      end
  | cmd_noop => s
  | cmd_tls_ready id => set_rpc_tls_ready ({[id]} ∪ _rpc_tls_ready s) s
  end.

Definition command_response (c : ca_command) (s : ca) : bytes :=
  match c with
  | cmd_bootstrap _ _ => if _bootstrapped s then error_result "already_bootstrapped" else []
  | cmd_revoke n _ => if issued n s then [] else error_result "serial_not_found"
  | _ => []
  end.

Lemma issued_exists n s : existsb (λ e, (serial e =? n)%N) (_ledger s) = issued n s.
Proof.
  unfold issued. apply Bool.eq_iff_eq_true. rewrite bool_decide_eq_true, existsb_exists, list_elem_of_fmap.
  split; intros (e & H1 & H2); exists e; [apply N.eqb_eq in H2|]; rewrite <- ?list_elem_of_In in *;
    rewrite ?N.eqb_eq; done.
Qed.

Lemma revoke_first n t l :
  revoke n t l = match list_find (λ e, serial e = n) l with
                 | Some (i, e) => <[i := set_revoked_at t e]> l
                 | None => l
                 end.
Proof.
  induction l as [|e l IH]; simpl; [done|]. destruct (N.eqb_spec (serial e) n) as [E|E].
  - by rewrite decide_True.
  - rewrite decide_False by done. rewrite IH. by destruct (list_find _ l) as [[i e']|].
Qed.

Lemma set_ledger_revoked n t s :
  set_ledger (revoke n t (_ledger s)) s =
  match list_find (λ e, serial e = n) (_ledger s) with
  | Some (i, e) => set_ledger (<[i := set_revoked_at t e]> (_ledger s)) s
  | None => s
  end.
Proof. rewrite revoke_first. destruct (list_find _ _) as [[i e]|]; [done|]. by destruct s. Qed.

Lemma issued_none n s : issued n s = false → list_find (λ e, serial e = n) (_ledger s) = None.
Proof.
  unfold issued. rewrite bool_decide_eq_false. intros H. apply list_find_None, Forall_forall.
  intros e He E. apply H. rewrite <- E. by apply list_elem_of_fmap_2.
Qed.

Ltac command_wf :=
  split; [by apply (bool_decide_eq_true_1 _)|];
  repeat split; try (by apply ascii_string_decide); try done; try (by apply epoch_seconds_bounds).

(** Commands execute as they were built: every replica that applies the bytes
    an encoder made answers and changes its state as intended, for each of the
    five commands.  Bootstrapping acts once and is refused afterwards; an issued
    certificate is recorded with its times to the second and the full 64-bit
    serial; revoking marks the first entry with the serial, or answers that there
    is none; repeating a readiness changes nothing. *)
Theorem ca_commands_execute c i s :
  command_valid c →
  ca_apply (encode_command c) i s =
  (Ret (command_response c s), command_effect c (set_ca_last_applied i s)).
Proof.
  intros Hv. destruct c as [cert key|e|n t| |id]; cbn [encode_command command_valid] in Hv |- *.
  - destruct Hv. unfold encode_bootstrap_ca_command.
    rewrite (ca_apply_encoded _ bootstrap_ca) by (done || command_wf). cbn [apply_ca_command].
    rewrite let_get. cbn [command_response command_effect].
    change (_bootstrapped (set_ca_last_applied i s)) with (_bootstrapped s).
    destruct (_bootstrapped s); [done|].
    rewrite (field_at_string _ "root_cert_pem" cert), (field_at_string _ "encrypted_ca_key_pem" key) by done.
    done.
  - unfold encode_record_issuance_command.
    rewrite (ca_apply_encoded _ record_issuance); [|by apply (ledger_fields_wf e true)|].
    2:{ unfold ledger_fields. by destruct (revoked_at e). }
    cbn [apply_ca_command]. by rewrite json_to_ledger_entry_inv.
  - destruct Hv. unfold encode_record_revocation_command.
    rewrite (ca_apply_encoded _ record_revocation) by (done || command_wf). cbn [apply_ca_command].
    rewrite (field_at_uint64 _ "serial" n) by done. rewrite let_lift, let_get.
    cbn [command_response command_effect]. rewrite issued_exists.
    change (issued n (set_ca_last_applied i s)) with (issued n s).
    destruct (issued n s) eqn:E; cbn [negb].
    + rewrite (field_at_time _ "revoked_at" t) by done. by rewrite <- set_ledger_revoked.
    + by rewrite (issued_none n (set_ca_last_applied i s)).
  - unfold encode_noop_command. by rewrite (ca_apply_encoded _ ca_noop) by (done || command_wf).
  - unfold encode_record_rpc_tls_ready_command.
    rewrite (ca_apply_encoded _ record_rpc_tls_ready) by (done || command_wf). cbn [apply_ca_command].
    by rewrite (field_at_uint64 _ "node_id" id).
Qed.
End commands.

Lemma ca_commands_execute_witness :
  (@ca_apply CodeJson.code_json
     (@encode_command CodeJson.code_json
        (cmd_issue (mk_ledger_entry 18446744073709551615 "CN=n1" ["n1"] [] "PEM" 1500000000 2999999999 None)))
     7 ca_initial).2 =
  mk_ca false EmptyString EmptyString
    [mk_ledger_entry 18446744073709551615 "CN=n1" ["n1"] [] "PEM" 1000000000 2000000000 None] ∅ 7.
Proof.
  rewrite (ca_commands_execute (JL := CodeJson.code_json) (JLok := CodeJson.code_json_ok)
    (cmd_issue (mk_ledger_entry 18446744073709551615 "CN=n1" ["n1"] [] "PEM" 1500000000 2999999999 None))
    7 ca_initial); [reflexivity|].
  split; [done| | |done].
  - repeat constructor; by apply ascii_string_decide.
  - repeat constructor; vm_compute; congruence.
Defined.

(** ** Snapshots *)

Definition ca_obs (s s' : ca) : Prop := set_ca_last_applied 0 s = set_ca_last_applied 0 s'.

Record ca_good (s : ca) : Prop := {
  good_strings : ascii_string (_encrypted_ca_key_pem s) ∧ ascii_string (_root_cert_pem s);
  good_ledger : Forall (λ e, entry_valid e ∧ recorded e = e) (_ledger s);
  good_ready : set_Forall is_u64 (_rpc_tls_ready s)
}.

Lemma truncate_in_range t : is_time t → is_time (truncate_time t).
Proof. unfold is_time, truncate_time, epoch_seconds. intros H. Z.to_euclidean_division_equations; lia. Qed.

Lemma recorded_valid e : entry_valid e → entry_valid (recorded e) ∧ recorded (recorded e) = recorded e.
Proof.
  intros [Hs Hstr Ht Hr]. rewrite !Forall_cons in Ht. destruct Ht as (Hb & Ha & _). split.
  - split; [done|done|by repeat constructor; apply truncate_in_range|].
    intros t. simpl. rewrite fmap_Some. intros (t' & E & ->). by apply truncate_in_range, Hr.
  - unfold recorded. simpl. rewrite !truncate_time_idemp. f_equal.
    destruct (revoked_at e); simpl; by rewrite ?truncate_time_idemp.
Qed.

Lemma revoke_good n t l :
  is_time t → Forall (λ e, entry_valid e ∧ recorded e = e) l →
  Forall (λ e, entry_valid e ∧ recorded e = e) (revoke n (truncate_time t) l).
Proof.
  intros Ht. induction 1 as [|e l [[H1 H2 H3 H4] He] Hl IH]; simpl; [done|].
  case_match; constructor; try done.
  split.
  - split; try done. intros t' [= <-]. by apply truncate_in_range.
  - unfold recorded in *. simpl. rewrite truncate_time_idemp.
    destruct e. unfold set_revoked_at. simpl in *. injection He as E1 E2 _. by rewrite E1, E2.
Qed.

(** A state reached by valid commands can be snapshotted. *)
Lemma command_effect_good c i s : command_valid c → ca_good s → ca_good (command_effect c (set_ca_last_applied i s)).
Proof.
  intros Hv [[H1 H1'] H2 H3]. destruct c as [cert key|e|n t| |id]; cbn [command_valid command_effect] in *;
    try by split.
  - destruct Hv. change (_bootstrapped (set_ca_last_applied i s)) with (_bootstrapped s).
    by destruct (_bootstrapped s); split.
  - split; [done| |done]. simpl. apply Forall_app. split; [done|]. constructor; [|done].
    by apply recorded_valid.
  - destruct Hv. rewrite <- set_ledger_revoked. split; [done| |done]. by apply revoke_good.
  - split; [done|done|]. simpl. apply set_Forall_union; [|done]. by apply set_Forall_singleton.
Qed.

Section snapshots.
Context {JL : JsonLib} {JLok : JsonLibOk} {JLlines : JsonLibLines}.

Lemma restore_ledger_inv l s :
  Forall (λ e, entry_valid e ∧ recorded e = e) l →
  restore_ledger (map json_normalize (map ledger_entry_to_json l)) s = (Ret tt, set_ledger (_ledger s ++ l) s).
Proof.
  intros H. revert s. induction H as [|e l [Hv He] _ IH]; intros s; cbn [map restore_ledger].
  { rewrite app_nil_r. by destruct s. }
  change (json_normalize (ledger_entry_to_json e)) with (jobject (norm_fields (ledger_fields e))).
  cbn [as_object]. rewrite let_lift. rewrite <- (app_nil_r (ledger_fields e)).
  rewrite json_to_ledger_entry_inv, He by done. rewrite let_lift, let_modify, IH. simpl.
  by rewrite <- app_assoc.
Qed.

Lemma restore_ready_inv l s :
  restore_ready (map json_normalize (map juint64 l)) s =
  (Ret tt, set_rpc_tls_ready (list_to_set l ∪ _rpc_tls_ready s) s).
Proof.
  revert s. induction l as [|n l IH]; intros s; cbn [map restore_ready].
  { replace (list_to_set [] ∪ _rpc_tls_ready s) with (_rpc_tls_ready s) by set_solver. by destruct s. }
  rewrite to_uint64_normalize, let_lift, let_modify, IH. simpl. unfold set_rpc_tls_ready. simpl.
  do 2 f_equal. set_solver.
Qed.

Lemma sorted_ids_set ids : list_to_set (sorted_ids ids) = ids.
Proof. apply set_eq. intros n. unfold sorted_ids. rewrite elem_of_list_to_set, merge_sort_Permutation. set_solver. Qed.

Lemma state_to_json_wf s : ca_good s → json_wf (state_to_json s).
Proof.
  intros [[H1 H1'] H2 H3]. split; [by apply (bool_decide_eq_true_1 _)|].
  repeat match goal with |- fold_right _ _ _ => cbn [fold_right fst snd] | |- _ ∧ _ => split end;
    try (by apply ascii_string_decide); try done.
  - clear H1 H1' H3. induction H2 as [|e l [Hv _] _ IH]; [done|].
    split; [|exact IH]. pose proof (ledger_fields_wf e false Hv) as H. by rewrite app_nil_r in H.
  - apply json_ids_wf. unfold sorted_ids. rewrite merge_sort_Permutation.
    apply Forall_forall. intros n Hn. apply H3. set_solver.
Qed.

Lemma ca_restore_get_state s s0 i :
  ca_good s → ca_restore_from_snapshot (ca_get_state s) i s0 = (Ret tt, set_ca_last_applied i s).
Proof.
  intros Hg. unfold ca_restore_from_snapshot, ca_get_state. rewrite let_modify.
  destruct (json_serialize (state_to_json s)) as [|b bs] eqn:E;
    [by apply json_serialize_nonempty in E|].
  rewrite <- E, json_parse_serialize, let_lift by (by apply state_to_json_wf).
  match goal with |- context [json_normalize (state_to_json s)] =>
    change (json_normalize (state_to_json s)) with
      (jobject [("bootstrapped", jbool (_bootstrapped s));
        ("encrypted_ca_key_pem", jstring (_encrypted_ca_key_pem s));
        ("root_cert_pem", jstring (_root_cert_pem s));
        ("ledger", jarray (map json_normalize (map ledger_entry_to_json (_ledger s))));
        ("rpc_tls_ready", jarray (map json_normalize (map juint64 (sorted_ids (_rpc_tls_ready s)))))]) end.
  cbn [as_object]. rewrite let_lift.
  cbn [json_at_const json_lookup String.eqb Ascii.eqb Bool.eqb at_string as_bool as_string as_array outcome_bind].
  do 8 (first [rewrite let_lift | rewrite let_modify]; cbn [as_bool]).
  rewrite let_lift. cbn [as_array]. rewrite let_lift.
  rewrite (let_eval _ _ _ _ _ (restore_ledger_inv _ _ (good_ledger s Hg))).
  rewrite let_modify, let_lift, restore_ready_inv, sorted_ids_set.
  unfold set_rpc_tls_ready. simpl. rewrite (right_id_L ∅ (∪)). by destruct s.
Qed.

#[export] Instance ca_laws : SnapshotLaws ca.
Proof.
  refine {| sm_obs := ca_obs; sm_good := ca_good; sm_ready := λ _ _, True |}.
  - unfold ca_obs. split; [by intros s|by intros s s' ->|by intros s1 s2 s3 -> ->].
  - intros c i s s' H. simpl. unfold ca_apply. rewrite !let_modify.
    replace (set_ca_last_applied i s') with (set_ca_last_applied i s); [done|].
    destruct s, s'. unfold ca_obs in H. simpl in *. unfold set_ca_last_applied in *. simpl in *. congruence.
  - intros s s0 i Hg _. exists (ca_get_state s), (set_ca_last_applied i s).
    split; [done|]. split; [by apply ca_restore_get_state|]. by destruct s.
Defined.
End snapshots.
