(* ===== verification/Doubles.v ===== *)
(** [double]: IEEE binary64 arithmetic as [SpecFloat] computes it, and the
    conversions the code uses. *)

From Stdlib Require Export Floats.SpecFloat.
From S2P Require Import Prelude Types.

Local Open Scope Z_scope.

Abbreviation double64 := spec_float.
Definition double_mul (x y : double64) : double64 := SFmul 53 1024 x y.
Definition double_div (x y : double64) : double64 := SFdiv 53 1024 x y.
Definition double_sub (x y : double64) : double64 := SFsub 53 1024 x y.
Definition double_of_Z (z : Z) : double64 := binary_normalize 53 1024 z 0 false.
Definition double_ltb (x y : double64) : bool := SFltb x y.
Definition double_leb (x y : double64) : bool := SFleb x y.

(** [static_cast<long long>]: truncation, undefined outside the range. *)
Definition long_long_of (x : double64) : outcome Z :=
  match x with
  | S754_zero _ => Ret 0
  | S754_finite s m e =>
      let v := if 0 <=? e then Z.pos m * 2 ^ e else Z.pos m / 2 ^ (- e) in
      let v := if s then - v else v in
      if (- 2 ^ 63 <=? v) && (v <? 2 ^ 63) then Ret v else Undef "double to long long out of range"
  | _ => Undef "double to long long out of range"
  end.

(** The literals of the source. *)
Definition dbl_0 : double64 := double_of_Z 0.
Definition dbl_1 : double64 := double_of_Z 1.
Definition dbl_0_1 : double64 := double_div (double_of_Z 1) (double_of_Z 10).
Definition dbl_1_5 : double64 := double_div (double_of_Z 3) (double_of_Z 2).
Definition dbl_2 : double64 := double_of_Z 2.

(** ** Bounds on rounding

    [fits m e b]: the value [m * 2 ^ e] is at most [b]. *)
Definition fits (m e b : Z) : Prop := m * 2 ^ Z.max e 0 ≤ b * 2 ^ Z.max (- e) 0.

Lemma fits_mul m1 e1 b1 m2 e2 b2 :
  0 ≤ m1 → 0 ≤ m2 → 0 ≤ b1 → 0 ≤ b2 → fits m1 e1 b1 → fits m2 e2 b2 → fits (m1 * m2) (e1 + e2) (b1 * b2).
Proof.
  unfold fits. intros Hm1 Hm2 Hb1 Hb2 H1 H2.
  set (c := Z.max e1 0 + Z.max e2 0 - Z.max (e1 + e2) 0).
  apply Z.mul_le_mono_pos_r with (2 ^ c); [apply Z.pow_pos_nonneg; lia|].
  rewrite <- !Z.mul_assoc, <- !Z.pow_add_r by lia.
  replace (Z.max (e1 + e2) 0 + c) with (Z.max e1 0 + Z.max e2 0) by lia.
  replace (Z.max (- (e1 + e2)) 0 + c) with (Z.max (- e1) 0 + Z.max (- e2) 0) by lia.
  rewrite !Z.pow_add_r by lia.
  replace (m1 * (m2 * (2 ^ Z.max e1 0 * 2 ^ Z.max e2 0)))
    with ((m1 * 2 ^ Z.max e1 0) * (m2 * 2 ^ Z.max e2 0)) by ring.
  replace (b1 * (b2 * (2 ^ Z.max (- e1) 0 * 2 ^ Z.max (- e2) 0)))
    with ((b1 * 2 ^ Z.max (- e1) 0) * (b2 * 2 ^ Z.max (- e2) 0)) by ring.
  apply Z.mul_le_mono_nonneg; try done; apply Z.mul_nonneg_nonneg; lia.
Qed.

Lemma fits_neg m e b : e ≤ 0 → fits m e b ↔ m ≤ b * 2 ^ (- e).
Proof. intros He. unfold fits. rewrite (Z.max_r e), (Z.max_l (- e)) by lia. by rewrite Z.pow_0_r, Z.mul_1_r. Qed.

Lemma digits2_pos_bounds p :
  2 ^ (Z.pos (digits2_pos p) - 1) ≤ Z.pos p < 2 ^ Z.pos (digits2_pos p).
Proof.
  induction p as [p IH|p IH|]; cbn [digits2_pos]; [| |by split].
  all: rewrite Pos2Z.inj_succ; replace (Z.succ (Z.pos (digits2_pos p)) - 1) with (Z.succ (Z.pos (digits2_pos p) - 1)) by lia.
  all: rewrite !Z.pow_succ_r by lia; lia.
Qed.

(** A value below [2 ^ 53] has few digits. *)
Lemma fits_exponent p e b : b < 2 ^ 53 → fits (Z.pos p) e b → Z.pos (digits2_pos p) + e ≤ 53.
Proof.
  intros Hb H. destruct (Z.le_gt_cases (Z.pos (digits2_pos p) + e) 53) as [|Hgt]; [done|exfalso].
  pose proof (digits2_pos_bounds p) as [Hp _]. unfold fits in H.
  assert (2 ^ 53 * 2 ^ Z.max (- e) 0 ≤ Z.pos p * 2 ^ Z.max e 0) as Hlo.
  { rewrite <- Z.pow_add_r by lia. etransitivity; [|apply Z.mul_le_mono_nonneg_r, Hp; lia].
    rewrite <- Z.pow_add_r by lia. apply Z.pow_le_mono_r; lia. }
  assert (0 < 2 ^ Z.max (- e) 0) by (apply Z.pow_pos_nonneg; lia). nia.
Qed.

(** [k] shifts of [m]: the quotient, and bits that tell whether it is exact. *)
Definition shifted (m k : Z) (mrs : shr_record) : Prop :=
  0 ≤ shr_m mrs ∧ shr_m mrs * 2 ^ k ≤ m ∧ (shr_r mrs || shr_s mrs = true → shr_m mrs * 2 ^ k < m).

Lemma shifted_1 m k mrs : 0 ≤ k → shifted m k mrs → shifted m (k + 1) (shr_1 mrs).
Proof.
  intros Hk (H0 & Hle & Hlt). unfold shifted.
  assert (0 < 2 ^ k) as Ht by (apply Z.pow_pos_nonneg; lia).
  assert (∀ q, q * 2 ^ (k + 1) = 2 * q * 2 ^ k) as Ep.
  { intros q. rewrite Z.pow_add_r by lia. change (2 ^ 1) with 2. ring. }
  rewrite Ep. clear Ep. generalize dependent (2 ^ k). intros t Hle Hlt Ht.
  destruct mrs as [q r s]; cbn [shr_m shr_r shr_s] in *.
  destruct q as [|[q|q|]|q]; cbn [shr_1 shr_m shr_r shr_s orb]; [..|lia].
  - split_and!; [lia|lia|]. intros E. specialize (Hlt E). lia.
  - split_and!; lia.
  - split_and!; [lia|lia|]. intros E. specialize (Hlt E). lia.
  - split_and!; lia.
Qed.

Lemma shifted_iter m p : ∀ k mrs, 0 ≤ k → shifted m k mrs → shifted m (k + Z.pos p) (SpecFloat.iter_pos shr_1 p mrs).
Proof.
  induction p as [p IH|p IH|]; intros k mrs Hk H; cbn [SpecFloat.iter_pos].
  - replace (k + Z.pos p~1) with (k + 1 + Z.pos p + Z.pos p) by lia. apply IH; [lia|]. apply IH; [lia|]. by apply shifted_1.
  - replace (k + Z.pos p~0) with (k + Z.pos p + Z.pos p) by lia. apply IH; [lia|]. by apply IH.
  - by apply shifted_1.
Qed.

Lemma shr_fexp_shifted m e mrs e' :
  0 ≤ m → shr_fexp 53 1024 m e loc_Exact = (mrs, e') →
  ∃ n, 0 ≤ n ∧ e' = e + n ∧ shifted m n mrs ∧ (0 < n → e' = fexp 53 1024 (Zdigits2 m + e)).
Proof.
  intros Hm. unfold shr_fexp, shr. set (n := fexp 53 1024 _ - e). cbn [shr_record_of_loc].
  destruct n as [|p|p] eqn:En; intros [= <- <-].
  - exists 0. split_and!; [done|lia| |lia]. unfold shifted; cbn. split_and!; [lia|lia|done].
  - exists (Z.pos p). split_and!; [done|done| |intros _; unfold n in *; lia].
    replace (Z.pos p) with (0 + Z.pos p) by lia. apply shifted_iter; [done|].
    unfold shifted; cbn. split_and!; [lia|lia|done].
  - exists 0. split_and!; [done|lia| |lia]. unfold shifted; cbn. split_and!; [lia|lia|done].
Qed.

Lemma round_bounds m n mrs :
  0 < m → 0 ≤ n → shifted m n mrs →
  let q := round_nearest_even (shr_m mrs) (loc_of_shr_record mrs) in
  shr_m mrs ≤ q ∧ (q - 1) * 2 ^ n < m.
Proof.
  intros Hm Hn (H0 & Hle & Hlt). assert (0 < 2 ^ n) by (apply Z.pow_pos_nonneg; lia).
  destruct mrs as [q [] []]; cbn in *; try (destruct (Z.even q)); (split; [lia|]);
    try specialize (Hlt eq_refl); nia.
Qed.

(** Rounding to the 53 digits does not cross an integer below [2 ^ 53]. *)
Lemma shr_fexp_fits m e b mrs e' :
  0 < m → b < 2 ^ 53 → fits m e b → shr_fexp 53 1024 m e loc_Exact = (mrs, e') →
  0 ≤ shr_m mrs ∧ e' ≤ 971 ∧ shr_m mrs ≤ round_nearest_even (shr_m mrs) (loc_of_shr_record mrs) ∧
  fits (round_nearest_even (shr_m mrs) (loc_of_shr_record mrs)) e' b.
Proof.
  intros Hm Hb Hf E. destruct m as [|p|p]; [lia| |lia].
  destruct (shr_fexp_shifted _ _ _ _ (Pos2Z.is_nonneg p) E) as (n & Hn & -> & Hs & He).
  pose proof (fits_exponent p e b Hb Hf) as Hd. pose proof (Pos2Z.is_pos (digits2_pos p)).
  destruct (round_bounds (Z.pos p) n mrs Hm Hn Hs) as [Hq Hq']. set (q := round_nearest_even _ _) in *.
  split; [apply Hs|]. destruct (Z.eq_dec n 0) as [->|Hpos].
  - split; [lia|]. split; [done|]. rewrite Z.pow_0_r in Hq'. rewrite Z.add_0_r. unfold fits in *.
    assert (0 < 2 ^ Z.max e 0) by (apply Z.pow_pos_nonneg; lia). nia.
  - assert (e + n ≤ 0) as Hen.
    { rewrite He by lia. unfold fexp, emin. cbn [Zdigits2]. lia. }
    split; [lia|]. split; [done|]. apply fits_neg in Hf; [|lia]. apply fits_neg; [done|].
    replace (- e) with (- (e + n) + n) in Hf by lia. rewrite Z.pow_add_r, Z.mul_assoc in Hf by lia.
    assert (0 < 2 ^ n) by (apply Z.pow_pos_nonneg; lia). nia.
Qed.

Lemma binary_round_aux_fits sx m e b :
  0 < m → b < 2 ^ 53 → fits m e b →
  binary_round_aux 53 1024 sx m e loc_Exact = S754_zero sx ∨
  ∃ m' e', binary_round_aux 53 1024 sx m e loc_Exact = S754_finite sx m' e' ∧ fits (Z.pos m') e' b.
Proof.
  intros Hm Hb Hf. unfold binary_round_aux. destruct (shr_fexp _ _ m e _) as [mrs e1] eqn:E1.
  destruct (shr_fexp_fits m e b mrs e1 Hm Hb Hf E1) as (H0 & _ & Hle & Hf1).
  set (q := round_nearest_even _ _) in *. destruct (shr_fexp _ _ q e1 _) as [mrs2 e2] eqn:E2.
  destruct (Z.eq_dec q 0) as [Hq|Hq].
  - destruct (shr_fexp_shifted q e1 mrs2 e2) as (n & Hn & _ & (Hs0 & Hs & _) & _); [lia|done|].
    assert (0 < 2 ^ n) by (apply Z.pow_pos_nonneg; lia).
    assert (shr_m mrs2 = 0) as -> by nia. by left.
  - destruct (shr_fexp_fits q e1 b mrs2 e2) as (H2 & He2 & Hle2 & Hf2); [lia|done|done|done|].
    destruct (shr_m mrs2) as [|p|p] eqn:Ep; [by left| |lia]. right.
    rewrite (proj2 (Z.leb_le e2 (1024 - 53))) by lia. exists p, e2. split; [done|].
    unfold fits in *. assert (0 < 2 ^ Z.max e2 0) by (apply Z.pow_pos_nonneg; lia). nia.
Qed.

Lemma iter_xO m d : Z.pos (Pos.iter xO m d) = Z.pos m * 2 ^ Z.pos d.
Proof.
  induction d as [|d IH] using Pos.peano_ind; [cbn; lia|].
  rewrite Pos.iter_succ, Pos2Z.inj_xO, IH, Pos2Z.inj_succ, Z.pow_succ_r by lia. lia.
Qed.

(** A conversion is at most the number converted. *)
Lemma double_of_Z_fits b :
  0 ≤ b < 2 ^ 53 →
  double_of_Z b = S754_zero false ∨ ∃ m e, double_of_Z b = S754_finite false m e ∧ fits (Z.pos m) e b.
Proof.
  intros [H0 Hb]. unfold double_of_Z. destruct b as [|p|p]; [by left| |lia].
  cbn [binary_normalize]. unfold binary_round, shl_align. rewrite !Z.add_0_r, Z.sub_0_r.
  destruct (fexp 53 1024 _) as [|d|d]; apply binary_round_aux_fits; try lia.
  - apply fits_neg; [lia|]. change (2 ^ - 0) with 1. lia.
  - apply fits_neg; [lia|]. change (2 ^ - 0) with 1. lia.
  - apply fits_neg; [lia|]. rewrite iter_xO. change (- Z.neg d) with (Z.pos d). apply Z.le_refl.
Qed.

(** A draw from a distribution on an interval within [-1, 1]. *)
Definition within (bound x : double64) : Prop :=
  valid_binary 53 1024 x = true ∧ double_leb (SFopp bound) x = true ∧ double_leb x bound = true.

Lemma bounded_mantissa m e : bounded 53 1024 m e = true → Z.pos m < 2 ^ 53.
Proof.
  unfold bounded, canonical_mantissa, fexp. intros [H%Z.eqb_eq _]%andb_true_iff.
  pose proof (digits2_pos_bounds m) as [_ Hm]. eapply Z.lt_le_trans; [exact Hm|].
  apply Z.pow_le_mono_r; lia.
Qed.

(** Order on positive doubles: exponents first. *)
Lemma double_leb_pos m1 e1 m2 e2 :
  double_leb (S754_finite false m1 e1) (S754_finite false m2 e2) = true ↔
  e1 < e2 ∨ e1 = e2 ∧ (m1 ≤ m2)%positive.
Proof.
  unfold double_leb, SFleb, SFcompare. change (Pos.compare_cont Eq m1 m2) with (Pos.compare m1 m2).
  destruct (Z.compare_spec e1 e2), (Pos.compare_spec m1 m2); naive_solver lia.
Qed.

Lemma double_leb_opp m1 e1 m2 e2 :
  double_leb (SFopp (S754_finite false m2 e2)) (S754_finite true m1 e1) =
  double_leb (S754_finite false m1 e1) (S754_finite false m2 e2).
Proof.
  unfold double_leb, SFleb, SFcompare, SFopp, negb. rewrite (Z.compare_antisym e1 e2).
  change (Pos.compare_cont Eq m2 m1) with (Pos.compare m2 m1).
  change (Pos.compare_cont Eq m1 m2) with (Pos.compare m1 m2). rewrite (Pos.compare_antisym m1 m2).
  destruct (e1 ?= e2), (m1 ?= m2)%positive; done.
Qed.

Lemma fits_one m e :
  bounded 53 1024 m e = true → double_leb (S754_finite false m e) dbl_1 = true → fits (Z.pos m) e 1.
Proof.
  intros Hv H. change dbl_1 with (S754_finite false 4503599627370496 (-52)) in H.
  apply double_leb_pos in H. apply bounded_mantissa in Hv. destruct H as [H|[-> H]].
  - apply fits_neg; [lia|]. rewrite Z.mul_1_l. etransitivity; [apply Z.lt_le_incl, Hv|].
    apply Z.pow_le_mono_r; lia.
  - apply fits_neg; [done|]. change (1 * 2 ^ (- -52)) with (Z.pos 4503599627370496). by apply Pos2Z.pos_le_pos.
Qed.

Lemma double_leb_pos_trans m1 e1 m2 e2 m3 e3 :
  double_leb (S754_finite false m1 e1) (S754_finite false m2 e2) = true →
  double_leb (S754_finite false m2 e2) (S754_finite false m3 e3) = true →
  double_leb (S754_finite false m1 e1) (S754_finite false m3 e3) = true.
Proof. rewrite !double_leb_pos. lia. Qed.

Lemma within_one bound x :
  double_leb dbl_0 bound = true → double_leb bound dbl_1 = true → within bound x →
  (∃ s, x = S754_zero s) ∨ ∃ s m e, x = S754_finite s m e ∧ fits (Z.pos m) e 1.
Proof.
  intros H0 H1 (Hv & Hlo & Hhi). change dbl_1 with (S754_finite false 4503599627370496 (-52)) in H1.
  destruct x as [s|[]| |s m e]; [by left; exists s|..]; destruct bound as [[]|[]| |[] mb eb]; try done;
    try (by destruct s).
  right. exists s, m, e. split; [done|]. apply fits_one; [done|].
  eapply double_leb_pos_trans; [|exact H1]. destruct s; [by rewrite <- double_leb_opp|done].
Qed.

(** The product with such a draw, truncated, is no larger than the number. *)
Lemma scaled_bounds bound b x :
  0 ≤ b < 2 ^ 53 → double_leb dbl_0 bound = true → double_leb bound dbl_1 = true → within bound x →
  ∃ a, long_long_of (double_mul (double_of_Z b) x) = Ret a ∧ - b ≤ a ≤ b.
Proof.
  intros Hb H0 H1 Hx. destruct (double_of_Z_fits b Hb) as [->|(m & e & -> & Hm)];
    destruct (within_one bound x H0 H1 Hx) as [[s ->]|(s & mx & ex & -> & Hmx)]; cbn [double_mul SFmul xorb].
  1-3: exists 0; (split; [done|lia]).
  cbv beta delta [double_mul SFmul] iota.
  destruct (binary_round_aux_fits s (Z.pos (m * mx)) (e + ex) b) as [->|(m' & e' & -> & Hf)];
    [lia|lia| |exists 0; split; [done|lia]|].
  { rewrite <- (Z.mul_1_r b), Pos2Z.inj_mul. by apply fits_mul; try lia. }
  cbn [long_long_of]. set (v := if 0 <=? e' then _ else _).
  assert (0 ≤ v ≤ b) as Hv.
  { unfold v. destruct (Z.leb_spec 0 e').
    - unfold fits in Hf. rewrite Z.max_l, Z.max_r in Hf by lia. split; [|lia].
      apply Z.mul_nonneg_nonneg; [lia|apply Z.pow_nonneg; lia].
    - apply fits_neg in Hf; [|lia]. assert (0 < 2 ^ (- e')) by (apply Z.pow_pos_nonneg; lia).
      split; [apply Z.div_pos; lia|]. apply Z.div_le_upper_bound; lia. }
  clearbody v. destruct s; rewrite (proj2 (andb_true_iff _ _));
    first [(eexists; split; [reflexivity|lia])|rewrite Z.leb_le, Z.ltb_lt; lia].
Qed.

(** Products of nonnegative doubles are not negative. *)
Definition nonneg_double (x : double64) : Prop :=
  x = S754_zero false ∨ x = S754_infinity false ∨ ∃ m e, x = S754_finite false m e.

Lemma binary_round_aux_sign m e :
  0 < m → nonneg_double (binary_round_aux 53 1024 false m e loc_Exact).
Proof.
  intros Hm. unfold binary_round_aux, nonneg_double. destruct (shr_fexp _ _ m e _) as [mrs e1] eqn:E1.
  destruct (shr_fexp_shifted m e mrs e1) as (n & Hn & _ & Hs & _); [lia|done|].
  destruct (round_bounds m n mrs Hm Hn Hs) as [Hq _]. set (q := round_nearest_even _ _) in *.
  destruct (shr_fexp _ _ q e1 _) as [mrs2 e2] eqn:E2.
  destruct (shr_fexp_shifted q e1 mrs2 e2) as (n2 & _ & _ & (H0 & _) & _); [destruct Hs; lia|done|].
  destruct (shr_m mrs2); [by left| |lia]. destruct (_ <=? _); eauto.
Qed.

Lemma double_of_Z_nonneg b : 0 ≤ b → nonneg_double (double_of_Z b).
Proof.
  intros Hb. destruct b as [|p|p]; [by left| |lia]. unfold double_of_Z. cbn [binary_normalize]. unfold binary_round.
  destruct (shl_align _ _ _). by apply binary_round_aux_sign.
Qed.

Lemma product_nonneg b x v :
  0 ≤ b → nonneg_double x → long_long_of (double_mul (double_of_Z b) x) = Ret v → 0 ≤ v.
Proof.
  intros Hb Hx. assert (∀ y, nonneg_double y → long_long_of y = Ret v → 0 ≤ v) as Hl.
  { intros y [->|[->|(m & e & ->)]]; cbn [long_long_of]; [intros [= <-]; lia|done|].
    set (w := if 0 <=? e then _ else _). assert (0 ≤ w).
    { unfold w. destruct (Z.leb_spec 0 e); [apply Z.mul_nonneg_nonneg; [lia|apply Z.pow_nonneg; lia]|].
      apply Z.div_pos; [lia|]. apply Z.pow_pos_nonneg; lia. }
    destruct (_ && _); [|done]. by intros [= <-]. }
  destruct (double_of_Z_nonneg b Hb) as [->|[->|(m & e & ->)]], Hx as [->|[->|(m' & e' & ->)]]; try done;
    try (by intros [= <-]). unfold double_mul, SFmul. by apply Hl, binary_round_aux_sign.
Qed.
