(* ===== verification/ErrorHandler.v ===== *)
(** Retrying remote calls ([error_handler] of [error_handler.hpp]): the
    classification of errors by their message, the retry policies, and the chain
    of attempts and delays.

    An operation is the environment: what each attempt settles with, whether the
    owner was stopped when a continuation ran, and the random draw of each delay
    are arguments. *)

From Stdlib Require Import Ascii.
From S2P Require Import Prelude Types Doubles.

Local Open Scope Z_scope.

(** ** Messages *)

Definition to_lower (c : ascii) : ascii :=
  let n := nat_of_ascii c in
  if (65 <=? n)%nat && (n <=? 90)%nat then ascii_of_nat (n + 32) else c.

Fixpoint lowercase (s : string) : string :=
  match s with
  | EmptyString => EmptyString
  | String c s => String (to_lower c) (lowercase s)
  end.

(** [error_msg.find(word) != npos] *)
Fixpoint contains (word s : string) : bool :=
  String.prefix word s ||
  match s with EmptyString => false | String _ s' => contains word s' end.

Definition contains_any (words : list string) (s : string) : bool :=
  existsb (λ w, contains w s) words.

(** ** Classification *)

Inductive error_type : Type :=
  | network_timeout | network_unreachable | connection_refused | serialization_error
  | protocol_error | temporary_failure | permanent_failure | unknown_error.

Inductive timeout_type : Type :=
  | tt_network_delay | tt_network_timeout | tt_connection_failure | tt_serialization_timeout
  | tt_unknown_timeout.

#[export] Instance error_type_eq_dec : EqDecision error_type.
Proof. solve_decision. Defined.
#[export] Instance timeout_type_eq_dec : EqDecision timeout_type.
Proof. solve_decision. Defined.

Record error_classification : Type := mk_classification {
  ec_type : error_type;
  should_retry : bool;
  description : string;
  timeout_classification : option timeout_type
}.

(** [classify_timeout], on the lowercase message. *)
Definition classify_timeout (error_msg : string) : timeout_type :=
  if contains_any ["serialization"; "deserialization"; "encoding"; "decoding"; "parse"] error_msg
  then tt_serialization_timeout
  else if contains "connection" error_msg &&
          contains_any ["dropped"; "closed"; "reset"; "refused"; "lost"] error_msg
  then tt_connection_failure
  else if contains_any ["slow"; "delay"; "partial"; "incomplete"] error_msg
  then tt_network_delay
  else if contains_any ["no response"; "no reply"; "rpc timeout"; "request timeout"; "operation timeout"]
            error_msg
  then tt_network_timeout
  else tt_network_timeout.

Definition classify_error (what : string) : error_classification :=
  let error_msg := lowercase what in
  let has_timeout_keyword :=
    contains_any ["timeout"; "timed out"; "timed-out"; "time out"; "time-out"; "time_out"] error_msg in
  let is_config_context :=
    contains_any ["set timeout"; "timeout value"; "timeout parameter"; "timing out"] error_msg in
  if has_timeout_keyword && negb is_config_context then
    mk_classification network_timeout true "Network operation timeout" (Some (classify_timeout error_msg))
  else if contains_any ["unreachable"; "no route to host"; "network is unreachable"] error_msg then
    mk_classification network_unreachable true "Target node unreachable" None
  else if contains_any ["connection refused"; "refused"] error_msg then
    mk_classification connection_refused true "Connection actively refused" None
  else if contains_any ["serialization"; "deserialization"; "parse"; "invalid format"] error_msg then
    mk_classification serialization_error false "Message serialization/deserialization failed" None
  else if contains_any ["checksum"; "validation failed"; "corruption"; "corrupt"; "invalid data"] error_msg
  then mk_classification serialization_error false "Data corruption or validation failure" None
  else if contains_any ["protocol"; "invalid term"; "invalid log index"; "invalid candidate"; "malformed";
                        "invalid request"] error_msg
  then mk_classification protocol_error false "Raft protocol violation" None
  else if contains_any ["disk full"; "out of memory"; "memory allocation failure"; "no space left"] error_msg
  then mk_classification permanent_failure false "Resource exhaustion" None
  else if contains_any ["authentication failed"; "permission denied"; "access denied"; "unauthorized";
                        "forbidden"] error_msg
  then mk_classification permanent_failure false "Authentication or authorization failure" None
  else if contains "node stopped" error_msg
  then mk_classification permanent_failure false "Node stopped — retry chain aborted" None
  else if contains_any ["temporary"; "try again"; "busy"] error_msg
  then mk_classification temporary_failure true "Temporary failure" None
  else mk_classification unknown_error true ("Unknown error: " +:+ what) None.

Definition handle_network_timeout (what : string) : bool :=
  let c := classify_error what in
  bool_decide (ec_type c = network_timeout) && should_retry c.

Definition handle_network_error (what : string) : bool :=
  let c := classify_error what in
  (bool_decide (ec_type c = network_unreachable) || bool_decide (ec_type c = connection_refused) ||
   bool_decide (ec_type c = temporary_failure)) && should_retry c.

Definition handle_serialization_error (what : string) : bool :=
  let c := classify_error what in
  bool_decide (ec_type c = serialization_error) && should_retry c.

(** [network_errors >= recent_errors.size() * 2 / 3] *)
Definition detect_network_partition (recent_errors : list error_classification) : bool :=
  if (length recent_errors <? 3)%nat then false
  else
    let network_errors := length (filter (λ c, ec_type c = network_timeout ∨
      ec_type c = network_unreachable ∨ ec_type c = connection_refused) recent_errors) in
    (length recent_errors * 2 / 3 <=? network_errors)%nat.

(** ** Retry policies *)

Record retry_policy : Type := mk_policy {
  initial_delay : Z;
  max_delay : Z;
  backoff_multiplier : double64;
  jitter_factor : double64;
  max_attempts : N
}.

Definition default_policy : retry_policy := mk_policy 100 5000 dbl_2 dbl_0_1 5.

Definition is_valid (p : retry_policy) : bool :=
  (0 <? initial_delay p) && (initial_delay p <=? max_delay p) &&
  double_ltb dbl_1 (backoff_multiplier p) && double_leb dbl_0 (jitter_factor p) &&
  double_leb (jitter_factor p) dbl_1 && (0 <? max_attempts p)%N.

Record handler : Type := mk_handler { _retry_policies : gmap string retry_policy }.

Definition set_retry_policy (operation : string) (p : retry_policy) : M handler () :=
  if negb (is_valid p)
  then mthrow (invalid_argument ("Invalid retry policy for operation: " +:+ operation))
  else mmodify (λ h, mk_handler (<[operation := p]> (_retry_policies h))).

Definition get_retry_policy (operation : string) (h : handler) : retry_policy :=
  default default_policy (_retry_policies h !! operation).

Definition default_policies : list (string * retry_policy) :=
  [("heartbeat", mk_policy 50 1000 dbl_1_5 dbl_0_1 3);
   ("append_entries", mk_policy 100 5000 dbl_2 dbl_0_1 5);
   ("request_vote", mk_policy 100 2000 dbl_2 dbl_0_1 3);
   ("install_snapshot", mk_policy 500 30000 dbl_2 dbl_0_1 10)].

(** The constructor. *)
Definition initial_handler : outcome () * handler :=
  mfor default_policies (λ p, set_retry_policy p.1 p.2) (mk_handler ∅).

(** ** Delays *)

(** The back-off loop, [n] multiplications. *)
Fixpoint back_off_delay (n : nat) (multiplier : double64) (base : Z) : outcome Z :=
  match n with
  | O => Ret base
  | S n' =>
      let? next := long_long_of (double_mul (double_of_Z base) multiplier) in
      back_off_delay n' multiplier next
  end.

(** [jitter] is the draw from [-jitter_factor, jitter_factor). *)
Definition calculate_delay (p : retry_policy) (attempt : N) (jitter : double64) : outcome Z :=
  let? base_delay := back_off_delay (N.to_nat attempt - 1) (backoff_multiplier p) (initial_delay p) in
  let base_delay := Z.min base_delay (max_delay p) in
  let? base_delay :=
    (if double_ltb dbl_0 (jitter_factor p) then
       let? jitter_amount := long_long_of (double_mul (double_of_Z base_delay) jitter) in
       Ret (base_delay + jitter_amount)
     else Ret base_delay) in
  Ret (Z.max base_delay 1).

(** ** The chain of attempts *)

Section retry.
Context {Result : Type}.

(** What an attempt's future settles with, or that calling the operation threw
    before there was a future; exceptions that are not [std::exception] carry no
    message. *)
Inductive attempt_result : Type :=
  | attempt_value (r : Result)
  | attempt_error (what : string)
  | attempt_unknown
  | attempt_throws (what : option string).

(** One round of the environment: the attempt's result, whether the owner was
    stopped when the result, and then the delay, arrived, and the jitter drawn. *)
Record round : Type := mk_round {
  result : attempt_result;
  stopped_at_result : bool;
  stopped_at_delay : bool;
  jitter : double64
}.

(** What the returned future settles with, or that the call itself threw. *)
Inductive final_result : Type :=
  | final_value (r : Result)
  | final_error (what : string)
  | final_unknown
  | call_threw (what : option string).

Definition settle (r : attempt_result) : final_result :=
  match r with
  | attempt_value v => final_value v
  | attempt_error w => final_error w
  | attempt_unknown => final_unknown
  | attempt_throws w => call_threw w
  end.

(** A call made by a continuation: what it throws fails the future. *)
Definition in_continuation (r : final_result) : final_result :=
  match r with
  | call_threw (Some w) => final_error w
  | call_threw None => final_unknown
  | other => other
  end.

(** The delay before the next attempt, or [None] when the error is final. *)
Definition retry_delay (p : retry_policy) (attempt : N) (what : string) (draw : double64) :
    outcome (option Z) :=
  let c := classify_error what in
  if bool_decide (timeout_classification c = Some tt_serialization_timeout) then Ret None
  else if negb (should_retry c) || (max_attempts p <=? attempt)%N then Ret None
  else
    match timeout_classification c with
    | Some tt_network_delay => Ret (Some 10)
    | Some tt_serialization_timeout => Ret None
    | _ => let? d := calculate_delay p attempt draw in Ret (Some d)
    end.

(** The delays waited and the final result.  Attempt [attempt + k] runs in round
    [k]; no attempt follows attempt [max_attempts], which bounds the rounds
    ([execute_chain]). *)
Fixpoint execute_with_retry_impl (fuel : nat) (p : retry_policy) (attempt : N)
    (rounds : nat → round) : outcome (list Z * final_result) :=
  match fuel with
  | O => Undef "fuel"
  | S fuel' =>
      let r := rounds O in
      if stopped_at_result r then Ret ([], settle (result r)) else
      match result r with
      | attempt_error what =>
          let? next := retry_delay p attempt what (jitter r) in
          match next with
          | None => Ret ([], final_error what)
          | Some delay =>
              if stopped_at_delay r
              then Ret ([delay], final_error "retry abandoned: owner stopped")
              else
                let? (delays, final) :=
                  execute_with_retry_impl fuel' p (attempt + 1)%N (λ k, rounds (S k)) in
                Ret (delay :: delays, in_continuation final)
          end
      | other => Ret ([], settle other)
      end
  end.

Definition execute_with_retry (operation_name : string) (custom_policy : option retry_policy)
    (rounds : nat → round) (h : handler) : outcome (list Z * final_result) :=
  let p := default (get_retry_policy operation_name h) custom_policy in
  if negb (is_valid p)
  then Ret ([], final_error ("Invalid retry policy for operation: " +:+ operation_name))
  else execute_with_retry_impl (N.to_nat (max_attempts p)) p 1 rounds.
End retry.

(** ** What a chain of retries does *)

(** Errors that are worth another attempt. *)
Definition retryable (what : string) : bool :=
  should_retry (classify_error what) &&
  negb (bool_decide (timeout_classification (classify_error what) = Some tt_serialization_timeout)).

Section chain.
Context {Result : Type} (p : retry_policy).
Implicit Types rounds : nat → @round Result.

(** The multiplications of the back-off stay in the range of [long long]. *)
Definition backoff_defined : Prop :=
  ∀ n, (N.of_nat n + 1 < max_attempts p)%N →
       ∃ d, back_off_delay n (backoff_multiplier p) (initial_delay p) = Ret d.

(** The draws are those of the distribution on
    [-jitter_factor, jitter_factor). *)
Definition draws_within rounds : Prop := ∀ k, within (jitter_factor p) (jitter (rounds k)).

(** The largest delay: the cap, doubled at most by the jitter, or the fixed
    delay after a slow answer. *)
Definition delay_bound : Z :=
  Z.max 10 (if double_ltb dbl_0 (jitter_factor p) then 2 * max_delay p else max_delay p).

Lemma is_valid_spec :
  is_valid p = true →
  0 < initial_delay p ≤ max_delay p ∧ nonneg_double (backoff_multiplier p) ∧
  double_leb dbl_0 (jitter_factor p) = true ∧ double_leb (jitter_factor p) dbl_1 = true ∧
  (0 < max_attempts p)%N.
Proof.
  unfold is_valid. rewrite !andb_true_iff, Z.ltb_lt, Z.leb_le, N.ltb_lt.
  intros (((((H1 & H2) & H3) & H4) & H5) & H6). split_and!; try done.
  unfold nonneg_double. destruct (backoff_multiplier p) as [[]|[]| |[] m e]; vm_compute in H3; eauto; done.
Qed.

Lemma back_off_delay_nonneg n multiplier base d :
  nonneg_double multiplier → 0 ≤ base → back_off_delay n multiplier base = Ret d → 0 ≤ d.
Proof.
  intros Hm. revert base. induction n as [|n IH]; intros base Hb; cbn [back_off_delay]; [by intros [= <-]|].
  destruct (long_long_of _) as [v| |] eqn:Ev; [|done..]. cbn [outcome_bind].
  apply IH. by eapply product_nonneg.
Qed.

(** The delay of an attempt: at least a millisecond, and below the cap up to
    the jitter. *)
Lemma calculate_delay_bounds attempt draw :
  is_valid p = true → max_delay p < 2 ^ 53 → backoff_defined → within (jitter_factor p) draw →
  (1 ≤ attempt < max_attempts p)%N →
  ∃ d, calculate_delay p attempt draw = Ret d ∧ 1 ≤ d ≤ delay_bound.
Proof.
  intros Hv Hmax Hdef Hdraw Ha. destruct (is_valid_spec Hv) as (Hi & Hm & Hj0 & Hj1 & _).
  destruct (Hdef (N.to_nat attempt - 1)%nat) as [d Ed]; [lia|]. unfold calculate_delay, delay_bound.
  rewrite Ed. cbn [outcome_bind].
  assert (0 ≤ d) as Hd by (eapply back_off_delay_nonneg; [exact Hm| |exact Ed]; lia).
  destruct (double_ltb dbl_0 (jitter_factor p)).
  - destruct (scaled_bounds (jitter_factor p) (Z.min d (max_delay p)) draw) as (a & Ea & Hb); [lia|done..|].
    rewrite Ea. cbn [outcome_bind]. eexists. split; [reflexivity|]. lia.
  - cbn [outcome_bind]. eexists. split; [reflexivity|]. lia.
Qed.

Lemma retry_delay_spec attempt what draw :
  is_valid p = true → max_delay p < 2 ^ 53 → backoff_defined → within (jitter_factor p) draw →
  (1 ≤ attempt)%N →
  ∃ next, retry_delay p attempt what draw = Ret next ∧
    (is_Some next ↔ retryable what = true ∧ (attempt < max_attempts p)%N) ∧
    ∀ d, next = Some d → 1 ≤ d ≤ delay_bound.
Proof.
  intros Hv Hmax Hdef Hdraw Ha. unfold retry_delay, retryable.
  destruct (classify_error what) as [ty retry desc tc]; cbn [should_retry timeout_classification].
  case_bool_decide as Hs.
  { exists None. split; [done|]. rewrite andb_false_r. split; [|done].
    split; [by intros []|naive_solver]. }
  cbn [negb]. rewrite andb_true_r.
  destruct (N.leb_spec (max_attempts p) attempt) as [Hm|Hm].
  { rewrite orb_true_r. exists None. split; [done|]. split; [|done].
    split; [by intros []|intros [_ ?]; lia]. }
  rewrite orb_false_r. destruct retry; cbn [negb].
  2:{ exists None. split; [done|]. split; [|done]. split; [by intros []|naive_solver]. }
  destruct (calculate_delay_bounds attempt draw) as (d & Ed & Hb); [done..|].
  rewrite Ed. cbn [outcome_bind]. assert (1 ≤ 10 ≤ delay_bound) by (unfold delay_bound; lia).
  destruct tc as [[]|]; try congruence; eexists; (split; [reflexivity|]);
    (split; [split; [done|intros _; eexists; reflexivity]|intros ? [= <-]; lia]).
Qed.

(** The last round in which a delay was waited. *)
Definition abandoned rounds (delays : list Z) : Prop :=
  match length delays with
  | O => False
  | S n => stopped_at_delay (rounds n) = true
  end.

(** The outcome of a chain that starts with attempt [attempt]: the attempts stay
    within the policy, every attempt but the last failed with a retryable error,
    every delay is within its bounds; the result is that of the last attempt,
    which is final for a reason, unless the owner was stopped during the last
    delay.  An operation that throws when it is called is not called again: the
    first attempt throws to the caller, a later one fails the future. *)
Record chain_ok (attempt : N) rounds (delays : list Z) (final : final_result) : Prop := mk_chain_ok {
  chain_attempts : (attempt + N.of_nat (length delays) ≤ max_attempts p)%N;
  chain_retries k : (k < length delays)%nat →
    ∃ what, result (rounds k) = attempt_error what ∧ retryable what = true;
  chain_delays : Forall (λ d, 1 ≤ d ≤ delay_bound) delays;
  chain_final :
    let last := rounds (length delays) in
    abandoned rounds delays ∧ final = final_error "retry abandoned: owner stopped" ∨
    final = (if decide (delays = []) then settle (result last) else in_continuation (settle (result last))) ∧
    (stopped_at_result last = true ∨
     ∀ what, result last = attempt_error what →
       retryable what = false ∨ (attempt + N.of_nat (length delays) = max_attempts p)%N)
}.

Lemma chain_stop attempt rounds :
  (attempt ≤ max_attempts p)%N →
  (stopped_at_result (rounds O) = true ∨
   ∀ what, result (rounds O) = attempt_error what →
     retryable what = false ∨ attempt = max_attempts p) →
  chain_ok attempt rounds [] (settle (result (rounds O))).
Proof.
  intros Ha Hs. constructor; cbn [length]; [lia|intros; lia|constructor|]. right.
  rewrite decide_True by done. split; [done|]. cbn [N.of_nat].
  rewrite N.add_0_r. exact Hs.
Qed.

Lemma in_continuation_idem (r : @final_result Result) : in_continuation (in_continuation r) = in_continuation r.
Proof. by destruct r as [| | |[]]. Qed.

Lemma chain_step attempt rounds what d delays final :
  result (rounds O) = attempt_error what → retryable what = true → 1 ≤ d ≤ delay_bound →
  chain_ok (attempt + 1) (λ k, rounds (S k)) delays final →
  chain_ok attempt rounds (d :: delays) (in_continuation final).
Proof.
  intros Hr Hw Hd [H1 H2 H3 H4]. constructor; cbn [length].
  - lia.
  - intros [|k] Hk; [by exists what|]. apply H2. lia.
  - by constructor.
  - replace (attempt + N.of_nat (S (length delays)))%N with (attempt + 1 + N.of_nat (length delays))%N by lia.
    destruct H4 as [[Ha ->]|[-> H4]]; [left; split; [|done]|right; split; [|done]].
    + unfold abandoned in *. cbn [length]. by destruct (length delays).
    + rewrite (decide_False (P := d :: delays = [])) by done. cbn [length].
      destruct (decide (delays = [])); [done|]. apply in_continuation_idem.
Qed.

Lemma execute_chain fuel attempt rounds :
  is_valid p = true → max_delay p < 2 ^ 53 → backoff_defined →
  (1 ≤ attempt ≤ max_attempts p)%N → (max_attempts p < attempt + N.of_nat fuel)%N →
  draws_within rounds →
  ∃ delays final, execute_with_retry_impl fuel p attempt rounds = Ret (delays, final) ∧
                  chain_ok attempt rounds delays final.
Proof.
  intros Hv Hmax Hdef. revert attempt rounds.
  induction fuel as [|fuel IH]; intros attempt rounds Ha Hf Hd; [lia|].
  cbn [execute_with_retry_impl]. destruct (stopped_at_result (rounds O)) eqn:Es.
  { eexists _, _. split; [done|]. apply chain_stop; [lia|by left]. }
  destruct (result (rounds O)) as [r|what| |what] eqn:Er.
  1,3,4: eexists _, _; (split; [done|]); rewrite <- Er; apply chain_stop; [lia|right; intros; congruence].
  destruct (retry_delay_spec attempt what (jitter (rounds O))) as (next & En & Hn & Hpos).
  1-5: first [done|apply Hd|lia].
  rewrite En. cbn [outcome_bind]. destruct next as [d|].
  2:{ eexists _, _. split; [done|]. change (final_error what) with (settle (Result := Result) (attempt_error what)).
      rewrite <- Er. apply chain_stop; [lia|]. right. intros what' E.
      rewrite Er in E. injection E as <-.
      destruct (retryable what) eqn:Ew; [|by left]. right.
      destruct (decide (attempt < max_attempts p)%N) as [Hlt|]; [|lia].
      by destruct (proj2 Hn (conj eq_refl Hlt)). }
  destruct (proj1 Hn) as [Hw Hm]; [by eexists|]. specialize (Hpos d eq_refl).
  destruct (stopped_at_delay (rounds O)) eqn:Ed.
  { eexists _, _. split; [done|]. constructor; cbn [length].
    - lia.
    - intros [|k] Hk; [by exists what|lia].
    - by apply Forall_singleton.
    - by left. }
  destruct (IH (attempt + 1)%N (λ k, rounds (S k))) as (delays & final & E & H); [lia|lia| |].
  { intros k. apply Hd. }
  rewrite E. cbn [outcome_bind]. eexists _, _. split; [done|]. by apply chain_step with what.
Qed.
End chain.

(** C36. Retries terminate within the policy.  Let the policy be valid, its cap
    be below [2 ^ 53] milliseconds, the multiplications of the back-off stay in
    the range of [long long], and the jitter be drawn from the distribution's
    interval.  Then the chain of attempts ends with a result after at most
    [max_attempts] attempts; every attempt before the last failed with an error
    that the classification calls retryable; every delay is at least a
    millisecond and at most twice [max_delay] ([max_delay] without jitter), or
    the ten milliseconds after a slow answer; and the result handed out is that
    of the last attempt (a value, a final error, the error of attempt
    [max_attempts], or what calling the operation threw, which is never
    retried), unless the owner was stopped. *)
Theorem retries_terminate_within_policy {Result} (operation_name : string)
    (custom_policy : option retry_policy) (rounds : nat → @round Result) (h : handler) :
  let p := default (get_retry_policy operation_name h) custom_policy in
  is_valid p = true → max_delay p < 2 ^ 53 → backoff_defined p → draws_within p rounds →
  ∃ delays final, execute_with_retry operation_name custom_policy rounds h = Ret (delays, final) ∧
                  chain_ok p 1 rounds delays final.
Proof.
  intros p Hv Hmax Hdef Hd. unfold execute_with_retry. fold p. rewrite Hv. cbn [negb].
  destruct (is_valid_spec p Hv) as (_ & _ & _ & _ & Ha). apply execute_chain; [done|done|done|lia|lia|done].
Qed.

(** An operation that times out twice and then returns, under the policy of
    AppendEntries with the jitter draws 0. *)
Definition sample_rounds (k : nat) : @round N :=
  mk_round (if (k <? 2)%nat then attempt_error "RPC Timeout" else attempt_value 7%N) false false dbl_0.

Example sample_chain :
  execute_with_retry "append_entries" None sample_rounds initial_handler.2
  = Ret ([100; 200], final_value 7%N).
Proof. vm_compute. reflexivity. Qed.

Lemma retries_terminate_within_policy_witness :
  ∃ delays final,
    execute_with_retry "append_entries" None sample_rounds initial_handler.2 = Ret (delays, final) ∧
    (1 + N.of_nat (length delays) ≤ 5)%N ∧ Forall (λ d, 1 ≤ d ≤ 10000) delays.
Proof.
  destruct (retries_terminate_within_policy "append_entries" None sample_rounds initial_handler.2)
    as (delays & final & E & H).
  - vm_compute. reflexivity.
  - vm_compute. reflexivity.
  - intros n Hn. change (N.of_nat n + 1 < 5)%N in Hn.
    destruct n as [|[|[|[|n]]]]; [..|lia]; eexists; vm_compute; reflexivity.
  - intros k. unfold within. split_and!; vm_compute; reflexivity.
  - exists delays, final. split; [exact E|]. split; [exact (chain_attempts _ _ _ _ _ H)|].
    exact (chain_delays _ _ _ _ _ H).
Defined.

(** An operation that throws when it is called. *)
Example thrown_call_is_not_retried :
  execute_with_retry "append_entries" None
    (λ _, mk_round (attempt_throws (Some "RPC Timeout")) false false dbl_0 : @round N) initial_handler.2
  = Ret ([], call_threw (Some "RPC Timeout")).
Proof. vm_compute. reflexivity. Qed.

(** The cap is applied after all multiplications: a valid policy with many
    attempts leaves the range of [long long] first. *)
Example long_chain_overflows :
  let p := mk_policy 100 5000 dbl_2 dbl_0_1 100 in
  is_valid p = true ∧
  calculate_delay p 64 dbl_0 = Undef "double to long long out of range".
Proof. vm_compute. by split. Qed.

(** ** raft_error_handler: one handler for each call, shared by the process *)

Record raft_error_handler : Type := mk_raft_handlers {
  append_entries_handler : handler; request_vote_handler : handler; install_snapshot_handler : handler
}.

(** The function-local statics, as their first use makes them. *)
Definition initial_handlers : raft_error_handler :=
  mk_raft_handlers initial_handler.2 initial_handler.2 initial_handler.2.

Definition on_append_entries (m : M handler ()) : M raft_error_handler () := λ s,
  let '(r, h) := m (append_entries_handler s) in (r, mk_raft_handlers h (request_vote_handler s) (install_snapshot_handler s)).
Definition on_request_vote (m : M handler ()) : M raft_error_handler () := λ s,
  let '(r, h) := m (request_vote_handler s) in (r, mk_raft_handlers (append_entries_handler s) h (install_snapshot_handler s)).
Definition on_install_snapshot (m : M handler ()) : M raft_error_handler () := λ s,
  let '(r, h) := m (install_snapshot_handler s) in (r, mk_raft_handlers (append_entries_handler s) (request_vote_handler s) h).

Definition configure_all_handlers (heartbeat append_entries vote snapshot : retry_policy) : M raft_error_handler () :=
  do! on_append_entries (set_retry_policy "append_entries" append_entries) in
  do! on_append_entries (set_retry_policy "heartbeat" heartbeat) in
  do! on_request_vote (set_retry_policy "request_vote" vote) in
  on_install_snapshot (set_retry_policy "install_snapshot" snapshot).

(** Valid policies are all in force afterwards and no other policy changes.  The
    policies are set one after the other: if one is not valid the call throws, and
    the ones before it stay in force. *)
Theorem handlers_configured heartbeat append vote snapshot s :
  let '(r, s') := configure_all_handlers heartbeat append vote snapshot s in
  (Forall (λ p, is_valid p = true) [append; heartbeat; vote; snapshot] →
   r = Ret tt ∧
   get_retry_policy "append_entries" (append_entries_handler s') = append ∧
   get_retry_policy "heartbeat" (append_entries_handler s') = heartbeat ∧
   get_retry_policy "request_vote" (request_vote_handler s') = vote ∧
   get_retry_policy "install_snapshot" (install_snapshot_handler s') = snapshot ∧
   ∀ operation, operation ≠ "append_entries" → operation ≠ "heartbeat" →
     get_retry_policy operation (append_entries_handler s') = get_retry_policy operation (append_entries_handler s)) ∧
  (is_valid append = false → s' = s ∧ ∃ e, r = Throw e) ∧
  (is_valid append = true → is_valid heartbeat = false →
   (∃ e, r = Throw e) ∧ get_retry_policy "append_entries" (append_entries_handler s') = append).
Proof.
  unfold configure_all_handlers, mlet, on_append_entries, on_request_vote, on_install_snapshot, set_retry_policy, mmodify, mthrow.
  destruct s as [[ae] [rv] [snap]]. unfold get_retry_policy.
  destruct (is_valid append) eqn:Ea; cbn [negb].
  2: { split; [|split]; [|by eauto|done]. intros Hv. apply Forall_cons in Hv as [? _]. congruence. }
  destruct (is_valid heartbeat) eqn:Eh; cbn [negb].
  2: { split; [|split]; [|done|]. { intros Hv. do 2 apply Forall_cons in Hv as [? Hv]. congruence. }
       intros _ _. split; [by eexists|]. cbn. by rewrite lookup_insert_eq. }
  destruct (is_valid vote) eqn:Ev; cbn [negb].
  2: { split; [|done]. intros Hv. do 3 apply Forall_cons in Hv as [? Hv]. congruence. }
  destruct (is_valid snapshot) eqn:Es; cbn [negb].
  2: { split; [|done]. intros Hv. do 4 apply Forall_cons in Hv as [? Hv]. congruence. }
  split; [|done]. intros _. cbn. rewrite !lookup_insert_eq. rewrite lookup_insert_ne, lookup_insert_eq by done.
  split_and!; try done. intros operation H1 H2. by rewrite !lookup_insert_ne by congruence.
Qed.
