(* ===== verification/FutureCollector.v ===== *)
(** Collecting the answers of several peers ([raft_future_collector] of
    [future_collector.hpp]).

    A settled future is a value or an exception.  The collectors that wait for
    all futures act on the list of settled futures; the one that resolves early
    is a callback per future, run in the order in which the futures settle. *)

From S2P Require Import Prelude Types.

Section collector.
Context {T : Type}.

(** [kythira::Try<T>], after [within(timeout)]. *)
Inductive settled_try : Type :=
  | try_value (v : T)
  | try_exception (e : exn).

Definition has_value (t : settled_try) : bool :=
  match t with try_value _ => true | try_exception _ => false end.

Definition values (results : list settled_try) : list T :=
  omap (λ t, match t with try_value v => Some v | try_exception _ => None end) results.

(** ** Waiting for all *)

(** [collect_majority], given how each future settled, in input order. *)
Definition collect_majority (results : list settled_try) : outcome (list T) :=
  match results with
  | [] => Throw (future_collection_exception "collect_majority" 0)
  | _ =>
      let majority_count := length results / 2 + 1 in
      let failed_count := length (filter (λ t, has_value t = false) results) in
      if (majority_count <=? length (values results))%nat then Ret (values results)
      else Throw (future_collection_exception "collect_majority" (N.of_nat failed_count))
  end.

Definition collect_all_with_timeout (results : list settled_try) : list settled_try := results.

(** The [all] strategy: the values, or the first exception. *)
Fixpoint all_or_first_exception (results : list settled_try) : outcome (list T) :=
  match results with
  | [] => Ret []
  | try_value v :: rest => let? vs := all_or_first_exception rest in Ret (v :: vs)
  | try_exception e :: _ => Throw e
  end.

(** ** Resolving early *)

(** [shared_state]; [fulfilled] lists what the promise was given. *)
Record shared_state : Type := mk_shared {
  successes : list T;
  remaining : nat;
  settled : bool;
  fulfilled : list (outcome (list T))
}.

Definition collection_failed : outcome (list T) :=
  Throw (future_collection_exception "collect_n_successes_with_timeout" 0).

(** The callback of one future. *)
Definition on_settled (required_successes : nat) (st : shared_state) (result : settled_try) :
    shared_state :=
  if settled st then st
  else
    let remaining' := remaining st - 1 in
    let successes' := match result with
                      | try_value v => successes st ++ [v]
                      | try_exception _ => successes st
                      end in
    if (required_successes <=? length successes')%nat
    then mk_shared successes' remaining' true (fulfilled st ++ [Ret successes'])
    else if (length successes' + remaining' <? required_successes)%nat
    then mk_shared successes' remaining' true (fulfilled st ++ [collection_failed])
    else mk_shared successes' remaining' false (fulfilled st).

(** What the returned future was given after the futures in [order] settled, of
    [count] futures in total. *)
Definition collect_n_successes_with_timeout (count required_successes : nat)
    (order : list settled_try) : list (outcome (list T)) :=
  match required_successes with
  | O => [Ret []]
  | _ =>
      if (count =? 0)%nat || (count <? required_successes)%nat then [collection_failed]
      else fulfilled (foldl (on_settled required_successes) (mk_shared [] count false []) order)
  end.

(** ** Strategies *)

Inductive collection_strategy : Type := strategy_all | strategy_majority | strategy_any | strategy_count.

(** The collectors of the future library: the first future without an exception,
    and the first [n] futures to settle. *)
Context (collect_any_without_exception : list settled_try → outcome (nat * T))
        (collect_n : list settled_try → nat → list settled_try).

Definition collect_any_with_timeout (results : list settled_try) : outcome (nat * T) :=
  match results with
  | [] => Throw (future_collection_exception "collect_any_with_timeout" 0)
  | _ => collect_any_without_exception results
  end.

Definition collect_with_strategy (strategy : collection_strategy) (count : nat)
    (results : list settled_try) : outcome (list T) :=
  match strategy with
  | strategy_all => all_or_first_exception (collect_all_with_timeout results)
  | strategy_majority => collect_majority results
  | strategy_any => let? r := collect_any_with_timeout results in Ret [r.2]
  | strategy_count =>
      if (count =? 0)%nat || (length results <? count)%nat
      then Throw (future_collection_exception "collect_with_strategy" 0)
      else Ret (values (collect_n results count))
  end.
End collector.
Arguments settled_try : clear implicits.
Arguments shared_state : clear implicits.

(** ** Early resolution is exact *)

Section early.
Context {T : Type} (count required : nat).
Implicit Types order : list (settled_try T).

(** Enough answers are in, or too few can still come. *)
Definition enough order : Prop := required ≤ length (values order).
Definition hopeless order : Prop := length (values order) + (count - length order) < required.

(** The answer for the futures in [order]. *)
Definition early_answer order : outcome (list T) :=
  if (required <=? length (values order))%nat then Ret (take required (values order))
  else collection_failed.

Lemma values_app order1 order2 : values (order1 ++ order2) = values order1 ++ values order2.
Proof. unfold values. by rewrite omap_app. Qed.

Lemma length_values order : length (values order) ≤ length order.
Proof.
  unfold values. induction order as [|[v|e] order IH]; cbn [omap list_omap length]; lia.
Qed.

(** Once decided, later answers change nothing. *)
Lemma decided_mono order t :
  S (length order) ≤ count → enough order ∨ hopeless order →
  (enough (order ++ [t]) ∨ hopeless (order ++ [t])) ∧
  early_answer (order ++ [t]) = early_answer order.
Proof.
  unfold early_answer, enough, hopeless. rewrite values_app, !length_app. intros Hl.
  pose proof (length_values [t]) as Ht. cbn [length] in *.
  intros [H|H].
  - split; [left; lia|]. rewrite !(proj2 (Nat.leb_le _ _)) by lia. f_equal. by apply take_app_le.
  - split; [right; lia|]. by rewrite !(proj2 (Nat.leb_gt _ _)) by lia.
Qed.

(** The callback of [t] while the question is open. *)
Lemma callback_open order t :
  S (length order) ≤ count → ¬ enough order → ¬ hopeless order →
  let st := on_settled required (mk_shared (values order) (count - length order) false []) t in
  let order' := order ++ [t] in
  (enough order' ∨ hopeless order' → settled st = true ∧ fulfilled st = [early_answer order']) ∧
  (¬ enough order' → ¬ hopeless order' →
   st = mk_shared (values order') (count - length order') false []).
Proof.
  intros Hl He Hh. unfold on_settled. cbn [settled remaining successes fulfilled].
  assert (match t with try_value v => values order ++ [v] | try_exception _ => values order end
          = values (order ++ [t])) as ->.
  { rewrite values_app. destruct t; [done|]. by rewrite app_nil_r. }
  pose proof (length_values [t]) as Ht. cbv zeta.
  assert (length (values (order ++ [t])) = length (values order) + length (values [t])) as Hv
    by (by rewrite values_app, length_app).
  unfold early_answer, enough, hopeless in *. rewrite !length_app. cbn [length] in *.
  destruct (Nat.leb_spec required (length (values (order ++ [t])))) as [H|H].
  - split; [|lia]. intros _. split; [done|]. cbn [fulfilled app]. do 2 f_equal.
    symmetry. apply firstn_all2. lia.
  - destruct (Nat.ltb_spec (length (values (order ++ [t])) + (count - length order - 1)) required).
    + split; [done|]. lia.
    + split; [lia|]. intros _ _. f_equal. lia.
Qed.

(** After the callbacks of [order]: unsettled while the question is open, and
    otherwise given the answer once. *)
Lemma callbacks_run order :
  0 < required → required ≤ count → length order ≤ count →
  let st := foldl (on_settled required) (mk_shared [] count false []) order in
  (enough order ∨ hopeless order → settled st = true ∧ fulfilled st = [early_answer order]) ∧
  (¬ enough order → ¬ hopeless order → st = mk_shared (values order) (count - length order) false []).
Proof.
  intros Hr Hc. induction order as [|t order IH] using rev_ind; intros Hl.
  { simpl. rewrite Nat.sub_0_r. split; [|done]. unfold enough, hopeless. cbn. lia. }
  rewrite length_app in Hl. cbn [length] in Hl. rewrite foldl_app. cbn [foldl].
  destruct (IH ltac:(lia)) as [IH1 IH2]. clear IH. cbv zeta in *. set (st := foldl _ _ order) in *.
  assert ((enough order ∨ hopeless order) ∨ (¬ enough order ∧ ¬ hopeless order)) as [Hd|[He Hh]]
    by (unfold enough, hopeless; lia).
  - destruct (IH1 Hd) as [Hs Hf]. destruct (decided_mono order t ltac:(lia) Hd) as [Hd' ->].
    unfold on_settled. rewrite Hs. split; [done|]. tauto.
  - rewrite (IH2 He Hh). clear st IH1 IH2. apply callback_open; [lia|done..].
Qed.
End early.

(** C35. Early resolution is exact: with [count] futures and a requirement between
    one and [count], after the callbacks of any of the futures, in any order of
    settling, the returned future has been given nothing while both outcomes are
    possible, and exactly one result as soon as enough values are in (the first
    [required] of them, in settling order) or enough can no longer come (an
    exception); later callbacks add nothing.  In particular it is always resolved
    once all futures settled. *)
Theorem early_resolution_exact {T} (count required : nat) (order : list (settled_try T)) :
  0 < required → required ≤ count → length order ≤ count →
  let answers := collect_n_successes_with_timeout count required order in
  (enough required order → answers = [Ret (take required (values order))]) ∧
  (hopeless count required order → answers = [collection_failed]) ∧
  (¬ enough required order → ¬ hopeless count required order → answers = []) ∧
  (length order = count → length answers = 1).
Proof.
  intros Hr Hc Hl answers. pose proof (callbacks_run count required order Hr Hc Hl) as H. cbv zeta in H.
  assert (answers = fulfilled (foldl (on_settled required) (mk_shared [] count false []) order)) as ->.
  { unfold answers, collect_n_successes_with_timeout. destruct required as [|r]; [lia|].
    destruct (Nat.eqb_spec count 0); [lia|]. destruct (Nat.ltb_spec count (S r)); [lia|done]. }
  destruct H as [H1 H2]. unfold early_answer in H1. split_and!.
  - intros He. destruct (H1 (or_introl He)) as [_ ->]. by rewrite (proj2 (Nat.leb_le _ _)).
  - intros Hh. destruct (H1 (or_intror Hh)) as [_ ->]. unfold hopeless in Hh.
    by rewrite (proj2 (Nat.leb_gt _ _)) by lia.
  - intros He Hh. by rewrite (H2 He Hh).
  - intros Hn. destruct H1 as [_ ->]; [|done]. unfold enough, hopeless. lia.
Qed.

Lemma early_resolution_exact_witness :
  collect_n_successes_with_timeout 3 2
    [try_value 5%N; try_exception bad_optional_access; try_value 7%N] = [Ret [5%N; 7%N]].
Proof.
  apply (early_resolution_exact 3 2 [try_value 5%N; try_exception bad_optional_access; try_value 7%N]);
    unfold enough; cbn; lia.
Defined.
