(* ===== verification/FutureChannel.v ===== *)
(** The single-shot channel and the promises of the stdexec backend
    ([future_stdexec.hpp]): a result that arbitrary code sets at some time, and a
    receiver that is started at some time.

    Every critical section of the channel's mutex is one step, and so is the call of
    a resume function, which is made outside of it; threads interleave these steps.
    A receiver is a number. *)

From S2P Require Import Prelude Types FutureCollector.

Arguments settled_try : clear implicits.

Section channel.
Context {A : Type}.

(** ** [Try] *)

(** [Try(std::exception_ptr)] *)
Definition try_from_exception (ex : option exn) : outcome (settled_try A) :=
  match ex with
  | None => Throw (invalid_argument "Try<T>: exception_ptr cannot be null")
  | Some e => Ret (try_exception e)
  end.

(** [Try::value] *)
Definition try_get (t : settled_try A) : outcome A :=
  match t with try_value v => Ret v | try_exception e => Throw e end.

(** [Try::exception] *)
Definition try_error (t : settled_try A) : option exn :=
  match t with try_value _ => None | try_exception e => Some e end.

(** ** The channel *)

Inductive channel_state : Type := empty | waiting | complete.

(** [result] is [None] for [std::monostate]; [resume] is the receiver whose completion
    the function calls. *)
Record channel_shared_state : Type := mk_channel {
  state : channel_state;
  result : option (settled_try A);
  resume : option nat
}.

Definition new_channel : channel_shared_state := mk_channel empty None None.

(** Whether the result was taken, and the receiver to resume. *)
Definition try_fulfill (value : settled_try A) (c : channel_shared_state) : bool * option nat * channel_shared_state :=
  match state c with
  | empty => (true, None, mk_channel complete (Some value) (resume c))
  | waiting => (true, resume c, mk_channel complete (Some value) None)
  | complete => (false, None, c)
  end.

Definition already_fulfilled : exn := logic_error "single_shot_channel: already fulfilled".

(** [set_value], and [set_error] with an exception that is not null. *)
Definition channel_set (value : settled_try A) (c : channel_shared_state) : outcome () * option nat * channel_shared_state :=
  let '(fulfilled, resumed, c) := try_fulfill value c in
  (if fulfilled then Ret tt else Throw already_fulfilled, resumed, c).

Definition set_error (ex : option exn) (c : channel_shared_state) : outcome () * option nat * channel_shared_state :=
  match ex with
  | None => (Throw (invalid_argument "single_shot_channel: exception_ptr cannot be null"), None, c)
  | Some e => channel_set (try_exception e) c
  end.

Definition is_fulfilled (c : channel_shared_state) : bool := match state c with complete => true | _ => false end.

(** [start]: whether the operation completes now. *)
Definition start (receiver : nat) (c : channel_shared_state) : bool * channel_shared_state :=
  match state c with
  | complete => (true, c)
  | empty => (false, mk_channel waiting (result c) (Some receiver))
  | waiting => (true, c)
  end.

(** What the receiver is given; without a result [std::get] throws in a function that
    must not. *)
Definition complete_now (c : channel_shared_state) : outcome (settled_try A) :=
  match result c with Some x => Ret x | None => Undef "std::terminate" end.

(** ** Threads *)

(** [opened]: the operations started; [resuming]: the resume functions taken and not
    yet called, and the completions that are due; [received]: what receivers were
    given; [winners]: the results taken. *)
Record system : Type := mk_system {
  channel : channel_shared_state;
  opened : list nat;
  resuming : list nat;
  received : list (nat * outcome (settled_try A));
  winners : list (settled_try A)
}.

Definition new_system : system := mk_system new_channel [] [] [] [].

Definition fulfill_by (value : settled_try A) (s : system) : system :=
  let '(fulfilled, resumed, c) := try_fulfill value (channel s) in
  mk_system c (opened s) (resuming s ++ option_list resumed) (received s)
    (if fulfilled then winners s ++ [value] else winners s).

Definition start_by (receiver : nat) (s : system) : system :=
  let '(now, c) := start receiver (channel s) in
  mk_system c (opened s ++ [receiver]) (if now then resuming s ++ [receiver] else resuming s) (received s) (winners s).

Definition resume_by (l1 : list nat) (receiver : nat) (l2 : list nat) (s : system) : system :=
  mk_system (channel s) (opened s) (l1 ++ l2) (received s ++ [(receiver, complete_now (channel s))]) (winners s).

Inductive channel_step (s : system) : system → Prop :=
  | step_fulfill value : channel_step s (fulfill_by value s)
  | step_start receiver : channel_step s (start_by receiver s)
  | step_resume l1 receiver l2 : resuming s = l1 ++ receiver :: l2 → channel_step s (resume_by l1 receiver l2 s).

(** ** Exactly once *)

(** One receiver: nothing happened; it waits; there is a result and no receiver yet;
    the completion is due; it was made. *)
Inductive channel_ok : system → Prop :=
  | ok_empty : channel_ok new_system
  | ok_waiting r : channel_ok (mk_system (mk_channel waiting None (Some r)) [r] [] [] [])
  | ok_result x : channel_ok (mk_system (mk_channel complete (Some x) None) [] [] [] [x])
  | ok_due r x : channel_ok (mk_system (mk_channel complete (Some x) None) [r] [r] [] [x])
  | ok_done r x : channel_ok (mk_system (mk_channel complete (Some x) None) [r] [] [(r, Ret x)] [x]).

Lemma opened_grows s s' : channel_step s s' → opened s `prefix_of` opened s'.
Proof.
  intros Hstep. destruct Hstep; cbn.
  - unfold fulfill_by. by destruct (try_fulfill value (channel s)) as [[??]?].
  - unfold start_by. destruct (start receiver (channel s)). by eexists.
  - done.
Qed.

Lemma channel_step_ok s s' : channel_ok s → channel_step s s' → length (opened s') ≤ 1 → channel_ok s'.
Proof.
  intros Hok Hstep Hone. destruct Hstep as [value|receiver|l1 r l2 Hr].
  - destruct Hok; cbn; constructor.
  - destruct Hok; cbn in *; try lia; constructor.
  - destruct Hok; cbn in Hr; try by destruct l1. destruct l1 as [|? l1]; [|by destruct l1]. simplify_eq/=. constructor.
Qed.

Lemma channel_reachable_ok s : rtc channel_step new_system s → length (opened s) ≤ 1 → channel_ok s.
Proof.
  revert s. refine (rtc_ind_r (λ s, length (opened s) ≤ 1 → channel_ok s) new_system _ _); [constructor|].
  intros s s' _ Hstep IH Hone. eapply channel_step_ok; [apply IH|exact Hstep|exact Hone].
  apply opened_grows, prefix_length in Hstep. lia.
Qed.

(** C30. Exactly one result, given exactly once.  Whatever threads set results, destroy
    promises, start the receiver and call resume functions, in any order: at most one
    result is taken; the receiver is given that result, once, and never without one;
    and once there is a result and the receiver was started, it was given the result
    or a thread is about to do so. *)
Theorem channel_exactly_once s :
  rtc channel_step new_system s → length (opened s) ≤ 1 →
  length (winners s) ≤ 1 ∧ length (received s) ≤ 1 ∧
  (∀ r o, (r, o) ∈ received s → ∃ x, opened s = [r] ∧ winners s = [x] ∧ o = Ret x) ∧
  (winners s ≠ [] → opened s ≠ [] → resuming s = [] → received s ≠ []) ∧
  (is_fulfilled (channel s) = true ↔ winners s ≠ []).
Proof.
  intros Hreach Hone. destruct (channel_reachable_ok s Hreach Hone); cbn; split_and!; try lia; try done.
  all: intros r' o Hin; try by apply elem_of_nil in Hin.
  apply list_elem_of_singleton in Hin as [= -> ->]. by exists x.
Qed.

(** [start] takes a channel that is not empty for one that is complete.  A second
    future of one promise is started while the first one waits, and ends the program. *)
Theorem second_future_terminates r1 r2 :
  ∃ s, rtc channel_step new_system s ∧ (r2, Undef "std::terminate") ∈ received s ∧ opened s = [r1; r2].
Proof.
  exists (resume_by [] r2 [] (start_by r2 (start_by r1 new_system))). split_and!; [|by left|done].
  eapply rtc_l; [apply (step_start _ r1)|]. eapply rtc_l; [apply (step_start _ r2)|].
  apply rtc_once, step_resume. done.
Qed.
End channel.
Arguments channel_shared_state : clear implicits.
Arguments system : clear implicits.

Lemma channel_exactly_once_witness :
  let s := resume_by [] 7 [] (fulfill_by (try_value 1%N) (start_by 7 new_system)) in
  received s = [(7, Ret (try_value 1%N))] ∧ length (winners s) ≤ 1.
Proof.
  set (s := resume_by [] 7 [] (fulfill_by (try_value 1%N) (start_by 7 new_system))).
  split; [done|]. apply (channel_exactly_once s); [|cbn; lia].
  eapply rtc_l; [apply (step_start _ 7)|]. eapply rtc_l; [apply (step_fulfill _ (try_value 1%N))|].
  apply rtc_once. by apply (step_resume _ [] 7 []).
Defined.

(** ** Promises *)

Section promise.
Context {A : Type}.

(** [_channel] is null after a move. *)
Record promise : Type := mk_promise { _channel : option nat; _active : bool }.

(** The promises that exist, the channels, and the receivers to resume. *)
Record promise_world : Type := mk_world {
  channels : gmap nat (channel_shared_state A);
  promises : gmap nat promise;
  resumed : list nat
}.

Definition new_promise (p c : nat) (w : promise_world) : promise_world :=
  mk_world (<[c := new_channel]> (channels w)) (<[p := mk_promise (Some c) true]> (promises w)) (resumed w).

(** [try_fulfill] of a channel of the heap. *)
Definition fulfill_at (c : nat) (value : settled_try A) (w : promise_world) : bool * promise_world :=
  match channels w !! c with
  | None => (false, w)
  | Some ch =>
      let '(fulfilled, r, ch) := try_fulfill value ch in
      (fulfilled, mk_world (<[c := ch]> (channels w)) (promises w) (resumed w ++ option_list r))
  end.

Definition fulfilled_at (c : nat) (w : promise_world) : bool :=
  match channels w !! c with Some ch => is_fulfilled ch | None => false end.

Definition maybe_break_promise (pr : promise) (w : promise_world) : promise_world :=
  match _channel pr with
  | Some c => if _active pr && negb (fulfilled_at c w) then (fulfill_at c (try_exception broken_promise) w).2 else w
  | None => w
  end.

(** [SemiPromise(SemiPromise&&)] *)
Definition move_promise (p q : nat) (w : promise_world) : promise_world :=
  match promises w !! p with
  | Some pr => mk_world (channels w) (<[q := pr]> (<[p := mk_promise None false]> (promises w))) (resumed w)
  | None => w
  end.

(** [q = std::move(p)] *)
Definition assign_promise (p q : nat) (w : promise_world) : promise_world :=
  if bool_decide (p = q) then w
  else match promises w !! p, promises w !! q with
       | Some pr, Some old =>
           let w := maybe_break_promise old w in
           mk_world (channels w) (<[q := pr]> (<[p := mk_promise None false]> (promises w))) (resumed w)
       | _, _ => w
       end.

Definition destroy_promise (p : nat) (w : promise_world) : promise_world :=
  match promises w !! p with
  | Some pr => let w := maybe_break_promise pr w in mk_world (channels w) (delete p (promises w)) (resumed w)
  | None => w
  end.

(** [setValue] and [setException]; a promise moved from refers to no channel. *)
Definition set_promise (p : nat) (value : settled_try A) : M promise_world () := λ w,
  match promises w !! p with
  | Some (mk_promise (Some c) _) =>
      let '(fulfilled, w) := fulfill_at c value w in (if fulfilled then Ret tt else Throw already_fulfilled, w)
  | _ => (Undef "null channel", w)
  end.

(** A future of the promise is started. *)
Definition start_at (c r : nat) (w : promise_world) : promise_world :=
  match channels w !! c with
  | Some ch => let '(now, ch) := start r ch in
      mk_world (<[c := ch]> (channels w)) (promises w) (if now then resumed w ++ [r] else resumed w)
  | None => w
  end.

Inductive promise_step (w : promise_world) : promise_world → Prop :=
  | step_new p c : promises w !! p = None → channels w !! c = None → promise_step w (new_promise p c w)
  | step_move p q : promises w !! q = None → promise_step w (move_promise p q w)
  | step_assign p q : promise_step w (assign_promise p q w)
  | step_destroy p : promise_step w (destroy_promise p w)
  | step_set p value : promise_step w (set_promise p value w).2
  | step_start_at c r : promise_step w (start_at c r w).

(** The promise that is responsible for a channel. *)
Definition holds (ps : gmap nat promise) (p c : nat) : Prop := ps !! p = Some (mk_promise (Some c) true).

Record promises_ok (w : promise_world) : Prop := {
  unfulfilled_held c ch : channels w !! c = Some ch → is_fulfilled ch = false → ∃ p, holds (promises w) p c;
  held_once p q c : holds (promises w) p c → holds (promises w) q c → p = q;
  held_exists p c : holds (promises w) p c → is_Some (channels w !! c);
  two_kinds p pr : promises w !! p = Some pr → pr = mk_promise None false ∨ ∃ c, pr = mk_promise (Some c) true
}.

(** Fulfilled channels stay so, others are the same. *)
Definition only_fulfills (m m' : gmap nat (channel_shared_state A)) : Prop :=
  ∀ c, match m !! c, m' !! c with
       | Some ch, Some ch' => is_fulfilled ch = true → ch' = ch
       | None, None => True
       | _, _ => False
       end.

#[local] Instance only_fulfills_preorder : PreOrder only_fulfills.
Proof.
  split; [intros m c; by destruct (m !! c)|]. intros m1 m2 m3 H1 H2 c. specialize (H1 c). specialize (H2 c).
  destruct (m1 !! c), (m2 !! c), (m3 !! c); try done. intros E. rewrite <- H1 by done. apply H2. by rewrite H1.
Qed.

Lemma fulfill_at_spec c value w :
  let w' := (fulfill_at c value w).2 in
  promises w' = promises w ∧ only_fulfills (channels w) (channels w') ∧ (is_Some (channels w !! c) → fulfilled_at c w' = true) ∧
  (∀ c' ch, c' ≠ c → channels w' !! c' = Some ch → channels w !! c' = Some ch).
Proof.
  unfold fulfill_at. destruct (channels w !! c) as [ch|] eqn:Hc.
  2:{ cbn. split_and!; [done|done|by intros [? ?]|done]. }
  destruct (try_fulfill value ch) as [[b r] ch'] eqn:E. cbn. split_and!; [done| | |].
  - intros c'. destruct (decide (c = c')) as [<-|Hne]; [|rewrite lookup_insert_ne by done; by destruct (channels w !! c')].
    rewrite lookup_insert_eq, Hc. unfold try_fulfill, is_fulfilled in *. destruct (state ch); naive_solver.
  - intros _. unfold fulfilled_at. cbn. rewrite lookup_insert_eq. unfold try_fulfill, is_fulfilled in *.
    destruct (state ch) eqn:Es; simplify_eq; cbn; by rewrite ?Es.
  - intros c' ch2 Hne. by rewrite lookup_insert_ne.
Qed.

Lemma break_spec pr w :
  let w' := maybe_break_promise pr w in
  promises w' = promises w ∧ only_fulfills (channels w) (channels w') ∧
  (∀ c, _channel pr = Some c → _active pr = true → is_Some (channels w !! c) → fulfilled_at c w' = true).
Proof.
  unfold maybe_break_promise. destruct (_channel pr) as [c|]; [|done].
  destruct (_active pr) eqn:Ha; cbn [andb]; [|done].
  destruct (fulfilled_at c w) eqn:Hf; cbn [negb].
  - split_and!; [done|done|]. by intros c' [= <-].
  - destruct (fulfill_at_spec c (try_exception broken_promise) w) as (H1 & H2 & H3 & _). split_and!; [done|done|].
    intros c' [= <-] _. exact H3.
Qed.

Lemma ok_channels m r w : promises_ok w → only_fulfills (channels w) m → promises_ok (mk_world m (promises w) r).
Proof.
  intros [H1 H2 H3 H4] Hm. split; cbn; [|done| |done].
  - intros c ch Hc Hun. specialize (Hm c). rewrite Hc in Hm. destruct (channels w !! c) as [ch0|] eqn:E; [|done].
    apply (H1 c ch0); [done|]. destruct (is_fulfilled ch0) eqn:Ef; [|done]. specialize (Hm eq_refl) as ->. congruence.
  - intros p c Hp. destruct (H3 p c Hp) as [ch Hch]. specialize (Hm c). rewrite Hch in Hm. by destruct (m !! c).
Qed.

(** A promise takes over from another; what it held before is fulfilled. *)
Lemma ok_take_over p q pr w :
  promises_ok w → p ≠ q → promises w !! p = Some pr → (∀ c, holds (promises w) q c → fulfilled_at c w = true) →
  promises_ok (mk_world (channels w) (<[q := pr]> (<[p := mk_promise None false]> (promises w))) (resumed w)).
Proof.
  intros [H1 H2 H3 H4] Hne Hp Hq.
  assert (∀ x c, holds (<[q := pr]> (<[p := mk_promise None false]> (promises w))) x c →
    x = q ∧ holds (promises w) p c ∨ x ≠ q ∧ x ≠ p ∧ holds (promises w) x c) as Hinv.
  { unfold holds. intros x c [[<- ->]|[Hx [[<- [=]]|[Hx' Hc]]%lookup_insert_Some]]%lookup_insert_Some; [by left|].
    right. by split_and!. }
  split; cbn.
  - intros c ch Hc Hun. destruct (H1 c ch Hc Hun) as [x Hx]. destruct (decide (x = q)) as [->|Hxq].
    { specialize (Hq c Hx). unfold fulfilled_at in Hq. rewrite Hc in Hq. congruence. }
    destruct (decide (x = p)) as [->|Hxp]; unfold holds in *.
    + exists q. rewrite lookup_insert_eq. congruence.
    + exists x. by rewrite !lookup_insert_ne.
  - intros x y c [[-> Hx]|(_ & Hxp & Hx)]%Hinv [[-> Hy]|(_ & Hyp & Hy)]%Hinv; [done| | |by eapply H2].
    + by destruct (Hyp (H2 y p c Hy Hx)).
    + by destruct (Hxp (H2 x p c Hx Hy)).
  - intros x c [[_ Hx]|(_ & _ & Hx)]%Hinv; by eapply H3.
  - intros x pr' [[_ <-]|[_ [[_ <-]|[_ Hx]]%lookup_insert_Some]]%lookup_insert_Some; [by eapply H4|by left|by eapply H4].
Qed.

Lemma break_holder_fulfilled p pr w :
  promises_ok w → promises w !! p = Some pr →
  ∀ c, holds (promises (maybe_break_promise pr w)) p c → fulfilled_at c (maybe_break_promise pr w) = true.
Proof.
  intros Hok Hp c. destruct (break_spec pr w) as (-> & _ & Hb). intros Hc. pose proof Hc as Hex%(held_exists _ Hok).
  unfold holds in Hc. simplify_eq. by apply Hb.
Qed.

Lemma break_ok pr w : promises_ok w → promises_ok (maybe_break_promise pr w).
Proof.
  intros Hok. destruct (break_spec pr w) as (Hp & Hc & _).
  pose proof (ok_channels _ (resumed (maybe_break_promise pr w)) w Hok Hc) as H. rewrite <- Hp in H.
  by destruct (maybe_break_promise pr w).
Qed.

Lemma new_promise_ok p c w :
  promises_ok w → promises w !! p = None → channels w !! c = None → promises_ok (new_promise p c w).
Proof.
  intros [H1 H2 H3 H4] Hp Hc.
  assert (∀ x c', holds (promises (new_promise p c w)) x c' → x = p ∧ c' = c ∨ x ≠ p ∧ c' ≠ c ∧ holds (promises w) x c') as Hinv.
  { unfold holds. cbn. intros x c' [[<- [= ->]]|[Hx Hh]]%lookup_insert_Some; [by left|]. right. split_and!; [done| |done].
    intros ->. destruct (H3 x c Hh) as [? ?]. congruence. }
  split.
  - cbn. intros c' ch [[<- <-]|[Hne Hc']]%lookup_insert_Some Hun.
    + exists p. unfold holds. by rewrite lookup_insert_eq.
    + destruct (H1 c' ch Hc' Hun) as [x Hx]. exists x. unfold holds in *. by rewrite lookup_insert_ne by congruence.
  - intros x y c' [[-> ->]|(_ & Hx & Hhx)]%Hinv [[-> Hy]|(_ & Hy & Hhy)]%Hinv; try done. by eapply H2.
  - intros x c' [[-> ->]|(_ & Hx & Hhx)]%Hinv; cbn; [by rewrite lookup_insert_eq|]. rewrite lookup_insert_ne by done. by eapply H3.
  - cbn. intros x pr [[_ <-]|[_ Hx]]%lookup_insert_Some; [right; by exists c|by eapply H4].
Qed.

Lemma promise_step_ok w w' : promises_ok w → promise_step w w' → promises_ok w'.
Proof.
  intros Hok Hstep. destruct Hstep as [p c Hp Hc|p q Hq|p q|p|p value|c r].
  - by apply new_promise_ok.
  - unfold move_promise. destruct (promises w !! p) as [pr|] eqn:Hp; [|done].
    apply ok_take_over; [done|congruence|done|]. intros c Hc. unfold holds in Hc. congruence.
  - unfold assign_promise. case_bool_decide as Hne; [done|].
    destruct (promises w !! p) as [pr|] eqn:Hp; [|done]. destruct (promises w !! q) as [old|] eqn:Hq; [|done].
    apply ok_take_over; [by apply break_ok|done| |by apply break_holder_fulfilled].
    by rewrite (proj1 (break_spec old w)).
  - unfold destroy_promise. destruct (promises w !! p) as [pr|] eqn:Hp; [|done].
    pose proof (break_holder_fulfilled p pr w Hok Hp) as Hf. pose proof (break_ok pr w Hok) as [H1 H2 H3 H4].
    set (w1 := maybe_break_promise pr w) in *. clearbody w1. split; cbn.
    + intros c ch Hc Hun. destruct (H1 c ch Hc Hun) as [x Hx]. exists x. unfold holds.
      rewrite lookup_delete_ne; [done|]. intros <-. specialize (Hf c Hx). unfold fulfilled_at in Hf. rewrite Hc in Hf. congruence.
    + intros x y c [_ Hx]%lookup_delete_Some [_ Hy]%lookup_delete_Some. by eapply H2.
    + intros x c [_ Hx]%lookup_delete_Some. by eapply H3.
    + intros x pr' [_ Hx]%lookup_delete_Some. by eapply H4.
  - unfold set_promise. destruct (promises w !! p) as [[[c|] a]|]; [|done|done].
    destruct (fulfill_at_spec c value w) as (Hp & Hc & _). destruct (fulfill_at c value w) as [b w1]. cbn [snd] in *.
    pose proof (ok_channels _ (resumed w1) w Hok Hc) as H. rewrite <- Hp in H. by destruct w1.
  - unfold start_at. destruct (channels w !! c) as [ch|] eqn:Hc; [|done]. destruct (start r ch) as [now ch'] eqn:E.
    apply ok_channels; [done|]. intros c'. destruct (decide (c = c')) as [<-|Hne];
      [|rewrite lookup_insert_ne by done; by destruct (channels w !! c')].
    rewrite lookup_insert_eq, Hc. unfold start, is_fulfilled in *. destruct (state ch); naive_solver.
Qed.

(** No future waits for a promise that is gone.  However promises are made, moved,
    assigned, fulfilled and destroyed: a channel without a result is held by exactly
    one live promise; so when no promise is left, every channel has its result. *)
Theorem promises_keep_channels w :
  rtc promise_step (mk_world ∅ ∅ []) w →
  (∀ c ch, channels w !! c = Some ch → is_fulfilled ch = false →
    ∃ p, holds (promises w) p c ∧ ∀ q, holds (promises w) q c → q = p) ∧
  (promises w = ∅ → ∀ c ch, channels w !! c = Some ch → is_fulfilled ch = true).
Proof.
  intros Hreach. assert (promises_ok w) as [H1 H2 _ _].
  { assert (promises_ok (mk_world ∅ ∅ [])) as H0 by (split; unfold holds; cbn; intros *; rewrite lookup_empty; discriminate).
    induction Hreach as [|x y z Hstep _ IH]; [done|]. by apply IH, (promise_step_ok x). }
  split.
  - intros c ch Hc Hun. destruct (H1 c ch Hc Hun) as [p Hp]. exists p. split; [done|]. intros q Hq. by eapply H2.
  - intros E c ch Hc. apply not_false_is_true. intros Hun. destruct (H1 c ch Hc Hun) as [p Hp].
    unfold holds in Hp. by rewrite E, lookup_empty in Hp.
Qed.
End promise.

Lemma promises_keep_channels_witness :
  let w := destroy_promise 2 (move_promise 1 2 (new_promise (A := N) 1 0 (mk_world ∅ ∅ []))) in
  ∀ c ch, channels (destroy_promise 1 w) !! c = Some ch → is_fulfilled ch = true.
Proof.
  set (w := destroy_promise 2 (move_promise 1 2 (new_promise (A := N) 1 0 (mk_world ∅ ∅ [])))).
  apply (promises_keep_channels (destroy_promise 1 w)); [|by vm_compute].
  eapply rtc_l; [by apply (step_new _ 1 0)|]. eapply rtc_l; [by apply (step_move _ 1 2)|].
  eapply rtc_l; [apply (step_destroy _ 2)|]. apply rtc_once, (step_destroy _ 1).
Defined.
