(* ===== verification/FutureBackends.v ===== *)
(** Continuations of futures in the stdexec backend ([future_stdexec.hpp]) and in the
    Boost backend ([future_boost.hpp]), against one reference.

    stdexec's senders and Boost's futures are parameters: the classes [StdExec] and
    [BoostThread] have the operations the code composes, with their documented
    meaning as laws.  A callback acts on a world [W] and returns or throws. *)

From S2P Require Import Prelude Types FutureCollector FutureChannel.

Section backends.
Context {W : Type}.

(** What a callback does. *)
Definition callback (A B : Type) : Type := A → W → (B + exn) * W.

(** A future, run to completion. *)
Definition fut (A : Type) : Type := W → settled_try A * W.

Definition settle {A} (r : A + exn) : settled_try A := match r with inl a => try_value a | inr e => try_exception e end.

(** ** The reference: what the concepts promise *)

Definition ref_thenValue {A B} (s : fut A) (func : callback A B) : fut B := λ w,
  match s w with
  | (try_value a, w) => let '(r, w) := func a w in (settle r, w)
  | (try_exception e, w) => (try_exception e, w)
  end.

Definition ref_thenTry {A B} (s : fut A) (func : callback (settled_try A) B) : fut B := λ w,
  let '(t, w) := s w in let '(r, w) := func t w in (settle r, w).

Definition ref_thenError {A} (s : fut A) (func : callback exn A) : fut A := λ w,
  match s w with
  | (try_value a, w) => (try_value a, w)
  | (try_exception e, w) => let '(r, w) := func e w in (settle r, w)
  end.

(** A callback that returns a future, which is then run. *)
Definition ref_flatten {B} (r : (fut B + exn) * W) : settled_try B * W :=
  match r with (inl inner, w) => inner w | (inr e, w) => (try_exception e, w) end.

Definition ref_thenValue_flat {A B} (s : fut A) (func : callback A (fut B)) : fut B := λ w,
  match s w with
  | (try_value a, w) => ref_flatten (func a w)
  | (try_exception e, w) => (try_exception e, w)
  end.

Definition ref_thenTry_flat {A B} (s : fut A) (func : callback (settled_try A) (fut B)) : fut B := λ w,
  let '(t, w) := s w in ref_flatten (func t w).

Definition ref_thenError_flat {A} (s : fut A) (func : callback exn (fut A)) : fut A := λ w,
  match s w with
  | (try_value a, w) => (try_value a, w)
  | (try_exception e, w) => ref_flatten (func e w)
  end.

(** ** stdexec *)

Inductive completion (A : Type) : Type :=
  | set_value (a : A)
  | set_error (e : exn)
  | set_stopped.
Arguments set_value {A}.
Arguments set_error {A}.
Arguments set_stopped {A}.

Class StdExec : Type := {
  sender : Type → Type;
  runs {A} : sender A → W → completion A * W;
  just {A} : A → sender A;
  just_error {A} : exn → sender A;
  then_ {A B} : sender A → callback A B → sender B;
  let_value {A B} : sender A → callback A (sender B) → sender B;
  let_error {A} : sender A → callback exn (sender A) → sender A;
  schedule_after : Z → sender ()
}.

Class StdExecLaws `{StdExec} : Prop := {
  runs_just {A} (a : A) w : runs (just a) w = (set_value a, w);
  runs_just_error {A} e w : runs (just_error (A := A) e) w = (set_error e, w);
  runs_then {A B} (s : sender A) (f : callback A B) w :
    runs (then_ s f) w = match runs s w with
      | (set_value a, w) => match f a w with (inl b, w) => (set_value b, w) | (inr e, w) => (set_error e, w) end
      | (set_error e, w) => (set_error e, w)
      | (set_stopped, w) => (set_stopped, w)
      end;
  runs_let_value {A B} (s : sender A) (f : callback A (sender B)) w :
    runs (let_value s f) w = match runs s w with
      | (set_value a, w) => match f a w with (inl s2, w) => runs s2 w | (inr e, w) => (set_error e, w) end
      | (set_error e, w) => (set_error e, w)
      | (set_stopped, w) => (set_stopped, w)
      end;
  runs_let_error {A} (s : sender A) (f : callback exn (sender A)) w :
    runs (let_error s f) w = match runs s w with
      | (set_error e, w) => match f e w with (inl s2, w) => runs s2 w | (inr e, w) => (set_error e, w) end
      | r => r
      end;
  runs_schedule_after d w : runs (schedule_after d) w = (set_value tt, w)
}.

Section stdexec.
Context `{Laws : StdExecLaws}.

(** [into_try]: the sender run to completion; "stopped" becomes an exception. *)
Definition into_try {A} (s : sender A) : fut A := λ w,
  match runs s w with
  | (set_value a, w) => (try_value a, w)
  | (set_error e, w) => (try_exception e, w)
  | (set_stopped, w) => (try_exception operation_cancelled, w)
  end.

(** [just(f(x))] as the result of a callback *)
Definition just_result {A B} (f : callback A B) : callback A (sender B) := λ a w,
  match f a w with (inl b, w) => (inl (just b), w) | (inr e, w) => (inr e, w) end.

Definition thenValue {A B} (s : sender A) (func : callback A B) : sender B := then_ s func.

(** [func(...).extract_sender()] *)
Definition thenValue_flat {A B} (s : sender A) (func : callback A (sender B)) : sender B := let_value s func.

Definition thenTry {A B} (s : sender A) (func : callback (settled_try A) B) : sender B :=
  let_error (let_value s (λ a, just_result func (try_value a))) (λ e, just_result func (try_exception e)).

Definition thenTry_flat {A B} (s : sender A) (func : callback (settled_try A) (sender B)) : sender B :=
  let normalized :=
    let_error (let_value s (λ a w, (inl (just (try_value a)), w))) (λ e w, (inl (just (try_exception e)), w)) in
  let_value normalized func.

Definition thenError {A} (s : sender A) (func : callback exn A) : sender A := let_error s (just_result func).

Definition thenError_flat {A} (s : sender A) (func : callback exn (sender A)) : sender A := let_error s func.

Definition delay {A} (duration : Z) (s : sender A) : sender A :=
  let_error (let_value s (λ a w, (inl (then_ (schedule_after duration) (λ _ w, (inl a, w))), w)))
    (λ e w, (inl (let_value (schedule_after duration) (λ _ w, (inl (just_error e), w))), w)).

(** Senders that are not stopped. *)
Definition not_stopped {A} (s : sender A) : Prop := ∀ w, (runs s w).1 ≠ set_stopped.

(** A callback that returns senders, as one that returns futures. *)
Definition as_futures {A B} (func : callback A (sender B)) : callback A (fut B) := λ a w,
  match func a w with (inl s, w) => (inl (into_try s), w) | (inr e, w) => (inr e, w) end.

Ltac run_senders := repeat first
  [ rewrite runs_just | rewrite runs_just_error | rewrite runs_then | rewrite runs_let_value | rewrite runs_let_error
  | rewrite runs_schedule_after ].

(** The stdexec continuations behave as the reference does: on a future that is
    not stopped, [thenValue], [thenError] and their variants that flatten, [thenTry]
    that flattens, and [thenTry] with a function that does not throw give the same
    result and the same effects, and [delay] changes neither. *)
Theorem stdexec_meets_reference {A B} (s : sender A) (w : W) :
  not_stopped s →
  (∀ f : callback A B, into_try (thenValue s f) w = ref_thenValue (into_try s) f w) ∧
  (∀ f : callback A (sender B), into_try (thenValue_flat s f) w = ref_thenValue_flat (into_try s) (as_futures f) w) ∧
  (∀ f : callback (settled_try A) B, (∀ t w, is_Some (match (f t w).1 with inl b => Some b | inr _ => None end)) →
     into_try (thenTry s f) w = ref_thenTry (into_try s) f w) ∧
  (∀ f : callback (settled_try A) (sender B), into_try (thenTry_flat s f) w = ref_thenTry_flat (into_try s) (as_futures f) w) ∧
  (∀ f, into_try (thenError s f) w = ref_thenError (into_try s) f w) ∧
  (∀ f, into_try (thenError_flat s f) w = ref_thenError_flat (into_try s) (as_futures f) w) ∧
  (∀ d, into_try (delay d s) w = into_try s w).
Proof.
  intros Hns. assert (∀ r, runs s w = r → r.1 ≠ set_stopped) as Hr by (intros r <-; apply Hns).
  split_and!.
  - intros f. unfold into_try, thenValue, ref_thenValue. run_senders.
    destruct (runs s w) as [[a|e|] w1]; [by destruct (f a w1) as [[b|e] w2]|done|done].
  - intros f. unfold into_try, thenValue_flat, ref_thenValue_flat, as_futures. run_senders.
    destruct (runs s w) as [[a|e|] w1]; [|done|done]. by destruct (f a w1) as [[s2|e] w2].
  - intros f Hf. unfold into_try, thenTry, ref_thenTry, just_result. run_senders.
    destruct (runs s w) as [[a|e|] w1]; [| |by destruct (Hr _ eq_refl)].
    + specialize (Hf (try_value a) w1). destruct (f (try_value a) w1) as [[b|e] w2]; [by run_senders|by destruct Hf].
    + by destruct (f (try_exception e) w1) as [[b|e'] w2]; run_senders.
  - intros f. unfold into_try, thenTry_flat, ref_thenTry_flat, as_futures. run_senders.
    destruct (runs s w) as [[a|e|] w1]; [| |by destruct (Hr _ eq_refl)]; run_senders; by destruct (f _ w1) as [[s2|e'] w2].
  - intros f. unfold into_try, thenError, ref_thenError, just_result. run_senders.
    destruct (runs s w) as [[a|e|] w1]; [done| |by destruct (Hr _ eq_refl)]. by destruct (f e w1) as [[b|e'] w2]; run_senders.
  - intros f. unfold into_try, thenError_flat, ref_thenError_flat, as_futures. run_senders.
    destruct (runs s w) as [[a|e|] w1]; [done| |by destruct (Hr _ eq_refl)]. by destruct (f e w1) as [[s2|e'] w2].
  - intros d. unfold into_try, delay. run_senders.
    destruct (runs s w) as [[a|e|] w1]; run_senders; done.
Qed.

(** [thenTry] without flattening calls a function that throws on the value a second
    time, with the exception it threw itself. *)
Theorem then_try_calls_again {A B} (s : sender A) (f : callback (settled_try A) B) (w w1 w2 : W) a e :
  runs s w = (set_value a, w1) → f (try_value a) w1 = (inr e, w2) →
  into_try (thenTry s f) w = let '(r, w3) := f (try_exception e) w2 in (settle r, w3).
Proof.
  intros Hs Hf. unfold into_try, thenTry, just_result. run_senders. rewrite Hs, Hf.
  by destruct (f (try_exception e) w2) as [[b|e'] w3]; run_senders.
Qed.
End stdexec.

(** ** Boost *)

(** Boost's futures: [then] calls its function with the completed future. *)
Class BoostThread : Type := {
  boost_future : Type → Type;
  completes {A} : boost_future A → fut A;
  boost_then {A B} : boost_future A → callback (settled_try A) B → boost_future B
}.

Class BoostThreadLaws `{BoostThread} : Prop := {
  completes_then {A B} (f : boost_future A) (func : callback (settled_try A) B) w :
    completes (boost_then f func) w = let '(t, w) := completes f w in let '(r, w) := func t w in (settle r, w)
}.

Section boost.
Context `{Laws : BoostThreadLaws}.

(** [completed.get()] *)
Definition boost_get {A} (t : settled_try A) : A + exn := match t with try_value a => inl a | try_exception e => inr e end.

Definition boost_thenValue {A B} (f : boost_future A) (func : callback A B) : boost_future B :=
  boost_then f (λ completed w, match boost_get completed with inl a => func a w | inr e => (inr e, w) end).

Definition boost_thenTry {A B} (f : boost_future A) (func : callback (settled_try A) B) : boost_future B := boost_then f func.

Definition boost_thenError {A} (f : boost_future A) (func : callback exn A) : boost_future A :=
  boost_then f (λ completed w, match completed with try_exception e => func e w | try_value a => (inl a, w) end).

Definition ensure {A} (f : boost_future A) (func : callback () ()) : boost_future A :=
  boost_then f (λ completed w, match func tt w with (inl _, w) => (boost_get completed, w) | (inr e, w) => (inr e, w) end).

(** The variants that flatten return the future of a promise, the bridge: this is what
    the body of the continuation sets it to, [None] when the body throws first.  The
    bridge is then destroyed, and its future fails. *)
Definition bridged {A B} (f : boost_future A) (body : settled_try A → W → option (settled_try B) * W) : fut B := λ w,
  let '(t, w) := completes f w in
  let '(set, w) := body t w in
  (default (try_exception broken_promise) set, w).

(** The continuation of the inner future hands its result to the bridge. *)
Definition hand_over {B} (r : (boost_future B + exn) * W) : option (settled_try B) * W :=
  match r with
  | (inl inner, w) => let '(t, w) := completes inner w in (Some t, w)
  | (inr _, w) => (None, w)
  end.

Definition boost_thenValue_flat {A B} (f : boost_future A) (func : callback A (boost_future B)) : fut B :=
  bridged f (λ completed w,
    match boost_get completed with
    | inl a => hand_over (func a w)
    | inr e => (Some (try_exception e), w)
    end).

Definition boost_thenTry_flat {A B} (f : boost_future A) (func : callback (settled_try A) (boost_future B)) : fut B :=
  bridged f (λ completed w, hand_over (func completed w)).

Definition boost_thenError_flat {A} (f : boost_future A) (func : callback exn (boost_future A)) : fut A :=
  bridged f (λ completed w,
    match completed with
    | try_value a => (Some (try_value a), w)
    | try_exception e => hand_over (func e w)
    end).

Definition as_completions {A B} (func : callback A (boost_future B)) : callback A (fut B) := λ a w,
  match func a w with (inl s, w) => (inl (completes s), w) | (inr e, w) => (inr e, w) end.

Definition never_throws {A B} (func : callback A B) : Prop := ∀ a w, is_Some (match (func a w).1 with inl b => Some b | inr _ => None end).

Lemma hand_over_flatten {A B} (func : callback A (boost_future B)) a w :
  never_throws func →
  (let '(set, w) := hand_over (func a w) in (default (try_exception broken_promise) set, w)) =
  ref_flatten (as_completions func a w).
Proof.
  intros Hf. specialize (Hf a w). unfold as_completions. destruct (func a w) as [[inner|e] w1]; [|by destruct Hf].
  cbn. by destruct (completes inner w1).
Qed.

(** The Boost continuations behave as the reference does: [thenValue], [thenTry]
    and [thenError] always, and the variants that flatten when the function does not
    throw. *)
Theorem boost_meets_reference {A B} (f : boost_future A) (w : W) :
  (∀ func : callback A B, completes (boost_thenValue f func) w = ref_thenValue (completes f) func w) ∧
  (∀ func : callback (settled_try A) B, completes (boost_thenTry f func) w = ref_thenTry (completes f) func w) ∧
  (∀ func, completes (boost_thenError f func) w = ref_thenError (completes f) func w) ∧
  (∀ func : callback A (boost_future B), never_throws func →
     boost_thenValue_flat f func w = ref_thenValue_flat (completes f) (as_completions func) w) ∧
  (∀ func : callback (settled_try A) (boost_future B), never_throws func →
     boost_thenTry_flat f func w = ref_thenTry_flat (completes f) (as_completions func) w) ∧
  (∀ func, never_throws func →
     boost_thenError_flat f func w = ref_thenError_flat (completes f) (as_completions func) w).
Proof.
  split_and!.
  - intros func. unfold boost_thenValue, ref_thenValue. rewrite completes_then. by destruct (completes f w) as [[a|e] w1].
  - intros func. apply completes_then.
  - intros func. unfold boost_thenError, ref_thenError. rewrite completes_then. by destruct (completes f w) as [[a|e] w1].
  - intros func Hf. unfold boost_thenValue_flat, bridged, ref_thenValue_flat.
    destruct (completes f w) as [[a|e] w1]; [by apply hand_over_flatten|done].
  - intros func Hf. unfold boost_thenTry_flat, bridged, ref_thenTry_flat.
    destruct (completes f w) as [t w1]. by apply hand_over_flatten.
  - intros func Hf. unfold boost_thenError_flat, bridged, ref_thenError_flat.
    destruct (completes f w) as [[a|e] w1]; [done|by apply hand_over_flatten].
Qed.

(** A function that throws in a variant that flattens: its exception is lost, the
    future reports a broken promise. *)
Theorem bridge_loses_exception {A B} (f : boost_future A) (func : callback (settled_try A) (boost_future B)) (w w1 w2 : W) t e :
  completes f w = (t, w1) → func t w1 = (inr e, w2) →
  boost_thenTry_flat f func w = (try_exception broken_promise, w2) ∧
  ref_thenTry_flat (completes f) (as_completions func) w = (try_exception e, w2).
Proof.
  intros Hf Ht. unfold boost_thenTry_flat, bridged, ref_thenTry_flat, as_completions. rewrite Hf, Ht. done.
Qed.
End boost.
End backends.

(** ** The laws can hold *)

Arguments StdExec : clear implicits.
Arguments BoostThread : clear implicits.
Arguments set_value {A}.
Arguments set_error {A}.
Arguments set_stopped {A}.

(** A sender as the function that runs it. *)
#[local] Instance direct_stdexec W : StdExec W := {|
  sender A := W → completion A * W;
  runs A s w := s w;
  just A a w := (set_value a, w);
  just_error A e w := (set_error e, w);
  then_ A B s f w := match s w with
    | (set_value a, w) => match f a w with (inl b, w) => (set_value b, w) | (inr e, w) => (set_error e, w) end
    | (set_error e, w) => (set_error e, w)
    | (set_stopped, w) => (set_stopped, w)
    end;
  let_value A B s f w := match s w with
    | (set_value a, w) => match f a w with (inl s2, w) => s2 w | (inr e, w) => (set_error e, w) end
    | (set_error e, w) => (set_error e, w)
    | (set_stopped, w) => (set_stopped, w)
    end;
  let_error A s f w := match s w with
    | (set_error e, w) => match f e w with (inl s2, w) => s2 w | (inr e, w) => (set_error e, w) end
    | r => r
    end;
  schedule_after d w := (set_value tt, w)
|}.

#[local] Instance direct_stdexec_laws W : StdExecLaws (W := W).
Proof. by split. Qed.

#[local] Instance direct_boost W : BoostThread W := {|
  boost_future A := fut A;
  completes A f := f;
  boost_then A B f func w := let '(t, w) := f w in let '(r, w) := func t w in (settle r, w)
|}.

#[local] Instance direct_boost_laws W : BoostThreadLaws (W := W).
Proof. by split. Qed.

(** The world counts calls. *)
Lemma stdexec_meets_reference_witness :
  let s : sender (W := nat) N := just 1%N in
  let f : callback (W := nat) (settled_try N) N := λ t calls, (inl 2%N, S calls) in
  into_try (thenTry s f) 0 = ref_thenTry (into_try s) f 0 ∧ into_try (thenTry s f) 0 = (try_value 2%N, 1).
Proof.
  split; [|done].
  apply (stdexec_meets_reference (W := nat) (just 1%N : sender (W := nat) N) 0); [done|]. intros t w. by eexists.
Defined.

(** A function that throws when it sees a value is called twice. *)
Lemma then_try_calls_again_witness :
  let s : sender (W := nat) N := just 1%N in
  let f : callback (W := nat) (settled_try N) N := λ t calls,
    (match t with try_value _ => inr (runtime_error "first") | try_exception _ => inl 2%N end, S calls) in
  into_try (thenTry s f) 0 = (try_value 2%N, 2).
Proof.
  refine (then_try_calls_again (W := nat) (just 1%N : sender (W := nat) N)
    (λ t calls, (match t with try_value _ => inr (runtime_error "first") | try_exception _ => inl 2%N end, S calls))
    0 0 1 1%N (runtime_error "first") _ _); reflexivity.
Defined.
