(* ===== verification/CollectorBackends.v ===== *)
(** The collectors of the future backends: [FutureCollector] of [future_stdexec.hpp]
    and of [future_boost.hpp].

    In the stdexec backend every future has a callback that records how it completed
    in a shared state; the callbacks of [collectAll] are two steps each, which the
    threads interleave.  In the Boost backend one continuation after another looks
    which futures are ready. *)

From S2P Require Import Prelude Types FutureCollector FutureChannel.

Section collectors.
Context {A : Type}.
Abbreviation tries := (list (settled_try A)).
Abbreviation arrivals := (list (nat * settled_try A)).

(** ** [collectAll] *)

Inductive phase : Type := todo | written | counted.
#[export] Instance phase_eq_dec : EqDecision phase.
Proof. solve_decision. Defined.

(** The shared state, where each callback is, and what the promise was given. *)
Record collect_state : Type := mk_collect {
  results : list (option (settled_try A));
  remaining : N;
  phases : list phase;
  given : list (outcome tries)
}.

Definition collectAll (n : nat) : collect_state :=
  mk_collect (replicate n None) (N.of_nat n) (replicate n todo) (if decide (n = 0) then [Ret []] else []).

(** [state->results[i] = result] *)
Definition write_result (i : nat) (r : settled_try A) (s : collect_state) : collect_state :=
  mk_collect (<[i := Some r]> (results s)) (remaining s) (<[i := written]> (phases s)) (given s).

(** [std::move( *r )] of each result. *)
Definition take_results (rs : list (option (settled_try A))) : outcome tries :=
  match mapM id rs with Some ts => Ret ts | None => Undef "empty optional" end.

(** [fetch_sub], and what the last one does. *)
Definition count_result (i : nat) (s : collect_state) : collect_state :=
  mk_collect (results s) (remaining s ⊖ 1) (<[i := counted]> (phases s))
    (if decide (remaining s = 1%N) then given s ++ [take_results (results s)] else given s).

Section all.
(** How each future completes. *)
Context (outcomes : tries).

Inductive collect_step (s : collect_state) : collect_state → Prop :=
  | step_record i r : outcomes !! i = Some r → phases s !! i = Some todo → collect_step s (write_result i r s)
  | step_count i : phases s !! i = Some written → collect_step s (count_result i s).

Definition uncounted (s : collect_state) : nat := length (filter (λ p, p ≠ counted) (phases s)).

Record collect_ok (s : collect_state) : Prop := {
  phases_length : length (phases s) = length outcomes;
  results_length : length (results s) = length outcomes;
  results_written i p : phases s !! i = Some p → p ≠ todo → results s !! i = Some (outcomes !! i);
  remaining_counts : remaining s = N.of_nat (uncounted s);
  given_at_end : given s = if decide (uncounted s = 0) then [Ret outcomes] else []
}.

Lemma filter_insert_count (l : list phase) i p q :
  l !! i = Some p →
  length (filter (λ p, p ≠ counted) (<[i := q]> l)) + (if decide (p = counted) then 0 else 1) =
  length (filter (λ p, p ≠ counted) l) + (if decide (q = counted) then 0 else 1).
Proof.
  revert i. induction l as [|x l IH]; intros [|i]; [done|done| |].
  - intros [= ->]. change (<[0 := q]> (p :: l)) with (q :: l). rewrite !filter_cons. repeat case_decide; cbn; naive_solver lia.
  - intros Hi. specialize (IH i Hi). change (<[S i := q]> (x :: l)) with (x :: <[i := q]> l). rewrite !filter_cons.
    destruct (decide (x ≠ counted)); cbn [length]; lia.
Qed.

Lemma counting_one (l : list phase) i p :
  l !! i = Some p → p ≠ counted →
  S (length (filter (λ p, p ≠ counted) (<[i := counted]> l))) = length (filter (λ p, p ≠ counted) l).
Proof.
  intros Hi Hp. pose proof (filter_insert_count l i p counted Hi) as H.
  rewrite (decide_False (P := p = counted)), decide_True in H by done. lia.
Qed.

Lemma uncounted_bound s : uncounted s ≤ length (phases s).
Proof. apply length_filter. Qed.

Lemma last_one_done s i :
  phases s !! i = Some written → uncounted s = 1 → ∀ j p, phases s !! j = Some p → j ≠ i → p = counted.
Proof.
  intros Hi Hone j p Hj Hne. destruct (decide (p = counted)) as [|Hp]; [done|exfalso].
  pose proof (counting_one (phases s) i written Hi ltac:(done)) as H1. unfold uncounted in Hone.
  assert (<[i := counted]> (phases s) !! j = Some p) as Hj' by (by rewrite list_lookup_insert_ne).
  pose proof (counting_one (<[i := counted]> (phases s)) j p Hj' Hp) as H2. lia.
Qed.

Lemma take_results_all rs : length rs = length outcomes → (∀ i, i < length outcomes → rs !! i = Some (outcomes !! i)) → take_results rs = Ret outcomes.
Proof.
  intros Hlen Hrs. unfold take_results. assert (rs = Some <$> outcomes) as ->.
  { apply list_eq. intros i. rewrite list_lookup_fmap. destruct (decide (i < length outcomes)) as [Hi|Hi].
    - rewrite Hrs by done. destruct (lookup_lt_is_Some_2 outcomes i Hi) as [x ->]. done.
    - by rewrite (lookup_ge_None_2 rs), (lookup_ge_None_2 outcomes) by lia. }
  assert (mapM id (Some <$> outcomes) = Some outcomes) as ->; [|done]. clear. induction outcomes as [|x l IH]; [done|]. cbn. by rewrite IH.
Qed.

Lemma collect_start_ok : collect_ok (collectAll (length outcomes)).
Proof.
  assert (uncounted (collectAll (length outcomes)) = length outcomes) as Hu.
  { unfold uncounted, collectAll. cbn [phases]. induction (length outcomes) as [|n IH]; [done|].
    change (replicate (S n) todo) with (todo :: replicate n todo). rewrite filter_cons_True by done. cbn [length]. by f_equal. }
  split; rewrite ?Hu; cbn; rewrite ?length_replicate; try done.
  - intros i p [-> _]%lookup_replicate. done.
  - case_decide as E; [|done]. by apply length_zero_iff_nil in E as ->.
Qed.

Lemma collect_step_ok s s' : collect_ok s → is_u64 (N.of_nat (length outcomes)) → collect_step s s' → collect_ok s'.
Proof.
  intros [H1 H2 H3 H4 H5] Hsmall Hstep. destruct Hstep as [i r Hr Hi|i Hi].
  - pose proof (filter_insert_count (phases s) i todo written Hi) as Hc. rewrite !decide_False in Hc by done.
    assert (uncounted (write_result i r s) = uncounted s) as Hu by (unfold uncounted, write_result; cbn [phases]; lia).
    split; rewrite ?Hu; cbn; rewrite ?length_insert; try done.
    intros j p. destruct (decide (i = j)) as [<-|Hne].
    + intros _ _. rewrite list_lookup_insert_eq; [by rewrite Hr|]. rewrite H2. by eapply lookup_lt_Some.
    + rewrite !list_lookup_insert_ne by done. apply H3.
  - assert (S (uncounted (count_result i s)) = uncounted s) as Hu by (by apply (counting_one (phases s) i written)).
    pose proof (uncounted_bound s) as Hb.
    split.
    + cbn. by rewrite length_insert.
    + done.
    + cbn. intros j p. destruct (decide (i = j)) as [<-|Hne]; [|rewrite list_lookup_insert_ne by done; apply H3].
      intros _ _. by apply (H3 i written).
    + cbn [remaining count_result]. rewrite H4, u64_sub_small by (unfold is_u64 in *; lia). lia.
    + cbn [given count_result]. destruct (decide (remaining s = 1%N)) as [E|E].
      * assert (uncounted (count_result i s) = 0) as -> by lia. rewrite H5, decide_False by lia. cbn.
        f_equal. apply take_results_all; [done|]. intros j Hj.
        destruct (lookup_lt_is_Some_2 (phases s) j) as [p Hp]; [lia|]. apply (H3 j p Hp).
        destruct (decide (j = i)) as [->|Hne]; [congruence|]. assert (p = counted) as -> by (eapply last_one_done; [exact Hi|lia|exact Hp|done]).
        done.
      * rewrite H5, !decide_False by lia. done.
Qed.

(** C32. [collectAll] gives every result, once.  Let there be fewer than [2 ^ 64] futures.
    In any interleaving of the atomic steps of their callbacks the
    promise is set at most once, never from an empty slot, with the results of all the
    futures in the order of the futures; and it is set when all callbacks are done. *)
Theorem collect_all_exact s :
  is_u64 (N.of_nat (length outcomes)) → rtc collect_step (collectAll (length outcomes)) s →
  given s = if decide (Forall (λ p, p = counted) (phases s)) then [Ret outcomes] else [].
Proof.
  intros Hsmall Hreach. assert (collect_ok s) as Hok.
  { pose proof collect_start_ok as H0. induction Hreach as [|x y z Hstep _ IH]; [done|]. by apply IH, (collect_step_ok x). }
  rewrite (given_at_end _ Hok). assert (uncounted s = 0 ↔ Forall (λ p, p = counted) (phases s)) as Hiff.
  { unfold uncounted. induction (phases s) as [|p l IH]; [done|]. rewrite filter_cons, Forall_cons. case_decide; cbn; [split; [lia|naive_solver]|].
    rewrite IH. destruct (decide (p = counted)); naive_solver. }
  by repeat case_decide; naive_solver.
Qed.
End all.

(** ** The first ones, in the stdexec backend *)

(** Callbacks that offer a result each: the first is taken. *)
Definition offer {B} (ch : channel_shared_state B) (x : settled_try B) : channel_shared_state B := (try_fulfill x ch).2.

Lemma first_offer_taken {B} (xs : list (settled_try B)) : result (foldl offer new_channel xs) = head xs.
Proof.
  destruct xs as [|x xs]; [done|]. cbn. induction xs as [|y xs IH]; [done|]. exact IH.
Qed.

(** [order]: the futures as they complete. *)
Definition collectAny (order : arrivals) : channel_shared_state (nat * settled_try A) :=
  foldl offer new_channel (try_value <$> order).

Record any_state : Type := mk_any { out : channel_shared_state (nat * A); failures_left : N }.

Definition record_any (s : any_state) (arrival : nat * settled_try A) : any_state :=
  match arrival with
  | (i, try_value v) => mk_any (offer (out s) (try_value (i, v))) (failures_left s)
  | (_, try_exception e) =>
      mk_any (if decide (failures_left s = 1%N) then offer (out s) (try_exception e) else out s) (failures_left s ⊖ 1)
  end.

Definition collectAnyWithoutException (n : nat) (order : arrivals) : any_state :=
  foldl record_any (mk_any new_channel (N.of_nat n)) order.

Record n_state : Type := mk_n { collected : arrivals; n_fulfilled : bool; n_given : list arrivals }.

Definition record_n (target : nat) (s : n_state) (arrival : nat * settled_try A) : n_state :=
  if n_fulfilled s then s
  else
    let collected := collected s ++ [arrival] in
    if decide (length collected = target) then mk_n [] true (n_given s ++ [collected]) else mk_n collected false (n_given s).

(** [total]: the number of futures. *)
Definition collectN (total n : nat) (order : arrivals) : list (outcome arrivals) :=
  if decide (total < n) then [Throw (invalid_argument "collectN: n cannot be greater than futures.size()")]
  else if decide (n = 0) then [Ret []]
  else Ret <$> n_given (foldl (record_n n) (mk_n [] false []) order).

Definition success (arrival : nat * settled_try A) : option (nat * A) :=
  match arrival with (i, try_value v) => Some (i, v) | (_, try_exception _) => None end.
Definition failure (arrival : nat * settled_try A) : option exn :=
  match arrival with (_, try_value _) => None | (_, try_exception e) => Some e end.

Lemma any_settled order s x : result (out s) = Some x → state (out s) = complete → result (out (foldl record_any s order)) = Some x.
Proof.
  revert s. induction order as [|[i [v|e]] order IH]; intros s Hr Hs; [done| |]; cbn [foldl]; apply IH; cbn;
    unfold offer, try_fulfill; try case_decide; by rewrite ?Hs.
Qed.

Lemma any_without_exception_spec order s :
  is_u64 (failures_left s) → (N.of_nat (length order) <= failures_left s)%N → out s = new_channel → (0 < failures_left s)%N →
  result (out (foldl record_any s order)) =
  match head (omap success order) with
  | Some (i, v) => Some (try_value (i, v))
  | None => if decide (N.of_nat (length order) = failures_left s) then try_exception <$> last (omap failure order) else None
  end.
Proof.
  revert s. induction order as [|[i [v|e]] order IH]; intros s Hsmall Hlen Hout Hpos; cbn [foldl].
  - rewrite Hout. cbn. rewrite decide_False; [done|]. cbn. lia.
  - cbn. apply any_settled; unfold record_any; cbn; by rewrite Hout.
  - change (omap success ((i, try_exception e) :: order)) with (omap success order).
    change (omap failure ((i, try_exception e) :: order)) with (e :: omap failure order).
    cbn [length] in *. destruct (decide (failures_left s = 1%N)) as [E|E].
    + assert (order = []) as -> by (destruct order; [done|cbn in *; lia]). cbn. rewrite decide_True by done.
      rewrite Hout. cbn. by rewrite decide_True by (rewrite E; done).
    + rewrite IH; unfold record_any; cbn [out failures_left]; rewrite ?u64_sub_small by (unfold is_u64 in *; lia);
        [|unfold is_u64 in *; lia|lia|by rewrite decide_False|lia].
      destruct (head (omap success order)) as [[j v]|] eqn:Eh; [done|].
      destruct (decide (N.of_nat (length order) = failures_left s - 1)%N) as [E2|E2]; [|by rewrite decide_False by lia].
      rewrite decide_True by lia. destruct (omap failure order) as [|e' es] eqn:Ef; [|done].
      exfalso. destruct order as [|[j [v|e']] order]; [cbn in *; lia|done|done].
Qed.

Lemma collect_n_spec target s order :
  n_fulfilled s = false → n_given s = [] → length (collected s) < target →
  n_given (foldl (record_n target) s order) =
  if decide (target ≤ length (collected s) + length order) then [take target (collected s ++ order)] else [].
Proof.
  revert s. induction order as [|x order IH]; intros s Hf Hg Hlt; cbn [foldl].
  - rewrite decide_False by (cbn; lia). done.
  - unfold record_n at 2. rewrite Hf. cbv zeta. rewrite length_app. cbn [length]. case_decide as E.
    + rewrite decide_True by lia. assert (∀ s, n_fulfilled s = true → foldl (record_n target) s order = s) as Hdone.
      { clear. induction order as [|y order IH]; intros s Hs; [done|]. cbn [foldl]. unfold record_n at 2. rewrite Hs. by apply IH. }
      rewrite Hdone by done. cbn. rewrite Hg. cbn. f_equal. rewrite (cons_middle x (collected s) order).
      rewrite app_assoc, take_app_length' by (rewrite length_app; cbn; lia). done.
    + rewrite IH by (cbn; rewrite ?length_app; cbn; lia || done). cbn [collected]. rewrite length_app, <- app_assoc. cbn [length app].
      replace (length (collected s) + 1 + length order) with (length (collected s) + S (length order)) by lia. done.
Qed.

Lemma any_without_exception_result total (order : arrivals) :
  is_u64 (N.of_nat total) → length order ≤ total → 0 < total →
  result (out (collectAnyWithoutException total order)) =
    match head (omap success order) with
    | Some (i, v) => Some (try_value (i, v))
    | None => if decide (length order = total) then try_exception <$> last (omap failure order) else None
    end.
Proof.
  intros Hsmall Hlen Hpos. unfold collectAnyWithoutException. rewrite any_without_exception_spec; cbn; [|done|lia|done|lia].
  destruct (head (omap success order)) as [[i v]|]; [done|]. by repeat case_decide; try lia.
Qed.

Lemma collect_n_result total n (order : arrivals) :
  0 < n ≤ total → collectN total n order = if decide (n ≤ length order) then [Ret (take n order)] else [].
Proof.
  intros Hn. unfold collectN. rewrite !decide_False by lia. rewrite collect_n_spec by (cbn; done || lia). cbn. by case_decide.
Qed.

(** The first ones are the first ones.  For futures that complete in some order:
    [collectAny] gives the first; [collectAnyWithoutException] the first that
    succeeds, or the exception of the last when all of them failed, and nothing
    before that; [collectN] the first [n], once, as soon as there are so many. *)
Theorem collectors_give_first total n (order : arrivals) :
  is_u64 (N.of_nat total) → length order ≤ total → 0 < n ≤ total →
  result (collectAny order) = try_value <$> head order ∧
  result (out (collectAnyWithoutException total order)) =
    match head (omap success order) with
    | Some (i, v) => Some (try_value (i, v))
    | None => if decide (length order = total) then try_exception <$> last (omap failure order) else None
    end ∧
  collectN total n order = if decide (n ≤ length order) then [Ret (take n order)] else [].
Proof.
  intros Hsmall Hlen Hn. split_and!.
  - unfold collectAny. rewrite first_offer_taken. by destruct order.
  - apply any_without_exception_result; [done|done|lia].
  - by apply collect_n_result.
Qed.

(** ** The first ones, in the Boost backend *)

Section boost.
(** How each future completes. *)
Context (outcomes : nat → settled_try A).

(** [pool]: the futures that are left, by their original numbers.  [observed]: the
    futures that are ready when each continuation of [when_any] runs.  [None]: it
    still waits. *)
Fixpoint collect_next_n (observed : list (gset nat)) (pool : list nat) (collected : arrivals) (n : nat) : option (outcome arrivals) :=
  if decide (length collected = n) then Some (Ret collected)
  else match observed with
       | [] => None
       | ready :: observed =>
           match list_find (λ i, i ∈ ready) pool with
           | None => Some (Undef "index out of range")
           | Some (pos, i) => collect_next_n observed (delete pos pool) (collected ++ [(i, outcomes i)]) n
           end
       end.

Fixpoint try_next_without_exception (observed : list (gset nat)) (pool : list nat) : option (outcome (nat * A)) :=
  match pool with
  | [] => Some (Throw (runtime_error "kythira::boost_backend::collectAnyWithoutException: every future failed"))
  | _ =>
      match observed with
      | [] => None
      | ready :: observed =>
          match list_find (λ i, i ∈ ready) pool with
          | None => Some (Undef "index out of range")
          | Some (pos, i) =>
              match outcomes i with
              | try_value v => Some (Ret (i, v))
              | try_exception _ => try_next_without_exception observed (delete pos pool)
              end
          end
      end
  end.

(** What the continuations see when each runs before the next future completes. *)
Definition one_by_one (past order : list nat) : list (gset nat) :=
  (λ k, list_to_set (past ++ take (S k) order)) <$> seq 0 (length order).

Lemma one_by_one_cons past i order : one_by_one past (i :: order) = list_to_set (past ++ [i]) :: one_by_one (past ++ [i]) order.
Proof.
  unfold one_by_one. cbn [length seq fmap list_fmap]. f_equal. rewrite <- fmap_S_seq, <- list_fmap_compose.
  apply list_fmap_ext. intros k x _. cbn. by rewrite <- app_assoc.
Qed.

Lemma find_only (pool : list nat) (ready : gset nat) i :
  i ∈ pool → (∀ j, j ∈ pool → j ∈ ready ↔ j = i) → ∃ pos, list_find (λ j, j ∈ ready) pool = Some (pos, i) ∧ pool !! pos = Some i.
Proof.
  intros Hi Hready. destruct (list_find_elem_of (λ j, j ∈ ready) pool i Hi) as [[pos j] Hf]; [by apply Hready|].
  pose proof Hf as (Hj & Hr & _)%list_find_Some. exists pos.
  assert (j = i) as -> by (apply Hready; [by eapply list_elem_of_lookup_2|done]). done.
Qed.

(** The pool after some futures completed: what is left, each once. *)
Definition pool_left (past order pool : list nat) : Prop := NoDup pool ∧ NoDup order ∧ order ⊆ pool ∧ ∀ j, j ∈ pool → j ∉ past.

Lemma pool_left_step past i order pool :
  pool_left past (i :: order) pool →
  ∃ pos, list_find (λ j, j ∈ (list_to_set (past ++ [i]) : gset nat)) pool = Some (pos, i) ∧ pool_left (past ++ [i]) order (delete pos pool) ∧
    length (delete pos pool) = length pool - 1.
Proof.
  intros (Hnd & [Hni Hno]%NoDup_cons & Hsub & Hpast).
  destruct (find_only pool (list_to_set (past ++ [i])) i) as (pos & Hf & Hpos).
  - apply Hsub. by left.
  - intros j Hj. rewrite elem_of_list_to_set, elem_of_app, list_elem_of_singleton. specialize (Hpast j Hj). naive_solver.
  - exists pos. split; [done|]. rewrite length_delete by (by eexists). split; [|done].
    rewrite (delete_Permutation pool pos i Hpos) in Hnd. apply NoDup_cons in Hnd as [Hi Hnd].
    assert (∀ j, j ∈ pool ↔ j = i ∨ j ∈ delete pos pool) as Hin.
    { intros j. rewrite (delete_Permutation pool pos i Hpos) at 1. apply elem_of_cons. }
    split_and!; [done|done| |].
    + intros j Hj. destruct (proj1 (Hin j)) as [->|?]; [apply Hsub; by right|done|done].
    + intros j Hj. rewrite elem_of_app, list_elem_of_singleton. intros [Hp| ->]; [|done]. apply (Hpast j); [apply Hin; by right|done].
Qed.

Lemma boost_collect_n past order pool collected n :
  pool_left past order pool → length collected ≤ n →
  collect_next_n (one_by_one past order) pool collected n =
  if decide (n ≤ length collected + length order) then
    Some (Ret (collected ++ take (n - length collected) ((λ i, (i, outcomes i)) <$> order)))
  else None.
Proof.
  revert past pool collected. induction order as [|i order IH]; intros past pool collected Hpool Hn.
  - cbn. repeat case_decide; try lia; [by rewrite take_nil, app_nil_r|done].
  - rewrite one_by_one_cons. cbn [collect_next_n]. case_decide as E.
    + rewrite decide_True by lia. by rewrite <- E, Nat.sub_diag, app_nil_r.
    + destruct (pool_left_step past i order pool Hpool) as (pos & -> & Hpool' & _). rewrite IH; [|done|rewrite length_app; cbn; lia].
      rewrite length_app. cbn [length]. repeat case_decide; try lia; [|done]. do 2 f_equal. rewrite <- app_assoc. f_equal.
      replace (n - length collected) with (S (n - (length collected + 1))) by lia. done.
Qed.

Lemma boost_any_without past order pool :
  pool_left past order pool → length order = length pool →
  try_next_without_exception (one_by_one past order) pool =
  Some (match head (omap success ((λ i, (i, outcomes i)) <$> order)) with
    | Some x => Ret x
    | None => Throw (runtime_error "kythira::boost_backend::collectAnyWithoutException: every future failed")
    end).
Proof.
  revert past pool. induction order as [|i order IH]; intros past pool Hpool Hlen.
  - by destruct pool.
  - rewrite one_by_one_cons. destruct (pool_left_step past i order pool Hpool) as (pos & Hf & Hpool' & Hl).
    destruct pool as [|x pool]; [done|]. cbn [try_next_without_exception]. rewrite Hf. cbn.
    destruct (outcomes i) as [v|e] eqn:Ei; cbn; rewrite ?Ei; [done|]. apply IH; [done|]. cbn in *. lia.
Qed.

Lemma last_failed (order : arrivals) :
  head (omap success order) = None → 0 < length order → is_Some (last order ≫= failure).
Proof.
  destruct (last order) as [[i [v|e]]|] eqn:El; intros Hn Hlen; [|by eexists|].
  - apply last_Some in El as [rest ->]. rewrite omap_app in Hn. by destruct (omap success rest).
  - apply last_None in El as ->. cbn in Hlen. lia.
Qed.

Lemma last_failure (order : arrivals) :
  head (omap success order) = None → last (omap failure order) = last order ≫= failure.
Proof.
  intros Hn. destruct (last order) as [[i [v|e]]|] eqn:El; [| |by apply last_None in El as ->].
  - apply last_Some in El as [rest ->]. rewrite omap_app in Hn. by destruct (omap success rest).
  - apply last_Some in El as [rest ->]. rewrite omap_app. cbn. by rewrite last_snoc.
Qed.

(** C31. Both backends collect the same.  When every future completes and each
    continuation of the Boost backend runs before the next one does, [collectN]
    gives in both backends the first [n] as they completed, and
    [collectAnyWithoutException] the first success.  When all fail both fail, with
    different exceptions: the Boost backend with its own "every future failed", the
    stdexec backend with the exception of the future that failed last. *)
Theorem collectors_agree (total n : nat) (order : list nat) :
  is_u64 (N.of_nat total) → order ≡ₚ seq 0 total → 0 < n ≤ total →
  let completed := (λ i, (i, outcomes i)) <$> order in
  let boost := try_next_without_exception (one_by_one [] order) (seq 0 total) in
  let stdexec := result (out (collectAnyWithoutException total completed)) in
  option_list (collect_next_n (one_by_one [] order) (seq 0 total) [] n) = collectN total n completed ∧
  match head (omap success completed) with
  | Some x => boost = Some (Ret x) ∧ stdexec = Some (try_value x)
  | None =>
      boost = Some (Throw (runtime_error "kythira::boost_backend::collectAnyWithoutException: every future failed")) ∧
      ∃ e, last completed ≫= failure = Some e ∧ stdexec = Some (try_exception e)
  end.
Proof.
  intros Hsmall Hperm Hn completed boost stdexec.
  assert (length order = total) as Hlen by (rewrite Hperm; apply length_seq).
  assert (pool_left [] order (seq 0 total)) as Hpool.
  { split_and!; [apply NoDup_seq|rewrite Hperm; apply NoDup_seq|intros i Hi; by rewrite <- Hperm|]. intros j _ Hj. by apply elem_of_nil in Hj. }
  assert (length completed = total) as Hcl by (unfold completed; by rewrite length_fmap).
  pose proof (any_without_exception_result total completed Hsmall ltac:(lia) ltac:(lia)) as Hany. split.
  - rewrite collect_n_result by done. rewrite boost_collect_n by (cbn; done || lia). cbn [length]. rewrite !decide_True by lia.
    by rewrite Nat.sub_0_r.
  - unfold boost, stdexec. rewrite boost_any_without by (rewrite ?length_seq; done). rewrite Hany. fold completed.
    destruct (head (omap success completed)) as [[i v]|] eqn:Eh; [done|]. rewrite decide_True by done.
    split; [done|]. rewrite (last_failure completed Eh).
    destruct (last_failed completed Eh) as [e He]; [lia|]. exists e. by rewrite He.
Qed.
End boost.

(** When two futures completed before the continuation runs, the Boost backend takes
    the one with the lower number, the stdexec backend the one that completed first. *)
Theorem tie_broken_by_number (a b : A) :
  let outcomes i := if decide (i = 0) then try_value a else try_value b in
  collect_next_n outcomes [ {[0; 1]} ] [0; 1] [] 1 = Some (Ret [(0, try_value a)]) ∧
  collectN 2 1 [(1, try_value b); (0, try_value a)] = [Ret [(1, try_value b)]].
Proof. done. Qed.
End collectors.

Lemma collect_all_exact_witness :
  let outcomes := [try_value 1%N; try_exception bad_optional_access] in
  let s := count_result 0 (count_result 1 (write_result 0 (try_value 1%N) (write_result 1 (try_exception bad_optional_access) (collectAll 2)))) in
  given s = [Ret outcomes].
Proof.
  refine (collect_all_exact [try_value 1%N; try_exception bad_optional_access] _ _ _); [done|].
  eapply rtc_l; [by apply (step_record _ _ 1)|]. eapply rtc_l; [by apply (step_record _ _ 0)|].
  eapply rtc_l; [by apply (step_count _ _ 1)|]. apply rtc_once. by apply (step_count _ _ 0).
Defined.

Lemma collectors_give_first_witness :
  result (collectAny [(1, try_value 5%N); (0, try_value 4%N)]) = Some (try_value (1, try_value 5%N)).
Proof. apply (collectors_give_first 2 1 [(1, try_value 5%N); (0, try_value 4%N)]); [done|cbn; lia|lia]. Defined.

Lemma collectors_agree_witness :
  let outcomes i := if decide (i = 0) then try_exception bad_optional_access else try_value 5%N in
  option_list (collect_next_n outcomes (one_by_one [] [1; 0]) [0; 1] [] 1) =
    collectN 2 1 [(1, try_value 5%N); (0, try_exception bad_optional_access)].
Proof.
  refine (proj1 (collectors_agree (λ i, if decide (i = 0) then try_exception bad_optional_access else try_value 5%N) 2 1 [1; 0] _ _ _));
    [done|apply Permutation_swap|lia].
Defined.
