(* ===== verification/MemoryPool.v ===== *)
(** The fixed-size block allocator ([memory_pool] of [memory_pool.hpp]).

    A pointer into the pool is its offset from the start of the pool's memory;
    [None] is the null pointer.  Every public operation is one critical section;
    the periodic reset worker takes the lock twice, once to see that nothing is
    allocated and once to reset. *)

From S2P Require Import Prelude Types Doubles.

Record allocation_info : Type := mk_alloc_info {
  timestamp : Z;
  context : string;
  thread_id : string
}.

Record memory_pool_metrics : Type := mk_metrics {
  total_size : N;
  allocated_size : N;
  free_size : N;
  allocation_count : N;
  deallocation_count : N;
  peak_usage : N;
  last_reset : Z
}.

Record memory_pool : Type := mk_pool {
  _pool_size : N;
  _block_size : N;
  _free_blocks : list N;
  _allocations : gmap N N;
  _allocation_contexts : gmap N allocation_info;
  _metrics : memory_pool_metrics;
  _reset_interval : Z;
  _periodic_reset_enabled : bool;
  _shutdown : bool;
  _leak_detection_enabled : bool;
  _leak_threshold : Z;
  (** The worker has seen an empty pool and released the lock. *)
  worker_resetting : bool
}.

#[export] Instance memory_pool_eta : Eta memory_pool := λ p,
  mk_pool (_pool_size p) (_block_size p) (_free_blocks p) (_allocations p) (_allocation_contexts p)
    (_metrics p) (_reset_interval p) (_periodic_reset_enabled p) (_shutdown p)
    (_leak_detection_enabled p) (_leak_threshold p) (worker_resetting p).
Definition set_free_blocks : list N → memory_pool → memory_pool := ltac:(setter _free_blocks).
Definition set_allocations : gmap N N → memory_pool → memory_pool := ltac:(setter _allocations).
Definition set_contexts : gmap N allocation_info → memory_pool → memory_pool :=
  ltac:(setter _allocation_contexts).
Definition set_metrics : memory_pool_metrics → memory_pool → memory_pool := ltac:(setter _metrics).
Definition set_reset_interval : Z → memory_pool → memory_pool := ltac:(setter _reset_interval).
Definition set_periodic_enabled : bool → memory_pool → memory_pool :=
  ltac:(setter _periodic_reset_enabled).
Definition set_leak_enabled : bool → memory_pool → memory_pool := ltac:(setter _leak_detection_enabled).
Definition set_leak_threshold : Z → memory_pool → memory_pool := ltac:(setter _leak_threshold).
Definition set_worker : bool → memory_pool → memory_pool := ltac:(setter worker_resetting).

(** ** Operations *)

(** The blocks of [initialize_blocks]; a block size of zero divides by zero. *)
Definition blocks (pool_size block_size : N) : list N :=
  (λ i, (N.of_nat i * block_size)%N) <$> seq 0 (N.to_nat (pool_size / block_size)).

Definition memory_pool_init (pool_size block_size : N) (reset_interval : Z)
    (enable_leak_detection : bool) (leak_threshold now : Z) : memory_pool :=
  mk_pool pool_size block_size (blocks pool_size block_size) ∅ ∅
    (mk_metrics pool_size 0 pool_size 0 0 0 now) reset_interval (0 <? reset_interval)%Z false
    enable_leak_detection leak_threshold false.

Definition capture_allocation_context : string := "allocation_context_captured".

Definition new_info (p : memory_pool) (now : Z) (caller_context thread : string) : allocation_info :=
  if _leak_detection_enabled p
  then mk_alloc_info now
         (if String.eqb caller_context EmptyString then capture_allocation_context else caller_context)
         thread
  else mk_alloc_info now EmptyString EmptyString.

Definition count_allocation (block_size : N) (m : memory_pool_metrics) : memory_pool_metrics :=
  let allocated := allocated_size m ⊕ block_size in
  mk_metrics (total_size m) allocated (free_size m ⊖ block_size) (allocation_count m ⊕ 1)
    (deallocation_count m) (if (peak_usage m <? allocated)%N then allocated else peak_usage m)
    (last_reset m).

Definition allocate (size : N) (caller_context thread : string) (now : Z) (p : memory_pool) :
    option N * memory_pool :=
  if (_block_size p <? size)%N then (None, p)
  else
    match _free_blocks p with
    | [] => (None, p)
    | block_ptr :: free =>
        let p := set_free_blocks free p in
        let p := set_allocations (<[block_ptr := size]> (_allocations p)) p in
        let p := set_contexts (<[block_ptr := new_info p now caller_context thread]>
                                 (_allocation_contexts p)) p in
        (Some block_ptr, set_metrics (count_allocation (_block_size p) (_metrics p)) p)
    end.

Definition count_deallocation (block_size : N) (m : memory_pool_metrics) : memory_pool_metrics :=
  mk_metrics (total_size m) (allocated_size m ⊖ block_size) (free_size m ⊕ block_size)
    (allocation_count m) (deallocation_count m ⊕ 1) (peak_usage m) (last_reset m).

Definition deallocate (ptr : option N) (p : memory_pool) : memory_pool :=
  match ptr with
  | None => p
  | Some ptr =>
      match _allocations p !! ptr with
      | None => p
      | Some _ =>
          let p := set_allocations (delete ptr (_allocations p)) p in
          let p := set_contexts (delete ptr (_allocation_contexts p)) p in
          let p := set_free_blocks (_free_blocks p ++ [ptr]) p in
          set_metrics (count_deallocation (_block_size p) (_metrics p)) p
      end
  end.

Definition reset (now : Z) (p : memory_pool) : memory_pool :=
  let p := set_allocations ∅ p in
  let p := set_contexts ∅ p in
  let p := set_free_blocks (blocks (_pool_size p) (_block_size p)) p in
  let m := _metrics p in
  set_metrics (mk_metrics (total_size m) 0 (_pool_size p) (allocation_count m)
                 (deallocation_count m) (peak_usage m) now) p.

Definition set_periodic_reset (enabled : bool) (interval : Z) (p : memory_pool) : memory_pool :=
  if enabled && negb (_periodic_reset_enabled p)
  then set_periodic_enabled true (set_reset_interval interval p)
  else if negb enabled && _periodic_reset_enabled p then set_periodic_enabled false p
  else p.

Definition set_leak_detection (enabled : bool) (threshold : Z) (p : memory_pool) : memory_pool :=
  set_leak_threshold threshold (set_leak_enabled enabled p).

(** The worker's critical section after the wait: it decides to reset and
    releases the lock. *)
Definition worker_check (p : memory_pool) : memory_pool :=
  if _shutdown p then p
  else if negb (_periodic_reset_enabled p) then p
  else if bool_decide (_allocations p = ∅) then set_worker true p
  else p.

(** The reset that follows, under a lock taken anew. *)
Definition worker_reset (now : Z) (p : memory_pool) : memory_pool :=
  if worker_resetting p then set_worker false (reset now p) else p.

(** ** Queries *)

Definition is_exhausted (p : memory_pool) : bool := match _free_blocks p with [] => true | _ => false end.
Definition available_space (p : memory_pool) : N := free_size (_metrics p).
Definition free_block_count (p : memory_pool) : N := N.of_nat (length (_free_blocks p)).
Definition allocated_block_count (p : memory_pool) : N := N.of_nat (size (_allocations p)).

(** [fragmentation_ratio] of [get_metrics], in percent. *)
Definition fragmentation_ratio (p : memory_pool) : outcome Z :=
  if (0 <? _pool_size p)%N && (0 <? _pool_size p / _block_size p)%N then
    let used := double_of_Z (Z.of_nat (size (_allocations p))) in
    let total := double_of_Z (Z.of_N (_pool_size p / _block_size p)) in
    long_long_of (double_mul (double_sub dbl_1 (double_div used total)) (double_of_Z 100))
  else Ret 0%Z.

Record memory_leak_info : Type := mk_leak {
  leak_address : N;
  leak_size : N;
  leak_age : Z;
  leak_context : string;
  leak_thread : string
}.

(** Allocations at least [_leak_threshold] seconds old; times are nanoseconds. *)
Definition leak_of (now : Z) (p : memory_pool) (alloc : N * N) : option memory_leak_info :=
  match _allocation_contexts p !! alloc.1 with
  | None => None
  | Some info =>
      let age := Z.quot (now - timestamp info) 1000000000 in
      if (_leak_threshold p <=? age)%Z then
        Some (if _leak_detection_enabled p
              then mk_leak alloc.1 alloc.2 age (context info) (thread_id info)
              else mk_leak alloc.1 alloc.2 age
                     "Long-lived allocation detected (enable leak detection for details)" "unknown")
      else None
  end.
Definition detect_leaks (now : Z) (p : memory_pool) : list memory_leak_info :=
  omap (leak_of now p) (map_to_list (_allocations p)).

(** ** Guards

    [memory_pool_guard], for guards of one pool: a guard is the pointer it owns.
    A moved-from guard owns nothing. *)

Definition memory_pool_guard : Type := option N.

Definition allocate_guarded (size : N) (caller_context thread : string) (now : Z) (p : memory_pool) :
    memory_pool_guard * memory_pool := allocate size caller_context thread now p.

Definition guard_destroy (g : memory_pool_guard) (p : memory_pool) : memory_pool :=
  match g with Some _ => deallocate g p | None => p end.

(** The new guard, and what is left of the other one. *)
Definition guard_move (other : memory_pool_guard) : memory_pool_guard * memory_pool_guard := (other, None).

(** Assignment between different guards (self-assignment does nothing). *)
Definition guard_assign (g other : memory_pool_guard) (p : memory_pool) :
    (memory_pool_guard * memory_pool_guard) * memory_pool :=
  ((other, None), match g with Some _ => deallocate g p | None => p end).

(** The released pointer, and the guard afterwards. *)
Definition guard_release (g : memory_pool_guard) : option N * memory_pool_guard := (g, None).

(** ** The pool's invariant *)

(** Every block is either free or allocated, once; the metrics agree. *)
Record pool_ok (p : memory_pool) : Prop := mk_pool_ok {
  ok_sizes : (0 < _block_size p)%N ∧ is_u64 (_pool_size p);
  ok_blocks : _free_blocks p ++ (map_to_list (_allocations p)).*1 ≡ₚ blocks (_pool_size p) (_block_size p);
  ok_requests : map_Forall (λ _ size, (size ≤ _block_size p)%N) (_allocations p);
  ok_contexts : dom (_allocation_contexts p) = dom (_allocations p);
  ok_allocated : allocated_size (_metrics p) = (_block_size p * N.of_nat (size (_allocations p)))%N;
  ok_free : (free_size (_metrics p) + allocated_size (_metrics p) = _pool_size p)%N
}.

Lemma blocks_spec pool_size block_size ptr :
  (0 < block_size)%N →
  ptr ∈ blocks pool_size block_size →
  ∃ i, ptr = (i * block_size)%N ∧ (ptr + block_size ≤ pool_size)%N.
Proof.
  intros Hb. unfold blocks. rewrite list_elem_of_fmap. intros (i & -> & Hi%elem_of_seq).
  exists (N.of_nat i). split; [done|].
  pose proof (N.Div0.mul_div_le pool_size block_size).
  assert (N.of_nat i + 1 ≤ pool_size / block_size)%N by lia. nia.
Qed.

Lemma blocks_nodup pool_size block_size : (0 < block_size)%N → NoDup (blocks pool_size block_size).
Proof.
  intros Hb. apply NoDup_fmap_2_strong; [|apply NoDup_seq].
  intros i j _ _ H. apply N.mul_cancel_r in H; lia.
Qed.

Lemma init_ok pool_size block_size interval leaks threshold now :
  (0 < block_size)%N → is_u64 pool_size →
  pool_ok (memory_pool_init pool_size block_size interval leaks threshold now).
Proof.
  intros Hb Hu. constructor; cbn; [done|by rewrite map_to_list_empty, app_nil_r|apply map_Forall_empty|set_solver|
    rewrite map_size_empty; lia|lia].
Qed.

Lemma reset_ok now p : pool_ok p → pool_ok (reset now p).
Proof.
  intros [Hs _ _ _ _ _]. constructor; cbn; [done|by rewrite map_to_list_empty, app_nil_r|apply map_Forall_empty|set_solver|
    rewrite map_size_empty; lia|lia].
Qed.

(** Blocks are counted: free and allocated ones make up the pool. *)
Lemma ok_count p :
  pool_ok p →
  (N.of_nat (length (_free_blocks p)) + N.of_nat (size (_allocations p)) = _pool_size p / _block_size p)%N.
Proof.
  intros [_ H _ _ _ _]. apply Permutation_length in H. revert H. unfold blocks.
  rewrite length_app, !length_fmap, length_map_to_list, length_seq. lia.
Qed.

Lemma ok_nodup p : pool_ok p → NoDup (_free_blocks p ++ (map_to_list (_allocations p)).*1).
Proof. intros [[Hb _] H _ _ _ _]. rewrite H. by apply blocks_nodup. Qed.

Lemma free_not_allocated p ptr : pool_ok p → ptr ∈ _free_blocks p → _allocations p !! ptr = None.
Proof.
  intros (_ & Hd & _)%ok_nodup%NoDup_app Hf. destruct (_allocations p !! ptr) as [x|] eqn:E; [|done].
  exfalso. apply (Hd ptr Hf). rewrite list_elem_of_fmap. exists (ptr, x). split; [done|].
  by apply elem_of_map_to_list.
Qed.

Lemma allocate_ok size ctx thread now p : pool_ok p → pool_ok (allocate size ctx thread now p).2.
Proof.
  intros Hok. unfold allocate. destruct (N.ltb_spec (_block_size p) size) as [|Hs]; [done|].
  destruct (_free_blocks p) as [|b free] eqn:Ef; [done|].
  pose proof (ok_count p Hok) as Hc. rewrite Ef in Hc. cbn [length] in Hc.
  assert (_allocations p !! b = None) as Hb.
  { apply free_not_allocated; [done|]. rewrite Ef. apply list_elem_of_here. }
  destruct Hok as [[Hbs Hu] Hbl Hr Hcx Ha Hf].
  pose proof (N.Div0.mul_div_le (_pool_size p) (_block_size p)).
  assert (_block_size p * N.of_nat (base.size (_allocations p)) + _block_size p ≤ _pool_size p)%N by nia.
  unfold is_u64 in Hu. constructor; cbn.
  - done.
  - rewrite <- Hbl, Ef, map_to_list_insert by done. cbn. by rewrite <- Permutation_middle.
  - apply map_Forall_insert_2; [exact Hs|exact Hr].
  - rewrite !dom_insert_L. by rewrite Hcx.
  - rewrite map_size_insert_None by done. rewrite u64_add_small; lia.
  - rewrite u64_add_small, u64_sub_small by (unfold is_u64; lia). lia.
Qed.

Lemma deallocate_ok ptr p : pool_ok p → pool_ok (deallocate ptr p).
Proof.
  intros Hok. unfold deallocate. destruct ptr as [ptr|]; [|done].
  destruct (_allocations p !! ptr) as [x|] eqn:E; [|done].
  pose proof (ok_count p Hok) as Hc. destruct Hok as [[Hbs Hu] Hbl Hr Hcx Ha Hf].
  pose proof (N.Div0.mul_div_le (_pool_size p) (_block_size p)).
  assert (0 < base.size (_allocations p)) as Hn.
  { destruct (base.size (_allocations p)) eqn:En; [|lia]. apply map_size_empty_inv in En.
    by rewrite En, lookup_empty in E. }
  unfold is_u64 in Hu. constructor; cbn.
  - done.
  - rewrite <- Hbl. rewrite <- app_assoc. f_equiv. cbn.
    by rewrite <- (map_to_list_delete (_allocations p) ptr x E).
  - by apply map_Forall_delete.
  - rewrite !dom_delete_L. by rewrite Hcx.
  - rewrite map_size_delete_Some by eauto. rewrite u64_sub_small by (unfold is_u64; nia). nia.
  - rewrite u64_add_small by nia. rewrite u64_sub_small by (unfold is_u64; nia). nia.
Qed.

(** A guard gives back what it took: when it goes out of scope, whether it still
    owns the block or was assigned over, the allocations are as before. *)
Lemma guard_scope size ctx thread now p :
  pool_ok p →
  let '(g, p1) := allocate_guarded size ctx thread now p in
  _allocations (guard_destroy g p1) = _allocations p ∧
  ∀ other, _allocations (guard_assign g other p1).2 = _allocations p ∧
    (guard_assign g other p1).1.1 = other ∧ guard_destroy (guard_assign g other p1).1.2 p1 = p1.
Proof.
  intros Hok. unfold allocate_guarded, allocate. destruct (_block_size p <? size)%N; [done|].
  destruct (_free_blocks p) as [|b free] eqn:Ef; [done|].
  assert (_allocations p !! b = None) as Hb.
  { apply free_not_allocated; [done|]. rewrite Ef. apply list_elem_of_here. }
  simpl. rewrite lookup_insert_eq. simpl. rewrite delete_insert_id by done. done.
Qed.

(** ** Histories *)

Inductive pool_op : Type :=
  | op_allocate (size : N) (ctx thread : string) (now : Z)
  | op_deallocate (ptr : option N)
  | op_reset (now : Z)
  | op_set_periodic_reset (enabled : bool) (interval : Z)
  | op_set_leak_detection (enabled : bool) (threshold : Z)
  | op_worker_check
  | op_worker_reset (now : Z).

Definition pool_step (p : memory_pool) (o : pool_op) : memory_pool :=
  match o with
  | op_allocate size ctx thread now => (allocate size ctx thread now p).2
  | op_deallocate ptr => deallocate ptr p
  | op_reset now => reset now p
  | op_set_periodic_reset enabled interval => set_periodic_reset enabled interval p
  | op_set_leak_detection enabled threshold => set_leak_detection enabled threshold p
  | op_worker_check => worker_check p
  | op_worker_reset now => worker_reset now p
  end.

(** Settings do not matter to the invariant. *)
Lemma ok_settings p p' :
  _pool_size p' = _pool_size p → _block_size p' = _block_size p → _free_blocks p' = _free_blocks p →
  _allocations p' = _allocations p → _allocation_contexts p' = _allocation_contexts p →
  _metrics p' = _metrics p → pool_ok p → pool_ok p'.
Proof. intros E1 E2 E3 E4 E5 E6 []. constructor; by rewrite ?E1, ?E2, ?E3, ?E4, ?E5, ?E6. Qed.

Lemma pool_step_ok p o : pool_ok p → pool_ok (pool_step p o).
Proof.
  intros H. destruct o; cbn [pool_step].
  - by apply allocate_ok.
  - by apply deallocate_ok.
  - by apply reset_ok.
  - unfold set_periodic_reset. repeat case_match; by apply (ok_settings p).
  - by apply (ok_settings p).
  - unfold worker_check. repeat case_match; by apply (ok_settings p).
  - unfold worker_reset. case_match; [|done]. apply (ok_settings (reset now p)); try done. by apply reset_ok.
Qed.

(** C38. The allocator hands out disjoint blocks: after any interleaving of
    allocations, deallocations (of any pointers), resets, settings and steps of
    the reset worker, every block of the pool is on the free list or allocated,
    exactly once, the reported free and allocated space add up to the pool, each
    allocation lies within the pool and no two allocations overlap; and a request
    is refused only when it is larger than a block or no block is free. *)
Theorem pool_allocations_disjoint pool_size block_size interval leaks threshold start ops :
  (0 < block_size)%N → is_u64 pool_size →
  let p := foldl pool_step (memory_pool_init pool_size block_size interval leaks threshold start) ops in
  pool_ok p ∧
  (∀ a n, _allocations p !! a = Some n → (a + n ≤ _pool_size p)%N) ∧
  (∀ a b n m, _allocations p !! a = Some n → _allocations p !! b = Some m → a ≠ b →
     (a + n ≤ b ∨ b + m ≤ a)%N) ∧
  (∀ size ctx thread now, (allocate size ctx thread now p).1 = None ↔
     (_block_size p < size)%N ∨ free_block_count p = 0%N).
Proof.
  intros Hb Hu p. assert (pool_ok p) as Hok.
  { apply (foldl_invariant pool_ok); [intros; by apply pool_step_ok|by apply init_ok]. }
  split; [done|].
  assert (∀ a n, _allocations p !! a = Some n →
    ∃ i, a = (i * _block_size p)%N ∧ (a + _block_size p ≤ _pool_size p)%N ∧ (n ≤ _block_size p)%N) as Hblock.
  { intros a n Ha. destruct Hok as [[Hbs _] Hbl Hr _ _ _].
    destruct (blocks_spec (_pool_size p) (_block_size p) a Hbs) as (i & Ei & Hi).
    - rewrite <- Hbl. apply elem_of_app. right. rewrite list_elem_of_fmap. exists (a, n).
      split; [done|]. by apply elem_of_map_to_list.
    - exists i. split; [done|]. split; [done|]. by apply (Hr a n). }
  split_and!.
  - intros a n Ha. destruct (Hblock a n Ha) as (i & _ & ? & ?). lia.
  - intros a b n m Ha Hb' Hne. destruct (Hblock a n Ha) as (i & Ei & _ & Hn).
    destruct (Hblock b m Hb') as (j & Ej & _ & Hm). assert (i ≠ j) by congruence. nia.
  - intros size ctx thread now. unfold allocate, free_block_count.
    destruct (N.ltb_spec (_block_size p) size); [split; [by left|done]|].
    destruct (_free_blocks p); cbn; [split; [by right|done]|]. split; [done|]. lia.
Qed.

Lemma pool_allocations_disjoint_witness :
  let p := foldl pool_step (memory_pool_init 256 64 0 false 60 0)
    [op_allocate 10 "a" "t" 1; op_allocate 64 "b" "t" 2; op_deallocate (Some 0%N);
     op_allocate 1 "c" "t" 3] in
  _allocations p = {[ 64%N := 64%N; 128%N := 1%N ]} ∧ (64 + 64 ≤ 128 ∨ 128 + 1 ≤ 64)%N.
Proof.
  intros p. split; [vm_compute; reflexivity|].
  apply (pool_allocations_disjoint 256 64 0 false 60 0
    [op_allocate 10 "a" "t" 1; op_allocate 64 "b" "t" 2; op_deallocate (Some 0%N);
     op_allocate 1 "c" "t" 3]); vm_compute; congruence.
Defined.

(** ** The reset worker and its two critical sections *)

Module reset_race.
Definition idle : memory_pool := worker_check (memory_pool_init 256 64 30 false 60 0).
Definition first := allocate 64 "first" "client" 1 idle.
Definition after_reset : memory_pool := worker_reset 2 first.2.
Fixpoint allocate_times (n : nat) (p : memory_pool) : list (option N) :=
  match n with
  | O => []
  | S n => let '(ptr, p) := allocate 64 "later" "other" 3 p in ptr :: allocate_times n p
  end.
End reset_race.

(** The periodic reset can take memory away from its owner: the worker sees
    that nothing is allocated, releases the lock and takes it again to reset.
    When a client allocates in between, the reset puts the client's block back on
    the free list, and it is handed out again although the client never
    deallocated it. *)
Theorem worker_reset_reissues_block :
  reset_race.first.1 = Some 0%N ∧ _allocations reset_race.first.2 = {[ 0%N := 64%N ]} ∧
  _allocations reset_race.after_reset = ∅ ∧
  Some 0%N ∈ reset_race.allocate_times 1 reset_race.after_reset.
Proof. vm_compute. repeat split. by left. Qed.
