(* ===== verification/Log.v ===== *)
(** The log of a node: accessors ([raft.hpp], [get_last_log_index],
    [get_last_log_term], [get_log_entry], [append_log_entry]) and the theory of
    contiguous logs they are correct for. *)

From S2P Require Import Prelude Types Node.

Section log.
Context {P SM : Type}.
Abbreviation node := (node P SM).
Implicit Types s : node.

Definition get_last_log_index s : N :=
  match last (_log s) with
  | None => _commit_index s
  | Some e => e_index e
  end.

Definition get_last_log_term s : N :=
  match last (_log s) with
  | None => 0%N
  | Some e => e_term e
  end.

Definition append_log_entry (entry : log_entry) s : node := set_log (_log s ++ [entry]) s.

Definition get_log_entry (index : N) s : option log_entry :=
  if (index =? 0)%N then None
  else match head (_log s) with
  | None => None
  | Some front =>
      let first_log_index := e_index front in
      let last_log_index := get_last_log_index s in
      if (index <? first_log_index)%N then None
      else if (last_log_index <? index)%N then None
      else
        let vector_index := index ⊖ first_log_index in
        if (N.of_nat (length (_log s)) <=? vector_index)%N then None
        else _log s !! N.to_nat vector_index
  end.

(** The most recent configuration entry: the backward scan of
    [append_entries_with_consistency_check] and [initialize_from_storage]. *)
Definition is_configuration_entry (e : log_entry) : bool :=
  match e_type e with configuration => true | _ => false end.
Definition latest_configuration_entry (l : list log_entry) : option log_entry :=
  List.find is_configuration_entry (rev l).

End log.

(** ** Contiguous logs *)

(** [contiguous base l]: the entries of [l] have the indices [base + 1],
    [base + 2], ... *)
Definition contiguous (base : N) (l : list log_entry) : Prop :=
  ∀ k e, l !! k = Some e → e_index e = (base + 1 + N.of_nat k)%N.

(** The log as a map from indices to entries. *)
Definition entry_at (base : N) (l : list log_entry) (i : N) : option log_entry :=
  if (i <=? base)%N then None else l !! N.to_nat (i - base - 1).

Lemma contiguous_nil base : contiguous base [].
Proof. intros k e H. by rewrite lookup_nil in H. Qed.

Lemma contiguous_app base l1 l2 :
  contiguous base (l1 ++ l2) ↔
    contiguous base l1 ∧ contiguous (base + N.of_nat (length l1)) l2.
Proof.
  split.
  - intros H. split; intros k e Hk.
    + apply H. by apply lookup_app_l_Some.
    + rewrite (H (length l1 + k) e); [lia|].
      rewrite lookup_app_r by lia. by replace (length l1 + k - length l1) with k by lia.
  - intros [H1 H2] k e [Hk|[Hlen Hk]]%lookup_app_Some; [by apply H1|].
    rewrite (H2 _ _ Hk). lia.
Qed.

Lemma contiguous_singleton base e : contiguous base [e] ↔ e_index e = (base + 1)%N.
Proof.
  split.
  - intros H. rewrite (H 0 e eq_refl). lia.
  - intros He [|k] e' Hk; simplify_eq/=. lia.
Qed.

Lemma contiguous_cons base e l :
  contiguous base (e :: l) ↔ e_index e = (base + 1)%N ∧ contiguous (base + 1) l.
Proof.
  change (e :: l) with ([e] ++ l). rewrite contiguous_app, contiguous_singleton. done.
Qed.

Lemma contiguous_take base n l : contiguous base l → contiguous base (take n l).
Proof. intros H k e [Hk _]%lookup_take_Some. by apply H. Qed.

Lemma contiguous_drop base n l :
  contiguous base l → n ≤ length l → contiguous (base + N.of_nat n) (drop n l).
Proof. intros H Hn k e Hk. rewrite lookup_drop in Hk. rewrite (H _ _ Hk). lia. Qed.

Lemma contiguous_last base l e :
  contiguous base l → last l = Some e → e_index e = (base + N.of_nat (length l))%N.
Proof.
  intros H Hl. rewrite last_lookup in Hl. rewrite (H _ _ Hl).
  destruct l; simpl in *; [done|lia].
Qed.

Lemma contiguous_head base l e :
  contiguous base l → head l = Some e → e_index e = (base + 1)%N.
Proof. intros H Hl. destruct l; simplify_eq/=. by rewrite (H 0 e eq_refl), N.add_0_r. Qed.

Lemma entry_at_Some base l i e :
  entry_at base l i = Some e ↔
    (base < i)%N ∧ l !! N.to_nat (i - base - 1) = Some e.
Proof. unfold entry_at. destruct (N.leb_spec i base); split; intros; destruct_and?; try done; lia. Qed.

Lemma entry_at_lookup base l k : entry_at base l (base + 1 + N.of_nat k) = l !! k.
Proof.
  unfold entry_at. destruct (N.leb_spec (base + 1 + N.of_nat k) base); [lia|].
  f_equal. lia.
Qed.

(** [entries_between base l a b]: the entries after index [a] up to [b]. *)
Definition entries_between (base : N) (l : list log_entry) (a b : N) : list log_entry :=
  take (N.to_nat (b - a)) (drop (N.to_nat (a - base)) l).

Lemma entries_between_cons base l a b e :
  (base <= a)%N → (a < b)%N → entry_at base l (a + 1) = Some e →
  entries_between base l a b = e :: entries_between base l (a + 1) b.
Proof.
  intros Ha Hb He. apply entry_at_Some in He as [_ He]. unfold entries_between.
  replace (N.to_nat (a + 1 - base - 1)) with (N.to_nat (a - base)) in He by lia.
  rewrite (drop_S _ _ _ He). replace (N.to_nat (b - a)) with (S (N.to_nat (b - (a + 1)))) by lia.
  simpl. do 3 f_equal. lia.
Qed.

Lemma entries_between_same base l a : entries_between base l a a = [].
Proof. unfold entries_between. by rewrite N.sub_diag. Qed.

Lemma entries_between_prefix base l l' a b :
  l `prefix_of` l' → (base <= a)%N → (b <= base + N.of_nat (length l))%N →
  entries_between base l' a b = entries_between base l a b.
Proof.
  intros [k ->] Ha Hb. unfold entries_between.
  destruct (decide (N.to_nat (a - base) ≤ length l)).
  - rewrite drop_app_le by done. rewrite take_app_le; [done|]. rewrite length_drop. lia.
  - replace (N.to_nat (b - a)) with 0 by lia. done.
Qed.

Lemma entry_at_prefix base l l' i :
  l `prefix_of` l' → (i <= base + N.of_nat (length l))%N → entry_at base l' i = entry_at base l i.
Proof.
  intros [k ->] Hi. unfold entry_at. destruct (N.leb_spec i base); [done|].
  apply lookup_app_l. lia.
Qed.

Section accessors.
Context {P SM : Type}.
Implicit Types s : node P SM.

(** [log_wf base s]: the log starts right after [base], its indices are
    contiguous machine integers, and an empty log means everything up to the
    commit index was compacted away. *)
Definition log_wf (base : N) s : Prop :=
  contiguous base (_log s) ∧
  (_log s = [] → base = _commit_index s) ∧
  is_u64 (base + N.of_nat (length (_log s)) + 1).

Lemma get_last_log_index_wf base s :
  log_wf base s → get_last_log_index s = (base + N.of_nat (length (_log s)))%N.
Proof.
  intros (Hc & Hn & _). unfold get_last_log_index. destruct (last (_log s)) as [e|] eqn:E.
  - by apply contiguous_last.
  - apply last_None in E. rewrite E, <-(Hn E). simpl. lia.
Qed.

(** On a contiguous log [get_log_entry] is exactly the partial map from indices
    to entries. *)
Lemma get_log_entry_wf base s i :
  log_wf base s → get_log_entry i s = entry_at base (_log s) i.
Proof.
  intros Hwf. unfold get_log_entry. rewrite (get_last_log_index_wf base s) by done.
  destruct Hwf as (Hc & _ & Hb). unfold is_u64 in Hb. unfold entry_at.
  destruct (N.eqb_spec i 0) as [->|Hi].
  { destruct (N.leb_spec 0 base); [done|lia]. }
  destruct (head (_log s)) as [front|] eqn:Eh.
  - rewrite (contiguous_head _ _ _ Hc Eh).
    destruct (N.ltb_spec i (base + 1)); destruct (N.leb_spec i base); try lia; [done|].
    destruct (N.ltb_spec (base + N.of_nat (length (_log s))) i).
    { symmetry. apply lookup_ge_None. lia. }
    rewrite u64_sub_small by (unfold is_u64; lia).
    destruct (N.leb_spec (N.of_nat (length (_log s))) (i - (base + 1))); [lia|].
    f_equal. lia.
  - destruct (_log s); [|done]. by destruct (i <=? base)%N.
Qed.

Lemma get_log_entry_index base s i e :
  log_wf base s → get_log_entry i s = Some e → e_index e = i.
Proof.
  intros Hwf. rewrite (get_log_entry_wf base) by done. intros [? H]%entry_at_Some.
  destruct Hwf as (Hc & _). rewrite (Hc _ _ H). lia.
Qed.

End accessors.
