(* ===== verification/Roles.v ===== *)
(** Construction of a node, its timers, role transitions and configuration
    helpers ([raft.hpp]: the constructor, [randomize_election_timeout],
    [election_timeout_elapsed], [become_follower], [become_candidate],
    [become_leader], [cluster_members], [is_learner] and their like). *)

From S2P Require Import Prelude Types Membership Persistence CommitWaiter ConfigSync Node Log.

Section roles.
Context {P SM : Type} `{!PersistenceEngine P}.
Abbreviation node := (node P SM).
Implicit Types s : node.

(** ** Timers *)

(** [uniform_int_distribution(lo, hi)] over the stream of draws [_rng]; any
    value of the range is reached by some stream.  The distribution requires
    [lo <= hi], which [validate] checks. *)
Definition uniform_int (lo hi : Z) (draws : list Z) : Z :=
  match draws with
  | [] => lo
  | d :: _ => (lo + d mod (hi - lo + 1))%Z
  end.

Definition randomize_election_timeout s : node :=
  set_election_timeout
    (uniform_int (election_timeout_min (_config s)) (election_timeout_max (_config s)) (_rng s))
    (set_rng (tail (_rng s)) s).

Definition reset_election_timer s : node := set_last_heartbeat (now s) s.

Definition election_timeout_elapsed s : bool :=
  (_election_timeout s <=? elapsed_ms (now s) (_last_heartbeat s))%Z.

Definition heartbeat_timeout_elapsed s : bool :=
  (heartbeat_interval (_config s) <=? elapsed_ms (now s) (_last_heartbeat s))%Z.

(** ** Configuration helpers *)

Definition is_learner s : bool := contains_id (_learners (_configuration s)) (_node_id s).

(** [old_nodes().value()] throws when a joint configuration has no old set. *)
Definition cluster_members s : outcome (list N) :=
  let members := _nodes (_configuration s) in
  if _is_joint_consensus (_configuration s) then
    match _old_nodes (_configuration s) with
    | None => Throw bad_optional_access
    | Some old =>
        Ret (foldl (λ ms id, if contains_id ms id then ms else ms ++ [id]) members old)
    end
  else Ret members.

Definition sync_peer2peer_membership : M node () :=
  let! members := λ s, (cluster_members s, s) in
  mmodify (send (out_update_membership members)).

(** ** Quorum loop *)

Definition start_quorum_loop s : node :=
  set_last_quorum_check 0%Z (set_quorum_immediate_check false (set_quorum_check_active true s)).
Definition stop_quorum_loop s : node :=
  set_quorum_immediate_check false (set_quorum_check_active false s).

(** ** Role transitions *)

Definition become_follower (new_term : N) s : node :=
  let old_state := _state s in
  let old_term := _current_term s in
  let s := if is_leader_state old_state
           then with_waiter (cancel_all_operations_leadership_lost old_term new_term) s else s in
  let s := set_current_term new_term s in
  let s := set_state follower s in
  let s := set_voted_for None s in
  let s := if is_leader_state old_state then stop_quorum_loop s else s in
  randomize_election_timeout (reset_election_timer s).

Definition become_candidate : M node () :=
  let! old_state := gets _state in
  do! mmodify (λ s, set_current_term (_current_term s ⊕ 1) s) in
  do! mmodify (set_state candidate) in
  do! mmodify (λ s, set_voted_for (Some (_node_id s)) s) in
  let! term := gets _current_term in
  do! persist (save_current_term term) in
  let! id := gets _node_id in
  do! persist (save_voted_for id) in
  mmodify (λ s,
    let s := if is_leader_state old_state then stop_quorum_loop s else s in
    randomize_election_timeout (reset_election_timer s)).

(** Append to the log, then to the persistent log. *)
Definition append_and_persist (entry : log_entry) : M node () :=
  do! mmodify (append_log_entry entry) in
  persist (Persistence.append_log_entry entry).

Definition init_peer (last_log_idx : N) (s : node) (peer_id : N) : node :=
  if (peer_id =? _node_id s)%N then s
  else put_match_index peer_id 0%N (put_next_index peer_id (last_log_idx ⊕ 1) s).

Definition init_old_peer (last_log_idx : N) (s : node) (peer_id : N) : node :=
  match _next_index s !! peer_id with
  | None => init_peer last_log_idx s peer_id
  | Some _ => s
  end.

(** The old voters count in a joint configuration that has them. *)
Definition joint_old_nodes (cfg : cluster_configuration) : option (list N) :=
  if _is_joint_consensus cfg then _old_nodes cfg else None.

Definition init_peers s : node :=
  let last_log_idx := get_last_log_index s in
  let s := foldl (init_peer last_log_idx) s (_nodes (_configuration s)) in
  let s := match joint_old_nodes (_configuration s) with
           | Some old => foldl (init_old_peer last_log_idx) s old
           | None => s
           end in
  foldl (init_peer last_log_idx) s (_learners (_configuration s)).

Definition become_leader : M node () :=
  do! mmodify (set_state leader) in
  let! entry := gets (λ s, mk_entry (_current_term s) (get_last_log_index s ⊕ 1) [] no_op) in
  do! append_and_persist entry in
  mmodify (λ s, start_quorum_loop (set_last_heartbeat (now s) (init_peers s))).

(** ** Construction *)

Definition set_cluster_configuration (node_ids : list N) : M node () :=
  do! mmodify (λ s, set_configuration
                 (mk_config node_ids false None (_learners (_configuration s))) s) in
  do! mmodify (λ s, set_boot_configuration (_configuration s) s) in
  sync_peer2peer_membership.

Definition get_cluster_size s : N := N.of_nat (length (_nodes (_configuration s))).

Definition set_placement (id : N) (group : string) s : node :=
  set_placement_map (<[id := group]> (_placement_map s)) s.

(** [node(node_config)], from the components and values the caller supplies. *)
Definition node_init (persistence : P) (state_machine : SM) (config : raft_configuration)
    (node_id : N) (topology : list placement_group_target) (initial_placement : gmap N string)
    (rng : list Z) (start_time : Z) : node :=
  randomize_election_timeout {|
    _current_term := 0; _voted_for := None; _log := []; _commit_index := 0; _last_applied := 0;
    _state := follower; _next_index := ∅; _match_index := ∅; _unresponsive_followers := ∅;
    _persistence := persistence; _state_machine := state_machine; _commit_waiter := ∅;
    _config_synchronizer := sync_initial; _config := config; _node_id := node_id;
    _configuration := mk_config [node_id] false None []; _boot_configuration := empty_configuration;
    _election_timeout := election_timeout_min config; _last_heartbeat := start_time;
    _last_leader_contact := None; _rng := rng; _client_sessions := ∅; _known_leader := None;
    _stop_requested := false; _stop_flag := false; _running := false;
    _topology := topology; _placement_map := initial_placement;
    _heartbeat_failure_counts := ∅; _pending_provisions := ∅; _pending_replacing := ∅;
    _last_quorum_check := 0; _quorum_check_active := false; _quorum_immediate_check := false;
    _last_progress_gossip := 0; _catch_up_in_flight := false; snapshot_buffer := None;
    now := start_time; outbox := []; resolved := []; resolved_config := []; next_promise := 0
  |}.

End roles.
