(* ===== verification/Sample.v ===== *)
(** Concrete nodes: a cluster of three over the in-memory persistence engine and
    the key-value state machine, on which results are instantiated. *)

From S2P Require Import Prelude Types ConfigEntry Membership Persistence Node KvStateMachine Log Roles.

#[export] Existing Instances memory_persistence_engine.memory_engine
  memory_persistence_engine.memory_engine_ok memory_persistence_engine.memory_engine_reliable
  CodeJson.code_json CodeJson.code_json_ok default_membership_manager.manager.

Abbreviation sample_node_type := (node memory_persistence_engine.engine kv).

Definition sample_configuration : cluster_configuration := mk_config [1; 2; 3]%N false None [].

Definition sample_node (id : N) : sample_node_type :=
  set_boot_configuration sample_configuration
    (set_configuration sample_configuration
      (node_init memory_persistence_engine.initial kv_initial default_raft_configuration
         id [] ∅ [] 0%Z)).

(** A normal entry that puts [value] under [key]. *)
Definition put_entry (term index : N) (key value : bytes) : log_entry :=
  mk_entry term index (make_put_command key value) normal.

Definition sample_log : list log_entry :=
  [put_entry 1 1 [x61] [x01]; mk_entry 1 2 [] no_op; put_entry 1 3 [x61] [x02]].

Lemma sample_log_contiguous : contiguous 0 sample_log.
Proof. intros [|[|[|k]]] e [= <-]; reflexivity. Qed.
