(* ===== verification/AppendEntries.v ===== *)
(** Log consistency: [append_entries_with_consistency_check] of [raft.hpp] (rules
    3 to 5 of AppendEntries, shared by leader replication and peer catch-up),
    and its refinement of the merge of a log with a leader's entries. *)

From S2P Require Import Prelude Types ConfigEntry Membership Persistence Node Log Roles.

Section append_entries.
Context {P SM : Type} `{!PersistenceEngine P} {JL : JsonLib}.
Abbreviation node := (node P SM).
Implicit Types s : node.

(** The loop searching backwards for the first entry of the conflicting term:
    [for (i = prev_log_index; i > 0; --i)]. *)
Fixpoint find_conflict_index (i : nat) (conflict_term conflict_index : N) s : N :=
  match i with
  | O => conflict_index
  | S i' =>
      match get_log_entry (N.of_nat i) s with
      | None => (N.of_nat i + 1)%N
      | Some entry =>
          if negb (e_term entry =? conflict_term)%N then (N.of_nat i + 1)%N
          else find_conflict_index i' conflict_term
                 (if (i =? 1)%nat then 1%N else conflict_index) s
      end
  end.

(** Rule 3: the rejection, if the log has no entry at [prev_log_index] whose
    term is [prev_log_term]. *)
Definition consistency_failure (prev_log_index prev_log_term : N) s :
    option append_entries_response :=
  if (0 <? prev_log_index)%N then
    if (get_last_log_index s <? prev_log_index)%N then
      Some (mk_append_resp (_current_term s) false (Some (get_last_log_index s ⊕ 1)) None)
    else
      match get_log_entry prev_log_index s with
      | None => Some (mk_append_resp (_current_term s) false (Some prev_log_index) (Some 0%N))
      | Some prev_entry =>
          if (e_term prev_entry =? prev_log_term)%N then None
          else
            let conflict_term := e_term prev_entry in
            let conflict_index :=
              find_conflict_index (N.to_nat prev_log_index) conflict_term prev_log_index s in
            Some (mk_append_resp (_current_term s) false (Some conflict_index) (Some conflict_term))
      end
  else None.

(** [_log.erase(_log.begin() + k, _log.end())]. *)
Definition erase_from (k : N) : M node () := λ s,
  if (N.of_nat (length (_log s)) <? k)%N
  then (Undef "iterator past the end of the log", s)
  else (Ret tt, set_log (take (N.to_nat k) (_log s)) s).

(** Rule 4: truncate at the first conflicting entry; the result tells whether
    the log was modified. *)
Fixpoint truncate_conflict (entry_index : N) (entries : list log_entry) : M node bool :=
  match entries with
  | [] => mreturn false
  | new_entry :: rest =>
      let! conflict := gets (λ s,
        if (entry_index <=? get_last_log_index s)%N then
          match get_log_entry entry_index s with
          | Some existing => negb (e_term existing =? e_term new_entry)%N
          | None => false
          end
        else false) in
      if conflict : bool then
        do! erase_from (entry_index ⊖ 1) in
        do! persist (truncate_log entry_index) in
        mreturn true
      else truncate_conflict (entry_index ⊕ 1) rest
  end.

(** Rule 5: append the entries beyond the last log index. *)
Fixpoint append_new (entry_index : N) (entries : list log_entry) (log_modified : bool) : M node bool :=
  match entries with
  | [] => mreturn log_modified
  | new_entry :: rest =>
      let! is_new := gets (λ s, (get_last_log_index s <? entry_index)%N) in
      if is_new : bool then
        do! append_and_persist new_entry in
        append_new (entry_index ⊕ 1) rest true
      else append_new (entry_index ⊕ 1) rest log_modified
  end.

(** The configuration of the log's latest configuration entry, or the one the
    node was set up with. *)
Definition reverted_configuration s : outcome cluster_configuration :=
  match latest_configuration_entry (_log s) with
  | Some e => deserialize_configuration (e_command e)
  | None => Ret (_boot_configuration s)
  end.

Definition rescan_configuration : M node () :=
  let! reverted := λ s, (reverted_configuration s, s) in
  do! mmodify (set_configuration reverted) in
  do! sync_peer2peer_membership in
  let! term := gets _current_term in
  persist (save_current_term term).

Definition append_entries_with_consistency_check (prev_log_index prev_log_term : N)
    (entries : list log_entry) : M node append_entries_response :=
  let! failure := gets (consistency_failure prev_log_index prev_log_term) in
  match failure with
  | Some response => mreturn response
  | None =>
      let! truncated := truncate_conflict (prev_log_index ⊕ 1) entries in
      let! log_modified := append_new (prev_log_index ⊕ 1) entries truncated in
      do! mwhen log_modified rescan_configuration in
      let! term := gets _current_term in
      mreturn (mk_append_resp term true None None)
  end.

End append_entries.

(** ** Reference definition: merging a log suffix with the leader's entries *)

(** What is kept of [old]: everything up to the first entry whose term differs
    from the new entry at the same position. *)
Fixpoint keep (old new : list log_entry) : list log_entry :=
  match old, new with
  | o :: old', e :: new' => if (e_term o =? e_term e)%N then o :: keep old' new' else []
  | _, _ => old
  end.

(** Raft's rule: entries present in both are kept, a conflicting entry is
    replaced together with all that follow it, missing entries are added, and
    nothing is removed when there is no conflict. *)
Fixpoint merge_entries (old new : list log_entry) : list log_entry :=
  match old, new with
  | o :: old', e :: new' =>
      if (e_term o =? e_term e)%N then o :: merge_entries old' new' else new
  | [], _ => new
  | _, [] => old
  end.

Lemma merge_entries_keep old new :
  merge_entries old new = keep old new ++ drop (length (keep old new)) new.
Proof.
  revert new. induction old as [|o old IH]; intros [|e new]; simpl; try done.
  { by rewrite app_nil_r. }
  destruct (e_term o =? e_term e)%N; simpl; [|done]. by rewrite <-IH.
Qed.

Lemma keep_prefix old new : keep old new `prefix_of` old.
Proof.
  revert new. induction old as [|o old IH]; intros [|e new]; simpl; try done.
  destruct (e_term o =? e_term e)%N; [|apply prefix_nil]. by apply prefix_cons.
Qed.

Lemma keep_length old new : length (keep old new) ≤ length old.
Proof. apply prefix_length, keep_prefix. Qed.

Lemma keep_all old new :
  (∀ k o e, old !! k = Some o → new !! k = Some e → e_term o = e_term e) → keep old new = old.
Proof.
  revert new. induction old as [|o old IH]; intros [|e new] H; simpl; try done.
  rewrite (H 0 o e) by done. rewrite N.eqb_refl. f_equal. apply IH.
  intros k o' e' Ho He. by apply (H (S k)).
Qed.

(** Entries kept at a position where both lists have one agree in term. *)
Lemma keep_lookup old new k o e :
  keep old new !! k = Some o → new !! k = Some e → e_term o = e_term e.
Proof.
  revert new k. induction old as [|o' old IH]; intros [|e' new] [|k] Ho He; simpl in *; try done.
  - destruct (N.eqb_spec (e_term o') (e_term e')); simplify_eq/=. done.
  - destruct (N.eqb_spec (e_term o') (e_term e')); simplify_eq/=. by eapply IH.
Qed.

Lemma merge_entries_contiguous base old new :
  contiguous base old → contiguous base new → contiguous base (merge_entries old new).
Proof.
  revert base new. induction old as [|o old IH]; intros base [|e new] Ho Hn; simpl; try done.
  destruct (e_term o =? e_term e)%N; [|done].
  apply contiguous_cons in Ho as [? ?]. apply contiguous_cons in Hn as [? ?].
  apply contiguous_cons. auto.
Qed.

Lemma merge_entries_length old new : length new ≤ length (merge_entries old new).
Proof.
  revert new. induction old as [|o old IH]; intros [|e new]; simpl; try lia.
  destruct (e_term o =? e_term e)%N; simpl; [|lia]. specialize (IH new). lia.
Qed.

(** The merge changes nothing exactly when nothing conflicts and nothing is new. *)
Lemma merge_entries_same old new :
  merge_entries old new = old → keep old new = old ∧ drop (length old) new = [].
Proof.
  revert new. induction old as [|o old IH]; intros [|e new]; simpl; try done.
  destruct (N.eqb_spec (e_term o) (e_term e)); [|congruence].
  intros [= H]. apply IH in H as [-> ->]. done.
Qed.

(** Where the new entries reach, the merged log has their terms. *)
Lemma merge_entries_terms old new k e :
  new !! k = Some e → ∃ e', merge_entries old new !! k = Some e' ∧ e_term e' = e_term e.
Proof.
  revert new k. induction old as [|o old IH]; intros [|e' new] k He; simpl; try done.
  { eauto. }
  destruct (N.eqb_spec (e_term o) (e_term e')) as [Ht|].
  - destruct k as [|k]; simplify_eq/=; eauto.
  - eauto.
Qed.

(** ** Refinement *)

(** The persistent log of an engine holds exactly the entries of [l]. *)
Definition persisted {P} `{!PersistenceEngine P, !PersistenceEngineOk P}
    (base : N) (p : P) (l : list log_entry) : Prop :=
  ∀ i, st_log (abs p) !! i = entry_at base l i.

Section refinement.
Context {P SM : Type} `{!PersistenceEngine P, !PersistenceEngineOk P, !ReliableEngine P} {JL : JsonLib}.
Abbreviation node := (node P SM).
Implicit Types s : node.

Lemma persist_write s m :
  write_op m → reliable (_persistence s) →
  ∃ p', persist m s = (Ret tt, set_persistence p' s) ∧ m (_persistence s) = (Ret tt, p') ∧ reliable p'.
Proof.
  intros Hm Hr. destruct (reliable_write m _ Hm Hr) as (p' & E & Hr').
  exists p'. unfold persist. rewrite E. done.
Qed.

Lemma persisted_truncate base p p' l k :
  persisted base p l → k ≤ length l →
  truncate_log (base + N.of_nat k + 1) p = (Ret tt, p') → persisted base p' (take k l).
Proof.
  intros Hp Hk E i. rewrite (truncate_log_ok _ _ _ E). unfold store_truncate. simpl.
  unfold entry_at. destruct (N.leb_spec i base) as [Hi|Hi].
  - apply map_lookup_filter_None. left. rewrite (Hp i). unfold entry_at.
    by rewrite (proj2 (N.leb_le _ _)).
  - destruct (decide (i < base + N.of_nat k + 1)%N) as [Hlt|Hge].
    + rewrite lookup_take_lt by lia.
      pose proof (Hp i) as Hpi. unfold entry_at in Hpi.
      rewrite (proj2 (N.leb_gt _ _)) in Hpi by done. rewrite <-Hpi.
      destruct (st_log (abs p) !! i) as [e|] eqn:Ei.
      * apply map_lookup_filter_Some. done.
      * apply map_lookup_filter_None. by left.
    + rewrite lookup_take_ge by lia. apply map_lookup_filter_None. right. intros e _. simpl. lia.
Qed.

Lemma persisted_append base p p' l e :
  persisted base p l → e_index e = (base + N.of_nat (length l) + 1)%N →
  Persistence.append_log_entry e p = (Ret tt, p') → persisted base p' (l ++ [e]).
Proof.
  intros Hp He E i. rewrite (append_log_entry_ok _ _ _ E). unfold store_append. simpl.
  destruct (decide (i = e_index e)) as [->|Hne].
  - rewrite lookup_insert_eq, He. unfold entry_at.
    rewrite (proj2 (N.leb_gt _ _)) by lia.
    rewrite lookup_app_r by lia.
    by replace (N.to_nat _ - length l) with 0 by lia.
  - rewrite lookup_insert_ne by done. rewrite (Hp i). unfold entry_at.
    destruct (N.leb_spec i base); [done|].
    destruct (decide (i < base + N.of_nat (length l) + 1)%N).
    + by rewrite lookup_app_l by lia.
    + rewrite lookup_ge_None_2 by lia. rewrite lookup_ge_None_2; [done|].
      rewrite length_app. simpl. lia.
Qed.

(** The state of the node with its log replaced, in memory and on storage. *)
Definition with_log s (l : list log_entry) (p : P) : node := set_log l (set_persistence p s).

Lemma with_log_id s : with_log s (_log s) (_persistence s) = s.
Proof. by destruct s. Qed.

Lemma take_drop_keep_nil p (l : list log_entry) : take p l ++ keep (drop p l) [] = l.
Proof. replace (keep (drop p l) []) with (drop p l) by (by destruct (drop p l)). apply take_drop. Qed.

(** Rule 4 keeps the prefix before the first conflict. *)
Lemma truncate_conflict_spec entries p s :
  log_wf 0 s → is_u64 (N.of_nat p + N.of_nat (length entries) + 1) →
  reliable (_persistence s) → persisted 0 (_persistence s) (_log s) →
  let l' := take p (_log s) ++ keep (drop p (_log s)) entries in
  ∃ p', truncate_conflict (N.of_nat p + 1) entries s =
          (Ret (negb (length l' =? length (_log s))%nat), with_log s l' p') ∧
        reliable p' ∧ persisted 0 p' l'.
Proof.
  revert p. induction entries as [|e entries IH]; intros p Hwf Hu Hr Hp; cbv zeta.
  { rewrite take_drop_keep_nil, Nat.eqb_refl. exists (_persistence s).
    rewrite with_log_id. done. }
  cbn [length] in Hu. unfold is_u64 in Hu.
  unfold truncate_conflict; fold (truncate_conflict (P := P) (SM := SM)).
  unfold mlet at 1, gets at 1.
  rewrite (get_last_log_index_wf 0 s Hwf), (get_log_entry_wf 0 s _ Hwf), N.add_0_l.
  replace (N.of_nat p + 1)%N with (0 + 1 + N.of_nat p)%N by lia. rewrite entry_at_lookup.
  destruct (N.leb_spec (0 + 1 + N.of_nat p) (N.of_nat (length (_log s)))) as [Hle|Hgt].
  2: { rewrite u64_add_small by lia. rewrite (drop_ge _ p) by lia.
       destruct (IH (S p) Hwf) as (p' & E & Hr' & Hp'); [unfold is_u64; lia|done|done|].
       rewrite (drop_ge _ (S p)) in E, Hp' by lia. rewrite take_ge in E, Hp' by lia.
       rewrite take_ge by lia. exists p'.
       replace (0 + 1 + N.of_nat p + 1)%N with (N.of_nat (S p) + 1)%N by lia. done. }
  destruct (lookup_lt_is_Some_2 (_log s) p) as [o Ho]; [lia|]. rewrite Ho.
  rewrite (drop_S _ o p) by done. cbn [keep].
  destruct (N.eqb_spec (e_term o) (e_term e)) as [Ht|Ht]; cbn [negb].
  - rewrite u64_add_small by lia.
    destruct (IH (S p) Hwf) as (p' & E & Hr' & Hp'); [unfold is_u64; lia|done|done|].
    rewrite (take_S_r _ _ o), <-(assoc_L (++)) in E, Hp' by done. cbn [app] in E, Hp'. exists p'.
    replace (0 + 1 + N.of_nat p + 1)%N with (N.of_nat (S p) + 1)%N by lia. done.
  - rewrite app_nil_r. unfold mlet, erase_from. rewrite u64_sub_small by (unfold is_u64; lia).
    destruct (N.ltb_spec (N.of_nat (length (_log s))) (0 + 1 + N.of_nat p - 1)); [lia|].
    set (s1 := set_log _ s).
    destruct (persist_write s1 (truncate_log (0 + 1 + N.of_nat p)) (write_truncate _) Hr)
      as (p' & E & E' & Hr'). rewrite E. exists p'.
    split_and!; [|done|].
    + rewrite length_take, Nat.min_l by lia.
      destruct (Nat.eqb_spec p (length (_log s))); [lia|]. unfold s1. replace (N.to_nat (0 + 1 + N.of_nat p - 1)) with p by lia. done.
    + apply (persisted_truncate 0 (_persistence s)); [done|lia|].
      by replace (0 + N.of_nat p + 1)%N with (0 + 1 + N.of_nat p)%N by lia.
Qed.

Lemma append_and_persist_spec base e s :
  log_wf base s → e_index e = (base + N.of_nat (length (_log s)) + 1)%N →
  is_u64 (base + N.of_nat (length (_log s)) + 2) →
  reliable (_persistence s) → persisted base (_persistence s) (_log s) →
  ∃ p', append_and_persist e s = (Ret tt, with_log s (_log s ++ [e]) p') ∧
        reliable p' ∧ persisted base p' (_log s ++ [e]) ∧
        log_wf base (with_log s (_log s ++ [e]) p').
Proof.
  intros Hwf He Hu Hr Hp. unfold append_and_persist, mlet, mmodify.
  destruct (persist_write (append_log_entry e s) (Persistence.append_log_entry e)
              (write_entry _) Hr) as (p' & E & E' & Hr').
  rewrite E. exists p'. split_and!; [done|done| |].
  - apply (persisted_append base (_persistence s)); [done|lia|done].
  - destruct Hwf as (Hc & _ & Hb). unfold log_wf, is_u64 in *. simpl. split_and!.
    + apply contiguous_app. split; [done|]. apply contiguous_singleton. lia.
    + intros H'. by destruct (app_cons_not_nil (_log s) [] e).
    + rewrite length_app. simpl. lia.
Qed.

(** Rule 5 appends what lies beyond the log. *)
Lemma append_new_spec base entries p s modified :
  log_wf base s → contiguous (N.of_nat p) entries → (N.of_nat p <= base + N.of_nat (length (_log s)))%N →
  is_u64 (N.of_nat p + N.of_nat (length entries) + 1) →
  reliable (_persistence s) → persisted base (_persistence s) (_log s) →
  let l' := _log s ++ drop (N.to_nat base + length (_log s) - p) entries in
  ∃ p', append_new (N.of_nat p + 1) entries modified s =
          (Ret (modified || negb (length l' =? length (_log s))%nat), with_log s l' p') ∧
        reliable p' ∧ persisted base p' l' ∧ log_wf base (with_log s l' p').
Proof.
  revert p s modified. induction entries as [|e entries IH];
    intros p s modified Hwf Hc Hle Hu Hr Hp; cbv zeta.
  { exists (_persistence s). rewrite drop_nil, app_nil_r, Nat.eqb_refl, orb_false_r, with_log_id. done. }
  apply contiguous_cons in Hc as [He Hc]. cbn [length] in Hu. unfold is_u64 in Hu.
  unfold append_new; fold (append_new (P := P) (SM := SM)). unfold mlet at 1, gets at 1.
  rewrite (get_last_log_index_wf base s Hwf), u64_add_small by lia.
  replace (N.of_nat p + 1 + 1)%N with (N.of_nat (S p) + 1)%N by lia.
  destruct (N.ltb_spec (base + N.of_nat (length (_log s))) (N.of_nat p + 1)) as [Hlt|Hge].
  - assert (p = N.to_nat base + length (_log s)) as -> by lia. rewrite Nat.sub_diag. cbn [drop].
    destruct (append_and_persist_spec base e s) as (p1 & E & Hr1 & Hp1 & Hwf1);
      [done|lia|unfold is_u64; lia|done|done|].
    unfold mlet. rewrite E.
    destruct (IH (S (N.to_nat base + length (_log s))) (with_log s (_log s ++ [e]) p1) true)
      as (p2 & E2 & Hr2 & Hp2 & Hwf2); try done.
    { by replace (N.of_nat (S (N.to_nat base + length (_log s))))
        with (N.of_nat (N.to_nat base + length (_log s)) + 1)%N by lia. }
    { simpl. rewrite length_app. simpl. lia. }
    { unfold is_u64. lia. }
    simpl in E2, Hp2, Hwf2. rewrite length_app in E2, Hp2, Hwf2.
    replace (N.to_nat base + (length (_log s) + length [e]) - S (N.to_nat base + length (_log s))) with 0
      in E2, Hp2, Hwf2 by (simpl; lia).
    rewrite <-!(assoc_L (++)) in E2, Hp2, Hwf2. simpl in *. exists p2.
    split_and!; [|done|done|done]. rewrite E2. rewrite length_app. simpl.
    destruct (Nat.eqb_spec (length (_log s) + S (length entries)) (length (_log s))); [lia|].
    by rewrite orb_true_r.
  - destruct (IH (S p) s modified) as (p2 & E2 & H2); try done.
    { by replace (N.of_nat (S p)) with (N.of_nat p + 1)%N by lia. }
    { lia. }
    { unfold is_u64. lia. }
    exists p2. replace (N.to_nat base + length (_log s) - p) with (S (N.to_nat base + length (_log s) - S p)) by lia. done.
Qed.

(** Nothing that was received contradicts the log. *)
Definition no_conflict (base prev : N) (entries l : list log_entry) : Prop :=
  ∀ j o n, entry_at base l j = Some o → entry_at prev entries j = Some n → e_term o = e_term n.

(** Rule 4 without a conflict. *)
Lemma truncate_conflict_none base prev entries s :
  log_wf base s → is_u64 (prev + N.of_nat (length entries) + 1) → no_conflict base prev entries (_log s) →
  truncate_conflict (prev + 1) entries s = (Ret false, s).
Proof.
  revert prev. induction entries as [|e entries IH]; intros prev Hwf Hu Hn; [done|].
  cbn [length] in Hu. unfold is_u64 in Hu. cbn [truncate_conflict]. rewrite let_gets.
  rewrite (get_log_entry_wf base s _ Hwf), u64_add_small by lia.
  assert ((if (prev + 1 <=? get_last_log_index s)%N
    then match entry_at base (_log s) (prev + 1) with
         | Some existing => negb (e_term existing =? e_term e)%N | None => false end else false) = false) as ->.
  { destruct (_ <=? _)%N; [|done]. destruct (entry_at base (_log s) (prev + 1)) as [o|] eqn:Eo; [|done].
    rewrite (Hn (prev + 1)%N o e Eo), N.eqb_refl; [done|]. unfold entry_at.
    destruct (N.leb_spec (prev + 1) prev); [lia|]. by replace (prev + 1 - prev - 1)%N with 0%N by lia. }
  apply IH; [done|unfold is_u64; lia|]. intros j o n Ho Hj. apply (Hn j o n Ho).
  apply entry_at_Some in Hj as [Hj Hl]. apply entry_at_Some. split; [lia|].
  replace (N.to_nat (j - prev - 1)) with (S (N.to_nat (j - (prev + 1) - 1))) by lia. done.
Qed.

(** *** Configuration entries that can be decoded *)

Definition config_ok (cfg : cluster_configuration) : Prop :=
  _is_joint_consensus cfg = true → is_Some (_old_nodes cfg).

Definition decodable (l : list log_entry) : Prop :=
  ∀ e, e ∈ l → is_configuration_entry e = true →
    ∃ cfg, deserialize_configuration (e_command e) = Ret cfg ∧ config_ok cfg.

(** The configuration in force according to a log. *)
Definition log_configuration (boot : cluster_configuration) (l : list log_entry) :
    cluster_configuration :=
  match latest_configuration_entry l with
  | Some e => match deserialize_configuration (e_command e) with Ret cfg => cfg | _ => boot end
  | None => boot
  end.

Lemma latest_configuration_entry_elem l e :
  latest_configuration_entry l = Some e → e ∈ l ∧ is_configuration_entry e = true.
Proof.
  unfold latest_configuration_entry. intros [H1 H2]%find_some. split; [|done].
  apply list_elem_of_In. by apply in_rev.
Qed.

Lemma cluster_members_ok s : config_ok (_configuration s) → ∃ ms, cluster_members s = Ret ms.
Proof.
  unfold config_ok, cluster_members. destruct (_is_joint_consensus _); [|eauto].
  intros [old ->]; eauto.
Qed.

Lemma reverted_configuration_ok s :
  decodable (_log s) → config_ok (_boot_configuration s) →
  reverted_configuration s = Ret (log_configuration (_boot_configuration s) (_log s)) ∧
  config_ok (log_configuration (_boot_configuration s) (_log s)).
Proof.
  intros Hd Hb. unfold reverted_configuration, log_configuration.
  destruct (latest_configuration_entry (_log s)) as [e|] eqn:E; [|done].
  apply latest_configuration_entry_elem in E as [Hin Hc].
  destruct (Hd e Hin Hc) as (cfg & -> & Hok). done.
Qed.

Lemma persisted_save_term base p p' t l :
  persisted base p l → save_current_term t p = (Ret tt, p') → persisted base p' l.
Proof. intros Hp E i. rewrite (save_current_term_ok _ _ _ E). apply Hp. Qed.

Lemma rescan_configuration_spec base s :
  decodable (_log s) → config_ok (_boot_configuration s) →
  reliable (_persistence s) → persisted base (_persistence s) (_log s) →
  ∃ p' ob', rescan_configuration s =
      (Ret tt, set_outbox ob' (set_configuration
         (log_configuration (_boot_configuration s) (_log s)) (set_persistence p' s))) ∧
    reliable p' ∧ persisted base p' (_log s).
Proof.
  intros Hd Hb Hr Hp. destruct (reverted_configuration_ok s Hd Hb) as [Hrev Hok].
  unfold rescan_configuration, mlet at 1. rewrite Hrev. unfold mlet at 1, mmodify at 1.
  set (s1 := set_configuration _ s).
  destruct (cluster_members_ok s1 Hok) as [ms Hms].
  unfold sync_peer2peer_membership, mlet, mmodify, gets. rewrite Hms.
  set (s2 := send _ s1).
  destruct (persist_write s2 (save_current_term (_current_term s2)) (write_term _) Hr)
    as (p' & E & E' & Hr'). rewrite E. exists p', (outbox s2).
  split_and!; [done|done|]. by eapply persisted_save_term.
Qed.

(** *** The consistency check as a whole *)

Lemma consistency_ok_prefix prev prev_term s :
  log_wf 0 s → consistency_failure prev prev_term s = None →
  N.to_nat prev ≤ length (_log s) ∧
  (prev ≠ 0%N → ∃ e, entry_at 0 (_log s) prev = Some e ∧ e_term e = prev_term).
Proof.
  intros Hwf. unfold consistency_failure.
  destruct (N.ltb_spec 0 prev); [|intros _; split; lia].
  rewrite (get_last_log_index_wf 0 s Hwf), (get_log_entry_wf 0 s _ Hwf).
  destruct (N.ltb_spec (0 + N.of_nat (length (_log s))) prev); [done|].
  destruct (entry_at 0 (_log s) prev) as [e|]; [|done].
  destruct (N.eqb_spec (e_term e) prev_term); [|done]. intros _. split; [lia|eauto].
Qed.

(** The first entry of the log is not replaced once something is committed. *)
Definition first_safe (prev : N) (entries : list log_entry) s : Prop :=
  ∀ o e, prev = 0%N → _log s !! 0 = Some o → entries !! 0 = Some e → (0 < _commit_index s)%N → e_term o = e_term e.

(** The new entries contradict no committed entry. *)
Definition commit_safe (prev : N) (entries : list log_entry) s : Prop :=
  ∀ k o e, _log s !! (N.to_nat prev + k) = Some o → entries !! k = Some e →
    (prev + N.of_nat k < _commit_index s)%N → e_term o = e_term e.

Lemma commit_safe_first prev entries s : commit_safe prev entries s → first_safe prev entries s.
Proof. intros H o e -> Ho He Hc. by apply (H 0 o e). Qed.

Definition merged (prev : N) (entries : list log_entry) (l : list log_entry) : list log_entry :=
  take (N.to_nat prev) l ++ merge_entries (drop (N.to_nat prev) l) entries.

Lemma merged_keep prev entries (l : list log_entry) :
  let l1 := take (N.to_nat prev) l ++ keep (drop (N.to_nat prev) l) entries in
  N.to_nat prev ≤ length l →
  merged prev entries l = l1 ++ drop (length l1 - N.to_nat prev) entries.
Proof.
  cbv zeta. intros H. unfold merged. rewrite merge_entries_keep, (assoc_L (++)). f_equal. f_equal.
  rewrite length_app, length_take, Nat.min_l by done. lia.
Qed.

Lemma merged_changed prev entries (l : list log_entry) :
  let l1 := take (N.to_nat prev) l ++ keep (drop (N.to_nat prev) l) entries in
  N.to_nat prev ≤ length l →
  negb (length l1 =? length l)%nat || negb (length (merged prev entries l) =? length l1)%nat =
    negb (bool_decide (merged prev entries l = l)).
Proof.
  cbv zeta. intros H. set (l1 := take _ l ++ _).
  assert (l1 `prefix_of` l) as Hpre.
  { unfold l1. rewrite <-(take_drop (N.to_nat prev) l) at 3. apply prefix_app, keep_prefix. }
  case_bool_decide as Heq; simpl.
  - unfold merged in Heq. rewrite <-(take_drop (N.to_nat prev) l) in Heq at 3.
    apply app_inv_head, merge_entries_same in Heq as [Hk Hd].
    assert (l1 = l) as El by (unfold l1; rewrite Hk; apply take_drop).
    rewrite merged_keep by done. fold l1. rewrite El, length_app, !Nat.eqb_refl. simpl.
    rewrite length_drop in Hd. rewrite Hd. simpl.
    by rewrite Nat.add_0_r, Nat.eqb_refl.
  - apply orb_true_iff. rewrite !negb_true_iff, !Nat.eqb_neq.
    destruct (decide (length l1 = length l)) as [E1|]; [|by left]. right. intros E2.
    apply Heq. rewrite merged_keep in E2 |- * by done. fold l1 in E2 |- *.
    assert (l1 = l) as -> by (by apply prefix_length_eq; [|lia]).
    rewrite length_app in E2. assert (length (drop (length l - N.to_nat prev) entries) = 0) by lia.
    by rewrite (nil_length_inv (drop _ entries)), app_nil_r by done.
Qed.

Lemma truncated_log_wf prev entries s p' :
  log_wf 0 s → first_safe prev entries s → reliable p' →
  log_wf 0 (with_log s (take (N.to_nat prev) (_log s) ++ keep (drop (N.to_nat prev) (_log s)) entries) p').
Proof.
  intros (Hc & Hn & Hb) Hs _. unfold log_wf, is_u64 in *. simpl.
  assert (take (N.to_nat prev) (_log s) ++ keep (drop (N.to_nat prev) (_log s)) entries
            `prefix_of` _log s) as [rest Hrest].
  { rewrite <-(take_drop (N.to_nat prev) (_log s)) at 3. apply prefix_app, keep_prefix. }
  split_and!.
  - rewrite Hrest in Hc. by apply contiguous_app in Hc as [? _].
  - intros [Htake Hkeep]%app_nil. destruct (_log s) as [|o l] eqn:El; [by apply Hn|].
    destruct (N.to_nat prev) as [|n] eqn:Ep; [|done]. simpl in Hkeep.
    destruct entries as [|e entries]; [done|].
    destruct (N.eqb_spec (e_term o) (e_term e)) as [|Hne]; [done|].
    destruct (decide (_commit_index s = 0)%N) as [->|Hci]; [done|].
    destruct Hne. apply (Hs o e); [lia|by rewrite El|done|lia].
  - rewrite Hrest in Hb. rewrite length_app in Hb. lia.
Qed.

Lemma decodable_app l1 l2 : decodable (l1 ++ l2) ↔ decodable l1 ∧ decodable l2.
Proof.
  unfold decodable. split.
  - intros H. split; intros e He; apply H, elem_of_app; auto.
  - intros [H1 H2] e [He|He]%elem_of_app; auto.
Qed.

Lemma decodable_merged prev entries l :
  N.to_nat prev ≤ length l → decodable l → decodable entries → decodable (merged prev entries l).
Proof.
  intros Hle Hl He. rewrite merged_keep by done. rewrite <-(take_drop (N.to_nat prev) l) in Hl.
  apply decodable_app in Hl as [Hl1 Hl2]. rewrite !decodable_app. split_and!; [done| |].
  - destruct (keep_prefix (drop (N.to_nat prev) l) entries) as [r Hr]. rewrite Hr in Hl2.
    by apply decodable_app in Hl2 as [? _].
  - intros e Hin. apply He. rewrite <-(take_drop (length (take (N.to_nat prev) l ++
      keep (drop (N.to_nat prev) l) entries) - N.to_nat prev) entries).
    apply elem_of_app. by right.
Qed.

(** The whole operation: on a log that was never compacted it replaces the log
    by its merge with the entries, in memory and on storage, refreshes the
    configuration when the log changed, and touches nothing else. *)
Lemma append_entries_merge prev prev_term entries s :
  log_wf 0 s → contiguous prev entries → is_u64 (prev + N.of_nat (length entries) + 1) →
  reliable (_persistence s) → persisted 0 (_persistence s) (_log s) →
  decodable (_log s) → decodable entries → config_ok (_boot_configuration s) →
  first_safe prev entries s → consistency_failure prev prev_term s = None →
  let l' := merged prev entries (_log s) in
  ∃ p' ob', append_entries_with_consistency_check prev prev_term entries s =
      (Ret (mk_append_resp (_current_term s) true None None),
       set_outbox ob' (set_configuration
         (if bool_decide (l' = _log s) then _configuration s
          else log_configuration (_boot_configuration s) l') (with_log s l' p'))) ∧
    reliable p' ∧ persisted 0 p' l' ∧ log_wf 0 (with_log s l' p').
Proof.
  intros Hwf Hc Hu Hr Hp Hd Hd' Hb Hs Hcons l'.
  destruct (consistency_ok_prefix _ _ _ Hwf Hcons) as [Hle _].
  assert (prev = N.of_nat (N.to_nat prev)) as Eprev by lia.
  unfold append_entries_with_consistency_check, mlet at 1, gets at 1. rewrite Hcons.
  unfold is_u64 in Hu. rewrite u64_add_small by lia.
  destruct (truncate_conflict_spec entries (N.to_nat prev) s) as (p1 & E1 & Hr1 & Hp1); try done.
  { unfold is_u64. lia. }
  rewrite <-Eprev in E1. unfold mlet at 1. rewrite E1. set (l1 := take _ _ ++ _) in *.
  destruct (append_new_spec 0 entries (N.to_nat prev) (with_log s l1 p1)
              (negb (length l1 =? length (_log s))%nat)) as (p2 & E2 & Hr2 & Hp2 & Hwf2); try done.
  { by apply truncated_log_wf. }
  { by rewrite <-Eprev. }
  { simpl. unfold l1. rewrite length_app, length_take. lia. }
  { unfold is_u64. lia. }
  rewrite Nat.add_0_l in *. rewrite <-Eprev in E2. unfold mlet at 1. rewrite E2. simpl in *.
  assert (l1 ++ drop (length l1 - N.to_nat prev) entries = l') as El'
    by (symmetry; by apply merged_keep).
  rewrite El' in *. pose proof (merged_changed prev entries (_log s) Hle) as Hch.
  cbv zeta in Hch. fold l1 l' in Hch. rewrite Hch.
  case_bool_decide as Heq; simpl; unfold mlet, gets, mreturn.
  - exists p2, (outbox s). split_and!; [|done..]. by destruct s.
  - destruct (rescan_configuration_spec 0 (with_log s l' p2)) as (p3 & ob & E3 & Hr3 & Hp3);
      simpl; try done. { by apply decodable_merged. }
    change (with_log (with_log s l1 p1) l' p2) with (with_log s l' p2).
    rewrite E3. exists p3, ob. done.
Qed.

(** *** Logs that were compacted *)

(** The merge on a log whose entries up to [base] are in a snapshot: what was
    received of those is ignored. *)
Definition merged_at (base prev : N) (entries l : list log_entry) : list log_entry :=
  take (N.to_nat (prev - base)) l ++
  merge_entries (drop (N.to_nat (prev - base)) l) (drop (N.to_nat (base - prev)) entries).

Lemma merged_at_0 prev entries l : merged_at 0 prev entries l = merged prev entries l.
Proof. unfold merged_at, merged. by rewrite N.sub_0_r. Qed.

(** Without a conflict the merge adds what lies beyond the log. *)
Lemma merged_at_no_conflict base prev entries l :
  (prev <= base + N.of_nat (length l))%N → no_conflict base prev entries l →
  merged_at base prev entries l = l ++ drop (N.to_nat base + length l - N.to_nat prev) entries.
Proof.
  intros Hle Hn. unfold merged_at. rewrite merge_entries_keep, keep_all.
  - rewrite (assoc_L (++)), take_drop, drop_drop, length_drop. do 2 f_equal. lia.
  - intros k o e Ho He. rewrite lookup_drop in Ho, He.
    apply (Hn (base + 1 + (prev - base) + N.of_nat k)%N); apply entry_at_Some; (split; [lia|]).
    + replace (N.to_nat _) with (N.to_nat (prev - base) + k) by lia. done.
    + replace (N.to_nat _) with (N.to_nat (base - prev) + k) by lia. done.
Qed.

Lemma app_changed (l l2 : list log_entry) :
  negb (length (l ++ l2) =? length l)%nat = negb (bool_decide (l ++ l2 = l)).
Proof.
  f_equal. rewrite length_app. case_bool_decide as H.
  - rewrite <-(length_app l l2), H. apply Nat.eqb_refl.
  - apply Nat.eqb_neq. intros E. apply H. rewrite (nil_length_inv l2) by lia. apply app_nil_r.
Qed.

Lemma decodable_merged_at base prev entries l :
  (prev <= base + N.of_nat (length l))%N → no_conflict base prev entries l →
  decodable l → decodable entries → decodable (merged_at base prev entries l).
Proof.
  intros Hle Hn Hl He. rewrite merged_at_no_conflict by done. apply decodable_app. split; [done|].
  intros e Hin. apply He.
  rewrite <-(take_drop (N.to_nat base + length l - N.to_nat prev) entries). apply elem_of_app. by right.
Qed.

(** On a compacted log the operation merges too, when nothing conflicts. *)
Lemma append_entries_compacted base prev prev_term entries s :
  log_wf base s → contiguous prev entries → is_u64 (prev + N.of_nat (length entries) + 1) →
  reliable (_persistence s) → persisted base (_persistence s) (_log s) →
  decodable (_log s) → decodable entries → config_ok (_boot_configuration s) →
  no_conflict base prev entries (_log s) → consistency_failure prev prev_term s = None →
  (prev <= base + N.of_nat (length (_log s)))%N →
  let l' := merged_at base prev entries (_log s) in
  ∃ p' ob', append_entries_with_consistency_check prev prev_term entries s =
      (Ret (mk_append_resp (_current_term s) true None None),
       set_outbox ob' (set_configuration
         (if bool_decide (l' = _log s) then _configuration s
          else log_configuration (_boot_configuration s) l') (with_log s l' p'))) ∧
    reliable p' ∧ persisted base p' l' ∧ log_wf base (with_log s l' p').
Proof.
  intros Hwf Hc Hu Hr Hp Hd Hd' Hb Hn Hcons Hle l'.
  assert (decodable l') by (by apply decodable_merged_at).
  unfold append_entries_with_consistency_check. rewrite let_gets, Hcons.
  rewrite u64_add_small by (unfold is_u64 in *; lia).
  rewrite (let_eval _ _ _ _ _ (truncate_conflict_none base prev entries s Hwf Hu Hn)).
  destruct (append_new_spec base entries (N.to_nat prev) s false)
    as (p2 & E2 & Hr2 & Hp2 & Hwf2); rewrite ?N2Nat.id in *; try done.
  rewrite (let_eval _ _ _ _ _ E2). unfold l' in *. rewrite merged_at_no_conflict in * by done.
  cbn [orb]. rewrite app_changed.
  case_bool_decide as Heq; simpl; unfold mlet, gets, mreturn.
  - exists p2, (outbox s). split_and!; [|done..]. by destruct s.
  - destruct (rescan_configuration_spec base (with_log s
      (_log s ++ drop (N.to_nat base + length (_log s) - N.to_nat prev) entries) p2))
      as (p3 & ob & E3 & Hr3 & Hp3); simpl; try done.
    rewrite E3. exists p3, ob. done.
Qed.

(** An entry survives the merge when nothing received contradicts the log at or
    before it. *)
Lemma merge_entries_lookup old new k e :
  old !! k = Some e →
  (∀ j o n, j ≤ k → old !! j = Some o → new !! j = Some n → e_term o = e_term n) →
  merge_entries old new !! k = Some e.
Proof.
  revert new k. induction old as [|o old IH]; intros [|n new] k He H; simpl; try done.
  rewrite (H 0 o n), N.eqb_refl by (done || lia). destruct k as [|k]; [done|]. simpl.
  apply IH; [done|]. intros j o' n' Hj Ho Hn. apply (H (S j)); [lia|done|done].
Qed.

Lemma merged_at_keeps base prev entries l i e :
  entry_at base l i = Some e →
  (∀ j o n, (j <= i)%N → entry_at base l j = Some o → entry_at prev entries j = Some n → e_term o = e_term n) →
  entry_at base (merged_at base prev entries l) i = Some e.
Proof.
  intros Hi H. apply entry_at_Some in Hi as [Hi He]. apply entry_at_Some. split; [done|].
  unfold merged_at. set (p := N.to_nat (prev - base)). pose proof (lookup_lt_Some _ _ _ He) as Hlt.
  destruct (decide (N.to_nat (i - base - 1) < p)) as [Hp|Hp].
  { rewrite lookup_app_l by (rewrite length_take; lia). by rewrite lookup_take_lt. }
  rewrite lookup_app_r by (rewrite length_take; lia). rewrite length_take, Nat.min_l by lia.
  apply merge_entries_lookup.
  { rewrite lookup_drop. by replace (p + _) with (N.to_nat (i - base - 1)) by lia. }
  intros j o n Hj Ho Hn. rewrite lookup_drop in Ho, Hn.
  apply (H (base + 1 + (prev - base) + N.of_nat j)%N); [lia|..]; apply entry_at_Some; (split; [lia|]).
  - by replace (N.to_nat _) with (p + j) by lia.
  - by replace (N.to_nat _) with (N.to_nat (base - prev) + j) by lia.
Qed.

End refinement.

(** ** Log matching *)

(** Two logs that agree on the term of an index agree up to that index. *)
Definition log_matching (l1 l2 : list log_entry) : Prop :=
  ∀ k e1 e2, l1 !! k = Some e1 → l2 !! k = Some e2 → e_term e1 = e_term e2 →
    take (S k) l1 = take (S k) l2.

Lemma log_matching_same l1 l2 k e1 e2 :
  log_matching l1 l2 → l1 !! k = Some e1 → l2 !! k = Some e2 → e_term e1 = e_term e2 → e1 = e2.
Proof.
  intros H H1 H2 Ht. pose proof (H k e1 e2 H1 H2 Ht) as Hk.
  rewrite (take_S_r _ _ e1), (take_S_r _ _ e2) in Hk by done. by apply app_inj_2 in Hk as [_ [= ->]].
Qed.

(** Agreement of two logs on a prefix carries matching over. *)
Lemma log_matching_take l l1 l2 k e1 e2 n :
  take n l = take n l1 → k < n → log_matching l1 l2 →
  l !! k = Some e1 → l2 !! k = Some e2 → e_term e1 = e_term e2 → take (S k) l = take (S k) l2.
Proof.
  intros Hn Hk H H1 H2 Ht.
  assert (take (S k) l = take (S k) l1) as Hl.
  { rewrite <-(Nat.min_l (S k) n), <-!take_take by lia. by rewrite Hn. }
  rewrite Hl. apply (H k e1 e2); [|done|done].
  rewrite <-(lookup_take_lt _ (S k)), <-Hl, lookup_take_lt by lia. done.
Qed.

Lemma merge_entries_agree old new :
  (∀ k o e, old !! k = Some o → new !! k = Some e → e_term o = e_term e → o = e) →
  take (length new) (merge_entries old new) = new.
Proof.
  revert new. induction old as [|o old IH]; intros [|e new] H; simpl; try done.
  { by rewrite firstn_all. }
  destruct (N.eqb_spec (e_term o) (e_term e)) as [Ht|].
  - simpl. rewrite (H 0 o e) by done. f_equal. apply IH.
    intros k o' e' Ho He. by apply (H (S k)).
  - simpl. by rewrite firstn_all.
Qed.

Lemma merge_entries_longer old new :
  length new < length (merge_entries old new) → merge_entries old new = old.
Proof.
  revert new. induction old as [|o old IH]; intros [|e new]; simpl; try done; try lia.
  destruct (e_term o =? e_term e)%N; simpl; [|lia]. intros H. rewrite IH; [done|lia].
Qed.

(** The follower's log after a merge with a slice of the leader's log. *)
Section merged_logs.
Context (leader_log l : list log_entry) (prev n : nat).
Hypothesis Hmatch : log_matching leader_log l.
Hypothesis Hprev : prev ≤ length l ∧ prev ≤ length leader_log.
Hypothesis Hterm : ∀ k, prev = S k → e_term <$> (leader_log !! k) = e_term <$> (l !! k).

Let entries := take n (drop prev leader_log).

Lemma merged_prefix : take prev l = take prev leader_log.
Proof.
  destruct prev as [|k]; [done|]. specialize (Hterm k eq_refl).
  destruct (lookup_lt_is_Some_2 l k) as [e Hl]; [lia|].
  destruct (lookup_lt_is_Some_2 leader_log k) as [e' He]; [lia|].
  rewrite Hl, He in Hterm. injection Hterm as Ht. symmetry. by apply (Hmatch k e' e).
Qed.

(** The follower's log agrees with the leader's through the last entry sent. *)
Lemma merged_agrees :
  take (prev + length entries) (merged (N.of_nat prev) entries l) =
    take (prev + length entries) leader_log.
Proof.
  unfold merged. rewrite Nat2N.id. rewrite take_app_ge by (rewrite length_take; lia).
  rewrite length_take, Nat.min_l by lia.
  replace (prev + length entries - prev) with (length entries) by lia.
  rewrite merge_entries_agree.
  - rewrite <-(take_drop prev leader_log) at 1.
    rewrite take_app_ge by (rewrite length_take; lia). f_equal; [apply merged_prefix|].
    rewrite length_take, Nat.min_l by lia.
    replace (prev + length entries - prev) with (length entries) by lia. unfold entries.
    rewrite length_take. destruct (decide (n ≤ length (drop prev leader_log))).
    + by rewrite Nat.min_l by lia.
    + rewrite Nat.min_r by lia. by rewrite !take_ge by lia.
  - intros k o e Ho He Ht. rewrite lookup_drop in Ho. unfold entries in He.
    apply lookup_take_Some in He as [He _]. rewrite lookup_drop in He.
    symmetry. eapply (log_matching_same leader_log l); done || by rewrite Ht.
Qed.

(** Whatever log matches both the leader's and the follower's old log matches
    the follower's new log. *)
Lemma merged_matching l2 :
  log_matching leader_log l2 → log_matching l l2 →
  log_matching (merged (N.of_nat prev) entries l) l2.
Proof.
  intros HL Hl k e1 e2 H1 H2 Ht. destruct (decide (k < prev + length entries)) as [Hk|Hk].
  { eapply (log_matching_take _ leader_log); [apply merged_agrees|done..]. }
  assert (merged (N.of_nat prev) entries l = l) as E.
  { unfold merged in *. rewrite Nat2N.id in *. rewrite merge_entries_longer; [apply take_drop|].
    apply lookup_lt_Some in H1. rewrite length_app, length_take, Nat.min_l in H1 by lia. lia. }
  rewrite E in *. by apply (Hl k e1 e2).
Qed.
End merged_logs.
