(* ===== verification/Apply.v ===== *)
(** Commitment and application ([raft.hpp]: [apply_committed_entries] and
    [advance_commit_index]). *)

From S2P Require Import Prelude Types ConfigEntry Membership Persistence CommitWaiter ConfigSync.
From S2P Require Import Node Log Roles.

Section apply.
Context {P SM : Type} `{!PersistenceEngine P, !StateMachine SM} {JL : JsonLib}.
Abbreviation node := (node P SM).
Implicit Types s : node.

(** ** Applying committed entries *)

(** How an iteration of the application loop ends: it goes on, with or without
    counting the entry towards the batch, or it leaves the loop. *)
Inductive iteration : Type := next_iteration (counted : bool) | leave_loop.

Definition notify_waiter (next_index : N) (result : outcome bytes) : M node () :=
  mmodify (with_waiter (notify_committed_and_applied next_index (λ _, result))).

(** The keys of [_next_index] that the configuration no longer mentions, and
    their removal from both replication maps. *)
Definition untracked (cfg : cluster_configuration) s : list N :=
  filter (λ k, negb (contains_id (_nodes cfg) k || contains_id (_learners cfg) k) = true ∧
               (k =? _node_id s)%N = false)
    (map_to_list (_next_index s)).*1.

Definition forget_untracked (cfg : cluster_configuration) s : node :=
  foldl (λ s k, set_match_index (delete k (_match_index s))
                  (set_next_index (delete k (_next_index s)) s)) s (untracked cfg s).

(** The leader's second phase: append the final configuration. *)
Definition append_final_configuration (new_config : cluster_configuration) : M node () :=
  let c_new := mk_config (_nodes new_config) false None (_learners new_config) in
  let! entry := gets (λ s, mk_entry (_current_term s) (get_last_log_index s ⊕ 1)
                             (serialize_configuration c_new) configuration) in
  append_and_persist entry.

(** A committed configuration entry. *)
Definition apply_configuration (next_index : N) (entry : log_entry) : M node iteration :=
  let! new_config := mlift (deserialize_configuration (e_command entry)) in
  do! mmodify (set_configuration new_config) in
  do! sync_peer2peer_membership in
  do! mmodify (with_synchronizer (notify_configuration_committed new_config (e_index entry))) in
  do! notify_waiter next_index (Ret []) in
  do! mmodify (set_last_applied next_index) in
  let! is_leader := gets (λ s, is_leader_state (_state s)) in
  do! mwhen (_is_joint_consensus new_config && is_leader) (append_final_configuration new_config) in
  do! mwhen (negb (_is_joint_consensus new_config))
        (mmodify (λ s,
           let s := forget_untracked new_config s in
           if negb (contains_id (_nodes new_config) (_node_id s)) && is_leader_state (_state s)
           then become_follower (_current_term s) s else s)) in
  mreturn (next_iteration true).

(** The retries of the [retry] policy; the result tells whether one succeeded.
    The delays between attempts have no effect on the node. *)
Fixpoint retry_apply (attempts : nat) (next_index : N) (entry : log_entry) : M node bool :=
  match attempts with
  | O => mreturn false
  | S attempts' =>
      mcatch
        (let! result := run_state_machine (sm_apply (e_command entry) (e_index entry)) in
         do! mmodify (set_last_applied next_index) in
         do! notify_waiter next_index (Ret result) in
         mreturn true)
        (λ _, retry_apply attempts' next_index entry)
  end.

(** The failure policies, after [apply] threw [e]. *)
Definition apply_failed (next_index : N) (entry : log_entry) (e : exn) : M node iteration :=
  let! config := gets _config in
  match get_application_failure_policy config with
  | halt => do! notify_waiter next_index (Throw e) in mreturn leave_loop
  | retry =>
      let! retry_succeeded :=
        retry_apply (N.to_nat (application_retry_max_attempts config)) next_index entry in
      if retry_succeeded : bool then mreturn (next_iteration false)
      else do! notify_waiter next_index (Throw e) in mreturn leave_loop
  | skip =>
      do! mmodify (set_last_applied next_index) in
      do! notify_waiter next_index (Throw e) in
      mreturn (next_iteration false)
  end.

(** A normal entry. *)
Definition apply_command (next_index : N) (entry : log_entry) : M node iteration :=
  mcatch
    (let! result := run_state_machine (sm_apply (e_command entry) (e_index entry)) in
     do! mmodify (set_last_applied next_index) in
     do! notify_waiter next_index (Ret result) in
     mreturn (next_iteration true))
    (apply_failed next_index entry).

Definition apply_no_op (next_index : N) : M node iteration :=
  do! notify_waiter next_index (Ret []) in
  do! mmodify (set_last_applied next_index) in
  mreturn (next_iteration true).

(** The body of the loop, for the entry after [_last_applied]. *)
Definition apply_next : M node iteration :=
  let! next_index := gets (λ s, _last_applied s ⊕ 1) in
  let! entry_opt := gets (get_log_entry next_index) in
  match entry_opt with
  | None => mreturn leave_loop
  | Some entry =>
      match e_type entry with
      | no_op => apply_no_op next_index
      | configuration => apply_configuration next_index entry
      | normal => apply_command next_index entry
      end
  end.

(** [while (_last_applied < _commit_index && applied < entries_to_apply)]: every
    iteration that goes on advances [_last_applied], so as many iterations as
    there are unapplied entries are enough ([apply_loop_enough_fuel]). *)
Fixpoint apply_loop (fuel : nat) (applied entries_to_apply : N) : M node () :=
  match fuel with
  | O => mreturn tt
  | S fuel' =>
      let! go := gets (λ s, (_last_applied s <? _commit_index s)%N &&
                            (applied <? entries_to_apply)%N) in
      if go : bool then
        let! result := apply_next in
        match result with
        | leave_loop => mreturn tt
        | next_iteration counted =>
            apply_loop fuel' (if counted : bool then applied ⊕ 1 else applied) entries_to_apply
        end
      else mreturn tt
  end.

Definition max_batch_size : N := 100.

Definition apply_committed_entries : M node () :=
  let! lag := gets (λ s, _commit_index s ⊖ _last_applied s) in
  if (lag =? 0)%N then mreturn tt
  else apply_loop (N.to_nat lag) 0 (N.min lag max_batch_size).

(** ** Advancing the commit index *)

Definition count_acks (n : N) s (node_set : list N) : N :=
  N.of_nat (length (filter (λ nid,
    ((nid =? _node_id s)%N ||
     match _match_index s !! nid with Some m => (n <=? m)%N | None => false end) = true) node_set)).

Definition has_majority (count : N) (node_set : list N) : bool :=
  (N.of_nat (length node_set) <? count * 2)%N.

Definition has_commit_quorum (n : N) s : bool :=
  let c_new := _nodes (_configuration s) in
  match joint_old_nodes (_configuration s) with
  | Some c_old => has_majority (count_acks n s c_old) c_old && has_majority (count_acks n s c_new) c_new
  | None => has_majority (count_acks n s c_new) c_new
  end.

(** [for (n = _commit_index + 1; n <= last_log_idx; ++n)], over the indices
    still to be looked at. *)
Fixpoint commit_loop (indices : list N) : M node () :=
  match indices with
  | [] => mreturn tt
  | n :: rest =>
      let! quorum := gets (has_commit_quorum n) in
      if quorum : bool then
        let! current := gets (λ s, match get_log_entry n s with
                                   | Some e => (e_term e =? _current_term s)%N
                                   | None => false
                                   end) in
        do! mwhen current
              (do! mmodify (set_commit_index n) in apply_committed_entries) in
        commit_loop rest
      else mreturn tt
  end.

(** Followers more than a hundred entries behind are marked unresponsive. *)
Definition mark_unresponsive s : node :=
  set_unresponsive_followers
    (foldl (λ u kv, if (kv.2 ⊕ 100 <? _commit_index s)%N then {[kv.1]} ∪ u else u ∖ {[kv.1]})
       (_unresponsive_followers s) (map_to_list (_match_index s))) s.

Definition advance_commit_index : M node () :=
  let! is_leader := gets (λ s, is_leader_state (_state s)) in
  if is_leader : bool then
    let! indices := gets (λ s, nrange (_commit_index s ⊕ 1) (get_last_log_index s)) in
    do! commit_loop indices in
    mmodify mark_unresponsive
  else mreturn tt.

End apply.
