(* ===== verification/Election.v ===== *)
(** Elections ([raft.hpp]: [handle_request_vote], [handle_request_pre_vote],
    [start_election], [start_pre_vote], [check_election_timeout] and the
    callbacks that count the votes). *)

From S2P Require Import Prelude Types Membership Persistence Node Log Roles Apply.

Section election.
Context {P SM : Type} `{!PersistenceEngine P}.
Abbreviation node := (node P SM).
Implicit Types s : node.

(** ** Granting votes *)

(** Rule 4: the candidate's log is at least as up to date as ours. *)
Definition candidate_log_up_to_date (last_log_index last_log_term : N) s : bool :=
  if (get_last_log_term s <? last_log_term)%N then true
  else if (last_log_term =? get_last_log_term s)%N
       then (get_last_log_index s <=? last_log_index)%N
       else false.

Definition refuse_vote : M node request_vote_response :=
  gets (λ s, mk_vote_resp (_current_term s) false).

Definition grant_vote (candidate_id : N) : M node request_vote_response :=
  do! mmodify (set_voted_for (Some candidate_id)) in
  do! persist (save_voted_for candidate_id) in
  let! term := gets _current_term in
  do! persist (save_current_term term) in
  do! mmodify reset_election_timer in
  gets (λ s, mk_vote_resp (_current_term s) true).

Definition handle_request_vote (request : request_vote_request) : M node request_vote_response :=
  let! learner := gets is_learner in
  if learner : bool then refuse_vote else
  let! term := gets _current_term in
  if (rv_term request <? term)%N then refuse_vote else
  do! mwhen (term <? rv_term request)%N (mmodify (become_follower (rv_term request))) in
  let! voted := gets _voted_for in
  if match voted with
     | Some c => negb (c =? rv_candidate_id request)%N
     | None => false
     end
  then refuse_vote else
  let! up_to_date :=
    gets (candidate_log_up_to_date (rv_last_log_index request) (rv_last_log_term request)) in
  if negb up_to_date then refuse_vote
  else grant_vote (rv_candidate_id request).

(** Heard from a leader within the election timeout. *)
Definition leader_contact_recent s : bool :=
  match _last_leader_contact s with
  | Some t => (elapsed_ms (now s) t <? _election_timeout s)%Z
  | None => false
  end.

Definition handle_request_pre_vote (request : request_vote_request) : M node request_vote_response :=
  let! learner := gets is_learner in
  if learner : bool then refuse_vote else
  let! recent := gets leader_contact_recent in
  if recent : bool then refuse_vote else
  let! up_to_date :=
    gets (candidate_log_up_to_date (rv_last_log_index request) (rv_last_log_term request)) in
  if negb up_to_date then refuse_vote
  else gets (λ s, mk_vote_resp (_current_term s) true).

(** ** Asking for votes *)

(** The other voters: those of the configuration, then in a joint configuration
    the old voters not listed yet. *)
Definition peer_ids s : list N :=
  let others := filter (λ p, p ≠ _node_id s) (_nodes (_configuration s)) in
  match joint_old_nodes (_configuration s) with
  | Some old =>
      foldl (λ ids p, if (p =? _node_id s)%N || contains_id ids p then ids else ids ++ [p]) others old
  | None => others
  end.

Definition vote_request (term : N) s : request_vote_request :=
  mk_vote_req term (_node_id s) (get_last_log_index s) (get_last_log_term s).

(** What the vote-counting callback captures. *)
Record vote_context : Type := mk_vote_context {
  vc_term : N;
  snap_c_new : list N;
  snap_c_old : option (list N)
}.

(** [start_election]: the requests are built from the state under the first
    lock; without peers the node is leader at once; otherwise the configuration
    is captured (under the second lock) for the callback. *)
Definition start_election : M node (option vote_context) :=
  let! is_candidate := gets (λ s, is_candidate_state (_state s)) in
  if negb is_candidate then mreturn None else
  let! term := gets _current_term in
  let! request := gets (λ s, vote_request term s) in
  let! peers := gets peer_ids in
  do! mfor peers (λ p, mmodify (send (out_request_vote p request))) in
  if bool_decide (peers = []) then
    let! still := gets (λ s, is_candidate_state (_state s) && (_current_term s =? term)%N) in
    do! mwhen still become_leader in
    mreturn None
  else
    gets (λ s, Some (mk_vote_context term (_nodes (_configuration s))
                       (_old_nodes (_configuration s)))).

(** ** Counting votes *)

(** The settled vote futures: the peer and its response, or [None] for a
    failed request. *)
Abbreviation vote_results := (list (option (N * request_vote_response))).

Definition has_vote_from (self : N) (results : vote_results) (n : N) : bool :=
  (n =? self)%N ||
  existsb (λ r, match r with
                | Some (p, resp) => (p =? n)%N && rvr_vote_granted resp
                | None => false
                end) results.

Definition has_quorum (self : N) (results : vote_results) (cfg : list N) : bool :=
  has_majority (N.of_nat (length (filter (λ n, has_vote_from self results n = true) cfg))) cfg.

Definition election_won (self : N) (ctx : vote_context) (results : vote_results) : bool :=
  match snap_c_old ctx with
  | Some old => has_quorum self results (snap_c_new ctx) && has_quorum self results old
  | None => has_quorum self results (snap_c_new ctx)
  end.

(** The first response with a higher term. *)
Definition higher_term (term : N) (results : vote_results) : option N :=
  head (omap (λ r, match r with
                   | Some (_, resp) => if (term <? rvr_term resp)%N then Some (rvr_term resp) else None
                   | None => None
                   end) results).

(** The callback of [start_election] on the collected votes. *)
Definition on_votes_collected (ctx : vote_context) (results : vote_results) : M node () :=
  let! current := gets (λ s, is_candidate_state (_state s) && (_current_term s =? vc_term ctx)%N) in
  if negb current then mreturn tt else
  let! term := gets _current_term in
  match higher_term term results with
  | Some t => mmodify (become_follower t)
  | None =>
      let! self := gets _node_id in
      mwhen (election_won self ctx results) become_leader
  end.

(** ** Pre-votes *)

(** [start_pre_vote]: without peers it escalates to an election at once; the
    result is what its callback captures. *)
Definition start_pre_vote : M node (option vote_context) :=
  let! exempt := gets (λ s, is_leader_state (_state s) || is_learner s) in
  if exempt : bool then mreturn None else
  do! mmodify (λ s, randomize_election_timeout (reset_election_timer s)) in
  let! term := gets (λ s, _current_term s ⊕ 1) in
  let! request := gets (vote_request term) in
  let! peers := gets peer_ids in
  if bool_decide (peers = []) then
    do! become_candidate in
    do! start_election in mreturn None
  else
    do! mfor peers (λ p, mmodify (send (out_request_pre_vote p request))) in
    gets (λ s, Some (mk_vote_context term (_nodes (_configuration s))
                       (_old_nodes (_configuration s)))).

(** The callback of [start_pre_vote]: a majority escalates to a real election. *)
Definition on_pre_votes_collected (ctx : vote_context) (results : vote_results) :
    M node (option vote_context) :=
  let! self := gets _node_id in
  if negb (election_won self ctx results) then mreturn None else
  let! is_leader := gets (λ s, is_leader_state (_state s)) in
  if is_leader : bool then mreturn None else
  do! become_candidate in start_election.

(** ** The election timer *)

(** [check_election_timeout] after the peer-to-peer ticks; [pre_vote] tells
    whether the transport supports PreVote. *)
Definition election_tick (pre_vote : bool) : M node (option vote_context) :=
  let! exempt := gets (λ s, is_leader_state (_state s) || is_learner s) in
  if exempt : bool then mreturn None else
  let! elapsed := gets election_timeout_elapsed in
  if negb elapsed then mreturn None
  else if pre_vote then start_pre_vote
  else do! become_candidate in start_election.

End election.
