(* ===== verification/Snapshot.v ===== *)
(** Snapshots ([raft.hpp]: [create_snapshot], [compact_log], [install_snapshot],
    [handle_install_snapshot], [send_install_snapshot_to]). *)

From S2P Require Import Prelude Types Persistence Node Log Roles AppendEntries.

Section snapshot.
Context {P SM : Type} `{!PersistenceEngine P, !StateMachine SM}.
Abbreviation node := (node P SM).
Implicit Types s : node.

(** ** Taking a snapshot *)

(** [_log.erase(_log.begin(), _log.begin() + k)] for [k <= size]. *)
Definition erase_front (k : nat) s : node := set_log (drop k (_log s)) s.

(** The leading entries with an index at most [last]. *)
Fixpoint count_compacted (last : N) (l : list log_entry) : nat :=
  match l with
  | e :: l' => if (e_index e <=? last)%N then S (count_compacted last l') else 0
  | [] => 0
  end.

Definition compact_log : M node () :=
  let! snapshot_opt := gets (λ s, load_snapshot (_persistence s)) in
  match snapshot_opt with
  | None => mreturn tt
  | Some snap =>
      let last_included := last_included_index snap in
      let! front := gets (λ s, head (_log s)) in
      match front with
      | None => mreturn tt
      | Some first =>
          if (last_included <? e_index first)%N then mreturn tt else
          let! entries_to_remove := gets (λ s, count_compacted last_included (_log s)) in
          if (entries_to_remove =? 0)%nat then mreturn tt else
          do! mmodify (erase_front entries_to_remove) in
          persist (delete_log_entries_before (last_included ⊕ 1))
      end
  end.

(** The term of the last applied entry, 0 when it is not in the log. *)
Definition last_applied_term s : N :=
  if (0 <? _last_applied s)%N then
    match get_log_entry (_last_applied s) s with Some e => e_term e | None => 0%N end
  else 0%N.

Definition create_snapshot_with (state : bytes) : M node () :=
  let! snap := gets (λ s, mk_snapshot (_last_applied s) (last_applied_term s) (_configuration s) state) in
  do! persist (save_snapshot snap) in
  compact_log.

Definition create_snapshot : M node () :=
  let! state := λ s, (sm_get_state (_state_machine s), s) in
  create_snapshot_with state.

(** ** Installing a snapshot *)

Definition install_snapshot (snap : snapshot) : M node () :=
  do! run_state_machine
        (sm_restore_from_snapshot (state_machine_state snap) (last_included_index snap)) in
  do! mmodify (set_configuration (snap_configuration snap)) in
  do! sync_peer2peer_membership in
  do! mmodify (set_last_applied (last_included_index snap)) in
  do! mmodify (λ s, if (_commit_index s <? last_included_index snap)%N
                    then set_commit_index (last_included_index snap) s else s) in
  mmodify (λ s,
    if negb (bool_decide (_log s = [])) && (0 <? last_included_index snap)%N
    then erase_front (Nat.min (N.to_nat (last_included_index snap)) (length (_log s))) s
    else s).

(** Whether the log entry at the snapshot's index has the snapshot's term. *)
Definition retain_log (request : install_snapshot_request) s : bool :=
  if (is_last_included_index request <=? get_last_log_index s)%N then
    match get_log_entry (is_last_included_index request) s with
    | Some e => (e_term e =? is_last_included_term request)%N
    | None => false
    end
  else false.

(** Rules 6 and 7: keep the entries after the snapshot, or discard the log. *)
Definition discard_or_retain (request : install_snapshot_request) : M node () :=
  let! retain := gets (retain_log request) in
  if retain : bool then
    let entries_to_remove := is_last_included_index request in
    let! within := gets (λ s, (0 <? entries_to_remove)%N &&
                              (entries_to_remove <=? N.of_nat (length (_log s)))%N) in
    mwhen within
      (do! mmodify (erase_front (N.to_nat entries_to_remove)) in
       persist (truncate_log (is_last_included_index request ⊕ 1)))
  else
    do! mmodify (set_log []) in
    persist (truncate_log 1).

(** Rule 3: the buffer after a chunk; [None] when the chunk is refused. *)
Definition accept_chunk (request : install_snapshot_request) s : option bytes :=
  if (is_offset request =? 0)%N then Some (is_data request)
  else match snapshot_buffer s with
       | None => None
       | Some buffer =>
           if (N.of_nat (length buffer) =? is_offset request)%N
           then Some (buffer ++ is_data request) else None
       end.

(** Rules 5 to 8 on the complete data. *)
Definition install_complete (request : install_snapshot_request) (data : bytes) : M node () :=
  let! config := gets _configuration in
  let snap := mk_snapshot (is_last_included_index request) (is_last_included_term request)
                config data in
  do! discard_or_retain request in
  do! install_snapshot snap in
  do! mmodify (λ s, set_commit_index (N.max (_commit_index s) (is_last_included_index request)) s) in
  do! mmodify (set_last_applied (is_last_included_index request)) in
  do! persist (save_snapshot snap) in
  let! term := gets _current_term in
  do! persist (save_current_term term) in
  mmodify (set_snapshot_buffer None).

Definition snapshot_reply : M node install_snapshot_response :=
  gets (λ s, mk_snap_resp (_current_term s)).

Definition handle_install_snapshot (request : install_snapshot_request) :
    M node install_snapshot_response :=
  let! term := gets _current_term in
  if (is_term request <? term)%N then snapshot_reply else
  do! mwhen (term <? is_term request)%N (mmodify (become_follower (is_term request))) in
  do! mmodify reset_election_timer in
  let! accepted := gets (accept_chunk request) in
  match accepted with
  | None => snapshot_reply
  | Some buffer =>
      do! mmodify (set_snapshot_buffer (Some buffer)) in
      if negb (is_done request) then snapshot_reply
      else
        do! install_complete request buffer in
        snapshot_reply
  end.

(** ** Sending a snapshot *)

Definition data_size (snap : snapshot) : N := N.of_nat (length (state_machine_state snap)).

(** The chunk at [offset], built from the current term. *)
Definition snapshot_chunk (snap : snapshot) (offset : N) s : install_snapshot_request :=
  let current_chunk_size := N.min (data_size snap - offset) (snapshot_chunk_size (_config s)) in
  mk_snap_req (_current_term s) (_node_id s) (last_included_index snap) (last_included_term snap)
    offset
    (take (N.to_nat current_chunk_size) (drop (N.to_nat offset) (state_machine_state snap)))
    (data_size snap <=? offset + current_chunk_size)%N.

(** One turn of the sending loop: the next chunk, or the bookkeeping at its end. *)
Definition send_chunk (target : N) (snap : snapshot) (offset : N) s : node :=
  if (offset <? data_size snap)%N
  then send (out_install_snapshot target snap (snapshot_chunk snap offset s)) s
  else put_match_index target (last_included_index snap)
         (put_next_index target (last_included_index snap ⊕ 1) s).

Definition send_install_snapshot_to (target : N) s : node :=
  if is_leader_state (_state s) then
    match load_snapshot (_persistence s) with
    | None => s
    | Some snap => send_chunk target snap 0 s
    end
  else s.

(** The loop resumes with the answer to the chunk [request]; an exception ends
    the transfer. *)
Definition on_install_snapshot_reply (target : N) (snap : snapshot)
    (request : install_snapshot_request) (reply : outcome install_snapshot_response) s : node :=
  match reply with
  | Ret response =>
      if (_current_term s <? isr_term response)%N then become_follower (isr_term response) s
      else if negb (is_leader_state (_state s)) || negb (isr_term response =? _current_term s)%N then s
      else send_chunk target snap (is_offset request + N.of_nat (length (is_data request)))%N s
  | _ => s
  end.

End snapshot.
