(* ===== verification/Replication.v ===== *)
(** Replication ([raft.hpp]: [handle_append_entries], [replicate_to_followers],
    [send_append_entries_to] and its response callback, heartbeats, and the
    peer-to-peer catch-up). *)

From S2P Require Import Prelude Types ConfigEntry Membership Persistence CommitWaiter Node Log.
From S2P Require Import Roles AppendEntries Apply Snapshot.

Section replication.
Context {P SM : Type} `{!PersistenceEngine P, !StateMachine SM} {JL : JsonLib}.
Abbreviation node := (node P SM).
Implicit Types s : node.

(** ** Receiving entries *)

(** Rule 6 of AppendEntries. *)
Definition update_commit_index (leader_commit : N) : M node () :=
  let! behind := gets (λ s, (_commit_index s <? leader_commit)%N) in
  mwhen behind
    (do! mmodify (λ s, set_commit_index (N.min leader_commit (get_last_log_index s)) s) in
     apply_committed_entries).

Definition handle_append_entries (request : append_entries_request) :
    M node append_entries_response :=
  let! term := gets _current_term in
  if (ae_term request <? term)%N
  then mreturn (mk_append_resp term false None None) else
  let! state := gets _state in
  do! (if (term <? ae_term request)%N then mmodify (become_follower (ae_term request))
       else mwhen (is_candidate_state state) (mmodify (become_follower term))) in
  do! mmodify reset_election_timer in
  do! mmodify (λ s, set_last_leader_contact (Some (now s)) s) in
  do! mmodify (set_known_leader (Some (ae_leader_id request))) in
  let! response := append_entries_with_consistency_check
                     (ae_prev_log_index request) (ae_prev_log_term request) (ae_entries request) in
  if negb (aer_success response) then mreturn response else
  do! update_commit_index (ae_leader_commit request) in
  mreturn response.

(** ** Sending entries *)

(** The entries from [idx] on, at most [max_entries] of them, up to the first
    one missing. *)
Fixpoint collect_entries (indices : list N) (max_entries : nat) s : list log_entry :=
  match indices, max_entries with
  | idx :: rest, S max_entries' =>
      match get_log_entry idx s with
      | Some e => e :: collect_entries rest max_entries' s
      | None => []
      end
  | _, _ => []
  end.

(** [_next_index\[target\]]: a missing key is created with value 0. *)
Definition touch_next_index (target : N) s : node :=
  match _next_index s !! target with
  | Some _ => s
  | None => put_next_index target 0%N s
  end.
Definition next_index_of (target : N) s : N := default 0%N (_next_index s !! target).

(** The term of the entry before [next_idx]; [None] when it was compacted away. *)
Definition prev_term_of (prev_log_index : N) s : option N :=
  if (0 <? prev_log_index)%N then e_term <$> get_log_entry prev_log_index s else Some 0%N.

Definition append_request (next_idx prev_log_term : N) s : append_entries_request :=
  mk_append_req (_current_term s) (_node_id s) (next_idx ⊖ 1) prev_log_term
    (collect_entries (nrange next_idx (get_last_log_index s))
       (N.to_nat (max_entries_per_append (_config s))) s)
    (_commit_index s).

Definition send_append_entries_to (target : N) s : node :=
  if is_leader_state (_state s) then
    let s := touch_next_index target s in
    let next_idx := next_index_of target s in
    match prev_term_of (next_idx ⊖ 1) s with
    | None => send_install_snapshot_to target s
    | Some prev_log_term =>
        send (out_append_entries target next_idx (append_request next_idx prev_log_term s)) s
    end
  else s.

(** The follower list is read under the lock, then each request is sent, then
    the commit index is advanced. *)
Definition first_log_index s : N := match head (_log s) with Some e => e_index e | None => 1%N end.

Definition follower_actions s : list (N * bool) :=
  omap (λ kv, if (kv.1 =? _node_id s)%N then None
              else Some (kv.1, (kv.2 <? first_log_index s)%N))
    (map_to_list (_next_index s)).

Definition perform_action (action : N * bool) s : node :=
  if action.2 then send_install_snapshot_to action.1 s else send_append_entries_to action.1 s.

Definition replicate_to_followers : M node () :=
  let! is_leader := gets (λ s, is_leader_state (_state s)) in
  if negb is_leader then mreturn tt else
  let! actions := gets follower_actions in
  do! mfor actions (λ a, mmodify (perform_action a)) in
  advance_commit_index.

(** ** Responses *)

(** A successful AppendEntries that carried [sent] entries from [next_idx] on. *)
Definition record_match (target next_idx : N) (sent : nat) s : node :=
  let new_match_index := (next_idx ⊕ N.of_nat sent) ⊖ 1 in
  let s := put_next_index target (new_match_index ⊕ 1) s in
  let s := put_match_index target new_match_index s in
  set_unresponsive_followers (_unresponsive_followers s ∖ {[target]}) s.

(** A rejected AppendEntries: back off to the conflict index, or by one. *)
Definition back_off (target : N) (response : append_entries_response) s : node :=
  match aer_conflict_index response with
  | Some i => put_next_index target i s
  | None =>
      let s := touch_next_index target s in
      let n := next_index_of target s in
      if (1 <? n)%N then put_next_index target (n ⊖ 1) s else s
  end.

(** The callback of [send_append_entries_to]. *)
Definition on_append_entries_response (target next_idx : N) (entries_sent : list log_entry)
    (try_response : outcome append_entries_response) : M node () :=
  match try_response with
  | Ret response =>
      let! term := gets _current_term in
      if (term <? aer_term response)%N then mmodify (become_follower (aer_term response)) else
      let! is_leader := gets (λ s, is_leader_state (_state s)) in
      if negb is_leader || negb (aer_term response =? term)%N then mreturn tt else
      if aer_success response then
        do! mmodify (record_match target next_idx (length entries_sent)) in
        advance_commit_index
      else
        do! mmodify (back_off target response) in
        mmodify (send_append_entries_to target)
  | _ => mmodify (λ s, set_unresponsive_followers ({[target]} ∪ _unresponsive_followers s) s)
  end.

(** [send_heartbeat_with_retry]: the request of one attempt. *)
Definition heartbeat_request (target : N) s : outcome append_entries_request :=
  let next_idx := next_index_of target s in
  match prev_term_of (next_idx ⊖ 1) s with
  | None => Throw (runtime_error "Previous entry not in log, need snapshot")
  | Some prev_log_term =>
      Ret (mk_append_req (_current_term s) (_node_id s) (next_idx ⊖ 1) prev_log_term []
             (_commit_index s))
  end.

Definition send_heartbeat_with_retry (target : N) s : node :=
  let s := touch_next_index target s in
  match heartbeat_request target s with
  | Ret request => send (out_heartbeat target request) s
  | _ => s
  end.

(** The callback of [send_heartbeat_with_retry]. *)
Definition on_heartbeat_response (target : N) (try_response : outcome append_entries_response) s : node :=
  match try_response with
  | Ret response =>
      if (_current_term s <? aer_term response)%N then become_follower (aer_term response) s
      else if negb (is_leader_state (_state s)) || negb (aer_term response =? _current_term s)%N then s
      else if aer_success response then
        set_heartbeat_failure_counts (delete target (_heartbeat_failure_counts s))
          (set_unresponsive_followers (_unresponsive_followers s ∖ {[target]}) s)
      else s
  | _ =>
      let s := set_unresponsive_followers ({[target]} ∪ _unresponsive_followers s) s in
      if _quorum_check_active s then
        let count := default 0%N (_heartbeat_failure_counts s !! target) ⊕ 1 in
        let s := set_heartbeat_failure_counts (<[target := count]> (_heartbeat_failure_counts s)) s in
        if (quorum_heartbeat_failure_threshold (_config s) <=? count)%N
        then set_quorum_immediate_check true s else s
      else s
  end.

Definition send_heartbeats : M node () :=
  let! is_leader := gets (λ s, is_leader_state (_state s)) in
  if negb is_leader then mreturn tt else replicate_to_followers.

(** ** Peer-to-peer catch-up *)

Definition handle_fetch_log_entries (request : fetch_log_entries_request) s :
    fetch_log_entries_response :=
  match get_log_entry (fl_from_index request) s with
  | None => mk_fetch_resp (_node_id s) false 0 []
  | Some _ =>
      let prev_log_term :=
        if (1 <? fl_from_index request)%N then
          match get_log_entry (fl_from_index request ⊖ 1) s with Some e => e_term e | None => 0%N end
        else 0%N in
      let last_index_to_serve := N.min (fl_to_index request) (get_last_log_index s) in
      let indices := nrange (fl_from_index request) last_index_to_serve in
      mk_fetch_resp (_node_id s) true prev_log_term (collect_entries indices (length indices) s)
  end.

Definition maybe_gossip_progress s : node :=
  if (elapsed_ms (now s) (_last_progress_gossip s) <? progress_gossip_interval (_config s))%Z then s
  else
    let s := set_last_progress_gossip (now s) s in
    send (out_advertise_progress (_current_term s) (get_last_log_index s)) s.

Definition maybe_catch_up_from_peer s : node :=
  if is_leader_state (_state s) || _catch_up_in_flight s then s
  else
    let from_index := get_last_log_index s ⊕ 1 in
    let max_entries := catch_up_fetch_max_entries (_config s) in
    let to_index := if (0 <? max_entries)%N then (from_index ⊕ max_entries) ⊖ 1 else from_index in
    send (out_find_catch_up_source from_index to_index) (set_catch_up_in_flight true s).

(** The replicator's answer: a source to fetch from, or none; [can_fetch] tells
    whether the transport has the fetch request. *)
Definition on_catch_up_source (can_fetch : bool) (from_index to_index : N)
    (source : outcome (option N)) s : node :=
  match source with
  | Ret (Some id) =>
      if can_fetch
      then send (out_fetch_log_entries id (mk_fetch_req (_node_id s) from_index to_index)) s
      else set_catch_up_in_flight false s
  | _ => set_catch_up_in_flight false s
  end.

(** The fetched entries go through the same consistency check. *)
Definition on_fetch_response (from_index : N) (resp : outcome fetch_log_entries_response) : M node () :=
  do! mmodify (set_catch_up_in_flight false) in
  match resp with
  | Ret response =>
      if flr_available response then
        do! append_entries_with_consistency_check (from_index ⊖ 1) (flr_prev_log_term response)
              (flr_entries response) in mreturn tt
      else mreturn tt
  | _ => mreturn tt
  end.

End replication.
