(* ===== verification/MembershipChange.v ===== *)
(** Membership ([raft.hpp]: [add_server], [remove_server], [add_learner],
    [remove_learner], [promote_to_voter], the placement-capacity rules, and the
    ClusterJoin and ClusterLeave handlers). *)

From S2P Require Import Prelude Types ConfigEntry Membership Persistence CommitWaiter ConfigSync.
From S2P Require Import Node Log Roles.

(** Counting nodes per placement group. *)
Definition count_if (f : N → bool) (l : list N) : N := N.of_nat (length (List.filter f l)).

Section membership_change.
Context {P SM : Type} `{!PersistenceEngine P} {MM : MembershipManager} {JL : JsonLib}.
Abbreviation node := (node P SM).
Implicit Types s : node.

(** ** Placement capacity *)

Definition build_quorum_cluster_vector s : list (N * string) :=
  (λ nid, (nid, default EmptyString (_placement_map s !! nid))) <$> _nodes (_configuration s).

Definition placement_of (id : N) s : string := default EmptyString (_placement_map s !! id).

Definition voting_count_in_group (group : string) s : N :=
  count_if (λ id, String.eqb (placement_of id s) group) (_nodes (_configuration s)).

Definition learner_count_in_group (group : string) s : N :=
  count_if (λ id, String.eqb (placement_of id s) group) (_learners (_configuration s)).

Definition voting_and_learner_count_in_group (group : string) s : N :=
  (voting_count_in_group group s + learner_count_in_group group s)%N.

Definition find_group_target (group : string) s : option placement_group_target :=
  List.find (λ g, String.eqb (group_id g) group) (_topology s).

Definition group_has_admission_capacity (group : string) s : bool :=
  match find_group_target group s with
  | None => false
  | Some target =>
      match learner_capacity target with
      | Some capacity => (learner_count_in_group group s <? capacity)%N
      | None => (voting_and_learner_count_in_group group s <? target_count target)%N
      end
  end.

Definition group_has_promotion_capacity (group : string) s : bool :=
  match find_group_target group s with
  | None => false
  | Some target => (voting_count_in_group group s <? target_count target)%N
  end.

(** ** Voting changes *)

(** [append_entries_timeout() * 10]. *)
Definition config_change_timeout s : Z := (append_entries_timeout (_config s) * 10)%Z.

Definition configuration_entry (cfg : cluster_configuration) s : log_entry :=
  mk_entry (_current_term s) (get_last_log_index s ⊕ 1) (serialize_configuration cfg) configuration.

(** Start the change towards [new_nodes] and append the joint configuration; the
    result is the promise of the synchronizer. [track] prepares the replication
    state of a new server from the index of the joint entry. *)
Definition start_joint_change (new_nodes learners : list N) (track : N → node → node) : M node N :=
  let! timeout := gets config_change_timeout in
  let! promise := make_promise in
  let new_config := mk_config new_nodes false None learners in
  do! mmodify (λ s, with_synchronizer
                      (start_configuration_change new_config timeout (now s) promise) s) in
  let! joint_config := gets (λ s, mk_config new_nodes true (Some (_nodes (_configuration s))) learners) in
  let! joint_entry := gets (configuration_entry joint_config) in
  do! mmodify (track (e_index joint_entry)) in
  do! append_and_persist joint_entry in
  do! mmodify (set_configuration joint_config) in
  do! sync_peer2peer_membership in
  mreturn promise.

Definition change_in_progress s : bool :=
  is_configuration_change_in_progress (_config_synchronizer s).

Definition track_new_server (new_node joint_idx : N) s : node :=
  put_match_index new_node 0%N (put_next_index new_node joint_idx s).

Definition add_server (new_node : N) : M node N :=
  let! s := mget in
  if negb (is_leader_state (_state s)) then
    make_settled (Throw (runtime_error "Not leader - cannot add server"))
  else if change_in_progress s then
    make_settled (Throw (runtime_error "Configuration change already in progress"))
  else if is_node_in_configuration new_node (_configuration s) then
    make_settled (Throw (runtime_error "Node already in configuration"))
  else if negb (validate_new_node new_node) then
    make_settled (Throw (runtime_error "Node validation failed"))
  else
    start_joint_change (_nodes (_configuration s) ++ [new_node]) (_learners (_configuration s))
      (track_new_server new_node).

Definition remove_server (old_node : N) : M node N :=
  let! s := mget in
  if negb (is_leader_state (_state s)) then
    make_settled (Throw (runtime_error "Not leader - cannot remove server"))
  else if change_in_progress s then
    make_settled (Throw (runtime_error "Configuration change already in progress"))
  else if negb (is_node_in_configuration old_node (_configuration s)) then
    make_settled (Throw (runtime_error "Node not in configuration"))
  else if (N.of_nat (length (_nodes (_configuration s))) <=? 1)%N then
    make_settled (Throw (runtime_error "Cannot remove last node from cluster"))
  else
    let! promise :=
      start_joint_change (filter (λ n, n ≠ old_node) (_nodes (_configuration s)))
        (_learners (_configuration s)) (λ _ s, s) in
    do! mmodify (λ s, set_unresponsive_followers (_unresponsive_followers s ∖ {[old_node]}) s) in
    mreturn promise.

(** The continuation of a change: what the caller's future resolves to. *)
Definition change_result (try_result : outcome bool) : outcome bytes :=
  match try_result with
  | Ret _ => Ret []
  | Throw e => Throw e
  | Undef w => Undef w
  end.

Definition on_change_settled (promise : N) (removing_self : bool) (try_result : outcome bool) s : node :=
  if _stop_flag s then
    set_resolved (resolved s ++ [(promise, Throw (runtime_error "node stopped"))]) s
  else
    let s := match try_result with
             | Ret _ => if removing_self then become_follower (_current_term s) s else s
             | _ => s
             end in
    set_resolved (resolved s ++ [(promise, change_result try_result)]) s.

(** ** Learners *)

(** Append a plain configuration entry and wait for its commit. *)
Definition append_plain_configuration (new_config : cluster_configuration)
    (track : N → node → node) : M node N :=
  let! entry := gets (configuration_entry new_config) in
  do! mmodify (track (e_index entry)) in
  do! append_and_persist entry in
  do! mmodify (set_configuration new_config) in
  do! sync_peer2peer_membership in
  let! promise := make_promise in
  do! mmodify (λ s, set_commit_waiter
                 (register_operation (e_index entry) promise None (now s) (_commit_waiter s)) s) in
  mreturn promise.

Definition set_learners (learners : list N) (cfg : cluster_configuration) : cluster_configuration :=
  mk_config (_nodes cfg) (_is_joint_consensus cfg) (_old_nodes cfg) learners.

Definition add_learner (new_node : N) : M node N :=
  let! s := mget in
  if negb (is_leader_state (_state s)) then
    make_settled (Throw (runtime_error "Not leader - cannot add learner"))
  else if is_node_in_configuration new_node (_configuration s)
          || contains_id (_learners (_configuration s)) new_node then
    make_settled (Throw (runtime_error "Node already in configuration"))
  else if negb (group_has_admission_capacity (placement_of new_node s) s) then
    make_settled (Throw learner_capacity_exceeded_exception)
  else
    append_plain_configuration
      (set_learners (_learners (_configuration s) ++ [new_node]) (_configuration s))
      (track_new_server new_node).

Definition remove_learner (learner : N) : M node N :=
  let! s := mget in
  if negb (is_leader_state (_state s)) then
    make_settled (Throw (runtime_error "Not leader - cannot remove learner"))
  else if negb (contains_id (_learners (_configuration s)) learner) then
    make_settled (Throw (runtime_error "Node not a learner in configuration"))
  else
    append_plain_configuration
      (set_learners (filter (λ n, n ≠ learner) (_learners (_configuration s))) (_configuration s))
      (λ _ s, s).

Definition promote_to_voter (learner : N) : M node N :=
  let! s := mget in
  if negb (is_leader_state (_state s)) then
    make_settled (Throw (runtime_error "Not leader - cannot promote to voter"))
  else if change_in_progress s then
    make_settled (Throw (runtime_error "Configuration change already in progress"))
  else if negb (contains_id (_learners (_configuration s)) learner) then
    make_settled (Throw (runtime_error "Node is not a learner in configuration"))
  else if negb (group_has_promotion_capacity (placement_of learner s) s) then
    make_settled (Throw voting_capacity_exceeded_exception)
  else
    start_joint_change (_nodes (_configuration s) ++ [learner])
      (filter (λ n, n ≠ learner) (_learners (_configuration s))) (λ _ s, s).

(** ** Join and leave requests *)

(** Accepted, and the leader to redirect to. *)
Abbreviation cluster_response := (bool * option N)%type.

Definition handle_cluster_join (joining_node_id : N) : M node cluster_response :=
  let! s := mget in
  if is_leader_state (_state s) then
    do! add_learner joining_node_id in mreturn (true, None)
  else mreturn (false, _known_leader s).

Definition handle_cluster_leave (leaving_node_id : N) : M node cluster_response :=
  let! s := mget in
  if is_leader_state (_state s) then
    do! remove_server leaving_node_id in mreturn (true, None)
  else mreturn (false, _known_leader s).

End membership_change.
