(* ===== verification/Client.v ===== *)
(** Client operations ([raft.hpp]: [submit_command],
    [submit_command_with_session], [read_state]). *)

From stdpp Require Import pretty.
From S2P Require Import Prelude Types ConfigEntry Membership Persistence CommitWaiter Node Log.
From S2P Require Import Roles Apply Replication.

Section client.
Context {P SM : Type} `{!PersistenceEngine P, !StateMachine SM} {JL : JsonLib}.
Abbreviation node := (node P SM).
Implicit Types s : node.

(** ** Commands *)

Definition command_entry (command : bytes) s : log_entry :=
  mk_entry (_current_term s) (get_last_log_index s ⊕ 1) command normal.

(** The registration of the command's promise with the commit waiter. *)
Definition await_commit (entry_index promise : N) (timeout : Z) s : node :=
  set_commit_waiter
    (register_operation entry_index promise (if (0 <? timeout)%Z then Some timeout else None)
       (now s) (_commit_waiter s)) s.

Definition submit_command (command : bytes) (timeout : Z) : M node N :=
  let! is_leader := gets (λ s, is_leader_state (_state s)) in
  if negb is_leader then make_settled (Throw (runtime_error "Not leader")) else
  let! entry := gets (command_entry command) in
  let! stored := mcatch
    (do! persist (Persistence.append_log_entry entry) in
     do! mmodify (append_log_entry entry) in mreturn None)
    (λ e, mreturn (Some e)) in
  match stored with
  | Some e => make_settled (Throw e)
  | None =>
      let! promise := make_promise in
      do! mmodify (await_commit (e_index entry) promise timeout) in
      do! replicate_to_followers in
      mreturn promise
  end.

(** ** Sessions *)

(** What the session table says about a request. *)
Inductive session_verdict : Type :=
  | session_reject (e : exn)
  | session_cached (response : bytes)
  | session_submit.

Definition check_session (client_id serial_number : N) s : session_verdict * node :=
  match _client_sessions s !! client_id with
  | None =>
      if negb (serial_number =? 1)%N then
        (session_reject (invalid_argument "New client must start with serial number 1"), s)
      else
        (session_submit,
         set_client_sessions (<[client_id := mk_session 0 []]> (_client_sessions s)) s)
  | Some session =>
      if (serial_number <=? last_serial_number session)%N then
        (session_cached (last_response session), s)
      else if (last_serial_number session ⊕ 1 <? serial_number)%N then
        (session_reject (invalid_argument
           ("Serial numbers must be sequential. Expected " +:+ pretty (last_serial_number session ⊕ 1)
            +:+ ", got " +:+ pretty serial_number)), s)
      else (session_submit, s)
  end.

(** Up to the explicit destructor call of the lock guard.  The destructor runs
    again when the guard leaves scope, unlocking a mutex the thread no longer
    owns: every path that submits has undefined behaviour after the command was
    submitted. *)
Definition submit_command_with_session (client_id serial_number : N) (command : bytes)
    (timeout : Z) : M node N :=
  let! is_leader := gets (λ s, is_leader_state (_state s)) in
  if negb is_leader then make_settled (Throw (runtime_error "Not leader")) else
  let! verdict := λ s, let '(v, s') := check_session client_id serial_number s in (Ret v, s') in
  match verdict with
  | session_reject e => make_settled (Throw e)
  | session_cached response => make_settled (Ret response)
  | session_submit =>
      do! submit_command command timeout in
      mundef "std::mutex unlocked by a thread that does not own it"
  end.

(** The continuation that caches the response of a session's command. *)
Definition cache_session_response (client_id serial_number : N) (result : bytes) s : node :=
  set_client_sessions (<[client_id := mk_session serial_number result]> (_client_sessions s)) s.

(** ** Linearizable reads *)

(** A heartbeat for the read, built under the lock. *)
Definition read_heartbeat (follower_id : N) s : append_entries_request :=
  let prev_log_index := next_index_of follower_id s ⊖ 1 in
  mk_append_req (_current_term s) (_node_id s) prev_log_index
    (default 0%N (prev_term_of prev_log_index s)) [] (_commit_index s).

Definition send_read_heartbeat (follower_id : N) s : node :=
  let s := touch_next_index follower_id s in
  send (out_read_heartbeat follower_id (read_heartbeat follower_id s)) s.

Definition required_follower_acks (followers : nat) : N := (N.of_nat followers + 1) / 2.

(** A settled future, or the term the continuation captures together with the
    number of acknowledgements it waits for. *)
Inductive read_outcome : Type :=
  | read_settled (promise : N)
  | read_waiting (current_term : N) (acks : N).

Definition read_state : M node read_outcome :=
  let! s := mget in
  if negb (is_leader_state (_state s)) then
    let! p := make_settled (Throw (leadership_lost_exception (_current_term s) (_current_term s))) in
    mreturn (read_settled p)
  else if (N.of_nat (length (_nodes (_configuration s))) =? 1)%N then
    let! p := make_settled (sm_get_state (_state_machine s)) in
    mreturn (read_settled p)
  else
    let followers := filter (λ n, n ≠ _node_id s) (_nodes (_configuration s)) in
    do! mfor followers (λ f, mmodify (send_read_heartbeat f)) in
    mreturn (read_waiting (_current_term s) (required_follower_acks (length followers))).

(** The first response with a term above [term]. *)
Definition newer_term (term : N) (responses : list append_entries_response) : option N :=
  head (omap (λ r, if (term <? aer_term r)%N then Some (aer_term r) else None) responses).

(** The continuation once enough followers answered. *)
Definition on_read_acks (current_term : N) (responses : list append_entries_response) : M node bytes :=
  let! s := mget in
  if negb (is_leader_state (_state s)) then
    mthrow (leadership_lost_exception current_term (_current_term s))
  else if negb (_current_term s =? current_term)%N then
    mthrow (leadership_lost_exception current_term (_current_term s))
  else
    match newer_term (_current_term s) responses with
    | Some t =>
        do! mmodify (become_follower t) in
        mthrow (leadership_lost_exception current_term t)
    | None => mlift (sm_get_state (_state_machine s))
    end.

End client.
