(* ===== verification/QuorumLoop.v ===== *)
(** The leader's quorum maintenance ([raft.hpp]: [run_quorum_assessment] and the
    second half of [check_heartbeat_timeout]).

    The quorum manager is the environment: the report of [assess_quorum] and
    the outcome of each [provision_node] call are arguments. *)

From S2P Require Import Prelude Types ConfigEntry Membership Persistence CommitWaiter Node Log.
From S2P Require Import Roles MembershipChange.

Inductive quorum_status : Type := healthy | degraded | critical | lost.

Record placement_group_health : Type := mk_group_health {
  gh_group_id : string;
  gh_live_count : N;
  gh_target_count : N;
  gh_unreachable_nodes : list N
}.

Record quorum_health : Type := mk_health {
  qh_status : quorum_status;
  qh_live_node_count : N;
  qh_total_node_count : N;
  qh_unreachable_nodes : list N;
  qh_groups : list placement_group_health
}.

Section quorum_loop.
Context {P SM : Type} `{!PersistenceEngine P} {MM : MembershipManager} {JL : JsonLib}.
Abbreviation node := (node P SM).
Implicit Types s : node.

(** Whether a call of [provision_node] for the group succeeds. *)
Context (provision_node : string → option N → bool).

Definition pending_provisions (group : string) s : N :=
  default 0%N (_pending_provisions s !! group).

(** The learner to promote in a group, if it has one and has voting capacity. *)
Definition promotion_candidate (group : string) s : option N :=
  if group_has_promotion_capacity group s
  then List.find (λ id, String.eqb (placement_of id s) group) (_learners (_configuration s))
  else None.

(** The promotion loop: what remains to be provisioned. *)
Fixpoint promote_loop (group : string) (remaining : nat) : M node nat :=
  match remaining with
  | O => mreturn O
  | S remaining' =>
      let! chosen := gets (promotion_candidate group) in
      match chosen with
      | None => mreturn remaining
      | Some learner => do! promote_to_voter learner in promote_loop group remaining'
      end
  end.

(** One provisioning slot, replacing an unreachable node if one is left. *)
Definition provision_slot (group : string) (replacing : option N) s : node :=
  let s := set_pending_provisions (<[group := pending_provisions group s ⊕ 1]> (_pending_provisions s)) s in
  let s := set_pending_replacing (<[group := replacing]> (_pending_replacing s)) s in
  if provision_node group replacing then s
  else if (0 <? pending_provisions group s)%N
  then set_pending_provisions (<[group := pending_provisions group s ⊖ 1]> (_pending_provisions s)) s
  else s.

Fixpoint provision_loop (group : string) (slots : nat) (unreachable : list N) s : node :=
  match slots with
  | O => s
  | S slots' =>
      match unreachable with
      | n :: rest => provision_loop group slots' rest (provision_slot group (Some n) s)
      | [] => provision_loop group slots' [] (provision_slot group None s)
      end
  end.

Definition group_deficit (topology : list placement_group_target) (gh : placement_group_health) : N :=
  let target := match List.find (λ g, String.eqb (group_id g) (gh_group_id gh)) topology with
                | Some g => target_count g
                | None => 0%N
                end in
  (target - gh_live_count gh)%N.

Definition assess_group (gh : placement_group_health) : M node () :=
  let! deficit := gets (λ s, group_deficit (_topology s) gh) in
  if (deficit =? 0)%N then mreturn tt else
  let! pending := gets (pending_provisions (gh_group_id gh)) in
  if (deficit <=? pending)%N then mreturn tt else
  let! to_provision := promote_loop (gh_group_id gh) (N.to_nat (deficit - pending)) in
  mmodify (provision_loop (gh_group_id gh) to_provision (gh_unreachable_nodes gh)).

(** [run_quorum_assessment], given the quorum manager's report. *)
Definition run_quorum_assessment (report : outcome quorum_health) : M node () :=
  let! is_leader := gets (λ s, is_leader_state (_state s)) in
  if negb is_leader then mreturn tt else
  match report with
  | Ret health =>
      do! mmodify (λ s, set_last_quorum_check (now s) s) in
      let! still_leader := gets (λ s, is_leader_state (_state s)) in
      if negb still_leader then mreturn tt else
      match qh_status health with
      | degraded | critical => mfor (qh_groups health) assess_group
      | healthy | lost => mreturn tt
      end
  | _ => mreturn tt
  end.

(** The quorum part of [check_heartbeat_timeout]. *)
Definition should_assess s : bool :=
  _quorum_check_active s &&
  (_quorum_immediate_check s ||
   (quorum_check_interval (_config s) * ns_per_ms <=? now s - _last_quorum_check s)%Z).

Definition quorum_tick (report : outcome quorum_health) : M node () :=
  let! assess := gets should_assess in
  if negb assess then mreturn tt else
  do! mmodify (set_quorum_immediate_check false) in
  run_quorum_assessment report.

End quorum_loop.
