(* ===== verification/Lifecycle.v ===== *)
(** Start, recovery and stop of a node ([raft.hpp]: [initialize_from_storage],
    [is_fresh_node], [run_bootstrap], [start], [stop], [leave_cluster],
    [check_election_timeout], [check_heartbeat_timeout]). *)

From S2P Require Import Prelude Types ConfigEntry Membership Persistence CommitWaiter ConfigSync.
From S2P Require Import Node Log Roles AppendEntries Apply Election Replication MembershipChange.
From S2P Require Import QuorumLoop.

Section lifecycle.
Context {P SM : Type} `{!PersistenceEngine P, !StateMachine SM} {MM : MembershipManager} {JL : JsonLib}.
Abbreviation node := (node P SM).
Implicit Types s : node.

(** ** Recovery *)

(** The stored snapshot, if any; a failing restore is ignored. *)
Definition restore_snapshot : M node () :=
  let! snap_opt := gets (λ s, load_snapshot (_persistence s)) in
  match snap_opt with
  | None => mreturn tt
  | Some snap =>
      do! mcatch (run_state_machine
                    (sm_restore_from_snapshot (state_machine_state snap) (last_included_index snap)))
            (λ _, mreturn tt) in
      mmodify (λ s, set_configuration (snap_configuration snap)
                      (set_commit_index (last_included_index snap)
                         (set_last_applied (last_included_index snap) s)))
  end.

(** The stored entries after the snapshot are pushed onto the log. *)
Definition reload_log s : node :=
  let first_needed := if (0 <? _last_applied s)%N then _last_applied s ⊕ 1 else 1%N in
  let last_persisted := Persistence.get_last_log_index (_persistence s) in
  if (first_needed <=? last_persisted)%N
  then set_log (_log s ++ get_log_entries first_needed last_persisted (_persistence s)) s
  else s.

Definition restore_configuration : M node () :=
  let! entry := gets (λ s, latest_configuration_entry (_log s)) in
  match entry with
  | None => mreturn tt
  | Some e =>
      let! cfg := mlift (deserialize_configuration (e_command e)) in
      mmodify (set_configuration cfg)
  end.

Definition initialize_from_storage : M node () :=
  do! mmodify (λ s, set_current_term (load_current_term (_persistence s)) s) in
  do! mmodify (λ s, set_voted_for (load_voted_for (_persistence s)) s) in
  do! restore_snapshot in
  do! mmodify reload_log in
  do! restore_configuration in
  sync_peer2peer_membership.

(** ** Start and stop *)

Definition is_fresh_node s : bool :=
  (_current_term s =? 0)%N && bool_decide (_voted_for s = None) &&
  (Persistence.get_last_log_index (_persistence s) =? 0)%N &&
  match load_snapshot (_persistence s) with None => true | Some _ => false end.

(** The answer of a peer to a join request: accepted, or a redirection, or
    unreachable. *)
Abbreviation join_answer := (outcome (bool * option N)).

(** [try_join]: the peer, then once the leader it redirects to. *)
Definition try_join (send_join : N → join_answer) (peer : N) : bool :=
  match send_join peer with
  | Ret (true, _) => true
  | Ret (false, Some redirect) =>
      match send_join redirect with Ret (true, _) => true | _ => false end
  | _ => false
  end.

(** One round of [run_bootstrap]: [true] when the loop is left, because there
    are no peers or because one admitted the node. *)
Definition bootstrap_round (send_join : N → join_answer) (peers : list N) : bool :=
  match peers with
  | [] => true
  | _ => existsb (try_join send_join) peers
  end.

(** [run_bootstrap] against successive answers of peer discovery; the result is
    the number of rounds, [None] if the discovery ends first. *)
Fixpoint run_bootstrap (send_join : N → join_answer) (discovery : list (list N)) : option nat :=
  match discovery with
  | [] => None
  | peers :: rest =>
      if bootstrap_round send_join peers then Some 1
      else S <$> run_bootstrap send_join rest
  end.

(** [start], with the bootstrap or reconnection done by the environment:
    [stopped] tells whether [stop] was called meanwhile. *)
Definition start (stopped : bool) : M node () :=
  let! running := gets _running in
  if running : bool then mreturn tt else
  do! mmodify (set_stop_requested false) in
  do! mmodify (set_stop_flag false) in
  do! initialize_from_storage in
  do! mmodify (λ s, if stopped then set_stop_requested true s else s) in
  let! stop_requested := gets _stop_requested in
  if stop_requested : bool then mreturn tt else
  do! mmodify (λ s, set_last_heartbeat (now s) s) in
  mmodify (set_running true).

Definition stop s : node :=
  let s := set_stop_flag true (set_stop_requested true s) in
  if negb (_running s) then s
  else with_waiter (cancel_all_operations "Node shutdown") (set_running false s).

(** Where [leave_cluster] sends its request: the known leader, then once the
    leader it redirects to. *)
Definition leave_cluster (send_leave : N → join_answer) s : list N :=
  match _known_leader s with
  | None => []
  | Some l =>
      match send_leave l with
      | Ret (false, Some redirect) => [l; redirect]
      | _ => [l]
      end
  end.

(** ** Timer callbacks *)

Definition check_election_timeout (pre_vote : bool) : M node (option vote_context) :=
  do! mmodify maybe_gossip_progress in
  do! mmodify maybe_catch_up_from_peer in
  election_tick pre_vote.

(** [provision] and [report] stand for the quorum manager's answers. *)
Definition check_heartbeat_timeout (provision : string → option N → bool)
    (report : outcome quorum_health) : M node () :=
  do! mmodify (λ s, with_waiter (cancel_timed_out_operations (now s)) s) in
  let! is_leader := gets (λ s, is_leader_state (_state s)) in
  if negb is_leader then mreturn tt else
  let! due := gets heartbeat_timeout_elapsed in
  do! mwhen due (mmodify (λ s, set_last_heartbeat (now s) s)) in
  do! mwhen due send_heartbeats in
  quorum_tick provision report.

End lifecycle.
