(* ===== verification/Frames.v ===== *)
(** Frame reasoning for handlers: what each building block of the node leaves
    unchanged, in a form [steps_auto] uses. *)

From S2P Require Import Prelude Types ConfigEntry Membership Persistence CommitWaiter ConfigSync.
From S2P Require Import Node Log Roles AppendEntries Apply Election Snapshot Replication.
From S2P Require Import MembershipChange Client.

Section frames.
Context {P SM : Type} (R : relation (node P SM)) `{!PreOrder R}.

Lemma steps_gets {A} (f : node P SM → A) : steps R (gets f).
Proof. intros s. reflexivity. Qed.

Lemma steps_persist {A} (m : M P A) :
  (∀ s p, R s (set_persistence p s)) → steps R (persist m).
Proof. intros H s. apply H. Qed.

Lemma steps_run_state_machine {A} (m : M SM A) :
  (∀ s x, R s (set_state_machine x s)) → steps R (run_state_machine m).
Proof. intros H s. apply H. Qed.

Lemma steps_make_promise :
  (∀ s n, R s (set_next_promise n s)) → steps R (@make_promise P SM).
Proof. intros H s. apply H. Qed.

Lemma steps_make_settled o :
  (∀ s n r, R s (set_resolved r (set_next_promise n s))) → steps R (@make_settled P SM o).
Proof. intros H s. apply H. Qed.

Lemma steps_sync :
  (∀ s o, R s (send o s)) → steps R (@sync_peer2peer_membership P SM).
Proof. intros H s. unfold sync_peer2peer_membership, mlet. destruct (cluster_members s); [apply H|done..]. Qed.
End frames.

(** Entries read from the log are entries of the log. *)
Lemma get_log_entry_elem {P SM} (s : node P SM) i e : get_log_entry i s = Some e → e ∈ _log s.
Proof.
  unfold get_log_entry. intros H. repeat case_match; try done. by eapply list_elem_of_lookup_2.
Qed.

(** [frame_auto] walks through a handler; what is left are the state updates,
    for the caller to discharge from the definition of the relation. *)
Ltac frame_step :=
  match goal with
  | |- steps _ (gets _) => refine (steps_gets _ _)
  | |- steps _ (persist _) => apply steps_persist
  | |- steps _ (run_state_machine _) => apply steps_run_state_machine
  | |- steps _ make_promise => apply steps_make_promise
  | |- steps _ (make_settled _) => apply steps_make_settled
  | |- steps _ (mmodify _) => apply steps_modify
  end.
Ltac frame_auto := repeat (steps_step || frame_step || solve [auto with steps]).

(** ** The consensus core

    The fields the safety arguments are about; sending, waiting and bookkeeping
    leave all of them alone. *)

Section core.
Context {P SM : Type} `{!PersistenceEngine P, !StateMachine SM} {MM : MembershipManager} {JL : JsonLib}.
Abbreviation node := (node P SM).
Implicit Types s : node.

Definition core s :=
  (_node_id s, _current_term s, _voted_for s, _state s, _configuration s, _boot_configuration s,
   _log s, _commit_index s, _last_applied s, _config s, _persistence s, _state_machine s).

Definition same_core s s' : Prop := core s' = core s.

#[global] Instance same_core_preorder : PreOrder same_core.
Proof. split; [done|]. intros s1 s2 s3 H1 H2. unfold same_core in *. congruence. Qed.

Lemma core_foldl {A} (f : node → A → node) l s :
  (∀ s a, core (f s a) = core s) → core (foldl f s l) = core s.
Proof. apply (foldl_view core). Qed.

Lemma core_with_waiter f s : core (with_waiter f s) = core s.
Proof. done. Qed.
Lemma core_with_synchronizer f s : core (with_synchronizer f s) = core s.
Proof. done. Qed.
Lemma core_touch_next_index target s : core (touch_next_index target s) = core s.
Proof. unfold touch_next_index. by case_match. Qed.
Lemma core_send_chunk target snap offset s : core (send_chunk target snap offset s) = core s.
Proof. unfold send_chunk. by case_match. Qed.
Lemma core_send_install_snapshot_to target s : core (send_install_snapshot_to target s) = core s.
Proof. unfold send_install_snapshot_to. repeat case_match; try done. apply core_send_chunk. Qed.
Lemma core_send_append_entries_to target s : core (send_append_entries_to target s) = core s.
Proof.
  unfold send_append_entries_to. case_match; [|done]. cbv zeta. case_match.
  - apply core_touch_next_index.
  - rewrite core_send_install_snapshot_to. apply core_touch_next_index.
Qed.
Lemma core_perform_action a s : core (perform_action a s) = core s.
Proof.
  unfold perform_action. case_match; [apply core_send_install_snapshot_to|apply core_send_append_entries_to].
Qed.
Lemma core_record_match target next_idx n s : core (record_match target next_idx n s) = core s.
Proof. done. Qed.
Lemma core_back_off target r s : core (back_off target r s) = core s.
Proof.
  unfold back_off. case_match; [done|]. cbv zeta. case_match; apply core_touch_next_index.
Qed.
Lemma core_mark_unresponsive s : core (mark_unresponsive s) = core s.
Proof. done. Qed.
Lemma core_init_peer i s p : core (init_peer i s p) = core s.
Proof. unfold init_peer. by case_match. Qed.
Lemma core_init_old_peer i s p : core (init_old_peer i s p) = core s.
Proof. unfold init_old_peer. case_match; [done|]. apply core_init_peer. Qed.
Lemma core_init_peers s : core (init_peers s) = core s.
Proof.
  unfold init_peers. cbv zeta. rewrite core_foldl by apply core_init_peer. case_match.
  - rewrite core_foldl by apply core_init_old_peer. apply core_foldl, core_init_peer.
  - apply core_foldl, core_init_peer.
Qed.
Lemma core_forget_untracked cfg s : core (forget_untracked cfg s) = core s.
Proof. unfold forget_untracked. by apply core_foldl. Qed.
Lemma core_maybe_gossip_progress s : core (maybe_gossip_progress s) = core s.
Proof. unfold maybe_gossip_progress. by case_match. Qed.
Lemma core_maybe_catch_up_from_peer s : core (maybe_catch_up_from_peer s) = core s.
Proof. unfold maybe_catch_up_from_peer. by case_match. Qed.
Lemma core_on_catch_up_source c i j src s : core (on_catch_up_source c i j src s) = core s.
Proof. unfold on_catch_up_source. by repeat case_match. Qed.
Lemma core_send_read_heartbeat f s : core (send_read_heartbeat f s) = core s.
Proof. unfold send_read_heartbeat. cbv zeta. apply core_touch_next_index. Qed.
Lemma core_send_heartbeat_with_retry target s : core (send_heartbeat_with_retry target s) = core s.
Proof.
  unfold send_heartbeat_with_retry. cbv zeta. case_match; apply core_touch_next_index.
Qed.
Lemma core_check_session c n s : core (check_session c n s).2 = core s.
Proof. unfold check_session. by repeat case_match. Qed.

End core.

Create HintDb core.
#[export] Hint Resolve core_with_waiter core_with_synchronizer core_touch_next_index core_send_chunk
  core_send_install_snapshot_to core_send_append_entries_to core_perform_action core_record_match
  core_back_off core_mark_unresponsive core_init_peers core_forget_untracked
  core_maybe_gossip_progress core_maybe_catch_up_from_peer core_on_catch_up_source
  core_send_read_heartbeat core_send_heartbeat_with_retry core_check_session : core.
