(* ===== verification/VoteProofs.v ===== *)
(** Votes: when a vote is granted, what is durable by then, what pre-votes and
    learners may not do, and how a compacted log misleads the vote. *)

From S2P Require Import Prelude Types ConfigEntry Membership Persistence CommitWaiter ConfigSync.
From S2P Require Import Node KvStateMachine Log Roles Sample AppendEntries Apply Election.
From S2P Require Import Snapshot Replication MembershipChange Client Frames.

Section votes.
Context {P SM : Type} `{!PersistenceEngine P, !PersistenceEngineOk P, !ReliableEngine P}.
Abbreviation node := (node P SM).
Implicit Types s : node.

(** The order on logs of the protocol: by the term of the last entry, then by its
    index. *)
Definition log_not_behind (last_log_index last_log_term : N) s : Prop :=
  (get_last_log_term s < last_log_term)%N ∨
  get_last_log_term s = last_log_term ∧ (get_last_log_index s ≤ last_log_index)%N.

(** The voting rule. *)
Definition grants_vote (request : request_vote_request) s : bool :=
  negb (is_learner s) && (_current_term s <=? rv_term request)%N &&
  ((_current_term s <? rv_term request)%N ||
   match _voted_for s with None => true | Some c => (c =? rv_candidate_id request)%N end) &&
  bool_decide (log_not_behind (rv_last_log_index request) (rv_last_log_term request) s).

Lemma up_to_date_not_behind i t s : bool_decide (log_not_behind i t s) = candidate_log_up_to_date i t s.
Proof.
  unfold log_not_behind, candidate_log_up_to_date. apply Bool.eq_iff_eq_true. rewrite bool_decide_eq_true.
  destruct (N.ltb_spec (get_last_log_term s) t); [split; [done|by left]|].
  destruct (N.eqb_spec t (get_last_log_term s)); [|split; [lia|done]]. rewrite N.leb_le. lia.
Qed.

(** The term is durable and the vote is durable. *)
Definition durable_vote (term candidate_id : N) (p : P) : Prop :=
  st_term (abs p) = term ∧ st_voted_for (abs p) = Some candidate_id.

Lemma grant_vote_run c s :
  reliable (_persistence s) →
  ∃ s', grant_vote c s = (Ret (mk_vote_resp (_current_term s) true), s') ∧
    _current_term s' = _current_term s ∧ _voted_for s' = Some c ∧ _state s' = _state s ∧
    reliable (_persistence s') ∧ durable_vote (_current_term s) c (_persistence s').
Proof.
  intros Hr. unfold grant_vote. rewrite let_modify.
  destruct (persist_write (set_voted_for (Some c) s) _ (write_vote c) Hr) as (p1 & E1 & W1 & Hr1).
  rewrite (let_eval _ _ _ _ _ E1), let_gets.
  set (s1 := set_persistence p1 _). change (_current_term s1) with (_current_term s).
  destruct (persist_write s1 _ (write_term (_current_term s)) Hr1) as (p2 & E2 & W2 & Hr2).
  rewrite (let_eval _ _ _ _ _ E2), let_modify. eexists. split; [reflexivity|].
  split_and!; [done..|]. unfold durable_vote. simpl.
  rewrite (save_current_term_ok _ _ _ W2). simpl. split; [done|].
  by rewrite (save_voted_for_ok _ _ _ W1).
Qed.

Lemma become_follower_fields t s :
  _current_term (become_follower t s) = t ∧ _voted_for (become_follower t s) = None ∧
  _state (become_follower t s) = follower ∧ _log (become_follower t s) = _log s ∧
  _commit_index (become_follower t s) = _commit_index s ∧
  _persistence (become_follower t s) = _persistence s ∧
  _configuration (become_follower t s) = _configuration s ∧
  _node_id (become_follower t s) = _node_id s.
Proof. unfold become_follower. by destruct (is_leader_state (_state s)). Qed.

Lemma up_to_date_follower t i lt s :
  candidate_log_up_to_date i lt (become_follower t s) = candidate_log_up_to_date i lt s.
Proof.
  destruct (become_follower_fields t s) as (_ & _ & _ & Hl & Hc & _).
  unfold candidate_log_up_to_date, get_last_log_term, get_last_log_index. by rewrite Hl, Hc.
Qed.

(** The state after rule 2 of RequestVote. *)
Definition adopt_term (term : N) s : node :=
  if (_current_term s <? term)%N then become_follower term s else s.

Lemma handle_request_vote_run request s :
  reliable (_persistence s) →
  let s1 := if is_learner s then s else adopt_term (rv_term request) s in
  if grants_vote request s
  then ∃ s', handle_request_vote request s = (Ret (mk_vote_resp (rv_term request) true), s') ∧
         _current_term s' = rv_term request ∧ _voted_for s' = Some (rv_candidate_id request) ∧
         durable_vote (rv_term request) (rv_candidate_id request) (_persistence s')
  else handle_request_vote request s = (Ret (mk_vote_resp (_current_term s1) false), s1).
Proof.
  intros Hr. unfold grants_vote, handle_request_vote, refuse_vote, adopt_term.
  rewrite up_to_date_not_behind, let_gets.
  destruct (is_learner s); [done|]. rewrite let_gets.
  destruct (N.ltb_spec (rv_term request) (_current_term s)) as [Hlt|Hge].
  { destruct (N.leb_spec (_current_term s) (rv_term request)); [lia|].
    destruct (N.ltb_spec (_current_term s) (rv_term request)); [lia|]. done. }
  destruct (N.leb_spec (_current_term s) (rv_term request)); [|lia]. cbn [negb andb].
  destruct (N.ltb_spec (_current_term s) (rv_term request)) as [Hlt|Heq]; cbn [mwhen orb].
  - rewrite let_modify. set (s1 := become_follower _ s).
    destruct (become_follower_fields (rv_term request) s) as (Ht & Hv & _ & _ & _ & Hp & _).
    fold s1 in Ht, Hv, Hp. rewrite let_gets, Hv, let_gets.
    pose proof (up_to_date_follower (rv_term request) (rv_last_log_index request)
                  (rv_last_log_term request) s) as Hup. fold s1 in Hup. rewrite !Hup. destruct (candidate_log_up_to_date _ _ s); cbn [negb]; [|by unfold gets].
    destruct (grant_vote_run (rv_candidate_id request) s1) as (s' & E & ? & ? & _ & _ & ?).
    { by rewrite Hp. }
    rewrite Ht in *. by exists s'.
  - rewrite (let_eval _ _ s tt s) by done. rewrite let_gets.
    destruct (_voted_for s) as [c|].
    + destruct (c =? rv_candidate_id request)%N; cbn [negb andb]; [|by unfold gets].
      rewrite let_gets. destruct (candidate_log_up_to_date _ _ s); cbn [negb]; [|by unfold gets].
      destruct (grant_vote_run (rv_candidate_id request) s Hr) as (s' & E & ? & ? & _ & _ & ?).
      replace (rv_term request) with (_current_term s) by lia. by exists s'.
    + cbn [andb]. rewrite let_gets. destruct (candidate_log_up_to_date _ _ s); cbn [negb]; [|by unfold gets].
      destruct (grant_vote_run (rv_candidate_id request) s Hr) as (s' & E & ? & ? & _ & _ & ?).
      replace (rv_term request) with (_current_term s) by lia. by exists s'.
Qed.
End votes.

(** Sending requests changes no field but the outbox. *)
Lemma foldl_send_view {P SM A B} (view : node P SM → A) (request : B → outgoing) l s :
  (∀ o s, view (send o s) = view s) →
  view (foldl (λ s p, send (request p) s) s l) = view s.
Proof. intros H. by apply (foldl_view view). Qed.

(** ** Results *)



(** Pre-votes are harmless: answering a pre-vote request changes nothing at
    all; asking for pre-votes (with peers to ask) and counting an unsuccessful
    poll change neither term, vote, role, log nor storage. *)
Theorem pre_vote_is_harmless {P SM : Type} `{!PersistenceEngine P}
    (request : request_vote_request) (ctx : vote_context)
    (results : list (option (N * request_vote_response))) (s : node P SM) :
  let kept s' := (_current_term s', _voted_for s', _state s', _log s', _persistence s')
                 = (_current_term s, _voted_for s, _state s, _log s, _persistence s) in
  state_of (handle_request_pre_vote request) s = s ∧
  (bool_decide (peer_ids s = []) = false → kept (state_of start_pre_vote s)) ∧
  (election_won (_node_id s) ctx results = false →
     state_of (on_pre_votes_collected ctx results) s = s).
Proof.
  cbv zeta. unfold state_of. split_and!.
  - unfold handle_request_pre_vote, refuse_vote. rewrite !let_gets.
    destruct (is_learner s); [done|]. rewrite !let_gets. destruct (leader_contact_recent s); [done|].
    rewrite !let_gets. by destruct (candidate_log_up_to_date _ _ s).
  - intros Hp. unfold start_pre_vote. rewrite let_gets. destruct (_ || _); [done|].
    rewrite let_modify, !let_gets.
    change (peer_ids (randomize_election_timeout (reset_election_timer s))) with (peer_ids s).
    rewrite Hp. rewrite (let_eval _ _ _ _ _ (mfor_modify _ _ _)). unfold gets. cbn [snd].
    by rewrite (foldl_send_view (λ s0 : node P SM,
      (_current_term s0, _voted_for s0, _state s0, _log s0, _persistence s0))).
  - intros Hw. unfold on_pre_votes_collected. rewrite let_gets. by rewrite Hw.
Qed.

Lemma pre_vote_is_harmless_witness :
  _current_term (state_of start_pre_vote (sample_node 1)) = _current_term (sample_node 1) ∧
  length (outbox (state_of start_pre_vote (sample_node 1))) = 2.
Proof.
  split; [|vm_compute; reflexivity].
  pose proof (proj1 (proj2 (pre_vote_is_harmless (mk_vote_req 1 2 0 0) (mk_vote_context 1 [] None) []
    (sample_node 1))) eq_refl) as H.
  exact (f_equal (λ v, v.1.1.1.1) H).
Defined.

(** Learners are passive: a learner refuses votes and pre-votes, adopts no
    term by them, and its election timer starts neither an election nor a poll;
    its state does not change. *)
Theorem learner_is_passive {P SM : Type} `{!PersistenceEngine P}
    (request : request_vote_request) (pre_vote : bool) (s : node P SM) :
  is_learner s = true →
  let refusal := (Ret (mk_vote_resp (_current_term s) false), s) in
  handle_request_vote request s = refusal ∧ handle_request_pre_vote request s = refusal ∧
  election_tick pre_vote s = (Ret None, s) ∧ start_pre_vote s = (Ret None, s).
Proof.
  intros Hl. unfold handle_request_vote, handle_request_pre_vote, election_tick, start_pre_vote, refuse_vote.
  rewrite !let_gets, Hl, orb_true_r. done.
Qed.

Definition sample_learner : sample_node_type :=
  set_configuration (mk_config [1; 2; 3]%N false None [4%N]) (sample_node 4).

Lemma learner_is_passive_witness :
  handle_request_vote (mk_vote_req 5 2 9 9) sample_learner
  = (Ret (mk_vote_resp 0 false), sample_learner).
Proof. exact (proj1 (learner_is_passive (mk_vote_req 5 2 9 9) true sample_learner eq_refl)). Defined.

(** The up-to-date check after a snapshot: with every entry compacted away
    [get_last_log_term] is 0, so a node with any amount of committed state
    grants its vote to any candidate of a newer term whose last entry has a
    positive term, however short the candidate's log. *)
Theorem compacted_log_votes_for_stale_candidate {P SM : Type}
    `{!PersistenceEngine P, !PersistenceEngineOk P, !ReliableEngine P}
    (request : request_vote_request) (s : node P SM) :
  reliable (_persistence s) → is_learner s = false → _log s = [] →
  (_current_term s < rv_term request)%N → (0 < rv_last_log_term request)%N →
  result_of (handle_request_vote request) s = Ret (mk_vote_resp (rv_term request) true).
Proof.
  intros Hr Hl Hlog Ht Hlt. pose proof (handle_request_vote_run request s Hr) as H. cbv zeta in H.
  assert (grants_vote request s = true) as Hg.
  { unfold grants_vote. rewrite up_to_date_not_behind.
    unfold candidate_log_up_to_date, get_last_log_term. rewrite Hl, Hlog.
    destruct (N.leb_spec (_current_term s) (rv_term request)); [|lia].
    destruct (N.ltb_spec (_current_term s) (rv_term request)); [|lia]. cbn [last].
    by destruct (N.ltb_spec 0 (rv_last_log_term request)); [|lia]. }
  rewrite Hg in H. destruct H as (s' & E & _). unfold result_of. by rewrite E.
Qed.

(** A node whose thousand entries are all in its snapshot, and a candidate with
    one entry. *)
Definition compacted_voter : sample_node_type :=
  set_commit_index 1000 (set_last_applied 1000 (set_current_term 7 (sample_node 1))).

Lemma compacted_log_votes_for_stale_candidate_witness :
  get_last_log_index compacted_voter = 1000%N ∧
  result_of (handle_request_vote (mk_vote_req 8 2 1 1)) compacted_voter = Ret (mk_vote_resp 8 true).
Proof.
  split; [reflexivity|].
  exact (compacted_log_votes_for_stale_candidate (mk_vote_req 8 2 1 1) compacted_voter
    (λ _, eq_refl) eq_refl eq_refl eq_refl eq_refl).
Defined.

(** ** Election timers *)

Section timers.
Context {P SM : Type} `{!PersistenceEngine P, !StateMachine SM} {JL : JsonLib}.
Abbreviation node := (node P SM).
Implicit Types s : node.

(** The drawn timeout lies in the configured interval. *)
Definition timer_ok s : Prop :=
  (election_timeout_min (_config s) ≤ _election_timeout s ≤ election_timeout_max (_config s))%Z.

Definition keeps_timer s s' : Prop :=
  validate (_config s) = true → timer_ok s → _config s' = _config s ∧ timer_ok s'.

#[global] Instance keeps_timer_preorder : PreOrder keeps_timer.
Proof.
  split; [by intros s|]. intros s1 s2 s3 H12 H23 Hv H.
  destruct (H12 Hv H) as [E H2]. destruct (H23) as [E3 H3]; [by rewrite E|done|].
  split; [congruence|done].
Qed.

Lemma keeps_timer_same s s' :
  _config s' = _config s → _election_timeout s' = _election_timeout s → keeps_timer s s'.
Proof. intros E1 E2 _. unfold timer_ok. rewrite E1, E2. done. Qed.

Lemma uniform_int_range lo hi draws : (lo ≤ hi)%Z → (lo ≤ uniform_int lo hi draws ≤ hi)%Z.
Proof.
  intros H. destruct draws as [|d draws]; simpl; [lia|].
  pose proof (Z.mod_pos_bound d (hi - lo + 1)). lia.
Qed.

Lemma randomize_timer_ok s :
  validate (_config s) = true → timer_ok (randomize_election_timeout s).
Proof.
  intros H. apply validate_spec in H. unfold timer_ok. simpl. apply uniform_int_range. lia.
Qed.

Lemma node_init_timer p (sm : SM) config id topology placement rng start :
  validate config = true → timer_ok (node_init p sm config id topology placement rng start).
Proof. intros H. unfold node_init. apply randomize_timer_ok. exact H. Qed.

Lemma keeps_timer_randomize s s' :
  _config s' = _config s → keeps_timer s (randomize_election_timeout s').
Proof. intros E Hv _. split; [done|]. apply randomize_timer_ok. by rewrite E. Qed.

Lemma keeps_timer_become_follower t s : keeps_timer s (become_follower t s).
Proof. apply keeps_timer_randomize. by destruct (is_leader_state (_state s)). Qed.

Ltac timer_auto :=
  frame_auto; intros;
  try (by apply keeps_timer_become_follower);
  try (by apply keeps_timer_same);
  try (apply keeps_timer_randomize; by repeat case_match).

Lemma keeps_timer_become_candidate : steps keeps_timer (@become_candidate P SM _).
Proof. unfold become_candidate. timer_auto. Qed.

Lemma init_peers_timer s : _election_timeout (init_peers s) = _election_timeout s.
Proof.
  unfold init_peers. cbv zeta.
  assert (∀ i l s0, _election_timeout (foldl (init_peer i) s0 l) = _election_timeout s0) as H.
  { intros i l s0. apply foldl_view. intros s1 p. unfold init_peer. by case_match. }
  rewrite H. case_match; [|apply H]. rewrite foldl_view; [apply H|].
  intros s1 p. unfold init_old_peer, init_peer. by repeat case_match.
Qed.

Lemma keeps_timer_become_leader : steps keeps_timer (@become_leader P SM _).
Proof.
  unfold become_leader, append_and_persist. timer_auto. apply keeps_timer_same; simpl.
  - pose proof (core_init_peers s) as H. unfold core in H. by injection H.
  - apply init_peers_timer.
Qed.
#[local] Hint Resolve keeps_timer_become_candidate keeps_timer_become_leader : steps.

Lemma keeps_timer_request_vote r : steps keeps_timer (handle_request_vote (P:=P) (SM:=SM) r).
Proof. unfold handle_request_vote, refuse_vote, grant_vote. timer_auto. Qed.

Lemma keeps_timer_start_election : steps keeps_timer (@start_election P SM _).
Proof. unfold start_election. timer_auto. Qed.
#[local] Hint Resolve keeps_timer_start_election : steps.

Lemma keeps_timer_votes_collected ctx results :
  steps keeps_timer (on_votes_collected (P:=P) (SM:=SM) ctx results).
Proof. unfold on_votes_collected. timer_auto. Qed.

Lemma keeps_timer_election_tick pre_vote : steps keeps_timer (election_tick (P:=P) (SM:=SM) pre_vote).
Proof. unfold election_tick, start_pre_vote. timer_auto. Qed.

(** What drives elections. *)
Inductive election_event : Type :=
  | ev_request_vote (request : request_vote_request)
  | ev_votes (ctx : vote_context) (results : list (option (N * request_vote_response)))
  | ev_tick (pre_vote : bool)
  | ev_step_down (term : N)
  | ev_clock (elapsed : N).

Definition election_step s (e : election_event) : node :=
  match e with
  | ev_request_vote request => state_of (handle_request_vote request) s
  | ev_votes ctx results => state_of (on_votes_collected ctx results) s
  | ev_tick pre_vote => state_of (election_tick pre_vote) s
  | ev_step_down term => become_follower term s
  | ev_clock elapsed => set_now (now s + Z.of_N elapsed) s
  end.

Lemma keeps_timer_step s e : keeps_timer s (election_step s e).
Proof.
  destruct e; simpl; unfold state_of.
  - apply keeps_timer_request_vote.
  - apply keeps_timer_votes_collected.
  - apply keeps_timer_election_tick.
  - apply keeps_timer_become_follower.
  - by apply keeps_timer_same.
Qed.

Lemma keeps_timer_run s events : keeps_timer s (foldl election_step s events).
Proof.
  revert s. induction events as [|e events IH]; intros s; simpl; [reflexivity|].
  etrans; [apply keeps_timer_step|apply IH].
Qed.

(** Election timeouts stay in their interval: a node built with a validated
    configuration has, after any sequence of votes, ticks, elections and
    step-downs and for any random draws, a timeout between the configured
    bounds; and whenever its timer fires, at least three heartbeat intervals
    have passed since the last sign of a leader. *)
Theorem election_timeout_bounded p (sm : SM) config id topology placement rng start events :
  validate config = true →
  let s := foldl election_step (node_init p sm config id topology placement rng start) events in
  (election_timeout_min config ≤ _election_timeout s ≤ election_timeout_max config)%Z ∧
  (election_timeout_elapsed s = true →
   3 * heartbeat_interval config ≤ elapsed_ms (now s) (_last_heartbeat s))%Z.
Proof.
  intros Hv s. pose proof (node_init_timer p sm config id topology placement rng start Hv) as H0.
  pose proof (keeps_timer_run (node_init p sm config id topology placement rng start) events) as H.
  fold s in H. clearbody s. unfold keeps_timer in H.
  destruct (H Hv H0) as [E Hok]. unfold timer_ok in Hok. rewrite E in Hok. split; [exact Hok|].
  unfold election_timeout_elapsed. intros Ht%Z.leb_le. apply validate_spec in Hv.
  cbn in Hok. lia.
Qed.
End timers.

Lemma election_timeout_bounded_witness :
  let s := foldl election_step
    (node_init memory_persistence_engine.initial kv_initial default_raft_configuration 1 [] ∅ [7]%Z 0)
    [ev_clock 400000000; ev_tick false; ev_step_down 4] in
  (150 ≤ _election_timeout s ≤ 300)%Z.
Proof.
  exact (proj1 (election_timeout_bounded memory_persistence_engine.initial kv_initial
    default_raft_configuration 1 [] ∅ [7]%Z 0
    [ev_clock 400000000; ev_tick false; ev_step_down 4] eq_refl)).
Defined.
