(* ===== verification/LogProofs.v ===== *)
(** Replication of the log: the results on [append_entries_with_consistency_check]
    and on the exchange between a leader and a follower; and what goes wrong on
    a compacted log. *)

From S2P Require Import Prelude Types ConfigEntry Membership Persistence CommitWaiter ConfigSync.
From S2P Require Import Node KvStateMachine Log Roles Sample AppendEntries Apply Snapshot.
From S2P Require Import Replication.

Section log_proofs.
Context {P SM : Type} `{!PersistenceEngine P, !PersistenceEngineOk P, !ReliableEngine P, !StateMachine SM}
  {JL : JsonLib}.
Abbreviation node := (node P SM).
Implicit Types s : node.

(** The invariant of the log of a node whose entries up to [base] are in a
    snapshot: contiguous in memory, the same on storage, with configuration
    entries that can be decoded. *)
Definition log_ok_at (base : N) s : Prop :=
  log_wf base s ∧ reliable (_persistence s) ∧ persisted base (_persistence s) (_log s) ∧
  decodable (_log s) ∧ config_ok (_boot_configuration s).

(** The invariant on a log that was not compacted. *)
Definition log_ok s : Prop := log_ok_at 0 s.

(** Entries a leader may send after [prev]. *)
Definition entries_ok (prev : N) (entries : list log_entry) : Prop :=
  contiguous prev entries ∧ is_u64 (prev + N.of_nat (length entries) + 1) ∧ decodable entries.

(** The entry before the new ones matches. *)
Definition prev_matches_at (base prev prev_term : N) (l : list log_entry) : Prop :=
  prev = 0%N ∨ ∃ e, entry_at base l prev = Some e ∧ e_term e = prev_term.
Definition prev_matches : N → N → list log_entry → Prop := prev_matches_at 0.

(** What rules 4 and 5 can merge: on a log that was not compacted everything,
    except that the first entry of the log is not replaced once something is
    committed; on any log the entries that contradict none of it. *)
Definition mergeable (base prev : N) (entries : list log_entry) s : Prop :=
  (base = 0%N ∧ first_safe prev entries s) ∨ no_conflict base prev entries (_log s).

Lemma consistency_failure_iff base prev prev_term s :
  log_wf base s → consistency_failure prev prev_term s = None ↔ prev_matches_at base prev prev_term (_log s).
Proof.
  intros Hwf. unfold consistency_failure, prev_matches_at.
  destruct (N.ltb_spec 0 prev); [|split; [left; lia|done]].
  rewrite (get_last_log_index_wf base s Hwf), (get_log_entry_wf base s _ Hwf).
  destruct (N.ltb_spec (base + N.of_nat (length (_log s))) prev).
  - split; [done|]. intros [?|(e & [_ He]%entry_at_Some & _)]; [lia|].
    apply lookup_lt_Some in He. lia.
  - destruct (entry_at base (_log s) prev) as [e|].
    + destruct (N.eqb_spec (e_term e) prev_term); naive_solver lia.
    + naive_solver lia.
Qed.

Lemma consistency_failure_rejects prev prev_term s r :
  consistency_failure prev prev_term s = Some r →
  aer_success r = false ∧ append_entries_with_consistency_check prev prev_term [] s = (Ret r, s).
Proof.
  intros E. split.
  - unfold consistency_failure in E. repeat (case_match; simplify_eq; try done).
  - unfold append_entries_with_consistency_check. by rewrite let_gets, E.
Qed.

Lemma append_entries_run prev prev_term entries s :
  log_ok s → entries_ok prev entries → first_safe prev entries s →
  prev_matches prev prev_term (_log s) →
  let l' := merged prev entries (_log s) in
  ∃ s', append_entries_with_consistency_check prev prev_term entries s =
          (Ret (mk_append_resp (_current_term s) true None None), s') ∧
    log_ok s' ∧ _log s' = l' ∧
    _configuration s' = (if bool_decide (l' = _log s) then _configuration s
                         else log_configuration (_boot_configuration s) l').
Proof.
  intros (Hwf & Hr & Hp & Hd & Hb) (Hc & Hu & Hd') Hs Hm. apply consistency_failure_iff in Hm; [|done].
  destruct (append_entries_merge prev prev_term entries s) as (p' & ob & E & Hr' & Hp' & Hwf'); try done.
  assert (decodable (merged prev entries (_log s))).
  { apply decodable_merged; [|done..]. by apply (consistency_ok_prefix prev prev_term). }
  eexists. split; [exact E|]. unfold log_ok, log_ok_at. split_and!; done.
Qed.

Lemma append_entries_run_at base prev prev_term entries s :
  log_ok_at base s → entries_ok prev entries → mergeable base prev entries s →
  prev_matches_at base prev prev_term (_log s) →
  let l' := merged_at base prev entries (_log s) in
  ∃ s', append_entries_with_consistency_check prev prev_term entries s =
          (Ret (mk_append_resp (_current_term s) true None None), s') ∧
    log_ok_at base s' ∧ _log s' = l' ∧
    _configuration s' = (if bool_decide (l' = _log s) then _configuration s
                         else log_configuration (_boot_configuration s) l').
Proof.
  intros Hok He [[-> Hs]|Hn] Hm l'.
  { unfold l'. rewrite merged_at_0. by apply append_entries_run. }
  destruct Hok as (Hwf & Hr & Hp & Hd & Hb), He as (Hc & Hu & Hd').
  assert (prev <= base + N.of_nat (length (_log s)))%N as Hle.
  { destruct Hm as [->|(e & [_ H]%entry_at_Some & _)]; [lia|]. apply lookup_lt_Some in H. lia. }
  apply consistency_failure_iff in Hm; [|done].
  destruct (append_entries_compacted base prev prev_term entries s)
    as (p' & ob & E & Hr' & Hp' & Hwf'); try done.
  eexists. split; [exact E|]. unfold log_ok_at. split_and!; try done. by apply decodable_merged_at.
Qed.

(** ** Rejections *)

Definition has_term (j t : N) s : Prop := ∃ e, get_log_entry j s = Some e ∧ e_term e = t.

(** The backward search finds the first index of the run of entries of the
    conflicting term that ends at [n]. *)
Lemma find_conflict_index_spec n t s :
  0 < n → has_term (N.of_nat n) t s →
  let i := find_conflict_index n t (N.of_nat n) s in
  (1 <= i <= N.of_nat n)%N ∧ (∀ j, (i <= j <= N.of_nat n)%N → has_term j t s) ∧
  (i = 1%N ∨ ¬ has_term (i - 1) t s).
Proof.
  intros Hn Ht.
  assert (∀ m ci, m ≤ n → (∀ j, (N.of_nat m < j <= N.of_nat n)%N → has_term j t s) →
    (m = 0 → ci = 1%N) →
    let i := find_conflict_index m t ci s in
    (1 <= i <= N.of_nat n)%N ∧ (∀ j, (i <= j <= N.of_nat n)%N → has_term j t s) ∧
    (i = 1%N ∨ ¬ has_term (i - 1) t s)) as Hgen.
  { induction m as [|m IH]; intros ci Hm Hall Hci.
    { simpl. rewrite Hci by done. split_and!; [lia|lia| |by left]. intros j Hj. apply Hall. lia. }
    assert (∀ e, get_log_entry (N.of_nat (S m)) s = Some e → e_term e ≠ t → S m < n) as Hlt1.
    { intros e He Hne. destruct (decide (S m = n)) as [<-|]; [|lia].
      destruct Ht as (e' & He' & <-). congruence. }
    cbv zeta. cbn [find_conflict_index].
    destruct (get_log_entry (N.of_nat (S m)) s) as [e|] eqn:Ee.
    - destruct (N.eqb_spec (e_term e) t) as [Et|Et]; cbn [negb].
      + apply IH; [lia| |intros ->; done]. intros j Hj.
        destruct (decide (j = N.of_nat (S m))) as [->|]; [by exists e|]. apply Hall. lia.
      + specialize (Hlt1 e eq_refl Et). split_and!; [lia|lia|intros; apply Hall; lia|right].
        replace (N.of_nat (S m) + 1 - 1)%N with (N.of_nat (S m)) by lia.
        intros (e' & He' & ?). congruence.
    - assert (S m < n).
      { destruct (decide (S m = n)) as [<-|]; [|lia]. destruct Ht as (e' & He' & _). congruence. }
      split_and!; [lia|lia|intros; apply Hall; lia|right].
      replace (N.of_nat (S m) + 1 - 1)%N with (N.of_nat (S m)) by lia.
      intros (e' & He' & ?). congruence. }
  apply Hgen; [done| |lia]. intros j Hj. lia.
Qed.

(** A rejection names an index to back off to, below the one that failed; with
    a conflicting term it is the start of that term's run of entries. *)
Lemma consistency_failure_conflict base prev prev_term s r :
  log_wf base s → consistency_failure prev prev_term s = Some r →
  ∃ i, aer_conflict_index r = Some i ∧ (1 <= i <= prev)%N ∧
    (∀ t, aer_conflict_term r = Some t → get_log_entry prev s ≠ None →
       t ≠ prev_term ∧ (∀ j, (i <= j <= prev)%N → has_term j t s) ∧
       (i = 1%N ∨ ¬ has_term (i - 1) t s)).
Proof.
  intros Hwf. unfold consistency_failure. destruct (N.ltb_spec 0 prev); [|done].
  destruct (N.ltb_spec (get_last_log_index s) prev) as [Hlt|].
  { intros [= <-]. simpl. eexists. split; [done|]. split; [|done].
    rewrite (get_last_log_index_wf base s Hwf) in *. destruct Hwf as (_ & _ & Hu).
    rewrite u64_add_small by (unfold is_u64 in *; lia). lia. }
  destruct (get_log_entry prev s) as [e|] eqn:Ee.
  - destruct (N.eqb_spec (e_term e) prev_term); [done|]. intros [= <-]. simpl.
    destruct (find_conflict_index_spec (N.to_nat prev) (e_term e) s) as (Hb & Hrun & Hstart); [lia| |].
    { rewrite N2Nat.id. by exists e. }
    rewrite N2Nat.id in *. eexists. split; [done|]. split; [done|]. intros t [= <-] _. done.
  - intros [= <-]. simpl. eexists. split; [done|]. split; [lia|done].
Qed.

(** ** Requests *)

(** The loops that collect entries return a slice of the log. *)
Lemma collect_entries_slice base a b k s :
  log_wf base s → (base < a)%N → (b <= base + N.of_nat (length (_log s)))%N →
  collect_entries (nrange a b) k s = take k (entries_between base (_log s) (a - 1) b).
Proof.
  intros Hwf. remember (N.to_nat (b + 1 - a)) as n eqn:En. revert a k En.
  induction n as [|n IH]; intros a k En Ha Hb.
  { rewrite nrange_nil by lia. unfold entries_between. replace (N.to_nat (b - (a - 1))) with 0 by lia.
    rewrite take_0. by destruct k. }
  destruct (lookup_lt_is_Some_2 (_log s) (N.to_nat (a - base - 1))) as [e He]; [lia|].
  assert (entry_at base (_log s) a = Some e) as Hat by (apply entry_at_Some; split; [lia|done]).
  rewrite nrange_cons by lia. destruct k as [|k]; [done|]. cbn [collect_entries].
  rewrite (get_log_entry_wf base s a Hwf), Hat.
  rewrite (entries_between_cons base _ _ _ e) by first [lia | by replace (a - 1 + 1)%N with a by lia].
  rewrite IH by lia. simpl. by replace (a + 1 - 1)%N with (a - 1 + 1)%N by lia.
Qed.

Lemma append_request_entries base next t s :
  log_wf base s → (base < next)%N →
  ae_entries (append_request next t s) =
    take (N.to_nat (max_entries_per_append (_config s))) (drop (N.to_nat (next - base - 1)) (_log s)).
Proof.
  intros Hwf Hn. unfold append_request. cbn [ae_entries].
  rewrite (get_last_log_index_wf base s Hwf), (collect_entries_slice base) by (done || lia).
  unfold entries_between. f_equal. replace (N.to_nat (next - 1 - base)) with (N.to_nat (next - base - 1)) by lia.
  apply take_ge. rewrite length_drop. lia.
Qed.

(** ** A round of replication *)

Lemma decodable_sub l l' : (∀ e, e ∈ l' → e ∈ l) → decodable l → decodable l'.
Proof. intros H Hd e He. by apply Hd, H. Qed.

(** Slices of a leader's log may be sent. *)
Lemma entries_ok_slice p n (sl : node) :
  log_wf 0 sl → decodable (_log sl) → p ≤ length (_log sl) →
  entries_ok (N.of_nat p) (take n (drop p (_log sl))).
Proof.
  intros (Hc & _ & Hu) Hd Hp. unfold entries_ok, is_u64 in *. split_and!.
  - apply contiguous_take. by apply (contiguous_drop 0).
  - rewrite length_take, length_drop. lia.
  - eapply decodable_sub; [|exact Hd]. intros e He. rewrite <-(take_drop p (_log sl)).
    apply elem_of_app. right. rewrite <-(take_drop n (drop p (_log sl))). apply elem_of_app. by left.
Qed.

Lemma append_entries_success prev prev_term entries s r s' :
  log_wf 0 s → append_entries_with_consistency_check prev prev_term entries s = (Ret r, s') →
  aer_success r = true → prev_matches prev prev_term (_log s).
Proof.
  intros Hwf E Hs. unfold prev_matches. apply consistency_failure_iff; [done|].
  destruct (consistency_failure prev prev_term s) as [r'|] eqn:Ef; [|done].
  apply consistency_failure_rejects in Ef as Hr. destruct Hr as [Hr _].
  unfold append_entries_with_consistency_check in E. rewrite let_gets, Ef in E.
  injection E as -> _. congruence.
Qed.

(** A slice of the leader's log, accepted by a follower whose log matches the
    leader's, makes the logs agree through the last entry sent. *)
Lemma accepted_slice_agrees p n prev_term (sl sf : node) r sf' :
  let entries := take n (drop p (_log sl)) in
  log_wf 0 sl → decodable (_log sl) → p ≤ length (_log sl) →
  (∀ k, p = S k → e_term <$> _log sl !! k = Some prev_term) →
  log_ok sf → log_matching (_log sl) (_log sf) → commit_safe (N.of_nat p) entries sf →
  append_entries_with_consistency_check (N.of_nat p) prev_term entries sf = (Ret r, sf') →
  aer_success r = true →
  log_ok sf' ∧ take (p + length entries) (_log sf') = take (p + length entries) (_log sl) ∧
  ∀ l2, log_matching (_log sl) l2 → log_matching (_log sf) l2 → log_matching (_log sf') l2.
Proof.
  intros entries Hwl Hdl Hp Hterm Hf Hmatch Hsafe E Hs.
  pose proof (append_entries_success _ _ _ _ _ _ (proj1 Hf) E Hs) as Hprev.
  destruct (append_entries_run (N.of_nat p) prev_term entries sf) as (s1 & E1 & Hok & Hlog & _);
    [done|by apply entries_ok_slice|by apply commit_safe_first|done|].
  rewrite E in E1. injection E1 as -> ->.
  assert (p ≤ length (_log sf)) as Hpf.
  { destruct Hprev as [?|(e & [_ He]%entry_at_Some & _)]; [lia|]. apply lookup_lt_Some in He. lia. }
  assert (∀ k, p = S k → e_term <$> _log sl !! k = e_term <$> _log sf !! k) as Ht.
  { intros k ->. rewrite (Hterm k eq_refl).
    destruct Hprev as [?|(e & [_ He]%entry_at_Some & <-)]; [lia|].
    by replace (N.to_nat (N.of_nat (S k) - 0 - 1)) with k in He by lia; rewrite He. }
  split; [done|]. rewrite Hlog. split; [by apply merged_agrees|].
  intros l2. by apply merged_matching.
Qed.

Lemma prev_term_of_leader base next (sl : node) :
  log_wf base sl → base = 0%N → (1 <= next <= N.of_nat (length (_log sl)) + 1)%N →
  ∃ t, prev_term_of (next ⊖ 1) sl = Some t ∧
       ∀ k, N.to_nat (next - 1) = S k → e_term <$> _log sl !! k = Some t.
Proof.
  intros Hwf -> Hn. pose proof Hwf as (_ & _ & Hu). unfold is_u64 in Hu.
  rewrite u64_sub_small by (unfold is_u64; lia). unfold prev_term_of.
  destruct (N.ltb_spec 0 (next - 1)) as [Hlt|]; [|exists 0%N; split; [done|lia]].
  rewrite (get_log_entry_wf 0 sl _ Hwf).
  destruct (lookup_lt_is_Some_2 (_log sl) (N.to_nat (next - 1 - 0 - 1))) as [e He]; [lia|].
  rewrite (proj2 (entry_at_Some 0 (_log sl) (next - 1) e)) by (split; [lia|done]).
  exists (e_term e). split; [done|]. intros k Hk.
  replace (N.to_nat (next - 1 - 0 - 1)) with k in He by lia. by rewrite He.
Qed.
End log_proofs.

(** ** Results *)


Lemma sample_node_log_ok id : log_ok (sample_node id).
Proof.
  split; [|split; [done|split; [|split; [|done]]]].
  - split; [apply contiguous_nil|split; [done|reflexivity]].
  - intros i. simpl. unfold entry_at. by destruct (i <=? 0)%N.
  - intros e []%elem_of_nil.
Qed.

Lemma plain_entries_ok prev l :
  contiguous prev l → is_u64 (prev + N.of_nat (length l) + 1) →
  forallb (λ e, negb (is_configuration_entry e)) l = true → entries_ok prev l.
Proof.
  intros Hc Hu Hf. split_and!; [done|done|]. intros e He. rewrite forallb_forall in Hf.
  apply list_elem_of_In in He. specialize (Hf e He). by destruct (is_configuration_entry e).
Qed.

Lemma commit_safe_uncommitted {P SM} prev entries (s : node P SM) :
  _commit_index s = 0%N → commit_safe prev entries s.
Proof. intros H k o e _ _. lia. Qed.

(** A node whose first entry is in a snapshot, and a request that reaches back
    to it. *)
Definition compacted_node : sample_node_type :=
  state_of (append_and_persist (put_entry 1 2 [x61] [x02])) (set_commit_index 1 (sample_node 2)).

Lemma compacted_node_ok : log_ok_at 1 compacted_node.
Proof.
  split; [|split; [done|split; [|split; [|done]]]].
  - split; [intros [|k] e [= <-]; reflexivity|split; [done|reflexivity]].
  - destruct (append_and_persist_spec 1 (put_entry 1 2 [x61] [x02]) (set_commit_index 1 (sample_node 2)))
      as (p' & E & _ & Hp & _); [..|unfold compacted_node, state_of; by rewrite E];
      [|reflexivity|reflexivity|done|].
    + split; [apply contiguous_nil|split; [done|reflexivity]].
    + intros i. simpl. unfold entry_at. by destruct (i <=? 1)%N.
  - intros e He. assert (e = put_entry 1 2 [x61] [x02]) as -> by (by apply list_elem_of_singleton in He). done.
Qed.


(** C3. A round of replication keeps Log Matching and makes [_match_index]
    truthful.  Let neither log be compacted, both be contiguous with decodable
    configuration entries, the follower's log be the same on a storage that
    takes every write, the two logs match each other (entries of equal index
    and term have equal prefixes), and the entries sent contradict no entry the
    follower has committed.  Then the request a leader builds for a follower's
    next index, accepted by the follower, leaves the follower's log equal to the
    leader's through the index the leader then records in [_match_index]; every
    log that matched both logs still matches the follower's, and the invariant
    of the follower's log holds. *)
Theorem replication_round_agrees {P SM : Type}
    `{!PersistenceEngine P, !PersistenceEngineOk P, !ReliableEngine P} {JL : JsonLib}
    (next target : N) (sl sf sf' : node P SM) (r : append_entries_response) :
  log_wf 0 sl → decodable (_log sl) → (1 <= next <= N.of_nat (length (_log sl)) + 1)%N →
  log_ok sf → log_matching (_log sl) (_log sf) →
  let request := append_request next (default 0%N (prev_term_of (next ⊖ 1) sl)) sl in
  commit_safe (ae_prev_log_index request) (ae_entries request) sf →
  append_entries_with_consistency_check (ae_prev_log_index request) (ae_prev_log_term request)
    (ae_entries request) sf = (Ret r, sf') →
  aer_success r = true →
  ∃ m, _match_index (record_match target next (length (ae_entries request)) sl) !! target = Some m ∧
    (m <= N.of_nat (length (_log sl)))%N ∧
    take (N.to_nat m) (_log sf') = take (N.to_nat m) (_log sl) ∧
    log_ok sf' ∧
    ∀ l2, log_matching (_log sl) l2 → log_matching (_log sf) l2 → log_matching (_log sf') l2.
Proof.
  intros Hwl Hdl Hn Hf Hmatch request Hsafe E Hs. pose proof Hwl as (_ & _ & Hu). unfold is_u64 in Hu.
  destruct (prev_term_of_leader 0 next sl Hwl eq_refl Hn) as (t & Et & Hterm).
  set (p := N.to_nat (next - 1)).
  assert (ae_entries request = take (N.to_nat (max_entries_per_append (_config sl))) (drop p (_log sl))) as Ee.
  { unfold request. rewrite (append_request_entries 0) by (done || lia). unfold p. do 2 f_equal. lia. }
  assert (ae_prev_log_index request = N.of_nat p) as Ep.
  { unfold request, append_request, p. simpl. rewrite u64_sub_small by (unfold is_u64; lia). lia. }
  assert (ae_prev_log_term request = t) as Ept by (unfold request; by rewrite Et).
  rewrite Ee, Ep, Ept in *.
  destruct (accepted_slice_agrees p (N.to_nat (max_entries_per_append (_config sl))) t sl sf r sf')
    as (Hok & Hagree & Hmat); try done; [unfold p; lia|].
  set (k := length (take _ (drop p _))) in *.
  assert (p + k ≤ length (_log sl)) as Hk by (unfold k; rewrite length_take, length_drop; unfold p; lia).
  exists (N.of_nat (p + k)). split_and!; [|lia| |done|done].
  - unfold record_match, put_match_index. simpl. rewrite lookup_insert_eq. f_equal.
    rewrite u64_add_small, u64_sub_small by (unfold is_u64, p in *; lia). unfold p. lia.
  - by rewrite Nat2N.id.
Qed.

(** A leader of term 2 and a follower left with an entry of term 1 that the
    leader does not have. *)
Definition round_leader : sample_node_type :=
  set_log [put_entry 1 1 [x61] [x01]; mk_entry 2 2 [] no_op; put_entry 2 3 [x61] [x02]]
    (set_current_term 2 (set_state leader (sample_node 1))).
Definition stale_entries : list log_entry := [put_entry 1 1 [x61] [x01]; put_entry 1 2 [x61] [x07]].
Definition round_follower : sample_node_type :=
  state_of (append_entries_with_consistency_check 0 0 stale_entries) (sample_node 2).

Lemma round_follower_ok : log_ok round_follower ∧ _log round_follower = stale_entries.
Proof.
  destruct (append_entries_run 0 0 stale_entries (sample_node 2)) as (s' & E & Hok & Hl & _).
  - apply sample_node_log_ok.
  - apply plain_entries_ok; [|reflexivity|reflexivity]. intros [|[|k]] e [= <-]; reflexivity.
  - by apply commit_safe_first, commit_safe_uncommitted.
  - by left.
  - unfold round_follower, state_of. rewrite E. split; [done|]. exact Hl.
Qed.

Lemma round_leader_ok : log_wf 0 round_leader ∧ decodable (_log round_leader).
Proof.
  split; [split; [intros [|[|[|k]]] e [= <-]; reflexivity|split; [done|reflexivity]]|].
  apply plain_entries_ok with (prev := 0%N); [|reflexivity..].
  intros [|[|[|k]]] e [= <-]; reflexivity.
Qed.

Lemma round_logs_match : log_matching (_log round_leader) (_log round_follower).
Proof.
  rewrite (proj2 round_follower_ok). intros [|[|[|k]]] e1 e2 H1 H2 Ht; simpl in *; simplify_eq; done.
Qed.

Lemma replication_round_agrees_witness :
  let request := append_request 2 1 round_leader in
  take 3 (_log (state_of (append_entries_with_consistency_check 1 1 (ae_entries request)) round_follower))
  = _log round_leader.
Proof.
  destruct (replication_round_agrees 2 2 round_leader round_follower
    (append_entries_with_consistency_check 1 1 (ae_entries (append_request 2 1 round_leader)) round_follower).2
    (mk_append_resp 0 true None None) (proj1 round_leader_ok) (proj2 round_leader_ok)
    ltac:(split; vm_compute; done) (proj1 round_follower_ok) round_logs_match
    (commit_safe_uncommitted _ _ round_follower eq_refl) ltac:(vm_compute; reflexivity) eq_refl)
    as (m & Hm & _ & Hagree & _).
  assert (m = 3%N) as -> by (revert Hm; vm_compute; congruence).
  exact Hagree.
Defined.

Lemma append_entries_rejected {P SM : Type} `{!PersistenceEngine P} {JL : JsonLib}
    prev prev_term entries (s s' : node P SM) r :
  append_entries_with_consistency_check prev prev_term entries s = (Ret r, s') →
  aer_success r = false → consistency_failure prev prev_term s = Some r ∧ s' = s.
Proof.
  unfold append_entries_with_consistency_check. rewrite let_gets.
  destruct (consistency_failure prev prev_term s); [by intros [= -> ->]|]. unfold mlet.
  destruct (truncate_conflict _ _ s) as [[b| |] s1]; [|done|done].
  destruct (append_new _ _ _ s1) as [[b'| |] s2]; [|done|done].
  destruct (mwhen _ _ s2) as [[[]| |] s3]; [|done|done]. by intros [= <- _].
Qed.

(** Back-off terminates: a follower that rejects the request for [next]
    leaves its state alone and answers with an index the leader then takes as
    the follower's next index, at least 1 and strictly smaller than [next], so
    a leader reaches a matching entry after finitely many rejections; when the
    reason is a conflicting term, the index is the first of the follower's run
    of entries of that term. *)
Theorem rejection_backs_off {P SM : Type} `{!PersistenceEngine P} {JL : JsonLib}
    (base next prev_term target : N) (entries : list log_entry)
    (sl sf sf' : node P SM) (r : append_entries_response) :
  log_wf base sf → (1 <= next)%N → is_u64 next →
  append_entries_with_consistency_check (next ⊖ 1) prev_term entries sf = (Ret r, sf') →
  aer_success r = false →
  let next' := next_index_of target (back_off target r sl) in
  sf' = sf ∧ (1 <= next' < next)%N ∧
  (∀ t, aer_conflict_term r = Some t → get_log_entry (next - 1) sf ≠ None →
     t ≠ prev_term ∧ (∀ j, (next' <= j < next)%N → has_term j t sf) ∧
     (next' = 1%N ∨ ¬ has_term (next' - 1) t sf)).
Proof.
  intros Hwf Hn Hu E Hs. apply append_entries_rejected in E as [Ef ->]; [|done].
  rewrite u64_sub_small in Ef by (unfold is_u64 in *; lia).
  destruct (consistency_failure_conflict base _ _ _ _ Hwf Ef) as (i & Hi & Hb & Hrun).
  assert (next_index_of target (back_off target r sl) = i) as Hnext.
  { unfold back_off, next_index_of. rewrite Hi. simpl. by rewrite lookup_insert_eq. }
  cbv zeta. rewrite Hnext. split; [done|]. split; [lia|]. intros t Ht Hsome.
  destruct (Hrun t Ht Hsome) as (? & Hall & ?). split_and!; [done| |done].
  intros j Hj. apply Hall. lia.
Qed.

Lemma rejection_backs_off_witness :
  next_index_of 2 (back_off 2 (mk_append_resp 0 false (Some 1%N) (Some 1%N)) round_leader) = 1%N ∧
  (1 <= next_index_of 2 (back_off 2 (mk_append_resp 0 false (Some 1%N) (Some 1%N)) round_leader) < 3)%N.
Proof.
  split; [reflexivity|].
  exact (proj1 (proj2 (rejection_backs_off 0 3 2 2 [] round_leader round_follower
    round_follower (mk_append_resp 0 false (Some 1%N) (Some 1%N)) (proj1 (proj1 round_follower_ok))
    ltac:(done) eq_refl ltac:(vm_compute; reflexivity) eq_refl))).
Defined.

(** Rule 4 on a compacted log: the truncation counts positions from index
    1, although the log starts after [base].  A conflicting entry then
    survives: either the erase starts beyond the log's end (undefined
    behaviour), or it keeps the conflicting entry in the log. *)
Theorem conflict_survives_on_compacted_log {P SM : Type} `{!PersistenceEngine P}
    (base i : N) (e new : log_entry) (rest : list log_entry) (s : node P SM) :
  log_wf base s → (0 < base)%N → entry_at base (_log s) i = Some e → e_term e ≠ e_term new →
  let run := truncate_conflict i (new :: rest) s in
  (∃ w, run.1 = Undef w) ∨ entry_at base (_log run.2) i = Some e.
Proof.
  intros Hwf Hb He Ht. pose proof He as [Hlt Hl]%entry_at_Some. apply lookup_lt_Some in Hl as Hlen.
  pose proof Hwf as (_ & _ & Hu). unfold is_u64 in Hu. cbv zeta. cbn [truncate_conflict].
  rewrite let_gets, (get_last_log_index_wf base s Hwf), (get_log_entry_wf base s i Hwf), He.
  destruct (N.leb_spec i (base + N.of_nat (length (_log s)))); [|lia].
  destruct (N.eqb_spec (e_term e) (e_term new)); [done|]. cbn [negb].
  rewrite u64_sub_small by (unfold is_u64; lia). unfold mlet, erase_from.
  destruct (N.ltb_spec (N.of_nat (length (_log s))) (i - 1)); [left; by eexists|right].
  assert (entry_at base (take (N.to_nat (i - 1)) (_log s)) i = Some e) as Hkeep.
  { apply entry_at_Some. split; [done|]. rewrite lookup_take_lt by lia. done. }
  unfold persist. destruct (truncate_log i _) as [[[]| |] p']; exact Hkeep.
Qed.

(** Entries 6 and 7 after a snapshot at 5; a leader replaces entry 6. *)
Definition compacted_follower : sample_node_type :=
  set_commit_index 5 (set_log [put_entry 1 6 [x61] [x01]; put_entry 1 7 [x61] [x02];
    put_entry 1 8 [x61] [x03]; put_entry 1 9 [x61] [x04]; put_entry 1 10 [x61] [x05]] (sample_node 2)).

Lemma conflict_survives_on_compacted_log_witness :
  entry_at 5 (_log (truncate_conflict 6 [put_entry 2 6 [x61] [x09]] compacted_follower).2) 6
    = Some (put_entry 1 6 [x61] [x01]).
Proof.
  destruct (conflict_survives_on_compacted_log 5 6 (put_entry 1 6 [x61] [x01])
    (put_entry 2 6 [x61] [x09]) [] compacted_follower) as [[w Hw]|H].
  - split; [intros [|[|[|[|[|k]]]]] e [= <-]; reflexivity|split; [done|reflexivity]].
  - reflexivity.
  - reflexivity.
  - done.
  - exfalso. revert Hw. vm_compute. discriminate.
  - exact H.
Defined.
