(* ===== verification/CatchUp.v ===== *)
(** Catching up: a leader's requests to one follower, round after round, each with the
    next index that the answer to the one before it left, bring the follower's log to
    the leader's. *)

From S2P Require Import Prelude Types ConfigEntry Membership Persistence CommitWaiter ConfigSync.
From S2P Require Import Node KvStateMachine Log Roles Sample AppendEntries Apply Snapshot.
From S2P Require Import Replication LogProofs.

Lemma log_matching_sym l1 l2 : log_matching l1 l2 → log_matching l2 l1.
Proof. intros H k e1 e2 H1 H2 Ht. symmetry. by apply (H k e2 e1). Qed.

Lemma log_matching_refl l : log_matching l l.
Proof. by intros k e1 e2 H1 H2 _. Qed.

Lemma merge_entries_length_le old new : length (merge_entries old new) ≤ Nat.max (length old) (length new).
Proof.
  revert new. induction old as [|x l IH]; intros [|y es]; cbn; try lia.
  destruct (_ =? _)%N; cbn; [specialize (IH es); lia|lia].
Qed.

Section catch_up.
Context {P SM : Type} `{!PersistenceEngine P, !PersistenceEngineOk P, !ReliableEngine P} {JL : JsonLib}.
Abbreviation node := (node P SM).
Implicit Types sl sf : node.

(** One round: the request for the follower's next index, and what the leader does with
    the answer. *)
Definition append_round (target : N) (sl sf : node) : outcome (node * node) :=
  let next := next_index_of target sl in
  let request := append_request next (default 0%N (prev_term_of (next ⊖ 1) sl)) sl in
  match append_entries_with_consistency_check (ae_prev_log_index request) (ae_prev_log_term request)
          (ae_entries request) sf with
  | (Ret r, sf') =>
      Ret (if aer_success r then record_match target next (length (ae_entries request)) sl
           else back_off target r sl, sf')
  | (Throw e, _) => Throw e
  | (Undef u, _) => Undef u
  end.

(** Rounds until the follower is recorded to have the whole log. *)
Fixpoint catch_up (fuel : nat) (target : N) (sl sf : node) : outcome (node * node) :=
  if bool_decide (_match_index sl !! target = Some (get_last_log_index sl)) then Ret (sl, sf)
  else match fuel with
       | O => Undef "out of fuel"
       | S fuel => let? (sl', sf') := append_round target sl sf in catch_up fuel target sl' sf'
       end.

(** What the leader keeps through the rounds. *)
Definition same_log (sl sl' : node) : Prop :=
  _log sl' = _log sl ∧ _config sl' = _config sl ∧ _commit_index sl' = _commit_index sl.

Definition agree (n : nat) (sl sf : node) : Prop := take n (_log sf) = take n (_log sl).

(** The follower has committed nothing that the leader does not have. *)
Definition leader_complete (sl sf : node) : Prop :=
  ∀ k e, (N.of_nat k < _commit_index sf)%N → _log sf !! k = Some e → _log sl !! k = Some e.

Record follower_ok (sl sf : node) : Prop := mk_follower_ok {
  follower_log : log_ok sf;
  follower_matching : log_matching (_log sl) (_log sf);
  follower_complete : leader_complete sl sf
}.

Definition leader_ok (sl : node) : Prop :=
  log_wf 0 sl ∧ decodable (_log sl) ∧ (0 < max_entries_per_append (_config sl))%N.

(** The next index is in range, and what is recorded is true. *)
Record progress_ok (target : N) (sl sf : node) : Prop := mk_progress_ok {
  next_in_range : (1 <= next_index_of target sl <= N.of_nat (length (_log sl)) + 1)%N;
  match_true m : _match_index sl !! target = Some m → agree (N.to_nat m) sl sf
}.

Lemma agree_le n n' sl sf : n' ≤ n → agree n sl sf → agree n' sl sf.
Proof. intros Hn H. unfold agree. rewrite <-(Nat.min_l n' n), <-!take_take by done. by rewrite H. Qed.

(** Slices of the leader's log contradict nothing that is committed. *)
Lemma slice_safe sl sf p n :
  leader_complete sl sf → commit_safe (N.of_nat p) (take n (drop p (_log sl))) sf.
Proof.
  intros Hc k o e Ho He Hk. rewrite Nat2N.id in Ho. apply lookup_take_Some in He as [He _].
  rewrite lookup_drop in He. rewrite (Hc (p + k)%nat o) in He; [by simplify_eq|lia|done].
Qed.

(** A node's log and commit index after the check. *)
Lemma check_keeps_commit prev prev_term entries sf r sf' :
  log_ok sf → entries_ok prev entries → commit_safe prev entries sf →
  append_entries_with_consistency_check prev prev_term entries sf = (Ret r, sf') →
  _commit_index sf' = _commit_index sf ∧
  (aer_success r = true → _log sf' = merged prev entries (_log sf)).
Proof.
  intros (Hwf & Hr & Hp & Hd & Hb) (Hc & Hu & Hd') Hs E.
  destruct (consistency_failure prev prev_term sf) as [r'|] eqn:Ef.
  - unfold append_entries_with_consistency_check in E. rewrite let_gets, Ef in E. injection E as <- <-.
    split; [done|]. intros Ht. apply consistency_failure_rejects in Ef as [Hf _]. congruence.
  - destruct (append_entries_merge prev prev_term entries sf) as (p' & ob & E' & _); try done.
    { by apply commit_safe_first. }
    rewrite E in E'. injection E' as -> ->. done.
Qed.

(** An accepted slice leaves the follower in order. *)
Lemma accepted_round p n prev_term (sl sf : node) r sf' :
  let entries := take n (drop p (_log sl)) in
  leader_ok sl → follower_ok sl sf → p ≤ length (_log sl) →
  (∀ k, p = S k → e_term <$> _log sl !! k = Some prev_term) →
  append_entries_with_consistency_check (N.of_nat p) prev_term entries sf = (Ret r, sf') →
  aer_success r = true →
  follower_ok sl sf' ∧ agree (p + length entries) sl sf'.
Proof.
  intros entries (Hwl & Hdl & _) [Hf Hm Hc] Hp Ht E Hs. pose proof (slice_safe sl sf p n Hc) as Hsafe.
  destruct (accepted_slice_agrees p n prev_term sl sf r sf') as (Hok & Hag & Hmat); try done.
  destruct (check_keeps_commit _ _ _ _ _ _ Hf (entries_ok_slice p n sl Hwl Hdl Hp) Hsafe E) as [Hci Hlog].
  split; [|done]. split; [done|apply log_matching_sym, Hmat; [apply log_matching_refl|by apply log_matching_sym]|].
  intros k e Hk He. rewrite Hci in Hk. rewrite Hlog in He by done. rewrite <-merged_at_0 in He.
  assert (p ≤ length (_log sf)) as Hpf.
  { pose proof (append_entries_success _ _ _ _ _ _ (proj1 Hf) E Hs) as [?|(x & [_ Hx]%entry_at_Some & _)]; [lia|].
    apply lookup_lt_Some in Hx. lia. }
  destruct (_log sf !! k) as [o|] eqn:Ho.
  - rewrite (Hc k o Hk Ho). f_equal.
    pose proof (merged_at_keeps 0 (N.of_nat p) entries (_log sf) (N.of_nat k + 1) o) as Hkeep.
    rewrite !entry_at_Some in Hkeep. replace (N.to_nat (N.of_nat k + 1 - 0 - 1)) with k in Hkeep by lia.
    destruct Hkeep as [_ Hkeep]; [split; [lia|done]| |fold entries in He; congruence].
    intros j o' n' Hj [Hj0 Ho']%entry_at_Some [Hjp Hn']%entry_at_Some.
    apply lookup_take_Some in Hn' as [Hn' _]. rewrite lookup_drop in Hn'.
    replace (p + N.to_nat (j - N.of_nat p - 1))%nat with (N.to_nat (j - 0 - 1)) in Hn' by lia.
    assert (N.of_nat (N.to_nat (j - 0 - 1)) < _commit_index sf)%N as Hjc by lia.
    rewrite (Hc _ _ Hjc Ho') in Hn'. congruence.
  - apply lookup_ge_None in Ho. apply lookup_lt_Some in He as Hlt. rewrite merged_at_0 in Hlt, He.
    assert (k < p + length entries)%nat as Hin.
    { unfold merged in Hlt. rewrite Nat2N.id, length_app, length_take, Nat.min_l in Hlt by done.
      pose proof (merge_entries_length_le (drop p (_log sf)) entries) as Hml.
      fold entries in Hlt. rewrite length_drop in Hml. lia. }
    rewrite <-(Hlog Hs) in He. unfold agree in Hag. fold entries in Hag. rewrite <-(lookup_take_lt (_log sf') _ _ Hin) in He.
    rewrite <-(lookup_take_lt (_log sl) _ _ Hin). by rewrite <-Hag.
Qed.

Lemma round_request target sl :
  leader_ok sl → (1 <= next_index_of target sl <= N.of_nat (length (_log sl)) + 1)%N →
  let next := next_index_of target sl in
  let p := N.to_nat (next - 1) in
  let request := append_request next (default 0%N (prev_term_of (next ⊖ 1) sl)) sl in
  ae_prev_log_index request = N.of_nat p ∧
  ae_entries request = take (N.to_nat (max_entries_per_append (_config sl))) (drop p (_log sl)) ∧
  ∀ k, p = S k → e_term <$> _log sl !! k = Some (ae_prev_log_term request).
Proof.
  intros (Hwl & _ & _) Hn next p request. pose proof Hwl as (_ & _ & Hu). unfold is_u64 in Hu. fold next in Hn.
  destruct (prev_term_of_leader 0 next sl Hwl eq_refl Hn) as (t & Et & Ht). split_and!.
  - unfold request, append_request, p. simpl. rewrite u64_sub_small by (unfold is_u64; lia). lia.
  - unfold request. rewrite (append_request_entries 0) by (done || lia). unfold p. do 2 f_equal. lia.
  - intros k Hk. unfold request. cbn [append_request ae_prev_log_term]. rewrite Et. cbn. by apply Ht.
Qed.

(** A round is accepted, and then the logs agree through the match index that is
    recorded, or it is refused, and then the next index is smaller. *)
Lemma round_step target sl sf :
  leader_ok sl → follower_ok sl sf → progress_ok target sl sf →
  let next := next_index_of target sl in
  ∃ sl' sf', append_round target sl sf = Ret (sl', sf') ∧ same_log sl sl' ∧ follower_ok sl sf' ∧
    ((∃ m, _match_index sl' !! target = Some m ∧ next_index_of target sl' = (m + 1)%N ∧
        (next - 1 <= m <= N.of_nat (length (_log sl)))%N ∧
        ((next <= N.of_nat (length (_log sl)))%N → (next <= m)%N) ∧ agree (N.to_nat m) sl sf') ∨
     (¬ agree (N.to_nat (next - 1)) sl sf ∧ sf' = sf ∧ _match_index sl' = _match_index sl ∧
        (1 <= next_index_of target sl' < next)%N)).
Proof.
  intros Hl Hf [Hn Hm] next. fold next in Hn. destruct (round_request target sl Hl Hn) as (Ep & Ee & Ht).
  cbv zeta in Ep, Ee, Ht. fold next in Ep, Ee, Ht. set (p := N.to_nat (next - 1)) in *.
  unfold append_round. fold next. cbv zeta. set (request := append_request _ _ sl) in *. rewrite Ep, Ee.
  set (n := N.to_nat (max_entries_per_append (_config sl))) in *. set (entries := take n (drop p (_log sl))).
  pose proof Hl as (Hwl & Hdl & Hmax). pose proof Hwl as (_ & _ & Hu). unfold is_u64 in Hu.
  pose proof Hf as [Hok Hmat Hcom]. assert (p ≤ length (_log sl)) as Hp by (unfold p; lia).
  pose proof (slice_safe sl sf p n Hcom) as Hsafe.
  destruct (consistency_failure (N.of_nat p) (ae_prev_log_term request) sf) as [r|] eqn:Ef.
  - unfold append_entries_with_consistency_check. rewrite let_gets, Ef. unfold mreturn.
    apply consistency_failure_rejects in Ef as Hs. destruct Hs as [-> _].
    destruct (consistency_failure_conflict 0 _ _ _ _ (proj1 Hok) Ef) as (i & Hi & Hb & _).
    eexists _, sf. split; [reflexivity|]. unfold back_off. rewrite Hi. split; [done|]. split; [done|]. right. split_and!; try done.
    + intros Hag. assert (consistency_failure (N.of_nat p) (ae_prev_log_term request) sf = None); [|congruence].
      apply (consistency_failure_iff 0); [apply Hok|]. destruct p as [|k] eqn:Epk; [by left|right].
      specialize (Ht k eq_refl). destruct (_log sl !! k) as [e|] eqn:Ek; [|done]. injection Ht as Ht.
      exists e. split; [|done]. apply entry_at_Some. split; [lia|].
      replace (N.to_nat (N.of_nat (S k) - 0 - 1)) with k by lia.
      rewrite <-(lookup_take_lt _ (S k) k) by lia. unfold agree in Hag. rewrite Hag. by rewrite lookup_take_lt by lia.
    + unfold next_index_of. cbn. rewrite lookup_insert_eq. cbn. lia.
    + unfold next_index_of. cbn. rewrite lookup_insert_eq. cbn. unfold p in *. lia.
  - assert (prev_matches (N.of_nat p) (ae_prev_log_term request) (_log sf)) as Hpm
      by (apply (consistency_failure_iff 0); [apply Hok|done]).
    destruct (append_entries_run (N.of_nat p) (ae_prev_log_term request) entries sf) as (sf' & E & _);
      [done|by apply entries_ok_slice|by apply commit_safe_first|done|].
    rewrite E. cbn [aer_success].
    destruct (accepted_round p n (ae_prev_log_term request) sl sf _ sf' Hl Hf Hp Ht E eq_refl) as [Hf' Hag].
    assert (length entries = Nat.min n (length (_log sl) - p)) as Hlen by (unfold entries; by rewrite length_take, length_drop).
    eexists _, sf'. split; [reflexivity|]. split; [done|]. split; [done|]. left.
    exists (N.of_nat (p + length entries)). unfold record_match, next_index_of, put_match_index, put_next_index. cbn.
    rewrite !lookup_insert_eq, Nat2N.id. cbn.
    rewrite (u64_add_small next), (u64_sub_small (next + _)) by (unfold is_u64, p in *; lia).
    rewrite u64_add_small by (unfold is_u64, p in *; lia). split_and!; try done; unfold p, n in *; try lia.
    f_equal. lia.
Qed.

Lemma same_leader sl sl' :
  same_log sl sl' → leader_ok sl → log_wf 0 sl' ∧ leader_ok sl' ∧ get_last_log_index sl' = get_last_log_index sl.
Proof.
  intros (E1 & E2 & E3) (Hw & Hd & Hm). assert (log_wf 0 sl') as Hw' by (unfold log_wf in *; by rewrite E1, E3).
  split; [done|]. split; [unfold leader_ok; by rewrite E1, E2|].
  by rewrite (get_last_log_index_wf 0 sl Hw), (get_last_log_index_wf 0 sl' Hw'), E1.
Qed.

Lemma follower_same sl sl' sf : same_log sl sl' → follower_ok sl sf → follower_ok sl' sf.
Proof. intros (E1 & _) [H1 H2 H3]. split; [done|by rewrite E1|]. intros k e. rewrite E1. apply H3. Qed.

Lemma catch_up_converges fuel target sl sf :
  leader_ok sl → follower_ok sl sf → progress_ok target sl sf →
  (length (_log sl) + N.to_nat (next_index_of target sl) + 1 ≤ fuel ∨
   agree (N.to_nat (next_index_of target sl - 1)) sl sf ∧
   length (_log sl) + 2 ≤ fuel + N.to_nat (next_index_of target sl) ∨
   _match_index sl !! target = Some (N.of_nat (length (_log sl)))) →
  ∃ sl' sf', catch_up fuel target sl sf = Ret (sl', sf') ∧ same_log sl sl' ∧ follower_ok sl sf' ∧
    _match_index sl' !! target = Some (N.of_nat (length (_log sl))) ∧ agree (length (_log sl)) sl sf'.
Proof.
  revert sl sf. induction fuel as [|fuel IH]; intros sl sf Hl Hf Hpr Hfuel; cbn [catch_up];
    pose proof Hl as (Hwl & _); rewrite (get_last_log_index_wf 0 sl Hwl); pose proof Hpr as [Hn Hm].
  all: case_bool_decide as Hdone;
    [exists sl, sf; split_and!; try done; specialize (Hm _ Hdone); by rewrite N.add_0_l, Nat2N.id in Hm|].
  { exfalso. rewrite N.add_0_l in Hdone. destruct_or! Hfuel; [lia|lia|done]. }
  destruct (round_step target sl sf Hl Hf Hpr) as (sl1 & sf1 & E & Hsame & Hf1 & Hcase). cbv zeta in Hcase.
  rewrite E. cbn [outcome_bind]. destruct (same_leader sl sl1 Hsame Hl) as (_ & Hl1 & _).
  pose proof (follower_same _ _ _ Hsame Hf1) as Hf1'. pose proof Hsame as (El & _).
  assert (∀ n, agree n sl1 sf1 ↔ agree n sl sf1) as Hagree by (intros n; unfold agree; by rewrite El).
  destruct (IH sl1 sf1) as (sl2 & sf2 & E2 & Hsame2 & Hf2 & Hm2 & Hag2); [done|done| | |].
  - destruct Hcase as [(m & Hmi & Hnx & Hb & _ & Hag)|(_ & -> & Hmi & Hb)]; split.
    + rewrite Hnx, El. lia.
    + intros m' Hm'. rewrite Hmi in Hm'. injection Hm' as <-. by apply Hagree.
    + rewrite El. lia.
    + intros m' Hm'. rewrite Hmi in Hm'. apply Hagree. by apply Hm.
  - rewrite El. destruct Hcase as [(m & Hmi & Hnx & Hb & Hgrow & Hag)|(Hnag & -> & _ & Hb)].
    + right. assert (m = N.of_nat (length (_log sl)) ∨ (m < N.of_nat (length (_log sl)))%N) as [->|Hlt] by lia;
        [by right|left]. rewrite Hnx. replace (m + 1 - 1)%N with m by lia. split; [by apply Hagree|].
      destruct Hfuel as [Hfuel|[[_ Hfuel]|?]]; [lia|lia|]. by rewrite N.add_0_l in Hdone.
    + left. destruct Hfuel as [Hfuel|[[Hag _]|?]]; [lia|by destruct Hnag|]. by rewrite N.add_0_l in Hdone.
  - assert (same_log sl1 sl) as Hback by (destruct Hsame as (? & ? & ?); by unfold same_log).
    exists sl2, sf2. split; [done|]. split.
    { destruct Hsame as (? & ? & ?), Hsame2 as (? & ? & ?). unfold same_log. split_and!; congruence. }
    split; [by apply (follower_same sl1)|]. rewrite <-El. split; [done|]. unfold agree in *. by rewrite <-El.
Qed.
End catch_up.

(** C4. A leader brings a follower's log to its own.  Let neither log be compacted, both
    be contiguous with decodable configuration entries, the follower's log be the same on
    a storage that takes every write, the two logs match each other, the follower have
    committed only entries that the leader has, the leader send at least one entry at a
    time, the follower's next index be between 1 and the end of the leader's log, and
    what is recorded of the follower be true.  Then the rounds of building the
    request, checking and merging it at the follower, and backing off after a rejection
    or going on after a success (the terms and the commit index that the messages also
    carry are not part of a round), end: as many as the
    leader's log is long and the next index is large are enough.  The follower's log then
    begins with the leader's whole log, the leader has recorded that, the leader's log is
    as it was, and the invariant of the follower's log holds. *)
Theorem follower_catches_up {P SM : Type}
    `{!PersistenceEngine P, !PersistenceEngineOk P, !ReliableEngine P} {JL : JsonLib}
    (target : N) (sl sf : node P SM) :
  leader_ok sl → follower_ok sl sf → progress_ok target sl sf →
  ∃ sl' sf',
    catch_up (length (_log sl) + N.to_nat (next_index_of target sl) + 1) target sl sf = Ret (sl', sf') ∧
    _log sl' = _log sl ∧ _match_index sl' !! target = Some (N.of_nat (length (_log sl))) ∧
    take (length (_log sl)) (_log sf') = _log sl ∧ log_ok sf'.
Proof.
  intros Hl Hf Hp. destruct (catch_up_converges _ target sl sf Hl Hf Hp (or_introl (le_n _)))
    as (sl' & sf' & E & (Hlog & _) & [Hok _ _] & Hm & Hag).
  exists sl', sf'. split_and!; try done. unfold agree in Hag. by rewrite (take_ge (_log sl)) in Hag.
Qed.

(** The leader of term 2 and the follower with an entry of term 1 that the leader does not
    have; the leader begins at the end of its log. *)
Lemma follower_catches_up_witness :
  ∃ sl sf, catch_up 8 2 (put_next_index 2 4 round_leader) round_follower = Ret (sl, sf) ∧
    take 3 (_log sf) = _log round_leader.
Proof.
  destruct (follower_catches_up 2 (put_next_index 2 4 round_leader) round_follower) as (sl & sf & E & _ & _ & Hlog & _).
  - split; [exact (proj1 round_leader_ok)|]. split; [exact (proj2 round_leader_ok)|vm_compute; reflexivity].
  - split; [exact (proj1 round_follower_ok)|exact round_logs_match|].
    intros k e Hk. assert (_commit_index round_follower = 0%N) as E0 by (vm_compute; reflexivity). rewrite E0 in Hk. lia.
  - split; [vm_compute; done|]. intros m Hm. by vm_compute in Hm.
  - exists sl, sf. split; [exact E|exact Hlog].
Defined.
