(* ===== verification/SnapshotProofs.v ===== *)
(** Compaction and recovery: compaction keeps the rest of the log, a restarted node
    recovers what was stored; and a transfer of empty data that never happens. *)

From S2P Require Import Prelude Types ConfigEntry Membership Persistence CommitWaiter ConfigSync.
From S2P Require Import Node KvStateMachine Log Roles Sample AppendEntries Apply Snapshot.
From S2P Require Import Replication MembershipChange QuorumLoop Lifecycle LogProofs.

(** ** Compaction *)

Lemma count_compacted_contiguous base last l :
  contiguous base l → count_compacted last l = Nat.min (N.to_nat (last - base)) (length l).
Proof.
  revert base. induction l as [|e l IH]; intros base Hc; simpl; [lia|].
  apply contiguous_cons in Hc as [He Hc]. rewrite He.
  destruct (N.leb_spec (base + 1) last); [|lia]. rewrite (IH (base + 1)%N Hc). lia.
Qed.

Section compaction.
Context {P SM : Type} `{!PersistenceEngine P, !PersistenceEngineOk P, !ReliableEngine P}.
Abbreviation node := (node P SM).
Implicit Types s : node.

Lemma persisted_delete base last p p' l :
  persisted base p l → (base <= last)%N → (last - base <= N.of_nat (length l))%N →
  delete_log_entries_before (last + 1) p = (Ret tt, p') →
  persisted last p' (drop (N.to_nat (last - base)) l).
Proof.
  intros Hp Hb Hl E i. rewrite (delete_log_entries_before_ok _ _ _ E). unfold store_delete_before. simpl.
  specialize (Hp i). unfold entry_at in *. destruct (N.leb_spec i last) as [Hi|Hi].
  { apply map_lookup_filter_None. right. intros e _. simpl. lia. }
  destruct (N.leb_spec i base); [lia|]. rewrite lookup_drop.
  replace (N.to_nat (last - base) + N.to_nat (i - last - 1)) with (N.to_nat (i - base - 1)) by lia.
  rewrite <-Hp. destruct (st_log (abs p) !! i) as [e|] eqn:Ei.
  - apply map_lookup_filter_Some. split; [done|]. simpl. lia.
  - apply map_lookup_filter_None. by left.
Qed.

Lemma drop_wf base last s p' :
  log_wf base s → (base <= last <= _commit_index s)%N →
  (_commit_index s <= base + N.of_nat (length (_log s)))%N →
  log_wf last (set_persistence p' (erase_front (N.to_nat (last - base)) s)).
Proof.
  intros (Hc & Hn & Hu) Hl Hci. unfold log_wf, is_u64 in *. simpl. split; [|split].
  - replace last with (base + N.of_nat (N.to_nat (last - base)))%N at 1 by lia.
    apply contiguous_drop; [done|lia].
  - intros Hd. apply (f_equal length) in Hd. rewrite length_drop in Hd. simpl in Hd. lia.
  - rewrite length_drop. lia.
Qed.

Lemma compact_log_run base snap s :
  log_wf base s → persisted base (_persistence s) (_log s) → reliable (_persistence s) →
  load_snapshot (_persistence s) = Some snap → (base <= last_included_index snap <= _commit_index s)%N →
  (_commit_index s <= base + N.of_nat (length (_log s)))%N →
  let last := last_included_index snap in
  ∃ p', compact_log s = (Ret tt, set_persistence p' (erase_front (N.to_nat (last - base)) s)) ∧
    reliable p' ∧ persisted last p' (drop (N.to_nat (last - base)) (_log s)) ∧
    log_wf last (set_persistence p' (erase_front (N.to_nat (last - base)) s)).
Proof.
  intros Hwf Hp Hr Hs Hl Hci last. pose proof Hwf as (Hc & Hn & Hu). unfold is_u64 in Hu.
  assert (last = base → ∃ p', (Ret tt, s) =
      (Ret tt, set_persistence p' (erase_front (N.to_nat (last - base)) s)) ∧
      reliable p' ∧ persisted last p' (drop (N.to_nat (last - base)) (_log s)) ∧
      log_wf last (set_persistence p' (erase_front (N.to_nat (last - base)) s))) as Hsame.
  { intros E. exists (_persistence s). rewrite E, N.sub_diag. unfold erase_front. simpl. rewrite drop_0.
    by destruct s. }
  unfold compact_log. rewrite let_gets, Hs, let_gets. fold last.
  destruct (head (_log s)) as [first|] eqn:Eh.
  2: { destruct (_log s) as [|? ?] eqn:El; [|done]. apply Hsame. rewrite (Hn eq_refl) in *. unfold last. lia. }
  rewrite (contiguous_head _ _ _ Hc Eh).
  destruct (N.ltb_spec last (base + 1)); [apply Hsame; unfold last in *; lia|].
  rewrite let_gets, (count_compacted_contiguous base last _ Hc), Nat.min_l by (unfold last in *; lia).
  destruct (Nat.eqb_spec (N.to_nat (last - base)) 0); [lia|].
  rewrite let_modify, u64_add_small by (unfold is_u64, last in *; lia).
  set (s1 := erase_front _ s).
  destruct (persist_write s1 (delete_log_entries_before (last + 1)) (write_delete _) Hr)
    as (p' & E & W & Hr').
  exists p'. split_and!; [exact E|done| |].
  - apply (persisted_delete base last (_persistence s)); [done|unfold last in *; lia..|done].
  - apply drop_wf; unfold last in *; done || lia.
Qed.
End compaction.

(** ** Recovery *)

Section recovery.
Context {P SM : Type} `{!PersistenceEngine P, !PersistenceEngineOk P, !StateMachine SM} {JL : JsonLib}.
Abbreviation node := (node P SM).
Implicit Types s : node.

Lemma persisted_last_index base p l :
  persisted base p l → contiguous base l → l ≠ [] →
  Persistence.get_last_log_index p = (base + N.of_nat (length l))%N.
Proof.
  intros Hp Hc Hne. destruct (last_is_Some l) as [_ Hl]. destruct (Hl Hne) as [e He].
  assert (is_Some (st_log (abs p) !! (base + N.of_nat (length l))%N)) as Hs.
  { rewrite (Hp _). rewrite last_lookup in He. exists e. apply entry_at_Some.
    destruct l; [done|]. simpl length in *. split; [lia|]. rewrite <-He. f_equal. lia. }
  apply get_last_log_index_ge in Hs as Hge.
  destruct (get_last_log_index_attained p) as [H0|[e' Ha]]; [destruct l; [done|simpl in *; lia]|].
  rewrite (Hp _) in Ha. apply entry_at_Some in Ha as [Hb Ha]. apply lookup_lt_Some in Ha. lia.
Qed.

Lemma persisted_entries base p l :
  persisted base p l → contiguous base l →
  get_log_entries (base + 1) (base + N.of_nat (length l)) p = l.
Proof.
  intros Hp Hc. rewrite get_log_entries_ok.
  assert (∀ k, omap (λ i, st_log (abs p) !! i) (nrange (base + 1 + N.of_nat k) (base + N.of_nat (length l)))
               = drop k l) as H.
  2: { specialize (H 0). by rewrite N.add_0_r, drop_0 in H. }
  intros k. remember (length l - k) as n eqn:En. revert k En. induction n as [|n IH]; intros k En.
  - rewrite nrange_nil, drop_ge by lia. done.
  - destruct (lookup_lt_is_Some_2 l k) as [e He]; [lia|].
    rewrite nrange_cons by lia. simpl. rewrite (Hp _), entry_at_lookup, He, (drop_S _ _ _ He).
    f_equal. rewrite <-(IH (S k)) by lia. do 2 f_equal. lia.
Qed.

Lemma restore_snapshot_run snap sm s :
  load_snapshot (_persistence s) = Some snap →
  sm_restore_from_snapshot (state_machine_state snap) (last_included_index snap) (_state_machine s)
    = (Ret tt, sm) →
  restore_snapshot s =
    (Ret tt, set_configuration (snap_configuration snap) (set_commit_index (last_included_index snap)
       (set_last_applied (last_included_index snap) (set_state_machine sm s)))).
Proof.
  intros Hs Hr. unfold restore_snapshot. rewrite let_gets, Hs.
  unfold mlet, mcatch, run_state_machine. by rewrite Hr.
Qed.

(** Reloading the stored entries onto the empty log of a new node. *)
Lemma reload_log_run base s l :
  _log s = [] → _last_applied s = base → is_u64 (base + 1) →
  persisted base (_persistence s) l → contiguous base l → reload_log s = set_log l s.
Proof.
  intros Hl Hla Hu Hp Hc. unfold reload_log. rewrite Hla, Hl.
  assert ((if (0 <? base)%N then base ⊕ 1 else 1%N) = (base + 1)%N) as ->.
  { destruct (N.ltb_spec 0 base); [by rewrite u64_add_small|lia]. }
  destruct (decide (l = [])) as [->|Hne].
  - assert (Persistence.get_last_log_index (_persistence s) = 0%N) as ->.
    { destruct (get_last_log_index_attained (_persistence s)) as [?|[e Ha]]; [done|].
      rewrite (Hp _) in Ha. by apply entry_at_Some in Ha as [_ ?]. }
    destruct (N.leb_spec (base + 1) 0); [lia|]. destruct s; simpl in *; by subst.
  - rewrite (persisted_last_index base _ l) by done.
    destruct (N.leb_spec (base + 1) (base + N.of_nat (length l))).
    + by rewrite persisted_entries.
    + destruct l; [done|simpl in *; lia].
Qed.

(** The configuration a restarted node comes up with. *)
Lemma restore_configuration_run s :
  decodable (_log s) → config_ok (_configuration s) →
  restore_configuration s = (Ret tt, set_configuration (log_configuration (_configuration s) (_log s)) s) ∧
  config_ok (log_configuration (_configuration s) (_log s)).
Proof.
  intros Hd Hok. unfold restore_configuration. rewrite let_gets. unfold log_configuration.
  destruct (latest_configuration_entry (_log s)) as [e|] eqn:E; [|split; [by destruct s|done]].
  apply latest_configuration_entry_elem in E as [Hin Hc]. destruct (Hd e Hin Hc) as (cfg & -> & Hcfg). done.
Qed.
End recovery.

(** ** Results *)

(** C9. Log compaction: once a snapshot up to a committed index is stored,
    [compact_log] removes exactly the entries up to that index, in memory and
    on storage; later entries are found under the same index as before, and the
    log invariant holds for the new start of the log. *)
Theorem compaction_keeps_suffix {P SM : Type}
    `{!PersistenceEngine P, !PersistenceEngineOk P, !ReliableEngine P}
    (base : N) (snap : snapshot) (s : node P SM) :
  log_wf base s → persisted base (_persistence s) (_log s) → reliable (_persistence s) →
  load_snapshot (_persistence s) = Some snap → (base <= last_included_index snap <= _commit_index s)%N →
  (_commit_index s <= base + N.of_nat (length (_log s)))%N →
  let last := last_included_index snap in
  let s' := state_of compact_log s in
  result_of compact_log s = Ret tt ∧
  log_wf last s' ∧ persisted last (_persistence s') (_log s') ∧
  (∀ i, (last < i)%N → get_log_entry i s' = get_log_entry i s) ∧
  (∀ i, (i <= last)%N → get_log_entry i s' = None).
Proof.
  intros Hwf Hp Hr Hs Hl Hci. cbv zeta. unfold result_of, state_of.
  destruct (compact_log_run base snap s Hwf Hp Hr Hs Hl Hci) as (p' & E & _ & Hp' & Hwf'). rewrite E.
  cbn [fst snd]. split; [done|]. split; [done|]. split; [done|]. split.
  - intros i Hi. rewrite (get_log_entry_wf _ _ _ Hwf), (get_log_entry_wf _ _ _ Hwf').
    unfold entry_at, erase_front. simpl. destruct (N.leb_spec i (last_included_index snap)); [lia|].
    destruct (N.leb_spec i base); [lia|]. rewrite lookup_drop. f_equal. lia.
  - intros i Hi. rewrite (get_log_entry_wf _ _ _ Hwf'). unfold entry_at.
    by destruct (N.leb_spec i (last_included_index snap)); [|lia].
Qed.

(** A node with three applied entries and a stored snapshot of the first two. *)
Definition sample_snapshot : snapshot := mk_snapshot 2 1 sample_configuration (get_state kv_initial).
Definition sample_stored : sample_node_type :=
  let s := state_of (append_entries_with_consistency_check 0 0 sample_log) (sample_node 2) in
  state_of (persist (save_snapshot sample_snapshot)) (set_commit_index 3 (set_last_applied 3 s)).

Lemma sample_stored_persisted :
  persisted 0 (_persistence sample_stored) (_log sample_stored) ∧
  reliable (_persistence sample_stored).
Proof.
  destruct (append_entries_run 0 0 sample_log (sample_node 2)) as (s' & E & (_ & Hr & Hp & _) & Hl & _).
  - apply sample_node_log_ok.
  - by apply plain_entries_ok; [apply sample_log_contiguous| |].
  - by apply commit_safe_first, commit_safe_uncommitted.
  - by left.
  - unfold sample_stored, state_of. rewrite E. cbn [snd]. unfold persist. cbn [_persistence set_commit_index set_last_applied].
    simpl save_snapshot. unfold memory_persistence_engine.save_snapshot, mlet.
    unfold memory_persistence_engine.fiu_do_on. rewrite (Hr "raft/persistence/save_snapshot"%string). simpl.
    split; [exact Hp|exact Hr].
Qed.

Lemma compaction_keeps_suffix_witness :
  result_of compact_log sample_stored = Ret tt ∧
  e_index <$> _log (state_of compact_log sample_stored) = [3%N].
Proof.
  split; [|vm_compute; reflexivity].
  refine (proj1 (compaction_keeps_suffix 0 sample_snapshot sample_stored _
    (proj1 sample_stored_persisted) (proj2 sample_stored_persisted) _ _ _)).
  - split; [exact sample_log_contiguous|split; [done|vm_compute; reflexivity]].
  - vm_compute. reflexivity.
  - split; vm_compute; discriminate.
  - vm_compute. discriminate.
Defined.

(** C10. Crash recovery: a node built anew over a storage that holds a snapshot up
    to [base] (none when [base] is 0) and the log entries after it recovers
    exactly the stored term and vote, the log, the snapshot's state with applied
    and commit index at [base], and the configuration of the latest stored
    configuration entry. *)
Theorem recovery_restores_durable_state {P SM : Type}
    `{!PersistenceEngine P, !PersistenceEngineOk P, !StateMachine SM} {JL : JsonLib}
    (base : N) (l : list log_entry) (sm : SM) (s : node P SM) :
  let cfg := match load_snapshot (_persistence s) with
             | Some snap => snap_configuration snap | None => _configuration s end in
  _log s = [] → _last_applied s = 0%N → _commit_index s = 0%N → is_u64 (base + 1) →
  persisted base (_persistence s) l → contiguous base l → decodable l → config_ok cfg →
  match load_snapshot (_persistence s) with
  | Some snap => last_included_index snap = base ∧
      sm_restore_from_snapshot (state_machine_state snap) base (_state_machine s) = (Ret tt, sm)
  | None => base = 0%N ∧ sm = _state_machine s
  end →
  let s' := state_of initialize_from_storage s in
  result_of initialize_from_storage s = Ret tt ∧
  _current_term s' = st_term (abs (_persistence s)) ∧ _voted_for s' = st_voted_for (abs (_persistence s)) ∧
  _log s' = l ∧ _last_applied s' = base ∧ _commit_index s' = base ∧ _state_machine s' = sm ∧
  _configuration s' = log_configuration cfg l.
Proof.
  intros cfg Hlog Hla Hci Hu Hp Hc Hd Hok Hsnap. unfold result_of, state_of, initialize_from_storage.
  rewrite !let_modify. set (s1 := set_voted_for _ (set_current_term _ s)).
  assert (∃ s2, (∀ k : () → M (node P SM) (), mlet restore_snapshot k s1 = k tt s2) ∧
    _log s2 = [] ∧ _last_applied s2 = base ∧ _commit_index s2 = base ∧ _state_machine s2 = sm ∧
    _configuration s2 = cfg ∧ _persistence s2 = _persistence s ∧
    _current_term s2 = _current_term s1 ∧ _voted_for s2 = _voted_for s1)
    as (s2 & E & Hl2 & Hla2 & Hc2 & Hsm2 & Hcfg2 & Hp2 & Ht2 & Hv2).
  { unfold cfg in *. destruct (load_snapshot (_persistence s)) as [snap|] eqn:Es.
    - destruct Hsnap as [Hi Hr]. subst base. eexists. split.
      { intros k. rewrite (let_eval _ _ _ _ _ (restore_snapshot_run snap sm s1 Es Hr)). reflexivity. }
      done.
    - destruct Hsnap as [-> ->]. exists s1. split; [|done]. intros k.
      rewrite (let_eval _ _ s1 tt s1); [done|]. unfold restore_snapshot.
      rewrite let_gets. change (_persistence s1) with (_persistence s). by rewrite Es. }
  rewrite E, let_modify. rewrite (reload_log_run base s2 l) by (done || by rewrite Hp2).
  destruct (restore_configuration_run (set_log l s2)) as [E3 Hok3]; [done|by simpl; rewrite Hcfg2|].
  rewrite (let_eval _ _ _ _ _ E3). set (s3 := set_configuration _ _).
  destruct (cluster_members_ok s3 Hok3) as [ms Hms].
  unfold sync_peer2peer_membership, mlet. rewrite Hms. simpl. rewrite Hla2, Hc2, Hsm2, Ht2, Hv2, Hcfg2.
  unfold s1. simpl. by rewrite load_current_term_ok, load_voted_for_ok.
Qed.

(** A new node over the compacted storage of [sample_stored]. *)
Definition sample_compacted : sample_node_type := state_of compact_log sample_stored.
Definition sample_reborn : sample_node_type :=
  set_persistence (_persistence sample_compacted) (sample_node 2).

Lemma sample_stored_wf : log_wf 0 sample_stored.
Proof. split; [exact sample_log_contiguous|split; [done|vm_compute; reflexivity]]. Qed.

Lemma sample_compacted_persisted :
  persisted 2 (_persistence sample_reborn) [put_entry 1 3 [x61] [x02]].
Proof.
  destruct (compact_log_run 0 sample_snapshot sample_stored sample_stored_wf
    (proj1 sample_stored_persisted) (proj2 sample_stored_persisted) eq_refl) as (p' & E & _ & Hp & _).
  - split; vm_compute; discriminate.
  - vm_compute. discriminate.
  - unfold sample_reborn, sample_compacted, state_of. rewrite E. exact Hp.
Qed.

Lemma recovery_restores_durable_state_witness :
  _log (state_of initialize_from_storage sample_reborn) = [put_entry 1 3 [x61] [x02]].
Proof.
  refine (proj1 (proj2 (proj2 (proj2 (recovery_restores_durable_state 2 [put_entry 1 3 [x61] [x02]]
    (mk_kv ∅ 2 false) sample_reborn eq_refl eq_refl eq_refl eq_refl sample_compacted_persisted _ _ _ _))))).
  - intros [|k] e [= <-]. reflexivity.
  - intros e He Hc. apply list_elem_of_singleton in He as ->. done.
  - intros H. vm_compute in H. discriminate.
  - vm_compute. done.
Defined.

(** An empty snapshot is never transferred, yet counted: when the stored
    snapshot's data is empty, [send_install_snapshot_to] sends no request at
    all and still records the follower as holding everything up to the
    snapshot's last index. *)
Theorem empty_snapshot_counted_without_transfer {P SM : Type} `{!PersistenceEngine P}
    (target : N) (snap : snapshot) (s : node P SM) :
  _state s = leader → load_snapshot (_persistence s) = Some snap → state_machine_state snap = [] →
  let s' := send_install_snapshot_to target s in
  outbox s' = outbox s ∧ _match_index s' !! target = Some (last_included_index snap).
Proof.
  intros Hl Hs Hd. unfold send_install_snapshot_to. rewrite Hl, Hs. cbn [is_leader_state].
  unfold send_chunk, data_size. rewrite Hd. simpl. by rewrite lookup_insert_eq.
Qed.

Lemma empty_snapshot_counted_without_transfer_witness :
  _match_index (send_install_snapshot_to 3
    (set_state leader (state_of (persist (save_snapshot (mk_snapshot 9 1 sample_configuration [])))
       (sample_node 1)))) !! 3%N = Some 9%N.
Proof.
  exact (proj2 (empty_snapshot_counted_without_transfer 3 (mk_snapshot 9 1 sample_configuration [])
    (set_state leader (state_of (persist (save_snapshot (mk_snapshot 9 1 sample_configuration [])))
       (sample_node 1))) eq_refl eq_refl eq_refl)).
Defined.
