(* ===== verification/SnapshotTransfer.v ===== *)
(** The transfer of a snapshot, from [send_install_snapshot_to] on the leader through
    [handle_install_snapshot] on the follower, chunk by chunk: it installs the data
    and the leader counts the follower; and a transfer that is refused halfway and
    counted all the same. *)

From S2P Require Import Prelude Types ConfigEntry Membership Persistence CommitWaiter ConfigSync.
From S2P Require Import Node KvStateMachine Log Roles Sample AppendEntries Apply Snapshot.

Section transfer.
Context {P SM : Type} `{!PersistenceEngine P, !StateMachine SM}.
Abbreviation node := (node P SM).
Implicit Types s : node.

(** The chunk that a leader waits to be answered. *)
Definition chunk_under_way (target : N) s : option (snapshot * install_snapshot_request) :=
  match last (outbox s) with
  | Some (out_install_snapshot t snap request) => if (t =? target)%N then Some (snap, request) else None
  | _ => None
  end.

Definition chunk_answered s : node := set_outbox (removelast (outbox s)) s.

(** The loop of [send_install_snapshot_to] over a network that loses nothing: each
    chunk is handled by the follower, whose answer, or exception, resumes the
    leader.  Every chunk has at least one byte, so the size of the data bounds the
    number of rounds. *)
Fixpoint transfer (rounds : nat) (target : N) (sl sf : node) : node * node :=
  match rounds with
  | O => (sl, sf)
  | S rounds =>
      match chunk_under_way target sl with
      | None => (sl, sf)
      | Some (snap, request) =>
          let '(reply, sf) := handle_install_snapshot request sf in
          transfer rounds target (on_install_snapshot_reply target snap request reply (chunk_answered sl)) sf
      end
  end.

Definition transfer_snapshot (target : N) (snap : snapshot) (sl sf : node) : node * node :=
  transfer (N.to_nat (data_size snap)) target (send_install_snapshot_to target sl) sf.

(** The leader's record of a follower that has the snapshot. *)
Definition counted (target : N) (snap : snapshot) (sl : node) : node :=
  put_match_index target (last_included_index snap)
    (put_next_index target (last_included_index snap ⊕ 1) sl).

(** *** One chunk *)

Lemma take_its_length {A} n (l : list A) : take (length (take n l)) l = take n l.
Proof.
  rewrite length_take. destruct (decide (n ≤ length l)); [by rewrite Nat.min_l|].
  rewrite Nat.min_r by lia. by rewrite !take_ge by lia.
Qed.

Lemma chunk_length snap offset s :
  (offset < data_size snap)%N →
  N.of_nat (length (is_data (snapshot_chunk snap offset s))) =
    N.min (data_size snap - offset) (snapshot_chunk_size (_config s)).
Proof.
  unfold data_size. intros H. unfold snapshot_chunk, data_size. cbn [is_data].
  rewrite length_take, length_drop. lia.
Qed.

(** The offset after a chunk. *)
Definition chunk_end (snap : snapshot) (offset : N) s : N :=
  (offset + N.of_nat (length (is_data (snapshot_chunk snap offset s))))%N.

Lemma chunk_end_within snap offset s :
  (0 < snapshot_chunk_size (_config s))%N → (offset < data_size snap)%N →
  (offset < chunk_end snap offset s <= data_size snap)%N ∧
  is_done (snapshot_chunk snap offset s) = (data_size snap <=? chunk_end snap offset s)%N.
Proof.
  intros Hc Ho. pose proof (chunk_length snap offset s Ho) as Hl. unfold chunk_end. split; [lia|].
  rewrite Hl. done.
Qed.

(** The buffer that a follower has at an offset. *)
Definition buffered (snap : snapshot) (offset : N) s : Prop :=
  offset = 0%N ∨ snapshot_buffer s = Some (take (N.to_nat offset) (state_machine_state snap)).

Lemma accept_chunk_extends snap offset (sl sf : node) :
  (offset < data_size snap)%N → buffered snap offset sf →
  accept_chunk (snapshot_chunk snap offset sl) sf =
  Some (take (N.to_nat (chunk_end snap offset sl)) (state_machine_state snap)).
Proof.
  intros Ho Hb. unfold chunk_end. set (r := snapshot_chunk snap offset sl). set (k := length (is_data r)).
  assert (is_data r = take k (drop (N.to_nat offset) (state_machine_state snap))) as Hdata.
  { unfold k, r, snapshot_chunk. cbn [is_data]. by rewrite take_its_length. }
  unfold accept_chunk. change (is_offset r) with offset. rewrite Hdata.
  replace (N.to_nat (offset + N.of_nat k)) with (N.to_nat offset + k) by lia. rewrite <-take_take_drop.
  destruct (N.eqb_spec offset 0) as [->|]; [done|]. destruct Hb as [?|Hb]; [done|]. rewrite Hb.
  rewrite length_take. unfold data_size in Ho.
  destruct (N.eqb_spec (N.of_nat (N.to_nat offset `min` length (state_machine_state snap))) offset); [done|lia].
Qed.

(** What a follower keeps until the snapshot is complete. *)
Definition untouched s s' : Prop :=
  _persistence s' = _persistence s ∧ _state_machine s' = _state_machine s ∧
  _configuration s' = _configuration s ∧ _log s' = _log s ∧
  _commit_index s' = _commit_index s ∧ _last_applied s' = _last_applied s.

(** The node that goes on with a request of its term or a later one. *)
Definition follows (term : N) s : node :=
  reset_election_timer (if (_current_term s <? term)%N then become_follower term s else s).

Lemma follows_untouched term s :
  (_current_term s <= term)%N →
  untouched s (follows term s) ∧ _current_term (follows term s) = term ∧
  snapshot_buffer (follows term s) = snapshot_buffer s.
Proof.
  intros Ht. unfold follows, untouched. destruct (N.ltb_spec (_current_term s) term).
  - unfold become_follower. by destruct (is_leader_state (_state s)).
  - split_and!; try done. cbn. lia.
Qed.

Lemma handle_install_snapshot_run request s :
  (_current_term s <= is_term request)%N →
  handle_install_snapshot request s =
  match accept_chunk request (follows (is_term request) s) with
  | None => (Ret (mk_snap_resp (is_term request)), follows (is_term request) s)
  | Some buffer =>
      (let! _ := if negb (is_done request) then mreturn tt else install_complete request buffer in snapshot_reply)
        (set_snapshot_buffer (Some buffer) (follows (is_term request) s))
  end.
Proof.
  intros Ht. destruct (follows_untouched _ s Ht) as (_ & Hterm & _).
  unfold handle_install_snapshot. rewrite let_gets.
  destruct (N.ltb_spec (is_term request) (_current_term s)); [lia|].
  transitivity ((let! accepted := gets (accept_chunk request) in
    match accepted with
    | None => snapshot_reply
    | Some buffer => do! mmodify (set_snapshot_buffer (Some buffer)) in
        if negb (is_done request) then snapshot_reply
        else do! install_complete request buffer in snapshot_reply
    end) (follows (is_term request) s)).
  { unfold follows. by destruct (_current_term s <? is_term request)%N. }
  rewrite let_gets. destruct (accept_chunk _ _) as [buffer|].
  - rewrite let_modify. by destruct (negb (is_done request)).
  - unfold snapshot_reply, gets. by rewrite Hterm.
Qed.
End transfer.

Section completion.
Context {P SM : Type} `{!PersistenceEngine P, !PersistenceEngineOk P, !ReliableEngine P, !StateMachine SM}.
Abbreviation node := (node P SM).
Implicit Types s : node.

(** What the follower makes of the complete data: the leader's, with its own
    configuration. *)
Definition received_snapshot (snap : snapshot) s : snapshot :=
  mk_snapshot (last_included_index snap) (last_included_term snap) (_configuration s) (state_machine_state snap).

(** The log is cut or cleared, whatever the storage holds of it. *)
Lemma discard_or_retain_run request s :
  reliable (_persistence s) →
  ∃ l p, discard_or_retain request s = (Ret tt, set_persistence p (set_log l s)) ∧ reliable p ∧
    st_snapshot (abs p) = st_snapshot (abs (_persistence s)) ∧
    st_term (abs p) = st_term (abs (_persistence s)) ∧
    (retain_log request s = false → l = []).
Proof.
  intros Hr. unfold discard_or_retain. rewrite let_gets. destruct (retain_log request s).
  - rewrite let_gets. destruct (_ && _); cbn [mwhen].
    + rewrite let_modify. destruct (persist_write (erase_front (N.to_nat (is_last_included_index request)) s)
        (truncate_log (is_last_included_index request ⊕ 1)) (write_truncate _) Hr) as (p & -> & W & Hp).
      eexists _, p. split; [reflexivity|]. rewrite (truncate_log_ok _ _ _ W). by split_and!.
    + exists (_log s), (_persistence s). split; [by destruct s|by split_and!].
  - rewrite let_modify. destruct (persist_write (set_log [] s) (truncate_log 1) (write_truncate _) Hr) as (p & -> & W & Hp).
    eexists _, p. split; [reflexivity|]. rewrite (truncate_log_ok _ _ _ W). by split_and!.
Qed.

(** Restoring, or the exception that ends the installation. *)
Lemma install_snapshot_run snap s :
  config_ok (snap_configuration snap) →
  match sm_restore_from_snapshot (state_machine_state snap) (last_included_index snap) (_state_machine s) with
  | (Ret _, sm) => ∃ s', install_snapshot snap s = (Ret tt, s') ∧
      _state_machine s' = sm ∧ _persistence s' = _persistence s ∧ _current_term s' = _current_term s ∧
      _commit_index s' = N.max (_commit_index s) (last_included_index snap) ∧
      (_log s = [] → _log s' = [])
  | (Throw e, sm) => install_snapshot snap s = (Throw e, set_state_machine sm s)
  | (Undef w, sm) => install_snapshot snap s = (Undef w, set_state_machine sm s)
  end.
Proof.
  intros Hok. destruct (sm_restore_from_snapshot _ _ _) as [[[]|e|w] sm] eqn:E.
  2-3: unfold install_snapshot, run_state_machine, mlet; by rewrite E.
  unfold install_snapshot.
  assert (run_state_machine (sm_restore_from_snapshot (state_machine_state snap) (last_included_index snap)) s =
    (Ret tt, set_state_machine sm s)) as Er by (unfold run_state_machine; by rewrite E).
  rewrite (let_eval _ _ _ _ _ Er), let_modify.
  set (s1 := set_configuration _ _). destruct (cluster_members_ok s1 Hok) as [ms Hms].
  unfold sync_peer2peer_membership. unfold mlet at 1 2. rewrite Hms. cbn [mmodify].
  rewrite !let_modify. eexists. split; [reflexivity|]. cbn.
  destruct (N.ltb_spec (_commit_index s) (last_included_index snap)); cbn;
    (case_match; cbn; split_and!; try done; try lia; intros El; rewrite El; by rewrite ?drop_nil).
Qed.

(** How the follower ends after the last chunk. *)
Definition installed (snap : snapshot) (term : N) (sm : SM) s s' : Prop :=
  _state_machine s' = sm ∧ _last_applied s' = last_included_index snap ∧
  _commit_index s' = N.max (_commit_index s) (last_included_index snap) ∧
  _current_term s' = term ∧ load_current_term (_persistence s') = term ∧
  load_snapshot (_persistence s') = Some (received_snapshot snap s) ∧ snapshot_buffer s' = None.

Lemma install_complete_run snap request s :
  reliable (_persistence s) → config_ok (_configuration s) →
  is_last_included_index request = last_included_index snap → is_last_included_term request = last_included_term snap →
  let r := install_complete request (state_machine_state snap) s in
  match sm_restore_from_snapshot (state_machine_state snap) (last_included_index snap) (_state_machine s) with
  | (Ret _, sm) => r.1 = Ret tt ∧ installed snap (_current_term s) sm s r.2 ∧
      (retain_log request s = false → _log r.2 = [])
  | (Throw e, sm) => r.1 = Throw e ∧ _last_applied r.2 = _last_applied s ∧ _commit_index r.2 = _commit_index s ∧
      load_snapshot (_persistence r.2) = load_snapshot (_persistence s)
  | (Undef w, sm) => r.1 = Undef w
  end.
Proof.
  intros Hr Hok Hi Ht. cbv zeta. unfold install_complete. rewrite let_gets, Hi, Ht.
  fold (received_snapshot snap s).
  destruct (discard_or_retain_run request s Hr) as (l & p & E & Hp & Hsn & Htm & Hl). rewrite (let_eval _ _ _ _ _ E).
  set (s1 := set_persistence p (set_log l s)). pose proof (install_snapshot_run (received_snapshot snap s) s1 Hok) as H.
  cbn [received_snapshot state_machine_state last_included_index snap_configuration] in H.
  change (_state_machine s1) with (_state_machine s) in H.
  destruct (sm_restore_from_snapshot _ _ _) as [[[]|e|w] sm].
  2:{ unfold mlet. rewrite H. cbn. rewrite !load_snapshot_ok, Hsn. done. }
  2:{ unfold mlet. by rewrite H. }
  destruct H as (s2 & E2 & Hsm & Hp2 & Ht2 & Hc2 & Hl2). rewrite (let_eval _ _ _ _ _ E2), !let_modify.
  set (s3 := set_last_applied _ _).
  destruct (persist_write s3 (save_snapshot (received_snapshot snap s)) (write_snapshot _)) as (p3 & E3 & W3 & Hr3).
  { unfold s3. cbn. by rewrite Hp2. }
  rewrite (let_eval _ _ _ _ _ E3), let_gets. set (s4 := set_persistence p3 s3).
  destruct (persist_write s4 (save_current_term (_current_term s4)) (write_term _) Hr3) as (p4 & E4 & W4 & _).
  rewrite (let_eval _ _ _ _ _ E4). cbn [mmodify fst snd]. split; [done|]. split; [|intros Hn; by apply Hl2, Hl].
  unfold installed. change (_current_term s4) with (_current_term s2) in *.
  rewrite load_current_term_ok, load_snapshot_ok. cbn [_persistence set_snapshot_buffer set_persistence].
  rewrite (save_current_term_ok _ _ _ W4). cbn [store_set_term st_term st_snapshot].
  change (_persistence s4) with p3. rewrite (save_snapshot_ok _ _ _ W3). unfold s4, s3. cbn.
  split_and!; try done; try congruence. rewrite Hc2. cbn. lia.
Qed.

(** *** The whole transfer *)

Lemma transfer_stops rounds target (sl sf : node) :
  chunk_under_way target sl = None → transfer rounds target sl sf = (sl, sf).
Proof. intros H. destruct rounds; cbn [transfer]; [done|]. by rewrite H. Qed.

Lemma transfer_chunk rounds target snap offset (sl sf : node) :
  (offset < data_size snap)%N →
  transfer (S rounds) target (send_chunk target snap offset sl) sf =
  let '(reply, sf') := handle_install_snapshot (snapshot_chunk snap offset sl) sf in
  transfer rounds target (on_install_snapshot_reply target snap (snapshot_chunk snap offset sl) reply sl) sf'.
Proof.
  intros Ho. cbn [transfer]. unfold send_chunk at 1 2. destruct (N.ltb_spec offset (data_size snap)); [|lia].
  unfold chunk_under_way. cbn [send outbox set_outbox]. rewrite last_snoc, N.eqb_refl.
  assert (chunk_answered (send (out_install_snapshot target snap (snapshot_chunk snap offset sl)) sl) = sl) as ->; [|done].
  unfold chunk_answered, send. cbn. rewrite removelast_last. by destruct sl.
Qed.

Lemma reply_resumes target snap offset (sl : node) :
  _state sl = leader →
  on_install_snapshot_reply target snap (snapshot_chunk snap offset sl) (Ret (mk_snap_resp (_current_term sl))) sl =
  send_chunk target snap (chunk_end snap offset sl) sl.
Proof.
  intros Hl. unfold on_install_snapshot_reply. cbn [isr_term]. rewrite N.ltb_irrefl, N.eqb_refl, Hl. done.
Qed.

Lemma retain_log_untouched r1 r2 s s' :
  untouched s s' → is_last_included_index r1 = is_last_included_index r2 →
  is_last_included_term r1 = is_last_included_term r2 → retain_log r1 s' = retain_log r2 s.
Proof.
  intros (_ & _ & _ & Hl & Hc & _) Hi Ht. unfold retain_log, Log.get_log_entry, get_last_log_index. by rewrite Hl, Hc, Hi, Ht.
Qed.

Lemma untouched_trans s1 s2 s3 : untouched s1 s2 → untouched s2 s3 → untouched s1 s3.
Proof. unfold untouched. intros. destruct_and!. split_and!; congruence. Qed.

(** How a transfer ends. *)
Definition transferred (target : N) (snap : snapshot) (sl sf : node) (r : node * node) : Prop :=
  match sm_restore_from_snapshot (state_machine_state snap) (last_included_index snap) (_state_machine sf) with
  | (Ret _, sm) =>
      r.1 = counted target snap sl ∧ installed snap (_current_term sl) sm sf r.2 ∧
      (retain_log (snapshot_chunk snap 0 sl) sf = false → _log r.2 = [])
  | (Throw e, _) =>
      r.1 = sl ∧ _last_applied r.2 = _last_applied sf ∧ _commit_index r.2 = _commit_index sf ∧
      load_snapshot (_persistence r.2) = load_snapshot (_persistence sf)
  | (Undef _, _) => r.1 = sl
  end.

Section rounds.
Context (target : N) (snap : snapshot) (sl sf : node).
Context (is_leader : _state sl = leader) (chunks : (0 < snapshot_chunk_size (_config sl))%N)
  (idle : chunk_under_way target sl = None)
  (storage : reliable (_persistence sf)) (configured : config_ok (_configuration sf)).

(** A chunk that is not the last is answered and buffered. *)
Lemma chunk_taken offset sf0 :
  (offset < data_size snap)%N → (chunk_end snap offset sl < data_size snap)%N →
  untouched sf sf0 → (_current_term sf0 <= _current_term sl)%N → buffered snap offset sf0 →
  ∃ sf1, handle_install_snapshot (snapshot_chunk snap offset sl) sf0 = (Ret (mk_snap_resp (_current_term sl)), sf1) ∧
    untouched sf sf1 ∧ _current_term sf1 = _current_term sl ∧ buffered snap (chunk_end snap offset sl) sf1.
Proof.
  intros Ho He Hu Ht Hb. rewrite handle_install_snapshot_run by done.
  destruct (follows_untouched (_current_term sl) sf0 Ht) as (Hf & Hterm & Hbuf).
  change (is_term (snapshot_chunk snap offset sl)) with (_current_term sl).
  rewrite accept_chunk_extends; [|done|unfold buffered; by rewrite Hbuf].
  destruct (chunk_end_within snap offset sl chunks Ho) as [_ ->].
  destruct (N.leb_spec (data_size snap) (chunk_end snap offset sl)); [lia|]. eexists. split_and!.
  - unfold snapshot_reply, gets, mlet, mreturn. cbn [negb]. do 2 f_equal. f_equal. exact Hterm.
  - by eapply untouched_trans.
  - done.
  - by right.
Qed.

(** The last chunk. *)
Lemma last_chunk_taken offset sf0 :
  (offset < data_size snap)%N → (data_size snap <= chunk_end snap offset sl)%N →
  untouched sf sf0 → (_current_term sf0 <= _current_term sl)%N → buffered snap offset sf0 →
  let '(reply, sf1) := handle_install_snapshot (snapshot_chunk snap offset sl) sf0 in
  transferred target snap sl sf
    (on_install_snapshot_reply target snap (snapshot_chunk snap offset sl) reply sl, sf1).
Proof.
  intros Ho He Hu Ht Hb. rewrite handle_install_snapshot_run by done.
  destruct (follows_untouched (_current_term sl) sf0 Ht) as (Hf & Hterm & Hbuf).
  change (is_term (snapshot_chunk snap offset sl)) with (_current_term sl).
  rewrite accept_chunk_extends; [|done|unfold buffered; by rewrite Hbuf].
  destruct (chunk_end_within snap offset sl chunks Ho) as [Hend ->].
  destruct (N.leb_spec (data_size snap) (chunk_end snap offset sl)) as [_|]; [|lia]. cbn [negb].
  rewrite take_ge by (unfold data_size in *; lia).
  set (s1 := set_snapshot_buffer _ _). pose proof (untouched_trans _ _ s1 Hu Hf) as (Hp & Hsm & Hcf & Hl & Hc & Hla).
  pose proof (install_complete_run snap (snapshot_chunk snap offset sl) s1) as H.
  rewrite Hp, Hcf in H. specialize (H storage configured eq_refl eq_refl). cbv zeta in H. rewrite Hsm in H.
  unfold transferred. unfold mlet.
  destruct (sm_restore_from_snapshot _ _ _) as [[[]|e|w] sm], (install_complete _ _ s1) as [o s2]; cbn [fst snd] in H.
  - destruct H as (-> & Hi & Hlog). change (_current_term s1) with (_current_term (follows (_current_term sl) sf0)) in Hi.
    rewrite Hterm in Hi. destruct Hi as (H1 & H2 & H3 & H4 & H5 & H6 & H7). unfold snapshot_reply, gets. rewrite H4.
    rewrite reply_resumes by done. cbn [fst snd]. split_and!.
    + unfold send_chunk. by destruct (N.ltb_spec (chunk_end snap offset sl) (data_size snap)); [lia|].
    + unfold installed. rewrite Hc in H3. unfold received_snapshot in *. rewrite Hcf in H6. by split_and!.
    + intros Hr. apply Hlog. rewrite <- Hr. apply retain_log_untouched; [|done|done]. by split_and!.
  - destruct H as (-> & H1 & H2 & H3). cbn. split_and!; congruence.
  - by rewrite H.
Qed.

Lemma transfer_from rounds offset sf0 :
  (offset < data_size snap)%N → N.to_nat (data_size snap - offset) ≤ rounds →
  untouched sf sf0 → (_current_term sf0 <= _current_term sl)%N → buffered snap offset sf0 →
  transferred target snap sl sf (transfer rounds target (send_chunk target snap offset sl) sf0).
Proof.
  revert offset sf0. induction rounds as [|rounds IH]; intros offset sf0 Ho Hr Hu Ht Hb; [lia|].
  rewrite transfer_chunk by done. destruct (chunk_end_within snap offset sl chunks Ho) as [He _].
  destruct (N.le_gt_cases (data_size snap) (chunk_end snap offset sl)) as [Hlast|Hmore].
  - pose proof (last_chunk_taken offset sf0 Ho Hlast Hu Ht Hb) as H.
    destruct (handle_install_snapshot _ sf0) as [reply sf1]. rewrite transfer_stops; [exact H|].
    revert H. unfold transferred. destruct (sm_restore_from_snapshot _ _ _) as [[[]|e|w] sm]; cbn [fst snd];
      [intros (-> & _)|intros (-> & _)|intros ->]; exact idle.
  - destruct (chunk_taken offset sf0 Ho Hmore Hu Ht Hb) as (sf1 & -> & Hu1 & Ht1 & Hb1).
    rewrite reply_resumes by done. apply IH; [done|lia|done|lia|done].
Qed.
End rounds.
End completion.


(** A leader of three nodes with a snapshot of the empty key-value store, sent in
    chunks of three bytes. *)
Definition with_chunk_size (n : N) (c : raft_configuration) : raft_configuration :=
  {| election_timeout_min := election_timeout_min c; election_timeout_max := election_timeout_max c;
     heartbeat_interval := heartbeat_interval c; rpc_timeout := rpc_timeout c; append_entries_timeout :=
     append_entries_timeout c; request_vote_timeout := request_vote_timeout c; install_snapshot_timeout :=
     install_snapshot_timeout c; max_entries_per_append := max_entries_per_append c;
     snapshot_threshold_bytes := snapshot_threshold_bytes c; snapshot_chunk_size := n;
     heartbeat_retry_policy := heartbeat_retry_policy c; append_entries_retry_policy :=
     append_entries_retry_policy c; request_vote_retry_policy := request_vote_retry_policy c;
     install_snapshot_retry_policy := install_snapshot_retry_policy c; get_adaptive_timeout_config :=
     get_adaptive_timeout_config c; bootstrap_retry_interval := bootstrap_retry_interval c;
     bootstrap_peer_find_timeout := bootstrap_peer_find_timeout c; quorum_check_interval :=
     quorum_check_interval c; quorum_heartbeat_failure_threshold := quorum_heartbeat_failure_threshold c;
     progress_gossip_interval := progress_gossip_interval c; catch_up_gap_threshold :=
     catch_up_gap_threshold c; catch_up_fetch_max_entries := catch_up_fetch_max_entries c;
     catch_up_fetch_timeout := catch_up_fetch_timeout c; get_application_failure_policy :=
     get_application_failure_policy c; application_retry_max_attempts := application_retry_max_attempts c;
     application_retry_initial_delay := application_retry_initial_delay c; application_retry_max_delay :=
     application_retry_max_delay c; application_retry_backoff_multiplier :=
     application_retry_backoff_multiplier c |}.
Definition transfer_data : snapshot := mk_snapshot 2 1 sample_configuration (get_state kv_initial).
Definition transfer_leader : sample_node_type :=
  let s := set_config (with_chunk_size 3 default_raft_configuration)
    (set_state leader (set_current_term 1 (sample_node 1))) in
  set_persistence (state_of (save_snapshot transfer_data) (_persistence s)) s.


(** A refusal is answered like an acceptance.  When a follower has no buffer in the
    middle of a transfer, because it was restarted or the transfer of another snapshot
    has ended meanwhile, it refuses all remaining chunks; the leader goes on to
    the end and counts the follower, which has nothing of the snapshot. *)
Theorem refused_transfer_is_counted {P SM : Type}
    `{!PersistenceEngine P, !PersistenceEngineOk P, !ReliableEngine P, !StateMachine SM}
    (target : N) (snap : snapshot) (sl sf : node P SM) (offset : N) :
  _state sl = leader → (0 < snapshot_chunk_size (_config sl))%N → chunk_under_way target sl = None →
  (0 < offset < data_size snap)%N → (_current_term sf <= _current_term sl)%N → snapshot_buffer sf = None →
  let '(sl', sf') := transfer (N.to_nat (data_size snap)) target (send_chunk target snap offset sl) sf in
  sl' = counted target snap sl ∧ untouched sf sf'.
Proof.
  intros Hl Hc Hi Ho Ht Hb. assert (N.to_nat (data_size snap - offset) ≤ N.to_nat (data_size snap)) as Hr by lia.
  revert Hr. generalize (N.to_nat (data_size snap)) as rounds. intros rounds. revert offset sf Ho Ht Hb.
  induction rounds as [|rounds IH]; intros offset sf Ho Ht Hb Hr; [lia|].
  rewrite transfer_chunk by lia. rewrite handle_install_snapshot_run by done.
  destruct (follows_untouched (_current_term sl) sf Ht) as (Hf & Hterm & Hbuf).
  change (is_term (snapshot_chunk snap offset sl)) with (_current_term sl).
  assert (accept_chunk (snapshot_chunk snap offset sl) (follows (_current_term sl) sf) = None) as ->.
  { unfold accept_chunk. cbn [is_offset snapshot_chunk]. rewrite Hbuf, Hb. by destruct (N.eqb_spec offset 0); [lia|]. }
  rewrite reply_resumes by done. destruct (chunk_end_within snap offset sl Hc) as [He _]; [lia|].
  destruct (N.le_gt_cases (data_size snap) (chunk_end snap offset sl)) as [Hlast|Hmore].
  - unfold send_chunk. destruct (N.ltb_spec (chunk_end snap offset sl) (data_size snap)); [lia|].
    by rewrite transfer_stops.
  - specialize (IH (chunk_end snap offset sl) (follows (_current_term sl) sf)).
    destruct (transfer rounds _ _ _) as [sl' sf']. destruct IH as [-> Hu]; [lia|lia|congruence|lia|].
    split; [done|]. by eapply untouched_trans.
Qed.

Lemma refused_transfer_is_counted_witness :
  let '(sl', sf') := transfer 8 2 (send_chunk 2 transfer_data 4 transfer_leader) (sample_node 2) in
  sl' = counted 2 transfer_data transfer_leader ∧ untouched (sample_node 2) sf'.
Proof. by apply (refused_transfer_is_counted 2 transfer_data transfer_leader (sample_node 2) 4). Defined.
