(* ===== verification/MembershipProofs.v ===== *)
(** Membership: every change of the voting set goes through the joint configuration
    of its request, learners leave the voters alone and respect the
    capacity of their group, and quorums of successive configurations overlap. *)

From S2P Require Import Prelude Types ConfigEntry Membership Persistence CommitWaiter ConfigSync.
From S2P Require Import Node KvStateMachine Log Roles Sample AppendEntries Apply Election.
From S2P Require Import MembershipChange Frames.

Section membership.
Context {P SM : Type} `{!PersistenceEngine P, !PersistenceEngineOk P, !ReliableEngine P}
  {MM : MembershipManager} {JL : JsonLib}.
Abbreviation node := (node P SM).
Implicit Types s : node.

(** A refused request: an exception for the caller, and nothing else. *)
Definition refused {A} s (r : outcome A * node) : Prop :=
  core r.2 = core s ∧ _config_synchronizer r.2 = _config_synchronizer s ∧
  ∃ p e, resolved r.2 = resolved s ++ [(p, Throw e)].

Lemma make_settled_refused e s : refused s (make_settled (Throw e) s).
Proof. split_and!; [done|done|]. by do 2 eexists. Qed.

(** [entered joint s r]: the joint configuration was appended as the next log
    entry, in memory and on storage, is in force, and the synchronizer is busy
    with the change. *)
Definition entered {A} (joint : cluster_configuration) s (r : outcome A * node) : Prop :=
  let entry := mk_entry (_current_term s) (get_last_log_index s ⊕ 1)
                 (serialize_configuration joint) configuration in
  (∃ a, r.1 = Ret a) ∧ _log r.2 = _log s ++ [entry] ∧
  st_log (abs (_persistence r.2)) = <[e_index entry := entry]> (st_log (abs (_persistence s))) ∧
  _configuration r.2 = joint ∧ change_in_progress r.2 = true ∧
  _current_term r.2 = _current_term s ∧ _state r.2 = _state s ∧ _commit_index r.2 = _commit_index s.

Lemma start_joint_change_enters nodes learners track s :
  reliable (_persistence s) → change_in_progress s = false →
  (∀ i s0, let s1 := track i s0 in core s1 = core s0 ∧ _config_synchronizer s1 = _config_synchronizer s0) →
  entered (mk_config nodes true (Some (_nodes (_configuration s))) learners) s
    (start_joint_change nodes learners track s).
Proof.
  intros Hr Hn Htrack. unfold start_joint_change. rewrite let_gets.
  unfold mlet at 1, make_promise. rewrite let_modify, !let_gets, let_modify.
  set (s1 := with_synchronizer _ _). set (joint := mk_config nodes true _ learners).
  assert (core s1 = core s) as Hc1 by done.
  assert (change_in_progress s1 = true) as Hb1.
  { unfold s1, change_in_progress, with_synchronizer, start_configuration_change. simpl.
    unfold change_in_progress in Hn. by rewrite Hn. }
  change (_nodes (_configuration s1)) with (_nodes (_configuration s)) in joint.
  set (entry := configuration_entry joint s1).
  destruct (Htrack (e_index entry) s1) as [Hct Hst]. set (s2 := track (e_index entry) s1) in *.
  unfold core in Hct. injection Hct; intros. unfold append_and_persist. unfold mlet at 1. rewrite let_modify.
  destruct (persist_write (append_log_entry entry s2) (Persistence.append_log_entry entry)
              (write_entry _)) as (p' & E & W & _).
  { simpl. replace (_persistence s2) with (_persistence s) by congruence. done. }
  rewrite E, let_modify. unfold sync_peer2peer_membership, cluster_members, mlet. simpl.
  assert (entry = mk_entry (_current_term s) (get_last_log_index s ⊕ 1)
            (serialize_configuration joint) configuration) as He by done.
  unfold entered. rewrite <-He. simpl. split_and!; try done; try congruence.
  - by eexists.
  - simpl in W. replace (_persistence s2) with (_persistence s) in W by congruence.
    by rewrite (append_log_entry_ok _ _ _ W).
  - unfold change_in_progress in *. simpl. by rewrite Hst.
Qed.

Lemma entered_modify {A B} joint s (r : outcome A * node) (f : node → node) (b : B) :
  (∀ s0, core (f s0) = core s0 ∧ _config_synchronizer (f s0) = _config_synchronizer s0) →
  entered joint s r → entered joint s (Ret b, f r.2).
Proof.
  intros Hf (_ & H1 & H2 & H3 & H4 & H5 & H6 & H7). destruct (Hf r.2) as [Hc Hs].
  unfold core in Hc. injection Hc; intros. unfold entered, change_in_progress in *.
  cbn [fst snd]. split; [by eexists|]. rewrite Hs. split_and!; congruence.
Qed.

Inductive voting_change : Type := change_add (n : N) | change_remove (n : N) | change_promote (n : N).
Definition request_change (c : voting_change) : M node N :=
  match c with
  | change_add n => add_server n
  | change_remove n => remove_server n
  | change_promote n => promote_to_voter n
  end.

(** A voter of the configuration, or of the one it replaces. *)
Definition is_member (n : N) (cfg : cluster_configuration) : Prop :=
  n ∈ _nodes cfg ∨ _is_joint_consensus cfg = true ∧ ∃ old, _old_nodes cfg = Some old ∧ n ∈ old.

(** When a request is granted. *)
Definition grantable (c : voting_change) s : Prop :=
  _state s = leader ∧ change_in_progress s = false ∧
  match c with
  | change_add n => ¬ is_member n (_configuration s) ∧ validate_new_node n = true
  | change_remove n => is_member n (_configuration s) ∧ 1 < length (_nodes (_configuration s))
  | change_promote n =>
      n ∈ _learners (_configuration s) ∧ group_has_promotion_capacity (placement_of n s) s = true
  end.

(** The joint configuration that a request leads to. *)
Definition joint_configuration (c : voting_change) (cfg : cluster_configuration) : cluster_configuration :=
  let joint nodes learners := mk_config nodes true (Some (_nodes cfg)) learners in
  match c with
  | change_add n => joint (_nodes cfg ++ [n]) (_learners cfg)
  | change_remove n => joint (filter (λ x, x ≠ n) (_nodes cfg)) (_learners cfg)
  | change_promote n => joint (_nodes cfg ++ [n]) (filter (λ x, x ≠ n) (_learners cfg))
  end.

Definition answered (c : voting_change) s (r : outcome N * node) : Prop :=
  grantable c s ∧ entered (joint_configuration c (_configuration s)) s r ∨ ¬ grantable c s ∧ refused s r.

Lemma not_grantable c s e :
  ¬ grantable c s → answered c s (make_settled (Throw e) s).
Proof. intros H. right. split; [done|apply make_settled_refused]. Qed.

Lemma leader_state_eq st : is_leader_state st = true ↔ st = leader.
Proof. by destruct st. Qed.

Lemma add_server_answered `{!MembershipManagerOk} n s :
  reliable (_persistence s) → answered (change_add n) s (add_server n s).
Proof.
  intros Hr. unfold add_server. rewrite let_get. pose proof (leader_state_eq (_state s)) as Hl.
  pose proof (is_node_in_configuration_spec n (_configuration s)) as Hin.
  destruct (is_leader_state (_state s)); cbn [negb]; [|apply not_grantable; intros (? & _); naive_solver].
  destruct (change_in_progress s) eqn:Ep; [apply not_grantable; intros (_ & ? & _); congruence|].
  destruct (is_node_in_configuration n (_configuration s));
    [apply not_grantable; intros (_ & _ & Hn & _); unfold is_member in Hn; naive_solver|].
  destruct (validate_new_node n) eqn:Ev; cbn [negb]; [|apply not_grantable; intros (_ & _ & _ & ?); congruence].
  left. split; [|by apply start_joint_change_enters].
  split_and!; [naive_solver|done| |done]. unfold is_member. naive_solver.
Qed.

Lemma remove_server_answered `{!MembershipManagerOk} n s :
  reliable (_persistence s) → answered (change_remove n) s (remove_server n s).
Proof.
  intros Hr. unfold remove_server. rewrite let_get. pose proof (leader_state_eq (_state s)) as Hl.
  pose proof (is_node_in_configuration_spec n (_configuration s)) as Hin.
  destruct (is_leader_state (_state s)); cbn [negb]; [|apply not_grantable; intros (? & _); naive_solver].
  destruct (change_in_progress s) eqn:Ep; [apply not_grantable; intros (_ & ? & _); congruence|].
  destruct (is_node_in_configuration n (_configuration s)); cbn [negb];
    [|apply not_grantable; intros (_ & _ & Hn & _); unfold is_member in Hn; naive_solver].
  destruct (N.leb_spec (N.of_nat (length (_nodes (_configuration s)))) 1);
    [apply not_grantable; intros (_ & _ & _ & ?); lia|].
  left. split; [split_and!; [naive_solver|done|unfold is_member; naive_solver|lia]|].
  pose proof (start_joint_change_enters (filter (λ x, x ≠ n) (_nodes (_configuration s)))
    (_learners (_configuration s)) (λ _ s, s) s Hr Ep (λ _ _, conj eq_refl eq_refl)) as He.
  pose proof He as ([a Ea] & _). unfold mlet at 1.
  destruct (start_joint_change _ _ _ s) as [o s1]; simpl in Ea; subst o.
  by apply (entered_modify _ s _ (λ s, set_unresponsive_followers (_unresponsive_followers s ∖ {[n]}) s) a) in He.
Qed.

Lemma promote_to_voter_answered n s :
  reliable (_persistence s) → answered (change_promote n) s (promote_to_voter n s).
Proof.
  intros Hr. unfold promote_to_voter. rewrite let_get. pose proof (leader_state_eq (_state s)) as Hl.
  pose proof (contains_id_spec (_learners (_configuration s)) n) as Hin.
  destruct (is_leader_state (_state s)); cbn [negb]; [|apply not_grantable; intros (? & _); naive_solver].
  destruct (change_in_progress s) eqn:Ep; [apply not_grantable; intros (_ & ? & _); congruence|].
  destruct (contains_id (_learners (_configuration s)) n); cbn [negb];
    [|apply not_grantable; intros (_ & _ & Hn & _); naive_solver].
  destruct (group_has_promotion_capacity _ s) eqn:Ec; cbn [negb];
    [|apply not_grantable; intros (_ & _ & _ & ?); congruence].
  left. split; [|by apply start_joint_change_enters]. split_and!; [naive_solver|done|naive_solver|done].
Qed.

Lemma request_change_answered `{!MembershipManagerOk} c s :
  reliable (_persistence s) → answered c s (request_change c s).
Proof.
  destruct c; [apply add_server_answered|apply remove_server_answered|apply promote_to_voter_answered].
Qed.

(** ** Learners *)

(** [appended cfg s r]: the configuration was appended as the next entry and is
    in force; nothing else the voters depend on changed. *)
Definition appended {A} (cfg : cluster_configuration) s (r : outcome A * node) : Prop :=
  let entry := mk_entry (_current_term s) (get_last_log_index s ⊕ 1)
                 (serialize_configuration cfg) configuration in
  (∃ a, r.1 = Ret a) ∧ _log r.2 = _log s ++ [entry] ∧
  st_log (abs (_persistence r.2)) = <[e_index entry := entry]> (st_log (abs (_persistence s))) ∧
  _configuration r.2 = cfg ∧ _placement_map r.2 = _placement_map s ∧ _topology r.2 = _topology s.

Lemma append_plain_configuration_appends cfg track s :
  reliable (_persistence s) → config_ok cfg →
  (∀ i s0, let s1 := track i s0 in
     core s1 = core s0 ∧ _placement_map s1 = _placement_map s0 ∧ _topology s1 = _topology s0) →
  appended cfg s (append_plain_configuration cfg track s).
Proof.
  intros Hr Hok Htrack. unfold append_plain_configuration. rewrite let_gets, let_modify.
  set (entry := configuration_entry cfg s).
  destruct (Htrack (e_index entry) s) as (Hct & Hpl & Htop). set (s1 := track _ s) in *.
  unfold core in Hct. injection Hct; intros. unfold append_and_persist. unfold mlet at 1. rewrite let_modify.
  destruct (persist_write (append_log_entry entry s1) (Persistence.append_log_entry entry)
              (write_entry _)) as (p' & E & W & _).
  { simpl. replace (_persistence s1) with (_persistence s) by congruence. done. }
  rewrite E, let_modify. set (s2 := set_configuration cfg _).
  destruct (cluster_members_ok s2 Hok) as [ms Hms].
  unfold sync_peer2peer_membership, mlet, make_promise. rewrite Hms. simpl.
  assert (entry = mk_entry (_current_term s) (get_last_log_index s ⊕ 1)
            (serialize_configuration cfg) configuration) as He by done.
  unfold appended. rewrite <-He. simpl. split_and!; try done; try congruence.
  - by eexists.
  - simpl in W. replace (_persistence s1) with (_persistence s) in W by congruence.
    by rewrite (append_log_entry_ok _ _ _ W).
Qed.

Inductive learner_change : Type := learner_add (n : N) | learner_remove (n : N).
Definition request_learner_change (c : learner_change) : M node N :=
  match c with learner_add n => add_learner n | learner_remove n => remove_learner n end.

(** The capacity of a placement group: its learner capacity, or else its target
    for voters and learners together. *)
Definition within_capacity (group : string) s : Prop :=
  ∃ target, find_group_target group s = Some target ∧
    match learner_capacity target with
    | Some capacity => (learner_count_in_group group s <= capacity)%N
    | None => (voting_and_learner_count_in_group group s <= target_count target)%N
    end.

Lemma count_if_snoc f l n : count_if f (l ++ [n]) = (count_if f l + if f n then 1 else 0)%N.
Proof.
  unfold count_if. rewrite List.filter_app, length_app. simpl. destruct (f n); simpl; lia.
Qed.

Lemma add_learner_within_capacity n s s' :
  group_has_admission_capacity (placement_of n s) s = true →
  _placement_map s' = _placement_map s → _topology s' = _topology s →
  _configuration s' = set_learners (_learners (_configuration s) ++ [n]) (_configuration s) →
  within_capacity (placement_of n s) s'.
Proof.
  intros Hcap Hpl Htop Hcfg. unfold group_has_admission_capacity, within_capacity, find_group_target in *.
  rewrite Htop. destruct (List.find _ (_topology s)) as [target|]; [|done].
  exists target. split; [done|].
  unfold voting_and_learner_count_in_group, learner_count_in_group, voting_count_in_group, placement_of in *.
  rewrite Hpl, Hcfg. simpl. rewrite count_if_snoc, String.eqb_refl.
  destruct (learner_capacity target); apply N.ltb_lt in Hcap; lia.
Qed.

Lemma request_learner_change_cases c s :
  reliable (_persistence s) → config_ok (_configuration s) →
  refused s (request_learner_change c s) ∨
  _state s = leader ∧ ∃ learners,
    appended (set_learners learners (_configuration s)) s (request_learner_change c s) ∧
    (∀ n, c = learner_add n → within_capacity (placement_of n s) (request_learner_change c s).2).
Proof.
  intros Hr Hok.
  assert (is_leader_state (_state s) = true → _state s = leader) as Hlead by (by destruct (_state s)).
  destruct c as [n|n]; cbn [request_learner_change].
  - unfold add_learner. rewrite let_get.
    destruct (is_leader_state (_state s)) eqn:El; cbn [negb]; [|left; apply make_settled_refused].
    destruct (_ || _); [left; apply make_settled_refused|].
    destruct (group_has_admission_capacity (placement_of n s) s) eqn:Ecap; cbn [negb];
      [right|left; apply make_settled_refused].
    split; [auto|]. eexists.
    pose proof (append_plain_configuration_appends
      (set_learners (_learners (_configuration s) ++ [n]) (_configuration s)) (track_new_server n) s Hr Hok
      (λ _ _, conj eq_refl (conj eq_refl eq_refl))) as Ha.
    split; [exact Ha|]. intros n' [= <-]. destruct Ha as (_ & _ & _ & Hcfg & Hpl & Htop).
    by apply add_learner_within_capacity.
  - unfold remove_learner. rewrite let_get.
    destruct (is_leader_state (_state s)) eqn:El; cbn [negb]; [|left; apply make_settled_refused].
    destruct (contains_id _ n); cbn [negb]; [right|left; apply make_settled_refused].
    split; [auto|]. eexists. split; [by apply append_plain_configuration_appends|done].
Qed.
End membership.

(** ** Results *)


Definition sample_chief : sample_node_type := set_state leader (sample_node 1).

Lemma sample_chief_grants : grantable (change_add 4) sample_chief.
Proof.
  split_and!; [done|done| |done]. intros [H|[H _]]; [|done]. change (4 ∈ [1; 2; 3])%N in H. set_solver.
Qed.


(** Learners: adding or removing a learner is either refused, with nothing
    changed, or appends a configuration in which the voters, the joint flag and
    the old voters are those of the current one; an added learner's placement
    group stays within its capacity. *)
Theorem learner_changes_leave_voters {P SM : Type}
    `{!PersistenceEngine P, !PersistenceEngineOk P, !ReliableEngine P}
    {MM : MembershipManager} {JL : JsonLib} (c : learner_change) (s : node P SM) :
  reliable (_persistence s) → config_ok (_configuration s) →
  let s' := state_of (request_learner_change c) s in
  refused s (request_learner_change c s) ∨
  (_state s = leader ∧ _nodes (_configuration s') = _nodes (_configuration s) ∧
   _is_joint_consensus (_configuration s') = _is_joint_consensus (_configuration s) ∧
   _old_nodes (_configuration s') = _old_nodes (_configuration s) ∧
   appended (_configuration s') s (request_learner_change c s) ∧
   ∀ n, c = learner_add n → within_capacity (placement_of n s) s').
Proof.
  intros Hr Hok. cbv zeta.
  destruct (request_learner_change_cases c s Hr Hok) as [?|(Hl & ls & Ha & Hcap)]; [by left|right].
  pose proof Ha as (_ & _ & _ & Hcfg & _). unfold state_of. rewrite Hcfg. by split_and!.
Qed.

Definition sample_provisioned : sample_node_type :=
  set_topology [mk_target "zone" 5 (Some 1%N)] (set_placement_map {[ 4%N := "zone"%string ]} sample_chief).

Lemma learner_changes_leave_voters_witness :
  _learners (_configuration (state_of (request_learner_change (learner_add 4)) sample_provisioned)) = [4%N] ∧
  _nodes (_configuration (state_of (request_learner_change (learner_add 4)) sample_provisioned)) = [1; 2; 3]%N.
Proof.
  split; [vm_compute; reflexivity|].
  destruct (learner_changes_leave_voters (learner_add 4) sample_provisioned) as [H|H].
  - intros name. reflexivity.
  - intros H. discriminate H.
  - exfalso. destruct H as (H & _). revert H. vm_compute. discriminate.
  - exact (proj1 (proj2 H)).
Defined.

(** C13. Quorums overlap across a change: when a leader in a joint configuration
    may commit an index and some node, in a configuration with the joint one's
    old or new voters, may commit an index too, a voter of that configuration
    acknowledged both; so no index is committed without a node that knows the
    other configuration's commits. *)
Theorem joint_quorum_overlaps {P SM : Type} (n1 n2 : N) (s1 s2 : node P SM) (old : list N) :
  joint_old_nodes (_configuration s1) = Some old → joint_old_nodes (_configuration s2) = None →
  _nodes (_configuration s2) = old ∨ _nodes (_configuration s2) = _nodes (_configuration s1) →
  has_commit_quorum n1 s1 = true → has_commit_quorum n2 s2 = true →
  let acked n s i := i = _node_id s ∨ ∃ m, _match_index s !! i = Some m ∧ (n <= m)%N in
  ∃ i, i ∈ _nodes (_configuration s2) ∧ acked n1 s1 i ∧ acked n2 s2 i.
Proof.
  intros Ho Hn Hv. unfold has_commit_quorum. rewrite Ho, Hn.
  intros [H1 H2]%andb_true_iff H3. cbv zeta.
  assert (has_majority (count_acks n1 s1 (_nodes (_configuration s2))) (_nodes (_configuration s2)) = true)
    as H4 by (by destruct Hv as [-> | ->]).
  unfold has_majority, count_acks in H3, H4. apply N.ltb_lt in H3, H4.
  set (ack (n : N) (s : node P SM) (i : N) := ((i =? _node_id s)%N ||
    match _match_index s !! i with Some m => (n <=? m)%N | None => false end)).
  destruct (filter_overlap (λ i, ack n1 s1 i = true) (λ i, ack n2 s2 i = true)
              (_nodes (_configuration s2)) ltac:(unfold ack; lia)) as (i & Hi & Hi1 & Hi2).
  exists i. split; [done|].
  assert (∀ n (s : node P SM), ((i =? _node_id s)%N ||
    match _match_index s !! i with Some m => (n <=? m)%N | None => false end) = true →
    i = _node_id s ∨ ∃ m, _match_index s !! i = Some m ∧ (n <= m)%N) as Hack.
  { intros n s [?%N.eqb_eq|H]%orb_true_iff; [by left|right]. case_match; [|done].
    apply N.leb_le in H. eauto. }
  eauto.
Qed.

Definition sample_joint_chief : sample_node_type :=
  set_match_index {[ 2%N := 7%N; 4%N := 7%N ]}
    (set_configuration (mk_config [1; 2; 3; 4]%N true (Some [1; 2; 3]%N) []) sample_chief).
Definition sample_old_chief : sample_node_type :=
  set_match_index {[ 2%N := 6%N; 3%N := 6%N ]} sample_chief.

Lemma joint_quorum_overlaps_witness :
  ∃ i, i ∈ [1; 2; 3]%N ∧
    (i = 1%N ∨ ∃ m, _match_index sample_joint_chief !! i = Some m ∧ (7 <= m)%N).
Proof.
  destruct (joint_quorum_overlaps 7 6 sample_joint_chief sample_old_chief [1; 2; 3]%N eq_refl eq_refl
    (or_introl eq_refl) eq_refl eq_refl) as (i & Hi & H1 & _).
  exists i. split; [exact Hi|exact H1].
Defined.
