(* ===== verification/ClientProofs.v ===== *)
(** Clients and the leader: a leader only appends to its log, commands are stored
    before they count, sessions detect answered duplicates (and miss unanswered
    ones), reads wait for a majority, and provisioning stays within the deficit. *)

From S2P Require Import Prelude Types ConfigEntry Membership Persistence CommitWaiter ConfigSync.
From S2P Require Import Node KvStateMachine Log Roles Sample AppendEntries Apply Election Snapshot.
From S2P Require Import Replication MembershipChange Client QuorumLoop Frames.

(** ** Leader Append-Only *)

Section append_only.
Context {P SM : Type} `{!PersistenceEngine P, !StateMachine SM} {MM : MembershipManager} {JL : JsonLib}.
Abbreviation node := (node P SM).
Implicit Types s : node.

Definition grows s s' : Prop := _log s `prefix_of` _log s'.

#[global] Instance grows_preorder : PreOrder grows.
Proof. split; [intros s|intros s1 s2 s3]; unfold grows; [reflexivity|apply transitivity]. Qed.

Lemma grows_same s s' : _log s' = _log s → grows s s'.
Proof. unfold grows. intros ->. reflexivity. Qed.

Lemma grows_core s s' : core s' = core s → grows s s'.
Proof. intros H. apply grows_same. unfold core in H. by injection H. Qed.

Lemma grows_become_follower t s : grows s (become_follower t s).
Proof. apply grows_same. unfold become_follower. by destruct (is_leader_state (_state s)). Qed.

(** Discharges the updates that leave the log alone. *)
Ltac grows_auto :=
  frame_auto; intros;
  try (by apply grows_same);
  try (apply grows_core; solve [auto with core]);
  try (by apply grows_become_follower).

Lemma grows_append_log_entry e s : grows s (append_log_entry e s).
Proof. unfold grows. cbn. by apply prefix_app_r. Qed.

Lemma grows_append_and_persist e : steps grows (append_and_persist e).
Proof. unfold append_and_persist. grows_auto. apply grows_append_log_entry. Qed.
#[local] Hint Resolve grows_append_and_persist : steps.

Lemma grows_sync : steps grows (@sync_peer2peer_membership P SM).
Proof. apply steps_sync; [apply _|]. intros. by apply grows_same. Qed.
#[local] Hint Resolve grows_sync : steps.

Lemma grows_retry_apply n i e : steps grows (retry_apply n i e).
Proof. induction n; cbn [retry_apply]; unfold notify_waiter; grows_auto. Qed.
#[local] Hint Resolve grows_retry_apply : steps.

Lemma grows_apply_next : steps grows apply_next.
Proof.
  unfold apply_next, apply_no_op, apply_configuration, apply_command, apply_failed, notify_waiter,
    append_final_configuration.
  grows_auto. cbv zeta. case_match; [|by apply grows_core, core_forget_untracked].
  etrans; [|apply grows_become_follower]. by apply grows_core, core_forget_untracked.
Qed.
#[local] Hint Resolve grows_apply_next : steps.

Lemma grows_apply_loop fuel applied limit : steps grows (apply_loop fuel applied limit).
Proof. revert applied. induction fuel; intros applied; cbn [apply_loop]; grows_auto. Qed.
#[local] Hint Resolve grows_apply_loop : steps.

Lemma grows_commit_loop l : steps grows (commit_loop l).
Proof. induction l; cbn [commit_loop]; unfold apply_committed_entries; grows_auto. Qed.
#[local] Hint Resolve grows_commit_loop : steps.

Lemma grows_advance_commit_index : steps grows advance_commit_index.
Proof. unfold advance_commit_index. grows_auto. Qed.
#[local] Hint Resolve grows_advance_commit_index : steps.

Lemma grows_replicate_to_followers : steps grows replicate_to_followers.
Proof. unfold replicate_to_followers. grows_auto. Qed.
#[local] Hint Resolve grows_replicate_to_followers : steps.

Lemma grows_submit_command command timeout : steps grows (submit_command command timeout).
Proof. unfold submit_command. grows_auto. apply grows_append_log_entry. Qed.
#[local] Hint Resolve grows_submit_command : steps.

Lemma grows_start_joint_change nodes learners track :
  (∀ i s, _log (track i s) = _log s) → steps grows (start_joint_change nodes learners track).
Proof. intros H. unfold start_joint_change. grows_auto. Qed.

Lemma grows_append_plain_configuration cfg track :
  (∀ i s, _log (track i s) = _log s) → steps grows (append_plain_configuration cfg track).
Proof. intros H. unfold append_plain_configuration. grows_auto. Qed.

Lemma grows_add_server n : steps grows (add_server n).
Proof. unfold add_server. grows_auto. by apply grows_start_joint_change. Qed.
Lemma grows_remove_server n : steps grows (remove_server n).
Proof. unfold remove_server. grows_auto. by apply grows_start_joint_change. Qed.
Lemma grows_promote_to_voter n : steps grows (promote_to_voter n).
Proof. unfold promote_to_voter. grows_auto. by apply grows_start_joint_change. Qed.
Lemma grows_add_learner n : steps grows (add_learner n).
Proof. unfold add_learner. grows_auto. by apply grows_append_plain_configuration. Qed.
Lemma grows_remove_learner n : steps grows (remove_learner n).
Proof. unfold remove_learner. grows_auto. by apply grows_append_plain_configuration. Qed.
#[local] Hint Resolve grows_add_server grows_remove_server grows_promote_to_voter grows_add_learner
  grows_remove_learner : steps.

Lemma grows_read_state : steps grows read_state.
Proof. unfold read_state. grows_auto. Qed.
#[local] Hint Resolve grows_read_state : steps.

Lemma grows_promote_loop group n : steps grows (promote_loop group n).
Proof. induction n; cbn [promote_loop]; grows_auto. Qed.
#[local] Hint Resolve grows_promote_loop : steps.

Lemma grows_provision_loop provision group n l s : grows s (provision_loop provision group n l s).
Proof.
  revert l s. induction n as [|n IH]; intros l s; cbn [provision_loop]; [done|].
  assert (∀ r, grows s (provision_slot provision group r s)) as Hslot.
  { intros r. apply grows_same. unfold provision_slot. cbv zeta. by repeat case_match. }
  destruct l as [|a l]; (etrans; [apply Hslot|apply IH]).
Qed.

Lemma grows_run_quorum_assessment provision report :
  steps grows (run_quorum_assessment provision report).
Proof. unfold run_quorum_assessment, assess_group. grows_auto; apply grows_provision_loop. Qed.

(** What a leader does of its own accord or on behalf of clients, and the
    responses it handles. *)
Inductive leader_op : Type :=
  | lo_submit (command : bytes) (timeout : Z)
  | lo_read
  | lo_read_acks (term : N) (responses : list append_entries_response)
  | lo_replicate
  | lo_append_response (target next_idx : N) (sent : list log_entry)
      (response : outcome append_entries_response)
  | lo_heartbeat_response (target : N) (response : outcome append_entries_response)
  | lo_snapshot_reply (target : N) (snap : snapshot) (request : install_snapshot_request)
      (reply : outcome install_snapshot_response)
  | lo_add_server (n : N) | lo_remove_server (n : N) | lo_promote (n : N)
  | lo_add_learner (n : N) | lo_remove_learner (n : N)
  | lo_quorum (provision : string → option N → bool) (report : outcome quorum_health)
  | lo_request_vote (request : request_vote_request)
  | lo_request_pre_vote (request : request_vote_request).

Definition leader_step (o : leader_op) s : node :=
  match o with
  | lo_submit command timeout => state_of (submit_command command timeout) s
  | lo_read => state_of read_state s
  | lo_read_acks term responses => state_of (on_read_acks term responses) s
  | lo_replicate => state_of replicate_to_followers s
  | lo_append_response target next_idx sent response =>
      state_of (on_append_entries_response target next_idx sent response) s
  | lo_heartbeat_response target response => on_heartbeat_response target response s
  | lo_snapshot_reply target snap request reply => on_install_snapshot_reply target snap request reply s
  | lo_add_server n => state_of (add_server n) s
  | lo_remove_server n => state_of (remove_server n) s
  | lo_promote n => state_of (promote_to_voter n) s
  | lo_add_learner n => state_of (add_learner n) s
  | lo_remove_learner n => state_of (remove_learner n) s
  | lo_quorum provision report => state_of (run_quorum_assessment provision report) s
  | lo_request_vote request => state_of (handle_request_vote request) s
  | lo_request_pre_vote request => state_of (handle_request_pre_vote request) s
  end.

Lemma grows_leader_step o s : grows s (leader_step o s).
Proof.
  destruct o; cbn [leader_step]; unfold state_of.
  - apply grows_submit_command.
  - apply grows_read_state.
  - apply (λ H : steps grows (on_read_acks term responses), H s). unfold on_read_acks. grows_auto.
  - apply grows_replicate_to_followers.
  - apply (λ H : steps grows (on_append_entries_response target next_idx sent response), H s).
    unfold on_append_entries_response. grows_auto.
  - unfold on_heartbeat_response. cbv zeta. repeat case_match; try (by apply grows_same);
      apply grows_become_follower.
  - unfold on_install_snapshot_reply. repeat case_match; try done;
      [apply grows_become_follower|apply grows_core, core_send_chunk].
  - apply grows_add_server.
  - apply grows_remove_server.
  - apply grows_promote_to_voter.
  - apply grows_add_learner.
  - apply grows_remove_learner.
  - apply grows_run_quorum_assessment.
  - apply (λ H : steps grows (handle_request_vote request), H s).
    unfold handle_request_vote, refuse_vote, grant_vote. grows_auto.
  - apply (λ H : steps grows (handle_request_pre_vote request), H s).
    unfold handle_request_pre_vote, refuse_vote. grows_auto.
Qed.

(** Leader Append-Only: whatever sequence of client requests, responses,
    membership changes, quorum assessments and vote requests a node handles,
    whether or not each of them succeeds and even when one deposes it, the log it
    started with is a prefix of the log it ends with.  (Requests of another
    leader, and compaction, are what may cut a log; they are not among these.) *)
Theorem leader_only_appends (ops : list leader_op) s :
  _log s `prefix_of` _log (foldl (λ s o, leader_step o s) s ops).
Proof.
  revert s. induction ops as [|o ops IH]; intros s; simpl; [reflexivity|].
  etrans; [apply (grows_leader_step o s)|apply IH].
Qed.
End append_only.

(** ** Sessions and reads *)

Section clients.
Context {P SM : Type} `{!PersistenceEngine P, !StateMachine SM} {MM : MembershipManager} {JL : JsonLib}.
Abbreviation node := (node P SM).
Implicit Types s : node.

(** What [read_state] waits for on a leader with other voters. *)
Lemma read_state_waits s t acks s' :
  read_state s = (Ret (read_waiting t acks), s') →
  is_leader_state (_state s) = true ∧ t = _current_term s ∧
  acks = required_follower_acks (length (filter (λ n, n ≠ _node_id s) (_nodes (_configuration s)))).
Proof.
  unfold read_state. rewrite let_get. destruct (is_leader_state _); cbn [negb]; [|done].
  case_match; [by unfold make_settled, mlet; cbn|].
  rewrite (let_eval _ _ _ _ _ (mfor_modify _ _ _)). by intros [= <- <- <-].
Qed.

(** Leaving out one of distinct voters leaves one fewer. *)
Lemma length_filter_ne (x : N) l :
  NoDup l → x ∈ l → S (length (filter (λ n, n ≠ x) l)) = length l.
Proof.
  induction 1 as [|y l Hy Hl IH]; [by intros ?%elem_of_nil|].
  rewrite elem_of_cons, filter_cons. intros [->|Hx].
  - rewrite decide_False by auto. simpl. f_equal. clear IH Hl.
    induction l as [|z l IH]; [done|]. apply not_elem_of_cons in Hy as [Hz Hy].
    rewrite filter_cons, decide_True by auto. simpl. by rewrite IH.
  - rewrite decide_True by (intros ->; done). simpl. by rewrite IH.
Qed.

(** Two majorities of the same voters share one. *)
Lemma majorities_meet (voters q1 q2 : list N) :
  NoDup q1 → NoDup q2 → q1 ⊆ voters → q2 ⊆ voters →
  has_majority (N.of_nat (length q1)) voters = true →
  has_majority (N.of_nat (length q2)) voters = true → ∃ n, n ∈ q1 ∧ n ∈ q2.
Proof.
  unfold has_majority. intros Hd1 Hd2 Hs1 Hs2 H1%N.ltb_lt H2%N.ltb_lt.
  destruct (decide (Exists (λ n, n ∈ q2) q1)) as [H|H]; [by apply Exists_exists in H|].
  exfalso. assert (NoDup (q1 ++ q2)) as Hd.
  { apply NoDup_app. split; [done|]. split; [|done]. intros n Hn Hn2.
    apply H, Exists_exists. eauto. }
  assert (length (q1 ++ q2) ≤ length voters) as Hle.
  { apply submseteq_length, NoDup_submseteq; [done|]. intros n [?|?]%elem_of_app; auto. }
  rewrite length_app in Hle. lia.
Qed.

(** The acknowledgements a read waits for cover a majority: when a leader that
    is one of the distinct voters of a plain configuration starts a read, then
    the leader together with any distinct followers that make up the number of
    acknowledgements awaited meets every majority of the voters. So no other
    node can have been elected in a later term by voters that all stayed out of
    the acknowledgement. *)
Theorem read_quorum_meets_majorities s t acks s' (repliers quorum : list N) :
  read_state s = (Ret (read_waiting t acks), s') →
  NoDup (_nodes (_configuration s)) →
  _node_id s ∈ _nodes (_configuration s) →
  NoDup repliers →
  repliers ⊆ filter (λ n, n ≠ _node_id s) (_nodes (_configuration s)) →
  (acks ≤ N.of_nat (length repliers))%N →
  NoDup quorum → quorum ⊆ _nodes (_configuration s) →
  has_majority (N.of_nat (length quorum)) (_nodes (_configuration s)) = true →
  ∃ n, n ∈ _node_id s :: repliers ∧ n ∈ quorum.
Proof.
  intros (_ & _ & ->)%read_state_waits Hnd Hid Hr Hsub Hacks Hq Hqs Hmaj.
  apply (majorities_meet (_nodes (_configuration s))); [|done| |done| |done].
  - apply NoDup_cons. split; [|done]. intros H%Hsub%list_elem_of_filter. by destruct H.
  - intros n [->|H%Hsub%list_elem_of_filter]%elem_of_cons; [done|]. by destruct H.
  - pose proof (length_filter_ne _ _ Hnd Hid) as Hlen. unfold required_follower_acks in Hacks.
    unfold has_majority. apply N.ltb_lt. simpl.
    pose proof (N.div_mod' (N.of_nat (length (filter (λ n, n ≠ _node_id s)
      (_nodes (_configuration s)))) + 1) 2).
    pose proof (N.mod_lt (N.of_nat (length (filter (λ n, n ≠ _node_id s)
      (_nodes (_configuration s)))) + 1) 2). lia.
Qed.

(** No session submission completes: whenever the session table lets a request
    of a leader through, [submit_command_with_session] does not return a future.
    It calls the destructor of its lock guard by hand, and the guard's own
    destruction then unlocks a mutex the thread does not own. *)
Theorem session_submission_never_returns s client_id serial_number command timeout :
  is_leader_state (_state s) = true →
  (check_session client_id serial_number s).1 = session_submit →
  ∀ future, result_of (submit_command_with_session client_id serial_number command timeout) s
            ≠ Ret future.
Proof.
  intros Hl Hc future. unfold submit_command_with_session, result_of.
  rewrite let_gets, Hl. cbn [negb]. unfold mlet.
  destruct (check_session client_id serial_number s) as [v s1]. simpl in Hc. subst v.
  by destruct (submit_command command timeout s1) as [[]].
Qed.

End clients.

(** ** Provisioning *)

Section provisioning.
Context {P SM : Type} `{!PersistenceEngine P, !StateMachine SM} {MM : MembershipManager} {JL : JsonLib}.
Abbreviation node := (node P SM).
Implicit Types s : node.

Definition same_pending s s' : Prop := _pending_provisions s' = _pending_provisions s.

#[global] Instance same_pending_preorder : PreOrder same_pending.
Proof. split; [done|]. intros s1 s2 s3 H1 H2. unfold same_pending in *. congruence. Qed.

Ltac pending_auto := frame_auto; intros; try done.

Lemma pending_sync : steps same_pending (@sync_peer2peer_membership P SM).
Proof. by apply steps_sync; [apply _|]. Qed.
#[local] Hint Resolve pending_sync : steps.

Lemma pending_promote_to_voter n : steps same_pending (promote_to_voter n).
Proof. unfold promote_to_voter, start_joint_change, append_and_persist. pending_auto. Qed.
#[local] Hint Resolve pending_promote_to_voter : steps.

Lemma pending_promote_loop group n : steps same_pending (promote_loop group n).
Proof. induction n; cbn [promote_loop]; pending_auto. Qed.

Lemma promote_loop_remaining group n s r s' :
  promote_loop group n s = (Ret r, s') → r ≤ n.
Proof.
  revert s. induction n as [|n IH]; intros s; cbn [promote_loop]; [by intros [= <- _]|].
  rewrite let_gets. case_match; [|by intros [= <- _]].
  unfold mlet. destruct (promote_to_voter _ s) as [[]]; [|done..]. intros Hr%IH. lia.
Qed.

(** One slot adds at most one pending provision, in its own group. *)
Lemma provision_slot_pending provision group replacing s :
  is_u64 (pending_provisions group s + 1) →
  (pending_provisions group s ≤
   pending_provisions group (provision_slot provision group replacing s) ≤
   pending_provisions group s + 1)%N ∧
  ∀ g, g ≠ group →
    pending_provisions g (provision_slot provision group replacing s) = pending_provisions g s.
Proof.
  intros Hu. unfold provision_slot. cbv zeta.
  assert (pending_provisions group s ⊕ 1 = pending_provisions group s + 1)%N as Hadd
    by (by apply u64_add_small).
  set (s1 := set_pending_replacing _ _).
  assert (pending_provisions group s1 = pending_provisions group s + 1)%N as H1.
  { unfold s1, pending_provisions at 1. simpl. by rewrite lookup_insert_eq. }
  assert (∀ g, g ≠ group → pending_provisions g s1 = pending_provisions g s) as H2.
  { intros g Hg. unfold s1, pending_provisions. simpl. by rewrite lookup_insert_ne. }
  destruct (provision group replacing); [split; [lia|done]|].
  rewrite H1. destruct (_ <? _)%N; [|split; [lia|done]].
  set (s2 := set_pending_provisions _ _).
  assert (pending_provisions group s2 = pending_provisions group s) as H3.
  { unfold s2, pending_provisions at 1. simpl. rewrite lookup_insert_eq. simpl.
    rewrite u64_sub_small by (unfold is_u64 in *; lia). lia. }
  split; [lia|]. intros g Hg. rewrite <- (H2 g Hg). unfold s2, pending_provisions at 1. simpl.
  by rewrite lookup_insert_ne.
Qed.

Lemma provision_loop_pending provision group slots unreachable s :
  is_u64 (pending_provisions group s + N.of_nat slots) →
  (pending_provisions group s ≤
   pending_provisions group (provision_loop provision group slots unreachable s) ≤
   pending_provisions group s + N.of_nat slots)%N ∧
  ∀ g, g ≠ group →
    pending_provisions g (provision_loop provision group slots unreachable s) = pending_provisions g s.
Proof.
  revert unreachable s. induction slots as [|slots IH]; intros l s Hu; [split; [simpl; lia|done]|].
  assert (∀ replacing l',
    let s' := provision_loop provision group slots l' (provision_slot provision group replacing s) in
    (pending_provisions group s ≤ pending_provisions group s' ≤
     pending_provisions group s + N.of_nat (S slots))%N ∧
    ∀ g, g ≠ group → pending_provisions g s' = pending_provisions g s) as Hstep.
  { intros replacing l' s'. destruct (provision_slot_pending provision group replacing s) as [H1 H2];
      [unfold is_u64 in *; lia|].
    destruct (IH l' (provision_slot provision group replacing s)) as [H3 H4];
      [unfold is_u64 in *; lia|].
    split; [unfold s'; lia|]. intros g Hg. unfold s'. by rewrite H4, H2. }
  destruct l as [|n l]; apply Hstep.
Qed.

(** Provisioning is bounded by the deficit: assessing a placement group
    raises the number of provisions pending for it to the group's deficit at
    most, never lowers it, and leaves the pending provisions of every other group
    as they were, whichever provisioning requests succeed. *)
Theorem provisioning_within_deficit provision gh s :
  let group := gh_group_id gh in
  let deficit := group_deficit (_topology s) gh in
  is_u64 deficit →
  let s' := state_of (assess_group provision gh) s in
  (pending_provisions group s ≤ pending_provisions group s'
   ≤ N.max deficit (pending_provisions group s))%N ∧
  ∀ g, g ≠ group → pending_provisions g s' = pending_provisions g s.
Proof.
  intros group deficit Hu s'. unfold s', state_of, assess_group. rewrite let_gets.
  fold deficit. destruct (deficit =? 0)%N; [split; [simpl; lia|done]|]. rewrite let_gets.
  fold group. destruct (N.leb_spec deficit (pending_provisions group s)) as [Hle|Hlt];
    [split; [simpl; lia|done]|].
  pose proof (pending_promote_loop group (N.to_nat (deficit - pending_provisions group s)) s) as Hs.
  pose proof (promote_loop_remaining group (N.to_nat (deficit - pending_provisions group s)) s) as Hr.
  assert (∀ g s1, same_pending s s1 → pending_provisions g s1 = pending_provisions g s) as Hg
    by (by intros g s1 H; unfold pending_provisions; rewrite H).
  unfold mlet. destruct (promote_loop _ _ s) as [[r|e|w] s1]; simpl in Hs.
  2,3: cbn [snd]; rewrite (Hg group s1 Hs); split; [lia|]; intros g _; by apply Hg.
  specialize (Hr r s1 eq_refl). unfold mmodify. cbn [snd].
  destruct (provision_loop_pending provision group r (gh_unreachable_nodes gh) s1) as [H1 H2];
    rewrite ?(Hg group s1 Hs) in *; [unfold is_u64 in *; lia|].
  split; [lia|]. intros g Hne. rewrite (H2 g Hne). by apply Hg.
Qed.
End provisioning.

(** ** Concrete nodes *)

Definition sample_leader : sample_node_type := set_state leader (sample_node 1).

Lemma read_quorum_meets_majorities_witness : ∃ n : N, n ∈ [1; 2]%N ∧ n ∈ [3; 2]%N.
Proof.
  apply (read_quorum_meets_majorities sample_leader 0 1 (read_state sample_leader).2 [2]%N [3; 2]%N).
  - vm_compute. reflexivity.
  - by apply (bool_decide_eq_true_1 _).
  - by apply (bool_decide_eq_true_1 _).
  - by apply (bool_decide_eq_true_1 _).
  - intros n [->|H]%elem_of_cons; [by apply (bool_decide_eq_true_1 _)|by apply elem_of_nil in H].
  - vm_compute. done.
  - by apply (bool_decide_eq_true_1 _).
  - intros n [->|[->|H]%elem_of_cons]%elem_of_cons; [..|by apply elem_of_nil in H];
      by apply (bool_decide_eq_true_1 _).
  - reflexivity.
Defined.

Lemma session_submission_never_returns_witness :
  result_of (submit_command_with_session 7 1 (make_put_command [x61] [x01]) 0) sample_leader ≠ Ret 0%N.
Proof. by apply session_submission_never_returns. Defined.

(** A group that lacks two voters, with nothing pending. *)
Definition sample_group : placement_group_health := mk_group_health "rack" 1 3 [2; 3]%N.
Definition sample_topology : sample_node_type :=
  set_topology [mk_target "rack" 3 None] sample_leader.

Lemma provisioning_within_deficit_witness :
  (pending_provisions "rack"
     (state_of (assess_group (λ _ _, true) sample_group) sample_topology) ≤ 2)%N.
Proof.
  destruct (provisioning_within_deficit (λ _ _, true) sample_group sample_topology) as [[_ H] _];
    [reflexivity|]. vm_compute in H |- *. exact H.
Defined.
