(* ===== verification/ApplyProofs.v ===== *)
(** Application of committed entries: the state machine is led along the log in
    order, with the calls that the failure policy allows; the loop terminates. *)

From S2P Require Import Prelude Types ConfigEntry Membership Persistence CommitWaiter ConfigSync.
From S2P Require Import Node KvStateMachine Log Roles Sample AppendEntries Apply Frames.

(** ** Executions of the state machine *)

Section executions.
Context {SM : Type} `{!StateMachine SM}.

(** [n] calls of [apply] for [e] that threw. *)
Inductive failed_attempts (e : log_entry) : nat → SM → SM → Prop :=
  | no_attempt sm : failed_attempts e 0 sm sm
  | failed_attempt n sm sm1 sm2 ex :
      sm_apply (e_command e) (e_index e) sm = (Throw ex, sm1) →
      failed_attempts e n sm1 sm2 → failed_attempts e (S n) sm sm2.

(** At most [bound] calls, of which only the last returned. *)
Definition succeeded_within (bound : nat) (e : log_entry) (sm sm' : SM) : Prop :=
  ∃ n sm1 r, n < bound ∧ failed_attempts e n sm sm1 ∧ sm_apply (e_command e) (e_index e) sm1 = (Ret r, sm').

(** At most [bound] calls, none of which returned: they threw, or the last had
    undefined behaviour. *)
Definition tried_within (bound : nat) (e : log_entry) (sm sm' : SM) : Prop :=
  ∃ n sm1, failed_attempts e n sm sm1 ∧
    (n ≤ bound ∧ sm' = sm1 ∨
     n < bound ∧ ∃ w, sm_apply (e_command e) (e_index e) sm1 = (Undef w, sm')).

Lemma succeeds_after_failure bound e sm sm1 sm' ex :
  sm_apply (e_command e) (e_index e) sm = (Throw ex, sm1) →
  succeeded_within bound e sm1 sm' → succeeded_within (S bound) e sm sm'.
Proof.
  intros H (n & sm2 & r & Hn & Hf & Hr). exists (S n), sm2, r.
  split_and!; [lia|by eapply failed_attempt|done].
Qed.

Lemma tried_after_failure bound e sm sm1 sm' ex :
  sm_apply (e_command e) (e_index e) sm = (Throw ex, sm1) →
  tried_within bound e sm1 sm' → tried_within (S bound) e sm sm'.
Proof.
  intros H (n & sm2 & Hf & Hr). exists (S n), sm2. split; [by eapply failed_attempt|].
  destruct Hr as [[Hn ->]|[Hn Hu]]; [left|right]; (split; [lia|done]).
Qed.

Lemma succeeds_at_once bound e sm sm' r :
  sm_apply (e_command e) (e_index e) sm = (Ret r, sm') → succeeded_within (S bound) e sm sm'.
Proof. intros H. exists 0, sm, r. split_and!; [lia|apply no_attempt|done]. Qed.

Lemma undefined_at_once bound e sm sm' w :
  sm_apply (e_command e) (e_index e) sm = (Undef w, sm') → tried_within (S bound) e sm sm'.
Proof. intros H. exists 0, sm. split; [apply no_attempt|]. right. split; [lia|by eexists]. Qed.

Lemma tried_nothing bound e sm : tried_within bound e sm sm.
Proof. exists 0, sm. split; [apply no_attempt|]. left. split; [lia|done]. Qed.

(** The calls that the failure policy allows for one entry: one, and with the retry
    policy the configured number of further ones. *)
Definition max_calls (cfg : raft_configuration) : nat :=
  match get_application_failure_policy cfg with
  | retry => S (N.to_nat (application_retry_max_attempts cfg))
  | _ => 1
  end.

(** [executed cfg es sm sm']: from [sm] to [sm'] the commands among [es] were
    applied in order.  For each, [apply] returned once, in the last of at most
    [max_calls] calls; under the skip policy the one call may also have thrown. *)
Inductive executed (cfg : raft_configuration) : list log_entry → SM → SM → Prop :=
  | executed_nil sm : executed cfg [] sm sm
  | executed_other e es sm sm' :
      e_type e ≠ normal → executed cfg es sm sm' → executed cfg (e :: es) sm sm'
  | executed_command e es sm sm1 sm' :
      e_type e = normal → succeeded_within (max_calls cfg) e sm sm1 →
      executed cfg es sm1 sm' → executed cfg (e :: es) sm sm'
  | executed_skipped e es sm sm1 sm' :
      get_application_failure_policy cfg = skip → e_type e = normal → failed_attempts e 1 sm sm1 →
      executed cfg es sm1 sm' → executed cfg (e :: es) sm sm'.

Lemma executed_app cfg es1 es2 sm1 sm2 sm3 :
  executed cfg es1 sm1 sm2 → executed cfg es2 sm2 sm3 → executed cfg (es1 ++ es2) sm1 sm3.
Proof. induction 1; simpl; eauto using executed. Qed.

Lemma executed_one cfg e sm sm1 :
  e_type e = normal → succeeded_within (max_calls cfg) e sm sm1 → executed cfg [e] sm sm1.
Proof. intros He H. eapply executed_command; [done|exact H|apply executed_nil]. Qed.
End executions.

Section apply_proofs.
Context {P SM : Type} `{!PersistenceEngine P, !StateMachine SM} {JL : JsonLib}.
Abbreviation node := (node P SM).
Implicit Types s : node.

(** What an iteration does to everything application depends on. *)
Definition kept s s' : Prop :=
  _commit_index s' = _commit_index s ∧ _config s' = _config s ∧
  (_log s' = _log s ∨ ∃ e, _log s' = _log s ++ [e] ∧ e_index e = get_last_log_index s ⊕ 1).

Definition advanced (i : N) (e : log_entry) s s' : Prop :=
  _last_applied s' = i ∧
  executed (_config s) [e] (_state_machine s) (_state_machine s').

Definition stuck {A} (e : log_entry) s (r : outcome A * node) : Prop :=
  _last_applied r.2 = _last_applied s ∧
  (_state_machine r.2 = _state_machine s ∨
   e_type e = normal ∧ tried_within (max_calls (_config s)) e (_state_machine s) (_state_machine r.2)).

(** [goes_on r]: the loop continues. *)
Definition goes_on (o : outcome iteration) : Prop := ∃ c, o = Ret (next_iteration c).

Lemma catch_run_state_machine {A B} (m : M SM A) (k : A → M node B) h s :
  mcatch (mlet (run_state_machine m) k) h s =
  match m (_state_machine s) with
  | (Ret a, sm1) => mcatch (k a) h (set_state_machine sm1 s)
  | (Throw e, sm1) => h e (set_state_machine sm1 s)
  | (Undef w, sm1) => (Undef w, set_state_machine sm1 s)
  end.
Proof.
  unfold mcatch, mlet, run_state_machine. by destruct (m (_state_machine s)) as [[a|e|w] sm1].
Qed.

Lemma kept_log s s' :
  _commit_index s' = _commit_index s → _config s' = _config s → _log s' = _log s → kept s s'.
Proof. unfold kept. auto. Qed.

Lemma retry_apply_effect attempts i e s :
  let r := retry_apply attempts i e s in
  kept s r.2 ∧
  (r.1 = Ret true ∧ _last_applied r.2 = i ∧
     succeeded_within attempts e (_state_machine s) (_state_machine r.2) ∨
   r.1 ≠ Ret true ∧ _last_applied r.2 = _last_applied s ∧
     tried_within attempts e (_state_machine s) (_state_machine r.2)).
Proof.
  revert s. induction attempts as [|n IH]; intros s; cbv zeta.
  { split; [by apply kept_log|right]. split_and!; [done|done|apply tried_nothing]. }
  cbn [retry_apply]. rewrite catch_run_state_machine.
  destruct (sm_apply (e_command e) (e_index e) (_state_machine s)) as [o sm1] eqn:E.
  destruct o as [r|ex|w]; simpl.
  - split; [by apply kept_log|left]. split_and!; [done|done|by eapply succeeds_at_once].
  - specialize (IH (set_state_machine sm1 s)). destruct IH as [Hk Hr]. split; [exact Hk|].
    destruct Hr as [(Hr & Ha & Hx)|(Hr & Ha & Hx)]; [left|right]; split_and!; try done.
    + by eapply succeeds_after_failure.
    + by eapply tried_after_failure.
  - split; [by apply kept_log|right]. split_and!; [done|done|by eapply undefined_at_once].
Qed.

(** After a first call that threw. *)
Lemma apply_failed_effect i e ex s sm :
  e_type e = normal → sm_apply (e_command e) (e_index e) sm = (Throw ex, _state_machine s) →
  let r := apply_failed i e ex s in
  kept s r.2 ∧
  (goes_on r.1 ∧ _last_applied r.2 = i ∧ executed (_config s) [e] sm (_state_machine r.2) ∨
   ¬ goes_on r.1 ∧ _last_applied r.2 = _last_applied s ∧
     tried_within (max_calls (_config s)) e sm (_state_machine r.2)).
Proof.
  intros He Hfirst. cbv zeta. unfold apply_failed. rewrite let_gets.
  destruct (get_application_failure_policy (_config s)) eqn:Ep.
  - split; [by apply kept_log|right]. split_and!; [by intros [? [=]]|done|]. unfold max_calls. rewrite Ep.
    eapply tried_after_failure; [exact Hfirst|apply tried_nothing].
  - destruct (retry_apply_effect (N.to_nat (application_retry_max_attempts (_config s))) i e s) as [Hk Hr].
    unfold mlet. destruct (retry_apply _ i e s) as [[[]|ex'|w'] s2]; simpl in *.
    { split; [exact Hk|left]. destruct Hr as [(_ & Ha & Hx)|[[] _]]; [|done].
      split_and!; [by eexists|exact Ha|]. apply executed_one; [done|]. unfold max_calls. rewrite Ep.
      by eapply succeeds_after_failure. }
    all: split; [exact Hk|right]; destruct Hr as [[? _]|(_ & Ha & Hx)]; [done|];
      split_and!; [by intros [? [=]]|exact Ha|]; unfold max_calls; rewrite Ep; by eapply tried_after_failure.
  - split; [by apply kept_log|left]. split_and!; [by eexists|done|].
    eapply executed_skipped; [done|done| |apply executed_nil].
    eapply failed_attempt; [exact Hfirst|apply no_attempt].
Qed.

Lemma max_calls_positive cfg : ∃ n, max_calls cfg = S n.
Proof. unfold max_calls. case_match; eauto. Qed.

Lemma apply_command_effect i e s :
  e_type e = normal →
  let r := apply_command i e s in
  kept s r.2 ∧ (goes_on r.1 ∧ advanced i e s r.2 ∨ ¬ goes_on r.1 ∧ stuck e s r).
Proof.
  intros He. cbv zeta. unfold apply_command. rewrite catch_run_state_machine.
  destruct (max_calls_positive (_config s)) as [n Hn].
  destruct (sm_apply (e_command e) (e_index e) (_state_machine s)) as [o sm1] eqn:E.
  destruct o as [r|ex|w]; simpl.
  - split; [by apply kept_log|left]. split; [by eexists|]. split; [done|].
    apply executed_one; [done|]. rewrite Hn. by eapply succeeds_at_once.
  - destruct (apply_failed_effect i e ex (set_state_machine sm1 s) (_state_machine s) He E) as [Hk Hr].
    split; [exact Hk|]. destruct Hr as [(Hg & Ha & Hx)|(Hg & Ha & Hx)]; [left|right]; (split; [exact Hg|]);
      (split; [exact Ha|]); [exact Hx|by right].
  - split; [by apply kept_log|right]. split; [by intros [? [=]]|]. split; [done|right]. split; [done|].
    cbn [fst snd _state_machine set_state_machine]. rewrite Hn. by eapply undefined_at_once.
Qed.

(** Steps that leave what application depends on alone. *)
Definition same_progress s s' : Prop :=
  _commit_index s' = _commit_index s ∧ _config s' = _config s ∧ _log s' = _log s ∧
  _state_machine s' = _state_machine s ∧ _last_applied s' = _last_applied s.

Lemma core_same_progress s s' : core s' = core s → same_progress s s'.
Proof. unfold core. intros H. injection H. unfold same_progress. auto. Qed.

Lemma become_follower_same_progress t s : same_progress s (become_follower t s).
Proof. unfold become_follower. by destruct (is_leader_state (_state s)). Qed.

Lemma sync_same_progress : steps same_progress (@sync_peer2peer_membership P SM).
Proof. intros s. unfold sync_peer2peer_membership, mlet. simpl. by destruct (cluster_members s). Qed.

(** The end of the final configuration's application. *)
Lemma settle_membership_same_progress cfg s :
  same_progress s
    (let s := forget_untracked cfg s in
     if negb (contains_id (_nodes cfg) (_node_id s)) && is_leader_state (_state s)
     then become_follower (_current_term s) s else s).
Proof.
  cbv zeta. pose proof (core_same_progress _ _ (core_forget_untracked cfg s)) as H.
  case_match; [|exact H]. unfold same_progress in *.
  pose proof (become_follower_same_progress (_current_term (forget_untracked cfg s))
                (forget_untracked cfg s)) as H'. unfold same_progress in H'.
  destruct_and!. split_and!; congruence.
Qed.

Definition iterated (i : N) (e : log_entry) s (r : outcome iteration * node) : Prop :=
  kept s r.2 ∧ (advanced i e s r.2 ∨ ¬ goes_on r.1 ∧ stuck e s r).

Lemma advanced_other i e s s' :
  e_type e ≠ normal → _last_applied s' = i → _state_machine s' = _state_machine s → advanced i e s s'.
Proof. intros He Hi Hs. split; [done|]. rewrite Hs. by apply executed_other; [|apply executed_nil]. Qed.

Lemma stuck_same {A} e s (r : outcome A * node) :
  _last_applied r.2 = _last_applied s → _state_machine r.2 = _state_machine s → stuck e s r.
Proof. intros Hl Hs. split; [done|by left]. Qed.

Lemma not_going_on (o : outcome iteration) : (∀ r, o ≠ Ret r) → ¬ goes_on o.
Proof. intros H [c Hc]. by apply (H (next_iteration c)). Qed.

Lemma apply_configuration_effect i e s :
  e_type e ≠ normal → iterated i e s (apply_configuration i e s).
Proof.
  intros He. unfold apply_configuration.
  destruct (deserialize_configuration (e_command e)) as [cfg|ex|w].
  2-3: split; [by apply kept_log|right]; split; [by apply not_going_on|by apply stuck_same].
  rewrite let_lift, let_modify. unfold mlet at 1.
  pose proof (sync_same_progress (set_configuration cfg s)) as Hs.
  destruct (sync_peer2peer_membership _) as [[[]|ex|w] s1]; unfold same_progress in Hs; simpl in Hs;
    destruct Hs as (Hc & Hcf & Hl & Hsm & Hla).
  2-3: split; [by apply kept_log|right]; split; [by apply not_going_on|by apply stuck_same].
  unfold notify_waiter. rewrite !let_modify, let_gets. set (s2 := set_last_applied i _).
  destruct (_is_joint_consensus cfg); cbn [andb negb mwhen].
  - destruct (is_leader_state _); cbn [mwhen].
    + unfold mlet at 1. unfold append_final_configuration, append_and_persist. rewrite let_gets, let_modify.
      unfold persist. destruct (Persistence.append_log_entry _ _) as [o p']. simpl.
      assert (∀ o', iterated i e s (o', set_persistence p' (append_log_entry
          (mk_entry (_current_term s2) (get_last_log_index s2 ⊕ 1)
             (serialize_configuration (mk_config (_nodes cfg) false None (_learners cfg))) configuration) s2)))
        as Hfinal.
      { intros o'. split; [|left; by apply advanced_other].
        unfold kept. simpl. split_and!; [done|done|right]. eexists. split; [by rewrite Hl|].
        simpl. unfold get_last_log_index. simpl. by rewrite Hl, Hc. }
      destruct o as [[]|ex|w]; simpl; apply Hfinal.
    + split; [by apply kept_log|left; by apply advanced_other].
  - pose proof (settle_membership_same_progress cfg s2) as (Hc' & Hcf' & Hl' & Hsm' & Hla').
    split; [apply kept_log|left; apply advanced_other]; simpl; try done;
      etrans; (eassumption || done).
Qed.

Lemma apply_next_effect s :
  match get_log_entry (_last_applied s ⊕ 1) s with
  | None => apply_next s = (Ret leave_loop, s)
  | Some e => iterated (_last_applied s ⊕ 1) e s (apply_next s)
  end.
Proof.
  unfold apply_next. rewrite let_gets. rewrite let_gets. destruct (get_log_entry _ s) as [e|]; [|done].
  destruct (e_type e) eqn:He.
  - destruct (apply_command_effect (_last_applied s ⊕ 1) e s He) as [Hk [[_ H]|H]]; (split; [exact Hk|]); auto.
  - apply apply_configuration_effect. congruence.
  - split; [by apply kept_log|left]. apply advanced_other; [congruence|done|done].
Qed.

(** ** The loop *)

(** An iteration that goes on consumes one unapplied entry. *)
Lemma apply_next_goes_on s c s' :
  is_u64 (_commit_index s) → (_last_applied s < _commit_index s)%N →
  apply_next s = (Ret (next_iteration c), s') →
  _last_applied s' = (_last_applied s + 1)%N ∧ _commit_index s' = _commit_index s.
Proof.
  intros Hu Hlt E. pose proof (apply_next_effect s) as H. rewrite E in H.
  unfold is_u64 in Hu. rewrite u64_add_small in H by (unfold is_u64; lia).
  destruct (get_log_entry _ s) as [e|]; [|done].
  destruct H as [(Hc & _) [[Ha _]|[Hg _]]]; [done|]. destruct Hg. by eexists.
Qed.

(** As many turns as there are unapplied entries are enough: the loop ends by
    its own conditions. *)
Lemma apply_loop_enough_fuel fuel fuel' applied limit s :
  is_u64 (_commit_index s) →
  N.to_nat (_commit_index s - _last_applied s) ≤ fuel →
  N.to_nat (_commit_index s - _last_applied s) ≤ fuel' →
  apply_loop fuel applied limit s = apply_loop fuel' applied limit s.
Proof.
  assert (∀ fuel applied s, N.to_nat (_commit_index s - _last_applied s) = 0 →
            apply_loop fuel applied limit s = (Ret tt, s)) as Hdone.
  { intros [|f] a s0 H; simpl; [done|]. rewrite let_gets.
    by destruct (N.ltb_spec (_last_applied s0) (_commit_index s0)); [lia|]. }
  revert fuel' applied s. induction fuel as [|fuel IH]; intros fuel' applied s Hu H1 H2.
  { rewrite !Hdone by lia. done. }
  destruct fuel' as [|fuel']; [rewrite !Hdone by lia; done|].
  cbn [apply_loop]. rewrite !let_gets.
  destruct (N.ltb_spec (_last_applied s) (_commit_index s)); [|done]. cbn [andb].
  destruct (applied <? limit)%N; [|done]. unfold mlet.
  destruct (apply_next s) as [[[c|]| |] s1] eqn:E; try done.
  apply apply_next_goes_on in E as [Hl Hc]; [|done..]. apply IH; rewrite ?Hc, ?Hl; [done|lia..].
Qed.

(** The log holds what is committed and not applied, and indices have room for
    the final configuration a leader appends to a joint one. *)
Definition applicable (base : N) s : Prop :=
  log_wf base s ∧ (base <= _last_applied s <= _commit_index s)%N ∧
  (_commit_index s <= base + N.of_nat (length (_log s)))%N ∧
  is_u64 (base + N.of_nat (length (_log s)) + (_commit_index s - _last_applied s) + 1).

Lemma kept_prefix s s' : kept s s' → _log s `prefix_of` _log s'.
Proof. intros (_ & _ & [->|(e & -> & _)]); [done|by apply prefix_app_r]. Qed.

Lemma applicable_kept base s s' :
  applicable base s → kept s s' → (_last_applied s < _commit_index s)%N →
  _last_applied s' = (_last_applied s + 1)%N → applicable base s'.
Proof.
  intros (Hwf & Hla & Hc & Hu) (Hc' & _ & Hl) Hlt Hla'. unfold applicable, is_u64 in *.
  rewrite Hc', Hla'. pose proof (get_last_log_index_wf base s Hwf) as Hlast.
  destruct Hwf as (Hcont & Hn & Hb). unfold log_wf, is_u64 in *.
  destruct Hl as [->|(e & -> & He)]; [rewrite Hc'; split_and!; try done; lia|].
  rewrite length_app, Hc'. simpl. split_and!; try lia.
  - apply contiguous_app. split; [done|]. apply contiguous_singleton.
    rewrite He, Hlast, u64_add_small; [done|]. unfold is_u64. lia.
  - by intros [_ ?]%app_nil.
Qed.

(** What was done for the entry after [i], which was not applied: nothing, or calls
    of which none returned. *)
Definition pending_attempts (base : N) s (i : N) (sm sm' : SM) : Prop :=
  sm' = sm ∨
  (i < _commit_index s)%N ∧ ∃ e, entry_at base (_log s) (i + 1) = Some e ∧ e_type e = normal ∧
    tried_within (max_calls (_config s)) e sm sm'.

(** The log was executed from [s] up to [_last_applied s']. *)
Definition progressed (base : N) s s' : Prop :=
  _commit_index s' = _commit_index s ∧ (_last_applied s <= _last_applied s' <= _commit_index s)%N ∧
  _log s `prefix_of` _log s' ∧ _config s' = _config s ∧
  ∃ sm, executed (_config s)
          (entries_between base (_log s) (_last_applied s) (_last_applied s')) (_state_machine s) sm ∧
        pending_attempts base s (_last_applied s') sm (_state_machine s').

Lemma progressed_refl base s : applicable base s → progressed base s s.
Proof.
  intros (_ & Hla & _). unfold progressed. split_and!; try done; try lia. exists (_state_machine s).
  rewrite entries_between_same. split; [apply executed_nil|by left].
Qed.

Lemma progressed_step base e s s1 s' :
  applicable base s → (_last_applied s < _commit_index s)%N →
  entry_at base (_log s) (_last_applied s + 1) = Some e →
  kept s s1 → advanced (_last_applied s + 1) e s s1 → progressed base s1 s' → progressed base s s'.
Proof.
  intros (Hwf & Hla & Hc & _) Hlt He Hk [Ha Hx] (Hc' & Hla' & Hpre & Hcf' & sm & Hx' & Hp').
  pose proof (kept_prefix _ _ Hk) as Hpre1. destruct Hk as (Hc1 & Hcf1 & _).
  rewrite Ha in Hla', Hx'. rewrite Hc1 in Hc', Hla'. unfold progressed.
  split_and!; [congruence|lia|lia|by etrans|congruence|]. exists sm. split.
  - rewrite (entries_between_cons _ _ _ _ e) by (done || lia).
    rewrite (entries_between_prefix _ (_log s)) in Hx' by (done || lia).
    change (e :: ?l) with ([e] ++ l). eapply executed_app; [exact Hx|]. by rewrite Hcf1 in Hx'.
  - destruct Hp' as [?|(Hi & e' & He' & Ht & Hf)]; [by left|right]. rewrite Hc1 in Hi. split; [done|].
    rewrite Hcf1 in Hf. exists e'. split; [|done]. by rewrite <-(entry_at_prefix _ _ (_log s1)) by (done || lia).
Qed.

Lemma apply_loop_progressed base fuel applied limit s :
  applicable base s → progressed base s (apply_loop fuel applied limit s).2.
Proof.
  revert applied s. induction fuel as [|fuel IH]; intros applied s Happ; [by apply progressed_refl|].
  pose proof Happ as (Hwf & Hla & Hc & Hu). unfold is_u64 in Hu. cbn [apply_loop]. rewrite let_gets.
  destruct (N.ltb_spec (_last_applied s) (_commit_index s)) as [Hlt|]; cbn [andb];
    [|by apply progressed_refl].
  destruct (applied <? limit)%N; [|by apply progressed_refl].
  pose proof (apply_next_effect s) as Hnext. rewrite u64_add_small in Hnext by (unfold is_u64; lia).
  rewrite (get_log_entry_wf base s _ Hwf) in Hnext. unfold mlet.
  destruct (entry_at base (_log s) (_last_applied s + 1)) as [e|] eqn:Ee.
  2: { rewrite Hnext. by apply progressed_refl. }
  destruct Hnext as [Hk Hcase]. destruct (apply_next s) as [o s1] eqn:En. cbn [fst snd] in *.
  destruct Hcase as [Hadv|[Hstop [Ha Hf]]].
  - assert (applicable base s1) as Happ1 by (by eapply applicable_kept; [..|apply Hadv]).
    eapply progressed_step; [done..|].
    destruct o as [[c|]| |]; [by apply IH|by apply progressed_refl..].
  - assert (progressed base s s1) as Hend.
    { pose proof (kept_prefix _ _ Hk). destruct Hk as (Hc1 & Hcf1 & _). cbn [snd] in *. unfold progressed.
      rewrite Ha, entries_between_same. split_and!; try done; try lia.
      exists (_state_machine s). split; [apply executed_nil|]. destruct Hf as [Hf|[Ht Hf]]; [by left|right]. eauto 10. }
    destruct o as [[c|]| |]; [|done..]. destruct Hstop. by eexists.
Qed.

Lemma apply_committed_entries_progressed base s :
  applicable base s → progressed base s (apply_committed_entries s).2.
Proof.
  intros Happ. unfold apply_committed_entries. rewrite let_gets. case_match.
  - by apply progressed_refl.
  - by apply apply_loop_progressed.
Qed.

(** ** Progress: without failures a batch is applied completely *)

(** [accepts Φ l]: from states of [Φ] every command of [l] is applied, and [Φ]
    is kept. *)
Definition accepts (Φ : SM → Prop) (l : list log_entry) : Prop :=
  ∀ e sm, e ∈ l → e_type e = normal → Φ sm →
    ∃ r sm', sm_apply (e_command e) (e_index e) sm = (Ret r, sm') ∧ Φ sm'.

Lemma apply_next_accepted base Φ s :
  applicable base s → (_last_applied s < _commit_index s)%N →
  Forall (λ e, is_configuration_entry e = false) (_log s) → accepts Φ (_log s) → Φ (_state_machine s) →
  ∃ s', apply_next s = (Ret (next_iteration true), s') ∧
    _last_applied s' = (_last_applied s + 1)%N ∧ _commit_index s' = _commit_index s ∧
    _log s' = _log s ∧ Φ (_state_machine s').
Proof.
  intros (Hwf & Hla & Hc & Hu) Hlt Hcfg Hacc HΦ. unfold is_u64 in Hu.
  unfold apply_next. rewrite !let_gets, u64_add_small by (unfold is_u64; lia).
  rewrite (get_log_entry_wf base s _ Hwf).
  destruct (entry_at base (_log s) (_last_applied s + 1)) as [e'|] eqn:Ee.
  2: { unfold entry_at in Ee. destruct (N.leb_spec (_last_applied s + 1) base); [lia|].
       apply lookup_ge_None in Ee. lia. }
  apply entry_at_Some in Ee as [_ Ee]. apply list_elem_of_lookup_2 in Ee.
  rewrite Forall_forall in Hcfg. specialize (Hcfg e' Ee). unfold is_configuration_entry in Hcfg.
  destruct (e_type e') eqn:Et; [|done|].
  - destruct (Hacc e' _ Ee Et HΦ) as (r & sm' & E & HΦ'). unfold apply_command.
    rewrite catch_run_state_machine, E. eexists. split; [reflexivity|]. done.
  - eexists. split; [reflexivity|]. done.
Qed.

Lemma apply_loop_accepted base Φ fuel applied limit s :
  applicable base s → Forall (λ e, is_configuration_entry e = false) (_log s) →
  accepts Φ (_log s) → Φ (_state_machine s) →
  (applied <= limit)%N → is_u64 limit → N.to_nat (_commit_index s - _last_applied s) ≤ fuel →
  result_of (apply_loop fuel applied limit) s = Ret tt ∧
  _last_applied (state_of (apply_loop fuel applied limit) s) =
    N.min (_commit_index s) (_last_applied s + (limit - applied)).
Proof.
  unfold result_of, state_of, is_u64.
  revert applied s. induction fuel as [|fuel IH]; intros applied s Happ Hcfg Hacc HΦ Hle Hu Hf.
  { destruct Happ as (_ & ? & _). split; [done|]. simpl. lia. }
  pose proof Happ as (Hwf & Hla & Hc & Hu'). cbn [apply_loop]. rewrite let_gets.
  destruct (N.ltb_spec (_last_applied s) (_commit_index s)) as [Hlt|]; cbn [andb];
    [|split; [done|simpl; lia]].
  destruct (N.ltb_spec applied limit); [|split; [done|simpl; lia]].
  destruct (apply_next_accepted base Φ s) as (s' & E & Hla' & Hc' & Hl' & HΦ');
    [done..|]. rewrite (let_eval _ _ _ _ _ E).
  assert (applicable base s') as Happ'.
  { unfold applicable, log_wf, is_u64 in *. rewrite Hla', Hc', Hl'. destruct_and!. split_and!; try done; lia. }
  rewrite u64_add_small by (unfold is_u64; lia).
  destruct (IH (applied + 1)%N s') as [Hr Hs]; rewrite ?Hl'; try done; try lia.
  split; [exact Hr|]. rewrite Hs. lia.
Qed.
End apply_proofs.

(** ** Results *)

(** C5. Application safety, for every failure policy and every state machine, on a node
    whose log is well formed and holds every committed entry that is not applied:
    one call of [apply_committed_entries] moves the state machine along the log.
    The entries after the old and up to the new [_last_applied] are dealt with in log
    order.  For each command [apply] returned exactly once, in the last of the calls
    that the policy allows (one; with retries the configured number more, all
    earlier calls having thrown); under the skip policy, and no other, a command
    whose single call threw is passed over.  Of the next committed entry the state
    machine has seen at most such calls that did not return.  The commit index stays,
    [_last_applied] never goes back nor beyond it, and the log is only extended. *)
Theorem apply_executes_log_in_order {P SM : Type} `{!PersistenceEngine P, !StateMachine SM}
    {JL : JsonLib} (base : N) (s : node P SM) :
  applicable base s →
  let s' := state_of apply_committed_entries s in
  _commit_index s' = _commit_index s ∧
  (_last_applied s <= _last_applied s' <= _commit_index s)%N ∧
  _log s `prefix_of` _log s' ∧
  ∃ sm, executed (_config s)
          (entries_between base (_log s) (_last_applied s) (_last_applied s'))
          (_state_machine s) sm ∧
        pending_attempts base s (_last_applied s') sm (_state_machine s').
Proof.
  intros Happ s'. destruct (apply_committed_entries_progressed base s Happ) as (?&?&?&_&?). done.
Qed.

(** A follower with three committed entries, none applied. *)
Definition sample_committed : sample_node_type :=
  set_commit_index 3 (set_log sample_log (sample_node 1)).

Lemma sample_committed_applicable : applicable 0 sample_committed.
Proof.
  split; [split; [exact sample_log_contiguous|split; [done|reflexivity]]|].
  split; [split; done|split; [done|reflexivity]].
Qed.

Lemma apply_executes_log_in_order_witness :
  _last_applied (state_of apply_committed_entries sample_committed) = 3%N ∧
  (_last_applied (state_of apply_committed_entries sample_committed) <= 3)%N.
Proof.
  split; [vm_compute; reflexivity|].
  exact (proj2 (proj1 (proj2 (apply_executes_log_in_order 0 sample_committed
    sample_committed_applicable)))).
Defined.

(** Application catches up, one batch at a time: when the state machine
    accepts the commands of the log and no configuration entry is involved,
    [apply_committed_entries] returns normally with exactly
    [min (commit index) (last applied + 100)] applied, so any lag is closed by
    repeating the call. *)
Theorem apply_catches_up {P SM : Type} `{!PersistenceEngine P, !StateMachine SM} {JL : JsonLib}
    (base : N) (Φ : SM → Prop) (s : node P SM) :
  applicable base s → Forall (λ e, is_configuration_entry e = false) (_log s) →
  accepts Φ (_log s) → Φ (_state_machine s) →
  result_of apply_committed_entries s = Ret tt ∧
  _last_applied (state_of apply_committed_entries s) =
    N.min (_commit_index s) (_last_applied s + max_batch_size).
Proof.
  intros Happ Hcfg Hacc HΦ. pose proof Happ as (_ & Hla & Hc & Hu). unfold is_u64 in Hu.
  unfold apply_committed_entries, result_of, state_of. rewrite let_gets.
  rewrite u64_sub_small by (unfold is_u64; lia).
  destruct (N.eqb_spec (_commit_index s - _last_applied s) 0); [split; [done|simpl; lia]|].
  destruct (apply_loop_accepted base Φ (N.to_nat (_commit_index s - _last_applied s)) 0
              (N.min (_commit_index s - _last_applied s) max_batch_size) s) as [Hr Hs];
    try done; try lia; [unfold is_u64; lia|].
  split; [exact Hr|]. unfold state_of in Hs. rewrite Hs. lia.
Qed.

Lemma sample_accepted : accepts (λ sm, kv_fiu_apply sm = false) (_log sample_committed).
Proof.
  intros e sm He Ht Hsm. destruct sm as [m i f]; simpl in Hsm; subst f.
  unfold sample_committed in He. cbn [_log set_commit_index set_log] in He. unfold sample_log in He.
  apply elem_of_cons in He as [->|He]; [by do 2 eexists; split|].
  apply elem_of_cons in He as [->|He]; [done|].
  apply list_elem_of_singleton in He as ->. by do 2 eexists; split.
Qed.

Lemma apply_catches_up_witness :
  _last_applied (state_of apply_committed_entries sample_committed) = 3%N.
Proof.
  refine (proj2 (apply_catches_up 0 (λ sm, kv_fiu_apply sm = false) sample_committed
    sample_committed_applicable _ sample_accepted eq_refl)).
  repeat constructor.
Defined.
