(* ===== verification/CommitProofs.v ===== *)
(** Commitment: [advance_commit_index] finds the largest index of the current
    term that a quorum stores. *)

From Stdlib Require Import Sorting.Sorted.
From S2P Require Import Prelude Types ConfigEntry Membership Persistence CommitWaiter ConfigSync.
From S2P Require Import Node KvStateMachine Log Roles Sample Apply Frames.

Section commit.
Context {P SM : Type} `{!PersistenceEngine P, !StateMachine SM} {JL : JsonLib}.
Abbreviation node := (node P SM).
Implicit Types s : node.

(** What the choice of the commit index depends on. *)
Definition replication_view s :=
  (_state s, _configuration s, _match_index s, _node_id s, _current_term s, _log s).

(** The state machine's [apply] is memory safe: it returns or throws. *)
Hypothesis Hsafe : ∀ command index (sm : SM) w, (sm_apply command index sm).1 ≠ Undef w.

(** *** Application changes none of it, without configuration entries *)

Lemma retry_apply_view attempts i e s :
  ∃ b s', retry_apply attempts i e s = (Ret b, s') ∧ replication_view s' = replication_view s ∧
          _commit_index s' = _commit_index s.
Proof.
  revert s. induction attempts as [|n IH]; intros s; simpl; [by do 2 eexists|].
  unfold mcatch, mlet at 1, run_state_machine. pose proof (Hsafe (e_command e) (e_index e) (_state_machine s)) as Hw.
  destruct (sm_apply (e_command e) (e_index e) (_state_machine s)) as [[r|ex|w] sm1]; simpl in *.
  - by do 2 eexists.
  - destruct (IH (set_state_machine sm1 s)) as (b & s' & E & Hv & Hc). eauto.
  - by destruct (Hw w).
Qed.

Lemma apply_command_view i e s :
  ∃ it s', apply_command i e s = (Ret it, s') ∧ replication_view s' = replication_view s ∧
           _commit_index s' = _commit_index s.
Proof.
  unfold apply_command, mcatch, mlet at 1, run_state_machine.
  pose proof (Hsafe (e_command e) (e_index e) (_state_machine s)) as Hw.
  destruct (sm_apply (e_command e) (e_index e) (_state_machine s)) as [[r|ex|w] sm1]; simpl in *.
  - by do 2 eexists.
  - unfold apply_failed. rewrite let_gets. case_match; [by do 2 eexists| |by do 2 eexists].
    match goal with |- context [retry_apply ?n _ _] =>
      destruct (retry_apply_view n i e (set_state_machine sm1 s)) as (b & s' & E & Hv & Hc) end.
    rewrite (let_eval _ _ _ _ _ E). destruct b; by do 2 eexists.
  - by destruct (Hw w).
Qed.

Lemma apply_loop_view fuel applied limit s :
  Forall (λ e, is_configuration_entry e = false) (_log s) →
  ∃ s', apply_loop fuel applied limit s = (Ret tt, s') ∧ replication_view s' = replication_view s ∧
        _commit_index s' = _commit_index s.
Proof.
  revert applied s. induction fuel as [|fuel IH]; intros applied s Hcfg; [by eexists|].
  cbn [apply_loop]. rewrite let_gets. case_match; [|by eexists].
  assert (∃ it s', apply_next s = (Ret it, s') ∧ replication_view s' = replication_view s ∧
           _commit_index s' = _commit_index s) as (it & s1 & E & Hv & Hc).
  { unfold apply_next. rewrite !let_gets. destruct (get_log_entry _ s) as [e|] eqn:Ee; [|by do 2 eexists].
    apply get_log_entry_elem in Ee. rewrite Forall_forall in Hcfg. specialize (Hcfg e Ee).
    unfold is_configuration_entry in Hcfg. destruct (e_type e); [|done|by do 2 eexists].
    apply apply_command_view. }
  rewrite (let_eval _ _ _ _ _ E). destruct it; [|by eexists].
  match goal with |- context [apply_loop fuel ?a] =>
    destruct (IH a s1) as (s' & E' & Hv' & Hc') end.
  { unfold replication_view in Hv. injection Hv as _ _ _ _ _ ->. done. }
  exists s'. split_and!; [done|congruence..].
Qed.

Lemma apply_committed_entries_view s :
  Forall (λ e, is_configuration_entry e = false) (_log s) →
  ∃ s', apply_committed_entries s = (Ret tt, s') ∧ replication_view s' = replication_view s ∧
        _commit_index s' = _commit_index s.
Proof.
  intros Hcfg. unfold apply_committed_entries. rewrite let_gets.
  case_match; [by eexists|]. by apply apply_loop_view.
Qed.

(** *** The scan *)

Definition current_term_entry (n : N) s : bool :=
  match get_log_entry n s with Some e => (e_term e =? _current_term s)%N | None => false end.

Lemma view_quorum n s s' :
  replication_view s' = replication_view s → has_commit_quorum n s' = has_commit_quorum n s.
Proof.
  unfold replication_view, has_commit_quorum, count_acks. intros H. injection H as _ -> -> -> _ _. done.
Qed.

Lemma view_last_log_index s s' :
  replication_view s' = replication_view s → _log s ≠ [] → get_last_log_index s' = get_last_log_index s.
Proof.
  unfold replication_view, get_last_log_index. intros H Hne. injection H as _ _ _ _ _ ->.
  by destruct (last (_log s)) eqn:E; [|apply last_None in E].
Qed.

Lemma view_current n s s' :
  replication_view s' = replication_view s → current_term_entry n s' = current_term_entry n s.
Proof.
  intros H. pose proof (view_last_log_index s s' H) as Hlast. revert H.
  unfold replication_view, current_term_entry, get_log_entry. intros H. injection H as _ _ _ _ -> Hl.
  rewrite Hl. destruct (n =? 0)%N; [done|]. destruct (_log s) eqn:El; [done|]. simpl head.
  cbv iota. by rewrite Hlast.
Qed.

Lemma commit_loop_spec l s :
  Forall (λ e, is_configuration_entry e = false) (_log s) →
  StronglySorted N.lt l → Forall (λ n, (_commit_index s < n)%N) l →
  ∃ s', commit_loop l s = (Ret tt, s') ∧ replication_view s' = replication_view s ∧
    (_commit_index s <= _commit_index s')%N ∧
    (_commit_index s' = _commit_index s ∨
     _commit_index s' ∈ l ∧ has_commit_quorum (_commit_index s') s = true ∧
       current_term_entry (_commit_index s') s = true) ∧
    (∀ n, n ∈ l → (∀ m, m ∈ l → (m <= n)%N → has_commit_quorum m s = true) →
       current_term_entry n s = true → (n <= _commit_index s')%N).
Proof.
  revert s. induction l as [|n l IH]; intros s Hcfg Hsort Hlt.
  { eexists. split_and!; [done|done|lia|by left|]. set_solver. }
  apply StronglySorted_inv in Hsort as [Hsort Hn].
  apply Forall_cons in Hlt as [Hlt Hlts]. rewrite Forall_forall in Hn.
  cbn [commit_loop]. rewrite let_gets. destruct (has_commit_quorum n s) eqn:Hq.
  2: { eexists. split_and!; [done|done|lia|by left|]. intros m Hm Hall _.
       rewrite (Hall n) in Hq; [done|set_solver|]. apply elem_of_cons in Hm as [->|Hm]; [lia|].
       specialize (Hn m Hm). simpl in Hn. lia. }
  rewrite let_gets. fold (current_term_entry n s).
  assert (∃ s1, (∀ k : () → M node (), mlet (mwhen (current_term_entry n s)
      (do! mmodify (set_commit_index n) in apply_committed_entries)) k s = k tt s1) ∧
    replication_view s1 = replication_view s ∧
    _commit_index s1 = if current_term_entry n s then n else _commit_index s)
    as (s1 & E & Hv & Hc).
  { destruct (current_term_entry n s); cbn [mwhen]; [|by exists s].
    destruct (apply_committed_entries_view (set_commit_index n s)) as (s1 & E & Hv & Hc); [done|].
    exists s1. split; [|done]. intros k. unfold mlet at 1. rewrite let_modify, E. done. }
  rewrite E. clear E. destruct (IH s1) as (s' & E & Hv' & Hle & Hcase & Hmax).
  { unfold replication_view in Hv. by injection Hv as _ _ _ _ _ ->. }
  { done. }
  { rewrite Forall_forall in Hlts |- *. intros m Hm. rewrite Hc. case_match; [by apply Hn|by apply Hlts]. }
  exists s'. split_and!; [done|congruence| | |].
  - rewrite Hc in Hle. case_match; lia.
  - rewrite (view_quorum _ s s1), (view_current _ s s1), Hc in Hcase by done.
    destruct Hcase as [Hcase|(?&?&?)]; [|right; split_and!; [set_solver|done..]].
    destruct (current_term_entry n s) eqn:Hcur; [right|by left].
    rewrite Hcase. split_and!; [set_solver|done..].
  - intros m Hm Hall Hcur. apply elem_of_cons in Hm as [->|Hm].
    { rewrite Hcur in Hc. lia. }
    apply Hmax; [done| |by rewrite (view_current _ s s1)].
    intros m' Hm' Hle'. rewrite (view_quorum _ s s1) by done. apply Hall; [set_solver|done].
Qed.

(** *** Quorums are downward closed *)

Lemma count_acks_mono m n s l : (m <= n)%N → (count_acks n s l <= count_acks m s l)%N.
Proof.
  intros H. unfold count_acks.
  apply N2Z.inj_le. rewrite !nat_N_Z. apply inj_le, filter_length_mono. intros i _.
  rewrite !orb_true_iff. intros [?|Hi]; [by left|right]. case_match; [|done].
  apply N.leb_le in Hi. apply N.leb_le. lia.
Qed.

Lemma has_commit_quorum_mono m n s :
  (m <= n)%N → has_commit_quorum n s = true → has_commit_quorum m s = true.
Proof.
  intros H. unfold has_commit_quorum, has_majority.
  pose proof (count_acks_mono m n s (_nodes (_configuration s)) H).
  destruct (joint_old_nodes (_configuration s)) as [old|].
  - pose proof (count_acks_mono m n s old H). rewrite !andb_true_iff, !N.ltb_lt. lia.
  - rewrite !N.ltb_lt. lia.
Qed.

Lemma nrange_sorted a b : StronglySorted N.lt (nrange a b).
Proof.
  remember (N.to_nat (b + 1 - a)) as k eqn:Ek. revert a Ek.
  induction k as [|k IH]; intros a Ek.
  - rewrite nrange_nil by lia. constructor.
  - rewrite nrange_cons by lia. constructor; [apply IH; lia|].
    apply Forall_forall. intros x Hx%elem_of_nrange. lia.
Qed.
End commit.

(** A leader may commit index [n]: a quorum (of both configurations, in a joint
    one) stores it and the entry is of the leader's term. *)
Definition committable {P SM} (base n : N) (s : node P SM) : Prop :=
  has_commit_quorum n s = true ∧
  ∃ e, entry_at base (_log s) n = Some e ∧ e_term e = _current_term s.

(** ** Result *)

(** C6. Commitment: on a leader whose log holds no configuration entry,
    [advance_commit_index] returns with the commit index at the largest
    committable index (replicated on a majority of each active voter set and of
    the leader's own term), or unmoved when there is none beyond it; it never
    moves back. *)
Theorem commit_index_is_largest_committable {P SM : Type} `{!PersistenceEngine P, !StateMachine SM}
    {JL : JsonLib} (base : N) (s : node P SM) :
  (∀ command index (sm : SM) w, (sm_apply command index sm).1 ≠ Undef w) →
  log_wf base s → _state s = leader →
  (base <= _commit_index s <= base + N.of_nat (length (_log s)))%N →
  Forall (λ e, is_configuration_entry e = false) (_log s) →
  let s' := state_of advance_commit_index s in
  result_of advance_commit_index s = Ret tt ∧
  (_commit_index s <= _commit_index s')%N ∧
  (_commit_index s' = _commit_index s ∨ committable base (_commit_index s') s) ∧
  (∀ n, committable base n s → (n <= _commit_index s')%N).
Proof.
  intros Hsafe Hwf Hl Hc Hcfg. unfold result_of, state_of, advance_commit_index. rewrite let_gets, Hl.
  cbn [is_leader_state]. rewrite let_gets. rewrite (get_last_log_index_wf base s Hwf).
  pose proof Hwf as (_ & _ & Hu). unfold is_u64 in Hu. rewrite u64_add_small by (unfold is_u64; lia).
  set (l := nrange _ _).
  destruct (commit_loop_spec Hsafe l s Hcfg (nrange_sorted _ _)) as (s' & E & Hv & Hle & Hcase & Hmax).
  { apply Forall_forall. intros x Hx%elem_of_nrange. lia. }
  rewrite (let_eval _ _ _ _ _ E). cbv zeta. simpl. unfold committable.
  assert (∀ n, current_term_entry n s = true ↔
    ∃ e, entry_at base (_log s) n = Some e ∧ e_term e = _current_term s) as Hcur.
  { intros n. unfold current_term_entry. rewrite (get_log_entry_wf base s n Hwf).
    destruct (entry_at base (_log s) n) as [e|]; [rewrite N.eqb_eq|]; naive_solver. }
  split_and!; [done|done| |].
  - destruct Hcase as [?|(_ & Hq & Ht)]; [by left|right]. split; [done|by apply Hcur].
  - intros n [Hq He]. destruct (N.le_gt_cases n (_commit_index s)); [lia|].
    apply Hmax; [| |by apply Hcur].
    + apply elem_of_nrange. destruct He as (e & [_ He]%entry_at_Some & _).
      apply lookup_lt_Some in He. lia.
    + intros m _ Hm. by eapply has_commit_quorum_mono.
Qed.

(** A leader of term 2 over entries of terms 1, 2, 2; one follower stores two. *)
Definition sample_leader : sample_node_type :=
  set_match_index {[ 2%N := 2%N; 3%N := 0%N ]} (set_current_term 2 (set_state leader
    (set_log [put_entry 1 1 [x61] [x01]; mk_entry 2 2 [] no_op; put_entry 2 3 [x61] [x02]]
       (sample_node 1)))).

Lemma commit_index_is_largest_committable_witness :
  _commit_index (state_of advance_commit_index sample_leader) = 2%N ∧
  (_commit_index sample_leader <= _commit_index (state_of advance_commit_index sample_leader))%N.
Proof.
  split; [vm_compute; reflexivity|].
  refine (proj1 (proj2 (commit_index_is_largest_committable 0 sample_leader apply_never_undef _ eq_refl _ _))).
  - split; [intros [|[|[|k]]] e [= <-]; reflexivity|split; [done|reflexivity]].
  - split; vm_compute; done.
  - repeat constructor.
Defined.
