(* ===== verification/ElectionSafety.v ===== *)
(** Election safety: at most one leader per term.

    A cluster runs the handlers of [Election], [Replication], [Snapshot] and
    [Client] on its nodes, under a fixed configuration.  Everything but the
    vote exchange is adversarial: a node may be given any AppendEntries or
    InstallSnapshot request and any response.  Of the vote exchange only this is
    assumed: a vote counted by a candidate was granted by that peer to that
    candidate in that term, and a node does not ask itself. *)

From stdpp Require Import relations.
From S2P Require Import Prelude Types ConfigEntry Membership Persistence CommitWaiter ConfigSync.
From S2P Require Import Node KvStateMachine Log Roles Sample AppendEntries Apply Election.
From S2P Require Import Snapshot Replication Client Frames.

(** ** The effect of a handler on votes *)

Section vote_discipline.
Context {P SM : Type} `{!PersistenceEngine P, !StateMachine SM} {JL : JsonLib}.
Abbreviation node := (node P SM).
Implicit Types s : node.

(** What every handler outside the vote exchange does: the term never
    decreases; with a new term the node is a follower that has not voted; in
    the same term vote and role stay, except that a candidate may step down. *)
Definition vote_rel s s' : Prop :=
  _node_id s' = _node_id s ∧
  ((_current_term s < _current_term s')%N ∧ _state s' = follower ∧ _voted_for s' = None ∨
   _current_term s' = _current_term s ∧
     (_state s' = _state s ∧ _voted_for s' = _voted_for s ∨
      _state s = candidate ∧ _state s' = follower ∧ _voted_for s' = None)).

(** The configuration is [C] and the log does not change it. *)
Definition static (C : cluster_configuration) s : Prop :=
  _configuration s = C ∧ _boot_configuration s = C ∧
  Forall (λ e, is_configuration_entry e = false) (_log s).

Context (C : cluster_configuration).

Definition quiet s s' : Prop := static C s → static C s' ∧ vote_rel s s'.

#[global] Instance vote_rel_preorder : PreOrder vote_rel.
Proof.
  split.
  - intros s. split; [done|]. right. auto.
  - intros s1 s2 s3 [Hid1 H1] [Hid2 H2]. split; [congruence|].
    destruct H1 as [(?&?&?)|(?&[(?&?)|(?&?&?)])], H2 as [(?&?&?)|(?&[(?&?)|(?&?&?)])];
      first [left; split_and!; solve [lia|congruence] |
             right; split; [congruence|]; (left; split; congruence) ||
                                          (right; split_and!; congruence)].
Qed.

#[global] Instance quiet_preorder : PreOrder quiet.
Proof.
  split.
  - intros s H. split; [done|reflexivity].
  - intros s1 s2 s3 H1 H2 H. destruct (H1 H) as [H' Hv1]. destruct (H2 H') as [H'' Hv2].
    split; [done|]. by etrans.
Qed.

Lemma quiet_core s s' : core s' = core s → quiet s s'.
Proof.
  unfold core. intros Heq (Hc & Hb & Hl). injection Heq; clear Heq; intros. split.
  - unfold static. split_and!; congruence.
  - split; [congruence|]. right. split; [congruence|]. left. split; congruence.
Qed.

(** Updates of fields that neither votes nor configurations depend on. *)
Lemma quiet_view s s' :
  _node_id s' = _node_id s → _current_term s' = _current_term s → _voted_for s' = _voted_for s →
  _state s' = _state s → _configuration s' = _configuration s →
  _boot_configuration s' = _boot_configuration s →
  (Forall (λ e, is_configuration_entry e = false) (_log s) →
   Forall (λ e, is_configuration_entry e = false) (_log s')) → quiet s s'.
Proof.
  intros ?????? Hl (H1 & H2 & H3). split; [unfold static; split_and!; [congruence..|auto]|].
  split; [done|]. right. split; [done|]. left. done.
Qed.

Lemma quiet_become_follower t s : (_current_term s < t)%N → quiet s (become_follower t s).
Proof.
  intros Ht (H1 & H2 & H3). unfold become_follower. split.
  - unfold static. by destruct (is_leader_state (_state s)).
  - unfold vote_rel. destruct (is_leader_state (_state s)); simpl; split; try done; left; done.
Qed.

Lemma quiet_candidate_steps_down s :
  _state s = candidate → quiet s (become_follower (_current_term s) s).
Proof.
  intros Hc (H1 & H2 & H3). unfold become_follower. rewrite Hc. simpl. split; [done|].
  split; [done|]. right. simpl. auto.
Qed.

Ltac quiet_update := intros; first [apply quiet_core; solve [done | auto with core] |
                                    apply quiet_view; solve [done]].
Ltac quiet_auto := frame_auto; try quiet_update.

(** *** Application and commitment *)

Lemma quiet_apply_no_op i : steps quiet (apply_no_op i).
Proof. unfold apply_no_op, notify_waiter. quiet_auto. Qed.

Lemma quiet_retry_apply n i e : steps quiet (retry_apply n i e).
Proof.
  induction n as [|n IH]; simpl; [quiet_auto|].
  unfold notify_waiter. quiet_auto. Qed.

Lemma quiet_apply_command i e : steps quiet (apply_command i e).
Proof.
  pose proof quiet_retry_apply. unfold apply_command, apply_failed, notify_waiter.
  quiet_auto; auto.
Qed.

Lemma quiet_apply_next : steps quiet apply_next.
Proof.
  intros s Hst. unfold apply_next, mlet, gets.
  destruct (get_log_entry (_last_applied s ⊕ 1) s) as [e|] eqn:E; [|by split].
  destruct (e_type e) eqn:Et.
  - by apply quiet_apply_command.
  - destruct Hst as (_ & _ & Hf). rewrite Forall_forall in Hf.
    specialize (Hf e (get_log_entry_elem _ _ _ E)). unfold is_configuration_entry in Hf.
    by rewrite Et in Hf.
  - by apply quiet_apply_no_op.
Qed.

Lemma quiet_apply_loop fuel n k : steps quiet (apply_loop fuel n k).
Proof.
  revert n. induction fuel as [|fuel IH]; intros n; simpl; [quiet_auto|].
  pose proof quiet_apply_next. quiet_auto; auto.
Qed.

Lemma quiet_apply_committed_entries : steps quiet apply_committed_entries.
Proof. pose proof quiet_apply_loop. unfold apply_committed_entries. quiet_auto; auto. Qed.

Lemma quiet_advance_commit_index : steps quiet advance_commit_index.
Proof.
  unfold advance_commit_index. quiet_auto.
  match goal with |- steps _ (commit_loop ?l) => induction l as [|n l IH] end; simpl; [quiet_auto|].
  pose proof quiet_apply_committed_entries. quiet_auto; auto.
Qed.

(** *** Log replication *)

Definition no_config (entries : list log_entry) : Prop :=
  Forall (λ e, is_configuration_entry e = false) entries.

Lemma quiet_append_and_persist e :
  is_configuration_entry e = false → steps quiet (append_and_persist e).
Proof.
  intros He. unfold append_and_persist. quiet_auto.
  intros s. apply quiet_view; try done. intros Hl. simpl. apply Forall_app. auto.
Qed.

Lemma quiet_erase_from k : steps quiet (erase_from k).
Proof.
  intros s. unfold erase_from. case_match; [reflexivity|].
  apply quiet_view; try done. intros Hl. by apply Forall_take.
Qed.

Lemma quiet_truncate_conflict i entries : steps quiet (truncate_conflict i entries).
Proof.
  pose proof quiet_erase_from. revert i. induction entries as [|e entries IH]; intros i; simpl;
    quiet_auto; auto.
Qed.

Lemma quiet_append_new i entries b :
  no_config entries → steps quiet (append_new i entries b).
Proof.
  intros H. revert i b. induction H as [|e entries He Hf IH]; intros i b; simpl; [quiet_auto|].
  pose proof (quiet_append_and_persist e He). quiet_auto; auto.
Qed.

Lemma latest_configuration_none l : no_config l → latest_configuration_entry l = None.
Proof.
  intros H. destruct (latest_configuration_entry l) as [e|] eqn:E; [|done].
  apply latest_configuration_entry_elem in E as [Hin Hc].
  unfold no_config in H. rewrite Forall_forall in H. rewrite (H e Hin) in Hc. done.
Qed.

Lemma quiet_sync_peer2peer_membership : steps quiet sync_peer2peer_membership.
Proof. unfold sync_peer2peer_membership. quiet_auto. Qed.

Lemma quiet_rescan_configuration : steps quiet rescan_configuration.
Proof.
  intros s Hst. pose proof Hst as (Hc & Hb & Hl). pose proof quiet_sync_peer2peer_membership.
  unfold rescan_configuration. rewrite (let_eval _ _ _ (_boot_configuration s) s).
  2: { unfold reverted_configuration. by rewrite latest_configuration_none. }
  rewrite let_modify.
  refine (steps_from quiet _ s (set_configuration (_boot_configuration s) s) _ _ Hst).
  - apply quiet_view; simpl; congruence || done.
  - quiet_auto; auto.
Qed.

Lemma quiet_append_entries_check prev pt entries :
  no_config entries → steps quiet (append_entries_with_consistency_check prev pt entries).
Proof.
  intros H. pose proof quiet_truncate_conflict. pose proof quiet_rescan_configuration.
  pose proof (λ i b, quiet_append_new i entries b H).
  unfold append_entries_with_consistency_check. quiet_auto; auto.
Qed.

Lemma quiet_update_commit_index i : steps quiet (update_commit_index i).
Proof.
  pose proof quiet_apply_committed_entries. unfold update_commit_index. quiet_auto; auto.
Qed.

Lemma quiet_handle_append_entries request :
  no_config (ae_entries request) → steps quiet (handle_append_entries request).
Proof.
  intros H. pose proof (quiet_append_entries_check (ae_prev_log_index request)
    (ae_prev_log_term request) (ae_entries request) H). pose proof quiet_update_commit_index.
  intros s. unfold handle_append_entries. rewrite let_gets.
  destruct (N.ltb_spec (ae_term request) (_current_term s)); [reflexivity|]. rewrite let_gets.
  destruct (N.ltb_spec (_current_term s) (ae_term request)).
  { rewrite let_modify. apply (steps_from quiet); [by apply quiet_become_follower|].
    quiet_auto; auto. }
  destruct (_state s) eqn:Es; simpl is_candidate_state; cbn [mwhen].
  2: { rewrite let_modify. apply (steps_from quiet); [by apply quiet_candidate_steps_down|].
       quiet_auto; auto. }
  all: apply (steps_from quiet); [reflexivity|]; quiet_auto; auto.
Qed.

(** *** Snapshots *)

Lemma quiet_erase_front k s : quiet s (erase_front k s).
Proof. apply quiet_view; try done. intros Hl. by apply Forall_drop. Qed.

Lemma quiet_install_snapshot snap :
  snap_configuration snap = C → steps quiet (install_snapshot snap).
Proof.
  intros Hs. pose proof quiet_sync_peer2peer_membership. unfold install_snapshot. quiet_auto; auto.
  - intros s (H1 & H2 & H3). split; [done|].
    split; [done|]. right. split; [done|]. by left.
  - intros s. case_match; [quiet_update|reflexivity].
  - intros s. case_match; [apply quiet_erase_front|reflexivity].
Qed.

Lemma quiet_discard_or_retain request : steps quiet (discard_or_retain request).
Proof.
  unfold discard_or_retain. quiet_auto. intros s. apply quiet_erase_front.
Qed.

Lemma quiet_install_complete request data : steps quiet (install_complete request data).
Proof.
  intros s Hst. unfold install_complete. rewrite let_gets. pose proof Hst as (Hc & _).
  refine (steps_from quiet _ s s _ _ Hst); [reflexivity|]. pose proof quiet_discard_or_retain.
  quiet_auto; auto. by apply quiet_install_snapshot.
Qed.

Lemma quiet_handle_install_snapshot request : steps quiet (handle_install_snapshot request).
Proof.
  intros s. unfold handle_install_snapshot, snapshot_reply. rewrite let_gets.
  destruct (N.ltb_spec (is_term request) (_current_term s)); [reflexivity|].
  destruct (N.ltb_spec (_current_term s) (is_term request)); cbn [mwhen].
  - rewrite let_modify. apply (steps_from quiet); [by apply quiet_become_follower|].
    pose proof quiet_install_complete. quiet_auto; auto.
  - apply (steps_from quiet); [reflexivity|]. pose proof quiet_install_complete. quiet_auto; auto.
Qed.

Lemma quiet_on_install_snapshot_reply target snap request reply s :
  quiet s (on_install_snapshot_reply target snap request reply s).
Proof.
  unfold on_install_snapshot_reply. destruct reply as [r| |]; [|reflexivity..].
  destruct (N.ltb_spec (_current_term s) (isr_term r)); [by apply quiet_become_follower|].
  case_match; [reflexivity|]. apply quiet_core; auto with core.
Qed.

(** *** Responses and client operations *)

Lemma quiet_on_append_entries_response target next_idx sent resp :
  steps quiet (on_append_entries_response target next_idx sent resp).
Proof.
  pose proof quiet_advance_commit_index.
  unfold on_append_entries_response. destruct resp as [r| |]; [|quiet_auto..].
  intros s. rewrite let_gets.
  destruct (N.ltb_spec (_current_term s) (aer_term r)); [by apply quiet_become_follower|].
  apply (steps_from quiet); [reflexivity|]. quiet_auto; auto.
Qed.

Lemma quiet_on_heartbeat_response target resp s : quiet s (on_heartbeat_response target resp s).
Proof.
  unfold on_heartbeat_response. destruct resp as [r| |].
  - destruct (N.ltb_spec (_current_term s) (aer_term r)); [by apply quiet_become_follower|].
    repeat case_match; reflexivity || quiet_update.
  - repeat case_match; quiet_update.
  - repeat case_match; quiet_update.
Qed.

Lemma quiet_replicate_to_followers : steps quiet replicate_to_followers.
Proof. pose proof quiet_advance_commit_index. unfold replicate_to_followers. quiet_auto; auto. Qed.

Lemma quiet_submit_command command timeout : steps quiet (submit_command command timeout).
Proof.
  pose proof quiet_replicate_to_followers. intros s. unfold submit_command. rewrite let_gets.
  destruct (is_leader_state (_state s)); cbn [negb]; [|by apply (quiet_core s)].
  rewrite let_gets. apply (steps_from quiet); [reflexivity|]. quiet_auto; auto.
  intros s'. apply quiet_view; try done. intros Hl. apply Forall_app. split; [done|].
  by apply Forall_singleton.
Qed.

Lemma newer_term_gt t rs t' : newer_term t rs = Some t' → (t < t')%N.
Proof.
  unfold newer_term. induction rs as [|r rs IH]; simpl; [done|].
  destruct (N.ltb_spec t (aer_term r)); simpl; [|done]. by intros [= <-].
Qed.

Lemma quiet_on_read_acks t responses : steps quiet (on_read_acks t responses).
Proof.
  intros s. unfold on_read_acks. rewrite let_get. case_match; [reflexivity|].
  case_match; [reflexivity|]. destruct (newer_term _ _) as [t'|] eqn:E; [|reflexivity].
  rewrite let_modify. by apply quiet_become_follower, (newer_term_gt _ responses).
Qed.

Lemma quiet_read_state : steps quiet read_state.
Proof. unfold read_state. quiet_auto. Qed.

Lemma quiet_on_fetch_response from_index resp :
  (∀ r, resp = Ret r → no_config (flr_entries r)) → steps quiet (on_fetch_response from_index resp).
Proof.
  intros H. unfold on_fetch_response. quiet_auto. apply quiet_append_entries_check. by apply H.
Qed.

Lemma quiet_handle_request_pre_vote request : steps quiet (handle_request_pre_vote request).
Proof. unfold handle_request_pre_vote, refuse_vote. quiet_auto. Qed.

(** *** The vote exchange *)

(** The state after a vote for [c] in term [T] was recorded. *)
Definition voted_rel (c T : N) s s' : Prop :=
  _node_id s' = _node_id s ∧ _current_term s' = T ∧ _voted_for s' = Some c ∧
  ((_current_term s < T)%N ∧ _state s' = follower ∨
   _current_term s = T ∧ _state s' = _state s ∧ (_voted_for s = None ∨ _voted_for s = Some c)).

Lemma grant_vote_effect c s :
  static C s → (_voted_for s = None ∨ _voted_for s = Some c) →
  static C (grant_vote c s).2 ∧ voted_rel c (_current_term s) s (grant_vote c s).2 ∧
  (∀ r, (grant_vote c s).1 = Ret r → r = mk_vote_resp (_current_term s) true).
Proof.
  intros (H1 & H2 & H3) Hv. unfold grant_vote. rewrite let_modify.
  unfold mlet, persist, gets, mmodify.
  destruct (save_voted_for c _) as [[[]|e|w] p1]; simpl; [|unfold static, voted_rel; naive_solver..].
  destruct (save_current_term _ _) as [[[]|e|w] p2]; simpl; unfold static, voted_rel; naive_solver.
Qed.

(** A vote request either leaves vote and role to the discipline above, with
    no vote granted, or records a vote for the candidate in the request's term. *)
Lemma handle_request_vote_effect request s :
  static C s →
  static C (handle_request_vote request s).2 ∧
  (vote_rel s (handle_request_vote request s).2 ∧
     (∀ r, (handle_request_vote request s).1 = Ret r → rvr_vote_granted r = false) ∨
   voted_rel (rv_candidate_id request) (rv_term request) s (handle_request_vote request s).2 ∧
     (∀ r, (handle_request_vote request s).1 = Ret r → rvr_term r = rv_term request)).
Proof.
  intros Hst. unfold handle_request_vote, refuse_vote. rewrite let_gets.
  assert (vote_rel s s) as Hrefl by reflexivity.
  assert (∀ s1 : node, vote_rel s s1 → static C s1 →
    static C (gets (λ s, mk_vote_resp (_current_term s) false) s1).2 ∧
    vote_rel s (gets (λ s, mk_vote_resp (_current_term s) false) s1).2 ∧
    (∀ r, (gets (λ s, mk_vote_resp (_current_term s) false) s1).1 = Ret r →
       rvr_vote_granted r = false)) as Hrefuse.
  { intros s1 Hv1 Hst1. split_and!; [done|done|]. by intros r [= <-]. }
  destruct (is_learner s); [naive_solver|]. rewrite let_gets.
  destruct (N.ltb_spec (rv_term request) (_current_term s)); [naive_solver|].
  assert (∃ s1, (∀ k : () → M node request_vote_response,
     mlet (mwhen (_current_term s <? rv_term request)%N
             (mmodify (become_follower (rv_term request)))) k s = k tt s1) ∧
     static C s1 ∧ vote_rel s s1 ∧ _current_term s1 = rv_term request ∧
     (s1 = s ∨ (_current_term s < rv_term request)%N ∧ _state s1 = follower))
    as (s1 & E & Hst1 & Hv1 & Ht1 & Hs1).
  { destruct (N.ltb_spec (_current_term s) (rv_term request)); cbn [mwhen].
    - exists (become_follower (rv_term request) s). split; [done|].
      destruct (quiet_become_follower (rv_term request) s) as [? ?]; [done..|].
      split_and!; [done..| |right]; unfold become_follower; by destruct (is_leader_state (_state s)).
    - exists s. split_and!; [done..|lia|by left]. }
  rewrite E. clear E. rewrite let_gets.
  destruct (_voted_for s1) as [c|] eqn:Ev; [destruct (N.eqb_spec c (rv_candidate_id request)) as [->|]|];
    cbn [negb].
  2: { destruct (Hrefuse s1 Hv1 Hst1) as (?&?&?). auto. }
  all: rewrite let_gets;
    destruct (candidate_log_up_to_date _ _ s1); cbn [negb]; [|naive_solver].
  all: destruct (grant_vote_effect (rv_candidate_id request) s1 Hst1) as (Hst2 & Hv2 & Hr);
    [by auto|]; split; [done|right]; split; [|intros r Er; rewrite (Hr r Er); done].
  all: unfold voted_rel in *; destruct Hv1 as [Hid1 Hv1], Hv2 as (Hid2 & Ht2 & Hvf2 & Hs2).
  all: split_and!; [congruence..|]; destruct Hs1 as [->|[Hlt Hf]]; [right|left].
  all: destruct Hs2 as [[? ?]|(_ & ? & _)]; try lia; split_and!; auto; congruence.
Qed.

(** *** Candidacies *)

Definition same_vote s s' : Prop :=
  _node_id s' = _node_id s ∧ _current_term s' = _current_term s ∧ _voted_for s' = _voted_for s ∧
  _state s' = _state s.

(** A candidate becomes leader of its term. *)
Definition elected_rel s s' : Prop :=
  _node_id s' = _node_id s ∧ _current_term s' = _current_term s ∧ _voted_for s' = _voted_for s ∧
  _state s = candidate ∧ _state s' = leader.

(** A node opens a new term with a vote for itself. *)
Definition candidacy_rel s s' : Prop :=
  _node_id s' = _node_id s ∧ (_current_term s < _current_term s')%N ∧
  _voted_for s' = Some (_node_id s) ∧ _state s' = candidate.

Lemma become_candidate_effect s :
  static C s → is_u64 (_current_term s + 1) →
  static C (become_candidate s).2 ∧ candidacy_rel s (become_candidate s).2.
Proof.
  intros (H1 & H2 & H3) Hu. unfold become_candidate. rewrite !let_gets, !let_modify, let_gets.
  unfold mlet, persist, gets, mmodify. simpl. rewrite u64_add_small by exact Hu.
  destruct (save_current_term _ _) as [[[]|e|w] p1]; simpl; [|unfold static, candidacy_rel; naive_solver lia..].
  destruct (save_voted_for _ _) as [[[]|e|w] p2]; simpl; [|unfold static, candidacy_rel; naive_solver lia..].
  destruct (is_leader_state (_state s)); unfold static, candidacy_rel; simpl; naive_solver lia.
Qed.

Lemma become_leader_effect s :
  static C s → _state s = candidate →
  static C (become_leader s).2 ∧ elected_rel s (become_leader s).2.
Proof.
  intros (H1 & H2 & H3) Hc. unfold become_leader. rewrite let_modify, let_gets.
  unfold append_and_persist, mlet, persist, mmodify. simpl.
  assert (Forall (λ e, is_configuration_entry e = false)
    (_log s ++ [mk_entry (_current_term s) (get_last_log_index (set_state leader s) ⊕ 1) [] no_op])).
  { apply Forall_app. split; [done|]. by apply Forall_singleton. }
  destruct (Persistence.append_log_entry _ _) as [[[]|e|w] p1]; simpl;
    [|unfold static, elected_rel; simpl; by split_and!..].
  set (s1 := set_persistence p1 _). pose proof (core_init_peers s1) as E. unfold core in E.
  injection E; clear E; intros. unfold static, elected_rel, start_quorum_loop.
  repeat match goal with |- context [?f (set_last_quorum_check _ _)] => progress simpl end.
  unfold s1 in *. simpl in *. split_and!; congruence.
Qed.

(** [start_election] either leaves the votes alone or, without peers, makes the
    candidate leader. *)
Lemma start_election_effect s :
  static C s →
  static C (start_election s).2 ∧
  (same_vote s (start_election s).2 ∨ elected_rel s (start_election s).2 ∧ peer_ids s = []).
Proof.
  intros Hst. unfold start_election. rewrite let_gets.
  destruct (_state s) eqn:Es; cbn [is_candidate_state negb]; try (split; [done|left; done]).
  rewrite !let_gets, (let_eval _ _ _ _ _ (mfor_modify _ _ _)). set (s1 := foldl _ _ _).
  assert (core s1 = core s) as Hc by (by apply core_foldl).
  assert (static C s1) as Hst1 by apply (quiet_core s s1 Hc Hst).
  unfold core in Hc. injection Hc; clear Hc; intros.
  case_bool_decide as Hp; [|split; [done|left; unfold same_vote; simpl; split_and!; congruence]].
  rewrite let_gets. replace (_state s1) with candidate by congruence. cbn [is_candidate_state].
  destruct (_current_term s1 =? _current_term s)%N; cbn [mwhen andb].
  2: { split; [done|left; unfold same_vote; simpl; split_and!; congruence]. }
  destruct (become_leader_effect s1 Hst1) as [Hst2 Hel]; [congruence|].
  unfold mlet, mreturn. destruct (become_leader s1) as [[[]|?|?] s2]; simpl in *;
    (split; [done|right]; split; [|done]); unfold elected_rel in *; naive_solver congruence.
Qed.

(** A node opens a new term; it is its leader at once if it is the only voter. *)
Definition opened_rel s s' : Prop :=
  _node_id s' = _node_id s ∧ (_current_term s < _current_term s')%N ∧
  _voted_for s' = Some (_node_id s) ∧
  (_state s' = candidate ∨ _state s' = leader ∧ ∀ n, n ∈ _nodes C → n = _node_id s).

Lemma same_vote_rel s s' : same_vote s s' → vote_rel s s'.
Proof. intros (?&?&?&?). split; [done|]. right. auto. Qed.

Context (Hjoint : _is_joint_consensus C = false).

Lemma peer_ids_static s : static C s → peer_ids s = filter (λ p, p ≠ _node_id s) (_nodes C).
Proof. intros (Hc & _). unfold peer_ids, joint_old_nodes. by rewrite Hc, Hjoint. Qed.

Lemma candidacy_effect s :
  static C s → is_u64 (_current_term s + 1) →
  static C ((do! become_candidate in start_election) s).2 ∧
  opened_rel s ((do! become_candidate in start_election) s).2.
Proof.
  intros Hst Hu. destruct (become_candidate_effect s Hst Hu) as [Hst1 (Hid & Ht & Hv & Hs)].
  unfold mlet. destruct (become_candidate s) as [[[]|e|w] s1]; simpl in *;
    [|unfold opened_rel; auto 10..].
  destruct (start_election_effect s1 Hst1) as [Hst2 [(?&?&?&?)|[(?&?&?&?&?) Hp]]]; split; try done;
    unfold opened_rel.
  - split_and!; [congruence..|]. left. congruence.
  - split_and!; [congruence..|]. right. split; [done|]. intros n Hn.
    rewrite (peer_ids_static s1 Hst1) in Hp. destruct (decide (n = _node_id s)) as [|Hne]; [done|].
    assert (n ∈ filter (λ p, p ≠ _node_id s1) (_nodes C)) as Hin.
    { apply list_elem_of_filter. split; [congruence|done]. }
    rewrite Hp in Hin. by apply not_elem_of_nil in Hin.
Qed.

Lemma quiet_static_vote s s' : static C s → quiet s s' → static C s' ∧ (vote_rel s s' ∨ opened_rel s s').
Proof. intros Hst H. destruct (H Hst). auto. Qed.

Lemma start_pre_vote_effect s :
  static C s → is_u64 (_current_term s + 1) →
  static C (start_pre_vote s).2 ∧
  (vote_rel s (start_pre_vote s).2 ∨ opened_rel s (start_pre_vote s).2).
Proof.
  intros Hst Hu. unfold start_pre_vote. rewrite let_gets.
  case_match; [by apply quiet_static_vote; [|reflexivity]|].
  rewrite let_modify, !let_gets. set (s1 := randomize_election_timeout _).
  assert (core s1 = core s) as Hc by done. assert (static C s1) as Hst1 by done.
  case_bool_decide.
  - destruct (candidacy_effect s1 Hst1 Hu) as [Hst2 Ho]. unfold mlet in *.
    destruct (become_candidate s1) as [[[]|?|?] s2]; simpl in *;
      [|split; [done|right; exact Ho]..].
    destruct (start_election s2) as [[?|?|?] s3]; simpl in *; (split; [done|right; exact Ho]).
  - rewrite (let_eval _ _ _ _ _ (mfor_modify _ _ _)). apply quiet_static_vote; [done|].
    apply quiet_core. simpl. by rewrite core_foldl.
Qed.

Lemma election_tick_effect pre_vote s :
  static C s → is_u64 (_current_term s + 1) →
  static C (election_tick pre_vote s).2 ∧
  (vote_rel s (election_tick pre_vote s).2 ∨ opened_rel s (election_tick pre_vote s).2).
Proof.
  intros Hst Hu. unfold election_tick. rewrite let_gets.
  case_match; [by apply quiet_static_vote; [|reflexivity]|]. rewrite let_gets.
  case_match; [by apply quiet_static_vote; [|reflexivity]|].
  destruct pre_vote; [by apply start_pre_vote_effect|].
  destruct (candidacy_effect s Hst Hu). auto.
Qed.

Lemma on_pre_votes_collected_effect ctx results s :
  static C s → is_u64 (_current_term s + 1) →
  static C (on_pre_votes_collected ctx results s).2 ∧
  (vote_rel s (on_pre_votes_collected ctx results s).2 ∨
   opened_rel s (on_pre_votes_collected ctx results s).2).
Proof.
  intros Hst Hu. unfold on_pre_votes_collected. rewrite let_gets.
  case_match; [by apply quiet_static_vote; [|reflexivity]|]. rewrite let_gets.
  case_match; [by apply quiet_static_vote; [|reflexivity]|].
  destruct (candidacy_effect s Hst Hu). auto.
Qed.

Lemma higher_term_gt t rs t' : higher_term t rs = Some t' → (t < t')%N.
Proof.
  unfold higher_term. induction rs as [|[[p r]|] rs IH]; simpl; [done| |done].
  destruct (N.ltb_spec t (rvr_term r)); simpl; [|done]. by intros [= <-].
Qed.

Lemma on_votes_collected_effect ctx results s :
  static C s →
  static C (on_votes_collected ctx results s).2 ∧
  (vote_rel s (on_votes_collected ctx results s).2 ∨
   elected_rel s (on_votes_collected ctx results s).2 ∧ vc_term ctx = _current_term s ∧
   election_won (_node_id s) ctx results = true).
Proof.
  intros Hst. assert (vote_rel s s) by reflexivity.
  unfold on_votes_collected. rewrite let_gets.
  destruct (_state s) eqn:Es; cbn [is_candidate_state andb negb]; try (split; [done|by left]).
  destruct (N.eqb_spec (_current_term s) (vc_term ctx)) as [Et|]; cbn [negb];
    [|split; [done|by left]].
  rewrite let_gets. destruct (higher_term _ _) as [t|] eqn:Eh.
  - apply higher_term_gt in Eh. destruct (quiet_become_follower t s Eh Hst). auto.
  - rewrite let_gets. destruct (election_won _ _ _) eqn:Ew; cbn [mwhen]; [|split; [done|by left]].
    destruct (become_leader_effect s Hst Es). auto.
Qed.

End vote_discipline.

(** ** The cluster *)

Section cluster.
Context {P SM : Type} `{!PersistenceEngine P, !StateMachine SM} {JL : JsonLib}.
Abbreviation node := (node P SM).
Context (C : cluster_configuration).

(** Everything a node may do besides the vote exchange. *)
Inductive background : Type :=
  | bg_append_entries (request : append_entries_request)
  | bg_install_snapshot (request : install_snapshot_request)
  | bg_request_pre_vote (request : request_vote_request)
  | bg_append_response (target next_idx : N) (sent : list log_entry)
      (response : outcome append_entries_response)
  | bg_heartbeat_response (target : N) (response : outcome append_entries_response)
  | bg_snapshot_reply (target : N) (snap : snapshot) (request : install_snapshot_request)
      (reply : outcome install_snapshot_response)
  | bg_replicate
  | bg_submit (command : bytes) (timeout : Z)
  | bg_read
  | bg_read_acks (term : N) (responses : list append_entries_response)
  | bg_fetch_response (from_index : N) (response : outcome fetch_log_entries_response)
  | bg_expire_operations
  | bg_clock (time : Z).

Definition background_step (b : background) (s : node) : node :=
  match b with
  | bg_append_entries request => state_of (handle_append_entries request) s
  | bg_install_snapshot request => state_of (handle_install_snapshot request) s
  | bg_request_pre_vote request => state_of (handle_request_pre_vote request) s
  | bg_append_response target next_idx sent response =>
      state_of (on_append_entries_response target next_idx sent response) s
  | bg_heartbeat_response target response => on_heartbeat_response target response s
  | bg_snapshot_reply target snap request reply =>
      on_install_snapshot_reply target snap request reply s
  | bg_replicate => state_of replicate_to_followers s
  | bg_submit command timeout => state_of (submit_command command timeout) s
  | bg_read => state_of read_state s
  | bg_read_acks term responses => state_of (on_read_acks term responses) s
  | bg_fetch_response from_index response => state_of (on_fetch_response from_index response) s
  | bg_expire_operations => with_waiter (cancel_timed_out_operations (now s)) s
  | bg_clock time => set_now time s
  end.

(** Entries received carry no configuration change. *)
Definition background_ok (b : background) : Prop :=
  match b with
  | bg_append_entries request => no_config (ae_entries request)
  | bg_fetch_response _ (Ret response) => no_config (flr_entries response)
  | _ => True
  end.

Lemma background_quiet b (s : node) : background_ok b → quiet C s (background_step b s).
Proof.
  destruct b; simpl; intros Hok.
  - by apply quiet_handle_append_entries.
  - apply quiet_handle_install_snapshot.
  - apply quiet_handle_request_pre_vote.
  - apply quiet_on_append_entries_response.
  - apply quiet_on_heartbeat_response.
  - apply quiet_on_install_snapshot_reply.
  - apply quiet_replicate_to_followers.
  - apply quiet_submit_command.
  - apply quiet_read_state.
  - apply quiet_on_read_acks.
  - apply quiet_on_fetch_response. intros r ->. done.
  - by apply quiet_core.
  - by apply quiet_core.
Qed.

(** The nodes, the votes granted so far (voter, term, candidate), and the
    leaderships observed so far (node, term). *)
Record cluster : Type := mk_cluster {
  members : gmap N node;
  grants : list (N * N * N);
  leaderships : list (N * N)
}.

Definition observe (x : N) (s : node) (l : list (N * N)) : list (N * N) :=
  if is_leader_state (_state s) then (x, _current_term s) :: l else l.

Definition update (x : N) (s : node) (c : cluster) : cluster :=
  mk_cluster (<[x := s]> (members c)) (grants c) (observe x s (leaderships c)).

(** The votes a response adds. *)
Definition granted_by (x : N) (request : request_vote_request) (o : outcome request_vote_response) :
    list (N * N * N) :=
  match o with
  | Ret r => if rvr_vote_granted r then [(x, rvr_term r, rv_candidate_id request)] else []
  | _ => []
  end.

Definition record_grants (g : list (N * N * N)) (c : cluster) : cluster :=
  mk_cluster (members c) (g ++ grants c) (leaderships c).

Inductive cluster_step : cluster → cluster → Prop :=
  | step_background c x s b :
      members c !! x = Some s → background_ok b →
      cluster_step c (update x (background_step b s) c)
  | step_request_vote c x s request :
      members c !! x = Some s → rv_candidate_id request ≠ x →
      cluster_step c (update x (state_of (handle_request_vote request) s)
        (record_grants (granted_by x request (result_of (handle_request_vote request) s)) c))
  | step_election_tick c x s pre_vote :
      members c !! x = Some s → is_u64 (_current_term s + 1) →
      cluster_step c (update x (state_of (election_tick pre_vote) s) c)
  | step_pre_votes c x s ctx results :
      members c !! x = Some s → is_u64 (_current_term s + 1) →
      cluster_step c (update x (state_of (on_pre_votes_collected ctx results) s) c)
  | step_votes c x s ctx results :
      members c !! x = Some s →
      snap_c_new ctx = _nodes C → snap_c_old ctx = None →
      (∀ p r, Some (p, r) ∈ results → rvr_vote_granted r = true → (p, vc_term ctx, x) ∈ grants c) →
      cluster_step c (update x (state_of (on_votes_collected ctx results) s) c).

(** Nodes start as followers of the fixed configuration. *)
Definition cluster_init (c : cluster) : Prop :=
  grants c = [] ∧ leaderships c = [] ∧
  ∀ x s, members c !! x = Some s → _node_id s = x ∧ static C s ∧ _state s = follower.

(** ** The invariant *)

Definition support (x T : N) (g : list (N * N * N)) : list N :=
  filter (λ n, n = x ∨ (n, T, x) ∈ g) (_nodes C).

(** A majority of the voters is [x] itself or granted [x] its vote in [T]. *)
Definition has_support (x T : N) (g : list (N * N * N)) : Prop :=
  length (_nodes C) < 2 * length (support x T g).

Record cluster_inv (c : cluster) : Prop := {
  inv_node x s : members c !! x = Some s →
    _node_id s = x ∧ static C s ∧ (_state s ≠ follower → _voted_for s = Some x) ∧
    (_state s = leader → (x, _current_term s) ∈ leaderships c);
  inv_grant x T d : (x, T, d) ∈ grants c →
    d ≠ x ∧ ∃ s, members c !! x = Some s ∧
      ((T < _current_term s)%N ∨ T = _current_term s ∧ _voted_for s = Some d);
  inv_unique x T d d' : (x, T, d) ∈ grants c → (x, T, d') ∈ grants c → d = d';
  inv_leader x T : (x, T) ∈ leaderships c →
    has_support x T (grants c) ∧ ∃ s, members c !! x = Some s ∧
      ((T < _current_term s)%N ∨ T = _current_term s ∧ _state s = leader);
  inv_loyal x T d : (x, T) ∈ leaderships c → (x, T, d) ∉ grants c
}.

(** What one step does to the node that takes it, and the votes it grants. *)
Inductive move (c : cluster) (x : N) (s : node) : node → list (N * N * N) → Prop :=
  | move_quiet s' : vote_rel s s' → move c x s s' []
  | move_voted s' d T g :
      voted_rel d T s s' → d ≠ x → (∀ v, v ∈ g → v = (x, T, d)) → move c x s s' g
  | move_opened s' : opened_rel C s s' → move c x s s' []
  | move_elected s' : elected_rel s s' → has_support x (_current_term s) (grants c) → move c x s s' [].

Lemma support_mono x T g g' : g ⊆ g' → length (support x T g) ≤ length (support x T g').
Proof.
  intros H. apply filter_length_mono. set_solver.
Qed.

Lemma has_support_mono x T g g' : g ⊆ g' → has_support x T g → has_support x T g'.
Proof. intros H. unfold has_support. pose proof (support_mono x T g g' H). lia. Qed.

(** A sole voter supports itself. *)
Lemma has_support_sole x T g :
  _nodes C ≠ [] → (∀ n, n ∈ _nodes C → n = x) → has_support x T g.
Proof.
  intros Hne Hall. unfold has_support, support.
  rewrite filter_all by auto.
  destruct (_nodes C); [done|simpl; lia].
Qed.

Context (Hne : _nodes C ≠ []).

(** Terms do not go back, and within a term a granted vote and a leadership
    stay. *)
Lemma move_keeps c x s s' g :
  cluster_inv c → members c !! x = Some s → move c x s s' g →
  _node_id s' = _node_id s ∧ (_current_term s <= _current_term s')%N ∧
  (_current_term s' = _current_term s → _state s = leader → _state s' = leader) ∧
  (∀ d, _current_term s' = _current_term s → d ≠ x → _voted_for s = Some d → _voted_for s' = Some d).
Proof.
  intros Hinv Hx Hm. destruct (inv_node c Hinv x s Hx) as (Hid & _ & Hvote & _).
  destruct Hm as [s' [? Hv]|s' d T g (?&?&?&Hv) ? ?|s' (?&?&?&?)|s' (?&?&?&?&?) ?].
  - destruct Hv as [(?&?&?)|(?&[(?&?)|(?&?&?)])]; split_and!; try done; try lia; try congruence.
    intros d0 _ Hd Hvf. rewrite Hvote in Hvf by congruence. congruence.
  - destruct Hv as [(?&?)|(?&?&[?|?])]; split_and!; try lia; try congruence.
    all: intros; congruence.
  - split_and!; try done; try lia.
  - split_and!; try done; try lia; congruence.
Qed.

Lemma elem_of_observe x s l y T :
  (y, T) ∈ observe x s l ↔ (_state s = leader ∧ y = x ∧ T = _current_term s) ∨ (y, T) ∈ l.
Proof. unfold observe. destruct (_state s); set_solver. Qed.

(** The mover keeps its own part of the invariant, and a leader has support. *)
Lemma move_node c x s s' g :
  cluster_inv c → members c !! x = Some s → move c x s s' g →
  (_state s' ≠ follower → _voted_for s' = Some x) ∧
  (_state s' = leader → has_support x (_current_term s') (g ++ grants c)).
Proof.
  intros Hinv Hx Hm. destruct (inv_node c Hinv x s Hx) as (Hid & _ & Hvote & Hlead).
  assert (_state s = leader → has_support x (_current_term s) (g ++ grants c)) as Hsup.
  { intros Hl. apply (has_support_mono _ _ (grants c)); [set_solver|].
    by apply (inv_leader c Hinv), Hlead. }
  destruct Hm as [s' [? Hv]|s' d T g (?&?&?&Hv) ? ?|s' (?&?&?&Hs)|s' (?&?&?&Hs&?) ?].
  - destruct Hv as [(?&?&?)|(Et&[(Es&Ev)|(?&?&?)])]; split; try congruence.
    + rewrite Es, Ev. done.
    + rewrite Es, Et. done.
  - destruct Hv as [(?&?)|(?&Es&[?|?])]; split; try congruence.
    + rewrite Es. intros Hf. specialize (Hvote Hf). congruence.
    + rewrite Es. intros Hl. assert (_state s ≠ follower) as Hf by congruence.
      specialize (Hvote Hf). congruence.
    + rewrite Es. intros Hf. specialize (Hvote Hf). congruence.
    + rewrite Es. intros Hl. assert (_state s ≠ follower) as Hf by congruence.
      specialize (Hvote Hf). congruence.
  - split; [congruence|]. intros Hl. destruct Hs as [?|[_ Hall]]; [congruence|].
    apply has_support_sole; [done|]. by rewrite <-Hid.
  - split; [|intros _; simpl; congruence].
    intros _. rewrite Hvote in * by congruence. congruence.
Qed.

Lemma move_grants c x s s' g y T d :
  cluster_inv c → members c !! x = Some s → move c x s s' g →
  (y, T, d) ∈ g ++ grants c →
  d ≠ y ∧ ∃ s0, <[x := s']> (members c) !! y = Some s0 ∧
    ((T < _current_term s0)%N ∨ T = _current_term s0 ∧ _voted_for s0 = Some d).
Proof.
  intros Hinv Hx Hm [Hg|Hg]%elem_of_app.
  - destruct Hm as [s' Hv|s' d' T' g (?&?&?&Hv) Hd Hall|s' Hv|s' Hv ?];
      try by apply not_elem_of_nil in Hg.
    apply Hall in Hg as [= -> -> ->]. split; [done|]. exists s'.
    rewrite lookup_insert_eq. auto.
  - destruct (inv_grant c Hinv y T d Hg) as (Hd & s0 & Hs0 & Ht). split; [done|].
    destruct (decide (y = x)) as [->|Hne']; [|exists s0; by rewrite lookup_insert_ne].
    exists s'. rewrite lookup_insert_eq. split; [done|].
    destruct (move_keeps c x s s' g Hinv Hx Hm) as (_ & Hle & _ & Hvf).
    assert (s0 = s) as -> by congruence. destruct Ht as [Ht|[-> Ht]]; [left; lia|].
    destruct (decide (_current_term s' = _current_term s)) as [E|]; [|left; lia].
    right. auto.
Qed.

Lemma move_unique c x s s' g y T d d' :
  cluster_inv c → members c !! x = Some s → move c x s s' g →
  (y, T, d) ∈ g ++ grants c → (y, T, d') ∈ g ++ grants c → d = d'.
Proof.
  intros Hinv Hx Hm.
  assert (∀ d d', (y, T, d) ∈ g → (y, T, d') ∈ grants c → d = d') as Hmix.
  { clear d d'. intros d d' Hg Ho. destruct (inv_grant c Hinv y T d' Ho) as (_ & s0 & Hs0 & Ht).
    destruct Hm as [s' Hv|s' d1 T1 g (?&?&?&Hv) Hd Hall|s' Hv|s' Hv ?];
      try by apply not_elem_of_nil in Hg.
    apply Hall in Hg as [= -> -> ->]. assert (s0 = s) as -> by congruence.
    destruct Ht as [Ht|[-> Ht]], Hv as [(?&?)|(?&?&[?|?])]; try lia; congruence. }
  intros [H1|H1]%elem_of_app [H2|H2]%elem_of_app; eauto; [|symmetry; eauto|by eapply inv_unique].
  destruct Hm as [s' Hv|s' d1 T1 g (?&?&?&Hv) Hd Hall|s' Hv|s' Hv ?];
    try by apply not_elem_of_nil in H1.
  apply Hall in H1 as [= -> -> ->]. apply Hall in H2 as [= ->]. done.
Qed.

(** A leader grants nobody a vote in its own term. *)
Lemma move_loyal c x s s' g y T d :
  cluster_inv c → members c !! x = Some s → move c x s s' g →
  (y, T) ∈ observe x s' (leaderships c) → (y, T, d) ∉ g ++ grants c.
Proof.
  intros Hinv Hx Hm Hl Hg. destruct (move_grants c x s s' g y T d Hinv Hx Hm Hg) as (Hd & s0 & Hs0 & Ht).
  apply elem_of_observe in Hl as [(Hlead & -> & ->)|Hl].
  - rewrite lookup_insert_eq in Hs0. simplify_eq. destruct Ht as [?|[_ Ht]]; [lia|].
    destruct (move_node c x s s0 g Hinv Hx Hm) as [Hv _].
    rewrite Hv in Ht by congruence. congruence.
  - apply elem_of_app in Hg as [Hg|Hg]; [|by eapply (inv_loyal c Hinv)].
    destruct (inv_node c Hinv x s Hx) as (_ & _ & Hvote & _).
    destruct Hm as [s' Hv|s' d1 T1 g (?&?&?&Hv) Hd1 Hall|s' Hv|s' Hv ?];
      try by apply not_elem_of_nil in Hg.
    apply Hall in Hg as [= -> -> ->].
    destruct (inv_leader c Hinv x T1 Hl) as (_ & s1 & Hs1 & Ht1). assert (s1 = s) as -> by congruence.
    destruct Ht1 as [Ht1|[-> Ht1]], Hv as [(?&?)|(?&?&Hvf)]; try lia.
    rewrite Hvote in Hvf by congruence. naive_solver.
Qed.

Lemma move_preserves c x s s' g :
  cluster_inv c → members c !! x = Some s → static C s' → move c x s s' g →
  cluster_inv (update x s' (record_grants g c)).
Proof.
  intros Hinv Hx Hst Hm. destruct (move_keeps c x s s' g Hinv Hx Hm) as (Hid & Hle & Hl & _).
  destruct (move_node c x s s' g Hinv Hx Hm) as [Hn1 Hn2].
  destruct (inv_node c Hinv x s Hx) as (Hidx & _).
  split; simpl.
  - intros y t Hy. destruct (decide (y = x)) as [->|Hne'].
    + rewrite lookup_insert_eq in Hy. simplify_eq. split_and!; [congruence|done|done|].
      intros Hlead. apply elem_of_observe. auto.
    + rewrite lookup_insert_ne in Hy by done.
      destruct (inv_node c Hinv y t Hy) as (?&?&?&Hin). split_and!; [done..|].
      intros Hlead. apply elem_of_observe. auto.
  - intros y T d. by apply (move_grants c x s).
  - intros y T d d'. by apply (move_unique c x s s').
  - intros y T [(Hlead & -> & ->)|Hin]%elem_of_observe.
    { split; [by apply Hn2|]. exists s'. rewrite lookup_insert_eq. auto. }
    destruct (inv_leader c Hinv y T Hin) as (Hsup & s0 & Hs0 & Ht).
    split; [apply (has_support_mono _ _ (grants c)); [set_solver|done]|].
    destruct (decide (y = x)) as [->|Hne']; [|exists s0; by rewrite lookup_insert_ne].
    exists s'. rewrite lookup_insert_eq. split; [done|].
    assert (s0 = s) as -> by congruence. destruct Ht as [Ht|[-> Ht]]; [left; lia|].
    destruct (decide (_current_term s' = _current_term s)) as [E|]; [|left; lia].
    right. auto.
  - intros y T d. by apply (move_loyal c x s).
Qed.

Lemma record_no_grants c : record_grants [] c = c.
Proof. by destruct c. Qed.

(** A won election has the support of the votes counted. *)
Lemma election_won_support c x ctx results :
  snap_c_new ctx = _nodes C → snap_c_old ctx = None →
  (∀ p r, Some (p, r) ∈ results → rvr_vote_granted r = true → (p, vc_term ctx, x) ∈ grants c) →
  election_won x ctx results = true → has_support x (vc_term ctx) (grants c).
Proof.
  intros Hnew Hold Hgen. unfold election_won, has_quorum, has_majority. rewrite Hold, Hnew.
  intros Hlt%N.ltb_lt. unfold has_support, support.
  assert (length (filter (λ n, has_vote_from x results n = true) (_nodes C)) ≤
          length (filter (λ n, n = x ∨ (n, vc_term ctx, x) ∈ grants c) (_nodes C))); [|lia].
  apply filter_length_mono. intros n _. unfold has_vote_from.
  intros [Hx|Hv]%orb_true_iff; [left; by apply N.eqb_eq|right].
  apply existsb_exists in Hv as ([[p r]|] & Hin & Hv); [|done].
  apply andb_true_iff in Hv as [->%N.eqb_eq Hg]. apply (Hgen n r); [|done].
  by apply list_elem_of_In.
Qed.

Context (Hjoint : _is_joint_consensus C = false).

Lemma cluster_step_inv c c' : cluster_step c c' → cluster_inv c → cluster_inv c'.
Proof.
  intros Hstep Hinv.
  destruct Hstep as [c x s b Hx Hok|c x s request Hx Hd|c x s pv Hx Hu|c x s ctx rs Hx Hu
                    |c x s ctx rs Hx Hnew Hold Hgen];
    destruct (inv_node c Hinv x s Hx) as (Hid & Hst & _); unfold state_of, result_of.
  - rewrite <-(record_no_grants c). destruct (background_quiet b s Hok Hst).
    eapply move_preserves; [done..|]. by constructor.
  - destruct (handle_request_vote_effect C request s Hst) as [Hst' [[Hv Hr]|[Hv Hr]]].
    + destruct (granted_by _ _ _) eqn:Eg; [eapply move_preserves; [done..|]; by constructor|].
      unfold granted_by in Eg. destruct (handle_request_vote request s).1; try done.
      by rewrite (Hr _ eq_refl) in Eg.
    + eapply move_preserves; [done..|]. eapply move_voted; [done..|].
      unfold granted_by. destruct (handle_request_vote request s).1; [|set_solver..].
      destruct (rvr_vote_granted _); [|set_solver]. rewrite (Hr _ eq_refl). set_solver.
  - rewrite <-(record_no_grants c).
    destruct (election_tick_effect C Hjoint pv s Hst Hu) as [Hst' [?|?]];
      (eapply move_preserves; [done..|]); by constructor.
  - rewrite <-(record_no_grants c).
    destruct (on_pre_votes_collected_effect C Hjoint ctx rs s Hst Hu) as [Hst' [?|?]];
      (eapply move_preserves; [done..|]); by constructor.
  - rewrite <-(record_no_grants c).
    destruct (on_votes_collected_effect C ctx rs s Hst) as [Hst' [?|(Hel & Ht & Hw)]];
      (eapply move_preserves; [done..|]); [by constructor|].
    apply move_elected; [done|]. rewrite <-Ht. rewrite Hid in Hw.
    by eapply election_won_support.
Qed.

Lemma cluster_init_inv c : cluster_init c → cluster_inv c.
Proof.
  intros (Hg & Hl & Hn). split.
  - intros x s Hx. destruct (Hn x s Hx) as (?&?&Hf). split_and!; congruence.
  - rewrite Hg. set_solver.
  - rewrite Hg. set_solver.
  - rewrite Hl. set_solver.
  - rewrite Hl. set_solver.
Qed.

Lemma reachable_inv c c' : cluster_init c → rtc cluster_step c c' → cluster_inv c'.
Proof.
  intros Hi Hr. apply cluster_init_inv in Hi. induction Hr; eauto using cluster_step_inv.
Qed.

(** Two majorities of one configuration share a voter, which supports one node
    only. *)
Lemma support_unique c x y T :
  cluster_inv c → (x, T) ∈ leaderships c → (y, T) ∈ leaderships c → x = y.
Proof.
  intros Hinv Hx Hy. destruct (inv_leader c Hinv x T Hx) as (Hsx & _).
  destruct (inv_leader c Hinv y T Hy) as (Hsy & _).
  unfold has_support, support in Hsx, Hsy.
  destruct (filter_overlap (λ n, n = x ∨ (n, T, x) ∈ grants c) (λ n, n = y ∨ (n, T, y) ∈ grants c)
              (_nodes C)) as (n & _ & Hnx & Hny); [lia|].
  pose proof (inv_loyal c Hinv x T y Hx). pose proof (inv_loyal c Hinv y T x Hy).
  destruct Hnx as [->|Hnx], Hny as [->|Hny]; try done. by eapply (inv_unique c Hinv).
Qed.

End cluster.

(** ** Result *)

(** C1. Election Safety: in every execution of a cluster under a fixed
    (non-joint, non-empty) configuration, with arbitrary interleavings of
    timeouts, votes, replication, snapshots and client calls and arbitrary
    message contents outside the vote exchange, two nodes that were ever leader
    in the same term are the same node. *)
Theorem election_safety {P SM : Type} `{!PersistenceEngine P, !StateMachine SM} {JL : JsonLib}
    (C : cluster_configuration) (c c' : @cluster P SM) (x y T : N) :
  _nodes C ≠ [] → _is_joint_consensus C = false →
  cluster_init C c → rtc (cluster_step C) c c' →
  (x, T) ∈ leaderships c' → (y, T) ∈ leaderships c' → x = y.
Proof.
  intros Hne Hj Hi Hr. apply (support_unique C c').
  by apply (reachable_inv C Hne Hj c).
Qed.

(** Three nodes; node 1 times out, asks node 2 and wins the term. *)
Definition sample_cluster : cluster :=
  mk_cluster {[ 1%N := sample_node 1; 2%N := sample_node 2; 3%N := sample_node 3 ]} [] [].

Lemma sample_cluster_init : cluster_init sample_configuration sample_cluster.
Proof.
  split_and!; [done|done|]. intros x s. unfold sample_cluster, members.
  intros H. repeat (apply lookup_insert_Some in H as [[<- <-]|[_ H]];
    [split_and!; try done; unfold static; split_and!; try done; apply Forall_nil_2|]).
  apply lookup_singleton_Some in H as [<- <-].
  split_and!; try done; unfold static; split_and!; try done; apply Forall_nil_2.
Qed.

Abbreviation sample_cluster_type := (@cluster memory_persistence_engine.engine kv).

Definition member (x : N) (c : sample_cluster_type) : sample_node_type :=
  default (sample_node x) (members c !! x).

Lemma member_lookup x (c : sample_cluster_type) :
  match members c !! x with Some _ => true | None => false end = true →
  members c !! x = Some (member x c).
Proof. unfold member. by destruct (members c !! x). Qed.

Definition sample_timeout : sample_cluster_type :=
  update 1 (background_step (bg_clock 1000000000) (member 1 sample_cluster)) sample_cluster.
Definition sample_candidacy : sample_cluster_type :=
  update 1 (state_of (election_tick false) (member 1 sample_timeout)) sample_timeout.
Definition sample_vote : sample_cluster_type :=
  let request := mk_vote_req 1 1 0 0 in
  let s := member 2 sample_candidacy in
  update 2 (state_of (handle_request_vote request) s)
    (record_grants (granted_by 2 request (result_of (handle_request_vote request) s)) sample_candidacy).
Definition sample_elected : sample_cluster_type :=
  update 1 (state_of (on_votes_collected (mk_vote_context 1 [1; 2; 3]%N None)
              [Some (2%N, mk_vote_resp 1 true); None]) (member 1 sample_vote)) sample_vote.

Lemma sample_election_runs : rtc (cluster_step sample_configuration) sample_cluster sample_elected.
Proof.
  apply rtc_l with sample_timeout.
  { apply step_background; [by apply member_lookup|exact I]. }
  apply rtc_l with sample_candidacy.
  { apply step_election_tick; [apply member_lookup|]; vm_compute; reflexivity. }
  apply rtc_l with sample_vote.
  { apply step_request_vote; [apply member_lookup; vm_compute; reflexivity|done]. }
  apply rtc_once, step_votes; [apply member_lookup; vm_compute; reflexivity|done|done|].
  intros p r Hin _. apply elem_of_cons in Hin as [[= -> ->]|Hin]; [vm_compute; left|].
  by apply list_elem_of_singleton in Hin.
Qed.

Lemma election_safety_witness :
  (1%N, 1%N) ∈ leaderships sample_elected ∧ ∀ y, (y, 1%N) ∈ leaderships sample_elected → 1%N = y.
Proof.
  assert ((1%N, 1%N) ∈ leaderships sample_elected) as Hin by (vm_compute; left).
  split; [exact Hin|]. intros y Hy.
  exact (election_safety sample_configuration sample_cluster sample_elected 1 y 1
           ltac:(done) eq_refl sample_cluster_init sample_election_runs Hin Hy).
Defined.
