(* ===== verification/Divergence.v ===== *)
(** Executions in which the implementation departs from its own documentation.

    Each scenario runs the handlers of the model on concrete nodes, starting
    from a fresh cluster of three and delivering the requests the nodes put in
    their outboxes; the result is read off the final states by computation. *)

From S2P Require Import Prelude Types ConfigEntry Membership Persistence CommitWaiter ConfigSync.
From S2P Require Import Node KvStateMachine Log Roles Sample AppendEntries Apply Election Snapshot.
From S2P Require Import Replication MembershipChange Client QuorumLoop Lifecycle.

Implicit Types s : sample_node_type.

(** ** Delivering messages *)

(** The last AppendEntries request (of any kind) sent to [target]. *)
Definition request_to (target : N) s : option append_entries_request :=
  last (omap (λ o, match o with
                   | out_append_entries t _ r | out_heartbeat t r | out_read_heartbeat t r =>
                       if (t =? target)%N then Some r else None
                   | _ => None
                   end) (outbox s)).

(** [target] handles the last request [s] sent it. *)
Definition deliver (target : N) s (receiver : sample_node_type) :
    outcome append_entries_response * sample_node_type :=
  match request_to target s with
  | Some r => handle_append_entries r receiver
  | None => (Undef "no request", receiver)
  end.

(** The sender handles the response to the request for index [next]. *)
Definition answered (target next : N) (response : outcome append_entries_response) s :
    sample_node_type :=
  state_of (on_append_entries_response target next
              (default [] (ae_entries <$> request_to target s)) response) s.

Definition submit (command : bytes) s : sample_node_type := state_of (submit_command command 0) s.

(** [candidate] times out and asks [voter], whose vote is counted. *)
Definition campaign s : sample_node_type :=
  state_of (election_tick false) (set_now (now s + 1000000000) s).
Definition vote_by s (voter : sample_node_type) : outcome request_vote_response * sample_node_type :=
  handle_request_vote (vote_request (_current_term s) s) voter.
Definition elect s (voter : N) (response : outcome request_vote_response) : sample_node_type :=
  state_of (on_votes_collected (mk_vote_context (_current_term s) [1; 2; 3]%N None)
              [match response with Ret r => Some (voter, r) | _ => None end]) s.

(** ** A read commits a stale entry

    Node 1 leads term 1 and appends a put it does not replicate.  Node 2 is
    elected in term 2 by node 3 and commits another put at the same index. *)
Module stale_commit.
Definition put1 : bytes := make_put_command [x61] [x01].
Definition put2 : bytes := make_put_command [x61] [x02].

Definition n1_candidate := campaign (sample_node 1).
Definition n3_voted := vote_by n1_candidate (sample_node 3).
Definition n1 := submit put1 (elect n1_candidate 3 n3_voted.1).

Definition n2_second_term := campaign (campaign (sample_node 2)).
Definition n3_voted2 := vote_by n2_second_term n3_voted.2.
Definition n2_leader := submit put2 (elect n2_second_term 3 n3_voted2.1).

(** Node 2 replicates its two entries to node 3 and commits them. *)
Definition n3_answer1 := deliver 3 n2_leader n3_voted2.2.
Definition n2_retry := answered 3 2 n3_answer1.1 n2_leader.
Definition n3_answer2 := deliver 3 n2_retry n3_answer1.2.
Definition n2_committed := answered 3 1 n3_answer2.1 n2_retry.

(** Node 1 rejects node 2's request, which sets its next index back to 1. *)
Definition n1_answer := deliver 1 n2_committed n1.
Definition n2_backed_off := answered 1 2 n1_answer.1 n2_committed.

(** A client reads from node 2. *)
Definition n2_reading := state_of read_state n2_backed_off.
Definition n1_after := deliver 1 n2_reading n1_answer.2.
End stale_commit.

(** State Machine Safety fails: a read makes a follower commit its own stale
    entry.  The heartbeats of [read_state] carry no entries and the leader's
    commit index; a follower takes the minimum of that index and its own last
    log index instead of the index of the last entry verified.  In the execution
    above node 1 accepts such a heartbeat, commits its unreplicated entry of
    term 1 at index 2 and applies it, while node 2 has committed and applied a
    different entry there: both have applied index 2, with different states. *)
Theorem read_heartbeat_commits_stale_entry :
  let n1 := stale_commit.n1_after.2 in
  let n2 := stale_commit.n2_reading in
  (∃ r, stale_commit.n1_after.1 = Ret r ∧ aer_success r = true) ∧
  _commit_index n1 = 2%N ∧ _commit_index n2 = 2%N ∧
  _last_applied n1 = 2%N ∧ _last_applied n2 = 2%N ∧
  entry_at 0 (_log n1) 2 ≠ entry_at 0 (_log n2) 2 ∧
  _store (_state_machine n1) !! [x61] = Some [x01] ∧
  _store (_state_machine n2) !! [x61] = Some [x02].
Proof. vm_compute. split; [by eexists|]. by repeat split. Qed.

(** ** A fetch from a stale peer drops a committed entry

    Node 3 asks its peer node 1, the deposed leader of term 1, for entries;
    before the answer arrives, node 2 replicates its entries to node 3 and
    commits them on the strength of node 3's acknowledgement. *)
Module stale_fetch.
Definition n3_asking := maybe_catch_up_from_peer stale_commit.n3_voted2.2.
Definition n3_fetching := on_catch_up_source true 1 100 (Ret (Some 1%N)) n3_asking.
Definition n1_response := handle_fetch_log_entries (mk_fetch_req 3 1 100) stale_commit.n1.
Definition n3_answer1 := deliver 3 stale_commit.n2_leader n3_fetching.
Definition n3_answer2 := deliver 3 stale_commit.n2_retry n3_answer1.2.
Definition n3_before := n3_answer2.2.
Definition n3_after := state_of (on_fetch_response 1 (Ret n1_response)) n3_before.
End stale_fetch.

(** A stale catch-up source overwrites acknowledged entries: the answer of a
    peer goes through the leader's consistency check, which truncates on a
    conflict, although the peer has no authority over the log.  In the execution
    above node 2's entries are committed (node 3 acknowledged them), and after
    the peer's answer node 3 has the deposed leader's entries instead, so the
    committed entry at index 2 is left on a single node. *)
Theorem stale_fetch_drops_committed_entry :
  let n2 := stale_commit.n2_committed in
  _commit_index n2 = 2%N ∧ _match_index n2 !! 3%N = Some 2%N ∧
  entry_at 0 (_log stale_fetch.n3_before) 2 = entry_at 0 (_log n2) 2 ∧
  entry_at 0 (_log stale_fetch.n3_after) 2 = entry_at 0 (_log stale_commit.n1) 2 ∧
  entry_at 0 (_log stale_fetch.n3_after) 2 ≠ entry_at 0 (_log n2) 2.
Proof. vm_compute. by repeat split. Qed.

(** ** A fresh leader answers reads without the committed state

    Node 1 commits a put with node 2 and reports it to the client; node 2 is
    then elected by node 3 and serves a read before anything of its own term is
    committed. *)
Module stale_read.
Definition n2_answer1 := deliver 2 stale_commit.n1 (sample_node 2).
Definition n1_retry := answered 2 2 n2_answer1.1 stale_commit.n1.
Definition n2_answer2 := deliver 2 n1_retry n2_answer1.2.
Definition n1_committed := answered 2 1 n2_answer2.1 n1_retry.
Definition n2_candidate := campaign n2_answer2.2.
Definition n3_voted := vote_by n2_candidate stale_commit.n3_voted.2.
Definition n2_leader := elect n2_candidate 3 n3_voted.1.
Definition n2_read := read_state n2_leader.
Definition n3_ack := deliver 3 n2_read.2 n3_voted.2.
Definition answer : outcome bytes :=
  match n3_ack.1 with
  | Ret r => result_of (on_read_acks (_current_term n2_read.2) [r]) n2_read.2
  | _ => Undef "no answer"
  end.
End stale_read.

(** Reads are not linearizable: [read_state] verifies leadership but not that
    the leader has applied (or even knows to be committed) the entries of
    earlier terms.  In the execution above a put was committed, applied and its
    client answered; the next leader's read then answers with the empty state,
    with as many acknowledgements as it waits for. *)
Theorem fresh_leader_read_misses_committed_write :
  (∃ p, resolved stale_read.n1_committed = [(p, Ret [])]) ∧
  _store (_state_machine stale_read.n1_committed) !! [x61] = Some [x01] ∧
  _state stale_read.n2_leader = leader ∧
  stale_read.n2_read.1 = Ret (read_waiting 2 1) ∧
  stale_read.answer = Ret (get_state kv_initial).
Proof. vm_compute. split; [by eexists|]. by repeat split. Qed.

(** ** Installing a snapshot drops the entries after it

    A follower holds entries 1 to 3 of one term and receives a snapshot that
    ends at entry 2 of that term. *)
Module retained_suffix.
Definition before : sample_node_type :=
  state_of (append_entries_with_consistency_check 0 0 sample_log) (sample_node 2).
Definition request : install_snapshot_request := mk_snap_req 1 1 2 1 0 (get_state kv_initial) true.
Definition after : sample_node_type := state_of (handle_install_snapshot request) before.
End retained_suffix.

(** Rule 6 of InstallSnapshot ("retain log entries following it") does not
    hold: the entry at the snapshot's index has the snapshot's term, yet entry 3
    is gone afterwards from the log, which [install_snapshot] trims a second
    time, and from storage, where the suffix is truncated instead of the
    prefix. *)
Theorem install_snapshot_drops_retained_suffix :
  retain_log retained_suffix.request retained_suffix.before = true ∧
  entry_at 0 (_log retained_suffix.before) 3 = sample_log !! 2 ∧
  result_of (handle_install_snapshot retained_suffix.request) retained_suffix.before
    = Ret (mk_snap_resp 1) ∧
  _log retained_suffix.after = [] ∧
  Persistence.get_log_entry 3 (_persistence retained_suffix.before) = sample_log !! 2 ∧
  Persistence.get_log_entry 3 (_persistence retained_suffix.after) = None ∧
  is_Some (Persistence.get_log_entry 2 (_persistence retained_suffix.after)).
Proof. vm_compute. repeat split. by eexists. Qed.

(** ** A crash between the two writes of a vote

    A node votes for node 2 in term 1, then is asked by node 3 in term 2 and
    fails after storing the vote and before storing the term. *)
Module torn_vote.
Definition voted : sample_node_type :=
  state_of (handle_request_vote (mk_vote_req 1 2 0 0)) (sample_node 1).
Definition with_fiu (enabled : string → bool) (p : memory_persistence_engine.engine) :
    memory_persistence_engine.engine :=
  memory_persistence_engine.mk_engine (memory_persistence_engine._current_term p)
    (memory_persistence_engine._voted_for p) (memory_persistence_engine._log p)
    (memory_persistence_engine._snapshot p) enabled.
Definition failing : sample_node_type :=
  set_persistence (with_fiu (λ n, bool_decide (n = "raft/persistence/save_current_term"%string))
    (_persistence voted)) voted.
Definition crashed := handle_request_vote (mk_vote_req 2 3 0 0) failing.
Definition restarted : sample_node_type :=
  state_of initialize_from_storage
    (set_persistence (with_fiu (λ _, false) (_persistence crashed.2)) (sample_node 1)).
End torn_vote.

(** One vote per term does not survive a crash: [handle_request_vote] stores
    the vote before the term, in two writes.  After a failure between them the
    restarted node is back in term 1 with the vote of term 2, and grants node 3
    a vote in term 1, in which it had already voted for node 2. *)
Theorem torn_vote_votes_twice :
  result_of (handle_request_vote (mk_vote_req 1 2 0 0)) (sample_node 1) = Ret (mk_vote_resp 1 true) ∧
  (∃ e, torn_vote.crashed.1 = Throw e) ∧
  _current_term torn_vote.restarted = 1%N ∧
  result_of (handle_request_vote (mk_vote_req 1 3 0 0)) torn_vote.restarted
    = Ret (mk_vote_resp 1 true).
Proof. vm_compute. split; [done|]. split; [by eexists|]. by split. Qed.

(** ** Stopping and starting again *)

(** Restarting a node object duplicates its unapplied entries: [start] after
    [stop] pushes the stored entries onto the log that is still in memory, so
    the log is no longer contiguous, although the comment in [start] promises
    that a restart works. *)
Theorem restart_duplicates_log :
  let stored := set_persistence (_persistence retained_suffix.before) (sample_node 2) in
  let running := state_of (start false) stored in
  let restarted := state_of (start false) (stop running) in
  _running running = true ∧ _log running = sample_log ∧
  result_of (start false) (stop running) = Ret tt ∧ _running restarted = true ∧
  _log restarted = sample_log ++ sample_log.
Proof. vm_compute. by repeat split. Qed.

(** ** A retry of a session's command

    A client submits its first command to a leader, gets no answer in time and
    sends the same request again.  (The verdict of the session table and the
    submission are run separately: [submit_command_with_session] as a whole has
    undefined behaviour after a submission.) *)
Module session_retry.
Definition leader1 : sample_node_type := elect stale_commit.n1_candidate 3 stale_commit.n3_voted.1.
Definition first := check_session 7 1 leader1.
Definition submitted := submit stale_commit.put1 first.2.
Definition second := check_session 7 1 submitted.
Definition resubmitted := submit stale_commit.put1 second.2.
End session_retry.

(** Duplicates in flight are not detected: the session table learns a serial
    number only when its command was applied, so the same request sent twice
    before that passes both times and the command is in the log twice. *)
Theorem session_retry_appends_twice :
  session_retry.first.1 = session_submit ∧ session_retry.second.1 = session_submit ∧
  e_command <$> _log session_retry.resubmitted = [[]; stale_commit.put1; stale_commit.put1].
Proof. vm_compute. by repeat split. Qed.

(** ** A membership change lost with its leader

    Node 1 leads term 1 and starts to add node 4.  Node 2 is elected in term 2,
    and its entry replaces the joint configuration in node 1's log, which then
    wins term 3. *)
Module lost_change.
Definition changing : sample_node_type := state_of (add_server 4) session_retry.leader1.
Definition replacement : append_entries_request := mk_append_req 2 2 1 1 [mk_entry 2 2 [] no_op] 0.
Definition overwritten := handle_append_entries replacement changing.
Definition n1_candidate := campaign overwritten.2.
Definition n3_voted := vote_by n1_candidate (sample_node 3).
Definition n1_leader := elect n1_candidate 3 n3_voted.1.
Definition second_change := add_server 5 n1_leader.
End lost_change.

(** A membership change that is lost with its leader blocks all later ones:
    nothing tells the synchronizer that the entry it waits for was overwritten,
    neither the loss of leadership nor the truncation.  In the execution above
    the configuration is back to the three voters and no entry of the log
    mentions node 4, but the leader of term 3 still refuses to add a server
    because a change is in progress. *)
Theorem lost_change_blocks_membership :
  _is_joint_consensus (_configuration lost_change.changing) = true ∧
  (∃ r, lost_change.overwritten.1 = Ret r ∧ aer_success r = true) ∧
  _state lost_change.n1_leader = leader ∧ _current_term lost_change.n1_leader = 3%N ∧
  _configuration lost_change.n1_leader = sample_configuration ∧
  e_type <$> _log lost_change.n1_leader = [no_op; no_op; no_op] ∧
  (∃ p, lost_change.second_change.1 = Ret p ∧
    last (resolved lost_change.second_change.2) =
      Some (p, Throw (runtime_error "Configuration change already in progress"))).
Proof.
  vm_compute. split; [done|]. split; [by eexists|]. do 4 (split; [done|]). by eexists.
Qed.

(** ** Provisioning a second replacement

    A leader of three voters in one placement group finds node 3 unreachable and
    has node 4 provisioned, which joins.  Then the group is short of a node again,
    node 2. *)
Module replacement.
Definition leader1 : sample_node_type :=
  set_topology [mk_target "rack" 3 None] session_retry.leader1.
Definition report (failed : N) : outcome quorum_health :=
  Ret (mk_health degraded 2 3 [failed] [mk_group_health "rack" 2 3 [failed]]).
Definition provisioned := state_of (run_quorum_assessment (λ _ _, true) (report 3)) leader1.
Definition ack (target : N) (s : sample_node_type) : sample_node_type :=
  state_of (on_append_entries_response target (next_index_of target s)
              (drop (N.to_nat (next_index_of target s - 1)) (_log s))
              (Ret (mk_append_resp (_current_term s) true None None))) s.
Definition joining := state_of replicate_to_followers (state_of (add_server 4) provisioned).
Definition joined := ack 4 (ack 2 (ack 4 (ack 2 joining))).
Definition assessed := run_quorum_assessment (λ _ _, true) (report 2) joined.
End replacement.

(** A group is provisioned only once: the count of pending provisions goes
    down only when a provisioning call fails, never when the new node joins.  In
    the execution above node 4 is provisioned, joins and is a voter of the
    committed configuration; the next assessment of the same leader, with the
    group short of a node again, provisions nothing because it still counts node
    4 as pending. *)
Theorem completed_provision_blocks_replacement :
  pending_provisions "rack" replacement.provisioned = 1%N ∧
  _nodes (_configuration replacement.joined) = [1; 2; 3; 4]%N ∧
  _is_joint_consensus (_configuration replacement.joined) = false ∧
  _state replacement.joined = leader ∧
  replacement.assessed = (Ret tt, set_last_quorum_check (now replacement.joined) replacement.joined).
Proof. vm_compute. by repeat split. Qed.
