(* ===== verification/CoapBlocks.v ===== *)
(** Block-wise transfers of the CoAP transport ([coap_block_option.hpp], the block
    functions of [coap_utils.hpp] and of [coap_transport_impl.hpp]): the Block
    option, how a payload is cut into blocks and put together again, and how a
    client and a server carry a large request.

    A map of active transfers is a [gmap] from tokens.  An option's value travels
    as the bytes of a [std::uint32_t] in the order of the host; it is read by
    libcoap's [coap_decode_var_bytes], which is a parameter.  Logging and metrics
    are left out; so are the session and the path of a transfer, which only name
    where the next block goes. *)

From S2P Require Import Prelude Types Bytes CborSerializer.

Local Open Scope N_scope.

(** ** The Block option *)

Definition u32_modulus : N := 4294967296.
Definition is_u32 (x : N) : Prop := x < u32_modulus.
Definition u32_wrap (x : N) : N := x mod u32_modulus.

Record block_option : Type := mk_block {
  block_number : N;
  more_blocks : bool;
  block_size : N
}.
#[export] Instance block_option_eq_dec : EqDecision block_option.
Proof. solve_decision. Defined.

Definition block_parse (option_value : N) : block_option :=
  let szx := N.land option_value 7 in
  mk_block (N.shiftr option_value 4)
    (negb (N.land (N.shiftr option_value 3) 1 =? 0))
    (N.shiftl 16 szx).

(** [while (size > 16 && szx < 7)]: seven rounds at most. *)
Fixpoint szx_loop (fuel : nat) (size szx : N) : N :=
  match fuel with
  | O => szx
  | S fuel => if (16 <? size) && (szx <? 7) then szx_loop fuel (N.shiftr size 1) (szx + 1) else szx
  end.

Definition block_encode (b : block_option) : N :=
  let szx := szx_loop 7 (block_size b) 0 in
  let result := N.land szx 7 in
  let result := N.lor result (N.shiftl (if more_blocks b then 1 else 0) 3) in
  N.lor result (u32_wrap (N.shiftl (block_number b) 4)).

(** ** Block sizes *)

Definition power_of_two (n : N) : bool := N.land n (n - 1) =? 0.

Definition is_valid_block_size (n : N) : bool := (16 <=? n) && (n <=? 1024) && power_of_two n.

(** [while (size > 16)], on a size of at most 1024. *)
Fixpoint count_halvings (fuel : nat) (size szx : N) : N :=
  match fuel with
  | O => szx
  | S fuel => if 16 <? size then count_halvings fuel (N.shiftr size 1) (szx + 1) else szx
  end.

Definition calculate_block_size_szx (n : N) : outcome N :=
  if n <? 16 then Throw (coap_transport_error "Block size must be at least 16 bytes")
  else if 1024 <? n then Throw (coap_transport_error "Block size must be at most 1024 bytes")
  else if negb (power_of_two n) then Throw (coap_transport_error "Block size must be a power of 2")
  else Ret (count_halvings 7 n 0).

Definition szx_to_block_size (szx : N) : outcome N :=
  if 6 <? szx then Throw (coap_transport_error "SZX value must be 0-6 (block sizes 16-1024)")
  else Ret (N.shiftl 1 (szx + 4)).

(** The settings of [coap_client_config] and [coap_server_config] that block
    transfers use, and what [validate_coap_client_config] checks of them. *)
Record coap_config : Type := mk_coap_config {
  enable_block_transfer : bool;
  max_block_size : N
}.

Definition validate_block_settings (cfg : coap_config) : outcome () :=
  if enable_block_transfer cfg then
    if max_block_size cfg <? 16 then
      Throw (coap_transport_error "max_block_size must be at least 16 bytes")
    else if 1024 <? max_block_size cfg then
      Throw (coap_transport_error "max_block_size must not exceed 1024 bytes")
    else if negb (is_valid_block_size (max_block_size cfg)) then
      Throw (coap_transport_error "max_block_size must be a power of 2 between 16 and 1024")
    else Ret tt
  else Ret tt.

(** ** Cutting a payload *)

Definition coap_overhead : N := 64.

Definition effective_block_size (cfg : coap_config) : N :=
  if coap_overhead <? max_block_size cfg then max_block_size cfg - coap_overhead else max_block_size cfg.

Definition should_use_block_transfer (cfg : coap_config) (payload : bytes) : bool :=
  if negb (enable_block_transfer cfg) then false
  else effective_block_size cfg <? N.of_nat (length payload).

(** [while (aligned < effective && aligned < 1024) aligned <<= 1], from 16: six
    rounds at most. *)
Fixpoint double_until (fuel : nat) (size limit : N) : N :=
  match fuel with
  | O => size
  | S fuel => if (size <? limit) && (size <? 1024) then double_until fuel (N.shiftl size 1) limit else size
  end.

Definition aligned_block_size (cfg : coap_config) : N :=
  let effective := effective_block_size cfg in
  let aligned := double_until 6 16 effective in
  if effective <? aligned then N.shiftr aligned 1 else aligned.

Fixpoint split_from (fuel : nat) (size offset : nat) (payload : bytes) : list bytes :=
  match fuel with
  | O => []
  | S fuel =>
      if (offset <? length payload)%nat then
        let current := Nat.min size (length payload - offset) in
        take current (drop offset payload) :: split_from fuel size (offset + current) payload
      else []
  end.

Definition split_payload_into_blocks (cfg : coap_config) (payload : bytes) : list bytes :=
  match payload with
  | [] => []
  | _ => split_from (length payload) (N.to_nat (aligned_block_size cfg)) 0 payload
  end.

(** ** Putting blocks together *)

Record block_transfer_state : Type := mk_transfer {
  complete_payload : bytes;
  received_size : N;
  next_block_num : N;
  transfer_block_size : N;
  last_activity : Z
}.

Definition transfers : Type := gmap string block_transfer_state.

Definition max_payload_size : N := 64 * 1024 * 1024.

(** The state of a token's transfer, created by its first block. *)
Definition transfer_of (token : string) (size : N) (now : Z) (ts : transfers) : block_transfer_state :=
  match ts !! token with
  | Some state => state
  | None => mk_transfer [] 0 0 size now
  end.

(** On an error the transfer is dropped and nothing is returned.  After the last
    block the state is erased and then, when the payload is empty, read again. *)
Definition reassemble_blocks (token : string) (block_data : bytes) (block_opt : block_option) (now : Z) :
    M transfers (option bytes) := λ ts,
  let state := transfer_of token (block_size block_opt) now ts in
  let dropped := delete token ts in
  let size := N.of_nat (length block_data) in
  if negb (block_number block_opt =? next_block_num state) then (Ret None, dropped)
  else if more_blocks block_opt && negb (size =? block_size block_opt) then (Ret None, dropped)
  else if bool_decide (block_data = []) && more_blocks block_opt then (Ret None, dropped)
  else if max_payload_size <? received_size state ⊕ size then (Ret None, dropped)
  else
    let state := mk_transfer (complete_payload state ++ block_data) (received_size state ⊕ size)
      (u32_wrap (next_block_num state + 1)) (transfer_block_size state) now in
    if more_blocks block_opt then (Ret None, <[token := state]> ts)
    else match complete_payload state with
         | [] => (Undef "transfer state read after it was erased", dropped)
         | payload => (Ret (Some payload), dropped)
         end.

(** Ages in nanoseconds. *)
Definition minutes (n : Z) : Z := (n * 60 * 1000000000)%Z.

Definition transfer_expired (now : Z) (state : block_transfer_state) : bool :=
  let age := (now - last_activity state)%Z in
  if next_block_num state =? 0 then bool_decide (minutes 2 < age)%Z
  else if (0 <? received_size state) && (0 <? next_block_num state) then bool_decide (minutes 5 < age)%Z
  else bool_decide (minutes 10 < age)%Z.

Definition cleanup_expired_block_transfers (now : Z) : M transfers () :=
  mmodify (filter (λ kv, transfer_expired now kv.2 = false)).

(** ** A large request between a client and a server *)

Inductive byte_order : Type := little_endian | big_endian.

(** The bytes of a [std::uint32_t] in memory. *)
Definition store_u32 (order : byte_order) (value : N) : bytes :=
  let le := map (λ shift, byte_at shift value) [0; 8; 16; 24] in
  match order with little_endian => le | big_endian => rev le end.

Record request_pdu : Type := mk_pdu { block1_value : option bytes; pdu_data : bytes }.

Inductive block1_reply : Type :=
  | reply_continue (ack : bytes)
  | request_complete (data : bytes).

Section exchange.
Context (coap_decode_var_bytes : bytes → N) (order : byte_order) (cfg : coap_config).

Definition block1_of (number : N) (blocks : list bytes) : bytes :=
  store_u32 order (block_encode
    (mk_block number (u32_wrap (number + 1) <? N.of_nat (length blocks)) (u32_wrap (max_block_size cfg)))).

(** [send_rpc]: the first message of a request, and the state kept for the rest. *)
Definition send_first (token : string) (request : bytes) (now : Z) : M transfers request_pdu :=
  if should_use_block_transfer cfg request then
    match split_payload_into_blocks cfg request with
    | [] => mreturn (mk_pdu None [])
    | (first :: rest) as blocks =>
        do! mwhen (1 <? N.of_nat (length blocks))
              (mmodify <[token := mk_transfer request 0 1 (u32_wrap (max_block_size cfg)) now]>) in
        mreturn (mk_pdu (Some (block1_of 0 blocks)) first)
    end
  else mreturn (mk_pdu None request).

(** [handle_response], when the answer carries a Block1 option: the next block, if
    there is one; otherwise the state is dropped. *)
Definition continue_request (token : string) (option_bytes : bytes) (now : Z) :
    M transfers (option request_pdu) :=
  let block_opt := block_parse (coap_decode_var_bytes option_bytes) in
  let! ts := mget in
  match ts !! token with
  | None => mreturn None
  | Some state =>
      let blocks := split_payload_into_blocks cfg (complete_payload state) in
      let next := u32_wrap (block_number block_opt + 1) in
      if next <? N.of_nat (length blocks) then
        match blocks !! N.to_nat next with
        | None => mundef "block out of range"
        | Some data =>
            do! mmodify <[token := mk_transfer (complete_payload state) (received_size state) next
                            (transfer_block_size state) now]> in
            mreturn (Some (mk_pdu (Some (block1_of next blocks)) data))
        end
      else
        do! mmodify (delete token) in mreturn None
  end.

(** [handle_rpc_resource]: a request with a Block1 option is put together, and
    answered 2.31 with the option until it is complete. *)
Definition serve_block (token : string) (pdu : request_pdu) (now : Z) : M transfers block1_reply :=
  match block1_value pdu with
  | Some option_bytes =>
      if enable_block_transfer cfg then
        let block_opt := block_parse (coap_decode_var_bytes option_bytes) in
        let! complete := reassemble_blocks token (pdu_data pdu) block_opt now in
        match complete with
        | None => mreturn (reply_continue (store_u32 order (block_encode block_opt)))
        | Some payload => mreturn (request_complete payload)
        end
      else mreturn (request_complete (pdu_data pdu))
  | None => mreturn (request_complete (pdu_data pdu))
  end.

(** How a request ends: its payload reaches the handler, or the client has no more
    blocks to send while the server waits for one; the caller's future is then
    left to its timeout. *)
Inductive request_end : Type :=
  | delivered (payload : bytes)
  | abandoned
  | undefined (what : string)
  | unfinished.

(** Message by message, without loss: the server's answer to each decides what the
    client sends next. *)
Fixpoint exchange (rounds : nat) (token : string) (now : Z) (pdu : request_pdu) (client server : transfers) :
    request_end :=
  match rounds with
  | O => unfinished
  | S rounds =>
      match serve_block token pdu now server with
      | (Ret (request_complete payload), _) => delivered payload
      | (Ret (reply_continue ack), server) =>
          match continue_request token ack now client with
          | (Ret (Some pdu), client) => exchange rounds token now pdu client server
          | (Ret None, _) => abandoned
          | (Throw _, _) => undefined "exception"
          | (Undef what, _) => undefined what
          end
      | (Throw _, _) => undefined "exception"
      | (Undef what, _) => undefined what
      end
  end.

Definition send_request (token : string) (request : bytes) (now : Z) (client server : transfers) : request_end :=
  match send_first token request now client with
  | (Ret pdu, client) => exchange (S (length request)) token now pdu client server
  | (Throw _, _) => undefined "exception"
  | (Undef what, _) => undefined what
  end.
End exchange.

(** ** The Block option is read back *)

Lemma szx_of_power k : k <= 7 → szx_loop 7 (16 * 2 ^ k) 0 = k.
Proof.
  intros Hk. assert (k = 0 ∨ k = 1 ∨ k = 2 ∨ k = 3 ∨ k = 4 ∨ k = 5 ∨ k = 6 ∨ k = 7) as H by lia.
  by destruct_or! H; subst k.
Qed.

Lemma encode_value n m k :
  n < 268435456 → k <= 7 →
  block_encode (mk_block n m (16 * 2 ^ k)) = 16 * n + 8 * N.b2n m + k.
Proof.
  intros Hn Hk. unfold block_encode. cbn [block_number more_blocks block_size].
  rewrite szx_of_power by done. change 7 with (N.ones 3) at 1. rewrite N.land_ones.
  rewrite (N.mod_small k) by (change (2 ^ 3) with 8; lia).
  unfold u32_wrap, u32_modulus. rewrite !N.shiftl_mul_pow2, (N.mod_small (n * 2 ^ 4)) by lia.
  rewrite (N.lor_comm k), N_lor_add by (change (2 ^ 3) with 8; lia).
  rewrite N.lor_comm, N_lor_add; destruct m; cbn [N.b2n]; lia.
Qed.

Lemma parse_value n m k :
  k <= 7 → block_parse (16 * n + 8 * N.b2n m + k) = mk_block n m (16 * 2 ^ k).
Proof.
  intros Hk. unfold block_parse.
  assert (N.land (16 * n + 8 * N.b2n m + k) 7 = k) as ->.
  { change 7 with (N.ones 3). rewrite N.land_ones. change (2 ^ 3) with 8.
    destruct m; cbn [N.b2n]; zify; Z.to_euclidean_division_equations; lia. }
  f_equal.
  - rewrite N.shiftr_div_pow2. change (2 ^ 4) with 16.
    destruct m; cbn [N.b2n]; zify; Z.to_euclidean_division_equations; lia.
  - rewrite N.shiftr_div_pow2. change 1 with (N.ones 1) at 1. rewrite N.land_ones.
    change (2 ^ 3) with 8. change (2 ^ 1) with 2.
    assert ((16 * n + 8 * N.b2n m + k) / 8 mod 2 = N.b2n m) as ->; [|by destruct m].
    destruct m; cbn [N.b2n]; zify; Z.to_euclidean_division_equations; lia.
  - by rewrite N.shiftl_mul_pow2.
Qed.

(** A value in its three fields. *)
Lemma option_fields v :
  is_u32 v → ∃ n m k, n < 268435456 ∧ k <= 7 ∧ v = 16 * n + 8 * N.b2n m + k.
Proof.
  unfold is_u32, u32_modulus. intros Hv. exists (v / 16), (N.testbit v 3), (v mod 8).
  rewrite N.testbit_eqb. change (2 ^ 3) with 8.
  destruct (N.eqb_spec (v / 8 mod 2) 1) as [E|E]; cbn [N.b2n];
    zify; Z.to_euclidean_division_equations; lia.
Qed.

Lemma encode_parse v : is_u32 v → block_encode (block_parse v) = v.
Proof.
  intros Hv. destruct (option_fields v Hv) as (n & m & k & Hn & Hk & ->).
  by rewrite parse_value, encode_value.
Qed.

(** A Block option survives its encoding in both directions: an option whose number
    has 28 bits and whose size is 16 to 2048, a power of two, is what its encoded
    value parses to, and every 32-bit value is what the option parsed from it
    encodes to. *)
Theorem block_option_roundtrip :
  (∀ n m k, n < 268435456 → k <= 7 →
    block_parse (block_encode (mk_block n m (16 * 2 ^ k))) = mk_block n m (16 * 2 ^ k)) ∧
  (∀ v, is_u32 v → block_encode (block_parse v) = v).
Proof.
  split.
  - intros n m k Hn Hk. by rewrite encode_value, parse_value.
  - apply encode_parse.
Qed.

(** ** Valid sizes *)

Definition valid_sizes : list N := [16; 32; 64; 128; 256; 512; 1024].

Lemma valid_size_iff n : is_valid_block_size n = true ↔ n ∈ valid_sizes.
Proof.
  assert (forallb (λ n, implb (is_valid_block_size n) (bool_decide (n ∈ valid_sizes)))
    (map N.of_nat (seq 0 1025)) = true) as H by (by vm_compute).
  rewrite forallb_forall in H. split.
  - intros Hv. assert (n <= 1024) by (unfold is_valid_block_size in Hv; by destruct (N.leb_spec n 1024); [|rewrite andb_false_r in Hv]).
    specialize (H n). rewrite Hv in H. cbn [implb] in H. refine (bool_decide_eq_true_1 _ (H _)).
    apply in_map_iff. exists (N.to_nat n). split; [lia|]. apply in_seq. lia.
  - intros Hn. apply list_elem_of_In in Hn. cbn in Hn. by destruct_or! Hn; subst n.
Qed.

Lemma valid_size_cases n :
  is_valid_block_size n = true →
  n = 16 ∨ n = 32 ∨ n = 64 ∨ n = 128 ∨ n = 256 ∨ n = 512 ∨ n = 1024.
Proof. rewrite valid_size_iff, list_elem_of_In. cbn. naive_solver. Qed.

(** Size and exponent correspond. *)
Theorem szx_roundtrip n :
  (is_valid_block_size n = true ↔ ∃ szx, calculate_block_size_szx n = Ret szx ∧ szx_to_block_size szx = Ret n).
Proof.
  split.
  - intros H. apply valid_size_cases in H. destruct_or! H; subst n; by eexists.
  - intros (szx & Hc & _). unfold calculate_block_size_szx in Hc. unfold is_valid_block_size.
    destruct (N.ltb_spec n 16); [done|]. destruct (N.ltb_spec 1024 n); [done|].
    destruct (power_of_two n); [|done]. by rewrite !(proj2 (N.leb_le _ _)).
Qed.

(** Blocks are cut at the configured size up to 64 bytes, and at half of it above. *)
Lemma aligned_valid cfg :
  is_valid_block_size (max_block_size cfg) = true →
  aligned_block_size cfg = if max_block_size cfg <=? 64 then max_block_size cfg else max_block_size cfg / 2.
Proof.
  destruct cfg as [e max]. cbn [max_block_size]. intros H. apply valid_size_cases in H.
  by destruct_or! H; subst max.
Qed.

Lemma aligned_at_least cfg :
  is_valid_block_size (max_block_size cfg) = true → 16 <= aligned_block_size cfg.
Proof.
  intros Hv. rewrite aligned_valid by done. apply valid_size_cases in Hv. by destruct_or! Hv; rewrite Hv.
Qed.

(** ** The blocks of a payload *)

(** The [i]th block of [size] bytes. *)
Definition block_at (size i : nat) (payload : bytes) : bytes := take size (drop (i * size) payload).

Lemma split_from_lookup fuel size offset payload i :
  (0 < size)%nat → (length payload - offset ≤ fuel)%nat →
  split_from fuel size offset payload !! i =
  if (offset + i * size <? length payload)%nat then Some (take size (drop (offset + i * size) payload)) else None.
Proof.
  revert offset i. induction fuel as [|fuel IH]; intros offset i Hs Hf; cbn [split_from].
  { rewrite lookup_nil. by destruct (Nat.ltb_spec (offset + i * size) (length payload)); [lia|]. }
  destruct (Nat.ltb_spec offset (length payload)) as [Ho|Ho].
  2:{ rewrite lookup_nil. by destruct (Nat.ltb_spec (offset + i * size) (length payload)); [lia|]. }
  assert (take (Nat.min size (length payload - offset)) (drop offset payload) = take size (drop offset payload)) as ->.
  { rewrite <- length_drop, <- take_take. f_equal. by apply take_ge. }
  destruct i as [|i]; cbn [lookup list_lookup].
  - rewrite Nat.mul_0_l, Nat.add_0_r. by destruct (Nat.ltb_spec offset (length payload)); [|lia].
  - rewrite IH by lia. destruct (Nat.le_gt_cases size (length payload - offset)) as [Hle|Hgt].
    + rewrite (Nat.min_l size) by lia. cbn [Nat.mul]. by rewrite Nat.add_assoc.
    + rewrite (Nat.min_r size) by lia.
      destruct (Nat.ltb_spec (offset + (length payload - offset) + i * size) (length payload)); [lia|].
      by destruct (Nat.ltb_spec (offset + S i * size) (length payload)); [lia|].
Qed.

Lemma aligned_positive cfg : 8 <= aligned_block_size cfg.
Proof.
  unfold aligned_block_size.
  assert (∀ fuel size, 16 <= size → 16 <= double_until fuel size (effective_block_size cfg)) as H.
  { induction fuel as [|fuel IH]; intros size Hs; cbn [double_until]; [done|].
    case_match; [|done]. apply IH. rewrite N.shiftl_mul_pow2. lia. }
  specialize (H 6%nat 16 ltac:(lia)). case_match; [|lia].
  rewrite N.shiftr_div_pow2. change (2 ^ 1) with 2. zify; Z.to_euclidean_division_equations; lia.
Qed.

(** The fuel is enough: every byte is in a block. *)
Lemma split_lookup cfg payload i :
  let size := N.to_nat (aligned_block_size cfg) in
  split_payload_into_blocks cfg payload !! i =
  if (i * size <? length payload)%nat then Some (block_at size i payload) else None.
Proof.
  intros size. pose proof (aligned_positive cfg). unfold split_payload_into_blocks, block_at.
  destruct payload as [|b payload]; [by rewrite lookup_nil|].
  by rewrite split_from_lookup by lia.
Qed.

Lemma split_length cfg payload i :
  (i < length (split_payload_into_blocks cfg payload) ↔
   i * N.to_nat (aligned_block_size cfg) < length payload)%nat.
Proof.
  rewrite <- lookup_lt_is_Some, split_lookup. cbv zeta. case_match eqn:E.
  - apply Nat.ltb_lt in E. split; [done|eauto].
  - apply Nat.ltb_ge in E. split; [by intros [? ?]|lia].
Qed.

(** Cutting and concatenating gives the payload back, in blocks of which all but the
    last have the aligned size. *)
Theorem split_concat cfg payload :
  concat (split_payload_into_blocks cfg payload) = payload.
Proof.
  set (size := N.to_nat (aligned_block_size cfg)).
  assert (0 < size)%nat as Hs by (pose proof (aligned_positive cfg); lia).
  assert (∀ n, concat (take n (split_payload_into_blocks cfg payload)) = take (n * size) payload) as H.
  { induction n as [|n IH]; [done|].
    pose proof (split_lookup cfg payload n) as E. cbv zeta in E. fold size in E. case_match eqn:El.
    - rewrite (take_S_r _ _ _ E), concat_app, IH. cbn [concat]. rewrite app_nil_r. unfold block_at.
      rewrite take_take_drop. f_equal. lia.
    - apply Nat.ltb_ge in El. apply lookup_ge_None in E.
      rewrite take_ge in IH by lia. rewrite take_ge by lia. rewrite IH, !take_ge by lia. done. }
  specialize (H (length (split_payload_into_blocks cfg payload))). rewrite take_ge in H by lia.
  rewrite H. apply take_ge.
  destruct (Nat.le_gt_cases (length payload) (length (split_payload_into_blocks cfg payload) * size)); [done|].
  pose proof (split_length cfg payload (length (split_payload_into_blocks cfg payload))). lia.
Qed.

(** ** Options on the wire *)

Section wire.
(** libcoap reads an option's value as an integer in network byte order. *)
Context (coap_decode_var_bytes : bytes → N)
  (decode_network_order : ∀ bs, coap_decode_var_bytes bs = foldl (λ v b, 256 * v + Byte.to_N b) 0 bs).

Definition received_value (order : byte_order) (value : N) : N :=
  coap_decode_var_bytes (store_u32 order value).

Lemma u32_bytes v :
  is_u32 v → ∃ b0 b1 b2 b3, b0 < 256 ∧ b1 < 256 ∧ b2 < 256 ∧ b3 < 256 ∧
    v = b0 + 256 * b1 + 65536 * b2 + 16777216 * b3.
Proof.
  unfold is_u32, u32_modulus. intros Hv.
  exists (v mod 256), (v / 256 mod 256), (v / 65536 mod 256), (v / 16777216).
  zify; Z.to_euclidean_division_equations; lia.
Qed.

Lemma byte_values b0 b1 b2 b3 :
  b0 < 256 → b1 < 256 → b2 < 256 → b3 < 256 →
  let v := b0 + 256 * b1 + 65536 * b2 + 16777216 * b3 in
  Byte.to_N (byte_at 0 v) = b0 ∧ Byte.to_N (byte_at 8 v) = b1 ∧
  Byte.to_N (byte_at 16 v) = b2 ∧ Byte.to_N (byte_at 24 v) = b3.
Proof.
  intros H0 H1 H2 H3 v. rewrite !byte_at_value, !N.shiftr_div_pow2.
  change (2 ^ 0) with 1. change (2 ^ 8) with 256. change (2 ^ 16) with 65536. change (2 ^ 24) with 16777216.
  subst v. split_and!; zify; Z.to_euclidean_division_equations; lia.
Qed.

Lemma received_bytes order b0 b1 b2 b3 :
  b0 < 256 → b1 < 256 → b2 < 256 → b3 < 256 →
  received_value order (b0 + 256 * b1 + 65536 * b2 + 16777216 * b3) =
  match order with
  | little_endian => b3 + 256 * b2 + 65536 * b1 + 16777216 * b0
  | big_endian => b0 + 256 * b1 + 65536 * b2 + 16777216 * b3
  end.
Proof.
  intros H0 H1 H2 H3. unfold received_value. rewrite decode_network_order.
  destruct (byte_values b0 b1 b2 b3) as (E0 & E1 & E2 & E3); [done..|].
  destruct order; cbn [store_u32 map rev app foldl]; rewrite E0, E1, E2, E3; lia.
Qed.

Lemma received_u32 order v : is_u32 v → is_u32 (received_value order v).
Proof.
  intros Hv. destruct (u32_bytes v Hv) as (b0 & b1 & b2 & b3 & H0 & H1 & H2 & H3 & ->).
  rewrite received_bytes by done. unfold is_u32, u32_modulus in *. destruct order; lia.
Qed.

Lemma received_twice order v : is_u32 v → received_value order (received_value order v) = v.
Proof.
  intros Hv. destruct (u32_bytes v Hv) as (b0 & b1 & b2 & b3 & H0 & H1 & H2 & H3 & ->).
  rewrite received_bytes by done. by destruct order; rewrite received_bytes.
Qed.

Lemma received_big_endian v : is_u32 v → received_value big_endian v = v.
Proof.
  intros Hv. destruct (u32_bytes v Hv) as (b0 & b1 & b2 & b3 & H0 & H1 & H2 & H3 & ->).
  by rewrite received_bytes.
Qed.

(** On a little-endian host the number of a small block is read as a large one. *)
Lemma received_little_endian v :
  0 < v → v < 16777216 → 16 <= received_value little_endian v.
Proof.
  intros Hp Hv. assert (is_u32 v) as H32 by (unfold is_u32, u32_modulus; lia).
  destruct (u32_bytes v H32) as (b0 & b1 & b2 & b3 & H0 & H1 & H2 & H3 & ->).
  rewrite received_bytes by done. lia.
Qed.

Context (order : byte_order) (cfg : coap_config).

(** A block that the server does not take is answered like one that it does. *)
Lemma serve_refuses token v data now (server : transfers) :
  enable_block_transfer cfg = true → is_u32 v → server !! token = None →
  let b := block_parse (received_value order v) in
  block_number b ≠ 0 ∨ (more_blocks b = true ∧ N.of_nat (length data) ≠ block_size b) →
  serve_block coap_decode_var_bytes order cfg token (mk_pdu (Some (store_u32 order v)) data) now server =
  (Ret (reply_continue (store_u32 order (received_value order v))), server).
Proof.
  intros He Hv Hs b Hb. unfold serve_block. cbn [block1_value pdu_data]. rewrite He.
  fold (received_value order v). fold b.
  assert (reassemble_blocks token data b now server = (Ret None, server)) as E.
  { unfold reassemble_blocks, transfer_of. rewrite Hs. cbn [next_block_num].
    rewrite (delete_id server) by done.
    destruct (N.eqb_spec (block_number b) 0) as [E|E]; [|done]. cbn [negb].
    destruct Hb as [Hb|[-> Hb]]; [done|].
    by destruct (N.eqb_spec (N.of_nat (length data)) (block_size b)). }
  erewrite let_eval by exact E. unfold b. unfold mreturn. by rewrite encode_parse by (by apply received_u32).
Qed.

(** The state a client keeps for a request, and the message of its [n]th block. *)
Definition sending (token : string) (request : bytes) (client : transfers) : Prop :=
  ∃ state, client !! token = Some state ∧ complete_payload state = request.

Definition block_message (request : bytes) (n : nat) : request_pdu :=
  mk_pdu (Some (block1_of order cfg (N.of_nat n) (split_payload_into_blocks cfg request)))
    (block_at (N.to_nat (aligned_block_size cfg)) n request).

(** The client's answer to the acknowledgment of the block [n]. *)
Lemma continue_next token request now (client : transfers) v n m k :
  let size := N.to_nat (aligned_block_size cfg) in
  sending token request client → v = 16 * N.of_nat n + 8 * N.b2n m + k → k <= 7 → is_u32 v →
  (S n * size < length request)%nat →
  ∃ client', sending token request client' ∧
    continue_request coap_decode_var_bytes order cfg token (store_u32 order (received_value order v)) now client =
    (Ret (Some (block_message request (S n))), client').
Proof.
  intros size (state & Ht & Hp) Hv Hk H32 Hn. unfold continue_request.
  fold (received_value order (received_value order v)). rewrite received_twice by done.
  rewrite Hv, parse_value by done. cbn [block_number]. rewrite let_get, Ht, Hp.
  assert (is_u32 (N.of_nat n + 1)) as Hn32 by (unfold is_u32, u32_modulus in *; lia).
  unfold u32_wrap. rewrite N.mod_small by done.
  destruct (N.ltb_spec (N.of_nat n + 1) (N.of_nat (length (split_payload_into_blocks cfg request)))) as [Hl|Hl].
  2:{ apply split_length in Hn. fold size in Hn. lia. }
  replace (N.to_nat (N.of_nat n + 1)) with (S n) by lia. rewrite split_lookup. fold size.
  destruct (Nat.ltb_spec (S n * size) (length request)); [|lia]. rewrite let_modify. eexists. split.
  2:{ unfold mreturn, block_message. do 3 f_equal. replace (N.of_nat n + 1) with (N.of_nat (S n)) by lia. done. }
  eexists. split; [apply lookup_insert_eq|done].
Qed.

(** After the last block the client has nothing to send. *)
Lemma continue_last token request now (client : transfers) v n m k :
  let size := N.to_nat (aligned_block_size cfg) in
  sending token request client → v = 16 * N.of_nat n + 8 * N.b2n m + k → k <= 7 → is_u32 v →
  (length request ≤ S n * size)%nat →
  ∃ client',
    continue_request coap_decode_var_bytes order cfg token (store_u32 order (received_value order v)) now client =
    (Ret None, client').
Proof.
  intros size (state & Ht & Hp) Hv Hk H32 Hn. unfold continue_request.
  fold (received_value order (received_value order v)). rewrite received_twice by done.
  rewrite Hv, parse_value by done. cbn [block_number]. rewrite let_get, Ht, Hp.
  assert (is_u32 (N.of_nat n + 1)) as Hn32 by (unfold is_u32, u32_modulus in *; lia).
  unfold u32_wrap. rewrite N.mod_small by done.
  destruct (N.ltb_spec (N.of_nat n + 1) (N.of_nat (length (split_payload_into_blocks cfg request)))) as [Hl|Hl].
  { assert (S n < length (split_payload_into_blocks cfg request))%nat as Hl' by lia.
    apply split_length in Hl'. fold size in Hl'. lia. }
  rewrite let_modify. by eexists.
Qed.

Definition more_after (request : bytes) (n : nat) : bool :=
  (S n * N.to_nat (aligned_block_size cfg) <? length request)%nat.

Lemma size_exponent :
  is_valid_block_size (max_block_size cfg) = true → ∃ k, k <= 7 ∧ max_block_size cfg = 16 * 2 ^ k.
Proof.
  intros H. apply valid_size_cases in H. destruct_or! H; rewrite H;
    [exists 0|exists 1|exists 2|exists 3|exists 4|exists 5|exists 6]; (split; [lia|done]).
Qed.

(** The option of the block [n]. *)
Lemma block1_fields request n k :
  k <= 7 → max_block_size cfg = 16 * 2 ^ k → N.of_nat n < 268435456 →
  block_encode (mk_block (N.of_nat n)
    (u32_wrap (N.of_nat n + 1) <? N.of_nat (length (split_payload_into_blocks cfg request)))
    (u32_wrap (max_block_size cfg))) =
  16 * N.of_nat n + 8 * N.b2n (more_after request n) + k.
Proof.
  intros Hk Hm Hn. unfold u32_wrap, u32_modulus. rewrite (N.mod_small (N.of_nat n + 1)) by lia.
  assert (2 ^ k <= 2 ^ 7) as H2 by (by apply N.pow_le_mono_r).
  rewrite Hm, (N.mod_small (16 * 2 ^ k)) by (change (2 ^ 7) with 128 in H2; lia).
  rewrite encode_value by done. do 4 f_equal. unfold more_after.
  pose proof (split_length cfg request (S n)) as Hl.
  destruct (N.ltb_spec (N.of_nat n + 1) (N.of_nat (length (split_payload_into_blocks cfg request))));
    destruct (Nat.ltb_spec (S n * N.to_nat (aligned_block_size cfg)) (length request)); lia.
Qed.

(** When the server refuses every block, the request is abandoned after the last. *)
Lemma refused_exchange token request now k :
  let size := N.to_nat (aligned_block_size cfg) in
  enable_block_transfer cfg = true → k <= 7 → max_block_size cfg = 16 * 2 ^ k →
  N.of_nat (length request) <= 67108864 →
  (∀ n, (n * size < length request)%nat →
    let v := 16 * N.of_nat n + 8 * N.b2n (more_after request n) + k in
    let b := block_parse (received_value order v) in
    block_number b ≠ 0 ∨ (more_blocks b = true ∧ N.of_nat (length (block_at size n request)) ≠ block_size b)) →
  ∀ rounds n (client server : transfers),
    sending token request client → server !! token = None →
    (n * size < length request)%nat → (length request < rounds + n)%nat →
    exchange coap_decode_var_bytes order cfg rounds token now (block_message request n) client server = abandoned.
Proof.
  intros size He Hk Hm Hlen Hrefuse. assert (0 < size)%nat as Hs by (pose proof (aligned_positive cfg); lia).
  induction rounds as [|rounds IH]; intros n client server Hc Hse Hn Hr; [nia|].
  assert (N.of_nat n < 268435456) as Hn28 by nia.
  cbn [exchange]. unfold block_message at 1, block1_of. rewrite (block1_fields request n k) by done.
  assert (is_u32 (16 * N.of_nat n + 8 * N.b2n (more_after request n) + k)) as H32.
  { unfold is_u32, u32_modulus. destruct (more_after request n); cbn [N.b2n]; nia. }
  rewrite serve_refuses by auto.
  destruct (Nat.lt_ge_cases (S n * size) (length request)) as [Hmore|Hlast].
  - destruct (continue_next token request now client _ n (more_after request n) k Hc eq_refl Hk H32 Hmore)
      as (client' & Hc' & ->). apply IH; [done|done|done|lia].
  - destruct (continue_last token request now client _ n (more_after request n) k Hc eq_refl Hk H32 Hlast)
      as (client' & ->). done.
Qed.

Lemma valid_settings :
  validate_block_settings cfg = Ret tt → enable_block_transfer cfg = true →
  is_valid_block_size (max_block_size cfg) = true.
Proof.
  unfold validate_block_settings. intros H He. rewrite He in H.
  repeat case_match; try done. by destruct (is_valid_block_size (max_block_size cfg)).
Qed.

(** A request for which block transfer is chosen has a second block. *)
Lemma first_is_partial request :
  is_valid_block_size (max_block_size cfg) = true → should_use_block_transfer cfg request = true →
  enable_block_transfer cfg = true ∧ (N.to_nat (aligned_block_size cfg) < length request)%nat.
Proof.
  intros Hv Hu. unfold should_use_block_transfer in Hu.
  destruct (enable_block_transfer cfg); [|done]. cbn [negb] in Hu. split; [done|].
  apply N.ltb_lt in Hu. assert (aligned_block_size cfg <= effective_block_size cfg); [|lia].
  rewrite aligned_valid by done. unfold effective_block_size.
  apply valid_size_cases in Hv. by destruct_or! Hv; rewrite Hv.
Qed.

Lemma send_first_block token request now (client : transfers) :
  is_valid_block_size (max_block_size cfg) = true → should_use_block_transfer cfg request = true →
  ∃ client', sending token request client' ∧
    send_first order cfg token request now client = (Ret (block_message request 0), client').
Proof.
  intros Hv Hu. destruct (first_is_partial request Hv Hu) as [_ Hl]. unfold send_first. rewrite Hu.
  pose proof (split_lookup cfg request 0) as H0. pose proof (split_length cfg request 1) as H1.
  cbv zeta in H0. rewrite Nat.mul_0_l in H0. destruct (Nat.ltb_spec 0 (length request)); [|lia].
  unfold block_message. destruct (split_payload_into_blocks cfg request) as [|first rest] eqn:E; [done|].
  injection H0 as Hfirst. rewrite Nat.mul_1_l in H1. apply H1 in Hl. destruct (N.ltb_spec 1 (N.of_nat (length (first :: rest)))) as [_|]; [|lia].
  erewrite let_eval by reflexivity. eexists. split; [|by rewrite Hfirst].
  eexists. split; [apply lookup_insert_eq|done].
Qed.
End wire.

(** *** Blocks in order *)

(** The map after the first [n] blocks of a payload. *)
Definition after_blocks (token : string) (payload : bytes) (size n : nat) (now : Z) (ts : transfers) : transfers :=
  match n with
  | O => ts
  | _ => <[token := mk_transfer (take (n * size) payload) (N.of_nat (n * size)) (N.of_nat n) (N.of_nat size) now]> ts
  end.

Lemma transfer_after token payload size n now (ts : transfers) :
  ts !! token = None →
  transfer_of token (N.of_nat size) now (after_blocks token payload size n now ts) =
  mk_transfer (take (n * size) payload) (N.of_nat (n * size)) (N.of_nat n) (N.of_nat size) now.
Proof.
  intros Ht. unfold transfer_of. destruct n as [|n]; cbn [after_blocks]; [by rewrite Ht|].
  by rewrite (lookup_insert_eq ts).
Qed.

(** The [n]th block of a payload, announced with its size. *)
Lemma reassemble_step token payload size n now (ts : transfers) :
  (0 < size)%nat → ts !! token = None → (n * size < length payload)%nat →
  N.of_nat (length payload) <= max_payload_size →
  let more := (S n * size <? length payload)%nat in
  reassemble_blocks token (block_at size n payload) (mk_block (N.of_nat n) more (N.of_nat size)) now
    (after_blocks token payload size n now ts) =
  if more then (Ret None, after_blocks token payload size (S n) now ts) else (Ret (Some payload), ts).
Proof.
  intros Hs Ht Hn Hmax more. unfold max_payload_size in Hmax. unfold reassemble_blocks.
  cbn [block_size block_number more_blocks]. rewrite transfer_after by done.
  cbn [next_block_num received_size complete_payload transfer_block_size].
  rewrite N.eqb_refl. cbn [negb]. unfold block_at. rewrite length_take, length_drop.
  rewrite take_take_drop. replace (n * size + size)%nat with (S n * size)%nat by lia.
  assert (delete token (after_blocks token payload size n now ts) = ts) as ->.
  { destruct n; cbn [after_blocks]; [by apply delete_id|]. by rewrite (delete_insert_id ts). }
  rewrite bool_decide_eq_false_2.
  2:{ intros E. apply (f_equal length) in E. rewrite length_take, length_drop in E. cbn in E. lia. }
  rewrite u64_add_small by (unfold is_u64, u64_modulus; lia).
  destruct (N.ltb_spec max_payload_size (N.of_nat (n * size) + N.of_nat (size `min` (length payload - n * size))));
    [unfold max_payload_size in *; lia|].
  unfold u32_wrap, u32_modulus. rewrite N.mod_small by nia. subst more. cbn [andb].
  destruct (Nat.ltb_spec (S n * size) (length payload)) as [Hm|Hm]; cbn [andb].
  - rewrite (Nat.min_l size) by lia. rewrite N.eqb_refl. cbn [negb]. do 2 f_equal.
    cbn [after_blocks]. replace (N.of_nat (n * size) + N.of_nat size) with (N.of_nat (S n * size)) by lia.
    replace (N.of_nat n + 1) with (N.of_nat (S n)) by lia.
    destruct n; cbn [after_blocks]; [done|]. by rewrite (insert_insert_eq ts).
  - rewrite take_ge by lia. destruct payload; [cbn in Hn; lia|done].
Qed.

Section exchanges.
(** libcoap reads an option's value as an integer in network byte order. *)
Context (coap_decode_var_bytes : bytes → N)
  (decode_network_order : ∀ bs, coap_decode_var_bytes bs = foldl (λ v b, 256 * v + Byte.to_N b) 0 bs).
Context (order : byte_order) (cfg : coap_config).

(** Large requests are never delivered, on a little-endian host or with a
    configured block size above 64 bytes, the default of 1024 included: the
    option announces the configured size while the blocks are cut at half of it,
    and its bytes are written in host order and read in network order.  The server
    drops every block and answers each as if it had taken it; the client sends
    them all and then waits for an answer that nothing will send. *)
Theorem large_requests_abandoned token request now (client server : transfers) :
  validate_block_settings cfg = Ret tt → should_use_block_transfer cfg request = true →
  N.of_nat (length request) <= 16777216 → server !! token = None →
  order = little_endian ∨ 64 < max_block_size cfg →
  send_request coap_decode_var_bytes order cfg token request now client server = abandoned.
Proof.
  intros Hval Hu Hlen Hs Hbad.
  assert (enable_block_transfer cfg = true) as He.
  { unfold should_use_block_transfer in Hu. by destruct (enable_block_transfer cfg). }
  pose proof (valid_settings cfg Hval He) as Hv.
  destruct (first_is_partial cfg request Hv Hu) as [_ Hl].
  destruct (size_exponent cfg Hv) as (k & Hk & Hm). unfold send_request.
  destruct (send_first_block order cfg token request now client Hv Hu) as (client' & Hc & ->).
  eapply refused_exchange; [done|done|done|exact Hm|lia| |done|done|lia|lia].
  intros n Hn v b.
  assert (16 <= aligned_block_size cfg) as H16 by (by apply aligned_at_least).
  assert (more_after cfg request 0 = true) as Hmore0 by (apply Nat.ltb_lt; lia).
  destruct order.
  - left. unfold b, block_parse. cbn [block_number]. rewrite N.shiftr_div_pow2. change (2 ^ 4) with 16.
    assert (16 <= received_value coap_decode_var_bytes little_endian v) as H.
    { apply received_little_endian; [done| |]; unfold v.
      - destruct n as [|n]; [rewrite Hmore0; cbn [N.b2n]; lia|lia].
      - destruct (more_after cfg request n); cbn [N.b2n]; nia. }
    zify; Z.to_euclidean_division_equations; lia.
  - assert (is_u32 v) as H32.
    { unfold is_u32, u32_modulus, v. destruct (more_after cfg request n); cbn [N.b2n]; nia. }
    unfold b. rewrite received_big_endian by done. unfold v. rewrite parse_value by done.
    cbn [block_number more_blocks block_size]. destruct n as [|n]; [|lia]. right. split; [done|].
    destruct Hbad as [|Hbad]; [done|]. rewrite <- Hm. unfold block_at. rewrite Nat.mul_0_l, drop_0, length_take.
    rewrite aligned_valid in * by done. destruct (N.leb_spec (max_block_size cfg) 64); [lia|].
    pose proof (N.div_lt (max_block_size cfg) 2). lia.
Qed.

(** Every block is taken, and the last completes the request. *)
Lemma accepted_exchange token request now k :
  let size := N.to_nat (aligned_block_size cfg) in
  enable_block_transfer cfg = true → k <= 7 → max_block_size cfg = 16 * 2 ^ k →
  aligned_block_size cfg = max_block_size cfg → N.of_nat (length request) <= max_payload_size →
  ∀ server : transfers, server !! token = None →
  ∀ rounds n (client : transfers),
    sending token request client → (n * size < length request)%nat → (length request < rounds + n)%nat →
    exchange coap_decode_var_bytes big_endian cfg rounds token now (block_message big_endian cfg request n) client
      (after_blocks token request size n now server) = delivered request.
Proof.
  intros size He Hk Hm Ha Hlen server Hs. assert (0 < size)%nat as Hsz by (pose proof (aligned_positive cfg); lia).
  induction rounds as [|rounds IH]; intros n client Hc Hn Hr; [nia|].
  assert (N.of_nat n < 268435456) as Hn28 by (unfold max_payload_size in Hlen; nia).
  assert (is_u32 (16 * N.of_nat n + 8 * N.b2n (more_after cfg request n) + k)) as H32.
  { unfold is_u32, u32_modulus, max_payload_size in *. destruct (more_after cfg request n); cbn [N.b2n]; nia. }
  assert (serve_block coap_decode_var_bytes big_endian cfg token (block_message big_endian cfg request n) now
      (after_blocks token request size n now server) =
    if more_after cfg request n
    then (Ret (reply_continue (store_u32 big_endian (16 * N.of_nat n + 8 * N.b2n (more_after cfg request n) + k))),
          after_blocks token request size (S n) now server)
    else (Ret (request_complete request), server)) as E.
  { unfold serve_block, block_message, block1_of. cbn [block1_value pdu_data]. rewrite He.
    rewrite (block1_fields cfg request n k) by done. fold (received_value coap_decode_var_bytes big_endian
      (16 * N.of_nat n + 8 * N.b2n (more_after cfg request n) + k)).
    rewrite received_big_endian, parse_value by done. fold size.
    replace (16 * 2 ^ k) with (N.of_nat size) by lia. unfold mlet, more_after. fold size.
    rewrite reassemble_step by done. destruct (Nat.ltb_spec (S n * size) (length request)); [|done].
    unfold mreturn. by replace (N.of_nat size) with (16 * 2 ^ k) by lia; rewrite encode_value. }
  cbn [exchange]. rewrite E. destruct (more_after cfg request n) eqn:Hmore; [|done].
  apply Nat.ltb_lt in Hmore.
  destruct (continue_next coap_decode_var_bytes decode_network_order big_endian cfg token request now client _ n
    true k Hc eq_refl Hk H32 Hmore) as (client' & Hc' & Hcont).
  rewrite received_big_endian in Hcont by done. rewrite Hcont. apply IH; [done|done|lia].
Qed.

(** Where host and network order agree and the configured size is at most 64
    bytes, a large request is delivered whole. *)
Theorem large_requests_delivered token request now (client server : transfers) :
  order = big_endian → max_block_size cfg <= 64 →
  validate_block_settings cfg = Ret tt → should_use_block_transfer cfg request = true →
  N.of_nat (length request) <= max_payload_size → server !! token = None →
  send_request coap_decode_var_bytes order cfg token request now client server = delivered request.
Proof.
  intros -> Hsmall Hval Hu Hlen Hs.
  assert (enable_block_transfer cfg = true) as He.
  { unfold should_use_block_transfer in Hu. by destruct (enable_block_transfer cfg). }
  pose proof (valid_settings cfg Hval He) as Hv.
  destruct (first_is_partial cfg request Hv Hu) as [_ Hl]. destruct (size_exponent cfg Hv) as (k & Hk & Hm).
  assert (aligned_block_size cfg = max_block_size cfg) as Ha.
  { rewrite aligned_valid by done. by destruct (N.leb_spec (max_block_size cfg) 64); [|lia]. }
  unfold send_request.
  destruct (send_first_block big_endian cfg token request now client Hv Hu) as (client' & Hc & ->).
  apply (accepted_exchange token request now k He Hk Hm Ha Hlen server Hs _ 0); [done|lia|lia].
Qed.
End exchanges.

(** ** Any sequence of blocks

    Blocks of all tokens arrive in any order, with any numbers, sizes and times,
    and expired transfers are dropped at any time.  A client keeps the requests it
    sends in blocks in the same map: it sends requests, and takes the answers with
    a Block1 option, in between. *)

Inductive transfer_event : Type :=
  | block_event (token : string) (data : bytes) (opt : block_option) (now : Z)
  | cleanup_event (now : Z)
  | send_event (token : string) (request : bytes) (now : Z)
  | continue_event (token : string) (option_bytes : bytes) (now : Z).

Section events.
Context (coap_decode_var_bytes : bytes → N) (order : byte_order) (cfg : coap_config).

Definition handle_event (e : transfer_event) (ts : transfers) : transfers :=
  match e with
  | block_event token data opt now => state_of (reassemble_blocks token data opt now) ts
  | cleanup_event now => state_of (cleanup_expired_block_transfers now) ts
  | send_event token request now => state_of (send_first order cfg token request now) ts
  | continue_event token option_bytes now =>
      state_of (continue_request coap_decode_var_bytes order cfg token option_bytes now) ts
  end.

Definition run_events (h : list transfer_event) : transfers := foldl (λ ts e, handle_event e ts) ∅ h.

(** The blocks that arrived for a token. *)
Definition token_blocks (token : string) (h : list transfer_event) : list (block_option * bytes) :=
  omap (λ e, match e with
    | block_event t data opt _ => if decide (t = token) then Some (opt, data) else None
    | _ => None
    end) h.

(** Events that keep a request of the client's under the token: sending one in
    blocks, and an answer that asks for the next of them. *)
Definition outgoing (token : string) (e : transfer_event) : Prop :=
  match e with
  | send_event t request _ => t = token ∧ should_use_block_transfer cfg request = true
  | continue_event t _ _ => t = token
  | _ => False
  end.

(** Blocks numbered from zero without a gap, each but perhaps the last announcing
    more and as long as it says. *)
Definition numbered (blocks : list (block_option * bytes)) : Prop :=
  ∀ i b, blocks !! i = Some b → block_number b.1 = N.of_nat i.
Definition full_block (b : block_option * bytes) : Prop :=
  more_blocks b.1 = true ∧ N.of_nat (length b.2) = block_size b.1 ∧ b.2 ≠ [].

Definition transfer_of_blocks (blocks : list (block_option * bytes)) (state : block_transfer_state) : Prop :=
  numbered blocks ∧ Forall full_block blocks ∧ complete_payload state = concat (map snd blocks) ∧
  received_size state = N.of_nat (length (complete_payload state)) ∧ received_size state <= max_payload_size ∧
  next_block_num state = N.of_nat (length blocks) ∧ N.of_nat (length blocks) <= received_size state.

(** The last blocks of the token are those of its transfer. *)
Definition tracks (token : string) (h : list transfer_event) (state : block_transfer_state) : Prop :=
  ∃ earlier blocks, token_blocks token h = earlier ++ blocks ∧ transfer_of_blocks blocks state.

Lemma numbered_snoc blocks opt data :
  numbered blocks → block_number opt = N.of_nat (length blocks) → numbered (blocks ++ [(opt, data)]).
Proof.
  intros Hn Ho i b Hb. apply lookup_app_Some in Hb as [Hb|[Hl Hb]]; [by apply Hn|].
  apply list_lookup_singleton_Some in Hb as [Hi <-]. cbn [fst]. rewrite Ho. f_equal. lia.
Qed.

Lemma token_blocks_snoc token h e :
  token_blocks token (h ++ [e]) = token_blocks token h ++ token_blocks token [e].
Proof. apply omap_app. Qed.

(** What a vector can hold. *)
Definition data_fits (data : bytes) : Prop := N.of_nat (length data) < 9223372036854775808.
Definition event_fits (e : transfer_event) : Prop :=
  match e with block_event _ data _ _ => data_fits data | _ => True end.

(** A block that is taken extends the run of blocks. *)
Lemma extend_transfer blocks state opt data now :
  transfer_of_blocks blocks state → block_number opt = next_block_num state → full_block (opt, data) →
  data_fits data → received_size state ⊕ N.of_nat (length data) <= max_payload_size →
  transfer_of_blocks (blocks ++ [(opt, data)])
    (mk_transfer (complete_payload state ++ data) (received_size state ⊕ N.of_nat (length data))
      (u32_wrap (next_block_num state + 1)) (transfer_block_size state) now).
Proof.
  intros (Hn & Hf & Hp & Hr & Hm & Hnext & Hl) Ho Hfull Hd Hmax. unfold data_fits, max_payload_size in *.
  rewrite u64_add_small in * by (unfold is_u64, u64_modulus; lia).
  assert (0 < length data)%nat as Hpos.
  { destruct Hfull as (_ & _ & H). cbn [snd] in H. destruct data; [done|cbn; lia]. }
  split; [|split]; [apply numbered_snoc; [done|congruence]|by apply Forall_app; split; [|constructor]|].
  cbn [complete_payload received_size next_block_num]. rewrite !length_app. cbn [length].
  split_and!; [|lia|unfold max_payload_size; lia| |lia].
  - rewrite map_app, concat_app, Hp. cbn [map concat snd]. by rewrite app_nil_r.
  - unfold u32_wrap, u32_modulus. rewrite N.mod_small by lia. lia.
Qed.

(** A block is refused or not put together, taken, or the last. *)
Lemma reassemble_cases token data opt now (ts : transfers) :
  let state := transfer_of token (block_size opt) now ts in
  let grown := mk_transfer (complete_payload state ++ data) (received_size state ⊕ N.of_nat (length data))
    (u32_wrap (next_block_num state + 1)) (transfer_block_size state) now in
  let fits := block_number opt = next_block_num state ∧
    received_size state ⊕ N.of_nat (length data) <= max_payload_size in
  (∃ r, reassemble_blocks token data opt now ts = (r, delete token ts) ∧ ∀ p, r ≠ Ret (Some p)) ∨
  (fits ∧ full_block (opt, data) ∧ reassemble_blocks token data opt now ts = (Ret None, <[token := grown]> ts)) ∨
  (fits ∧ more_blocks opt = false ∧
   reassemble_blocks token data opt now ts = (Ret (Some (complete_payload state ++ data)), delete token ts)).
Proof.
  intros state grown fits. unfold reassemble_blocks. fold state.
  assert (∃ r : outcome (option bytes), (Ret None, delete token ts) = (r, delete token ts) ∧ ∀ p, r ≠ Ret (Some p))
    as Hnone by (by eexists).
  destruct (N.eqb_spec (block_number opt) (next_block_num state)) as [Hn|]; cbn [negb]; [|by left].
  destruct (more_blocks opt) eqn:Hmore; cbn [andb].
  - destruct (N.eqb_spec (N.of_nat (length data)) (block_size opt)) as [Hs|]; cbn [negb]; [|by left].
    case_bool_decide as He; cbn [andb]; [by left|].
    destruct (N.ltb_spec max_payload_size (received_size state ⊕ N.of_nat (length data))); [by left|].
    right. left. by split_and!.
  - rewrite andb_false_r.
    destruct (N.ltb_spec max_payload_size (received_size state ⊕ N.of_nat (length data))); [by left|].
    cbn [complete_payload]. destruct (complete_payload state ++ data) eqn:E; [by left; eexists|].
    right. right. by split_and!.
Qed.

(** What one block does to the transfer of its token. *)
Lemma reassemble_tracks token data opt now (ts : transfers) h result ts' :
  data_fits data → (∀ state, ts !! token = Some state → tracks token h state) →
  reassemble_blocks token data opt now ts = (result, ts') →
  let h' := h ++ [block_event token data opt now] in
  (∀ state, ts' !! token = Some state → tracks token h' state) ∧
  (∀ t, t ≠ token → ts' !! t = ts !! t) ∧
  (∀ payload, result = Ret (Some payload) →
    ∃ earlier blocks, token_blocks token h' = earlier ++ blocks ++ [(opt, data)] ∧
      numbered (blocks ++ [(opt, data)]) ∧ Forall full_block blocks ∧ more_blocks opt = false ∧
      payload = concat (map snd blocks) ++ data ∧ N.of_nat (length payload) <= max_payload_size ∧
      ts' !! token = None).
Proof.
  intros Hd Hts Hrun h'.
  assert (tracks token h (transfer_of token (block_size opt) now ts)) as (earlier & blocks & Hh & Ht).
  { unfold transfer_of. destruct (ts !! token) as [state|]; [by apply Hts|].
    exists (token_blocks token h), []. rewrite app_nil_r. split; [done|]. by repeat split. }
  assert (token_blocks token h' = earlier ++ blocks ++ [(opt, data)]) as Hh'.
  { unfold h'. rewrite token_blocks_snoc, Hh. cbn. by rewrite decide_True, <- app_assoc. }
  destruct (reassemble_cases token data opt now ts) as [(r & E & Hr)|[([Hn Hm] & Hf & E)|([Hn Hm] & Hf & E)]];
    rewrite E in Hrun; injection Hrun as <- <-.
  - split_and!; [intros st; by rewrite (lookup_delete_eq ts)|intros t Hne; by rewrite (lookup_delete_ne ts)|].
    intros p Hp. by apply Hr in Hp.
  - split_and!; [|intros t Hne; by rewrite (lookup_insert_ne ts)|done].
    intros st. rewrite (lookup_insert_eq ts). intros [= <-]. exists earlier, (blocks ++ [(opt, data)]).
    split; [done|]. by apply extend_transfer.
  - split_and!; [intros st; by rewrite (lookup_delete_eq ts)|intros t Hne; by rewrite (lookup_delete_ne ts)|].
    intros p [= <-]. destruct Ht as (Hnum & Hfull & Hp & Hr & Hmax & Hnext & _).
    unfold data_fits, max_payload_size in *. rewrite u64_add_small in Hm by (unfold is_u64, u64_modulus; lia).
    exists earlier, blocks. split_and!; [done|apply numbered_snoc; [done|congruence]|done|done|by rewrite Hp| |].
    + rewrite length_app. lia.
    + apply (lookup_delete_eq ts).
Qed.

(** Events of another token, or not of a transfer, leave the token's alone. *)
Lemma event_other token e (ts : transfers) :
  ¬ outgoing token e → token_blocks token [e] = [] →
  handle_event e ts !! token = ts !! token ∨ handle_event e ts !! token = None.
Proof.
  destruct e as [t data opt now|now|t request now|t option_bytes now]; cbn [handle_event outgoing]; intros Hout Hb.
  - cbn in Hb. case_decide as Ht; [done|]. left. unfold state_of.
    destruct (reassemble_cases t data opt now ts) as [(r & -> & _)|[(_ & _ & ->)|(_ & _ & ->)]]; cbn [snd];
      first [by apply (lookup_delete_ne ts)|by apply (lookup_insert_ne ts)].
  - unfold state_of, cleanup_expired_block_transfers, mmodify. cbn [snd].
    destruct (filter _ ts !! token) as [state|] eqn:E; [left|by right].
    symmetry. by apply map_lookup_filter_Some in E as [? _].
  - left. unfold state_of, send_first. destruct (should_use_block_transfer cfg request); [|done].
    destruct (split_payload_into_blocks cfg request) as [|x l]; [done|].
    unfold mwhen, mlet, mmodify. destruct (_ <? _); [|done]. cbn. apply (lookup_insert_ne ts). naive_solver.
  - left. unfold state_of, continue_request. rewrite let_get. destruct (ts !! t) as [state|] eqn:E; [|done].
    destruct (_ <? _).
    + destruct (split_payload_into_blocks cfg _ !! _); [|done]. cbn. by apply (lookup_insert_ne ts).
    + cbn. by apply (lookup_delete_ne ts).
Qed.

Lemma run_events_tracks h token :
  Forall event_fits h → Forall (λ e, ¬ outgoing token e) h →
  ∀ state, run_events h !! token = Some state → tracks token h state.
Proof.
  induction h as [|e h IH] using rev_ind; intros Hf Ho state; [done|].
  apply Forall_app in Hf as [Hf He]. apply Forall_inv in He. apply Forall_app in Ho as [Ho Hoe]. apply Forall_inv in Hoe.
  specialize (IH Hf Ho). unfold run_events. rewrite foldl_app. fold (run_events h). cbn [foldl].
  destruct (decide (token_blocks token [e] = [])) as [Hb|Hb].
  - intros Hs. destruct (event_other token e (run_events h) Hoe Hb) as [E|E]; rewrite E in Hs; [|done].
    destruct (IH _ Hs) as (earlier & blocks & Hh & Ht). exists earlier, blocks. split; [|done].
    by rewrite token_blocks_snoc, Hh, Hb, app_nil_r.
  - destruct e as [t data opt now|now|t request now|t option_bytes now]; [|done..].
    cbn in Hb. case_decide as Ht; [subst t|done]. cbn [handle_event]. unfold state_of.
    destruct (reassemble_blocks token data opt now (run_events h)) as [r ts'] eqn:E. cbn [snd].
    destruct (reassemble_tracks _ _ _ _ _ h _ _ He IH E) as (Hown & _ & _). apply Hown.
Qed.

(** C21. What [reassemble_blocks] returns is whole.  Let any blocks have arrived, for
    any tokens, any requests have been sent and expired transfers have been
    dropped, but no request have been sent in blocks, and no Block1 answer taken,
    under this token.  When [reassemble_blocks] returns a payload, it is the data of
    the last blocks of that token, numbered from zero without a gap, each but the
    last full and announcing more and the last announcing none; it is at most
    64 MiB, and the transfer is gone.  Every block is shorter than [2 ^ 63] bytes. *)
Theorem reassembled_from_consecutive_blocks h token data opt now payload ts :
  Forall event_fits h → Forall (λ e, ¬ outgoing token e) h → data_fits data →
  reassemble_blocks token data opt now (run_events h) = (Ret (Some payload), ts) →
  ∃ earlier blocks,
    token_blocks token h = earlier ++ blocks ∧ numbered (blocks ++ [(opt, data)]) ∧
    Forall full_block blocks ∧ more_blocks opt = false ∧
    payload = concat (map snd blocks) ++ data ∧ N.of_nat (length payload) <= max_payload_size ∧
    ts !! token = None.
Proof.
  intros Hf Ho Hd E.
  destruct (reassemble_tracks _ _ _ _ _ h _ _ Hd (run_events_tracks h token Hf Ho) E) as (_ & _ & H).
  destruct (H payload eq_refl) as (earlier & blocks & Hh & Hrest). exists earlier, blocks.
  rewrite token_blocks_snoc in Hh. cbn in Hh. rewrite decide_True in Hh by done.
  rewrite app_assoc in Hh. by apply app_inj_tail in Hh as [-> _].
Qed.

(** The client's requests and the answers to them share the map and the token:
    while a request is being sent in blocks, a block numbered 1 that is the last of
    an answer is taken as the end of it, and what is returned is the request with
    the block behind it. *)
Theorem answer_taken_with_request token request data size now later (ts : transfers) :
  validate_block_settings cfg = Ret tt → should_use_block_transfer cfg request = true →
  N.of_nat (length data) <= max_payload_size →
  result_of (reassemble_blocks token data (mk_block 1 false size) later)
    (handle_event (send_event token request now) ts) = Ret (Some (request ++ data)).
Proof.
  intros Hval Hu Hd.
  assert (enable_block_transfer cfg = true) as He.
  { unfold should_use_block_transfer in Hu. by destruct (enable_block_transfer cfg). }
  pose proof (valid_settings cfg Hval He) as Hv. destruct (first_is_partial cfg request Hv Hu) as [_ Hl].
  pose proof Hl as Hpos. cbn [handle_event]. unfold state_of, send_first. rewrite Hu.
  pose proof (split_length cfg request 1) as H1. rewrite Nat.mul_1_l in H1. apply H1 in Hl.
  destruct (split_payload_into_blocks cfg request) as [|x l]; [cbn in Hl; lia|].
  destruct (N.ltb_spec 1 (N.of_nat (length (x :: l)))) as [_|]; [|lia]. cbn.
  unfold result_of, reassemble_blocks, transfer_of. rewrite (lookup_insert_eq ts).
  cbn [next_block_num received_size complete_payload block_number more_blocks N.eqb Pos.eqb negb andb].
  unfold max_payload_size in *. rewrite u64_add_small by (unfold is_u64, u64_modulus; lia).
  rewrite andb_false_r, (proj2 (N.ltb_ge _ _)) by lia.
  destruct request; [cbn in Hpos; lia|done].
Qed.
End events.

(** Without a transfer in progress, a block makes reassembly read the state it has
    just erased exactly when it is a request of one empty block. *)
Theorem empty_transfer_reads_erased_state token data opt now (ts : transfers) :
  ts !! token = None →
  ((∃ what, result_of (reassemble_blocks token data opt now) ts = Undef what) ↔
   data = [] ∧ block_number opt = 0 ∧ more_blocks opt = false).
Proof.
  intros Ht. unfold result_of, reassemble_blocks, transfer_of. rewrite Ht.
  cbn [next_block_num received_size complete_payload app]. split.
  - intros [what H]. destruct (N.eqb_spec (block_number opt) 0); [|done].
    destruct (more_blocks opt); cbn [negb andb] in H; repeat case_match; naive_solver.
  - intros (-> & Hn & Hm). rewrite Hn, Hm. by eexists.
Qed.

(** ** Concrete transfers *)

Definition network_order (bs : bytes) : N := foldl (λ v b, 256 * v + Byte.to_N b) 0 bs.
Definition default_config : coap_config := mk_coap_config true 1024.
Definition small_config : coap_config := mk_coap_config true 64.

Lemma block_option_roundtrip_witness :
  block_parse (block_encode (mk_block 1048575 true 1024)) = mk_block 1048575 true 1024 ∧
  block_encode (block_parse 4294967295) = 4294967295.
Proof.
  destruct block_option_roundtrip as [H1 H2]. split.
  - apply (H1 1048575 true 6); [lia|lia].
  - by apply H2.
Defined.

Lemma large_requests_abandoned_witness :
  send_request network_order little_endian default_config "00000001" (replicate 1500 x2a) 0 ∅ ∅ = abandoned ∧
  send_request network_order big_endian default_config "00000001" (replicate 1500 x2a) 0 ∅ ∅ = abandoned.
Proof.
  assert (N.of_nat (length (replicate 1500 x2a)) <= 16777216) by (rewrite length_replicate; lia).
  split; apply large_requests_abandoned; try done; [by left|by right].
Defined.

Lemma large_requests_delivered_witness :
  send_request network_order big_endian small_config "00000001" (replicate 150 x2a) 0 ∅ ∅ =
  delivered (replicate 150 x2a).
Proof. by apply large_requests_delivered. Defined.

Definition first_block : transfer_event := block_event "a" (replicate 16 x01) (mk_block 0 true 16) 0.
Definition other_block : transfer_event := block_event "b" [x07] (mk_block 3 true 16) 1.

Definition sent_request : transfer_event := send_event "c" (replicate 1500 x2a) 2.

Lemma reassembled_witness :
  ∃ earlier blocks, token_blocks "a" [first_block; sent_request; other_block] = earlier ++ blocks ∧
    replicate 16 x01 ++ [x02] = concat (map snd blocks) ++ [x02].
Proof.
  assert (Forall event_fits [first_block; sent_request; other_block]) as Hf by (by repeat constructor).
  assert (Forall (λ e, ¬ outgoing default_config "a" e) [first_block; sent_request; other_block]) as Ho.
  { repeat constructor; [by intros []|by intros [? _]|by intros []]. }
  assert (data_fits [x02]) as Hd by done.
  destruct (reassembled_from_consecutive_blocks network_order little_endian default_config
    [first_block; sent_request; other_block] "a" [x02] (mk_block 1 false 16) 2
    (replicate 16 x01 ++ [x02]) {["c" := mk_transfer (replicate 1500 x2a) 0 1 1024 2]} Hf Ho Hd) as (earlier & blocks & Hb & _ & _ & _ & Hp & _); [by vm_compute|].
  exists earlier, blocks. by split.
Defined.
