(* ===== verification/CoapMessages.v ===== *)
(** Endpoints, tokens and message identifiers of the CoAP transport
    ([coap_utils.hpp], [coap_transport_impl.hpp]), and the slots that bound its
    concurrent requests.

    Strings are lists of bytes.  Times are in nanoseconds. *)

From S2P Require Import Prelude Types ConfigEntry Bytes Base64 JsonSerializer CborSerializer FilePersistence Machines MachineProofs CoapBlocks.

Local Open Scope N_scope.

(** ** Endpoints *)

Record parsed_endpoint : Type := mk_endpoint {
  scheme : bytes;
  host : bytes;
  port : N;
  path : bytes
}.

(** [std::stoi]: white space, a sign, and digits up to the first other character. *)
Definition stoi (s : bytes) : outcome Z :=
  let s := skip_spaces s in
  let '(negative, s) :=
    match s with
    | x2d :: rest => (true, rest)
    | x2b :: rest => (false, rest)
    | _ => (false, s)
    end in
  match s with
  | c :: _ =>
      if is_digit c then
        let n := Z.of_N (read_digits 0 s) in
        let z := if negative : bool then (- n)%Z else n in
        if bool_decide (-2147483648 ≤ z ≤ 2147483647)%Z then Ret z else Throw (out_of_range "stoi")
      else Throw (invalid_argument "stoi")
  | [] => Throw (invalid_argument "stoi")
  end.

(** What is thrown inside the [try] is caught by its handler, the range check's own
    exception included. *)
Definition parse_port (port_str : bytes) : outcome N :=
  match
    let? port_int := stoi port_str in
    if bool_decide (port_int ≤ 0)%Z || bool_decide (65535 < port_int)%Z
    then Throw (coap_network_error "Invalid port number - must be 1-65535")
    else Ret (Z.to_N port_int)
  with
  | Ret n => Ret n
  | Throw _ => Throw (coap_network_error "Invalid port number")
  | Undef w => Undef w
  end.

Definition parse_coap_endpoint (endpoint : bytes) : outcome parsed_endpoint :=
  match endpoint with
  | [] => Throw (coap_network_error "Empty endpoint")
  | _ =>
    let? (scheme, rest) :=
      match strip_prefix (str "coaps://") endpoint with
      | Some rest => Ret (str "coaps", rest)
      | None =>
          match strip_prefix (str "coap://") endpoint with
          | Some rest => Ret (str "coap", rest)
          | None => Throw (coap_network_error "Invalid scheme - must be coap:// or coaps://")
          end
      end in
    let '(host_port, path) :=
      match find_delim x2f rest with
      | Some (before, after) => (before, x2f :: after)
      | None => (rest, [])
      end in
    match find_delim x3a host_port with
    | Some (host, port_str) =>
        let? port := parse_port port_str in
        Ret (mk_endpoint scheme host port path)
    | None =>
        Ret (mk_endpoint scheme host_port (if decide (scheme = str "coaps") then 5684 else 5683) path)
    end
  end.

Definition format_coap_endpoint (e : parsed_endpoint) : outcome bytes :=
  if negb (bool_decide (scheme e = str "coap")) && negb (bool_decide (scheme e = str "coaps"))
  then Throw (coap_network_error "Invalid scheme - must be coap or coaps")
  else match host e with
       | [] => Throw (coap_network_error "Empty host")
       | _ =>
           if port e =? 0 then Throw (coap_network_error "Invalid port - must be non-zero")
           else Ret (scheme e ++ str "://" ++ host e ++ str ":" ++ to_string (port e) ++ path e)
       end.

Definition is_valid_coap_endpoint (endpoint : bytes) : bool :=
  match endpoint with
  | [] => false
  | _ =>
      match strip_prefix (str "coap://") endpoint, strip_prefix (str "coaps://") endpoint with
      | None, None => false
      | _, _ =>
          match parse_coap_endpoint endpoint with
          | Ret parsed =>
              (0 <? port parsed) && (port parsed <=? 65535) && match host parsed with [] => false | _ => true end
          | _ => false
          end
      end
  end.

(** ** Tokens *)

Definition coap_max_token_length : nat := 8.

Definition is_valid_coap_token (token : bytes) : bool := (length token <=? coap_max_token_length)%nat.

(** The bytes come from the random generator. *)
Definition generate_coap_token (random : nat → byte) (len : nat) : outcome bytes :=
  if (len =? 0)%nat then Throw (coap_transport_error "Token length must be at least 1")
  else if (coap_max_token_length <? len)%nat
  then Throw (coap_transport_error "Token length must be at most 8 bytes")
  else Ret (map random (seq 0 len)).

Definition hex_digits : bytes := str "0123456789abcdef".

Definition format_sequential_token (counter : N) : bytes :=
  map (λ i, nth (N.to_nat (N.land (N.shiftr counter (4 * N.of_nat (coap_max_token_length - 1 - i))) 15)) hex_digits x00)
    (seq 0 coap_max_token_length).

(** [_token_counter.fetch_add(1)], cut to 32 bits. *)
Definition generate_message_token : M N bytes := λ counter,
  (Ret (format_sequential_token (u32_wrap counter)), counter ⊕ 1).

(** ** Message identifiers that were received *)

Definition received_messages : Type := gmap N Z.

Definition is_duplicate_message (message_id : N) (received : received_messages) : bool :=
  bool_decide (is_Some (received !! message_id)).

Definition cleanup_expired_messages (now : Z) : received_messages → received_messages :=
  filter (λ kv, ¬ (minutes 5 < now - kv.2)%Z).

(** [emplace] leaves an entry that is there. *)
Definition record_received_message (message_id : N) (now : Z) (received : received_messages) : received_messages :=
  cleanup_expired_messages now
    (match received !! message_id with Some _ => received | None => <[message_id := now]> received end).

(** The start of [handle_rpc_resource]: whether the request goes on to be handled.
    The peer that sent it plays no part. *)
Record arrival : Type := mk_arrival { from_peer : string; arrival_id : N; arrival_time : Z }.

Definition take_message (m : arrival) : M received_messages bool := λ received,
  if is_duplicate_message (arrival_id m) received then (Ret false, received)
  else (Ret true, record_received_message (arrival_id m) (arrival_time m) received).

(** ** Slots *)

(** Where a thread is in [acquire_concurrent_slot] and [release_concurrent_slot]. *)
Inductive slot_thread : Type :=
  | idle
  | loaded (current_requests : N)
  | holding
  | refused.

Record slots : Type := mk_slots {
  concurrent_requests : N;
  threads : list slot_thread
}.

(** One atomic operation of one thread: the load, a compare-and-exchange that
    succeeds, one that fails and reads the counter again, the end of the loop, and
    the release. *)
Inductive slot_step (max : N) : slots → slots → Prop :=
  | step_load n ts i :
      ts !! i = Some idle →
      slot_step max (mk_slots n ts) (mk_slots n (<[i := loaded n]> ts))
  | step_exchange n ts i :
      ts !! i = Some (loaded n) → n < max →
      slot_step max (mk_slots n ts) (mk_slots (n ⊕ 1) (<[i := holding]> ts))
  | step_retry n ts i seen :
      ts !! i = Some (loaded seen) → seen < max →
      slot_step max (mk_slots n ts) (mk_slots n (<[i := loaded n]> ts))
  | step_refuse n ts i seen :
      ts !! i = Some (loaded seen) → max <= seen →
      slot_step max (mk_slots n ts) (mk_slots n (<[i := refused]> ts))
  | step_release n ts i :
      ts !! i = Some holding →
      slot_step max (mk_slots n ts) (mk_slots (n ⊖ 1) (<[i := idle]> ts)).

(** ** Endpoints are read back *)

Lemma strip_prefix_app prefix s : strip_prefix prefix (prefix ++ s) = Some s.
Proof. induction prefix as [|p prefix IH]; cbn; [done|]. by rewrite byte_eqb_same. Qed.

Lemma find_delim_none delim s : delim ∉ s → find_delim delim s = None.
Proof.
  induction s as [|x s IH]; cbn [find_delim]; intros H; [done|].
  apply not_elem_of_cons in H as [Hx H]. rewrite byte_eqb_ne by done. by rewrite IH.
Qed.

Lemma find_delim_spec delim s :
  match find_delim delim s with
  | Some (before, after) => (delim ∉ before) ∧ s = before ++ delim :: after
  | None => delim ∉ s
  end.
Proof.
  induction s as [|x s IH]; cbn [find_delim]; [set_solver|].
  destruct (decide (x = delim)) as [->|Hne]; [rewrite byte_eqb_same; set_solver|].
  rewrite byte_eqb_ne by done. destruct (find_delim delim s) as [[before after]|]; [|set_solver].
  destruct IH as [Hb ->]. split; [set_solver|done].
Qed.

Lemma stoi_to_string n : n <= 65535 → stoi (to_string n) = Ret (Z.of_N n).
Proof.
  intros Hn. unfold stoi, to_string. destruct (put_digits_head 19 n []) as (c & l & E & Hc).
  assert (read_digits 0 (c :: l) = n) as Hr.
  { rewrite <- E, read_put_digits; [done|]. simpl. lia. }
  rewrite E. assert (skip_spaces (c :: l) = c :: l) as ->.
  { cbn [skip_spaces]. by destruct c. }
  assert (match c :: l with x2d :: rest => (true, rest) | x2b :: rest => (false, rest) | _ => (false, c :: l) end
    = (false, c :: l)) as -> by (by destruct c).
  rewrite Hc, Hr. by rewrite bool_decide_eq_true_2 by lia.
Qed.

Lemma parse_port_to_string n : 0 < n → n <= 65535 → parse_port (to_string n) = Ret n.
Proof.
  intros H0 Hn. unfold parse_port. rewrite stoi_to_string by done. cbn [outcome_bind].
  rewrite !bool_decide_eq_false_2 by lia. cbn [orb]. by rewrite N2Z.id.
Qed.

Lemma parse_port_range s n : parse_port s = Ret n → 0 < n ∧ n <= 65535.
Proof.
  unfold parse_port. destruct (stoi s) as [z|e|w]; cbn [outcome_bind]; [|done..].
  destruct (bool_decide (z ≤ 0)%Z) eqn:E1; [done|]. destruct (bool_decide (65535 < z)%Z) eqn:E2; [done|].
  apply bool_decide_eq_false_1 in E1, E2. cbn [orb]. intros [= <-]. lia.
Qed.

(** What parsing leaves. *)
Definition endpoint_wf (e : parsed_endpoint) : Prop :=
  (scheme e = str "coap" ∨ scheme e = str "coaps") ∧ (x2f ∉ host e) ∧ (x3a ∉ host e) ∧
  0 < port e ∧ port e <= 65535 ∧ (path e = [] ∨ ∃ rest, path e = x2f :: rest).

Lemma parse_endpoint_wf s e : parse_coap_endpoint s = Ret e → endpoint_wf e.
Proof.
  unfold parse_coap_endpoint. destruct s as [|c s]; [done|]. set (endpoint := c :: s). intros H.
  assert (∃ sch rest, (sch = str "coap" ∨ sch = str "coaps") ∧
    match strip_prefix (str "coaps://") endpoint with
    | Some rest => Ret (str "coaps", rest)
    | None => match strip_prefix (str "coap://") endpoint with
              | Some rest => Ret (str "coap", rest)
              | None => Throw (coap_network_error "Invalid scheme - must be coap:// or coaps://")
              end
    end = Ret (sch, rest)) as (sch & rest & Hsch & E).
  { destruct (strip_prefix (str "coaps://") endpoint); [by eauto|].
    destruct (strip_prefix (str "coap://") endpoint); [by eauto|done]. }
  rewrite E in H. cbn [outcome_bind] in H. pose proof (find_delim_spec x2f rest) as Hslash.
  assert (∃ host_port path, (x2f ∉ host_port) ∧ (path = [] ∨ ∃ r, path = x2f :: r) ∧
    match find_delim x2f rest with Some (before, after) => (before, x2f :: after) | None => (rest, []) end =
      (host_port, path)) as (host_port & pth & Hno & Hpath & E2).
  { destruct (find_delim x2f rest) as [[before found]|]; [|by eauto 10]. destruct Hslash as [Hb _]. by eauto 10. }
  rewrite E2 in H. pose proof (find_delim_spec x3a host_port) as Hcolon.
  destruct (find_delim x3a host_port) as [[hst port_str]|].
  - destruct Hcolon as [Hc ->]. destruct (parse_port port_str) as [n|?|?] eqn:Hp; [|done..].
    injection H as <-. apply parse_port_range in Hp as [? ?]. split_and!; cbn; try done. set_solver.
  - injection H as <-. split_and!; cbn; try done; by case_decide.
Qed.

(** An endpoint that parsing left is written and read back. *)
Lemma format_parse e :
  endpoint_wf e → host e ≠ [] →
  ∃ canonical, format_coap_endpoint e = Ret canonical ∧ parse_coap_endpoint canonical = Ret e.
Proof.
  intros (Hs & Hslash & Hcolon & H0 & Hmax & Hpath) Hne.
  set (address := host e ++ x3a :: to_string (port e)).
  exists (scheme e ++ str "://" ++ address ++ path e). split.
  { unfold format_coap_endpoint, address.
    assert (negb (bool_decide (scheme e = str "coap")) && negb (bool_decide (scheme e = str "coaps")) = false) as ->.
    { by destruct Hs as [-> | ->]. }
    destruct (host e) eqn:Eh; [done|]. destruct (N.eqb_spec (port e) 0); [lia|].
    rewrite <- !app_assoc. done. }
  assert (x2f ∉ address) as Haddr.
  { assert (x2f ∉ to_string (port e)) by (by apply digits_avoid). unfold address. set_solver. }
  assert (match find_delim x2f (address ++ path e) with
    | Some (before, after) => (before, x2f :: after) | None => (address ++ path e, []) end = (address, path e)) as Ecut.
  { destruct Hpath as [-> | [rest ->]]; [by rewrite app_nil_r, find_delim_none|by rewrite find_delim_app]. }
  assert (find_delim x3a address = Some (host e, to_string (port e))) as Eport by (by apply find_delim_app).
  unfold parse_coap_endpoint.
  destruct Hs as [Es | Es]; rewrite Es; cbn -[address find_delim parse_port to_string]; rewrite Ecut, Eport,
    parse_port_to_string by done; cbn [outcome_bind]; f_equal; clear -Es; destruct e; cbn in *; by subst.
Qed.

(** Any endpoint that [is_valid_coap_endpoint] accepts has a canonical form, with
    its port written out, that is read as the same endpoint. *)
Theorem endpoint_roundtrip endpoint :
  is_valid_coap_endpoint endpoint = true →
  ∃ e canonical, parse_coap_endpoint endpoint = Ret e ∧ format_coap_endpoint e = Ret canonical ∧
    parse_coap_endpoint canonical = Ret e ∧ is_valid_coap_endpoint canonical = true.
Proof.
  intros Hv. unfold is_valid_coap_endpoint in Hv. destruct endpoint as [|c s]; [done|].
  destruct (parse_coap_endpoint (c :: s)) as [e|?|?] eqn:Hp; [|by repeat case_match..].
  assert (host e ≠ []) as Hh.
  { intros E. rewrite E, andb_false_r in Hv. by repeat case_match. }
  pose proof (parse_endpoint_wf _ _ Hp) as Hwf.
  destruct (format_parse e Hwf Hh) as (canonical & Hf & Hpc). exists e, canonical. split_and!; try done.
  unfold is_valid_coap_endpoint. rewrite Hpc. destruct canonical as [|c' s'] eqn:Ec; [done|].
  destruct (strip_prefix (str "coap://") (c' :: s')) eqn:E1; destruct (strip_prefix (str "coaps://") (c' :: s')) eqn:E2;
    try (destruct Hwf as (_ & _ & _ & ? & ? & _); destruct (host e); [done|];
         rewrite (proj2 (N.ltb_lt _ _)), (proj2 (N.leb_le _ _)) by done; done).
  unfold parse_coap_endpoint in Hpc. by rewrite E1, E2 in Hpc.
Qed.

Lemma endpoint_roundtrip_witness :
  ∃ e canonical, parse_coap_endpoint (str "coaps://node7/raft/vote") = Ret e ∧
    format_coap_endpoint e = Ret canonical ∧
    parse_coap_endpoint canonical = Ret e ∧ is_valid_coap_endpoint canonical = true.
Proof. by apply endpoint_roundtrip. Defined.

(** ** Tokens do not repeat *)

Definition hex_of (d : N) : byte := nth (N.to_nat d) hex_digits x00.

(** The [w] last hexadecimal digits of a number, the first of them first. *)
Fixpoint hex_text (w : nat) (n : N) : bytes :=
  match w with
  | O => []
  | S w => hex_of (n / 16 ^ N.of_nat w mod 16) :: hex_text w n
  end.

Lemma nibble n k : N.land (N.shiftr n (4 * k)) 15 = n / 16 ^ k mod 16.
Proof.
  change 15 with (N.ones 4). rewrite N.land_ones, N.shiftr_div_pow2, N.pow_mul_r. done.
Qed.

Lemma token_hex_text counter : format_sequential_token counter = hex_text 8 counter.
Proof.
  unfold format_sequential_token, coap_max_token_length. cbn [seq map hex_text]. rewrite !nibble. done.
Qed.

(** The order of strings: the first difference decides. *)
Fixpoint text_lt (a b : bytes) : Prop :=
  match a, b with
  | x :: a, y :: b => Byte.to_N x < Byte.to_N y ∨ (x = y ∧ text_lt a b)
  | [], _ :: _ => True
  | _, [] => False
  end.

Lemma text_lt_irrefl a : ¬ text_lt a a.
Proof. induction a as [|x a IH]; intros H; cbn in H; [done|]. destruct H as [H|[_ H]]; [lia|done]. Qed.

Lemma hex_of_lt c d : c < d → d < 16 → Byte.to_N (hex_of c) < Byte.to_N (hex_of d).
Proof.
  intros Hc Hd.
  assert (forallb (λ p, implb (p.1 <? p.2) (Byte.to_N (hex_of p.1) <? Byte.to_N (hex_of p.2)))
    (list_prod (map N.of_nat (seq 0 16)) (map N.of_nat (seq 0 16))) = true) as H by (by vm_compute).
  rewrite forallb_forall in H. specialize (H (c, d)). cbn [fst snd] in H.
  apply N.ltb_lt in Hc as Hc'. rewrite Hc' in H. apply N.ltb_lt, H. apply in_prod.
  - apply in_map_iff. exists (N.to_nat c). split; [lia|]. apply in_seq. lia.
  - apply in_map_iff. exists (N.to_nat d). split; [lia|]. apply in_seq. lia.
Qed.

Lemma hex_text_mod w k n : (w ≤ k)%nat → hex_text w (n mod 16 ^ N.of_nat k) = hex_text w n.
Proof.
  intros Hk. induction w as [|w IH]; cbn [hex_text]; [done|]. rewrite IH by lia. do 2 f_equal.
  replace (N.of_nat k) with (N.of_nat w + (1 + N.of_nat (k - S w))) by lia.
  rewrite !N.pow_add_r, N.pow_1_r, N.Div0.mod_mul_r, N.mul_comm, N.div_add
    by (apply N.pow_nonzero; lia).
  rewrite N.div_small by (apply N.mod_lt, N.pow_nonzero; lia). rewrite N.add_0_l, N.Div0.mod_mul_r.
  rewrite N.mul_comm, N.Div0.mod_add. apply N.Div0.mod_mod.
Qed.

Lemma hex_text_lt w a b : a < b → b < 16 ^ N.of_nat w → text_lt (hex_text w a) (hex_text w b).
Proof.
  revert a b. induction w as [|w IH]; intros a b Hab Hb; [cbn in Hb; lia|]. cbn [hex_text text_lt].
  set (p := 16 ^ N.of_nat w) in *. assert (p ≠ 0) as Hp by (apply N.pow_nonzero; lia).
  replace (N.of_nat (S w)) with (1 + N.of_nat w) in Hb by lia. rewrite N.pow_add_r, N.pow_1_r in Hb. fold p in Hb.
  assert (b / p < 16) by (apply N.Div0.div_lt_upper_bound; lia).
  assert (a / p <= b / p) as Hle by (apply N.Div0.div_le_mono; lia).
  rewrite !N.mod_small by lia. destruct (N.eq_dec (a / p) (b / p)) as [E|].
  - right. split; [by rewrite E|]. rewrite <- (hex_text_mod w w a), <- (hex_text_mod w w b) by lia. fold p.
    apply IH; [|by apply N.mod_lt]. pose proof (N.div_mod a p Hp). pose proof (N.div_mod b p Hp). nia.
  - left. apply hex_of_lt; lia.
Qed.

(** A token has eight bytes whatever the counter, so that every one is valid, and
    the order of tokens is that of the counters they stand for; so two of them are
    equal only for equal counters. *)
Theorem sequential_tokens :
  (∀ counter, length (format_sequential_token counter) = 8%nat ∧
     is_valid_coap_token (format_sequential_token counter) = true) ∧
  (∀ a b, is_u32 a → is_u32 b → (a < b ↔ text_lt (format_sequential_token a) (format_sequential_token b))) ∧
  (∀ a b, is_u32 a → is_u32 b → format_sequential_token a = format_sequential_token b → a = b).
Proof.
  assert (∀ a b, a < b → is_u32 b → text_lt (format_sequential_token a) (format_sequential_token b)) as Hlt.
  { intros a b Hab Hb. rewrite !token_hex_text. by apply hex_text_lt. }
  assert (∀ a b, text_lt a b → ¬ text_lt b a) as Hasym.
  { induction a as [|x a IH]; intros [|y b] H1 H2; cbn in H1, H2; try done.
    destruct H1 as [H1|[-> H1]], H2 as [H2|[E H2]]; try lia; [subst; lia|by eapply IH]. }
  split_and!; [done| |].
  - intros a b Ha Hb. split; [intros; by apply Hlt|]. intros Ht.
    destruct (N.lt_trichotomy a b) as [|[->|Hba]]; [done|by apply text_lt_irrefl in Ht|].
    exfalso. by apply (Hasym _ _ Ht), Hlt.
  - intros a b Ha Hb E. destruct (N.lt_trichotomy a b) as [H|[|H]]; [|done|];
      [apply (Hlt a b) in H|apply (Hlt b a) in H]; try done; rewrite E in H; by apply text_lt_irrefl in H.
Qed.


(** ** Duplicates *)

(** The arrivals in turn, each with whether it was taken. *)
Fixpoint take_all (l : list arrival) (received : received_messages) : list (arrival * bool) :=
  match l with
  | [] => []
  | m :: l =>
      let '(taken, received) := take_message m received in
      (m, bool_decide (taken = Ret true)) :: take_all l received
  end.

(** A message that is remembered stays so for five minutes. *)
Lemma remembered_is_refused l received id t0 :
  received !! id = Some t0 → Forall (λ m, arrival_time m - t0 ≤ minutes 5)%Z l →
  ∀ i m taken, take_all l received !! i = Some (m, taken) → arrival_id m = id → taken = false.
Proof.
  revert received. induction l as [|m l IH]; intros received Hr Hl i m' taken Hi Hid; [done|].
  apply Forall_cons in Hl as [Hm Hl]. cbn [take_all] in Hi.
  unfold take_message, is_duplicate_message in Hi.
  destruct (decide (is_Some (received !! arrival_id m))) as [Hdup|Hnew].
  - rewrite bool_decide_eq_true_2 in Hi by done. destruct i as [|i]; cbn in Hi; [by injection Hi as <- <-|].
    by eapply (IH received).
  - rewrite bool_decide_eq_false_2 in Hi by done.
    destruct i as [|i]; cbn in Hi; [injection Hi as <- <-; subst id; rewrite Hr in Hnew; by destruct Hnew; eexists|].
    eapply (IH (record_received_message (arrival_id m) (arrival_time m) received)); [|done|exact Hi|done].
    unfold record_received_message, cleanup_expired_messages. apply map_lookup_filter_Some. split; [|cbn; lia].
    destruct (received !! arrival_id m) eqn:E; [done|]. rewrite (lookup_insert_ne received); [done|congruence].
Qed.

Lemma take_all_take n l received : take n (take_all l received) = take_all (take n l) received.
Proof.
  revert n received. induction l as [|m l IH]; intros [|n] received; cbn; try done.
  destruct (take_message m received) as [taken received']. cbn. by rewrite IH.
Qed.

Lemma take_all_lookup l received j m : l !! j = Some m → ∃ taken, take_all l received !! j = Some (m, taken).
Proof.
  revert j received. induction l as [|m' l IH]; intros [|j] received; cbn [take_all lookup list_lookup]; try done;
    destruct (take_message m' received) as [taken received'] eqn:E; [|intros Hj; by apply IH].
  intros [= ->]. by eexists.
Qed.

Lemma taken_is_remembered m received received' :
  take_message m received = (Ret true, received') → received' !! arrival_id m = Some (arrival_time m).
Proof.
  unfold take_message, is_duplicate_message. case_bool_decide as Hd; [done|]. intros [= <-].
  unfold record_received_message, cleanup_expired_messages. apply map_lookup_filter_Some.
  split; [|cbn; unfold minutes; lia]. destruct (received !! arrival_id m) eqn:E; [by destruct Hd; eexists|].
  apply (lookup_insert_eq received).
Qed.

(** Of the messages with one identifier, at most one is taken in any five minutes,
    whoever sent them: a request of one peer is dropped when a request of another
    with the same identifier was taken less than five minutes before. *)
Theorem one_message_per_identifier l received i j m m' :
  (∀ a b ma mb, (a ≤ b)%nat → l !! a = Some ma → l !! b = Some mb → (arrival_time ma ≤ arrival_time mb)%Z) →
  (i < j)%nat → take_all l received !! i = Some (m, true) → l !! j = Some m' →
  arrival_id m' = arrival_id m → (arrival_time m' - arrival_time m ≤ minutes 5)%Z →
  take_all l received !! j = Some (m', false).
Proof.
  revert received i j. induction l as [|first l IH]; intros received i j Hsorted Hij Hi Hj Hid Hage; [done|].
  cbn [take_all] in *. destruct (take_message first received) as [taken received'] eqn:E.
  destruct j as [|j]; [lia|]. change (l !! j = Some m') in Hj. change (take_all l received' !! j = Some (m', false)).
  destruct i as [|i]; cbn [lookup list_lookup] in Hi.
  - injection Hi as <- Ht. apply bool_decide_eq_true_1 in Ht. subst taken.
    apply taken_is_remembered in E. destruct (take_all_lookup l received' j m' Hj) as [taken Ht]. rewrite Ht.
    do 2 f_equal. apply (remembered_is_refused (take (S j) l) received' (arrival_id first) (arrival_time first) E)
      with j m'; [|rewrite <- take_all_take, lookup_take_lt by lia; done|done].
    apply Forall_lookup. intros k mk Hk. apply lookup_take_Some in Hk as [Hk Hlt].
    pose proof (Hsorted (S k) (S j) mk m' ltac:(lia) Hk Hj). lia.
  - apply (IH received' i j); [|lia|done|done|done|done].
    intros a b ma mb Hab Ha Hb. apply (Hsorted (S a) (S b)); [lia|done|done].
Qed.

Lemma one_message_per_identifier_witness :
  take_all [mk_arrival "node-1" 4711 0; mk_arrival "node-2" 4711 1000000000] ∅ !! 1%nat =
  Some (mk_arrival "node-2" 4711 1000000000, false).
Proof.
  apply (one_message_per_identifier _ _ 0 1 (mk_arrival "node-1" 4711 0)); [|lia|done|done|done|by vm_compute].
  intros [|[|a]] [|[|b]] ma mb Hab Ha Hb; cbn in *; simplify_eq; cbn; lia.
Defined.

(** ** Slots are bounded under every interleaving *)

Definition holds (t : slot_thread) : nat := match t with holding => 1 | _ => 0 end.
Definition holders (ts : list slot_thread) : nat := sum_list_with holds ts.

Lemma holders_insert ts i t t' :
  ts !! i = Some t → (holders (<[i := t']> ts) + holds t = holders ts + holds t')%nat.
Proof.
  revert i. induction ts as [|x ts IH]; intros [|i] Hi; [done|done| |].
  - injection Hi as ->. cbn -[holds]. lia.
  - specialize (IH i Hi).
    change (holds x + holders (<[i := t']> ts) + holds t = holds x + holders ts + holds t')%nat. lia.
Qed.

Definition slots_ok (max : N) (s : slots) : Prop :=
  concurrent_requests s = N.of_nat (holders (threads s)) ∧ concurrent_requests s <= max.

Lemma slot_step_ok max s s' : is_u64 max → slots_ok max s → slot_step max s s' → slots_ok max s'.
Proof.
  intros Hmax [Hc Hm] Hstep. unfold is_u64, u64_modulus in Hmax.
  destruct Hstep as [n ts i Hi|n ts i Hi Hlt|n ts i seen Hi Hlt|n ts i seen Hi Hge|n ts i Hi];
    cbn [concurrent_requests threads] in *; unfold slots_ok; cbn [concurrent_requests threads];
    match goal with |- context [<[i := ?t']> ts] => pose proof (holders_insert ts i _ t' Hi) as Hh; cbn in Hh end.
  - split; lia.
  - rewrite u64_add_small by (unfold is_u64, u64_modulus; lia). split; lia.
  - split; lia.
  - split; lia.
  - rewrite u64_sub_small by (unfold is_u64, u64_modulus; lia). split; lia.
Qed.


