(* ===== verification/SerializerRegistry.v ===== *)
(** The serializers a transport chooses between ([serializer_registry.hpp]), the
    HTTP [Accept] header ([http_content_negotiation.hpp]) and what a client
    remembers of its peers ([peer_capability_cache.hpp]).

    A registry is used through the class [SerializerRegistry], the C++ concept of
    that name; [RegistryLaws] states what its users rely on, and the registry of
    one and that of several serializers are shown to have it.  Header values are
    lists of characters. *)

From Stdlib Require Import Ascii.
From stdpp Require Import strings.
From S2P Require Import Prelude Types ConfigEntry Bytes Base64 JsonSerializer CborSerializer.

(** ** Serializers *)

Record rpc_serializer : Type := mk_serializer {
  media_type : string;
  ser_serialize : message → bytes;
  ser_deserialize : message_kind → bytes → outcome message
}.

Definition json_rpc_serializer `{JL : JsonLib} : rpc_serializer :=
  mk_serializer "application/json" serialize deserialize.
Definition cbor_rpc_serializer : rpc_serializer :=
  mk_serializer "application/cbor" cbor_serialize cbor_deserialize.

(** ** [Accept] entries *)

(** [pattern.ends_with(suffix)] *)
Definition ends_with (suffix s : string) : bool :=
  String.eqb (String.substring (String.length s - String.length suffix) (String.length suffix) s) suffix.

Definition accept_entry_matches (pattern candidate : string) : bool :=
  if String.eqb pattern "*/*" then true
  else if (2 <? String.length pattern)%nat && ends_with "/*" pattern then
    String.prefix (String.substring 0 (String.length pattern - 1) pattern) candidate
  else String.eqb pattern candidate.

(** ** The interface of a registry *)

Class SerializerRegistry (R : Type) : Type := {
  default_media_type : R → string;
  preferred_media_types : R → list string;
  supports : R → string → bool;
  select_output_media_type : R → list string → option string;
  encode_with : R → string → message → outcome bytes;
  decode_with : R → message_kind → string → bytes → outcome message
}.

(** ** A registry of one serializer *)

Module Single.
Definition default_media_type (s : rpc_serializer) : string := media_type s.
Definition preferred_media_types (s : rpc_serializer) : list string := [media_type s].
Definition supports (s : rpc_serializer) (mt : string) : bool := String.eqb mt (media_type s).

Fixpoint scan (s : rpc_serializer) (accepted : list string) : option string :=
  match accepted with
  | [] => None
  | pattern :: accepted =>
      if accept_entry_matches pattern (media_type s) then Some (media_type s) else scan s accepted
  end.
Definition select_output_media_type (s : rpc_serializer) (accepted : list string) : option string :=
  match accepted with
  | [] => Some (default_media_type s)
  | _ => scan s accepted
  end.

Definition encode_with (s : rpc_serializer) (mt : string) (m : message) : outcome bytes :=
  if negb (supports s mt) then Throw (unsupported_media_type_error mt) else Ret (ser_serialize s m).
Definition decode_with (s : rpc_serializer) (k : message_kind) (mt : string) (data : bytes) : outcome message :=
  if negb (supports s mt) then Throw (unsupported_media_type_error mt) else ser_deserialize s k data.
End Single.

#[export] Instance single_serializer_registry : SerializerRegistry rpc_serializer := {|
  default_media_type := Single.default_media_type;
  preferred_media_types := Single.preferred_media_types;
  supports := Single.supports;
  select_output_media_type := Single.select_output_media_type;
  encode_with := Single.encode_with;
  decode_with := Single.decode_with
|}.

(** ** A registry of several serializers *)

(** The tuple: the default first, and at least one more. *)
Record multi_registry : Type := mk_multi {
  first_serializer : rpc_serializer;
  second_serializer : rpc_serializer;
  more_serializers : list rpc_serializer
}.
Definition _serializers (r : multi_registry) : list rpc_serializer :=
  first_serializer r :: second_serializer r :: more_serializers r.

Module Multi.
Definition default_media_type (r : multi_registry) : string := media_type (first_serializer r).
Definition preferred_media_types (r : multi_registry) : list string := map media_type (_serializers r).
Definition supports (r : multi_registry) (mt : string) : bool :=
  existsb (λ s, String.eqb (media_type s) mt) (_serializers r).

(** The fold over the tuple: the first hit stays. *)
Definition first_hit (pattern : string) (l : list rpc_serializer) : option string :=
  foldl (λ hit s, match hit with
    | None => if accept_entry_matches pattern (media_type s) then Some (media_type s) else None
    | Some _ => hit
    end) None l.
Fixpoint scan (r : multi_registry) (accepted : list string) : option string :=
  match accepted with
  | [] => None
  | pattern :: accepted =>
      match first_hit pattern (_serializers r) with
      | Some mt => Some mt
      | None => scan r accepted
      end
  end.
Definition select_output_media_type (r : multi_registry) (accepted : list string) : option string :=
  match accepted with
  | [] => Some (default_media_type r)
  | _ => scan r accepted
  end.

(** The last serializer of the type is the one that encodes. *)
Definition encode_with (r : multi_registry) (mt : string) (m : message) : outcome bytes :=
  match foldl (λ result s, if String.eqb (media_type s) mt then Some (ser_serialize s m) else result)
          None (_serializers r) with
  | None => Throw (unsupported_media_type_error mt)
  | Some data => Ret data
  end.

(** Every serializer of the type decodes, and the last one's result is kept. *)
Fixpoint decode_each (k : message_kind) (mt : string) (data : bytes) (result : option message)
    (l : list rpc_serializer) : outcome (option message) :=
  match l with
  | [] => Ret result
  | s :: l =>
      if String.eqb (media_type s) mt
      then let? m := ser_deserialize s k data in decode_each k mt data (Some m) l
      else decode_each k mt data result l
  end.
Definition decode_with (r : multi_registry) (k : message_kind) (mt : string) (data : bytes) : outcome message :=
  let? result := decode_each k mt data None (_serializers r) in
  match result with
  | None => Throw (unsupported_media_type_error mt)
  | Some m => Ret m
  end.
End Multi.

#[export] Instance multi_serializer_registry : SerializerRegistry multi_registry := {|
  default_media_type := Multi.default_media_type;
  preferred_media_types := Multi.preferred_media_types;
  supports := Multi.supports;
  select_output_media_type := Multi.select_output_media_type;
  encode_with := Multi.encode_with;
  decode_with := Multi.decode_with
|}.

(** ** What a client remembers *)

Definition capability_cache : Type := gmap N string.

Definition cache_get (key : N) (cache : capability_cache) : option string := cache !! key.
Definition cache_record (key : N) (mt : string) (cache : capability_cache) : capability_cache := <[key := mt]> cache.
Definition cache_forget (key : N) (cache : capability_cache) : capability_cache := delete key cache.

Section selection.
Context {R : Type} `{SerializerRegistry R}.

Definition select_request_media_type (r : R) (cache : capability_cache) (target : N) : string :=
  match cache_get target cache with
  | Some cached => if supports r cached then cached else default_media_type r
  | None => default_media_type r
  end.

Definition next_request_media_type_after_rejection (r : R) (already_tried : list string) : option string :=
  find (λ candidate, negb (existsb (String.eqb candidate) already_tried)) (preferred_media_types r).
End selection.

(** ** The [Accept] header *)

Definition is_blank (c : ascii) : bool := Ascii.eqb c " "%char || Ascii.eqb c "009"%char.

(** The entries between commas: always at least one. *)
Fixpoint split_commas (header : list ascii) : list (list ascii) :=
  match header with
  | [] => [[]]
  | c :: header =>
      if Ascii.eqb c ","%char then [] :: split_commas header
      else match split_commas header with
           | entry :: entries => (c :: entry) :: entries
           | [] => [[c]]
           end
  end.

Fixpoint before_semicolon (entry : list ascii) : list ascii :=
  match entry with
  | [] => []
  | c :: entry => if Ascii.eqb c ";"%char then [] else c :: before_semicolon entry
  end.

Fixpoint skip_blanks (entry : list ascii) : list ascii :=
  match entry with
  | [] => []
  | c :: rest => if is_blank c then skip_blanks rest else entry
  end.

(** From the first to the last character that is not blank. *)
Definition trim (entry : list ascii) : list ascii := rev (skip_blanks (rev (skip_blanks entry))).

Definition parse_accept_header (header : list ascii) : list (list ascii) :=
  omap (λ entry, match trim (before_semicolon entry) with [] => None | mt => Some mt end) (split_commas header).

Definition format_accept_header (media_types : list (list ascii)) : list ascii :=
  foldl (λ result mt, match result with
    | [] => mt
    | _ => result ++ [","; " "]%char ++ mt
    end) [] media_types.

Definition strip_media_type_parameters (content_type : list ascii) : list ascii :=
  trim (before_semicolon content_type).

(** ** What a registry promises *)

(** The peer's first entry that any of our types matches; among those, our first. *)
Definition best_accepted (preferred accepted : list string) (mt : string) : Prop :=
  ∃ before pattern after ours rest,
    accepted = before ++ pattern :: after ∧ preferred = ours ++ mt :: rest ∧
    accept_entry_matches pattern mt = true ∧
    (∀ p t, p ∈ before → t ∈ preferred → accept_entry_matches p t = false) ∧
    (∀ t, t ∈ ours → accept_entry_matches pattern t = false).

Class RegistryLaws (R : Type) `{SerializerRegistry R} : Prop := {
  law_default r : head (preferred_media_types r) = Some (default_media_type r);
  law_supports r mt : supports r mt = true ↔ mt ∈ preferred_media_types r;
  law_no_preference r : select_output_media_type r [] = Some (default_media_type r);
  law_select r accepted mt : accepted ≠ [] →
    select_output_media_type r accepted = Some mt ↔ best_accepted (preferred_media_types r) accepted mt;
  law_encode r mt m : mt ∈ preferred_media_types r → ∃ data, encode_with r mt m = Ret data;
  law_unsupported r mt m k data : mt ∉ preferred_media_types r →
    encode_with r mt m = Throw (unsupported_media_type_error mt) ∧
    decode_with r k mt data = Throw (unsupported_media_type_error mt)
}.

Lemma best_accepted_cons_hit preferred pattern accepted ours mt rest t :
  preferred = ours ++ mt :: rest → accept_entry_matches pattern mt = true →
  (∀ t, t ∈ ours → accept_entry_matches pattern t = false) →
  best_accepted preferred (pattern :: accepted) t ↔ t = mt.
Proof.
  intros Hp Hm Ho. split.
  - intros (before & p & after & ours' & rest' & Ha & Hp' & Hm' & Hb & Ho').
    destruct before as [|p0 before]; injection Ha as <- Ha.
    2:{ specialize (Hb pattern mt). rewrite Hm in Hb. discriminate Hb; [left|]. rewrite Hp. set_solver. }
    revert ours' Hp' Ho'. subst preferred. clear - Hm Ho Hm'.
    induction ours as [|o ours IH]; intros [|o' ours'] Hp' Ho'; cbn in Hp'; simplify_eq; try done.
    + rewrite Ho' in Hm; [done|left].
    + rewrite Ho in Hm'; [done|left].
    + eapply IH; [intros t' Ht'; apply Ho; by right|done|intros t' Ht'; apply Ho'; by right].
  - intros ->. exists [], pattern, accepted, ours, rest. split_and!; try done. intros p t' Hin. by apply elem_of_nil in Hin.
Qed.

Lemma best_accepted_cons_miss preferred pattern accepted t :
  (∀ t, t ∈ preferred → accept_entry_matches pattern t = false) →
  best_accepted preferred (pattern :: accepted) t ↔ best_accepted preferred accepted t.
Proof.
  intros Hmiss. split.
  - intros (before & p & after & ours & rest & Ha & Hp & Hm & Hb & Ho).
    destruct before as [|p0 before]; injection Ha as -> Ha.
    { rewrite Hmiss in Hm; [done|]. rewrite Hp. set_solver. }
    exists before, p, after, ours, rest. split_and!; try done. intros p' t' Hin. apply Hb. by right.
  - intros (before & p & after & ours & rest & -> & Hp & Hm & Hb & Ho).
    exists (pattern :: before), p, after, ours, rest. split_and!; try done.
    intros p' t' [->|Hin]%elem_of_cons; [apply Hmiss|by apply Hb].
Qed.

Lemma best_accepted_nil preferred t : ¬ best_accepted preferred [] t.
Proof. by intros ([] & p & after & ours & rest & Ha & _). Qed.

#[export] Instance single_registry_laws : RegistryLaws rpc_serializer.
Proof.
  split; cbn.
  - done.
  - intros s mt. unfold Single.supports. rewrite String.eqb_eq. set_solver.
  - done.
  - intros s accepted mt Hne. destruct accepted as [|p0 accepted0]; [done|].
    cbn [Single.select_output_media_type]. generalize (p0 :: accepted0). clear.
    intros accepted. induction accepted as [|p accepted IH]; cbn [Single.scan].
    + split; [done|]. intros H. by apply best_accepted_nil in H.
    + destruct (accept_entry_matches p (media_type s)) eqn:E.
      * rewrite (best_accepted_cons_hit [media_type s] p accepted [] (media_type s) []); naive_solver set_solver.
      * rewrite best_accepted_cons_miss; [done|]. set_solver.
  - intros s mt m Hin. assert (mt = media_type s) as -> by set_solver.
    unfold Single.encode_with, Single.supports. rewrite String.eqb_refl. by eexists.
  - intros s mt m k data Hin. unfold Single.encode_with, Single.decode_with, Single.supports.
    destruct (String.eqb_spec mt (media_type s)); [set_solver|done].
Qed.

Lemma first_hit_stays pattern mt l :
  foldl (λ hit s, match hit with
    | None => if accept_entry_matches pattern (media_type s) then Some (media_type s) else None
    | Some _ => hit
    end) (Some mt) l = Some mt.
Proof. by induction l. Qed.

Lemma first_hit_spec pattern l :
  match Multi.first_hit pattern l with
  | Some mt => ∃ ours rest, map media_type l = ours ++ mt :: rest ∧ accept_entry_matches pattern mt = true ∧
      ∀ t, t ∈ ours → accept_entry_matches pattern t = false
  | None => ∀ t, t ∈ map media_type l → accept_entry_matches pattern t = false
  end.
Proof.
  unfold Multi.first_hit. induction l as [|s l IH]; cbn [foldl map]; [set_solver|].
  destruct (accept_entry_matches pattern (media_type s)) eqn:E.
  - rewrite first_hit_stays. exists [], (map media_type l). set_solver.
  - match type of IH with match ?x with _ => _ end => destruct x as [mt|] end; [|set_solver].
    destruct IH as (ours & rest & -> & Hm & Ho). exists (media_type s :: ours), rest. set_solver.
Qed.

Lemma encode_last mt m l acc :
  match foldl (λ result s, if String.eqb (media_type s) mt then Some (ser_serialize s m) else result) acc l with
  | Some _ => (mt ∈ map media_type l) ∨ is_Some acc
  | None => (mt ∉ map media_type l) ∧ acc = None
  end.
Proof.
  revert acc. induction l as [|s l IH]; intros acc; cbn [foldl map].
  - destruct acc; [right; by eexists|]. set_solver.
  - specialize (IH (if String.eqb (media_type s) mt then Some (ser_serialize s m) else acc)).
    destruct (String.eqb_spec (media_type s) mt) as [<-|Hne];
      match type of IH with match ?x with _ => _ end => destruct x end; set_solver.
Qed.

Lemma decode_each_unsupported k mt data l :
  mt ∉ map media_type l → Multi.decode_each k mt data None l = Ret None.
Proof.
  induction l as [|s l IH]; cbn [map Multi.decode_each]; [done|]. intros Hin.
  destruct (String.eqb_spec (media_type s) mt); [set_solver|]. apply IH. set_solver.
Qed.

#[export] Instance multi_registry_laws : RegistryLaws multi_registry.
Proof.
  split; cbn [default_media_type preferred_media_types supports select_output_media_type encode_with decode_with
    multi_serializer_registry].
  - done.
  - intros r mt. unfold Multi.supports, Multi.preferred_media_types. rewrite existsb_exists, list_elem_of_In, in_map_iff.
    split; intros (s & H1 & H2); exists s; [by apply String.eqb_eq in H2|subst; by rewrite String.eqb_refl].
  - done.
  - intros r accepted mt Hne. destruct accepted as [|p0 accepted0]; [done|].
    cbn [Multi.select_output_media_type]. generalize (p0 :: accepted0). clear.
    intros accepted. induction accepted as [|p accepted IH]; cbn [Multi.scan].
    + split; [done|]. intros H. by apply best_accepted_nil in H.
    + pose proof (first_hit_spec p (_serializers r)) as Hhit.
      destruct (Multi.first_hit p (_serializers r)) as [t|].
      * destruct Hhit as (ours & rest & Hp & Hm & Ho).
        rewrite (best_accepted_cons_hit _ p accepted ours t rest mt Hp Hm Ho). naive_solver.
      * by rewrite best_accepted_cons_miss.
  - intros r mt m Hin. unfold Multi.encode_with. pose proof (encode_last mt m (_serializers r) None) as H.
    match type of H with match ?x with _ => _ end => destruct x end; [by eexists|]. by destruct H.
  - intros r mt m k data Hin. unfold Multi.encode_with, Multi.decode_with.
    rewrite decode_each_unsupported by done. split; [|done].
    pose proof (encode_last mt m (_serializers r) None) as H.
    match type of H with match ?x with _ => _ end => destruct x end; [|done].
    by destruct H as [H|[? ?]].
Qed.

(** ** The [Accept] header is read back *)

(** No comma, semicolon, or blank at either end. *)
Definition plain_media_type (mt : list ascii) : Prop :=
  mt ≠ [] ∧ (","%char ∉ mt) ∧ (";"%char ∉ mt) ∧
  (∀ c, head mt = Some c → is_blank c = false) ∧ (∀ c, last mt = Some c → is_blank c = false).

Lemma split_commas_app entry header :
  ","%char ∉ entry → split_commas (entry ++ ","%char :: header) = entry :: split_commas header.
Proof.
  induction entry as [|c entry IH]; cbn [app split_commas]; intros H; [done|].
  destruct (Ascii.eqb_spec c ","%char) as [->|]; [set_solver|]. rewrite IH by set_solver. done.
Qed.

Lemma split_commas_plain entry : ","%char ∉ entry → split_commas entry = [entry].
Proof.
  induction entry as [|c entry IH]; cbn [split_commas]; intros H; [done|].
  destruct (Ascii.eqb_spec c ","%char) as [->|]; [set_solver|]. by rewrite IH by set_solver.
Qed.

Lemma before_semicolon_plain entry : ";"%char ∉ entry → before_semicolon entry = entry.
Proof.
  induction entry as [|c entry IH]; cbn [before_semicolon]; intros H; [done|].
  destruct (Ascii.eqb_spec c ";"%char) as [->|]; [set_solver|]. by rewrite IH by set_solver.
Qed.

Lemma trim_plain mt : plain_media_type mt → trim mt = mt.
Proof.
  intros (Hne & _ & _ & Hh & Hl). unfold trim.
  assert (∀ l, (∀ c, head l = Some c → is_blank c = false) → skip_blanks l = l) as Hskip.
  { intros [|c l] H; [done|]. cbn [skip_blanks]. by rewrite (H c). }
  rewrite (Hskip mt) by done. rewrite Hskip; [apply rev_involutive|].
  intros c Hc. apply Hl. rewrite <- Hc, <- head_reverse. by rewrite rev_alt.
Qed.

Definition accept_entry (entry : list ascii) : option (list ascii) :=
  match trim (before_semicolon entry) with [] => None | mt => Some mt end.

Lemma accept_entry_plain mt : plain_media_type mt → accept_entry mt = Some mt ∧ accept_entry (" "%char :: mt) = Some mt.
Proof.
  intros H. pose proof H as (Hne & _ & Hs & _). unfold accept_entry.
  rewrite !before_semicolon_plain by set_solver.
  change (trim (" "%char :: mt)) with (trim mt). rewrite trim_plain by done. by destruct mt.
Qed.

Lemma format_shape first l :
  first ≠ [] →
  format_accept_header (first :: l) = first ++ concat (map (λ mt, ","%char :: " "%char :: mt) l).
Proof.
  intros Hf. unfold format_accept_header. cbn [foldl]. revert first Hf.
  induction l as [|mt l IH]; intros first Hf; cbn [foldl map concat]; [by rewrite app_nil_r|].
  destruct first as [|c first]; [done|]. rewrite IH by done. by rewrite <- app_assoc.
Qed.

Lemma split_formatted first l :
  ","%char ∉ first → Forall (λ mt, ","%char ∉ mt) l →
  split_commas (first ++ concat (map (λ mt, ","%char :: " "%char :: mt) l)) = first :: map (cons " "%char) l.
Proof.
  intros Hf Hl. revert first Hf. induction Hl as [|mt l Hm Hl IH]; intros first Hf; cbn [map concat].
  - rewrite app_nil_r. by apply split_commas_plain.
  - cbn [app]. rewrite split_commas_app by done. f_equal. apply (IH (" "%char :: mt)). set_solver.
Qed.

(** Parsing the header that [format_accept_header] writes gives the media types in
    their order. *)
Theorem accept_header_roundtrip media_types :
  Forall plain_media_type media_types → parse_accept_header (format_accept_header media_types) = media_types.
Proof.
  intros [|first l Hf Hl]; [done|]. rewrite format_shape by apply Hf. unfold parse_accept_header.
  rewrite split_formatted; [|apply Hf|eapply Forall_impl; [exact Hl|intros mt Hm; apply Hm]].
  change (omap accept_entry (first :: map (cons " "%char) l) = first :: l). cbn.
  destruct (accept_entry_plain first Hf) as [-> _]. f_equal.
  induction Hl as [|mt l Hm Hl IH]; [done|]. cbn. destruct (accept_entry_plain mt Hm) as [_ ->]. by f_equal.
Qed.

(** ** The next type to try *)

Section next_type.
Context {R : Type} `{RegistryLaws R}.

Lemma next_type_spec (r : R) tried :
  match next_request_media_type_after_rejection r tried with
  | Some mt => mt ∈ preferred_media_types r ∧ mt ∉ tried
  | None => ∀ mt, mt ∈ preferred_media_types r → mt ∈ tried
  end.
Proof.
  unfold next_request_media_type_after_rejection.
  assert (∀ mt, negb (existsb (String.eqb mt) tried) = true ↔ mt ∉ tried) as Hn.
  { intros mt. rewrite negb_true_iff, <- not_true_iff_false, existsb_exists, list_elem_of_In.
    split; intros Hx Hin; apply Hx; [exists mt; by rewrite String.eqb_refl|].
    destruct Hin as (t & Ht & ->%String.eqb_eq). done. }
  destruct (find _ _) as [mt|] eqn:E.
  - apply find_some in E as [Hin Hb]. by rewrite list_elem_of_In, <- Hn.
  - intros mt Hin%list_elem_of_In. pose proof (find_none _ _ E mt Hin) as Hb. cbn beta in Hb.
    destruct (decide (mt ∈ tried)) as [|Hnot]; [done|]. apply Hn in Hnot. congruence.
Qed.

(** The type of a request is one of ours. *)
Lemma request_type_supported (r : R) cache target :
  select_request_media_type r cache target ∈ preferred_media_types r.
Proof.
  unfold select_request_media_type.
  assert (default_media_type r ∈ preferred_media_types r) as Hd.
  { pose proof (law_default r) as Hh. destruct (preferred_media_types r); [done|]. injection Hh as ->. left. }
  destruct (cache_get target cache) as [mt|]; [|done].
  destruct (supports r mt) eqn:E; [|done]. by apply law_supports.
Qed.
End next_type.

Lemma accept_header_roundtrip_witness :
  let types := map String.list_ascii_of_string ["application/cbor"; "application/json"] in
  parse_accept_header (format_accept_header types) = types.
Proof.
  apply accept_header_roundtrip.
  assert (∀ l, bool_decide (l ≠ [] ∧ (","%char ∉ l) ∧ (";"%char ∉ l)) = true →
    option_map is_blank (head l) = Some false → option_map is_blank (last l) = Some false → plain_media_type l) as H.
  { intros l (H1 & H2 & H3)%bool_decide_eq_true_1 Hh Hl.
    split_and!; [done..| |]; intros c Hc; [rewrite Hc in Hh|rewrite Hc in Hl]; cbn in *; congruence. }
  repeat constructor; apply H; by vm_compute.
Defined.
