(* ===== verification/CoapRpc.v ===== *)
(** An RPC over CoAP ([coap_transport_impl.hpp], [coap_utils.hpp]): the numbers that
    stand for media types, how the server takes a request, decodes it and chooses
    the encoding of its answer, how the client chooses the encoding of a request,
    sends it and tries another when it is refused, and the client's cache of encoded
    requests.

    A message is its identifier, its token, its options and its payload; one with an
    empty payload has none.  The journey through libcoap is not modelled: building
    a message succeeds, its identifier is a parameter, and an exchange loses
    nothing.  Neither are the sessions that a client reuses, logging, metrics, and
    the state of the server that requests do not read (its cache, its memory pool,
    its multicast groups). *)

From stdpp Require Import strings pretty.
From S2P Require Import Prelude Types ConfigEntry Bytes Base64 JsonSerializer CborSerializer CoapBlocks CoapMessages SerializerRegistry.

Local Open Scope N_scope.

(** ** Content formats *)

(** [coap_content_format], by its underlying value. *)
Definition text_plain : N := 0.
Definition application_link_format : N := 40.
Definition application_xml : N := 41.
Definition application_octet_stream : N := 42.
Definition application_exi : N := 47.
Definition application_json : N := 50.
Definition application_cbor : N := 60.
Definition application_ion : N := 65000.

Definition media_type_to_coap_content_format (mt : string) : option N :=
  if String.eqb mt "application/json" then Some application_json
  else if String.eqb mt "application/cbor" then Some application_cbor
  else if String.eqb mt "application/x-protobuf" then Some application_octet_stream
  else if String.eqb mt "application/x-amzn-ion" || String.eqb mt "text/x-amzn-ion" then Some application_ion
  else if String.eqb mt "application/xml" then Some application_xml
  else if String.eqb mt "text/plain" then Some text_plain
  else if String.eqb mt "application/link-format" then Some application_link_format
  else if String.eqb mt "application/octet-stream" then Some application_octet_stream
  else if String.eqb mt "application/exi" then Some application_exi
  else None.

Definition content_format_to_string (format : N) : string :=
  match format with
  | 0 => "text/plain"
  | 40 => "application/link-format"
  | 41 => "application/xml"
  | 42 => "application/octet-stream"
  | 47 => "application/exi"
  | 50 => "application/json"
  | 60 => "application/cbor"
  | 65000 => "application/ion"
  | _ => "application/octet-stream"
  end.

Definition parse_content_format (format_value : N) : outcome N :=
  match format_value with
  | 0 | 40 | 41 | 42 | 47 | 50 | 60 | 65000 => Ret format_value
  | _ => Throw (coap_protocol_error ("Unknown content format value: " +:+ pretty format_value))
  end.

Section formats.
Context {R : Type} `{SerializerRegistry R}.

(** The types checked so far, in their order. *)
Fixpoint validate_formats (seen : list (N * string)) (media_types : list string) : outcome () :=
  match media_types with
  | [] => Ret tt
  | mt :: media_types =>
      match media_type_to_coap_content_format mt with
      | None => Throw (coap_unsupported_content_format_error mt)
      | Some format =>
          match find (λ prior, prior.1 =? format) seen with
          | Some (_, prior_mt) =>
              Throw (coap_unsupported_content_format_error
                (mt +:+ " collides with " +:+ prior_mt +:+ " on CoAP Content-Format " +:+ pretty format))
          | None => validate_formats (seen ++ [(format, mt)]) media_types
          end
      end
  end.

Definition validate_registry_content_formats (r : R) : outcome () :=
  validate_formats [] (preferred_media_types r).

(** A number on the wire is cast to the enumeration's 16 bits. *)
Definition wire_format (value : N) : N := value mod 65536.

Definition registry_media_type_for_content_format (r : R) (format : N) : option string :=
  find (λ mt, bool_decide (media_type_to_coap_content_format mt = Some format)) (preferred_media_types r).
End formats.

(** ** Messages *)

Record coap_request : Type := mk_request {
  message_id : N;
  token : string;
  content_format : option N;
  accept : list N;
  block1 : option bytes;
  block2 : option bytes;
  request_body : bytes
}.

Record coap_response : Type := mk_response {
  response_code : N;
  response_format : option N;
  response_block1 : option bytes;
  response_block2 : option bytes;
  response_body : bytes
}.

(** A code of a class and a detail, as on the wire. *)
Definition code (class detail : N) : N := 32 * class + detail.
Definition code_class (c : N) : N := c / 32.

Definition text_body (s : string) : bytes := String.list_byte_of_string s.

(** An answer without options. *)
Definition plain_response (c : N) (body : bytes) : coap_response := mk_response c None None None body.

(** ** The server *)

Record server_config : Type := mk_server_config {
  server_blocks : coap_config;
  max_request_size : N;
  max_concurrent_sessions : N
}.

(** [handled]: the requests that the handler has been given. *)
Record coap_server : Type := mk_server {
  received : received_messages;
  server_transfers : transfers;
  active_connections : N;
  handled : list message
}.

Definition set_received (f : received_messages → received_messages) (s : coap_server) : coap_server :=
  mk_server (f (received s)) (server_transfers s) (active_connections s) (handled s).
Definition set_connections (f : N → N) (s : coap_server) : coap_server :=
  mk_server (received s) (server_transfers s) (f (active_connections s)) (handled s).

(** A step on the transfers. *)
Definition on_transfers {A} (m : M transfers A) : M coap_server A := λ s,
  let '(r, ts) := m (server_transfers s) in (r, mk_server (received s) ts (active_connections s) (handled s)).

Section server.
Context {R : Type} `{SerializerRegistry R}.
(** [e.what()] of an exception, as far as a peer is told. *)
Context (what : exn → string) (coap_decode_var_bytes : bytes → N) (order : byte_order).
Context (cfg : server_config) (registry : R) (kind : message_kind) (handler : message → outcome message).

(** [handle_resource_exhaustion], which every request begins with: what is too old
    is dropped, and the count of connections is brought down to three quarters of
    the limit. *)
Definition handle_resource_exhaustion (now : Z) : M coap_server () :=
  let most := u64_wrap (max_concurrent_sessions cfg * 3) / 4 in
  do! mmodify (set_received (cleanup_expired_messages now)) in
  do! on_transfers (cleanup_expired_block_transfers now) in
  mmodify (set_connections (λ current, if most <? current then most else current)).

Definition enforce_connection_limits : M coap_server () :=
  let! s := mget in
  if max_concurrent_sessions cfg <=? active_connections s
  then mthrow (coap_network_error "Server connection limit exceeded") else mreturn tt.

(** The counter goes down again however the request ends. *)
Definition with_connection {A} (m : M coap_server A) : M coap_server A := λ s,
  let '(r, s) := m (set_connections (λ n, n ⊕ 1) s) in (r, set_connections (λ n, n ⊖ 1) s).

(** The end of [handle_rpc_resource]: the answer, or the block of it that is asked
    for. *)
Definition fill_response (request : coap_request) (output : string) (serialized_response : bytes) : coap_response :=
  let format := media_type_to_coap_content_format output in
  if enable_block_transfer (server_blocks cfg) && should_use_block_transfer (server_blocks cfg) serialized_response then
    let '(requested_block, size) :=
      match block2 request with
      | None => (0, u32_wrap (max_block_size (server_blocks cfg)))
      | Some option_bytes =>
          let opt := block_parse (coap_decode_var_bytes option_bytes) in (block_number opt, block_size opt)
      end in
    let blocks := split_payload_into_blocks (server_blocks cfg) serialized_response in
    match blocks !! N.to_nat requested_block with
    | Some data =>
        let opt := mk_block requested_block (u32_wrap (requested_block + 1) <? N.of_nat (length blocks)) size in
        mk_response (code 2 5) format None (Some (store_u32 order (block_encode opt))) data
    | None =>
        mk_response (code 4 0) format None None (text_body ("Invalid Block2 number: " +:+ pretty requested_block))
    end
  else mk_response (code 2 5) format None None serialized_response.

(** A request whose payload is whole: the type it is in, the type of the answer, and
    only then the handler. *)
Definition answer_request (request : coap_request) (request_data : bytes) : M coap_server coap_response :=
  let resolve value := registry_media_type_for_content_format registry (wire_format value) in
  let request_media_type :=
    match content_format request with
    | None => Some (default_media_type registry)
    | Some format => resolve format
    end in
  match request_media_type with
  | None => mreturn (plain_response (code 4 15) [])
  | Some request_media_type =>
      let accepted := omap resolve (accept request) in
      let stated := match accept request with [] => false | _ => true end in
      match select_output_media_type registry accepted with
      | None => mreturn (plain_response (code 4 6) [])
      | Some output =>
          if stated && match accepted with [] => true | _ => false end
          then mreturn (plain_response (code 4 6) []) else
          match decode_with registry kind request_media_type request_data with
          | Undef w => mundef w
          | Throw e => mreturn (plain_response (code 4 0)
              (text_body ("Malformed request: Deserialization failed: " +:+ what e)))
          | Ret m =>
              do! mmodify (λ s, mk_server (received s) (server_transfers s) (active_connections s) (handled s ++ [m])) in
              match handler m with
              | Undef w => mundef w
              | Throw e => mreturn (plain_response (code 5 0) (text_body ("Handler error: " +:+ what e)))
              | Ret answer =>
                  match encode_with registry output answer with
                  | Undef w => mundef w
                  | Throw e => mreturn (plain_response (code 5 0) (text_body ("Serialization failed: " +:+ what e)))
                  | Ret body => mreturn (fill_response request output body)
                  end
              end
          end
      end
  end.

(** From the check for duplicates on. *)
Definition process_request (request : coap_request) (now : Z) : M coap_server coap_response :=
  let! s := mget in
  if is_duplicate_message (message_id request) (received s) then mreturn (plain_response (code 2 3) []) else
  do! mmodify (set_received (record_received_message (message_id request) now)) in
  match request_body request with
  | [] => mreturn (plain_response (code 4 0) (text_body "Malformed request: Missing request payload"))
  | payload =>
      if max_request_size cfg <? N.of_nat (length payload) then mreturn (plain_response (code 4 13) []) else
      let! taken := on_transfers (serve_block coap_decode_var_bytes order (server_blocks cfg) (token request)
        (mk_pdu (block1 request) payload) now) in
      match taken with
      | reply_continue ack => mreturn (mk_response (code 2 31) None (Some ack) None [])
      | request_complete request_data => answer_request request request_data
      end
  end.

Definition handle_rpc_resource (request : coap_request) (now : Z) : M coap_server coap_response :=
  mcatch
    (do! handle_resource_exhaustion now in
     do! enforce_connection_limits in
     with_connection (process_request request now))
    (λ e, mreturn (plain_response (code 5 0) (text_body
      (match e with
       | coap_transport_error _ | coap_network_error _ | coap_protocol_error _
       | coap_unsupported_content_format_error _ => "Transport error: " +:+ what e
       | _ => "Unexpected error: " +:+ what e
       end)))).
End server.

(** ** The cache of encoded requests *)

Record cache_entry : Type := mk_cache_entry {
  serialized_data : bytes;
  created : Z;
  access_count : N;
  last_accessed : Z
}.
Definition serialization_cache : Type := gmap N cache_entry.

Record cache_config : Type := mk_cache_config {
  enable_serialization_caching : bool;
  max_cache_entries : N;
  cache_ttl : Z
}.

Section cache.
(** [std::hash] of a type's name and of a number. *)
Context (type_hash : message_kind → N) (number_hash : N → N).
Context (cfg : cache_config) (encode : message → bytes).

(** [request.term()], of the three requests that are sent over CoAP. *)
Definition request_term (m : message) : N :=
  match m with
  | msg_request_vote_request m => rv_term m
  | msg_append_entries_request m => ae_term m
  | msg_install_snapshot_request m => is_term m
  | _ => 0
  end.

Definition request_hash (m : message) : N :=
  let h := type_hash (kind_of m) in
  N.lxor h (number_hash (request_term m) ⊕ 2654435769 ⊕ u64_wrap (N.shiftl h 6) ⊕ N.shiftr h 2).

(** The least recently used entry; the first of the map's order among equals. *)
Definition oldest_entry (cache : serialization_cache) : option N :=
  match map_to_list cache with
  | [] => None
  | first :: rest =>
      Some (foldl (λ oldest kv, if bool_decide (last_accessed kv.2 < last_accessed oldest.2)%Z then kv else oldest)
        first rest).1
  end.

Definition cache_serialization_result (hash : N) (data : bytes) (now : Z) : M serialization_cache () :=
  if negb (enable_serialization_caching cfg) then mreturn tt else
  let! cache := mget in
  do! if max_cache_entries cfg <=? N.of_nat (size cache) then
        match oldest_entry cache with
        | None => mundef "first entry of an empty cache"
        | Some oldest => mmodify (delete oldest)
        end
      else mreturn tt in
  mmodify <[hash := mk_cache_entry data now 1 now]>.

Definition get_cached_or_serialize (request : message) (now : Z) : M serialization_cache bytes :=
  if negb (enable_serialization_caching cfg) then mreturn (encode request) else
  let hash := request_hash request in
  let! cache := mget in
  let miss :=
    do! cache_serialization_result hash (encode request) now in mreturn (encode request) in
  match cache !! hash with
  | Some entry =>
      if bool_decide (now - created entry < cache_ttl cfg)%Z then
        do! mmodify <[hash := mk_cache_entry (serialized_data entry) (created entry) (access_count entry ⊕ 1) now]> in
        mreturn (serialized_data entry)
      else do! mmodify (delete hash) in miss
  | None => miss
  end.
End cache.

(** ** The client *)

Record coap_client : Type := mk_client {
  known_types : capability_cache;
  encoded : serialization_cache;
  client_transfers : transfers;
  token_counter : N;
  pending : gset string
}.

Definition set_known (f : capability_cache → capability_cache) (c : coap_client) : coap_client :=
  mk_client (f (known_types c)) (encoded c) (client_transfers c) (token_counter c) (pending c).
Definition set_pending (f : gset string → gset string) (c : coap_client) : coap_client :=
  mk_client (known_types c) (encoded c) (client_transfers c) (token_counter c) (f (pending c)).

Definition on_cache {A} (m : M serialization_cache A) : M coap_client A := λ c,
  let '(r, x) := m (encoded c) in (r, mk_client (known_types c) x (client_transfers c) (token_counter c) (pending c)).
Definition on_client_transfers {A} (m : M transfers A) : M coap_client A := λ c,
  let '(r, x) := m (client_transfers c) in (r, mk_client (known_types c) (encoded c) x (token_counter c) (pending c)).
Definition on_token_counter {A} (m : M N A) : M coap_client A := λ c,
  let '(r, x) := m (token_counter c) in (r, mk_client (known_types c) (encoded c) (client_transfers c) x (pending c)).

(** What an answer does to the call it belongs to: nothing, since the call is over or
    the answer asks for nothing that is there; it settles the future; or the next
    block goes out. *)
Inductive reaction : Type :=
  | left_alone
  | settled (result : message + exn)
  | next_block (pdu : request_pdu).

(** A client and its peer, and the number of messages the client has sent. *)
Record rpc_world : Type := mk_world {
  peer : coap_server;
  this : coap_client;
  sent : nat
}.

Definition on_this {A} (m : M coap_client A) : M rpc_world A := λ w,
  let '(r, c) := m (this w) in (r, mk_world (peer w) c (sent w)).

Section client.
Context {R : Type} `{SerializerRegistry R}.
Context (what : exn → string) (coap_decode_var_bytes : bytes → N) (order : byte_order).
Context (type_hash : message_kind → N) (number_hash : N → N).
Context (blocks : coap_config) (caching : cache_config) (serialize : message → bytes).
Context (registry : R) (target : N) (answer_kind : message_kind).

(** The callback of [send_rpc]. *)
Definition resolve_callback (response_data : bytes) (response_media_type : string) : M coap_client reaction :=
  match decode_with registry answer_kind response_media_type response_data with
  | Undef w => mundef w
  | Throw e => mreturn (settled (inr (coap_transport_error ("Failed to deserialize response: " +:+ what e))))
  | Ret m =>
      do! mmodify (set_known (cache_record target response_media_type)) in
      mreturn (settled (inl m))
  end.

(** [handle_response].  The exceptions of an error answer are kept by their class and
    code. *)
Definition handle_response (response : coap_response) (call_token : string) (now : Z) : M coap_client reaction :=
  let! c := mget in
  if negb (bool_decide (call_token ∈ pending c)) then mreturn left_alone else
  let erase := mmodify (set_pending (λ p, p ∖ {[call_token]})) in
  let reject e := do! erase in mreturn (settled (inr e)) in
  let class := code_class (response_code response) in
  if (response_code response =? 0) || (class <? 2) || (5 <? class)
  then reject (coap_protocol_error "Invalid CoAP response PDU structure")
  else if negb (class =? 2) then
    if class =? 4 then reject (coap_client_error (response_code response))
    else if class =? 5 then reject (coap_server_error (response_code response))
    else reject (coap_protocol_error "Unexpected response class")
  else
    match match response_format response with
          | None => Some (default_media_type registry)
          | Some format => registry_media_type_for_content_format registry (wire_format format)
          end with
    | None => reject (coap_unsupported_content_format_error
        ("response Content-Format " +:+ pretty (from_option wire_format 0 (response_format response))
         +:+ " has no registered serializer"))
    | Some response_media_type =>
        let resolve data :=
          let! r := resolve_callback data response_media_type in do! erase in mreturn r in
        match response_block2 response, response_block1 response with
        | Some option_bytes, _ =>
            let opt := block_parse (coap_decode_var_bytes option_bytes) in
            let! complete_payload :=
              on_client_transfers (reassemble_blocks call_token (response_body response) opt now) in
            match complete_payload with
            | Some payload => resolve payload
            | None => if more_blocks opt then mreturn left_alone else resolve (response_body response)
            end
        | None, Some option_bytes =>
            let! next := on_client_transfers (continue_request coap_decode_var_bytes order blocks call_token option_bytes now) in
            mreturn (match next with Some pdu => next_block pdu | None => left_alone end)
        | None, None => resolve (response_body response)
        end
    end.

(** The part of [send_rpc] before the message is sent.  [id] is what
    [coap_new_message_id] gives. *)
Definition build_request (attempted : list string) (request : message) (id : N) (now : Z) :
    M coap_client (string * coap_request) :=
  let! c := mget in
  let! mt := mlift (match attempted with
    | [] => Ret (select_request_media_type registry (known_types c) target)
    | _ => match next_request_media_type_after_rejection registry attempted with
           | Some mt => Ret mt
           | None => Throw bad_optional_access
           end
    end) in
  let! body :=
    if enable_serialization_caching caching && String.eqb mt (default_media_type registry)
    then on_cache (get_cached_or_serialize type_hash number_hash caching serialize request now)
    else mlift (encode_with registry mt request) in
  let! token_bytes := on_token_counter generate_message_token in
  if (coap_max_token_length <? length token_bytes)%nat
  then mthrow (coap_transport_error "CoAP token exceeds 8 bytes") else
  let call_token := String.string_of_list_byte token_bytes in
  match media_type_to_coap_content_format mt with
  | None => mthrow (coap_unsupported_content_format_error mt)
  | Some format =>
      let! pdu := on_client_transfers (send_first order blocks call_token body now) in
      do! mmodify (set_pending (λ p, {[call_token]} ∪ p)) in
      mreturn (mt, mk_request id call_token (Some format) [format] (block1_value pdu) None (pdu_data pdu))
  end.

(** The handlers at the end of [send_rpc]: what was thrown becomes a
    [coap_transport_error]. *)
Definition rewrap (e : exn) : exn :=
  match e with
  | coap_transport_error _ | coap_network_error _ | coap_protocol_error _
  | coap_unsupported_content_format_error _ => coap_transport_error (what e)
  | _ => coap_transport_error ("Unexpected error in send_rpc: " +:+ what e)
  end.

(** The peer, the identifiers of the messages and the time, by the number of
    messages sent. *)
Context (serve : coap_request → Z → M coap_server coap_response) (ids : nat → N) (clock : nat → Z).

(** One exchange with the peer. *)
Definition ask (request : coap_request) : M rpc_world coap_response := λ w,
  let '(response, s) := serve request (clock (sent w)) (peer w) in (response, mk_world s (this w) (S (sent w))).

(** Messages go out as long as the answers ask for more blocks; a block that follows
    the first carries no Content-Format. *)
Fixpoint converse (rounds : nat) (request : coap_request) : M rpc_world reaction :=
  match rounds with
  | O => mundef "out of fuel"
  | S rounds =>
      let! response := ask request in
      let! w := mget in
      let! r := on_this (handle_response response (token request) (clock (sent w))) in
      match r with
      | next_block pdu =>
          converse rounds (mk_request (ids (sent w)) (token request) None [] (block1_value pdu) None (pdu_data pdu))
      | _ => mreturn r
      end
  end.

(** [send_rpc]: the request in the type chosen, and after a 4.15 again in the next
    type that was not refused.  [None]: the future is left to its timeout. *)
Fixpoint send_rpc (fuel : nat) (attempted : list string) (request : message) : M rpc_world (option message) :=
  match fuel with
  | O => mundef "out of fuel"
  | S fuel' =>
      let! w := mget in
      let! (mt, pdu) :=
        mcatch (on_this (build_request attempted request (ids (sent w)) (clock (sent w)))) (λ e, mthrow (rewrap e)) in
      let! r := converse fuel pdu in
      match r with
      | settled (inl m) => mreturn (Some m)
      | settled (inr e) =>
          if decide (e = coap_client_error (code 4 15)) then
            let attempted := attempted ++ [mt] in
            match next_request_media_type_after_rejection registry attempted with
            | Some _ => send_rpc fuel' attempted request
            | None => mthrow e
            end
          else mthrow e
      | left_alone | next_block _ => mreturn None
      end
  end.
End client.

(** ** Content formats of a validated registry *)

(** A media type that has a number is none of the wildcards. *)
Lemma formatted_type_exact mt format t :
  media_type_to_coap_content_format mt = Some format → accept_entry_matches mt t = String.eqb mt t.
Proof.
  unfold media_type_to_coap_content_format. intros H.
  repeat match type of H with
  | (if String.eqb mt ?s then _ else _) = _ => destruct (String.eqb_spec mt s) as [->|]; [done|]
  | (if String.eqb mt ?s || String.eqb mt ?s' then _ else _) = _ =>
      destruct (String.eqb_spec mt s) as [->|]; [done|];
      destruct (String.eqb_spec mt s') as [->|]; [done|]; cbn [orb] in H
  end; done.
Qed.

Lemma format_16_bits mt format : media_type_to_coap_content_format mt = Some format → wire_format format = format.
Proof.
  unfold media_type_to_coap_content_format. intros H. unfold wire_format.
  repeat case_match; by simplify_eq.
Qed.

Lemma validate_formats_spec seen media_types :
  validate_formats seen media_types = Ret tt →
  (∀ mt, mt ∈ media_types → ∃ format, media_type_to_coap_content_format mt = Some format ∧ format ∉ seen.*1) ∧
  NoDup (map media_type_to_coap_content_format media_types).
Proof.
  revert seen. induction media_types as [|mt media_types IH]; intros seen; cbn [validate_formats map].
  { intros _. split; [set_solver|constructor]. }
  destruct (media_type_to_coap_content_format mt) as [format|] eqn:Hf; [|done].
  destruct (find _ _) as [[? ?]|] eqn:Hfind; [done|]. intros H. apply IH in H as [Hall Hnd].
  assert (format ∉ seen.*1) as Hnew.
  { intros ((f & prior) & -> & Hin)%list_elem_of_fmap. apply list_elem_of_In in Hin.
    pose proof (find_none _ _ Hfind _ Hin) as Hx. cbn in Hx. by rewrite N.eqb_refl in Hx. }
  split.
  - intros t [->|Ht]%elem_of_cons; [by exists format|].
    destruct (Hall t Ht) as (f & Hft & Hnot). exists f. split; [done|]. rewrite fmap_app in Hnot. set_solver.
  - constructor; [|done]. intros (t & Hft & Ht)%list_elem_of_fmap.
    destruct (Hall t Ht) as (f & Hft' & Hnot). rewrite fmap_app in Hnot. assert (f = format) by congruence. set_solver.
Qed.

Section validated.
Context {R : Type} `{SerializerRegistry R}.

Lemma same_format_same_type (r : R) mt mt' :
  NoDup (map media_type_to_coap_content_format (preferred_media_types r)) →
  mt ∈ preferred_media_types r → mt' ∈ preferred_media_types r →
  media_type_to_coap_content_format mt = media_type_to_coap_content_format mt' → mt = mt'.
Proof.
  intros Hnd (i & Hi)%list_elem_of_lookup (j & Hj)%list_elem_of_lookup E.
  assert (i = j); [|congruence].
  eapply (NoDup_lookup _ _ _ (media_type_to_coap_content_format mt) Hnd).
  - rewrite list_lookup_fmap, Hi. done.
  - rewrite list_lookup_fmap, Hj, E. done.
Qed.

(** Within a registry that passed validation, media types and their numbers
    correspond one to one: every type has a number, and a number is resolved to a
    type exactly when the type is registered and has that number. *)
Theorem content_formats_bijective (r : R) :
  validate_registry_content_formats r = Ret tt →
  (∀ mt, mt ∈ preferred_media_types r → is_Some (media_type_to_coap_content_format mt)) ∧
  (∀ format mt, registry_media_type_for_content_format r format = Some mt ↔
    mt ∈ preferred_media_types r ∧ media_type_to_coap_content_format mt = Some format).
Proof.
  intros Hv. destruct (validate_formats_spec _ _ Hv) as [Hall Hnd]. split.
  { intros mt Hin. destruct (Hall mt Hin) as (f & Hf & _). by eexists. }
  intros format mt. unfold registry_media_type_for_content_format. split.
  - intros [Hin Hb%bool_decide_eq_true_1]%find_some. by rewrite list_elem_of_In.
  - intros [Hin Hf]. destruct (find _ _) as [mt'|] eqn:E.
    + apply find_some in E as [Hin' Hb%bool_decide_eq_true_1]. f_equal.
      apply (same_format_same_type r); [done|by rewrite list_elem_of_In|done|congruence].
    + apply list_elem_of_In in Hin. pose proof (find_none _ _ E _ Hin) as Hb. cbn beta in Hb.
      by rewrite bool_decide_eq_true_2 in Hb.
Qed.
End validated.

(** ** A call between two registries *)

Section call.
Context {RC RS : Type} `{RegistryLaws RC} `{RegistryLaws RS}.
Context (what : exn → string) (coap_decode_var_bytes : bytes → N) (order : byte_order).
Context (type_hash : message_kind → N) (number_hash : N → N).
Context (blocks : coap_config) (caching : cache_config) (serialize : message → bytes) (cfg : server_config).
Context (client : RC) (server : RS) (target : N) (kind answer_kind : message_kind).
Context (handler : message → outcome message) (request answer : message).
Context (ids : nat → N) (clock : nat → Z).

(** Both passed validation when the transports were built. *)
Context (client_valid : validate_registry_content_formats client = Ret tt)
  (server_valid : validate_registry_content_formats server = Ret tt).

(** Types of the two with one number are one type; a type that both have carries
    the request one way and the answer the other. *)
Context (formats_agree : ∀ mt mt', mt ∈ preferred_media_types client → mt' ∈ preferred_media_types server →
    media_type_to_coap_content_format mt = media_type_to_coap_content_format mt' → mt = mt')
  (request_understood : ∀ mt data, mt ∈ preferred_media_types client → mt ∈ preferred_media_types server →
    encode_with client mt request = Ret data → decode_with server kind mt data = Ret request)
  (answer_understood : ∀ mt data, mt ∈ preferred_media_types client → mt ∈ preferred_media_types server →
    encode_with server mt answer = Ret data → decode_with client answer_kind mt data = Ret answer)
  (handled_well : handler request = Ret answer).

(** The request and the answer fit in one message each, and the request is not
    empty; the server takes connections. *)
Context (request_fits : ∀ mt data, encode_with client mt request = Ret data →
    data ≠ [] ∧ N.of_nat (length data) <= max_request_size cfg ∧ should_use_block_transfer blocks data = false)
  (answer_fits : ∀ mt data, encode_with server mt answer = Ret data →
    should_use_block_transfer (server_blocks cfg) data = false)
  (sessions_allowed : 0 < max_concurrent_sessions cfg) (sessions_small : is_u64 (max_concurrent_sessions cfg * 3)).

Local Abbreviation serve := (handle_rpc_resource what coap_decode_var_bytes order cfg server kind handler).
Local Abbreviation build := (build_request order type_hash number_hash blocks caching serialize client target).
Local Abbreviation call :=
  (send_rpc what coap_decode_var_bytes order type_hash number_hash blocks caching serialize client target answer_kind
     serve ids clock).

Lemma select_exact mt :
  mt ∈ preferred_media_types server → select_output_media_type server [mt] = Some mt.
Proof.
  intros Hin. destruct (content_formats_bijective server server_valid) as [Hall _].
  destruct (Hall mt Hin) as [format Hf]. apply law_select; [done|].
  destruct (list_elem_of_split_l _ _ Hin) as (ours & rest & Hp & Hnot).
  exists [], mt, [], ours, rest. split_and!; [done|done| |set_solver|].
  - rewrite (formatted_type_exact _ _ _ Hf). apply String.eqb_refl.
  - intros t Ht. rewrite (formatted_type_exact _ _ _ Hf). apply String.eqb_neq. set_solver.
Qed.

(** A message that is not recorded stays so when others are. *)
Lemma cleaned_none id now (rs : received_messages) : rs !! id = None → cleanup_expired_messages now rs !! id = None.
Proof. intros Hn. apply map_lookup_filter_None. by left. Qed.

Lemma recorded_none id id' now (rs : received_messages) :
  rs !! id' = None → id' ≠ id → record_received_message id now rs !! id' = None.
Proof.
  intros Hn Hne. apply cleaned_none. destruct (rs !! id); [done|]. by rewrite (lookup_insert_ne rs).
Qed.

Lemma exhaustion_run now s :
  ∃ s0, handle_resource_exhaustion cfg now s = (Ret tt, s0) ∧ handled s0 = handled s ∧
    received s0 = cleanup_expired_messages now (received s) ∧
    active_connections s0 < max_concurrent_sessions cfg.
Proof.
  eexists. split; [reflexivity|]. split_and!; [done|done|]. cbn [active_connections set_connections on_transfers].
  unfold u64_wrap. rewrite N.mod_small by done.
  assert (max_concurrent_sessions cfg * 3 / 4 < max_concurrent_sessions cfg) by (apply N.Div0.div_lt_upper_bound; lia).
  cbn. destruct (N.ltb_spec (max_concurrent_sessions cfg * 3 / 4) (active_connections s)); lia.
Qed.

(** A new message of one block with a payload is answered; the check of duplicates and
    the limits let it pass. *)
Lemma serve_run req now s :
  received s !! message_id req = None → request_body req ≠ [] →
  N.of_nat (length (request_body req)) <= max_request_size cfg → block1 req = None →
  ∃ s1, handled s1 = handled s ∧
    (∀ id, id ≠ message_id req → received s !! id = None → received s1 !! id = None) ∧
    ∀ response s2,
      answer_request what coap_decode_var_bytes order cfg server kind handler req (request_body req) s1 = (Ret response, s2) →
      ∃ s3, serve req now s = (Ret response, s3) ∧ handled s3 = handled s2 ∧ received s3 = received s2.
Proof.
  intros Hnew Hbody Hsize Hblock. destruct (exhaustion_run now s) as (s0 & E0 & Hh & Hr & Hc).
  set (sc := set_connections (λ n, n ⊕ 1) s0).
  exists (set_received (record_received_message (message_id req) now) sc). split_and!; [done| |].
  { intros id Hne Hn. apply recorded_none; [|done]. cbn. rewrite Hr. by apply cleaned_none. }
  intros response s2 Ha. eexists. split.
  - unfold handle_rpc_resource, mcatch. rewrite (let_eval _ _ _ _ _ E0).
    assert (enforce_connection_limits cfg s0 = (Ret tt, s0)) as El.
    { unfold enforce_connection_limits. rewrite let_get, (proj2 (N.leb_gt _ _)) by done. done. }
    rewrite (let_eval _ _ _ _ _ El). unfold with_connection. fold sc.
    assert (process_request what coap_decode_var_bytes order cfg server kind handler req now sc = (Ret response, s2)) as ->.
    { unfold process_request. rewrite let_get. unfold is_duplicate_message.
      rewrite bool_decide_eq_false_2.
      2: { cbn. rewrite Hr, cleaned_none by done. by intros [? ?]. }
      rewrite let_modify. destruct (request_body req) as [|x payload] eqn:Eb; [done|].
      rewrite (proj2 (N.ltb_ge _ _)) by done. rewrite Hblock. erewrite let_eval by reflexivity.
      cbv beta iota. rewrite <- Ha. by destruct sc. }
    reflexivity.
  - by destruct s2.
Qed.

(** A request in a type that the server has is handled, once. *)
Lemma server_takes req mt format body s :
  mt ∈ preferred_media_types client → mt ∈ preferred_media_types server →
  media_type_to_coap_content_format mt = Some format → encode_with client mt request = Ret body →
  content_format req = Some format → accept req = [format] →
  ∃ data s', encode_with server mt answer = Ret data ∧
    answer_request what coap_decode_var_bytes order cfg server kind handler req body s =
      (Ret (mk_response (code 2 5) (Some format) None None data), s') ∧
    handled s' = handled s ++ [request].
Proof.
  intros Hc Hs Hf Hb Hcf Hacc. destruct (content_formats_bijective server server_valid) as [_ Hbij].
  assert (registry_media_type_for_content_format server (wire_format format) = Some mt) as Hres.
  { rewrite (format_16_bits _ _ Hf). by apply Hbij. }
  destruct (law_encode server mt answer Hs) as [data Hd]. exists data. eexists. split; [done|].
  unfold answer_request. rewrite Hcf, Hacc. cbn [omap list_omap]. rewrite Hres.
  cbn [andb]. rewrite select_exact by done. rewrite (request_understood _ _ Hc Hs Hb), let_modify.
  rewrite handled_well, Hd. unfold fill_response. rewrite (answer_fits _ _ Hd), andb_false_r, Hf. by split.
Qed.

(** A request in any other type is refused, and not handled. *)
Lemma server_refuses req mt format s body :
  mt ∈ preferred_media_types client → mt ∉ preferred_media_types server →
  media_type_to_coap_content_format mt = Some format → content_format req = Some format →
  answer_request what coap_decode_var_bytes order cfg server kind handler req body s =
    (Ret (plain_response (code 4 15) []), s).
Proof.
  intros Hc Hs Hf Hcf. destruct (content_formats_bijective server server_valid) as [_ Hbij].
  unfold answer_request. rewrite Hcf, (format_16_bits _ _ Hf).
  destruct (registry_media_type_for_content_format server format) as [mt'|] eqn:E; [|done].
  apply Hbij in E as [Hin Hf']. assert (mt = mt') as <- by (apply formats_agree; congruence). done.
Qed.

(** What the cache has for a request of this kind and term is this request, in the
    default type, in which the client's own serializer writes it too. *)
Definition cache_current (c : coap_client) : Prop :=
  enable_serialization_caching caching = false ∨
  (0 < max_cache_entries caching ∧
   encode_with client (default_media_type client) request = Ret (serialize request) ∧
   ∀ entry, encoded c !! request_hash type_hash number_hash request = Some entry →
     serialized_data entry = serialize request).

Lemma cached_body now c :
  enable_serialization_caching caching = true → cache_current c →
  ∃ c', on_cache (get_cached_or_serialize type_hash number_hash caching serialize request now) c = (Ret (serialize request), c') ∧
    known_types c' = known_types c ∧ token_counter c' = token_counter c ∧ client_transfers c' = client_transfers c ∧
    cache_current c'.
Proof.
  intros He [?|(Hmax & Henc & Hentry)]; [congruence|].
  assert (∃ x, get_cached_or_serialize type_hash number_hash caching serialize request now (encoded c) = (Ret (serialize request), x) ∧
    ∀ entry, x !! request_hash type_hash number_hash request = Some entry → serialized_data entry = serialize request)
    as (x & E & Hx).
  { unfold get_cached_or_serialize, cache_serialization_result. rewrite He. cbn [negb]. rewrite let_get.
    set (h := request_hash type_hash number_hash request) in *.
    assert (∀ cache : serialization_cache, ∃ x,
      (do! (let! cache := mget in
            do! (if max_cache_entries caching <=? N.of_nat (size cache)
                 then match oldest_entry cache with
                      | Some oldest => mmodify (delete oldest)
                      | None => mundef "first entry of an empty cache"
                      end else mreturn tt) in
            mmodify <[h:=mk_cache_entry (serialize request) now 1 now]>) in mreturn (serialize request)) cache =
        (Ret (serialize request), x) ∧
      ∀ entry, x !! h = Some entry → serialized_data entry = serialize request) as Hmiss.
    { intros cache. unfold mlet, mget.
      destruct (N.leb_spec (max_cache_entries caching) (N.of_nat (size cache))) as [Hfull|Hroom].
      - unfold oldest_entry. destruct (map_to_list cache) as [|kv l] eqn:El.
        { apply map_to_list_empty_iff in El. subst cache. change (size _) with 0%nat in Hfull. lia. }
        eexists. split; [done|]. intros entry. rewrite (lookup_insert_eq (delete _ cache)). by intros [= <-].
      - eexists. split; [done|]. intros entry. rewrite (lookup_insert_eq cache). by intros [= <-]. }
    destruct (encoded c !! h) as [entry|] eqn:Ee; [|apply Hmiss].
    case_bool_decide; [|rewrite let_modify; apply Hmiss].
    rewrite let_modify. eexists. split; [by rewrite (Hentry entry eq_refl)|].
    intros entry'. rewrite (lookup_insert_eq (encoded c)). by intros [= <-]. }
  unfold on_cache. rewrite E. eexists. split; [done|]. split_and!; [done..|]. right. by split_and!.
Qed.

(** What is sent next: a type of ours that was not tried, in one message. *)
Lemma build_request_next attempted id now c :
  attempted = [] ∨ is_Some (next_request_media_type_after_rejection client attempted) → cache_current c →
  ∃ mt format body tok c',
    build attempted request id now c = (Ret (mt, mk_request id tok (Some format) [format] None None body), c') ∧
    mt ∈ preferred_media_types client ∧ (mt ∉ attempted) ∧
    media_type_to_coap_content_format mt = Some format ∧ encode_with client mt request = Ret body ∧
    known_types c' = known_types c ∧ tok ∈ pending c' ∧ cache_current c'.
Proof.
  intros Hnext Hcache. destruct (content_formats_bijective client client_valid) as [Hall _].
  assert (∃ mt, mt ∈ preferred_media_types client ∧ (mt ∉ attempted) ∧
    match attempted with
    | [] => Ret (select_request_media_type client (known_types c) target)
    | _ => match next_request_media_type_after_rejection client attempted with
           | Some mt => Ret mt | None => Throw bad_optional_access end
    end = Ret mt) as (mt & Hin & Hnot & E).
  { destruct attempted as [|t attempted].
    - exists (select_request_media_type client (known_types c) target).
      split_and!; [apply request_type_supported|set_solver|done].
    - destruct Hnext as [|[mt Hmt]]; [done|]. pose proof (next_type_spec client (t :: attempted)) as Hs.
      rewrite Hmt in Hs |- *. exists mt. by destruct Hs. }
  destruct (Hall mt Hin) as [format Hf]. destruct (law_encode client mt request Hin) as [body Hb].
  destruct (request_fits mt body Hb) as (_ & _ & Hone).
  unfold build_request. rewrite let_get, E, let_lift.
  assert (∃ c1, (if enable_serialization_caching caching && String.eqb mt (default_media_type client)
      then on_cache (get_cached_or_serialize type_hash number_hash caching serialize request now)
      else mlift (encode_with client mt request)) c = (Ret body, c1) ∧
    known_types c1 = known_types c ∧ cache_current c1) as (c1 & E1 & Hk & Hc1).
  { destruct (enable_serialization_caching caching) eqn:He; cbn [andb]; [|rewrite Hb; by exists c].
    destruct (String.eqb_spec mt (default_media_type client)) as [->|]; [|rewrite Hb; by exists c].
    destruct (cached_body now c He Hcache) as (c1 & E1 & ? & _ & _ & Hc1). exists c1. split; [|done].
    destruct Hcache as [?|(_ & Henc & _)]; congruence. }
  rewrite (let_eval _ _ _ _ _ E1). unfold generate_message_token.
  erewrite let_eval by reflexivity. destruct (proj1 sequential_tokens (u32_wrap (token_counter c1))) as [Hlen _].
  rewrite Hlen. cbn [Nat.ltb Nat.leb coap_max_token_length].
  rewrite Hf. unfold send_first. rewrite Hone. erewrite let_eval by reflexivity. rewrite let_modify.
  eexists mt, format, body, _, _. split; [reflexivity|]. split_and!; try done.
  by apply elem_of_union_l, elem_of_singleton_2.
Qed.

Definition common (mt : string) : Prop := mt ∈ preferred_media_types client ∧ mt ∈ preferred_media_types server.

(** The identifiers of the next [n] messages are new to the server, and no two are
    equal. *)
Definition ids_fresh (n : nat) (w : rpc_world) : Prop :=
  ∀ i, (sent w ≤ i < sent w + n)%nat →
    received (peer w) !! ids i = None ∧ ∀ j, (i < j < sent w + n)%nat → ids i ≠ ids j.

(** How a call ends. *)
Definition call_ended (attempted : list string) (w : rpc_world) (r : outcome (option message)) (w' : rpc_world) : Prop :=
  (sent w' + length attempted ≤ sent w + length (preferred_media_types client))%nat ∧
  ((∃ mt, common mt) → r = Ret (Some answer) ∧ handled (peer w') = handled (peer w) ++ [request] ∧
    ∃ mt, common mt ∧ known_types (this w') = <[target := mt]> (known_types (this w))) ∧
  ((∀ mt, ¬ common mt) → r = Throw (coap_client_error (code 4 15)) ∧ handled (peer w') = handled (peer w) ∧
    known_types (this w') = known_types (this w)).

(** The client's side of an exchange. *)
Local Abbreviation respond := (handle_response what coap_decode_var_bytes order blocks client target answer_kind).

Lemma answer_read mt format data tok now c :
  common mt → media_type_to_coap_content_format mt = Some format → encode_with server mt answer = Ret data →
  tok ∈ pending c →
  ∃ c', respond (mk_response (code 2 5) (Some format) None None data) tok now c = (Ret (settled (inl answer)), c') ∧
    known_types c' = <[target := mt]> (known_types c).
Proof.
  intros [Hc Hs] Hf Hd Htok. destruct (content_formats_bijective client client_valid) as [_ Hbij].
  unfold handle_response. rewrite let_get, bool_decide_eq_true_2 by done. cbn [negb response_code response_format
    response_block1 response_block2 response_body]. change (code_class (code 2 5)) with 2. cbn [N.eqb N.ltb Pos.eqb orb negb].
  assert (registry_media_type_for_content_format client (wire_format format) = Some mt) as ->.
  { rewrite (format_16_bits _ _ Hf). by apply Hbij. }
  change (code 2 5 =? 0) with false. cbn [orb N.compare Pos.compare Pos.compare_cont].
  unfold resolve_callback. rewrite (answer_understood _ _ Hc Hs Hd). eexists. split; [reflexivity|]. done.
Qed.

Lemma refusal_read tok now c :
  tok ∈ pending c →
  ∃ c', respond (plain_response (code 4 15) []) tok now c = (Ret (settled (inr (coap_client_error (code 4 15)))), c') ∧
    known_types c' = known_types c ∧ encoded c' = encoded c.
Proof.
  intros Htok. unfold handle_response. rewrite let_get, bool_decide_eq_true_2 by done. eexists.
  split; [reflexivity|]. done.
Qed.

(** A message that the peer answers with a message that settles the call ends it. *)
Lemma converse_once rounds req w response s c r :
  serve req (clock (sent w)) (peer w) = (Ret response, s) →
  respond response (token req) (clock (S (sent w))) (this w) = (Ret (settled r), c) →
  converse what coap_decode_var_bytes order blocks client target answer_kind serve ids clock (S rounds) req w =
    (Ret (settled r), mk_world s c (S (sent w))).
Proof.
  intros Es Ec. cbn [converse]. erewrite let_eval by (unfold ask; by rewrite Es). rewrite let_get.
  cbn [sent]. erewrite let_eval by (unfold on_this; cbn [this]; by rewrite Ec). done.
Qed.

Lemma call_from fuel attempted w :
  NoDup attempted → (∀ mt, mt ∈ attempted → mt ∈ preferred_media_types client ∧ mt ∉ preferred_media_types server) →
  attempted = [] ∨ is_Some (next_request_media_type_after_rejection client attempted) →
  (length (preferred_media_types client) < fuel + length attempted)%nat →
  ids_fresh (length (preferred_media_types client) - length attempted) w → cache_current (this w) →
  let '(r, w') := call fuel attempted request w in call_ended attempted w r w'.
Proof.
  revert attempted w. induction fuel as [|fuel IH]; intros attempted w Hnd Htried Hnext Hfuel Hids Hcache.
  { assert (length attempted ≤ length (preferred_media_types client))%nat; [|lia].
    apply submseteq_length, NoDup_submseteq; [done|]. intros mt Hmt. by apply Htried. }
  destruct (build_request_next attempted (ids (sent w)) (clock (sent w)) (this w) Hnext Hcache)
    as (mt & format & body & tok & c & Eb & Hin & Hnew & Hf & He & Hk & Htok & Hcache').
  assert (NoDup (attempted ++ [mt])) as Hnd'.
  { apply NoDup_app. split_and!; [done|set_solver|apply NoDup_singleton]. }
  assert (length (attempted ++ [mt]) ≤ length (preferred_media_types client))%nat as Hlen.
  { apply submseteq_length, NoDup_submseteq; [done|]. intros t [Ht|Ht]%elem_of_app; [by apply Htried|].
    by apply list_elem_of_singleton in Ht as ->. }
  rewrite length_app in Hlen. cbn [length] in Hlen. destruct (request_fits mt body He) as (Hbody & Hsize & _).
  set (req := mk_request (ids (sent w)) tok (Some format) [format] None None body) in *.
  destruct (Hids (sent w)) as [Hfresh Hdistinct]; [lia|].
  destruct (serve_run req (clock (sent w)) (peer w) Hfresh Hbody Hsize eq_refl) as (s1 & Hh1 & Hr1 & Hrun).
  set (w1 := mk_world (peer w) c (sent w)).
  assert (call (S fuel) attempted request w = (let! r := converse what coap_decode_var_bytes order blocks client target answer_kind serve ids clock
    (S fuel) req in
    match r with
    | settled (inl m) => mreturn (Some m)
    | settled (inr e) =>
        if decide (e = coap_client_error (code 4 15)) then
          match next_request_media_type_after_rejection client (attempted ++ [mt]) with
          | Some _ => call fuel (attempted ++ [mt]) request
          | None => mthrow e
          end
        else mthrow e
    | left_alone | next_block _ => mreturn None
    end) w1) as ->.
  { cbn [send_rpc]. rewrite let_get. rewrite (let_eval _ _ w (mt, req) w1); [reflexivity|]. unfold mcatch, on_this. by rewrite Eb. }
  destruct (decide (mt ∈ preferred_media_types server)) as [Hs|Hs].
  - destruct (server_takes req mt format body s1 Hin Hs Hf He eq_refl eq_refl) as (data & s2 & Hd & Ha & Hh2).
    destruct (Hrun _ _ Ha) as (s3 & Es & Hh3 & _).
    destruct (answer_read mt format data tok (clock (S (sent w))) c (conj Hin Hs) Hf Hd Htok) as (c2 & Ec & Hk2).
    rewrite (let_eval _ _ _ _ _ (converse_once fuel req w1 _ _ _ _ Es Ec)). unfold call_ended. cbn [mreturn peer this sent].
    split; [cbn; lia|]. split; [|intros Hno; by destruct (Hno mt)]. intros _. split_and!; [done| |].
    + by rewrite Hh3, Hh2, Hh1.
    + exists mt. split; [done|]. by rewrite Hk2, Hk.
  - destruct (Hrun _ _ (server_refuses req mt format s1 body Hin Hs Hf eq_refl)) as (s3 & Es & Hh3 & Hr3).
    destruct (refusal_read tok (clock (S (sent w))) c Htok) as (c2 & Ec & Hk2 & He2).
    rewrite (let_eval _ _ _ _ _ (converse_once fuel req w1 _ _ _ _ Es Ec)). rewrite decide_True by done.
    pose proof (next_type_spec client (attempted ++ [mt])) as Hspec.
    destruct (next_request_media_type_after_rejection client (attempted ++ [mt])) as [t|] eqn:En.
    + specialize (IH (attempted ++ [mt]) (mk_world s3 c2 (S (sent w)))). cbn [w1 sent] in IH |- *.
      destruct (call fuel (attempted ++ [mt]) request (mk_world s3 c2 (S (sent w)))) as [r w'].
      rewrite length_app in IH. cbn [length] in IH.
      destruct IH as (Hsent & Hyes & Hno); [done|set_solver|right; by eexists|lia| | |].
      * intros i Hi. cbn [sent peer] in *. split.
        -- rewrite Hr3. apply Hr1; [cbn; intros E; by apply (Hdistinct i); [lia|]|]. apply Hids. lia.
        -- intros j Hj. apply (Hids i); lia.
      * unfold cache_current in *. cbn [this]. by rewrite He2.
      * rewrite length_app in Hsent. cbn [length sent peer this] in *. rewrite Hh3, Hh1, Hk2, Hk in *.
        split; [lia|done].
    + unfold call_ended. cbn. split; [lia|]. split.
      * intros [t [Hc Hsv]]. specialize (Hspec t Hc). set_solver.
      * intros _. rewrite Hh3, Hh1, Hk2, Hk. done.
Qed.

End call.

(** A client of JSON and CBOR, in that order, with its cache on, and a server of CBOR
    only: the first request is refused, the second answered. *)
Module CoapExample.
Definition json_cbor_client : multi_registry :=
  mk_multi (@json_rpc_serializer CodeJson.code_json) cbor_rpc_serializer [].
Definition sample_answer : message := msg_append_entries_response (mk_append_resp 3 true None None).
Definition sample_handler (m : message) : outcome message := Ret sample_answer.
Definition sample_cfg : server_config := mk_server_config default_config 65536 200.
Definition sample_serialize (m : message) : bytes :=
  match encode_with json_cbor_client "application/json" m with Ret data => data | _ => [] end.
Definition sample_call : M rpc_world (option message) :=
  send_rpc (λ _, EmptyString) network_order little_endian (λ _, 11) (λ t, t) (mk_coap_config false 1024)
    (mk_cache_config true 100 60000) sample_serialize json_cbor_client 7 k_append_entries_response
    (handle_rpc_resource (λ _, EmptyString) network_order little_endian sample_cfg cbor_rpc_serializer
       k_append_entries_request sample_handler)
    (λ n, 4711 + N.of_nat n) (λ n, Z.of_nat n) 3 [] cbor_sample.
Definition sample_world : rpc_world := mk_world (mk_server ∅ ∅ 0 []) (mk_client ∅ ∅ ∅ 0 ∅) 0.
End CoapExample.


(** Every request begins by bringing the count of connections below the limit, so the
    check of the limit that follows never refuses one. *)
Theorem connection_limit_unreachable cfg now s :
  0 < max_concurrent_sessions cfg → is_u64 (max_concurrent_sessions cfg * 3) →
  result_of (let! _ := handle_resource_exhaustion cfg now in enforce_connection_limits cfg) s = Ret tt.
Proof.
  intros Hpos Hsmall. destruct (exhaustion_run cfg Hpos Hsmall now s) as (s0 & E & _ & _ & Hc).
  unfold result_of. rewrite (let_eval _ _ _ _ _ E). unfold enforce_connection_limits.
  rewrite let_get, (proj2 (N.leb_gt _ _)) by done. done.
Qed.

Lemma connection_limit_unreachable_witness :
  result_of (let! _ := handle_resource_exhaustion CoapExample.sample_cfg 0 in
             enforce_connection_limits CoapExample.sample_cfg) (mk_server ∅ ∅ 1000 []) = Ret tt.
Proof. by apply connection_limit_unreachable. Defined.

(** A message whose identifier was recorded less than five minutes ago, from whatever
    peer, is answered 2.03 without a payload; the handler is not run. *)
Theorem duplicate_answered_empty {R} `{SerializerRegistry R} what decode order cfg (registry : R) kind handler req now s t :
  0 < max_concurrent_sessions cfg → is_u64 (max_concurrent_sessions cfg * 3) →
  received s !! message_id req = Some t → (now - t ≤ minutes 5)%Z →
  let '(r, s') := handle_rpc_resource what decode order cfg registry kind handler req now s in
  r = Ret (plain_response (code 2 3) []) ∧ handled s' = handled s.
Proof.
  intros Hpos Hsmall Hr Hage. destruct (exhaustion_run cfg Hpos Hsmall now s) as (s0 & E & Hh & Hrec & Hc).
  unfold handle_rpc_resource, mcatch. rewrite (let_eval _ _ _ _ _ E).
  assert (enforce_connection_limits cfg s0 = (Ret tt, s0)) as El.
  { unfold enforce_connection_limits. rewrite let_get, (proj2 (N.leb_gt _ _)) by done. done. }
  rewrite (let_eval _ _ _ _ _ El). unfold with_connection, process_request. rewrite let_get.
  unfold is_duplicate_message. rewrite bool_decide_eq_true_2; [by split|].
  cbn [received set_connections]. rewrite Hrec. exists t. apply map_lookup_filter_Some. split; [done|]. cbn. lia.
Qed.

Lemma duplicate_answered_empty_witness :
  let req := mk_request 4711 "00000001" None [] None None [x01] in
  (handle_rpc_resource (λ _, EmptyString) network_order little_endian CoapExample.sample_cfg cbor_rpc_serializer
     k_append_entries_request CoapExample.sample_handler req 5 (mk_server {[4711 := 0%Z]} ∅ 0 [])).1 =
  Ret (plain_response (code 2 3) []).
Proof.
  intros req.
  pose proof (duplicate_answered_empty (λ _, EmptyString) network_order little_endian CoapExample.sample_cfg cbor_rpc_serializer
    k_append_entries_request CoapExample.sample_handler req 5 (mk_server {[4711 := 0%Z]} ∅ 0 []) 0 eq_refl eq_refl
    eq_refl ltac:(unfold minutes; lia)) as H.
  destruct (handle_rpc_resource _ _ _ _ _ _ _ _ _ _) as [r s']. apply H.
Defined.

(** ** The cache gives the first request of a term *)

Section cached.
Context (type_hash : message_kind → N) (number_hash : N → N).
Context (cfg : cache_config) (encode : message → bytes).
Local Abbreviation get := (get_cached_or_serialize type_hash number_hash cfg encode).

Lemma request_hash_type_and_term m m' :
  kind_of m = kind_of m' → request_term m = request_term m' →
  request_hash type_hash number_hash m = request_hash type_hash number_hash m'.
Proof. intros Hk Ht. unfold request_hash. by rewrite Hk, Ht. Qed.

(** A miss leaves the encoded request under its hash. *)
Lemma miss_stores m now cache :
  enable_serialization_caching cfg = true → 0 < max_cache_entries cfg →
  cache !! request_hash type_hash number_hash m = None →
  ∃ cache', get m now cache = (Ret (encode m), cache') ∧
    cache' !! request_hash type_hash number_hash m = Some (mk_cache_entry (encode m) now 1 now).
Proof.
  intros He Hmax Hnone. unfold get_cached_or_serialize, cache_serialization_result. rewrite He. cbn [negb].
  rewrite let_get, Hnone. unfold mlet, mget.
  destruct (N.leb_spec (max_cache_entries cfg) (N.of_nat (size cache))) as [Hfull|Hroom].
  - unfold oldest_entry. destruct (map_to_list cache) as [|kv l] eqn:El.
    { apply map_to_list_empty_iff in El. subst cache. change (size _) with 0%nat in Hfull. lia. }
    eexists. split; [done|]. apply (lookup_insert_eq (delete _ cache)).
  - eexists. split; [done|]. apply (lookup_insert_eq cache).
Qed.

(** With the cache on, a second request of the same type in the same term is sent as
    the first one's bytes until the entry's time is over: the key of the cache is
    the type and the term, and nothing else of the request. *)
Theorem cached_request_is_stale first second t1 t2 cache :
  enable_serialization_caching cfg = true → 0 < max_cache_entries cfg →
  kind_of first = kind_of second → request_term first = request_term second →
  cache !! request_hash type_hash number_hash first = None → (t2 - t1 < cache_ttl cfg)%Z →
  result_of (let! _ := get first t1 in get second t2) cache = Ret (encode first).
Proof.
  intros He Hmax Hk Ht Hnone Httl.
  destruct (miss_stores first t1 cache He Hmax Hnone) as (cache' & E & Hhit).
  unfold result_of. erewrite let_eval by exact E.
  rewrite (request_hash_type_and_term first second Hk Ht) in Hhit.
  unfold get_cached_or_serialize. rewrite He. cbn [negb]. rewrite let_get, Hhit. cbn [created serialized_data].
  rewrite bool_decide_eq_true_2 by done. by rewrite let_modify.
Qed.
End cached.

(** A leader's heartbeat and then entries to replicate, a second later. *)
Definition heartbeat : message := msg_append_entries_request (mk_append_req 3 1 0 0 [] 0).
Definition replication : message := msg_append_entries_request (mk_append_req 3 1 0 0 [mk_entry 3 1 [x61] normal] 0).

Lemma cached_request_is_stale_witness :
  result_of (let! _ := get_cached_or_serialize (λ _, 11) (λ t, t) (mk_cache_config true 100 60000) cbor_serialize heartbeat 0 in
             get_cached_or_serialize (λ _, 11) (λ t, t) (mk_cache_config true 100 60000) cbor_serialize replication 1000) ∅ =
    Ret (cbor_serialize heartbeat) ∧
  cbor_serialize heartbeat ≠ cbor_serialize replication.
Proof. split; [by apply cached_request_is_stale|by vm_compute]. Defined.
