(* ===== verification/SimObjects.v ===== *)
(** The objects the network simulator hands out and keeps
    ([include/network_simulator/connection.hpp], [listener.hpp]) and the components
    that manage them: the pool of connections, the manager of listeners and the
    tracker of connections.

    A [shared_ptr] to a connection or to a listener is a number, the objects are in
    heaps of the simulator.  An operation reads the clock once, in milliseconds, and
    takes the reading as an argument. *)

From S2P Require Import Prelude Types.

Local Open Scope Z_scope.

(** ** Addresses *)

Abbreviation endpoint := (string * N)%type.

(** The four-tuple of a connection: its own end and the other one. *)
Abbreviation connection_id := (endpoint * endpoint)%type.

Definition reversed (id : connection_id) : connection_id := (id.2, id.1).

(** ** A connection *)

Module Connection.
Record t : Type := mk { _local : endpoint; _remote : endpoint; _open : bool; _read_buffer : list bytes }.

#[export] Instance t_eta : Eta t := λ c, mk (_local c) (_remote c) (_open c) (_read_buffer c).
Definition set_open := ltac:(setter _open).
Definition set_read_buffer := ltac:(setter _read_buffer).

Definition create (local remote : endpoint) : t := mk local remote true [].
Definition _connection_id (c : t) : connection_id := (_local c, _remote c).

(** The predicate a reader waits for. *)
Definition readable (c : t) : bool := negb (bool_decide (_read_buffer c = [])) || negb (_open c).

(** What [read] does once its wait is over; [none] is what it gives without data. *)
Definition take_data (none : outcome bytes) (c : t) : outcome bytes * t :=
  if negb (_open c) then (Throw connection_closed_exception, c)
  else match _read_buffer c with
       | [] => (none, c)
       | data :: rest => (Ret data, set_read_buffer rest c)
       end.

Definition deliver_data (data : bytes) (c : t) : t :=
  if _open c then set_read_buffer (_read_buffer c ++ [data]) c else c.
End Connection.

(** ** A listener *)

Module Listener.
Record t : Type := mk { _local : endpoint; _listening : bool; _pending_connections : list nat }.

#[export] Instance t_eta : Eta t := λ l, mk (_local l) (_listening l) (_pending_connections l).
Definition set_listening := ltac:(setter _listening).
Definition set_pending := ltac:(setter _pending_connections).

Definition create (local : endpoint) : t := mk local true [].

Definition acceptable (l : t) : bool := negb (bool_decide (_pending_connections l = [])) || negb (_listening l).

(** A listener that is closed gives a null pointer. *)
Definition take_connection (none : outcome (option nat)) (l : t) : outcome (option nat) * t :=
  if negb (_listening l) then (Ret None, l)
  else match _pending_connections l with
       | [] => (none, l)
       | connection :: rest => (Ret (Some connection), set_pending rest l)
       end.

Definition close (l : t) : t := set_listening false l.

Definition queue_pending_connection (connection : nat) (l : t) : t :=
  if _listening l then set_pending (_pending_connections l ++ [connection]) l else l.
End Listener.

(** ** The pool of connections *)

Module ConnectionPool.
(** The connection is not null: [return_connection] takes no null pointer. *)
Record PooledConnection : Type := mk_pooled {
  connection : nat;
  last_used : Z;
  created : Z;
  is_healthy : bool
}.

Record PoolConfig : Type := mk_config {
  max_connections_per_endpoint : N;
  max_idle_time : Z;
  max_connection_age : Z;
  enable_health_checks : bool
}.

Definition default_config : PoolConfig := mk_config 10 300000 3600000 true.

Record t : Type := mk { _connection_pools : gmap endpoint (list PooledConnection); _config : PoolConfig }.

#[export] Instance t_eta : Eta t := λ p, mk (_connection_pools p) (_config p).
Definition set_pools := ltac:(setter _connection_pools).
Definition configure_pool := ltac:(setter _config).

Definition is_stale (now max_age : Z) (pc : PooledConnection) : bool := max_age <? now - last_used pc.

Section pool.
(** [connection->is_open()] *)
Context (is_open : nat → bool) (now : Z).

Definition is_connection_healthy (config : PoolConfig) (pc : PooledConnection) : bool :=
  if negb (enable_health_checks config) then true
  else if max_connection_age config <? now - created pc then false
  else if is_stale now (max_idle_time config) pc then false
  else if negb (is_open (connection pc)) then false
  else is_healthy pc.

Definition usable (config : PoolConfig) (pc : PooledConnection) : bool :=
  is_connection_healthy config pc && is_open (connection pc).

(** The pooled connection, if there is one; it stays in the pool.  Without one the
    caller's function creates a connection. *)
Definition get_or_create_connection (destination : endpoint) (p : t) : option nat * t :=
  match _connection_pools p !! destination with
  | None => (None, p)
  | Some pool =>
      match list_find (λ pc, usable (_config p) pc = true) pool with
      | Some (i, pc) =>
          let reused := mk_pooled (connection pc) now (created pc) (is_healthy pc) in
          (Some (connection pc), set_pools (<[destination := delete i pool ++ [reused]]> (_connection_pools p)) p)
      | None =>
          (None, set_pools (<[destination := filter (λ pc, usable (_config p) pc = true) pool]> (_connection_pools p)) p)
      end
  end.

(** [std::min_element]: the position of the first of the least. *)
Fixpoint least_recent (best : nat * PooledConnection) (i : nat) (pool : list PooledConnection) : nat * PooledConnection :=
  match pool with
  | [] => best
  | pc :: pool => least_recent (if last_used pc <? last_used best.2 then (i, pc) else best) (S i) pool
  end.

(** The connection that must be closed, and the others. *)
Definition evict_lru_connection (pool : list PooledConnection) : option nat * list PooledConnection :=
  match pool with
  | [] => (None, [])
  | pc :: rest =>
      let '(i, lru) := least_recent (0%nat, pc) 1 rest in
      (if is_open (connection lru) then Some (connection lru) else None, delete i pool)
  end.

(** [remote] is the connection's remote endpoint. *)
Definition return_connection (conn : nat) (remote : endpoint) (p : t) : option nat * t :=
  if negb (is_open conn) then (None, p) else
  let pool := default [] (_connection_pools p !! remote) in
  let '(closed, pool) :=
    if (max_connections_per_endpoint (_config p) <=? N.of_nat (length pool))%N then evict_lru_connection pool
    else (None, pool) in
  (closed, set_pools (<[remote := pool ++ [mk_pooled conn now now true]]> (_connection_pools p)) p).

Definition cleanup_stale_connections (p : t) : t :=
  let keep pc := usable (_config p) pc && negb (is_stale now (max_idle_time (_config p)) pc) in
  let pools := filter (λ pc, keep pc = true) <$> _connection_pools p in
  set_pools (filter (λ kv, kv.2 ≠ []) pools) p.
End pool.

Definition get_pool_size (destination : endpoint) (p : t) : nat :=
  match _connection_pools p !! destination with Some pool => length pool | None => 0 end.
End ConnectionPool.

(** ** The manager of listeners *)

Module ListenerManager.
(** [pending_connections] is never filled. *)
Record ListenerResource : Type := mk_resource {
  listener : nat;
  bound_endpoint : endpoint;
  created : Z;
  is_active : bool
}.

Record t : Type := mk {
  _active_listeners : gmap endpoint ListenerResource;
  _allocated_ports : gset N
}.

(** [emplace] leaves an entry that is there. *)
Definition register_listener (now : Z) (ep : endpoint) (listener : nat) (m : t) : t :=
  mk (match _active_listeners m !! ep with
      | Some _ => _active_listeners m
      | None => <[ep := mk_resource listener ep now true]> (_active_listeners m)
      end) ({[ep.2]} ∪ _allocated_ports m).

(** Closing changes the object the pointer refers to. *)
Definition close_object (l : nat) (listeners : gmap nat Listener.t) : gmap nat Listener.t :=
  alter (λ l, if Listener._listening l then Listener.close l else l) l listeners.

Definition close_listener (ep : endpoint) (m : t) (listeners : gmap nat Listener.t) : t * gmap nat Listener.t :=
  match _active_listeners m !! ep with
  | None => (m, listeners)
  | Some r => (mk (delete ep (_active_listeners m)) (_allocated_ports m ∖ {[ep.2]}), close_object (listener r) listeners)
  end.

Definition cleanup_all_listeners (m : t) (listeners : gmap nat Listener.t) : t * gmap nat Listener.t :=
  (mk ∅ ∅, foldr (λ kv, close_object (listener kv.2)) listeners (map_to_list (_active_listeners m))).

Definition release_port (port : N) (m : t) : t := mk (_active_listeners m) (_allocated_ports m ∖ {[port]}).

Definition is_port_available (port : N) (m : t) : bool := bool_decide (port ∉ _allocated_ports m).

Definition is_endpoint_available (ep : endpoint) (m : t) : bool := bool_decide (_active_listeners m !! ep = None).

Definition get_listener (ep : endpoint) (m : t) : option nat :=
  match _active_listeners m !! ep with
  | Some r => if is_active r then Some (listener r) else None
  | None => None
  end.

Definition get_all_listeners (m : t) : list endpoint :=
  (filter (λ kv, is_active kv.2 = true) (map_to_list (_active_listeners m))).*1.
End ListenerManager.

(** ** The tracker of connections *)

Module ConnectionTracker.
Inductive ConnectionState : Type := CONNECTING | CONNECTED | CLOSING | CLOSED | ERROR.
#[export] Instance state_eq_dec : EqDecision ConnectionState.
Proof. solve_decision. Defined.

Record ConnectionStats : Type := mk_stats {
  established_time : Z;
  last_activity : Z;
  bytes_sent : N;
  bytes_received : N;
  messages_sent : N;
  messages_received : N;
  last_error : option string
}.

(** [node]: the map's node that holds the entry, which an iterator refers to.
    [connection_ref] is a weak pointer.  A callback is a number. *)
Record ConnectionInfo : Type := mk_info {
  node : nat;
  local_endpoint : endpoint;
  remote_endpoint : endpoint;
  state : ConnectionState;
  stats : ConnectionStats;
  connection_ref : nat;
  state_change_callback : option nat
}.

#[export] Instance info_eta : Eta ConnectionInfo := λ i,
  mk_info (node i) (local_endpoint i) (remote_endpoint i) (state i) (stats i) (connection_ref i) (state_change_callback i).
Definition set_state := ltac:(setter state).
Definition set_stats := ltac:(setter stats).
Definition set_callback := ltac:(setter state_change_callback).

(** [notified]: the calls of callbacks so far. *)
Record t : Type := mk {
  _connection_info : gmap endpoint ConnectionInfo;
  _keep_alive_interval : Z;
  _idle_timeout : Z;
  next_node : nat;
  notified : list (nat * ConnectionState * ConnectionState)
}.

#[export] Instance t_eta : Eta t := λ k,
  mk (_connection_info k) (_keep_alive_interval k) (_idle_timeout k) (next_node k) (notified k).
Definition set_info := ltac:(setter _connection_info).
Definition configure_keep_alive := ltac:(setter _keep_alive_interval).
Definition configure_idle_timeout := ltac:(setter _idle_timeout).
Definition set_next_node := ltac:(setter next_node).
Definition set_notified := ltac:(setter notified).

Definition create : t := mk ∅ 30000 300000 0 [].

(** [insert_or_assign] keeps the node of an entry that is there. *)
Definition register_connection (now : Z) (local remote : endpoint) (conn : nat) (k : t) : t :=
  let node := match _connection_info k !! local with Some i => node i | None => next_node k end in
  let info := mk_info node local remote CONNECTED (mk_stats now now 0 0 0 0 None) conn None in
  set_next_node (S (next_node k)) (set_info (<[local := info]> (_connection_info k)) k).

Definition update_connection_state (local : endpoint) (new_state : ConnectionState) (k : t) : t :=
  match _connection_info k !! local with
  | None => k
  | Some info =>
      let k := set_info (<[local := set_state new_state info]> (_connection_info k)) k in
      match state_change_callback info with
      | Some callback => set_notified (notified k ++ [(callback, state info, new_state)]) k
      | None => k
      end
  end.

Definition count_transfer (now : Z) (bytes_transferred : N) (is_send : bool) (st : ConnectionStats) : ConnectionStats :=
  if is_send then
    mk_stats (established_time st) now (bytes_sent st ⊕ bytes_transferred) (bytes_received st)
      (messages_sent st ⊕ 1) (messages_received st) (last_error st)
  else
    mk_stats (established_time st) now (bytes_sent st) (bytes_received st ⊕ bytes_transferred)
      (messages_sent st) (messages_received st ⊕ 1) (last_error st).

Definition update_connection_stats (now : Z) (local : endpoint) (bytes_transferred : N) (is_send : bool) (k : t) : t :=
  set_info (alter (λ i, set_stats (count_transfer now bytes_transferred is_send (stats i)) i) local (_connection_info k)) k.

Definition get_connection_info (local : endpoint) (k : t) : option ConnectionInfo := _connection_info k !! local.
Definition get_all_connections (k : t) : list ConnectionInfo := (map_to_list (_connection_info k)).*2.
Definition cleanup_connection (local : endpoint) (k : t) : t := set_info (delete local (_connection_info k)) k.

Definition set_state_change_callback (local : endpoint) (callback : nat) (k : t) : t :=
  set_info (alter (set_callback (Some callback)) local (_connection_info k)) k.

(** The connections [process_idle_timeouts] is to close. *)
Definition idle_connections (now : Z) (k : t) : list endpoint :=
  (filter (λ kv, state kv.2 = CONNECTED ∧ _idle_timeout k <= now - last_activity (stats kv.2))
     (map_to_list (_connection_info k))).*1.

Definition idle_error : string := "Connection closed due to idle timeout".

(** The writes through the iterator at the end of an iteration. *)
Definition mark_idle (info : ConnectionInfo) : ConnectionInfo :=
  let st := stats info in
  set_stats (mk_stats (established_time st) (last_activity st) (bytes_sent st) (bytes_received st)
    (messages_sent st) (messages_received st) (Some idle_error)) (set_state CLOSED info).
End ConnectionTracker.
