(* ===== verification/NetworkSim.v ===== *)
(** The network simulator ([include/network_simulator/simulator_impl.hpp]): its state,
    the directed topology, starting and stopping, path finding, and the routing and
    the queues of messages.

    Addresses are strings.  The draws of the random generator come from an oracle;
    a message that waits for its latency gives other threads a turn, which is a
    change of the simulator that the definitions take as an argument. *)

From stdpp Require Import strings pretty.
From Stdlib Require Import QArith Sorted.
From S2P Require Import Prelude Types SimObjects.

Local Open Scope nat_scope.

(** ** State *)

Record network_edge : Type := mk_edge {
  latency : Z;
  reliability : Q
}.

Record sim_message : Type := mk_message {
  source_address : string;
  destination_address : string;
  destination_port : N;
  payload : bytes
}.

Definition topology : Type := gmap string (gmap string network_edge).

(** [default_connect_timeout], [default_accept_timeout] and [enable_keep_alive] are
    not read. *)
Record ConnectionConfig : Type := mk_connection_config {
  default_connect_timeout : Z;
  default_accept_timeout : Z;
  enable_connection_pooling : bool;
  enable_connection_tracking : bool;
  enable_keep_alive : bool;
  pool_config : ConnectionPool.PoolConfig
}.

Record ConnectionRequest : Type := mk_request {
  source : endpoint;
  destination : endpoint;
  start_time : Z;
  timeout : Z
}.

(** [connections] and [listeners] are the objects, by their pointers; [next_object]
    is the next pointer.  [_connection_pool], [_listener_manager] and
    [_connection_tracker] are never null. *)
Record simulator : Type := mk_simulator {
  _topology : topology;
  _nodes : gset string;
  _message_queues : gmap string (list sim_message);
  _connections : gmap connection_id nat;
  _listeners : gmap endpoint nat;
  _connection_pool : ConnectionPool.t;
  _listener_manager : ListenerManager.t;
  _connection_tracker : ConnectionTracker.t;
  _connection_config : ConnectionConfig;
  _pending_connections : list ConnectionRequest;
  _started : bool;
  _closing : bool;
  connections : gmap nat Connection.t;
  listeners : gmap nat Listener.t;
  next_object : nat;
  draws : nat
}.

#[export] Instance simulator_eta : Eta simulator :=
  λ s, mk_simulator (_topology s) (_nodes s) (_message_queues s) (_connections s) (_listeners s) (_connection_pool s)
    (_listener_manager s) (_connection_tracker s) (_connection_config s) (_pending_connections s) (_started s)
    (_closing s) (connections s) (listeners s) (next_object s) (draws s).
Definition set_topology := ltac:(setter _topology).
Definition set_nodes := ltac:(setter _nodes).
Definition set_queues := ltac:(setter _message_queues).
Definition set_connection_map := ltac:(setter _connections).
Definition set_listener_map := ltac:(setter _listeners).
Definition set_pool := ltac:(setter _connection_pool).
Definition set_manager := ltac:(setter _listener_manager).
Definition set_tracker := ltac:(setter _connection_tracker).
Definition set_config := ltac:(setter _connection_config).
Definition set_requests := ltac:(setter _pending_connections).
Definition set_started := ltac:(setter _started).
Definition set_closing := ltac:(setter _closing).
Definition set_connections := ltac:(setter connections).
Definition set_listeners := ltac:(setter listeners).
Definition set_next_object := ltac:(setter next_object).
Definition set_draws := ltac:(setter draws).

Definition default_connection_config : ConnectionConfig :=
  mk_connection_config 30000 60000 true true false ConnectionPool.default_config.

Definition new_simulator : simulator :=
  mk_simulator ∅ ∅ ∅ ∅ ∅ (ConnectionPool.mk ∅ ConnectionPool.default_config) (ListenerManager.mk ∅ ∅)
    ConnectionTracker.create default_connection_config [] false false ∅ ∅ 0 0.

(** ** Topology *)

(** [if (find(k) == end()) m[k] = {}] *)
Definition ensure {A} (k : string) (v : A) (m : gmap string A) : gmap string A :=
  match m !! k with Some _ => m | None => <[k := v]> m end.

Definition add_node (address : string) (s : simulator) : simulator :=
  set_queues (ensure address [] (_message_queues s)) (set_topology (ensure address ∅ (_topology s)) s).

(** The connections and listeners of the node are forgotten, not closed. *)
Definition remove_node (address : string) (s : simulator) : simulator :=
  let s := set_topology (delete address <$> delete address (_topology s)) s in
  let s := set_nodes (_nodes s ∖ {[address]}) s in
  let s := set_queues (delete address (_message_queues s)) s in
  let s := set_connection_map (filter (λ kv, ¬ (kv.1.1.1 = address ∨ kv.1.2.1 = address)) (_connections s)) s in
  set_listener_map (filter (λ kv, kv.1.1 ≠ address) (_listeners s)) s.

Definition add_edge (from to : string) (edge : network_edge) (s : simulator) : simulator :=
  let t := ensure to ∅ (ensure from ∅ (_topology s)) in
  set_topology (<[from := <[to := edge]> (default ∅ (t !! from))]> t) s.

Definition remove_edge (from to : string) (s : simulator) : simulator :=
  match _topology s !! from with
  | Some edges => set_topology (<[from := delete to edges]> (_topology s)) s
  | None => s
  end.

Definition create_node (address : string) (s : simulator) : simulator :=
  if decide (address ∈ _nodes s) then s else
  let s := set_topology (ensure address ∅ (_topology s)) s in
  let s := set_queues (ensure address [] (_message_queues s)) s in
  set_nodes ({[address]} ∪ _nodes s) s.

Definition has_node (address : string) (s : simulator) : bool := bool_decide (is_Some (_topology s !! address)).

Definition get_edge (from to : string) (s : simulator) : outcome network_edge :=
  match _topology s !! from with
  | None => Throw (no_route_exception "Node not found")
  | Some edges =>
      match edges !! to with
      | None => Throw (no_route_exception "Edge not found")
      | Some edge => Ret edge
      end
  end.

Definition has_edge (from to : string) (s : simulator) : bool :=
  match _topology s !! from with
  | None => false
  | Some edges => bool_decide (is_Some (edges !! to))
  end.

(** ** Closing connections and listeners *)

Definition notify_connection_closed (local : endpoint) (s : simulator) : simulator :=
  if enable_connection_tracking (_connection_config s)
  then set_tracker (ConnectionTracker.update_connection_state local ConnectionTracker.CLOSED (_connection_tracker s)) s
  else s.

(** [Connection::close] *)
Definition close_connection (p : nat) (s : simulator) : simulator :=
  match connections s !! p with
  | Some c =>
      notify_connection_closed (Connection._local c)
        (set_connections (<[p := Connection.set_open false c]> (connections s)) s)
  | None => s
  end.

(** [connection->is_open()] *)
Definition is_open (s : simulator) (p : nat) : bool :=
  match connections s !! p with Some c => Connection._open c | None => false end.

(** The loops of [stop] and [reset]. *)
Definition close_all (s : simulator) : simulator :=
  let s := foldr (λ kv s, if is_open s kv.2 then close_connection kv.2 s else s) s (map_to_list (_connections s)) in
  let '(m, ls) := ListenerManager.cleanup_all_listeners (_listener_manager s) (listeners s) in
  let s := set_listeners ls (set_manager m s) in
  set_listeners (foldr (λ kv, ListenerManager.close_object kv.2) (listeners s) (map_to_list (_listeners s))) s.

(** ** Starting and stopping *)

Definition start (s : simulator) : simulator := if _started s then s else set_started true s.

Definition stop (s : simulator) : simulator := if _started s then close_all (set_started false s) else s.

(** The pool and the tracker keep what they have. *)
Definition reset (s : simulator) : simulator :=
  let s := close_all (set_started false s) in
  set_listener_map ∅ (set_connection_map ∅ (set_queues ∅ (set_nodes ∅ (set_topology ∅ s)))).

(** ** Path finding *)

(** The neighbours of a node, in the order of the map. *)
Definition neighbours (t : topology) (node : string) : list string :=
  match t !! node with
  | Some edges => (map_to_list edges).*1
  | None => []
  end.

Record search : Type := mk_search {
  queue : list string;
  visited : gset string;
  parent : gmap string string
}.

Definition visit (current : string) (st : search) (neighbour : string) : search :=
  if decide (neighbour ∈ visited st) then st
  else mk_search (queue st ++ [neighbour]) ({[neighbour]} ∪ visited st) (<[neighbour := current]> (parent st)).

(** The path back to [from], last node first. *)
Fixpoint walk_back (fuel : nat) (from node : string) (parent : gmap string string) : option (list string) :=
  if decide (node = from) then Some [from]
  else match fuel with
       | O => None
       | S fuel =>
           match parent !! node with
           | Some up => cons node <$> walk_back fuel from up parent
           | None => None
           end
       end.

(** [None] when the fuel runs out. *)
Fixpoint search_loop (fuel : nat) (t : topology) (from to : string) (st : search) : option (list string) :=
  match queue st with
  | [] => Some []
  | current :: rest =>
      match fuel with
      | O => None
      | S fuel =>
          if decide (current = to) then reverse <$> walk_back (size (visited st)) from to (parent st)
          else search_loop fuel t from to
                 (foldl (visit current) (mk_search rest (visited st) (parent st)) (neighbours t current))
      end
  end.

(** Every address the search can come to. *)
Definition universe (t : topology) (from : string) : gset string :=
  {[from]} ∪ list_to_set (concat (map (neighbours t) (map_to_list t).*1)).

Definition find_path (t : topology) (from to : string) : option (list string) :=
  if decide (from = to) then Some [from]
  else search_loop (S (size (universe t from))) t from to (mk_search [from] {[from]} {[from := from]}).

(** ** Messages *)

Definition apply_latency (t : topology) (from to : string) : Z :=
  match t !! from with
  | None => 0
  | Some edges => match edges !! to with None => 0 | Some edge => latency edge end
  end.

Section routing.
(** The [n]th draw of the generator with the given probability. *)
Context (bernoulli : nat → Q → bool).

Definition check_reliability (from to : string) (s : simulator) : bool * simulator :=
  match _topology s !! from with
  | None => (false, s)
  | Some edges =>
      match edges !! to with
      | None => (false, s)
      | Some edge =>
          if Qle_bool 1 (reliability edge) then (true, s)
          else (bernoulli (draws s) (reliability edge), set_draws (S (draws s)) s)
      end
  end.

(** Each hop in turn: whether all succeed, and the sum of their latencies. *)
Fixpoint traverse (path : list string) (delay : Z) (s : simulator) : option Z * simulator :=
  match path with
  | hop_from :: ((hop_to :: _) as rest) =>
      let '(ok, s) := check_reliability hop_from hop_to s in
      if ok then traverse rest (delay + apply_latency (_topology s) hop_from hop_to)%Z s else (None, s)
  | _ => (Some delay, s)
  end.

(** A node without a queue loses the message. *)
Definition deliver_message (msg : sim_message) (s : simulator) : simulator :=
  match _message_queues s !! destination_address msg with
  | Some q => set_queues (<[destination_address msg := q ++ [msg]]> (_message_queues s)) s
  | None => s
  end.

(** [meanwhile]: what other threads do while the message waits. *)
Definition route_message (meanwhile : simulator → simulator) (msg : sim_message) (s : simulator) : bool * simulator :=
  if negb (_started s) then (false, s) else
  if negb (has_node (source_address msg) s) || negb (has_node (destination_address msg) s) then (false, s) else
  match find_path (_topology s) (source_address msg) (destination_address msg) with
  | None | Some [] => (false, s)
  | Some path =>
      match traverse path 0 s with
      | (None, s) => (false, s)
      | (Some delay, s) =>
          if bool_decide (0 < delay)%Z then
            let s := meanwhile s in
            if negb (_started s) then (false, s) else (true, deliver_message msg s)
          else (true, deliver_message msg s)
      end
  end.
End routing.

(** The first message; none gives an empty message in the code. *)
Definition retrieve_message (address : string) (s : simulator) : option sim_message * simulator :=
  match _message_queues s !! address with
  | Some (msg :: rest) => (Some msg, set_queues (<[address := rest]> (_message_queues s)) s)
  | _ => (None, s)
  end.

(** The first message for a port once the wait is over; none is a timeout. *)
Definition retrieve_for_port (address : string) (port : N) (s : simulator) : option sim_message * simulator :=
  if _closing s then (None, s) else
  match _message_queues s !! address with
  | None => (None, s)
  | Some q =>
      match list_find (λ m, destination_port m = port) q with
      | None => (None, s)
      | Some (i, msg) => (Some msg, set_queues (<[address := delete i q]> (_message_queues s)) s)
      end
  end.

(** [retrieve_message(address, timeout)]: waits until there is a message, the
    simulator closes or the time is over. *)
Definition has_message (address : string) (s : simulator) : bool :=
  _closing s || match _message_queues s !! address with Some (_ :: _) => true | _ => false end.

Definition retrieve_message_for (meanwhile : simulator → simulator) (address : string) (s : simulator) :
    outcome sim_message * simulator :=
  let s := if has_message address s then s else meanwhile s in
  if negb (has_message address s) || _closing s then (Throw timeout_exception, s)
  else match retrieve_message address s with
       | (Some msg, s) => (Ret msg, s)
       | (None, s) => (Undef "front of an empty queue", s)
       end.

(** ** Paths *)

Definition edge (t : topology) (u v : string) : Prop := v ∈ neighbours t u.

(** [walk t u n v]: [n] edges lead from [u] to [v]. *)
Inductive walk (t : topology) (u : string) : nat → string → Prop :=
  | walk_nil : walk t u 0 u
  | walk_step n v w : walk t u n v → edge t v w → walk t u (S n) w.

(** A list of nodes, each with an edge to the next. *)
Fixpoint is_path (t : topology) (path : list string) : Prop :=
  match path with
  | u :: ((v :: _) as rest) => edge t u v ∧ is_path t rest
  | _ => True
  end.

Section search_proof.
Context (t : topology) (from to : string).

(** What holds before each round, for some depth [d] of the visited nodes: their
    parents are one less deep, the queue is sorted by depth and spans at most two
    depths, and every node that was taken from it is no deeper than it, is not the
    destination, and has had its neighbours visited. *)
Record searching (d : string → nat) (st : search) : Prop := {
  ok_from : from ∈ visited st ∧ d from = 0;
  ok_parent v : v ∈ visited st → v ≠ from →
    ∃ u, parent st !! v = Some u ∧ u ∈ visited st ∧ edge t u v ∧ d v = S (d u);
  ok_queue v : v ∈ queue st → v ∈ visited st;
  ok_nodup : NoDup (queue st);
  ok_sorted : StronglySorted (λ x y, d x ≤ d y) (queue st);
  ok_span x y : x ∈ queue st → y ∈ queue st → d y ≤ S (d x);
  ok_done u : u ∈ visited st → u ∉ queue st →
    u ≠ to ∧ (∀ v, edge t u v → v ∈ visited st ∧ d v ≤ S (d u)) ∧ (∀ x, x ∈ queue st → d u ≤ d x);
  ok_size v : v ∈ visited st → d v < size (visited st);
  ok_universe : visited st ⊆ universe t from
}.

(** The same while the neighbours of [current] are visited, of which [seen] were. *)
Record exploring (current : string) (seen : list string) (d : string → nat) (st : search) : Prop := {
  ex_from : from ∈ visited st ∧ d from = 0;
  ex_parent v : v ∈ visited st → v ≠ from →
    ∃ u, parent st !! v = Some u ∧ u ∈ visited st ∧ edge t u v ∧ d v = S (d u);
  ex_queue v : v ∈ queue st → v ∈ visited st ∧ d current ≤ d v ≤ S (d current);
  ex_nodup : NoDup (queue st);
  ex_sorted : StronglySorted (λ x y, d x ≤ d y) (queue st);
  ex_current : current ∈ visited st ∧ (current ∉ queue st) ∧ current ≠ to;
  ex_done u : u ∈ visited st → u ∉ queue st → u ≠ current →
    u ≠ to ∧ (∀ v, edge t u v → v ∈ visited st ∧ d v ≤ S (d u)) ∧ d u ≤ d current;
  ex_seen v : v ∈ seen → v ∈ visited st ∧ d v ≤ S (d current);
  ex_size v : v ∈ visited st → d v < size (visited st);
  ex_universe : visited st ⊆ universe t from
}.

Lemma sorted_snoc {A} (R : A → A → Prop) l x :
  StronglySorted R l → (∀ y, y ∈ l → R y x) → StronglySorted R (l ++ [x]).
Proof.
  induction 1 as [|y l Hl IH Hy]; intros Hx; cbn; [by repeat constructor|].
  constructor; [apply IH; intros z Hz; apply Hx; by right|].
  apply Forall_app. split; [done|]. constructor; [apply Hx; left|done].
Qed.

Lemma sorted_ext {A} (R R' : A → A → Prop) l :
  (∀ x y, x ∈ l → y ∈ l → R x y → R' x y) → StronglySorted R l → StronglySorted R' l.
Proof.
  intros HR. induction 1 as [|y l Hl IH Hy]; constructor.
  - apply IH. intros x z Hx Hz. apply HR; by right.
  - rewrite Forall_forall in Hy |- *. intros x Hx. apply HR; [left|by right|by apply Hy].
Qed.

Lemma universe_edge u v : edge t u v → v ∈ universe t from.
Proof.
  intros He. unfold universe. apply elem_of_union_r, elem_of_list_to_set, list_elem_of_In, in_concat.
  exists (neighbours t u). split; [|by apply list_elem_of_In]. apply in_map, list_elem_of_In.
  unfold edge, neighbours in He. destruct (t !! u) as [edges|] eqn:E; [|by apply elem_of_nil in He].
  apply list_elem_of_fmap. exists (u, edges). split; [done|]. by apply elem_of_map_to_list.
Qed.

(** A node that was not visited is one deeper than the current one. *)
Lemma visit_new current seen d st n :
  exploring current seen d st → edge t current n → n ∉ visited st →
  exploring current (n :: seen) (λ v, if decide (v = n) then S (d current) else d v)
    (mk_search (queue st ++ [n]) ({[n]} ∪ visited st) (<[n := current]> (parent st))).
Proof.
  intros [[Hf Hd0] Hpar Hq Hnd Hsort (Hcv & Hcq & Hct) Hdone Hseen Hsize Huni] Hn Hnew.
  set (d' := λ v, if decide (v = n) then S (d current) else d v).
  assert (∀ v, v ∈ visited st → d' v = d v) as Hold.
  { intros v Hv. unfold d'. rewrite decide_False; [done|]. intros ->. done. }
  assert (d' n = S (d current)) as Hdn by (unfold d'; by rewrite decide_True).
  assert (size ({[n]} ∪ visited st) = S (size (visited st))) as Hsz.
  { rewrite size_union, size_singleton; [done|set_solver]. }
  split; cbn [queue visited parent]; rewrite ?Hsz; try (rewrite (Hold current) by done).
  - split; [set_solver|]. by rewrite Hold.
  - intros v [->%elem_of_singleton|Hv]%elem_of_union Hne.
    + exists current. rewrite lookup_insert_eq, Hdn, Hold by done. set_solver.
    + destruct (Hpar v Hv Hne) as (u & Hu & Huv & He & Hd). exists u.
      rewrite lookup_insert_ne by (intros ->; done). rewrite !Hold by done. set_solver.
  - intros v [Hv| ->%list_elem_of_singleton]%elem_of_app; [|rewrite Hdn; split; [set_solver|lia]].
    destruct (Hq v Hv). rewrite Hold by done. split; [set_solver|done].
  - apply NoDup_app. split_and!; [done| |apply NoDup_singleton].
    intros v Hv ->%list_elem_of_singleton. by apply Hq in Hv as [? _].
  - apply sorted_snoc.
    + eapply sorted_ext; [|exact Hsort]. cbn. intros x y Hx Hy. rewrite !Hold by (by apply Hq). done.
    + intros y Hy. rewrite Hold by (by apply Hq). rewrite Hdn. by apply Hq.
  - split_and!; [set_solver| |done]. intros [Hc| ->%list_elem_of_singleton]%elem_of_app; done.
  - intros u [->%elem_of_singleton|Hu]%elem_of_union Hnq Hne; [set_solver|].
    destruct (Hdone u Hu) as (H1 & H2 & H3); [set_solver|done|]. rewrite (Hold u) by done. split_and!; [done| |done].
    intros v Hv. destruct (H2 v Hv). rewrite Hold by done. split; [set_solver|done].
  - intros v [->|Hv]%elem_of_cons; [rewrite Hdn; split; [set_solver|lia]|].
    destruct (Hseen v Hv). rewrite Hold by done. split; [set_solver|done].
  - intros v [->%elem_of_singleton|Hv]%elem_of_union.
    + rewrite Hdn. pose proof (Hsize current Hcv). lia.
    + rewrite Hold by done. pose proof (Hsize v Hv). lia.
  - intros v [->%elem_of_singleton|Hv]%elem_of_union; [by eapply universe_edge|by apply Huni].
Qed.

Lemma visit_exploring current seen d st n :
  exploring current seen d st → edge t current n →
  ∃ d', exploring current (n :: seen) d' (visit current st n).
Proof.
  intros E Hn. unfold visit. case_decide as Hv; [|eexists; by apply visit_new].
  exists d. destruct E as [Hf Hpar Hq Hnd Hsort (Hcv & Hcq & Hct) Hdone Hseen Hsize Huni]. split; try done.
  intros v [->|Hs]%elem_of_cons; [|by auto]. split; [done|].
  destruct (decide (n = current)) as [->|Hne]; [lia|].
  destruct (decide (n ∈ queue st)) as [Hin|Hnot]; [by apply Hq|].
  destruct (Hdone n Hv Hnot Hne) as (_ & _ & H). lia.
Qed.

Lemma explore_all current l seen d st :
  exploring current seen d st → (∀ n, n ∈ l → edge t current n) →
  ∃ d', exploring current (rev l ++ seen) d' (foldl (visit current) st l).
Proof.
  revert seen d st. induction l as [|n l IH]; intros seen d st E Hl; [by exists d|].
  destruct (visit_exploring current seen d st n E) as [d1 E1]; [apply Hl; left|].
  cbn [foldl]. destruct (IH (n :: seen) d1 (visit current st n) E1) as [d2 E2]; [intros m Hm; apply Hl; by right|].
  exists d2. cbn [rev]. by rewrite <- app_assoc.
Qed.

(** A round that does not end the search. *)
Lemma search_round d current rest vis par :
  searching d (mk_search (current :: rest) vis par) → current ≠ to →
  ∃ d', searching d' (foldl (visit current) (mk_search rest vis par) (neighbours t current)).
Proof.
  intros [Hf Hpar Hq Hnd Hsort Hspan Hdone Hsize Huni] Hne. cbn [queue visited parent] in *.
  apply NoDup_cons in Hnd as [Hcr Hnd]. apply StronglySorted_inv in Hsort as [Hsort Hhead].
  rewrite Forall_forall in Hhead.
  assert (exploring current [] d (mk_search rest vis par)) as E.
  { split; cbn [queue visited parent]; try done.
    - intros v Hv. split; [apply Hq; by right|]. split; [by apply Hhead|]. apply Hspan; [left|by right].
    - split_and!; [apply Hq; left|done|done].
    - intros u Hu Hnq Hnc. destruct (Hdone u Hu) as (H1 & H2 & H3); [by intros [?|?]%elem_of_cons|].
      split_and!; [done|done|]. apply H3. left.
    - intros v Hv. by apply elem_of_nil in Hv. }
  destruct (explore_all current (neighbours t current) [] d _ E) as [d' E']; [done|]. exists d'.
  destruct E' as [Hf' Hpar' Hq' Hnd' Hsort' (Hcv & Hcq & _) Hdone' Hseen' Hsize' Huni'].
  split; try done.
  - intros v Hv. by apply Hq'.
  - intros x y Hx Hy. destruct (Hq' x Hx) as [_ ?], (Hq' y Hy) as [_ ?]. lia.
  - intros u Hu Hnq. destruct (decide (u = current)) as [->|Hnc].
    + split_and!; [done| |intros x Hx; by apply Hq'].
      intros v Hv. apply Hseen'. rewrite app_nil_r. apply list_elem_of_In. rewrite <- in_rev.
      by apply list_elem_of_In.
    + destruct (Hdone' u Hu Hnq Hnc) as (H1 & H2 & H3). split_and!; [done|done|].
      intros x Hx. destruct (Hq' x Hx) as [_ ?]. lia.
Qed.

(** *** Termination: each round takes a node from the queue, and each node enters
    it once *)

Definition work (st : search) : nat := size (universe t from ∖ visited st) + length (queue st).

Lemma visit_work current st n : edge t current n → work (visit current st n) = work st.
Proof.
  intros He. unfold visit, work. case_decide as Hv; [done|]. cbn [visited queue]. rewrite length_app. cbn [length].
  assert (n ∈ universe t from) as Hn by (by eapply universe_edge).
  assert (size (universe t from ∖ visited st) = S (size (universe t from ∖ ({[n]} ∪ visited st)))) as ->; [|lia].
  assert (universe t from ∖ visited st = {[n]} ∪ (universe t from ∖ ({[n]} ∪ visited st))) as E.
  { apply set_eq. intros v. destruct (decide (v = n)) as [->|]; set_solver. }
  rewrite E at 1. rewrite size_union, size_singleton; [done|set_solver].
Qed.

Lemma explore_work current l st :
  (∀ n, n ∈ l → edge t current n) → work (foldl (visit current) st l) = work st.
Proof.
  revert st. induction l as [|n l IH]; intros st Hl; cbn [foldl]; [done|].
  rewrite IH by (intros m Hm; apply Hl; by right). apply visit_work, Hl. left.
Qed.

(** *** The path *)

Lemma is_path_snoc l u v : is_path t (l ++ [u]) → edge t u v → is_path t (l ++ [u; v]).
Proof.
  induction l as [|x l IH]; intros Hp He; cbn in *; [done|].
  destruct l as [|y l]; cbn in *; [tauto|]. destruct Hp. split; [done|]. by apply IH.
Qed.

Lemma walk_back_path d st fuel v :
  searching d st → v ∈ visited st → d v ≤ fuel →
  ∃ path, walk_back fuel from v (parent st) = Some path ∧ head path = Some v ∧ last path = Some from ∧
    length path = S (d v) ∧ is_path t (reverse path).
Proof.
  intros Hs. revert v. induction fuel as [|fuel IH]; intros v Hv Hd; cbn [walk_back]; case_decide as Hvf.
  - subst v. exists [from]. split_and!; try done. cbn. by rewrite (proj2 (ok_from _ _ Hs)).
  - destruct (ok_parent _ _ Hs v Hv Hvf) as (u & _ & _ & _ & E). lia.
  - subst v. exists [from]. split_and!; try done. cbn. by rewrite (proj2 (ok_from _ _ Hs)).
  - destruct (ok_parent _ _ Hs v Hv Hvf) as (u & Hpar & Huv & He & E).
    destruct (IH u Huv) as (path & Hw & Hh & Hl & Hlen & Hp); [lia|]. rewrite Hpar. exists (v :: path).
    rewrite Hw. split_and!; [done|done| |cbn; congruence|].
    + destruct path; [done|]. by rewrite last_cons_cons.
    + rewrite reverse_cons. destruct path as [|x path]; [done|]. cbn in Hh. injection Hh as ->.
      rewrite reverse_cons, <- app_assoc. apply is_path_snoc; [by rewrite <- reverse_cons|done].
Qed.

(** *** The path is a shortest one *)

Lemma walk_visited d st bound :
  searching d st → (∀ v, v ∈ visited st → d v < bound → v ∉ queue st) →
  ∀ n v, walk t from n v → n ≤ bound → v ∈ visited st ∧ d v ≤ n.
Proof.
  intros Hs Hq n v Hw. induction Hw as [|n v w Hw IH He]; intros Hb.
  - destruct (ok_from _ _ Hs). split; [done|lia].
  - destruct IH as [Hv Hd]; [lia|]. destruct (ok_done _ _ Hs v Hv) as (_ & Hn & _); [apply Hq; [done|lia]|].
    destruct (Hn w He). split; [done|lia].
Qed.

Lemma head_is_nearest d rest vis par n :
  searching d (mk_search (to :: rest) vis par) → walk t from n to → d to ≤ n.
Proof.
  intros Hs Hw. destruct (Nat.le_gt_cases (d to) n) as [|Hlt]; [done|].
  destruct (walk_visited d _ (d to) Hs) with n to as [_ H]; [|done|lia|done].
  intros v Hv Hd [->|Hin]%elem_of_cons; [lia|].
  pose proof (ok_sorted _ _ Hs) as Hsort. cbn in Hsort. apply StronglySorted_inv in Hsort as [_ Hh].
  rewrite Forall_forall in Hh. specialize (Hh v Hin). lia.
Qed.

Lemma empty_queue_no_walk d vis par n : searching d (mk_search [] vis par) → ¬ walk t from n to.
Proof.
  intros Hs Hw. destruct (walk_visited d _ n Hs) with n to as [Hv _]; [|done|lia|].
  - intros v _ _ Hin. by apply elem_of_nil in Hin.
  - destruct (ok_done _ _ Hs to Hv) as [H _]; [|done]. intros Hin. by apply elem_of_nil in Hin.
Qed.

Definition found (path : list string) : Prop :=
  (path = [] ∧ ∀ n, ¬ walk t from n to) ∨
  (head path = Some from ∧ last path = Some to ∧ is_path t path ∧ ∀ n, walk t from n to → length path ≤ S n).

Lemma search_loop_found fuel d st :
  searching d st → work st ≤ fuel → ∃ path, search_loop fuel t from to st = Some path ∧ found path.
Proof.
  revert d st. induction fuel as [|fuel IH]; intros d [[|current rest] vis par] Hs Hwork; cbn [search_loop queue].
  - exists []. split; [done|]. left. split; [done|]. intros n. by eapply empty_queue_no_walk.
  - unfold work in Hwork. cbn in Hwork. lia.
  - exists []. split; [done|]. left. split; [done|]. intros n. by eapply empty_queue_no_walk.
  - case_decide as Hto.
    + subst current. assert (to ∈ vis) as Hv by (apply (ok_queue _ _ Hs); left). cbn [visited parent].
      pose proof (ok_size _ _ Hs to Hv) as Hsz. cbn in Hsz.
      destruct (walk_back_path d _ (size vis) to Hs Hv) as (path & Hw & Hh & Hl & Hlen & Hp); [lia|].
      cbn [parent] in Hw. rewrite Hw. exists (reverse path). split; [done|]. right. split_and!.
      * by rewrite head_reverse.
      * by rewrite last_reverse.
      * done.
      * intros n Hwalk. rewrite length_reverse, Hlen. pose proof (head_is_nearest d rest vis par n Hs Hwalk). lia.
    + destruct (search_round d current rest vis par Hs Hto) as [d' Hs']. apply (IH d' _ Hs').
      rewrite explore_work by done. unfold work in *. cbn in *. lia.
Qed.

Lemma search_starts : searching (λ _, 0) (mk_search [from] {[from]} {[from := from]}).
Proof.
  split; cbn [queue visited parent].
  - set_solver.
  - intros v ->%elem_of_singleton Hne. done.
  - set_solver.
  - apply NoDup_singleton.
  - repeat constructor.
  - intros x y _ _. lia.
  - set_solver.
  - intros v _. rewrite size_singleton. lia.
  - unfold universe. set_solver.
Qed.
End search_proof.

Lemma path_is_walk t path u v :
  head path = Some u → last path = Some v → is_path t path → ∃ n, walk t u n v.
Proof.
  revert v. induction path as [|w path IH] using rev_ind; intros v Hh Hl Hp; [done|].
  rewrite last_snoc in Hl. injection Hl as ->. destruct path as [|x path] using rev_ind.
  { cbn in Hh. injection Hh as ->. exists 0. constructor. }
  clear IHpath. assert (is_path t (path ++ [x]) ∧ edge t x v) as [Hp' He].
  { clear -Hp. induction path as [|y path IH]; cbn in *; [tauto|].
    destruct path as [|z path]; cbn in *; [tauto|]. destruct Hp as [H1 H2]. apply IH in H2. tauto. }
  destruct (IH x) as [n Hw]; [|by rewrite last_snoc|done|].
  - by destruct path.
  - exists (S n). by econstructor.
Qed.

Lemma find_path_facts t from to :
  ∃ path, find_path t from to = Some path ∧
    (path = [] ↔ ∀ n, ¬ walk t from n to) ∧
    (path ≠ [] → head path = Some from ∧ last path = Some to ∧ is_path t path ∧
       ∀ n, walk t from n to → length path ≤ S n).
Proof.
  unfold find_path. case_decide as Hft.
  { subst to. exists [from]. split; [done|]. split.
    - split; [done|]. intros H. destruct (H 0). constructor.
    - intros _. split_and!; try done. intros n _. cbn. lia. }
  destruct (search_loop_found t from to (S (size (universe t from))) (λ _, 0) _ (search_starts t from to))
    as (path & E & Hf).
  { unfold work. cbn [visited queue length].
    assert (size (universe t from ∖ {[from]}) ≤ size (universe t from)) by (apply subseteq_size; set_solver). lia. }
  exists path. split; [done|]. destruct Hf as [[-> Hno]|(Hh & Hl & Hp & Hmin)]; [by split|].
  assert (path ≠ []) as Hne by (by intros ->). split; [|by intros _]. split; [done|].
  intros Hno. destruct (path_is_walk t path from to Hh Hl Hp) as [n Hw]. by apply Hno in Hw.
Qed.

(** The search always ends, and with a shortest path: the result is empty exactly
    when no edges lead from the source to the destination; otherwise it is a path
    from the one to the other along edges, with no more nodes than any other. *)
Theorem find_path_shortest t from to :
  ∃ path, find_path t from to = Some path ∧
    (path = [] ↔ ∀ n, ¬ walk t from n to) ∧
    (path ≠ [] → head path = Some from ∧ last path = Some to ∧ is_path t path ∧
       ∀ n, walk t from n to → length path ≤ S n).
Proof. apply find_path_facts. Qed.

(** ** Routing *)

Section routes.
Context (bernoulli : nat → Q → bool).

(** Draws change nothing but their number. *)
Lemma check_reliability_frame from to s :
  (check_reliability bernoulli from to s).2 = set_draws (draws (check_reliability bernoulli from to s).2) s.
Proof. destruct s. unfold check_reliability. cbn. by repeat case_match. Qed.

Lemma traverse_cons u v path delay s :
  traverse bernoulli (u :: v :: path) delay s =
  let '(ok, s) := check_reliability bernoulli u v s in
  if ok then traverse bernoulli (v :: path) (delay + apply_latency (_topology s) u v)%Z s else (None, s).
Proof. done. Qed.

Lemma traverse_frame path delay s :
  ∃ n, (traverse bernoulli path delay s).2 = set_draws n s.
Proof.
  revert delay s. induction path as [|u path IH]; intros delay s; [exists (draws s); by destruct s|].
  destruct path as [|v path]; [exists (draws s); by destruct s|]. rewrite traverse_cons.
  pose proof (check_reliability_frame u v s) as Hf. destruct (check_reliability bernoulli u v s) as [ok s'].
  cbn [snd] in Hf. destruct ok; [|exists (draws s'); done].
  destruct (IH (delay + apply_latency (_topology s') u v)%Z s') as [n Hn].
  exists n. rewrite Hn, Hf. by destruct s.
Qed.

(** Every link works always. *)
Definition perfect_links (s : simulator) : Prop :=
  ∀ u edges v e, _topology s !! u = Some edges → edges !! v = Some e → Qle_bool 1 (reliability e) = true.

Lemma edge_lookup t u v : edge t u v → ∃ edges e, t !! u = Some edges ∧ edges !! v = Some e.
Proof.
  unfold edge, neighbours. destruct (t !! u) as [edges|]; [|intros H; by apply elem_of_nil in H].
  intros ((v' & e) & -> & He)%list_elem_of_fmap. exists edges, e. split; [done|]. by apply elem_of_map_to_list in He.
Qed.

Lemma traverse_perfect path delay s :
  perfect_links s → is_path (_topology s) path → ∃ total, traverse bernoulli path delay s = (Some total, s).
Proof.
  intros Hperf. revert delay. induction path as [|u path IH]; intros delay Hp; [by eexists|].
  destruct path as [|v path]; [by eexists|]. destruct Hp as [He Hp]. rewrite traverse_cons.
  destruct (edge_lookup _ _ _ He) as (edges & e & Hu & Hv).
  assert (check_reliability bernoulli u v s = (true, s)) as ->; [|by apply IH].
  unfold check_reliability. rewrite Hu, Hv. by rewrite (Hperf u edges v e Hu Hv).
Qed.

(** Messages follow routes.  Where every link works, and the other threads leave the
    simulator started and the destination's queue as it is, a message between two
    nodes is delivered exactly when edges lead from its source to its destination,
    and it is then the last of the destination's queue.  On any network, a message
    without such a route is not delivered. *)
Theorem delivered_exactly_when_route meanwhile msg s q :
  _started s = true → has_node (source_address msg) s = true → has_node (destination_address msg) s = true →
  _message_queues s !! destination_address msg = Some q →
  (∀ s, _started (meanwhile s) = _started s ∧ _message_queues (meanwhile s) = _message_queues s) →
  let '(sent, s') := route_message bernoulli meanwhile msg s in
  (sent = true → ∃ n, walk (_topology s) (source_address msg) n (destination_address msg)) ∧
  (perfect_links s → (∃ n, walk (_topology s) (source_address msg) n (destination_address msg)) → sent = true) ∧
  _message_queues s' !! destination_address msg = Some (if sent then q ++ [msg] else q).
Proof.
  intros Hst Hsrc Hdst Hq Hmean. unfold route_message. rewrite Hst, Hsrc, Hdst. cbn [negb orb].
  destruct (find_path_facts (_topology s) (source_address msg) (destination_address msg))
    as (path & -> & Hnone & Hsome).
  destruct path as [|u path]; [split_and!; [done|intros _ [n Hw]; by apply (proj1 Hnone) in Hw|done]|].
  destruct Hsome as (Hh & Hl & Hp & _); [done|].
  pose proof (path_is_walk _ _ _ _ Hh Hl Hp) as Hwalk.
  destruct (traverse_frame (u :: path) 0 s) as [n Hn].
  destruct (traverse bernoulli (u :: path) 0 s) as [[total|] s1] eqn:Et; cbn [snd] in Hn; subst s1.
  2:{ split_and!; [done| |done]. intros Hperf _.
      destruct (traverse_perfect (u :: path) 0 s Hperf Hp) as [total E]. congruence. }
  destruct (Hmean (set_draws n s)) as [Hm1 Hm2].
  assert (∀ s1, _message_queues s1 = _message_queues s →
    _message_queues (deliver_message msg s1) !! destination_address msg = Some (q ++ [msg])) as Hdel.
  { intros s1 E. unfold deliver_message. rewrite E, Hq. cbn. apply lookup_insert_eq. }
  case_bool_decide; cbv zeta.
  - rewrite Hm1. change (_started (set_draws n s)) with (_started s). rewrite Hst. cbn [negb].
    split_and!; [by intros _|done|]. by apply Hdel.
  - split_and!; [by intros _|done|]. by apply Hdel.
Qed.
End routes.

(** Two nodes and a link each way. *)
Definition sample_link : network_edge := mk_edge 5 1.
Definition sample_network : simulator :=
  start (add_edge "b" "c" sample_link (add_edge "a" "b" sample_link (create_node "c" (create_node "b" (create_node "a"
    new_simulator))))).
Definition sample_datagram : sim_message := mk_message "a" "c" 80 [].

Lemma delivered_exactly_when_route_witness :
  let '(sent, s') := route_message (λ _ _, false) id sample_datagram sample_network in
  (sent = true → ∃ n, walk (_topology sample_network) "a" n "c") ∧
  (perfect_links sample_network → (∃ n, walk (_topology sample_network) "a" n "c") → sent = true) ∧
  _message_queues s' !! "c" = Some (if sent then [sample_datagram] else []).
Proof. by apply (delivered_exactly_when_route (λ _ _, false) id sample_datagram sample_network []). Defined.

(** A node that only an edge introduced has no queue: a message to it is reported as
    delivered and is nowhere. *)
Definition edge_network : simulator :=
  start (add_edge "a" "z" sample_link (create_node "a" new_simulator)).

Theorem edge_only_node_loses_messages :
  let msg := mk_message "a" "z" 80 [] in
  let '(sent, s') := route_message (λ _ _, false) id msg edge_network in
  sent = true ∧ has_node "z" edge_network = true ∧ (∀ address q, _message_queues s' !! address = Some q → q = []).
Proof.
  assert (route_message (λ _ _, false) id (mk_message "a" "z" 80 []) edge_network = (true, edge_network)) as E
    by (by vm_compute).
  cbv zeta. rewrite E. split_and!; [done|by vm_compute|].
  intros address q. assert (_message_queues edge_network = {["a" := []]}) as -> by (by vm_compute).
  by intros [_ <-]%lookup_singleton_Some.
Qed.

(** ** Queues *)

Inductive queue_op : Type :=
  | op_deliver (msg : sim_message)
  | op_retrieve (address : string) (port : N).

(** The operations in turn, and what each retrieval gave. *)
Fixpoint run_queue (ops : list queue_op) (s : simulator) : list (string * N * sim_message) * simulator :=
  match ops with
  | [] => ([], s)
  | op_deliver msg :: ops => run_queue ops (deliver_message msg s)
  | op_retrieve address port :: ops =>
      let '(got, s) := retrieve_for_port address port s in
      let '(trace, s) := run_queue ops s in
      (match got with Some msg => (address, port, msg) :: trace | None => trace end, s)
  end.

Definition for_port (address : string) (port : N) (m : sim_message) : Prop :=
  destination_address m = address ∧ destination_port m = port.
#[export] Instance for_port_dec address port m : Decision (for_port address port m).
Proof. unfold for_port. apply _. Defined.

Definition delivered_to (address : string) (port : N) (ops : list queue_op) : list sim_message :=
  omap (λ op, match op with
    | op_deliver m => if decide (for_port address port m) then Some m else None
    | op_retrieve _ _ => None
    end) ops.

Definition retrieved_from (address : string) (port : N) (trace : list (string * N * sim_message)) : list sim_message :=
  omap (λ '(a, p, m), if decide (a = address ∧ p = port) then Some m else None) trace.

Definition waiting (address : string) (port : N) (s : simulator) : list sim_message :=
  filter (λ m, destination_port m = port) (default [] (_message_queues s !! address)).

Lemma waiting_deliver address port msg s :
  is_Some (_message_queues s !! address) →
  waiting address port (deliver_message msg s) =
  waiting address port s ++ (if decide (for_port address port msg) then [msg] else []).
Proof.
  intros [q Hq]. unfold waiting, deliver_message, for_port.
  destruct (decide (destination_address msg = address)) as [<-|Hne].
  - rewrite Hq. cbn. rewrite lookup_insert_eq. cbn. rewrite filter_app. f_equal. cbn.
    repeat case_decide; naive_solver.
  - rewrite (decide_False (P := _ ∧ _)) by tauto. rewrite app_nil_r. case_match; [|done].
    cbn. by rewrite lookup_insert_ne.
Qed.

Lemma filter_none (P : sim_message → Prop) `{∀ m, Decision (P m)} q : Forall (λ m, ¬ P m) q → filter P q = [].
Proof. induction 1 as [|m q Hm Hq IH]; [done|]. by rewrite filter_cons_False. Qed.

Lemma filter_delete_first port (q : list sim_message) i m :
  list_find (λ m, destination_port m = port) q = Some (i, m) →
  filter (λ m, destination_port m = port) q = m :: filter (λ m, destination_port m = port) (delete i q).
Proof.
  intros (Hi & Hm & Hbefore)%list_find_Some. rewrite <- (take_drop_middle q i m Hi) at 1.
  rewrite delete_take_drop, !filter_app, filter_cons_True by done.
  assert (filter (λ m, destination_port m = port) (take i q) = []) as ->; [|done].
  apply filter_none, Forall_lookup. intros j x Hx. apply lookup_take_Some in Hx as [Hx Hj].
  by eapply Hbefore.
Qed.

Lemma filter_delete_other port' (q : list sim_message) i m :
  q !! i = Some m → destination_port m ≠ port' →
  filter (λ m, destination_port m = port') (delete i q) = filter (λ m, destination_port m = port') q.
Proof.
  intros Hi Hm. rewrite <- (take_drop_middle q i m Hi) at 2.
  by rewrite delete_take_drop, !filter_app, filter_cons_False.
Qed.

(** A retrieval takes the first message that waits for the port, and no other. *)
Lemma waiting_retrieve address port address' port' s :
  let '(got, s') := retrieve_for_port address' port' s in
  waiting address port s =
  (if decide (address' = address ∧ port' = port) then option_list got else []) ++ waiting address port s'.
Proof.
  unfold retrieve_for_port. destruct (_closing s); [by case_decide|].
  destruct (_message_queues s !! address') as [q|] eqn:Hq; [|by case_decide].
  destruct (list_find _ q) as [[i m]|] eqn:Hfind; [|by case_decide].
  pose proof Hfind as (Hi & Hm & _)%list_find_Some. unfold waiting. cbn [_message_queues set_queues].
  case_decide as Hsame.
  - destruct Hsame as [-> ->]. rewrite lookup_insert_eq, Hq. cbn. by apply filter_delete_first.
  - destruct (decide (address' = address)) as [->|Hne]; [|by rewrite lookup_insert_ne].
    rewrite lookup_insert_eq, Hq. cbn. symmetry. eapply filter_delete_other; [exact Hi|]. naive_solver.
Qed.

Lemma retrieve_keeps_queue address address' port s :
  is_Some (_message_queues s !! address) → is_Some (_message_queues (retrieve_for_port address' port s).2 !! address).
Proof.
  unfold retrieve_for_port. intros H. repeat case_match; try done. cbn.
  destruct (decide (address' = address)) as [->|]; [rewrite lookup_insert_eq; by eexists|by rewrite lookup_insert_ne].
Qed.

Lemma deliver_keeps_queue address msg s :
  is_Some (_message_queues s !! address) → is_Some (_message_queues (deliver_message msg s) !! address).
Proof.
  unfold deliver_message. intros H. case_match; [|done]. cbn.
  destruct (decide (destination_address msg = address)) as [<-|];
    [rewrite lookup_insert_eq; by eexists|by rewrite lookup_insert_ne].
Qed.

Lemma run_queue_split address port ops s :
  is_Some (_message_queues s !! address) →
  let '(trace, s') := run_queue ops s in
  waiting address port s ++ delivered_to address port ops =
  retrieved_from address port trace ++ waiting address port s'.
Proof.
  revert s. induction ops as [|[msg|address' port'] ops IH]; intros s Hs; cbn [run_queue].
  - by rewrite app_nil_r.
  - specialize (IH _ (deliver_keeps_queue address msg s Hs)). destruct (run_queue ops _) as [trace s'].
    rewrite <- IH, waiting_deliver by done. unfold delivered_to. cbn. rewrite <- app_assoc. f_equal. by case_decide.
  - pose proof (waiting_retrieve address port address' port' s) as Hw.
    pose proof (retrieve_keeps_queue address address' port' s Hs) as Hk.
    destruct (retrieve_for_port address' port' s) as [got s1]. cbn [snd] in Hk. specialize (IH s1 Hk).
    destruct (run_queue ops s1) as [trace s']. rewrite Hw, <- app_assoc.
    change (delivered_to address port (op_retrieve address' port' :: ops)) with (delivered_to address port ops).
    rewrite IH, app_assoc. f_equal. destruct got as [m|]; [|by case_decide].
    unfold retrieved_from at 2. cbn. by case_decide.
Qed.

(** Messages to a port come in the order they were sent, each once: after any
    deliveries and retrievals, for any addresses and ports, what was retrieved from
    an address for a port, followed by what waits there for it, is what was
    delivered to it. *)
Theorem messages_in_order address port ops s :
  _message_queues s !! address = Some [] →
  let '(trace, s') := run_queue ops s in
  delivered_to address port ops = retrieved_from address port trace ++ waiting address port s'.
Proof.
  intros Hq. pose proof (run_queue_split address port ops s) as H. destruct (run_queue ops s) as [trace s'].
  rewrite <- H by (by eexists). unfold waiting. by rewrite Hq.
Qed.

Lemma messages_in_order_witness :
  let m1 := mk_message "a" "c" 80 [] in let m2 := mk_message "a" "c" 81 [] in let m3 := mk_message "b" "c" 80 [x01] in
  let ops := [op_deliver m1; op_deliver m2; op_deliver m3; op_retrieve "c" 80; op_retrieve "c" 81] in
  [m1; m3] = [m1] ++ waiting "c" 80 (run_queue ops sample_network).2.
Proof. apply (messages_in_order "c" 80 [op_deliver (mk_message "a" "c" 80 []); op_deliver (mk_message "a" "c" 81 []);
  op_deliver (mk_message "b" "c" 80 [x01]); op_retrieve "c" 80; op_retrieve "c" 81] sample_network eq_refl). Defined.
