(* ===== verification/SimConnections.v ===== *)
(** Connections of the network simulator ([include/network_simulator/simulator_impl.hpp],
    [connection_impl.hpp], [listener_impl.hpp], [node_impl.hpp]): listeners and their
    ports, establishing connections with and without the pool, the data they carry,
    idle timeouts, and the operations of a node.

    A thread that waits or sleeps gives other threads a turn: [meanwhile] is what they
    do to the simulator. *)

From stdpp Require Import strings pretty.
From Stdlib Require Import QArith.
From S2P Require Import Prelude Types SimObjects NetworkSim.

Local Open Scope nat_scope.

(** ** Listeners *)

(** [listener->is_listening()] *)
Definition is_listening (s : simulator) (l : nat) : bool :=
  match listeners s !! l with Some o => Listener._listening o | None => false end.

(** [make_shared<listener_type>] and its entry in [_listeners]. *)
Definition add_listener (ep : endpoint) (s : simulator) : nat * simulator :=
  let l := next_object s in
  let s := set_next_object (S l) (set_listeners (<[l := Listener.create ep]> (listeners s)) s) in
  (l, set_listener_map (<[ep := l]> (_listeners s)) s).

Definition port_in_use (port : N) : exn := port_in_use_exception ("Port " +:+ pretty port +:+ " is already in use").

Definition create_listener (now : Z) (addr : string) (port : N) (s : simulator) : outcome nat * simulator :=
  if negb (_started s) then (Throw (runtime_error "Simulator not started"), s) else
  if negb (ListenerManager.is_endpoint_available (addr, port) (_listener_manager s)) then (Throw (port_in_use port), s) else
  let active := match _listeners s !! (addr, port) with Some l => is_listening s l | None => false end in
  if active then (Throw (port_in_use port), s) else
  let '(l, s) := add_listener (addr, port) s in
  (Ret l, set_manager (ListenerManager.register_listener now (addr, port) l (_listener_manager s)) s).

(** [for (unsigned short p = 49152; p <= 65535; ++p)]: the bound holds of every
    value, and after 65535 comes 0.  [None]: the loop goes on for ever. *)
Fixpoint scan_ports (fuel : nat) (used : N → bool) (candidate : N) : option N :=
  match fuel with
  | O => None
  | S fuel =>
      if (candidate <=? 65535)%N then
        if used candidate then scan_ports fuel used ((candidate + 1) mod 65536)%N else Some candidate
      else None
  end.

Definition ephemeral_start : N := 49152.

(** Within 65536 rounds every port was a candidate. *)
Definition first_free_port (used : N → bool) : option N := scan_ports (N.to_nat 65536) used ephemeral_start.

(** [create_listener(addr)]: the manager is not told.  A null listener when the
    simulator is not started. *)
Definition create_ephemeral_listener (addr : string) (s : simulator) : option (outcome (option nat)) * simulator :=
  if negb (_started s) then (Some (Ret None), s)
  else match first_free_port (λ port, bool_decide (is_Some (_listeners s !! (addr, port)))) with
       | None => (None, s)
       | Some port => let '(l, s) := add_listener (addr, port) s in (Some (Ret (Some l)), s)
       end.

(** [Listener::close] *)
Definition listener_close (l : nat) (s : simulator) : simulator :=
  set_listeners (alter Listener.close l (listeners s)) s.

(** [ListenerManager::close_listener] *)
Definition close_listener (ep : endpoint) (s : simulator) : simulator :=
  let '(m, ls) := ListenerManager.close_listener ep (_listener_manager s) (listeners s) in
  set_listeners ls (set_manager m s).

(** [Listener::accept()] and [accept(timeout)].  [None]: it still waits. *)
Section accept.
Context (meanwhile : simulator → simulator).

Definition take_pending (none : outcome (option nat)) (l : nat) (s : simulator) : outcome (option nat) * simulator :=
  match listeners s !! l with
  | None => (Undef "no listener", s)
  | Some o =>
      let '(r, o) := Listener.take_connection none o in
      (r, set_listeners (<[l := o]> (listeners s)) s)
  end.

Definition may_accept (l : nat) (s : simulator) : bool :=
  match listeners s !! l with Some o => Listener.acceptable o | None => false end.

Definition accept (l : nat) (s : simulator) : option (outcome (option nat)) * simulator :=
  let s := if may_accept l s then s else meanwhile s in
  if may_accept l s then let '(r, s) := take_pending (Ret None) l s in (Some r, s) else (None, s).

Definition accept_for (l : nat) (s : simulator) : outcome (option nat) * simulator :=
  let s := if may_accept l s then s else meanwhile s in
  take_pending (Throw timeout_exception) l s.
End accept.

(** ** Establishing connections *)

Definition endpoint_string (ep : endpoint) : string := ep.1 +:+ ":" +:+ pretty ep.2.

Definition connection_refused (dst : endpoint) (s : simulator) : exn :=
  runtime_error ("Connection refused: no listener on " +:+ endpoint_string dst +:+ ". Available listeners: " +:+
    foldr (λ kv rest, "(" +:+ endpoint_string kv.1 +:+ ") " +:+ rest) EmptyString (map_to_list (_listeners s))).

(** The two connections, their entries, and the one the listener hands out. *)
Definition connect_pair (now : Z) (src dst : endpoint) (l : nat) (s : simulator) : nat * simulator :=
  let client := next_object s in
  let server := S client in
  let objects := <[server := Connection.create dst src]> (<[client := Connection.create src dst]> (connections s)) in
  let s := set_next_object (S server) (set_connections objects s) in
  let s := set_connection_map (<[(dst, src) := server]> (<[(src, dst) := client]> (_connections s))) s in
  let s := set_tracker (ConnectionTracker.register_connection now dst src server
    (ConnectionTracker.register_connection now src dst client (_connection_tracker s))) s in
  (client, set_listeners (alter (Listener.queue_pending_connection server) l (listeners s)) s).

Section establish.
Context (now : Z) (meanwhile : simulator → simulator).

Definition establish_connection_internal (src dst : endpoint) (s : simulator) : outcome nat * simulator :=
  if negb (_started s) then (Throw (runtime_error "Simulator not started"), s) else
  match find_path (_topology s) src.1 dst.1 with
  | None | Some [] => (Throw (no_route_exception ("No route from " +:+ src.1 +:+ " to " +:+ dst.1)), s)
  | Some _ =>
      match _listeners s !! dst with
      | None => (Throw (connection_refused dst s), s)
      | Some l =>
          if negb (is_listening s l) then
            (Throw (runtime_error "Connection refused: listener not accepting connections"), s)
          else if bool_decide (0 < apply_latency (_topology s) src.1 dst.1)%Z then
            let s := meanwhile s in
            if negb (_started s) then (Throw (runtime_error "Simulator stopped during connection establishment"), s) else
            match _listeners s !! dst with
            | Some l =>
                if is_listening s l then let '(c, s) := connect_pair now src dst l s in (Ret c, s)
                else (Throw (runtime_error "Connection refused: listener unavailable after delay"), s)
            | None => (Throw (runtime_error "Connection refused: listener unavailable after delay"), s)
            end
          else let '(c, s) := connect_pair now src dst l s in (Ret c, s)
      end
  end.

Definition establish_connection (src dst : endpoint) (s : simulator) : outcome nat * simulator :=
  if enable_connection_pooling (_connection_config s) then
    let '(pooled, pool) := ConnectionPool.get_or_create_connection (is_open s) now dst (_connection_pool s) in
    let s := set_pool pool s in
    match pooled with
    | Some c => (Ret c, s)
    | None => establish_connection_internal src dst s
    end
  else establish_connection_internal src dst s.

Definition establish_connection_with_timeout (src dst : endpoint) (limit : Z) (s : simulator) : outcome nat * simulator :=
  let s := set_requests (_pending_connections s ++ [mk_request src dst now limit]) s in
  let '(r, s) := establish_connection src dst s in
  (r, set_requests (filter (λ req, ¬ (source req = src ∧ destination req = dst)) (_pending_connections s)) s).
End establish.

Definition is_expired (now : Z) (req : ConnectionRequest) : bool := (timeout req <? now - start_time req)%Z.

(** [cancel_expired_connections] does the same. *)
Definition process_connection_timeouts (now : Z) (s : simulator) : simulator :=
  set_requests (filter (λ req, is_expired now req = false) (_pending_connections s)) s.

Definition configure_connection_management (config : ConnectionConfig) (s : simulator) : simulator :=
  let s := set_config config s in
  if enable_connection_pooling config
  then set_pool (ConnectionPool.configure_pool (pool_config config) (_connection_pool s)) s else s.

(** [get_connection_pool().return_connection(conn)] *)
Definition return_connection (now : Z) (p : nat) (s : simulator) : simulator :=
  match connections s !! p with
  | None => s
  | Some c =>
      let '(closed, pool) :=
        ConnectionPool.return_connection (is_open s) now p (Connection._remote c) (_connection_pool s) in
      let s := set_pool pool s in
      match closed with Some q => close_connection q s | None => s end
  end.

Definition cleanup_stale_connections (now : Z) (s : simulator) : simulator :=
  set_pool (ConnectionPool.cleanup_stale_connections (is_open s) now (_connection_pool s)) s.

(** ** Data *)

Section data.
Context (bernoulli : nat → Q → bool) (now : Z) (meanwhile : simulator → simulator).

(** What [route_connection_data] does before it sleeps: the connection the data is
    for, and the delay. *)
Definition begin_route (id : connection_id) (s : simulator) : option (nat * Z) * simulator :=
  if negb (_started s) then (None, s) else
  match find_path (_topology s) id.1.1 id.2.1 with
  | None | Some [] => (None, s)
  | Some path =>
      match traverse bernoulli path 0 s with
      | (None, s) => (None, s)
      | (Some delay, s) =>
          match _connections s !! reversed id with
          | Some p => (if is_open s p then Some (p, delay) else None, s)
          | None => (None, s)
          end
      end
  end.

(** And after. *)
Definition finish_route (id : connection_id) (p : nat) (data : bytes) (s : simulator) : simulator :=
  let s := if enable_connection_tracking (_connection_config s)
    then set_tracker (ConnectionTracker.update_connection_stats now id.1 (N.of_nat (length data)) true (_connection_tracker s)) s
    else s in
  set_connections (alter (Connection.deliver_data data) p (connections s)) s.

Definition route_connection_data (id : connection_id) (data : bytes) (s : simulator) : bool * simulator :=
  match begin_route id s with
  | (None, s) => (false, s)
  | (Some (p, delay), s) =>
      if bool_decide (0 < delay)%Z then
        let s := meanwhile s in
        if negb (_started s) || negb (is_open s p) then (false, s) else (true, finish_route id p data s)
      else (true, finish_route id p data s)
  end.

(** [Connection::write] *)
Definition write (p : nat) (data : bytes) (s : simulator) : outcome bool * simulator :=
  match connections s !! p with
  | None => (Undef "no connection", s)
  | Some c =>
      if negb (Connection._open c) then (Throw connection_closed_exception, s)
      else let '(sent, s) := route_connection_data (Connection._connection_id c) data s in (Ret sent, s)
  end.

(** [write(data, timeout)] *)
Definition write_for (limit : Z) (p : nat) (data : bytes) (s : simulator) : outcome bool * simulator :=
  match connections s !! p with
  | None => (Undef "no connection", s)
  | Some c =>
      if negb (Connection._open c) then (Throw connection_closed_exception, s) else
      let id := Connection._connection_id c in
      match get_edge id.1.1 id.2.1 s with
      | Throw _ => (Throw timeout_exception, s)
      | Undef w => (Undef w, s)
      | Ret edge =>
          if bool_decide (limit < latency edge)%Z then (Throw timeout_exception, s) else
          let '(sent, s) := route_connection_data id data s in
          (if bool_decide (limit < 10)%Z then Throw timeout_exception else Ret sent, s)
      end
  end.

Definition take_buffered (none : outcome bytes) (p : nat) (s : simulator) : outcome bytes * simulator :=
  match connections s !! p with
  | None => (Undef "no connection", s)
  | Some c =>
      let '(r, c) := Connection.take_data none c in
      (r, set_connections (<[p := c]> (connections s)) s)
  end.

Definition may_read (p : nat) (s : simulator) : bool :=
  match connections s !! p with Some c => Connection.readable c | None => false end.

(** [Connection::read()].  [None]: it still waits. *)
Definition read (p : nat) (s : simulator) : option (outcome bytes) * simulator :=
  let s := if may_read p s then s else meanwhile s in
  if may_read p s then let '(r, s) := take_buffered (Ret []) p s in (Some r, s) else (None, s).

(** [read(timeout)] *)
Definition read_for (p : nat) (s : simulator) : outcome bytes * simulator :=
  let s := if may_read p s then s else meanwhile s in
  take_buffered (Throw timeout_exception) p s.
End data.

(** ** Idle connections *)

Section idle.
(** Whether the weak pointer can still be locked. *)
Context (now : Z) (alive : nat → bool) (meanwhile : simulator → simulator).
Import ConnectionTracker.

(** One round of the second loop of [process_idle_timeouts]; the mutex is free while
    the connection is closed. *)
Definition close_idle (ep : endpoint) : M simulator () := λ s,
  match _connection_info (_connection_tracker s) !! ep with
  | None => (Ret tt, s)
  | Some it =>
      let s := if alive (connection_ref it) && is_open s (connection_ref it)
        then meanwhile (close_connection (connection_ref it) s) else s in
      match _connection_info (_connection_tracker s) !! ep with
      | Some info =>
          if decide (node info = node it)
          then (Ret tt, set_tracker (set_info (<[ep := mark_idle info]> (_connection_info (_connection_tracker s)))
                 (_connection_tracker s)) s)
          else (Undef "use of an invalid iterator", s)
      | None => (Undef "use of an invalid iterator", s)
      end
  end.

Definition process_idle_timeouts : M simulator () := λ s,
  mfor (idle_connections now (_connection_tracker s)) close_idle s.
End idle.

(** ** A node *)

(** The simulator is absent when a ticket of its scope cannot be had. *)
Record node : Type := mk_node { _address : string; _used_ports : gset N }.
Definition node_world : Type := node * option simulator.

Definition unavailable : exn := runtime_error "Simulator not available".
Definition use_port (port : N) (n : node) : node := mk_node (_address n) ({[port]} ∪ _used_ports n).
Definition release_port (port : N) (n : node) : node := mk_node (_address n) (_used_ports n ∖ {[port]}).

(** [None]: it does not return. *)
Definition allocate_ephemeral_port (n : node) : option (N * node) :=
  match first_free_port (λ port, bool_decide (port ∈ _used_ports n)) with
  | Some port => Some (port, use_port port n)
  | None => None
  end.

Section node.
Context (now : Z) (meanwhile : simulator → simulator).

(** [connect(dst_addr, dst_port, src_port)] *)
Definition connect_from (dst : endpoint) (src_port : N) (w : node_world) : outcome nat * node_world :=
  match w with
  | (n, None) => (Throw unavailable, w)
  | (n, Some s) =>
      let n := use_port src_port n in
      let '(r, s) := establish_connection now meanwhile (_address n, src_port) dst s in
      (r, (n, Some s))
  end.

(** [connect(dst_addr, dst_port)] *)
Definition connect (dst : endpoint) (w : node_world) : option (outcome nat * node_world) :=
  match allocate_ephemeral_port w.1 with
  | None => None
  | Some (src_port, n) => Some (connect_from dst src_port (n, w.2))
  end.

(** [connect(dst_addr, dst_port, timeout)] *)
Definition connect_for (limit : Z) (dst : endpoint) (w : node_world) : option (outcome nat * node_world) :=
  match w with
  | (n, None) => Some (Throw unavailable, w)
  | (n, Some s) =>
      match allocate_ephemeral_port n with
      | None => None
      | Some (src_port, n) =>
          let '(r, s) := establish_connection_with_timeout now meanwhile (_address n, src_port) dst limit s in
          Some (r, (n, Some s))
      end
  end.

(** [bind()] *)
Definition bind_any (w : node_world) : option (outcome (option nat)) * node_world :=
  match w with
  | (n, None) => (Some (Throw unavailable), w)
  | (n, Some s) => let '(r, s) := create_ephemeral_listener (_address n) s in (r, (n, Some s))
  end.

(** [bind(port)] *)
Definition bind_port (port : N) (w : node_world) : outcome nat * node_world :=
  match w with
  | (n, None) => (Throw unavailable, w)
  | (n, Some s) =>
      let n := use_port port n in
      let '(r, s) := create_listener now (_address n) port s in (r, (n, Some s))
  end.

(** [bind(port, timeout)]: a port in use is reported as a timeout, and is released. *)
Definition bind_for (port : N) (w : node_world) : outcome nat * node_world :=
  match w with
  | (n, None) => (Throw unavailable, w)
  | (n, Some s) =>
      let n := use_port port n in
      match create_listener now (_address n) port s with
      | (Ret l, s) => (Ret l, (n, Some s))
      | (Throw (port_in_use_exception _), s) => (Throw timeout_exception, (release_port port n, Some s))
      | (Throw e, s) => (Throw e, (release_port port n, Some s))
      | (Undef w, s) => (Undef w, (n, Some s))
      end
  end.

(** [send], [receive()], [receive(timeout)] and [receive(port, timeout)] *)
Definition send (bernoulli : nat → Q → bool) (msg : sim_message) (w : node_world) : outcome bool * node_world :=
  match w with
  | (n, None) => (Throw unavailable, w)
  | (n, Some s) => let '(r, s) := route_message bernoulli meanwhile msg s in (Ret r, (n, Some s))
  end.

Definition receive (w : node_world) : outcome (option sim_message) * node_world :=
  match w with
  | (n, None) => (Throw unavailable, w)
  | (n, Some s) => let '(r, s) := retrieve_message (_address n) s in (Ret r, (n, Some s))
  end.

Definition receive_for (w : node_world) : outcome sim_message * node_world :=
  match w with
  | (n, None) => (Throw timeout_exception, w)
  | (n, Some s) => let '(r, s) := retrieve_message_for meanwhile (_address n) s in (r, (n, Some s))
  end.

(** The wait of [retrieve_message(address, port, timeout)] is over at once. *)
Definition has_port_message (address : string) (port : N) (s : simulator) : bool :=
  _closing s || existsb (λ m, (destination_port m =? port)%N) (default [] (_message_queues s !! address)).

Definition receive_on (port : N) (w : node_world) : outcome sim_message * node_world :=
  match w with
  | (n, None) => (Throw timeout_exception, w)
  | (n, Some s) =>
      let s := if has_port_message (_address n) port s then s else meanwhile s in
      match retrieve_for_port (_address n) port s with
      | (Some msg, s) => (Ret msg, (n, Some s))
      | (None, s) => (Throw timeout_exception, (n, Some s))
      end
  end.
End node.
