(* ===== verification/SimProofs.v ===== *)
(** What the connections of the network simulator promise: every pointer the
    simulator keeps is filed under the endpoints of its object, a connection gives its
    reader exactly the data that was written at the other end, in order, the pool
    hands out connections that can be used and keeps its bound, and what happens to
    ports, timeouts and idle connections. *)

From stdpp Require Import strings pretty.
From Stdlib Require Import QArith.
From S2P Require Import Prelude Types SimObjects NetworkSim SimConnections.

Local Open Scope nat_scope.

(** ** The invariant *)

Abbreviation connection_heap := (gmap nat Connection.t).
Abbreviation listener_heap := (gmap nat Listener.t).

Definition connection_at (h : connection_heap) (p : nat) (P : connection_id → Prop) : Prop :=
  ∃ c, h !! p = Some c ∧ P (Connection._connection_id c).

Definition listener_at (h : listener_heap) (l : nat) (ep : endpoint) : Prop :=
  ∃ o, h !! l = Some o ∧ Listener._local o = ep.

Definition queues_ok (h : connection_heap) (ls : listener_heap) : Prop :=
  ∀ l o p, ls !! l = Some o → p ∈ Listener._pending_connections o → connection_at h p (λ id, id.1 = Listener._local o).

Definition pool_ok (h : connection_heap) (pools : gmap endpoint (list ConnectionPool.PooledConnection)) : Prop :=
  ∀ ep pool pc, pools !! ep = Some pool → pc ∈ pool → connection_at h (ConnectionPool.connection pc) (λ id, id.2 = ep).

Definition tracker_ok (h : connection_heap) (infos : gmap endpoint ConnectionTracker.ConnectionInfo) : Prop :=
  ∀ ep i, infos !! ep = Some i →
    ConnectionTracker.local_endpoint i = ep ∧
    connection_at h (ConnectionTracker.connection_ref i) (λ id, id = (ep, ConnectionTracker.remote_endpoint i)).

Definition manager_ok (ls : listener_heap) (active : gmap endpoint ListenerManager.ListenerResource) : Prop :=
  ∀ ep r, active !! ep = Some r → ListenerManager.bound_endpoint r = ep ∧ listener_at ls (ListenerManager.listener r) ep.

Record sim_ok (s : simulator) : Prop := {
  connections_filed id p : _connections s !! id = Some p → connection_at (connections s) p (λ id', id' = id);
  listeners_filed ep l : _listeners s !! ep = Some l → listener_at (listeners s) l ep;
  manager_filed : manager_ok (listeners s) (ListenerManager._active_listeners (_listener_manager s));
  queues_filed : queues_ok (connections s) (listeners s);
  pool_filed : pool_ok (connections s) (ConnectionPool._connection_pools (_connection_pool s));
  tracker_filed : tracker_ok (connections s) (ConnectionTracker._connection_info (_connection_tracker s));
  objects_below p : is_Some (connections s !! p) ∨ is_Some (listeners s !! p) → p < next_object s
}.

(** *** Heaps *)

(** Objects stay and keep their endpoints; [same_objects]: and there are no others. *)
Definition keeps_connections (h h' : connection_heap) : Prop :=
  ∀ p c, h !! p = Some c → connection_at h' p (λ id, id = Connection._connection_id c).
Definition keeps_listeners (ls ls' : listener_heap) : Prop :=
  ∀ l o, ls !! l = Some o → listener_at ls' l (Listener._local o).

Lemma connection_at_keeps h h' p P : keeps_connections h h' → connection_at h p P → connection_at h' p P.
Proof. intros Hk (c & Hc & HP). destruct (Hk p c Hc) as (c' & Hc' & Hid). exists c'. split; [done|]. by rewrite Hid. Qed.

Lemma listener_at_keeps ls ls' l ep : keeps_listeners ls ls' → listener_at ls l ep → listener_at ls' l ep.
Proof. intros Hk (o & Ho & <-). by apply Hk. Qed.

Lemma keeps_connections_refl h : keeps_connections h h.
Proof. intros p c Hc. by exists c. Qed.
Lemma keeps_listeners_refl ls : keeps_listeners ls ls.
Proof. intros l o Ho. by exists o. Qed.

Lemma keeps_alter_connection f p h :
  (∀ c, Connection._connection_id (f c) = Connection._connection_id c) → keeps_connections h (alter f p h).
Proof.
  intros Hf q c Hc. destruct (decide (p = q)) as [->|Hne].
  - exists (f c). rewrite lookup_alter_eq, Hc. by rewrite Hf.
  - exists c. by rewrite lookup_alter_ne.
Qed.

Lemma keeps_alter_listener f l ls :
  (∀ o, Listener._local (f o) = Listener._local o) → keeps_listeners ls (alter f l ls).
Proof.
  intros Hf q o Ho. destruct (decide (l = q)) as [->|Hne].
  - exists (f o). rewrite lookup_alter_eq, Ho. by rewrite Hf.
  - exists o. by rewrite lookup_alter_ne.
Qed.

Lemma keeps_insert_connection p c h : h !! p = None → keeps_connections h (<[p := c]> h).
Proof. intros Hp q d Hd. exists d. split; [|done]. by rewrite lookup_insert_ne by (intros ->; congruence). Qed.

Lemma keeps_insert_listener l o ls : ls !! l = None → keeps_listeners ls (<[l := o]> ls).
Proof. intros Hl q d Hd. exists d. split; [|done]. by rewrite lookup_insert_ne by (intros ->; congruence). Qed.

Create HintDb sim.
#[local] Hint Resolve keeps_connections_refl keeps_listeners_refl keeps_insert_connection keeps_insert_listener : sim.

Lemma queues_ok_keeps h h' ls : keeps_connections h h' → queues_ok h ls → queues_ok h' ls.
Proof. intros Hk H l o p Ho Hp. eapply connection_at_keeps; eauto. Qed.
Lemma pool_ok_keeps h h' pools : keeps_connections h h' → pool_ok h pools → pool_ok h' pools.
Proof. intros Hk H ep pool pc Hpool Hpc. eapply connection_at_keeps; eauto. Qed.
Lemma tracker_ok_keeps h h' infos : keeps_connections h h' → tracker_ok h infos → tracker_ok h' infos.
Proof. intros Hk H ep i Hi. destruct (H ep i Hi) as [? ?]. split; [done|]. eapply connection_at_keeps; eauto. Qed.
Lemma manager_ok_keeps ls ls' active : keeps_listeners ls ls' → manager_ok ls active → manager_ok ls' active.
Proof. intros Hk H ep r Hr. destruct (H ep r Hr) as [? ?]. split; [done|]. eapply listener_at_keeps; eauto. Qed.

(** *** Changes of one field *)

Lemma ok_connections h s :
  sim_ok s → keeps_connections (connections s) h → (∀ p, is_Some (h !! p) → is_Some (connections s !! p)) →
  sim_ok (set_connections h s).
Proof.
  intros [H1 H2 H3 H4 H5 H6 H7] Hk Hdom. split; cbn.
  - intros id p Hp. eapply connection_at_keeps; eauto.
  - done.
  - done.
  - by eapply queues_ok_keeps.
  - by eapply pool_ok_keeps.
  - by eapply tracker_ok_keeps.
  - intros p [Hp|Hp]; apply H7; auto.
Qed.

Lemma ok_listeners ls s :
  sim_ok s → keeps_listeners (listeners s) ls → (∀ l, is_Some (ls !! l) → is_Some (listeners s !! l)) →
  queues_ok (connections s) ls → sim_ok (set_listeners ls s).
Proof.
  intros [H1 H2 H3 H4 H5 H6 H7] Hk Hdom Hq. split; cbn; try done.
  - intros ep l Hl. eapply listener_at_keeps; eauto.
  - by eapply manager_ok_keeps.
  - intros p [Hp|Hp]; apply H7; auto.
Qed.

Lemma ok_tracker k s :
  sim_ok s → tracker_ok (connections s) (ConnectionTracker._connection_info k) → sim_ok (set_tracker k s).
Proof. by intros [] ?; split. Qed.

Lemma ok_pool p s :
  sim_ok s → pool_ok (connections s) (ConnectionPool._connection_pools p) → sim_ok (set_pool p s).
Proof. by intros [] ?; split. Qed.

Lemma ok_manager m s :
  sim_ok s → manager_ok (listeners s) (ListenerManager._active_listeners m) → sim_ok (set_manager m s).
Proof. by intros [] ?; split. Qed.

Lemma ok_connection_map m s : sim_ok s → m ⊆ _connections s → sim_ok (set_connection_map m s).
Proof. intros [] Hm; split; cbn; try done. intros id p Hp. eapply connections_filed0, lookup_weaken; eauto. Qed.

Lemma ok_listener_map m s : sim_ok s → m ⊆ _listeners s → sim_ok (set_listener_map m s).
Proof. intros [] Hm; split; cbn; try done. intros ep l Hl. eapply listeners_filed0, lookup_weaken; eauto. Qed.

(** What is not an object or a pointer does not matter. *)
Lemma ok_irrelevant s s' :
  _connections s' = _connections s → _listeners s' = _listeners s → _connection_pool s' = _connection_pool s →
  _listener_manager s' = _listener_manager s → _connection_tracker s' = _connection_tracker s →
  connections s' = connections s → listeners s' = listeners s → next_object s' = next_object s →
  sim_ok s → sim_ok s'.
Proof. intros E1 E2 E3 E4 E5 E6 E7 E8 []. split; rewrite ?E1, ?E2, ?E3, ?E4, ?E5, ?E6, ?E7, ?E8; done. Qed.

(** *** The tracker *)

(** A change of an entry that keeps what it is about. *)
Definition same_entry (f : ConnectionTracker.ConnectionInfo → ConnectionTracker.ConnectionInfo) : Prop := ∀ i,
  ConnectionTracker.local_endpoint (f i) = ConnectionTracker.local_endpoint i ∧
  ConnectionTracker.remote_endpoint (f i) = ConnectionTracker.remote_endpoint i ∧
  ConnectionTracker.connection_ref (f i) = ConnectionTracker.connection_ref i.

Lemma tracker_ok_insert h infos ep f i :
  tracker_ok h infos → same_entry f → infos !! ep = Some i → tracker_ok h (<[ep := f i]> infos).
Proof.
  intros H Hf Hi ep' i' [[<- <-]|[_ Hi']]%lookup_insert_Some; [|by apply H].
  destruct (Hf i) as (-> & -> & ->). by apply H.
Qed.

Lemma tracker_ok_alter h infos ep f : tracker_ok h infos → same_entry f → tracker_ok h (alter f ep infos).
Proof.
  intros H Hf ep' i'. destruct (decide (ep = ep')) as [<-|Hne]; [|rewrite lookup_alter_ne by done; apply H].
  rewrite lookup_alter_eq. intros (i & Hi & ->)%fmap_Some. destruct (Hf i) as (-> & -> & ->). by apply H.
Qed.

Lemma tracker_ok_state h local st k :
  tracker_ok h (ConnectionTracker._connection_info k) →
  tracker_ok h (ConnectionTracker._connection_info (ConnectionTracker.update_connection_state local st k)).
Proof.
  intros H. unfold ConnectionTracker.update_connection_state. destruct (_ !! local) as [i|] eqn:Hi; [|done].
  destruct (ConnectionTracker.state_change_callback i); by apply (tracker_ok_insert _ _ _ (ConnectionTracker.set_state st)).
Qed.

Lemma tracker_ok_register h now local remote p k :
  tracker_ok h (ConnectionTracker._connection_info k) → connection_at h p (λ id, id = (local, remote)) →
  tracker_ok h (ConnectionTracker._connection_info (ConnectionTracker.register_connection now local remote p k)).
Proof. intros H Hp ep i. cbn. intros [[<- <-]|[_ Hi]]%lookup_insert_Some; [done|by apply H]. Qed.

(** *** Operations *)

Lemma notify_ok local s : sim_ok s → sim_ok (notify_connection_closed local s).
Proof.
  intros H. unfold notify_connection_closed. destruct (enable_connection_tracking _); [|done].
  apply ok_tracker; [done|]. by apply tracker_ok_state, tracker_filed.
Qed.

Lemma insert_as_alter {A} (f : A → A) (h : gmap nat A) p c : h !! p = Some c → <[p := f c]> h = alter f p h.
Proof.
  intros Hc. apply map_eq. intros q. destruct (decide (p = q)) as [<-|Hne].
  - by rewrite lookup_insert_eq, lookup_alter_eq, Hc.
  - by rewrite lookup_insert_ne, lookup_alter_ne.
Qed.

Lemma ok_alter_connection f p s :
  (∀ c, Connection._connection_id (f c) = Connection._connection_id c) →
  sim_ok s → sim_ok (set_connections (alter f p (connections s)) s).
Proof. intros Hf H. apply ok_connections; [done|by apply keeps_alter_connection|]. intros q. by rewrite lookup_alter_is_Some. Qed.

Lemma close_connection_ok p s : sim_ok s → sim_ok (close_connection p s).
Proof.
  intros H. unfold close_connection. destruct (connections s !! p) as [c|] eqn:Hc; [|done].
  apply notify_ok. rewrite (insert_as_alter _ _ _ _ Hc). by apply ok_alter_connection.
Qed.

(** A listener whose queue only loses connections. *)
Definition shrinks (f : Listener.t → Listener.t) : Prop := ∀ o,
  Listener._local (f o) = Listener._local o ∧ Listener._pending_connections (f o) ⊆ Listener._pending_connections o.

Lemma ok_alter_listener f l s : shrinks f → sim_ok s → sim_ok (set_listeners (alter f l (listeners s)) s).
Proof.
  intros Hf H. apply ok_listeners; [done|apply keeps_alter_listener, Hf| |].
  - intros q. by rewrite lookup_alter_is_Some.
  - intros q o p. destruct (decide (l = q)) as [<-|Hne]; [|rewrite lookup_alter_ne by done; apply H].
    rewrite lookup_alter_eq. intros (o' & Ho & ->)%fmap_Some Hp. destruct (Hf o') as [-> Hsub].
    eapply (queues_filed _ H); [done|]. by apply Hsub.
Qed.

Lemma closing_shrinks : shrinks (λ o, if Listener._listening o then Listener.close o else o).
Proof. intros o. by destruct (Listener._listening o). Qed.

Lemma close_objects_ok {K} (f : K → nat) (l : list K) s :
  sim_ok s → sim_ok (set_listeners (foldr (λ x, ListenerManager.close_object (f x)) (listeners s) l) s).
Proof.
  intros H. induction l as [|x l IH]; [by destruct s|]. cbn [foldr].
  pose proof (ok_alter_listener _ (f x) _ closing_shrinks IH). by destruct s.
Qed.

Lemma close_all_ok s : sim_ok s → sim_ok (close_all s).
Proof.
  intros H. unfold close_all.
  set (s1 := foldr _ s _). assert (sim_ok s1) as H1.
  { unfold s1. induction (map_to_list _) as [|[id p] l IH]; [done|]. cbn [foldr].
    destruct (is_open _ _); [by apply close_connection_ok|done]. }
  cbn [ListenerManager.cleanup_all_listeners]. clearbody s1. apply close_objects_ok.
  apply (close_objects_ok (λ kv : endpoint * ListenerManager.ListenerResource, ListenerManager.listener kv.2)
    (map_to_list (ListenerManager._active_listeners (_listener_manager s1)))) in H1.
  apply (ok_manager (ListenerManager.mk ∅ ∅)) in H1; [|done]. by destruct s1.
Qed.

Lemma set_started_ok b s : sim_ok s → sim_ok (set_started b s).
Proof. by apply ok_irrelevant. Qed.

Lemma stop_ok s : sim_ok s → sim_ok (stop s).
Proof. intros H. unfold stop. destruct (_started s); [|done]. by apply close_all_ok, set_started_ok. Qed.

Lemma sim_reset_ok s : sim_ok s → sim_ok (reset s).
Proof.
  intros H. apply (set_started_ok false), close_all_ok in H. unfold reset. set (s1 := close_all _) in *. clearbody s1.
  apply ok_listener_map; [|apply map_empty_subseteq]. apply ok_connection_map; [|apply map_empty_subseteq].
  eapply ok_irrelevant; [..|exact H]; done.
Qed.

Lemma remove_node_ok address s : sim_ok s → sim_ok (remove_node address s).
Proof.
  intros H. unfold remove_node. apply ok_listener_map; [|apply map_filter_subseteq].
  apply ok_connection_map; [|apply map_filter_subseteq]. eapply ok_irrelevant; [..|exact H]; done.
Qed.

Lemma fresh_object s : sim_ok s → ∀ p, next_object s ≤ p → connections s !! p = None ∧ listeners s !! p = None.
Proof.
  intros H p Hp. split; apply eq_None_not_Some; intros Hs; pose proof (objects_below _ H p); naive_solver lia.
Qed.

Lemma add_listener_ok ep s : sim_ok s → sim_ok (add_listener ep s).2.
Proof.
  intros H. destruct (fresh_object s H (next_object s)) as [Hc Hl]; [done|]. destruct H as [H1 H2 H3 H4 H5 H6 H7].
  pose proof (keeps_insert_listener _ (Listener.create ep) _ Hl) as Hk. split; cbn; try done.
  - intros ep' l [[<- <-]|[_ Hep]]%lookup_insert_Some.
    + exists (Listener.create ep). by rewrite lookup_insert_eq.
    + eapply listener_at_keeps; eauto.
  - by eapply manager_ok_keeps.
  - intros l o p [[<- <-]|[_ Ho]]%lookup_insert_Some Hp; [by apply elem_of_nil in Hp|by eapply H4].
  - intros p. rewrite lookup_insert_is_Some. intros [Hp|[<-|[_ Hp]]]; [|lia|]; assert (p < next_object s); auto.
Qed.

Lemma create_listener_ok now addr port s : sim_ok s → sim_ok (create_listener now addr port s).2.
Proof.
  intros H. unfold create_listener. destruct (_started s); cbn [negb]; [|done].
  destruct (ListenerManager.is_endpoint_available _ _); cbn [negb]; [|done].
  destruct (match _listeners s !! _ with Some _ => _ | None => _ end); [done|].
  pose proof (add_listener_ok (addr, port) s H) as H'. cbn [add_listener snd] in *. apply ok_manager; [done|].
  intros ep r. cbn. destruct (_ !! (addr, port)) as [r'|]; [apply (manager_filed _ H')|].
  intros [[<- <-]|[_ Hr]]%lookup_insert_Some; [|by apply (manager_filed _ H')].
  split; [done|]. apply (listeners_filed _ H'). apply lookup_insert_eq.
Qed.

Lemma create_ephemeral_listener_ok addr s : sim_ok s → sim_ok (create_ephemeral_listener addr s).2.
Proof.
  intros H. unfold create_ephemeral_listener. destruct (_started s); cbn [negb]; [|done].
  destruct (first_free_port _); [|done]. by apply add_listener_ok.
Qed.

Lemma listener_close_ok l s : sim_ok s → sim_ok (listener_close l s).
Proof. by apply ok_alter_listener. Qed.

Lemma close_listener_ok ep s : sim_ok s → sim_ok (close_listener ep s).
Proof.
  intros H. unfold close_listener, ListenerManager.close_listener. destruct (_ !! ep) as [r|]; [|by destruct s].
  apply (ok_manager (ListenerManager.mk (delete ep (ListenerManager._active_listeners (_listener_manager s)))
    (ListenerManager._allocated_ports (_listener_manager s) ∖ {[ep.2]}))) in H.
  - pose proof (ok_alter_listener _ (ListenerManager.listener r) _ closing_shrinks H). by destruct s.
  - intros ep' r'. cbn. intros [_ Hr]%lookup_delete_Some. by apply (manager_filed _ H).
Qed.

Lemma take_pending_ok none l s : sim_ok s → sim_ok (take_pending none l s).2.
Proof.
  intros H. unfold take_pending. destruct (listeners s !! l) as [o|] eqn:Ho; [|done].
  assert (shrinks (λ o, (Listener.take_connection none o).2)) as Hsh.
  { intros [lo [] [|p ps]]; cbn; split; try done; set_solver. }
  pose proof (ok_alter_listener _ l s Hsh H) as Hok. rewrite <- (insert_as_alter _ _ _ _ Ho) in Hok.
  by destruct (Listener.take_connection none o).
Qed.

Lemma connect_pair_ok now src dst l s :
  sim_ok s → listener_at (listeners s) l dst → sim_ok (connect_pair now src dst l s).2.
Proof.
  intros H Hl. destruct (fresh_object s H (next_object s)) as [Hc _]; [done|].
  destruct (fresh_object s H (S (next_object s))) as [Hd _]; [lia|].
  set (h := <[S (next_object s) := Connection.create dst src]> (<[next_object s := Connection.create src dst]> (connections s))).
  assert (keeps_connections (connections s) h) as Hk.
  { intros p c Hp. exists c. split; [|done]. unfold h. by rewrite !lookup_insert_ne by (intros E; subst p; congruence). }
  assert (connection_at h (next_object s) (λ id, id = (src, dst))) as Hclient.
  { eexists. unfold h. rewrite lookup_insert_ne by lia. by rewrite lookup_insert_eq. }
  assert (connection_at h (S (next_object s)) (λ id, id = (dst, src))) as Hserver.
  { eexists. unfold h. by rewrite lookup_insert_eq. }
  destruct H as [H1 H2 H3 H4 H5 H6 H7].
  pose proof (keeps_alter_listener (Listener.queue_pending_connection (S (next_object s))) l (listeners s)
    ltac:(intros o; unfold Listener.queue_pending_connection; by destruct (Listener._listening o))) as Hkl.
  split; cbn; fold h.
  - intros id p [[<- <-]|[_ [[<- <-]|[_ Hp]]%lookup_insert_Some]]%lookup_insert_Some; [done|done|].
    eapply connection_at_keeps; eauto.
  - intros ep l' Hl'. eapply listener_at_keeps; eauto.
  - by eapply manager_ok_keeps.
  - intros q o p. destruct (decide (l = q)) as [<-|Hne].
    + rewrite lookup_alter_eq. intros (o' & Ho & ->)%fmap_Some. unfold Listener.queue_pending_connection.
      destruct Hl as (o'' & Ho'' & <-). simplify_eq. destruct (Listener._listening o''); cbn.
      * intros [Hp|Hp]%elem_of_app; [eapply connection_at_keeps; eauto|].
        apply list_elem_of_singleton in Hp as ->. destruct Hserver as (c & Hc' & E). exists c. split; [done|]. by rewrite E.
      * intros Hp. eapply connection_at_keeps; eauto.
    + rewrite lookup_alter_ne by done. intros Ho Hp. eapply connection_at_keeps; eauto.
  - by eapply pool_ok_keeps.
  - intros ep i Hi.
    by apply (tracker_ok_register _ now dst src _ _ (tracker_ok_register _ now src dst _ _ (tracker_ok_keeps _ _ _ Hk H6) Hclient) Hserver).
  - intros p. rewrite lookup_alter_is_Some. unfold h. rewrite !lookup_insert_is_Some.
    intros [[<-|[_ [<-|[_ Hp]]]]|Hp]; [lia|lia| |]; assert (p < next_object s) by auto; lia.
Qed.

(** *** The pool *)

Lemma pool_ok_insert h pools ep pool :
  pool_ok h pools → (∀ pc, pc ∈ pool → connection_at h (ConnectionPool.connection pc) (λ id, id.2 = ep)) →
  pool_ok h (<[ep := pool]> pools).
Proof. intros H Hpool ep' pool' pc [[<- <-]|[_ Hp]]%lookup_insert_Some Hpc; [by apply Hpool|by eapply H]. Qed.

Lemma pool_ok_get h opened now ep p :
  pool_ok h (ConnectionPool._connection_pools p) →
  pool_ok h (ConnectionPool._connection_pools (ConnectionPool.get_or_create_connection opened now ep p).2).
Proof.
  intros H. unfold ConnectionPool.get_or_create_connection. destruct (_ !! ep) as [pool|] eqn:Hpool; [|done].
  destruct (list_find _ pool) as [[i pc]|] eqn:Hf; apply pool_ok_insert; try done.
  - apply list_find_Some in Hf as (Hi & _ & _). intros pc' [Hpc'|Hpc']%elem_of_app.
    + eapply H; [exact Hpool|]. apply list_elem_of_lookup in Hpc' as [j Hj]. rewrite list_lookup_delete in Hj.
      case_decide; by apply list_elem_of_lookup_2 in Hj.
    + apply list_elem_of_singleton in Hpc' as ->. cbn. eapply H; [exact Hpool|]. by eapply list_elem_of_lookup_2.
  - intros pc' [_ Hpc']%list_elem_of_filter. by eapply H.
Qed.

Lemma evict_subset opened pool pc : pc ∈ (ConnectionPool.evict_lru_connection opened pool).2 → pc ∈ pool.
Proof.
  unfold ConnectionPool.evict_lru_connection. destruct pool as [|pc' pool]; [done|].
  destruct (ConnectionPool.least_recent _ _ _) as [i lru]. cbn [snd]. intros [j Hj]%list_elem_of_lookup.
  rewrite list_lookup_delete in Hj. case_decide; by apply list_elem_of_lookup_2 in Hj.
Qed.

Lemma return_connection_ok now p s : sim_ok s → sim_ok (return_connection now p s).
Proof.
  intros H. unfold return_connection. destruct (connections s !! p) as [c|] eqn:Hc; [|done].
  unfold ConnectionPool.return_connection. destruct (is_open s p); cbn [negb]; [|by destruct s].
  set (pool := default [] _).
  assert (∀ pc, pc ∈ pool → connection_at (connections s) (ConnectionPool.connection pc) (λ id, id.2 = Connection._remote c)) as Hpool.
  { unfold pool. destruct (ConnectionPool._connection_pools (_connection_pool s) !! Connection._remote c) as [pool'|] eqn:E;
      cbn; [|intros pc Hpc; by apply elem_of_nil in Hpc].
    intros pc. by apply (pool_filed _ H). }
  assert (∀ closed pool', (∀ pc, pc ∈ pool' → pc ∈ pool) →
    sim_ok (let s := set_pool (ConnectionPool.set_pools (<[Connection._remote c := pool' ++
        [ConnectionPool.mk_pooled p now now true]]> (ConnectionPool._connection_pools (_connection_pool s))) (_connection_pool s)) s in
      match closed with Some q => close_connection q s | None => s end)) as Hfin.
  { intros closed pool' Hsub. cbv zeta.
    match goal with |- context [set_pool ?q s] => assert (sim_ok (set_pool q s)) as H' end.
    { apply ok_pool; [done|]. apply pool_ok_insert; [by apply pool_filed|].
      intros pc [Hpc|Hpc]%elem_of_app; [by apply Hpool, Hsub|].
      apply list_elem_of_singleton in Hpc as ->. by exists c. }
    destruct closed; [by apply close_connection_ok|exact H']. }
  destruct (_ <=? _)%N; [|by apply (Hfin None)].
  pose proof (evict_subset (is_open s) pool) as Hsub. destruct (ConnectionPool.evict_lru_connection _ pool) as [closed pool'].
  by apply Hfin.
Qed.

Lemma cleanup_stale_connections_ok now s : sim_ok s → sim_ok (cleanup_stale_connections now s).
Proof.
  intros H. apply ok_pool; [done|]. intros ep pool pc. cbn.
  intros [(pool' & <- & Hp)%lookup_fmap_Some _]%map_lookup_filter_Some [_ Hpc]%list_elem_of_filter.
  by apply (pool_filed _ H ep pool').
Qed.

(** ** Executions *)

(** What threads do apart from reading and writing connections.  Establishing a
    connection appears by its two effects: the look into the pool, and the pair of
    connections that is made when, before or after the sleep, a listener was found. *)
Inductive op_step (s : simulator) : simulator → Prop :=
  | op_add_node a : op_step s (add_node a s)
  | op_remove_node a : op_step s (remove_node a s)
  | op_add_edge a b e : op_step s (add_edge a b e s)
  | op_remove_edge a b : op_step s (remove_edge a b s)
  | op_create_node a : op_step s (create_node a s)
  | op_start : op_step s (start s)
  | op_stop : op_step s (stop s)
  | op_reset : op_step s (reset s)
  | op_deliver_message msg : op_step s (deliver_message msg s)
  | op_retrieve_message a : op_step s (retrieve_message a s).2
  | op_retrieve_for_port a port : op_step s (retrieve_for_port a port s).2
  | op_draw n : op_step s (set_draws n s)
  | op_configure config : op_step s (configure_connection_management config s)
  | op_requests reqs : op_step s (set_requests reqs s)
  | op_closing : op_step s (set_closing true s)
  | op_create_listener now a port : op_step s (create_listener now a port s).2
  | op_create_ephemeral_listener a : op_step s (create_ephemeral_listener a s).2
  | op_listener_close l : op_step s (listener_close l s)
  | op_close_listener ep : op_step s (close_listener ep s)
  | op_accept none l : op_step s (take_pending none l s).2
  | op_pool now ep : op_step s (set_pool (ConnectionPool.get_or_create_connection (is_open s) now ep (_connection_pool s)).2 s)
  | op_connect now src dst l : _listeners s !! dst = Some l → is_listening s l = true → op_step s (connect_pair now src dst l s).2
  | op_return_connection now p : op_step s (return_connection now p s)
  | op_cleanup_stale_connections now : op_step s (cleanup_stale_connections now s)
  | op_close_connection p : op_step s (close_connection p s)
  | op_cleanup_connection ep : op_step s (set_tracker (ConnectionTracker.cleanup_connection ep (_connection_tracker s)) s)
  | op_set_callback ep f : op_step s (set_tracker (ConnectionTracker.set_state_change_callback ep f (_connection_tracker s)) s)
  | op_mark_idle ep i : ConnectionTracker._connection_info (_connection_tracker s) !! ep = Some i →
      op_step s (set_tracker (ConnectionTracker.set_info
        (<[ep := ConnectionTracker.mark_idle i]> (ConnectionTracker._connection_info (_connection_tracker s))) (_connection_tracker s)) s).

Lemma op_step_ok s s' : sim_ok s → op_step s s' → sim_ok s'.
Proof.
  intros H Hop. destruct Hop.
  all: try (eapply ok_irrelevant; [..|exact H]; done).
  - by apply remove_node_ok.
  - unfold remove_edge. case_match; [|done]. eapply ok_irrelevant; [..|exact H]; done.
  - unfold create_node. case_decide; [done|]. eapply ok_irrelevant; [..|exact H]; done.
  - unfold start. destruct (_started s); [done|by apply set_started_ok].
  - by apply stop_ok.
  - by apply sim_reset_ok.
  - unfold deliver_message. case_match; [|done]. eapply ok_irrelevant; [..|exact H]; done.
  - unfold retrieve_message. repeat case_match; try done. eapply ok_irrelevant; [..|exact H]; done.
  - unfold retrieve_for_port. repeat case_match; try done. eapply ok_irrelevant; [..|exact H]; done.
  - unfold configure_connection_management. cbn. destruct (enable_connection_pooling config).
    + by destruct H; split.
    + eapply ok_irrelevant; [..|exact H]; done.
  - by apply create_listener_ok.
  - by apply create_ephemeral_listener_ok.
  - by apply listener_close_ok.
  - by apply close_listener_ok.
  - by apply take_pending_ok.
  - apply ok_pool; [done|]. by apply pool_ok_get, pool_filed.
  - apply connect_pair_ok; [done|]. by apply (listeners_filed _ H).
  - by apply return_connection_ok.
  - by apply cleanup_stale_connections_ok.
  - by apply close_connection_ok.
  - apply ok_tracker; [done|]. intros ep' i. cbn. intros [_ Hi]%lookup_delete_Some. by apply (tracker_filed _ H).
  - apply ok_tracker; [done|]. apply tracker_ok_alter; [by apply tracker_filed|done].
  - apply ok_tracker; [done|]. apply tracker_ok_insert; [by apply tracker_filed|done|done].
Qed.

(** What is in the buffer of a connection; there is nothing in one that is yet to be made. *)
Definition buffered (h : connection_heap) (p : nat) : list bytes :=
  match h !! p with Some c => Connection._read_buffer c | None => [] end.

(** Operations that move no data. *)
Definition calm (h h' : connection_heap) : Prop := keeps_connections h h' ∧ ∀ p, buffered h' p = buffered h p.

#[local] Instance calm_preorder : PreOrder calm.
Proof.
  split; [by intros h; split; [apply keeps_connections_refl|]|].
  intros h1 h2 h3 [H1 H2] [H3 H4]. split; [|intros p; by rewrite H4].
  intros p c Hc. destruct (H1 p c Hc) as (c' & Hc' & <-). by apply H3.
Qed.

Lemma calm_close_connection p s : calm (connections s) (connections (close_connection p s)).
Proof.
  unfold close_connection, notify_connection_closed. destruct (connections s !! p) as [c|] eqn:Hc; [|done].
  cbn. set (h := <[p := _]> _). assert (calm (connections s) h); [|by destruct (enable_connection_tracking _)].
  unfold h. rewrite (insert_as_alter _ _ _ _ Hc). split; [by apply keeps_alter_connection|].
  intros q. unfold buffered. destruct (decide (p = q)) as [->|Hne]; [|by rewrite lookup_alter_ne].
  rewrite lookup_alter_eq. by destruct (connections s !! q).
Qed.

Lemma calm_close_all s : calm (connections s) (connections (close_all s)).
Proof.
  unfold close_all. cbn. induction (map_to_list (_connections s)) as [|[id p] l IH]; [done|]. cbn [foldr snd].
  destruct (is_open _ _); [|done]. etrans; [exact IH|apply calm_close_connection].
Qed.

Lemma calm_connect_pair now src dst l s :
  sim_ok s → calm (connections s) (connections (connect_pair now src dst l s).2).
Proof.
  intros H. destruct (fresh_object s H (next_object s)) as [Hc _]; [done|].
  destruct (fresh_object s H (S (next_object s))) as [Hd _]; [lia|]. cbn. split.
  - intros p c Hp. exists c. split; [|done]. by rewrite !lookup_insert_ne by (intros E; subst p; congruence).
  - intros p. unfold buffered. destruct (decide (p = S (next_object s))) as [->|Hp].
    { by rewrite lookup_insert_eq, Hd. }
    rewrite lookup_insert_ne by done. destruct (decide (p = next_object s)) as [->|Hp'].
    { by rewrite lookup_insert_eq, Hc. }
    by rewrite lookup_insert_ne by done.
Qed.

Lemma op_step_calm s s' : sim_ok s → op_step s s' → calm (connections s) (connections s').
Proof.
  intros H Hop. destruct Hop; try done.
  - unfold remove_edge. by case_match.
  - unfold create_node. by case_decide.
  - unfold start. by destruct (_started s).
  - unfold stop. destruct (_started s); [|done]. apply (calm_close_all (set_started false s)).
  - apply (calm_close_all (set_started false s)).
  - unfold deliver_message. by case_match.
  - unfold retrieve_message. by repeat case_match.
  - unfold retrieve_for_port. by repeat case_match.
  - unfold configure_connection_management. by destruct (enable_connection_pooling config).
  - unfold create_listener. cbn [add_listener]. by repeat (case_match; try done).
  - unfold create_ephemeral_listener. cbn [add_listener]. by repeat (case_match; try done).
  - unfold close_listener. by repeat case_match.
  - unfold take_pending. by repeat case_match.
  - by apply calm_connect_pair.
  - unfold return_connection. destruct (connections s !! p); [|done].
    destruct (ConnectionPool.return_connection _ _ _ _ _) as [[q|] pool]; [|done].
    apply (calm_close_connection q (set_pool pool s)).
  - apply calm_close_connection.
Qed.

(** *** Data under way *)

Inductive event : Type :=
  | wrote (p : nat) (data : bytes)
  | landed (p q : nat) (data : bytes)
  | lost (p : nat) (data : bytes)
  | got (p : nat) (data : bytes).

(** Who wrote it, for whom, and the data. *)
Abbreviation flight := (nat * nat * bytes)%type.

Section execution.
Context (bernoulli : nat → Q → bool).

(** A write that found the other end is under way until it lands in the buffer or is
    lost, because the simulator was stopped or the other end was closed. *)
Inductive step : simulator * list flight → list event → simulator * list flight → Prop :=
  | step_op s s' fl : op_step s s' → step (s, fl) [] (s', fl)
  | step_write s s' fl p c q delay data :
      connections s !! p = Some c → Connection._open c = true →
      begin_route bernoulli (Connection._connection_id c) s = (Some (q, delay), s') →
      step (s, fl) [wrote p data] (s', fl ++ [(p, q, data)])
  | step_land now s fl1 fl2 p c q data :
      connections s !! p = Some c →
      step (s, fl1 ++ (p, q, data) :: fl2) [if is_open s q then landed p q data else lost p data]
        (finish_route now (Connection._connection_id c) q data s, fl1 ++ fl2)
  | step_lose s fl1 fl2 p q data : step (s, fl1 ++ (p, q, data) :: fl2) [lost p data] (s, fl1 ++ fl2)
  | step_read s s' fl p data :
      take_buffered (Throw timeout_exception) p s = (Ret data, s') → step (s, fl) [got p data] (s', fl).

Inductive run : simulator * list flight → list event → simulator * list flight → Prop :=
  | run_nil w : run w [] w
  | run_step w tr w' tr' w'' : step w tr w' → run w' tr' w'' → run w (tr ++ tr') w''.

Lemma begin_route_some id s q delay s' :
  begin_route bernoulli id s = (Some (q, delay), s') →
  (∃ n, s' = set_draws n s) ∧ _connections s !! reversed id = Some q ∧ is_open s q = true.
Proof.
  unfold begin_route. destruct (_started s); cbn [negb]; [|done].
  destruct (find_path _ _ _) as [[|u path]|]; [done| |done].
  destruct (traverse_frame bernoulli (u :: path) 0 s) as [n Hn].
  destruct (traverse bernoulli (u :: path) 0 s) as [[total|] s1]; [|done]. cbn [snd] in Hn. subst s1. cbn.
  destruct (_connections s !! reversed id) as [p|] eqn:Hp; [|done].
  change (is_open (set_draws n s) p) with (is_open s p). destruct (is_open s p) eqn:Ho; [|done].
  intros [= <- <- <-]. split_and!; [by exists n|done|done].
Qed.

(** *** The data at the ends of a connection *)

Definition got_at (p : nat) (tr : list event) : list bytes :=
  omap (λ e, match e with got p' data => if decide (p' = p) then Some data else None | _ => None end) tr.
Definition landed_at (q : nat) (tr : list event) : list bytes :=
  omap (λ e, match e with landed _ q' data => if decide (q' = q) then Some data else None | _ => None end) tr.

(** What [p] wrote, and what became of it: it landed, was lost, or is under way. *)
Definition wrote_by (p : nat) (tr : list event) : list bytes :=
  omap (λ e, match e with wrote p' data => if decide (p' = p) then Some data else None | _ => None end) tr.
Definition settled_of (p : nat) (tr : list event) : list bytes :=
  omap (λ e, match e with
    | landed p' _ data | lost p' data => if decide (p' = p) then Some data else None
    | _ => None
    end) tr.
Definition flying_of (p : nat) (fl : list flight) : list bytes :=
  omap (λ f, if decide (f.1.1 = p) then Some f.2 else None) fl.

(** The two connections are the ends of one. *)
Definition mirrored (h : connection_heap) (p q : nat) : Prop :=
  ∃ c d, h !! p = Some c ∧ h !! q = Some d ∧ Connection._connection_id d = reversed (Connection._connection_id c).

Definition world_ok (w : simulator * list flight) : Prop :=
  sim_ok w.1 ∧ ∀ p q data, (p, q, data) ∈ w.2 → mirrored (connections w.1) p q.

Lemma mirrored_keeps h h' p q : keeps_connections h h' → mirrored h p q → mirrored h' p q.
Proof.
  intros Hk (c & d & Hc & Hd & E). destruct (Hk p c Hc) as (c' & Hc' & Ec). destruct (Hk q d Hd) as (d' & Hd' & Ed).
  exists c', d'. split_and!; [done|done|]. by rewrite Ec, Ed.
Qed.

Lemma finish_route_connections now id q data s :
  connections (finish_route now id q data s) = alter (Connection.deliver_data data) q (connections s).
Proof. unfold finish_route. by destruct (enable_connection_tracking _). Qed.

Lemma deliver_id data c : Connection._connection_id (Connection.deliver_data data c) = Connection._connection_id c.
Proof. unfold Connection.deliver_data. by destruct (Connection._open c). Qed.

Lemma finish_route_ok now id q data s : sim_ok s → sim_ok (finish_route now id q data s).
Proof.
  intros H. unfold finish_route. cbv zeta.
  match goal with |- sim_ok (set_connections _ ?s1) => assert (sim_ok s1) as H1 end.
  { destruct (enable_connection_tracking _); [|done]. apply ok_tracker; [done|].
    apply tracker_ok_alter; [by apply tracker_filed|done]. }
  apply ok_alter_connection; [apply deliver_id|done].
Qed.

Lemma take_buffered_spec p s data s' :
  take_buffered (Throw timeout_exception) p s = (Ret data, s') →
  ∃ c rest, connections s !! p = Some c ∧ Connection._open c = true ∧ Connection._read_buffer c = data :: rest ∧
    s' = set_connections (alter (Connection.set_read_buffer rest) p (connections s)) s.
Proof.
  unfold take_buffered, Connection.take_data. destruct (connections s !! p) as [c|] eqn:Hc; [|done].
  destruct (Connection._open c) eqn:Ho; cbn [negb]; [|done].
  destruct (Connection._read_buffer c) as [|data' rest] eqn:Hb; [done|]. intros [= -> <-].
  exists c, rest. split_and!; [done..|]. by rewrite (insert_as_alter _ _ _ _ Hc).
Qed.

Record step_spec (w : simulator * list flight) (tr : list event) (w' : simulator * list flight) : Prop := {
  spec_ok : world_ok w';
  spec_keeps : keeps_connections (connections w.1) (connections w'.1);
  spec_data q : buffered (connections w.1) q ++ landed_at q tr = got_at q tr ++ buffered (connections w'.1) q;
  spec_writes p : flying_of p w.2 ++ wrote_by p tr ≡ₚ settled_of p tr ++ flying_of p w'.2;
  spec_landed p q data : landed p q data ∈ tr → mirrored (connections w'.1) p q
}.

Lemma world_ok_keeps s s' fl fl' :
  world_ok (s, fl) → sim_ok s' → keeps_connections (connections s) (connections s') → fl' ⊆ fl → world_ok (s', fl').
Proof. intros [_ Hf] H Hk Hsub. split; [done|]. intros p q data Hin. cbn. eapply mirrored_keeps; [exact Hk|]. by eapply Hf, Hsub. Qed.

Lemma buffered_deliver q data h p :
  buffered (alter (Connection.deliver_data data) q h) p =
  buffered h p ++ (if decide (q = p) then if match h !! q with Some c => Connection._open c | None => false end then [data] else [] else []).
Proof.
  unfold buffered. case_decide as Hq; [subst p|by rewrite lookup_alter_ne, app_nil_r].
  rewrite lookup_alter_eq. destruct (h !! q) as [c|]; [|done]. cbn. unfold Connection.deliver_data.
  destruct (Connection._open c); [done|by rewrite app_nil_r].
Qed.

Lemma step_op_spec s s' fl : world_ok (s, fl) → op_step s s' → step_spec (s, fl) [] (s', fl).
Proof.
  intros Hw Hop. destruct (op_step_calm s s') as [Hk Hb]; [apply Hw|done|]. split; cbn.
  - eapply world_ok_keeps; [done|eapply op_step_ok; [apply Hw|done]|done|done].
  - done.
  - intros q. by rewrite app_nil_r, Hb.
  - intros p. by rewrite app_nil_r.
  - intros p q data Hin. by apply elem_of_nil in Hin.
Qed.

Lemma step_write_spec s s' fl p c q delay data :
  world_ok (s, fl) → connections s !! p = Some c →
  begin_route bernoulli (Connection._connection_id c) s = (Some (q, delay), s') →
  step_spec (s, fl) [wrote p data] (s', fl ++ [(p, q, data)]).
Proof.
  intros Hw Hc Hroute. destruct (begin_route_some _ _ _ _ _ Hroute) as ((n & ->) & Hq & _).
  destruct Hw as [Hs Hf]. destruct (connections_filed _ Hs _ _ Hq) as (d & Hd & Eid). split.
  - split; cbn; [eapply ok_irrelevant; [..|exact Hs]; done|]. intros p' q' data' [Hin|Hin]%elem_of_app; [by eapply Hf|].
    apply list_elem_of_singleton in Hin. simplify_eq. by exists c, d.
  - apply keeps_connections_refl.
  - intros q'. cbn. by rewrite app_nil_r.
  - intros p'. cbn. unfold flying_of. rewrite omap_app. cbn. by case_decide.
  - intros p' q' data' Hin. by apply list_elem_of_singleton in Hin.
Qed.

Lemma flying_middle p' p q data fl1 fl2 :
  flying_of p' (fl1 ++ (p, q, data) :: fl2) ≡ₚ (if decide (p = p') then [data] else []) ++ flying_of p' (fl1 ++ fl2).
Proof.
  unfold flying_of. rewrite !omap_app. cbn. case_decide; [|done].
  cbn. symmetry. apply Permutation_middle.
Qed.

Lemma step_land_spec now s fl1 fl2 p c q data :
  world_ok (s, fl1 ++ (p, q, data) :: fl2) → connections s !! p = Some c →
  step_spec (s, fl1 ++ (p, q, data) :: fl2) [if is_open s q then landed p q data else lost p data]
    (finish_route now (Connection._connection_id c) q data s, fl1 ++ fl2).
Proof.
  intros Hw Hc.
  assert (keeps_connections (connections s) (connections (finish_route now (Connection._connection_id c) q data s))) as Hk.
  { rewrite finish_route_connections. apply keeps_alter_connection, deliver_id. }
  split.
  - eapply world_ok_keeps; [exact Hw|by apply finish_route_ok, Hw|exact Hk|set_solver].
  - exact Hk.
  - intros q'. cbn [fst]. rewrite finish_route_connections, buffered_deliver. unfold is_open.
    destruct (connections s !! q) as [d|]; [destruct (Connection._open d)|]; cbn; case_decide; by rewrite ?app_nil_r.
  - intros p'. cbn [snd]. rewrite flying_middle. destruct (is_open s q); cbn; case_decide; by rewrite ?app_nil_r.
  - intros p' q' data' Hin. apply list_elem_of_singleton in Hin. destruct (is_open s q); [|done]. simplify_eq.
    eapply mirrored_keeps; [exact Hk|]. apply (proj2 Hw p q data), elem_of_app. right. left.
Qed.

Lemma step_lose_spec s fl1 fl2 p q data :
  world_ok (s, fl1 ++ (p, q, data) :: fl2) → step_spec (s, fl1 ++ (p, q, data) :: fl2) [lost p data] (s, fl1 ++ fl2).
Proof.
  intros Hw. split.
  - eapply world_ok_keeps; [exact Hw|apply Hw|apply keeps_connections_refl|set_solver].
  - apply keeps_connections_refl.
  - intros q'. cbn. by rewrite app_nil_r.
  - intros p'. cbn [snd]. rewrite flying_middle. cbn. case_decide; by rewrite ?app_nil_r.
  - intros p' q' data' Hin. by apply list_elem_of_singleton in Hin.
Qed.

Lemma step_read_spec s s' fl p data :
  world_ok (s, fl) → take_buffered (Throw timeout_exception) p s = (Ret data, s') → step_spec (s, fl) [got p data] (s', fl).
Proof.
  intros Hw (c & rest & Hc & Ho & Hb & ->)%take_buffered_spec.
  pose proof (keeps_alter_connection (Connection.set_read_buffer rest) p (connections s) ltac:(done)) as Hk. split.
  - eapply world_ok_keeps; [exact Hw|by apply ok_alter_connection, Hw|exact Hk|done].
  - exact Hk.
  - intros q. cbn. rewrite app_nil_r. unfold buffered. case_decide as Hq; [subst q|by rewrite lookup_alter_ne].
    by rewrite lookup_alter_eq, Hc.
  - intros p'. cbn. by rewrite app_nil_r.
  - intros p' q' data' Hin. by apply list_elem_of_singleton in Hin.
Qed.

Lemma step_meets_spec w tr w' : world_ok w → step w tr w' → step_spec w tr w'.
Proof.
  intros Hw Hstep. destruct Hstep.
  - by apply step_op_spec.
  - by eapply step_write_spec.
  - by apply step_land_spec.
  - by apply step_lose_spec.
  - by apply step_read_spec.
Qed.

Lemma run_meets_spec w tr w' : world_ok w → run w tr w' → step_spec w tr w'.
Proof.
  intros Hw Hrun. revert Hw. induction Hrun as [w|w tr w1 tr' w' Hstep _ IH]; intros Hw.
  - split; [done|apply keeps_connections_refl|intros q; by rewrite app_nil_r|intros p; by rewrite app_nil_r|].
    intros p q data Hin. by apply elem_of_nil in Hin.
  - destruct (step_meets_spec _ _ _ Hw Hstep) as [H1 H2 H3 H4 H5]. destruct (IH H1) as [G1 G2 G3 G4 G5]. split.
    + done.
    + intros p c Hc. destruct (H2 p c Hc) as (c' & Hc' & <-). by apply G2.
    + intros q. unfold landed_at, got_at. rewrite !omap_app, app_assoc. fold (landed_at q tr) (got_at q tr).
      rewrite H3, <- !app_assoc. f_equal. apply G3.
    + intros p. unfold wrote_by, settled_of. rewrite !omap_app, app_assoc. fold (wrote_by p tr) (settled_of p tr).
      rewrite H4, <- !app_assoc. f_equiv. apply G4.
    + intros p q data [Hin|Hin]%elem_of_app; [eapply mirrored_keeps; eauto|by eapply G5].
Qed.

Lemma new_world_ok : world_ok (new_simulator, []).
Proof.
  split; [|intros p q data Hin; by apply elem_of_nil in Hin]. split; cbn; try done.
  intros p [[? Hp]|[? Hp]]; by rewrite lookup_empty in Hp.
Qed.

(** C28. Connections are faithful streams.  In any execution of the simulator, with any
    interleaving of threads that build and change the network, listen, connect, pool,
    write, read, close, stop and reset: what was read from a connection, followed by
    what its buffer holds, is exactly what landed there, in that order; what landed
    was written by a connection with the mirrored endpoints; and each write landed
    once, was lost once or is still under way. *)
Theorem connections_are_streams tr s fl :
  run (new_simulator, []) tr (s, fl) →
  (∀ q, landed_at q tr = got_at q tr ++ buffered (connections s) q) ∧
  (∀ p q data, landed p q data ∈ tr → mirrored (connections s) p q) ∧
  (∀ p, wrote_by p tr ≡ₚ settled_of p tr ++ flying_of p fl).
Proof.
  intros Hrun. destruct (run_meets_spec _ _ _ new_world_ok Hrun) as [_ _ H3 H4 H5]. split_and!; [|done|].
  - intros q. exact (H3 q).
  - intros p. exact (H4 p).
Qed.

(** *** The operations of the code are executions *)

Lemma run_one w tr w' : step w tr w' → run w tr w'.
Proof. intros H. rewrite <- (app_nil_r tr). eapply run_step; [exact H|constructor]. Qed.

Lemma run_trans w tr w1 tr' w' : run w tr w1 → run w1 tr' w' → run w (tr ++ tr') w'.
Proof.
  induction 1 as [|w tr1 w1 tr2 w2 Hstep _ IH]; intros Hrun; [done|]. rewrite <- app_assoc.
  eapply run_step; [exact Hstep|]. by apply IH.
Qed.

(** Other threads, while one sleeps, whatever is under way. *)
Definition others (meanwhile : simulator → simulator) : Prop := ∀ s fl, ∃ tr, run (s, fl) tr (meanwhile s, fl).

Lemma begin_route_none id s s' : begin_route bernoulli id s = (None, s') → ∃ n, s' = set_draws n s.
Proof.
  unfold begin_route. destruct (_started s); cbn [negb]; [|intros [= <-]; exists (draws s); by destruct s].
  destruct (find_path _ _ _) as [[|u path]|]; [intros [= <-]; exists (draws s); by destruct s| |
    intros [= <-]; exists (draws s); by destruct s].
  destruct (traverse_frame bernoulli (u :: path) 0 s) as [n Hn].
  destruct (traverse bernoulli (u :: path) 0 s) as [[total|] s1]; cbn [snd] in Hn; subst s1; cbn.
  - destruct (_connections s !! reversed id) as [p|]; [|intros [= <-]; by exists n].
    destruct (is_open _ p); [done|]. intros [= <-]. by exists n.
  - intros [= <-]. by exists n.
Qed.

(** [Connection::write] reports success exactly when its data landed, and fails
    without a trace or with its data lost; in any case it is an execution. *)
Theorem write_is_execution now meanwhile p data s fl r s' :
  world_ok (s, fl) → others meanwhile → write bernoulli now meanwhile p data s = (Ret r, s') →
  ∃ tr, run (s, fl) tr (s', fl) ∧
    if r then ∃ q tr1, tr = wrote p data :: tr1 ++ [landed p q data] else tr = [] ∨ ∃ tr1, tr = wrote p data :: tr1 ++ [lost p data].
Proof.
  intros Hw Hothers. unfold write. destruct (connections s !! p) as [c|] eqn:Hc; [|done].
  destruct (Connection._open c) eqn:Ho; cbn [negb]; [|done]. unfold route_connection_data.
  destruct (begin_route bernoulli (Connection._connection_id c) s) as [[[q delay]|] s1] eqn:Hroute.
  2:{ intros [= <- <-]. destruct (begin_route_none _ _ _ Hroute) as [n ->]. exists []. split; [|by left].
      apply run_one, step_op, op_draw. }
  pose proof (step_write s s1 fl p c q delay data Hc Ho Hroute) as Hstep.
  pose proof (spec_ok _ _ _ (step_meets_spec _ _ _ Hw Hstep)) as Hw1.
  destruct (begin_route_some _ _ _ _ _ Hroute) as ((n & ->) & _ & Hq).
  assert (∀ tr s2, run (set_draws n s, fl ++ [(p, q, data)]) tr (s2, fl ++ [(p, q, data)]) →
    is_open s2 q = true →
    ∃ tr', run (s, fl) tr' (finish_route now (Connection._connection_id c) q data s2, fl) ∧
      ∃ q tr1, tr' = wrote p data :: tr1 ++ [landed p q data]) as Hland.
  { intros tr s2 Hrun Hopen. destruct (spec_keeps _ _ _ (run_meets_spec _ _ _ Hw1 Hrun) p c Hc) as (c' & Hc' & Eid).
    pose proof (step_land now s2 fl [] p c' q data Hc') as Hl. rewrite app_nil_r, Eid, Hopen in Hl.
    eexists. split; [|by exists q, tr]. eapply (run_step _ [wrote p data]); [exact Hstep|]. eapply run_trans; [exact Hrun|].
    by apply run_one. }
  case_bool_decide.
  2:{ intros [= <- <-]. apply (Hland []); [constructor|done]. }
  destruct (Hothers (set_draws n s) (fl ++ [(p, q, data)])) as [tr Hrun].
  set (s2 := meanwhile (set_draws n s)) in *. clearbody s2.
  destruct (negb (_started s2) || negb (is_open s2 q)) eqn:E; intros [= <- <-].
  - exists ([wrote p data] ++ tr ++ [lost p data]). split; [|right; by exists tr].
    eapply run_step; [exact Hstep|]. eapply run_trans; [exact Hrun|]. apply run_one.
    pose proof (step_lose s2 fl [] p q data) as Hl. by rewrite app_nil_r in Hl.
  - apply orb_false_iff in E as [_ E%negb_false_iff]. by apply (Hland tr).
Qed.
End execution.
