(* ===== verification/SimBehaviour.v ===== *)
(** The operations of the simulator's connections one by one: establishing a
    connection and talking over it, the pool, ports and listeners, timeouts, and idle
    connections. *)

From stdpp Require Import strings pretty.
From Stdlib Require Import QArith.
From S2P Require Import Prelude Types SimObjects NetworkSim SimConnections SimProofs.

Local Open Scope nat_scope.

(** ** Establishing a connection *)

Section establish.
Context (bernoulli : nat → Q → bool).

Lemma establish_internal_is_run now meanwhile src dst s fl :
  others bernoulli meanwhile →
  ∃ tr, run bernoulli (s, fl) tr ((establish_connection_internal now meanwhile src dst s).2, fl).
Proof.
  intros Hothers. unfold establish_connection_internal.
  assert (∀ s, ∃ tr, run bernoulli (s, fl) tr (s, fl)) as Hnil by (intros s1; exists []; constructor).
  destruct (_started s); cbn [negb]; [|apply Hnil]. destruct (find_path _ _ _) as [[|u path]|]; [apply Hnil| |apply Hnil].
  destruct (_listeners s !! dst) as [l|] eqn:Hl; [|apply Hnil].
  destruct (is_listening s l) eqn:Hlisten; cbn [negb]; [|apply Hnil].
  case_bool_decide.
  - destruct (Hothers s fl) as [tr Hrun]. set (s1 := meanwhile s) in *. clearbody s1.
    destruct (_started s1); cbn [negb]; [|by exists tr].
    destruct (_listeners s1 !! dst) as [l1|] eqn:Hl1; [|by exists tr].
    destruct (is_listening s1 l1) eqn:Hlisten1; [|by exists tr].
    eexists. eapply run_trans; [exact Hrun|]. apply run_one, step_op.
    pose proof (op_connect s1 now src dst l1 Hl1 Hlisten1) as Hop. by destruct (connect_pair now src dst l1 s1).
  - eexists. apply run_one, step_op.
    pose proof (op_connect s now src dst l Hl Hlisten) as Hop. by destruct (connect_pair now src dst l s).
Qed.

(** Establishing a connection, with or without the pool and the timeout, is an
    execution, and so keeps the simulator well formed. *)
Theorem establish_is_execution now meanwhile src dst limit s fl :
  others bernoulli meanwhile →
  ∃ tr, run bernoulli (s, fl) tr ((establish_connection_with_timeout now meanwhile src dst limit s).2, fl).
Proof.
  intros Hothers. unfold establish_connection_with_timeout.
  set (s1 := set_requests _ s). assert (run bernoulli (s, fl) [] (s1, fl)) as H1 by apply run_one, step_op, op_requests.
  assert (∃ tr, run bernoulli (s1, fl) tr ((establish_connection now meanwhile src dst s1).2, fl)) as [tr H2].
  { unfold establish_connection. destruct (enable_connection_pooling _); [|by apply establish_internal_is_run].
    pose proof (step_op bernoulli _ _ fl (op_pool s1 now dst)) as Hpool.
    destruct (ConnectionPool.get_or_create_connection _ _ _ _) as [[c|] pool]; [eexists; by apply run_one|].
    destruct (establish_internal_is_run now meanwhile src dst (set_pool pool s1) fl Hothers) as [tr Hrun].
    eexists. eapply run_step; [exact Hpool|exact Hrun]. }
  destruct (establish_connection now meanwhile src dst s1) as [r s2].
  eexists. eapply run_trans; [exact H1|]. eapply run_trans; [exact H2|]. apply run_one, step_op, op_requests.
Qed.

(** No pooled connection to the endpoint. *)
Definition not_pooled (dst : endpoint) (s : simulator) : Prop :=
  enable_connection_pooling (_connection_config s) = true → ConnectionPool._connection_pools (_connection_pool s) !! dst = None.

Lemma establish_fresh now src dst s l :
  _started s = true → (∃ n, walk (_topology s) src.1 n dst.1) → not_pooled dst s →
  _listeners s !! dst = Some l → is_listening s l = true →
  establish_connection now id src dst s = (Ret (next_object s), (connect_pair now src dst l s).2).
Proof.
  intros Hst [n Hw] Hpool Hl Hlisten.
  assert (establish_connection_internal now id src dst s = (Ret (next_object s), (connect_pair now src dst l s).2)) as E.
  { unfold establish_connection_internal. rewrite Hst. cbn [negb].
    destruct (find_path_facts (_topology s) src.1 dst.1) as (path & -> & Hnone & _).
    destruct path as [|u path]; [by apply (proj1 Hnone) in Hw|]. rewrite Hl, Hlisten. cbn [negb id]. case_bool_decide; [|done].
    by rewrite Hst, Hl, Hlisten. }
  unfold establish_connection. destruct (enable_connection_pooling _) eqn:Ep; [|done].
  unfold ConnectionPool.get_or_create_connection. rewrite Hpool by done. by destruct s.
Qed.

Lemma write_lands now id s p c q d data :
  connections s !! p = Some c → Connection._open c = true → Connection._connection_id c = id →
  _started s = true → (∃ n, walk (_topology s) id.1.1 n id.2.1) → perfect_links s →
  _connections s !! reversed id = Some q → connections s !! q = Some d → Connection._open d = true →
  write bernoulli now (λ s, s) p data s = (Ret true, finish_route now id q data s).
Proof.
  intros Hc Ho Hid Hst [n Hw] Hperf Hq Hd Hdo. unfold write. rewrite Hc, Ho, Hid. cbn [negb].
  unfold route_connection_data, begin_route. rewrite Hst. cbn [negb].
  destruct (find_path_facts (_topology s) id.1.1 id.2.1) as (path & -> & Hnone & Hsome).
  destruct path as [|u path]; [by apply (proj1 Hnone) in Hw|]. destruct Hsome as (_ & _ & Hp & _); [done|].
  destruct (traverse_perfect bernoulli (u :: path) 0 s Hperf Hp) as [total ->]. rewrite Hq.
  assert (is_open s q = true) as Hopen by (unfold is_open; by rewrite Hd). rewrite Hopen.
  case_bool_decide; [|done]. by rewrite Hst, Hopen.
Qed.

Lemma accept_first meanwhile l s o d rest :
  listeners s !! l = Some o → Listener._listening o = true → Listener._pending_connections o = d :: rest →
  accept meanwhile l s = (Some (Ret (Some d)), set_listeners (<[l := Listener.set_pending rest o]> (listeners s)) s).
Proof.
  intros Ho Hlis Hp. assert (may_accept l s = true) as E.
  { unfold may_accept, Listener.acceptable. by rewrite Ho, Hp. }
  unfold accept. rewrite !E. unfold take_pending, Listener.take_connection. by rewrite Ho, Hlis, Hp.
Qed.

Lemma read_first meanwhile p s c data rest :
  connections s !! p = Some c → Connection._open c = true → Connection._read_buffer c = data :: rest →
  read meanwhile p s = (Some (Ret data), set_connections (<[p := Connection.set_read_buffer rest c]> (connections s)) s).
Proof.
  intros Hc Ho Hb. assert (may_read p s = true) as E.
  { unfold may_read, Connection.readable. by rewrite Hc, Hb. }
  unfold read. rewrite !E. unfold take_buffered, Connection.take_data. by rewrite Hc, Ho, Hb.
Qed.

(** C29. Connecting works end to end.  On a started simulator with working links, when
    a listener without waiting connections listens at an endpoint that edges lead to
    and no connection to it is pooled: connecting returns a new connection, accepting
    returns its other end, what is written at the first is what the second reads, and
    the buffer is empty again. *)
Theorem connect_accept_write_read now src dst l o data s :
  sim_ok s → _started s = true → (∃ n, walk (_topology s) src.1 n dst.1) → perfect_links s → not_pooled dst s →
  src ≠ dst → _listeners s !! dst = Some l → listeners s !! l = Some o → Listener._listening o = true →
  Listener._pending_connections o = [] →
  ∃ c d s1 s2 s3 s4,
    establish_connection now id src dst s = (Ret c, s1) ∧ accept id l s1 = (Some (Ret (Some d)), s2) ∧
    write bernoulli now (λ s, s) c data s2 = (Ret true, s3) ∧ read id d s3 = (Some (Ret data), s4) ∧
    connections s !! c = None ∧ connections s !! d = None ∧ mirrored (connections s4) c d ∧ buffered (connections s4) d = [].
Proof.
  intros Hok Hst Hw Hperf Hpool Hne Hl Ho Hlisten Hpend.
  destruct (fresh_object s Hok (next_object s)) as [Hc _]; [done|].
  destruct (fresh_object s Hok (S (next_object s))) as [Hd _]; [lia|].
  assert (is_listening s l = true) as Hlis by (unfold is_listening; by rewrite Ho).
  set (c := next_object s) in *. set (d := S c) in *.
  pose proof (establish_fresh now src dst s l Hst Hw Hpool Hl Hlis) as E1. set (s1 := (connect_pair now src dst l s).2) in *.
  set (o1 := Listener.set_pending [d] o).
  assert (listeners s1 !! l = Some o1) as Ho1.
  { unfold s1. cbn. rewrite lookup_alter_eq, Ho. cbn. unfold Listener.queue_pending_connection. by rewrite Hlisten, Hpend. }
  set (s2 := set_listeners (<[l := Listener.set_pending [] o1]> (listeners s1)) s1).
  assert (accept id l s1 = (Some (Ret (Some d)), s2)) as E2.
  { by apply (accept_first _ _ _ o1). }
  assert (connections s2 !! c = Some (Connection.create src dst)) as Hc2.
  { unfold s2, s1. cbn. rewrite lookup_insert_ne by lia. apply lookup_insert_eq. }
  assert (connections s2 !! d = Some (Connection.create dst src)) as Hd2.
  { unfold s2, s1. cbn. apply lookup_insert_eq. }
  set (s3 := finish_route now (src, dst) d data s2).
  assert (write bernoulli now (λ s, s) c data s2 = (Ret true, s3)) as E3.
  { eapply (write_lands now (src, dst) s2 c _ d); [exact Hc2|done|done|done|exact Hw|exact Hperf| |exact Hd2|done].
    unfold s2, s1. cbn. apply lookup_insert_eq. }
  assert (connections s3 !! d = Some (Connection.set_read_buffer [data] (Connection.create dst src))) as Hd3.
  { unfold s3. by rewrite finish_route_connections, lookup_alter_eq, Hd2. }
  assert (connections s3 !! c = Some (Connection.create src dst)) as Hc3.
  { unfold s3. rewrite finish_route_connections, lookup_alter_ne by lia. exact Hc2. }
  exists c, d, s1, s2, s3, (set_connections (<[d := Connection.create dst src]> (connections s3)) s3).
  split_and!; try done.
  - by rewrite (read_first _ _ _ _ _ _ Hd3 eq_refl eq_refl).
  - exists (Connection.create src dst), (Connection.create dst src). cbn. rewrite lookup_insert_ne by lia. rewrite lookup_insert_eq. done.
  - unfold buffered. cbn. by rewrite lookup_insert_eq.
Qed.
End establish.

(** ** The pool *)

Section pool.
Import ConnectionPool.
Context (opened : nat → bool) (now : Z).

Definition capacity (p : t) : nat := N.to_nat (N.max 1 (max_connections_per_endpoint (_config p))).
Definition pool_bounded (p : t) : Prop := ∀ ep pool, _connection_pools p !! ep = Some pool → length pool ≤ capacity p.

Lemma least_recent_in best i pool full :
  full !! best.1 = Some best.2 → drop i full = pool → full !! (least_recent best i pool).1 = Some (least_recent best i pool).2.
Proof.
  revert best i. induction pool as [|pc pool IH]; intros best i Hbest Hdrop; [done|]. cbn [least_recent]. apply IH.
  - destruct (_ <? _)%Z; [|done]. cbn. rewrite <- (Nat.add_0_r i). by rewrite <- lookup_drop, Hdrop.
  - replace (S i) with (i + 1) by lia. by rewrite <- drop_drop, Hdrop.
Qed.

Lemma least_recent_least best i pool :
  (last_used (least_recent best i pool).2 <= last_used best.2)%Z ∧
  ∀ pc, pc ∈ pool → (last_used (least_recent best i pool).2 <= last_used pc)%Z.
Proof.
  revert best i. induction pool as [|pc pool IH]; intros best i; [by split; [|intros pc Hpc; apply elem_of_nil in Hpc]|].
  cbn [least_recent]. destruct (IH (if (last_used pc <? last_used best.2)%Z then (i, pc) else best) (S i)) as [H1 H2].
  assert (last_used (if (last_used pc <? last_used best.2)%Z then (i, pc) else best).2 <= Z.min (last_used best.2) (last_used pc))%Z as Hmin.
  { destruct (Z.ltb_spec (last_used pc) (last_used best.2)); cbn; lia. }
  split; [lia|]. intros pc' [->|Hpc']%elem_of_cons; [lia|by apply H2].
Qed.

(** Eviction takes exactly one connection, the least recently used, and closes it
    if it is open; the others stay in order. *)
Theorem evicts_least_recently_used pc rest :
  ∃ i lru, (pc :: rest) !! i = Some lru ∧ (∀ other, other ∈ pc :: rest → (last_used lru <= last_used other)%Z) ∧
    evict_lru_connection opened (pc :: rest) =
      (if opened (connection lru) then Some (connection lru) else None, delete i (pc :: rest)).
Proof.
  unfold evict_lru_connection. destruct (least_recent_least (0, pc) 1 rest) as [H1 H2].
  pose proof (least_recent_in (0, pc) 1 rest (pc :: rest) eq_refl eq_refl) as H3.
  destruct (least_recent (0, pc) 1 rest) as [i lru]. exists i, lru. split_and!; [done| |done].
  intros other [->|Hother]%elem_of_cons; [done|by apply H2].
Qed.

Lemma evict_length pool : pool ≠ [] → length (evict_lru_connection opened pool).2 = length pool - 1.
Proof.
  destruct pool as [|pc rest]; [done|]. intros _. destruct (evicts_least_recently_used pc rest) as (i & lru & Hi & _ & ->).
  cbn [snd]. rewrite length_delete; [lia|by eexists].
Qed.

Lemma return_bounded conn remote p : pool_bounded p → pool_bounded (return_connection opened now conn remote p).2.
Proof.
  intros H. unfold return_connection. destruct (opened conn); cbn [negb]; [|done].
  set (pool := default [] _). assert (length pool ≤ capacity p) as Hpool.
  { unfold pool. destruct (_connection_pools p !! remote) as [pool'|] eqn:E; [by eapply H|cbn; lia]. }
  assert (∀ closed pool', length pool' < capacity p → pool_bounded ((closed : option nat,
    set_pools (<[remote := pool' ++ [mk_pooled conn now now true]]> (_connection_pools p)) p).2)) as Hfin.
  { intros closed pool' Hlt ep pool1. cbn. intros [[<- <-]|[_ Hep]]%lookup_insert_Some; [|by eapply H].
    rewrite length_app. cbn. unfold capacity in *. cbn. lia. }
  destruct (N.leb_spec (max_connections_per_endpoint (_config p)) (N.of_nat (length pool))) as [Hle|Hlt].
  - destruct (decide (pool = [])) as [Hnil|Hnonnil]; [rewrite Hnil; apply (Hfin None []); unfold capacity; cbn; lia|].
    pose proof (evict_length pool Hnonnil) as Hlen. destruct (evict_lru_connection opened pool) as [closed pool'].
    apply Hfin. cbn in Hlen. destruct pool; [done|]. cbn in *. lia.
  - apply (Hfin None). unfold capacity. lia.
Qed.

Lemma get_bounded ep p : pool_bounded p → pool_bounded (get_or_create_connection opened now ep p).2.
Proof.
  intros H. unfold get_or_create_connection. destruct (_ !! ep) as [pool|] eqn:Hpool; [|done].
  destruct (list_find _ pool) as [[i pc]|] eqn:Hf; intros ep' pool'; cbn; intros [[<- <-]|[_ Hep]]%lookup_insert_Some;
    try by eapply H.
  - apply list_find_Some in Hf as (Hi & _). rewrite length_app, length_delete by (by eexists). cbn.
    apply lookup_lt_Some in Hi. specialize (H _ _ Hpool). unfold capacity in *. cbn. lia.
  - etrans; [apply length_filter|]. by eapply H.
Qed.

(** What the pool hands out can be used: the connection is open, and with health
    checks neither too old nor idle for too long; it is the first such, and it stays
    in the pool, now as the most recently used, with all the others.  When there is
    none, exactly the unusable ones are dropped. *)
Theorem pool_hands_out_usable ep p :
  match get_or_create_connection opened now ep p with
  | (Some c, p') => ∃ pool1 pc pool2, _connection_pools p !! ep = Some (pool1 ++ pc :: pool2) ∧ connection pc = c ∧
      usable opened now (_config p) pc = true ∧ Forall (λ pc, usable opened now (_config p) pc = false) pool1 ∧
      _connection_pools p' = <[ep := pool1 ++ pool2 ++ [mk_pooled c now (created pc) (is_healthy pc)]]> (_connection_pools p)
  | (None, p') => ∀ pool, _connection_pools p !! ep = Some pool →
      Forall (λ pc, usable opened now (_config p) pc = false) pool ∧ _connection_pools p' !! ep = Some []
  end.
Proof.
  unfold get_or_create_connection. destruct (_connection_pools p !! ep) as [pool|] eqn:Hpool; [|done].
  destruct (list_find _ pool) as [[i pc]|] eqn:Hf.
  - apply list_find_Some in Hf as (Hi & Hus & Hbefore). exists (take i pool), pc, (drop (S i) pool).
    rewrite take_drop_middle by done. split_and!; [done|done|done| |].
    + apply Forall_lookup. intros j x [Hx Hj]%lookup_take_Some. apply not_true_is_false. by apply (Hbefore j x).
    + cbn. by rewrite delete_take_drop, <- app_assoc.
  - apply list_find_None in Hf. intros pool' [= <-]. split.
    + eapply Forall_impl; [exact Hf|]. intros pc Hpc. by apply not_true_is_false.
    + cbn. rewrite lookup_insert_eq. f_equal. clear Hpool. induction Hf as [|pc pool Hpc _ IH]; [done|].
      by rewrite filter_cons_False.
Qed.
End pool.

(** The pool keeps its bound: with a fixed configuration no endpoint ever has more
    than [max_connections_per_endpoint] connections in the pool (or one, if that is 0). *)
Theorem pool_within_capacity (ops : list (ConnectionPool.t → ConnectionPool.t)) p :
  (∀ f, f ∈ ops → (∃ opened now conn remote, f = λ p, (ConnectionPool.return_connection opened now conn remote p).2) ∨
     (∃ opened now ep, f = λ p, (ConnectionPool.get_or_create_connection opened now ep p).2) ∨
     (∃ opened now, f = ConnectionPool.cleanup_stale_connections opened now)) →
  pool_bounded p → pool_bounded (foldl (λ p f, f p) p ops).
Proof.
  intros Hops Hp. revert p Hp. induction ops as [|f ops IH]; intros p Hp; [done|]. cbn [foldl]. apply IH.
  { intros g Hg. apply Hops. by right. }
  destruct (Hops f) as [(opened & now & conn & remote & ->)|[(opened & now & ep & ->)|(opened & now & ->)]]; [by left| | |].
  - by apply return_bounded.
  - by apply get_bounded.
  - intros ep pool. unfold ConnectionPool.cleanup_stale_connections. cbn.
    intros [(pool' & <- & Hp')%lookup_fmap_Some _]%map_lookup_filter_Some. etrans; [apply length_filter|by eapply Hp].
Qed.

Lemma pool_within_capacity_witness :
  pool_bounded (foldl (λ p f, f p) (ConnectionPool.mk ∅ ConnectionPool.default_config)
    [λ p, (ConnectionPool.return_connection (λ _, true) 5 7 ("b", 80%N) p).2]).
Proof.
  apply (pool_within_capacity [λ p, (ConnectionPool.return_connection (λ _, true) 5 7 ("b", 80%N) p).2]).
  - intros f ->%list_elem_of_singleton. left. by exists (λ _, true), 5%Z, 7, ("b", 80%N).
  - intros ep pool H. cbn in H. by rewrite lookup_empty in H.
Defined.

(** ** A network to try it on *)

Definition star : simulator :=
  start (add_edge "b" "c" (mk_edge 0 1) (add_edge "a" "c" (mk_edge 1000 1) (create_node "c" (create_node "b"
    (create_node "a" new_simulator))))).
Definition listening_star : simulator := (create_listener 0 "c" 80 star).2.

Definition server : endpoint := ("c", 80%N).
Definition after {A} (r : A * simulator) : simulator := r.2.

Lemma star_ok : sim_ok listening_star.
Proof.
  assert (sim_ok new_simulator) as H by apply new_world_ok.
  unfold listening_star, star.
  do 5 match goal with
  | |- sim_ok (create_listener _ _ _ _).2 => eapply op_step_ok; [|apply op_create_listener]
  | |- sim_ok (start _) => eapply op_step_ok; [|apply op_start]
  | |- sim_ok (add_edge _ _ _ _) => eapply op_step_ok; [|apply op_add_edge]
  | |- sim_ok (create_node _ _) => eapply op_step_ok; [|apply op_create_node]
  end.
  eapply op_step_ok; [|apply op_create_node]. by eapply op_step_ok; [|apply op_create_node].
Qed.

Lemma connect_accept_write_read_witness :
  ∃ c d s1 s2 s3 s4,
    establish_connection 0 id ("a", 5000%N) server listening_star = (Ret c, s1) ∧
    accept id 0 s1 = (Some (Ret (Some d)), s2) ∧
    write (λ _ _, false) 0 (λ s, s) c [x01] s2 = (Ret true, s3) ∧ read id d s3 = (Some (Ret [x01]), s4) ∧
    connections listening_star !! c = None ∧ connections listening_star !! d = None ∧
    mirrored (connections s4) c d ∧ buffered (connections s4) d = [].
Proof.
  apply (connect_accept_write_read (λ _ _, false) 0 ("a", 5000%N) server 0 (Listener.create server) [x01] listening_star).
  - exact star_ok.
  - by vm_compute.
  - exists 1. eapply (walk_step _ _ 0 "a"); [constructor|]. by vm_compute; left.
  - assert (map_Forall (λ _ edges, map_Forall (λ _ e, Qle_bool 1 (reliability e) = true) edges) (_topology listening_star)) as H
      by (apply (bool_decide_unpack _); by vm_compute).
    intros u edges v e Hu Hv. exact (H u edges Hu v e Hv).
  - intros _. by vm_compute.
  - done.
  - by vm_compute.
  - by vm_compute.
  - done.
  - done.
Defined.

(** ** The pool and whose connection it is *)

(** The pool looks at the destination only, and what it hands out stays in it: another
    node is given a connection that starts at the first node, and the first node is
    given it again. *)
Theorem pooled_connection_shared :
  let s1 := establish_connection 0 id ("a", 5000%N) server listening_star in
  let s2 := return_connection 0 1 (after s1) in
  let s3 := establish_connection 1 id ("b", 6000%N) server s2 in
  let s4 := establish_connection 2 id ("a", 5001%N) server (after s3) in
  s1.1 = Ret 1 ∧ s3.1 = Ret 1 ∧ s4.1 = Ret 1 ∧
  (Connection._local <$> connections (after s4) !! 1) = Some ("a", 5000%N).
Proof. by vm_compute. Qed.

(** ** Timeouts *)

(** A link of one second, and a limit of one millisecond: [connect] succeeds. *)
Theorem connect_timeout_ignored :
  match connect_for 0 id 1 server (mk_node "a" ∅, Some listening_star) with
  | Some (r, _) => latency <$> (_topology listening_star !! "a" ≫= (.!! "c")) = Some 1000%Z ∧ r = Ret 1
  | None => False
  end.
Proof. by vm_compute. Qed.

(** With a limit below ten milliseconds [write] reports a timeout for data that was
    delivered; and it reports one, without sending, whenever the route has more than
    one hop. *)
Theorem timed_write_reports :
  (let s := after (establish_connection 0 id ("b", 6000%N) server listening_star) in
   let '(r, s') := write_for (λ _ _, true) 0 id 9 1 [x01] s in
   r = Throw timeout_exception ∧ buffered (connections s') 2 = [[x01]]) ∧
  (let s := after (create_listener 0 "d" 80 (add_edge "c" "d" (mk_edge 0 1) listening_star)) in
   let s := after (establish_connection 0 id ("b", 6000%N) ("d", 80%N) s) in
   let p := next_object s - 2 in
   (write (λ _ _, true) 0 id p [x01] s).1 = Ret true ∧
   (write_for (λ _ _, true) 0 id 60000 p [x01] s).1 = Throw timeout_exception).
Proof. by vm_compute. Qed.

(** ** Listeners and their ports *)

(** A port in use is refused, and a listener closed through the manager gives its
    port back: creating it again works. *)
Theorem managed_port_reusable now addr port s l s' :
  sim_ok s → create_listener now addr port s = (Ret l, s') →
  create_listener now addr port s' = (Throw (port_in_use port), s') ∧
  (∃ l2 s2, create_listener now addr port (close_listener (addr, port) s') = (Ret l2, s2) ∧ l2 ≠ l ∧ is_listening s2 l = false ∧
    is_listening s2 l2 = true ∧ _listeners s2 !! (addr, port) = Some l2).
Proof.
  intros Hok. unfold create_listener at 1. destruct (_started s) eqn:Hst; cbn [negb]; [|done].
  destruct (ListenerManager.is_endpoint_available _ _) eqn:Hav; cbn [negb]; [|done].
  destruct (match _listeners s !! _ with Some _ => _ | None => _ end); [done|]. cbn [add_listener].
  apply bool_decide_eq_true in Hav. intros [= <- <-].
  set (s' := set_manager _ _).
  assert (_started s' = true) as Hst' by done.
  assert (ListenerManager._active_listeners (_listener_manager s') !! (addr, port) =
    Some (ListenerManager.mk_resource (next_object s) (addr, port) now true)) as Hact.
  { unfold s', ListenerManager.register_listener. cbn. rewrite Hav. cbn. apply lookup_insert_eq. }
  split.
  { unfold create_listener. rewrite Hst'. cbn [negb]. unfold ListenerManager.is_endpoint_available.
    by rewrite Hact, bool_decide_eq_false_2 by done. }
  set (s1 := close_listener (addr, port) s').
  assert (s1 = set_listeners (ListenerManager.close_object (next_object s) (listeners s'))
    (set_manager (ListenerManager.mk (delete (addr, port) (ListenerManager._active_listeners (_listener_manager s')))
      (ListenerManager._allocated_ports (_listener_manager s') ∖ {[port]})) s')) as E1.
  { unfold s1, close_listener, ListenerManager.close_listener. by rewrite Hact. }
  assert (is_listening s1 (next_object s) = false) as Hclosed.
  { rewrite E1. unfold is_listening, ListenerManager.close_object. cbn. by rewrite lookup_alter_eq, lookup_insert_eq. }
  unfold create_listener. replace (_started s1) with true by (by rewrite E1). cbn [negb].
  replace (ListenerManager.is_endpoint_available (addr, port) (_listener_manager s1)) with true.
  2:{ rewrite E1. unfold ListenerManager.is_endpoint_available. cbn. by rewrite lookup_delete_eq, bool_decide_eq_true_2. }
  replace (_listeners s1 !! (addr, port)) with (Some (next_object s)) by (rewrite E1; cbn; by rewrite lookup_insert_eq).
  cbn [negb]. rewrite Hclosed. cbn [add_listener].
  assert (next_object s1 = S (next_object s)) as En by (by rewrite E1).
  eexists _, _. split_and!; [reflexivity|rewrite En; lia| | |].
  - unfold is_listening in *. cbn. rewrite lookup_insert_ne by (rewrite En; lia). exact Hclosed.
  - unfold is_listening. cbn. by rewrite lookup_insert_eq.
  - cbn. apply lookup_insert_eq.
Qed.

Lemma managed_port_reusable_witness :
  create_listener 0 "c" 80 listening_star = (Throw (port_in_use 80), listening_star) ∧
  (∃ l2 s2, create_listener 0 "c" 80 (close_listener ("c", 80%N) listening_star) = (Ret l2, s2) ∧ l2 ≠ 0 ∧
    is_listening s2 0 = false ∧ is_listening s2 l2 = true ∧ _listeners s2 !! ("c", 80%N) = Some l2).
Proof.
  apply (managed_port_reusable 0 "c" 80 star 0 listening_star); [|reflexivity].
  assert (sim_ok new_simulator) as H by apply new_world_ok.
  eapply op_step_ok; [|apply op_start]. eapply op_step_ok; [|apply op_add_edge]. eapply op_step_ok; [|apply op_add_edge].
  eapply op_step_ok; [|apply op_create_node]. eapply op_step_ok; [|apply op_create_node].
  by eapply op_step_ok; [|apply op_create_node].
Defined.

(** A listener closed by its owner keeps its port, as the manager is not told; so
    does the listener of a node that was removed. *)
Theorem closed_listener_keeps_port :
  let s := listener_close 0 listening_star in
  let s' := create_node "c" (remove_node "c" listening_star) in
  is_listening s 0 = false ∧ (create_listener 1 "c" 80 s).1 = Throw (port_in_use 80) ∧
  _listeners s' !! server = None ∧ (create_listener 1 "c" 80 s').1 = Throw (port_in_use 80).
Proof. by vm_compute. Qed.

(** The manager frees a port for all nodes when one of them closes its listener. *)
Theorem ports_tracked_without_address :
  let s := close_listener server (after (create_listener 0 "b" 80 listening_star)) in
  ListenerManager.is_port_available 80 (_listener_manager s) = true ∧
  ListenerManager.get_listener ("b", 80%N) (_listener_manager s) = Some 1 ∧ is_listening s 1 = true.
Proof. by vm_compute. Qed.

(** Two connections to one server have the same local endpoint there, and the tracker
    knows only the second: closing the first marks the second as closed. *)
Theorem tracker_keeps_one_per_endpoint :
  let s := after (establish_connection 0 id ("a", 5000%N) server listening_star) in
  let s := after (establish_connection 0 id ("b", 6000%N) server s) in
  let s' := close_connection 2 s in
  let info s := ConnectionTracker.get_connection_info server (_connection_tracker s) in
  is_open s 2 = true ∧ is_open s 4 = true ∧
  (ConnectionTracker.remote_endpoint <$> info s) = Some ("b", 6000%N) ∧
  is_open s' 4 = true ∧ (ConnectionTracker.state <$> info s') = Some ConnectionTracker.CLOSED.
Proof. by vm_compute. Qed.

(** ** Ephemeral ports *)

Lemma scan_skips (k fuel : nat) (used : N → bool) (candidate : N) :
  (candidate + N.of_nat k <= 65536)%N → (candidate < 65536)%N →
  (∀ p, candidate <= p → p < candidate + N.of_nat k → used p = true)%N →
  scan_ports (k + fuel) used candidate = scan_ports fuel used ((candidate + N.of_nat k) mod 65536)%N.
Proof.
  revert candidate. induction k as [|k IH]; intros candidate Hk Hc Hused.
  { by rewrite N.add_0_r, N.mod_small. }
  cbn [Nat.add scan_ports]. rewrite (proj2 (N.leb_le _ _)) by lia. rewrite Hused by lia.
  destruct (N.eq_dec candidate 65535%N) as [->|Hne].
  - assert (k = 0) as -> by lia. done.
  - rewrite N.mod_small by lia. rewrite IH; [do 2 f_equal; lia|lia|lia|]. intros p Hp1 Hp2. apply Hused; lia.
Qed.

(** The first free port of the ephemeral range is chosen.  When the range is used
    up the search does not fail, as its bound is the largest value of its variable: it
    goes on with port 0, and never ends when every port is used. *)
Theorem ephemeral_port_chosen used :
  (∀ port, (ephemeral_start <= port <= 65535)%N → used port = false →
    (∀ p, ephemeral_start <= p → p < port → used p = true)%N → first_free_port used = Some port) ∧
  ((∀ p, ephemeral_start <= p → p <= 65535 → used p = true)%N →
    (used 0%N = false → first_free_port used = Some 0%N) ∧
    ((∀ p, p < ephemeral_start → used p = true)%N → first_free_port used = None)).
Proof.
  unfold first_free_port, ephemeral_start. split.
  - intros port Hp Hfree Hused.
    replace (N.to_nat 65536) with (N.to_nat (port - 49152) + S (N.to_nat (65535 - (port - 49152)))) by lia.
    rewrite scan_skips; [|lia|lia|intros p Hp1 Hp2; apply Hused; lia].
    replace ((49152 + N.of_nat (N.to_nat (port - 49152))) mod 65536)%N with port by (rewrite N.mod_small; lia).
    cbn [scan_ports]. rewrite (proj2 (N.leb_le _ _)) by lia. by rewrite Hfree.
  - intros Hused. replace (N.to_nat 65536) with (N.to_nat 16384 + N.to_nat 49152) by lia.
    rewrite scan_skips; [|lia|lia|intros p Hp1 Hp2; apply Hused; lia].
    replace ((49152 + N.of_nat (N.to_nat 16384)) mod 65536)%N with 0%N by (by rewrite N2Nat.id). split.
    + intros Hfree. replace (N.to_nat 49152) with (S (N.to_nat 49151)) by lia. cbn [scan_ports]. by rewrite Hfree.
    + intros Hrest. replace (N.to_nat 49152) with (N.to_nat 49152 + 0) by lia.
      rewrite scan_skips; [done|lia|lia|]. intros p Hp1 Hp2. apply Hrest. lia.
Qed.

(** A port that a node uses for a connection stays used, whatever becomes of the
    connection. *)
Theorem ports_never_released now meanwhile dst w r w' :
  connect now meanwhile dst w = Some (r, w') →
  ∃ port, (port ∉ _used_ports w.1) ∧ (_used_ports w'.1 = {[port]} ∪ _used_ports w.1).
Proof.
  unfold connect, allocate_ephemeral_port. destruct w as [n sim]. cbn.
  destruct (first_free_port _) as [port|] eqn:Hfree; [|done]. intros Hconn. exists port. split.
  - revert Hfree. unfold first_free_port. generalize (N.to_nat 65536) ephemeral_start. intros fuel.
    induction fuel as [|fuel IH]; intros candidate; [done|]. cbn [scan_ports]. destruct (candidate <=? 65535)%N; [|done].
    case_bool_decide; [apply IH|]. by intros [= <-].
  - revert Hconn. unfold connect_from. destruct sim as [s|]; cbn.
    + destruct (establish_connection _ _ _ _ _) as [r1 s1]. intros [= <- <-]. cbn. set_solver.
    + by intros [= <- <-].
Qed.

(** ** Idle connections *)

Section idle.
Import ConnectionTracker.
Context (now : Z) (alive : nat → bool) (meanwhile : simulator → simulator).

Abbreviation info_of s ep := (_connection_info (_connection_tracker s) !! ep).

(** Other threads leave the tracker's entries and the connections alone. *)
Hypothesis meanwhile_quiet : ∀ s,
  _connection_info (_connection_tracker (meanwhile s)) = _connection_info (_connection_tracker s) ∧
  connections (meanwhile s) = connections s.

Definition marked (i : ConnectionInfo) : Prop := state i = CLOSED ∧ last_error (stats i) = Some idle_error.

(** Entries stay, and connections are only closed. *)
Record progress (s s' : simulator) : Prop := {
  entries_stay ep i : info_of s ep = Some i →
    ∃ i', info_of s' ep = Some i' ∧ node i' = node i ∧ connection_ref i' = connection_ref i ∧ (marked i → marked i');
  only_closed q : is_open s' q = true → is_open s q = true
}.

#[local] Instance progress_preorder : PreOrder progress.
Proof.
  split; [intros s; split; [intros ep i Hi; by exists i|done]|]. intros s1 s2 s3 [H1 H2] [H3 H4]. split; [|auto].
  intros ep i Hi. destruct (H1 ep i Hi) as (i2 & Hi2 & En & Er & Hm). destruct (H3 ep i2 Hi2) as (i3 & Hi3 & En3 & Er3 & Hm3).
  exists i3. split_and!; [done|congruence|congruence|auto].
Qed.

Lemma close_connection_opens p s q : is_open (close_connection p s) q = is_open s q && bool_decide (q ≠ p).
Proof.
  unfold close_connection, notify_connection_closed, is_open. destruct (connections s !! p) as [c|] eqn:Hc.
  - replace (connections (if enable_connection_tracking _ then _ else _)) with
      (<[p := Connection.set_open false c]> (connections s)) by (cbn; by destruct (enable_connection_tracking _)).
    destruct (decide (q = p)) as [->|Hq]; [by rewrite lookup_insert_eq, bool_decide_eq_false_2, andb_false_r by tauto|].
    by rewrite lookup_insert_ne, bool_decide_eq_true_2, andb_true_r by done.
  - destruct (decide (q = p)) as [->|Hq]; [by rewrite Hc|]. by rewrite bool_decide_eq_true_2, andb_true_r by done.
Qed.

Lemma close_connection_progress p s : progress s (close_connection p s).
Proof.
  split; [|intros q; rewrite close_connection_opens; by destruct (is_open s q)].
  intros ep i Hi. unfold close_connection, notify_connection_closed. destruct (connections s !! p) as [c|]; [|by exists i].
  cbn. destruct (enable_connection_tracking _); [|by exists i]. cbn. unfold update_connection_state.
  destruct (info_of s (Connection._local c)) as [j|] eqn:Hj; [|by exists i].
  assert (∃ i', <[Connection._local c := set_state CLOSED j]> (_connection_info (_connection_tracker s)) !! ep = Some i' ∧
    node i' = node i ∧ connection_ref i' = connection_ref i ∧ (marked i → marked i')) as Hex.
  { destruct (decide (Connection._local c = ep)) as [<-|Hne].
    - rewrite lookup_insert_eq. simplify_eq. eexists. split_and!; [done..|]. by intros [_ Hm].
    - rewrite lookup_insert_ne by done. by exists i. }
  by destruct (state_change_callback j).
Qed.

(** One round: the entry says why, its connection is closed if it still exists, and no
    other. *)
Lemma close_idle_spec ep i s :
  info_of s ep = Some i →
  ∃ s', close_idle alive meanwhile ep s = (Ret tt, s') ∧ progress s s' ∧
    (∃ i', info_of s' ep = Some i' ∧ marked i') ∧
    (alive (connection_ref i) = true → is_open s' (connection_ref i) = false) ∧
    (∀ q, q ≠ connection_ref i → is_open s' q = is_open s q).
Proof.
  intros Hi. unfold close_idle. rewrite Hi.
  set (s1 := if alive (connection_ref i) && is_open s (connection_ref i) then meanwhile (close_connection (connection_ref i) s) else s).
  assert (progress s s1 ∧ (alive (connection_ref i) = true → is_open s1 (connection_ref i) = false) ∧
    (∀ q, q ≠ connection_ref i → is_open s1 q = is_open s q)) as (Hp & Hclosed & Hothers).
  { unfold s1. destruct (alive (connection_ref i)) eqn:Ha, (is_open s (connection_ref i)) eqn:Ho; cbn [andb]; try done.
    destruct (meanwhile_quiet (close_connection (connection_ref i) s)) as [Em Ec].
    assert (∀ q, is_open (meanwhile (close_connection (connection_ref i) s)) q = is_open s q && bool_decide (q ≠ connection_ref i)) as Eo.
    { intros q. rewrite <- close_connection_opens. unfold is_open. by rewrite Ec. }
    destruct (close_connection_progress (connection_ref i) s) as [He Hc]. split_and!; [split| |].
    - intros ep' j Hj. rewrite Em. by apply He.
    - intros q. rewrite Eo. by destruct (is_open s q).
    - intros _. by rewrite Eo, bool_decide_eq_false_2, andb_false_r by tauto.
    - intros q Hq. by rewrite Eo, bool_decide_eq_true_2, andb_true_r. }
  clearbody s1. destruct (entries_stay _ _ Hp ep i Hi) as (i1 & Hi1 & En & _). rewrite Hi1, decide_True by done.
  eexists. split_and!; [done| | |done|done].
  - etrans; [exact Hp|]. split; [|done]. intros ep' j Hj. cbn. destruct (decide (ep = ep')) as [<-|Hne].
    + rewrite lookup_insert_eq. simplify_eq. eexists. by split_and!.
    + rewrite lookup_insert_ne by done. by exists j.
  - cbn. rewrite lookup_insert_eq. by eexists.
Qed.

Lemma close_idle_loop l s :
  (∀ ep, ep ∈ l → is_Some (info_of s ep)) →
  ∃ s', mfor l (close_idle alive meanwhile) s = (Ret tt, s') ∧ progress s s' ∧
    (∀ ep i, ep ∈ l → info_of s ep = Some i → (∃ i', info_of s' ep = Some i' ∧ marked i') ∧
      (alive (connection_ref i) = true → is_open s' (connection_ref i) = false)) ∧
    (∀ q, (∀ ep i, ep ∈ l → info_of s ep = Some i → q ≠ connection_ref i) → is_open s' q = is_open s q).
Proof.
  revert s. induction l as [|ep l IH]; intros s Hl.
  { exists s. split_and!; [done|done| |done]. intros ep i Hin. by apply elem_of_nil in Hin. }
  destruct (Hl ep) as [i Hi]; [by left|]. destruct (close_idle_spec ep i s Hi) as (s1 & E1 & Hp1 & (i1 & Hi1 & Hm1) & Hc1 & Ho1).
  destruct (IH s1) as (s2 & E2 & Hp2 & Hm2 & Ho2).
  { intros ep' Hin. destruct (Hl ep') as [j Hj]; [by right|]. destruct (entries_stay _ _ Hp1 ep' j Hj) as (j' & Hj' & _). by eexists. }
  exists s2. split_and!; [cbn [mfor]; by rewrite (let_eval _ _ _ _ _ E1)|by etrans| |].
  - intros ep' j Hin Hj. apply elem_of_cons in Hin as [->|Hin].
    + simplify_eq. split; [destruct (entries_stay _ _ Hp2 ep i1 Hi1) as (i2 & Hi2 & _ & _ & Hm); eauto|].
      intros Ha. apply not_true_is_false. intros Ho%(only_closed _ _ Hp2). by rewrite Hc1 in Ho.
    + destruct (entries_stay _ _ Hp1 ep' j Hj) as (j1 & Hj1 & _ & Er & _). rewrite <- Er. by eapply Hm2.
  - intros q Hq. rewrite Ho2; [apply Ho1; by apply (Hq ep i); [left|]|]. intros ep' j1 Hin Hj1.
    destruct (Hl ep') as [j Hj]; [by right|]. destruct (entries_stay _ _ Hp1 ep' j Hj) as (j1' & Hj1' & _ & Er & _).
    simplify_eq. rewrite Er. by apply (Hq ep' j); [right|].
Qed.

(** Idle connections are closed.  When no other thread interferes, the pass over
    the tracker returns; every connected entry without activity for the idle timeout
    is marked closed with its reason, the connection it refers to is closed if it
    still exists, and no other connection is closed. *)
Theorem idle_connections_closed s :
  ∃ s', process_idle_timeouts now alive meanwhile s = (Ret tt, s') ∧
    (∀ ep i, info_of s ep = Some i → state i = CONNECTED →
      (_idle_timeout (_connection_tracker s) <= now - last_activity (stats i))%Z →
      (∃ i', info_of s' ep = Some i' ∧ marked i') ∧ (alive (connection_ref i) = true → is_open s' (connection_ref i) = false)) ∧
    (∀ q, (∀ ep i, info_of s ep = Some i → connection_ref i = q →
        ¬ (state i = CONNECTED ∧ _idle_timeout (_connection_tracker s) <= now - last_activity (stats i))%Z) → is_open s' q = is_open s q).
Proof.
  assert (∀ ep, ep ∈ idle_connections now (_connection_tracker s) ↔ ∃ i, info_of s ep = Some i ∧
    state i = CONNECTED ∧ (_idle_timeout (_connection_tracker s) <= now - last_activity (stats i))%Z) as Hidle.
  { intros ep. unfold idle_connections. rewrite list_elem_of_fmap. split.
    - intros ((ep' & i) & -> & [H1 H2]%list_elem_of_filter). apply elem_of_map_to_list in H2. by exists i.
    - intros (i & Hi & H). exists (ep, i). split; [done|]. apply list_elem_of_filter. split; [done|]. by apply elem_of_map_to_list. }
  destruct (close_idle_loop (idle_connections now (_connection_tracker s)) s) as (s' & E & _ & Hm & Ho).
  { intros ep (i & Hi & _)%Hidle. by eexists. }
  exists s'. split_and!; [done| |].
  - intros ep i Hi Hst Hold. apply Hm; [|done]. apply Hidle. by exists i.
  - intros q Hq. apply Ho. intros ep i (j & Hj & Hold)%Hidle Hi ->. simplify_eq. by eapply Hq.
Qed.
End idle.

Lemma idle_connections_closed_witness :
  let s := after (establish_connection 0 id ("b", 6000%N) server listening_star) in
  ∃ s', process_idle_timeouts 400000 (λ _, true) id s = (Ret tt, s') ∧ is_open s' 1 = false ∧ is_open s 1 = true.
Proof.
  set (s := after (establish_connection 0 id ("b", 6000%N) server listening_star)).
  destruct (idle_connections_closed 400000 (λ _, true) id ltac:(done) s) as (s' & E & H & _).
  exists s'. split_and!; [exact E| |by vm_compute].
  refine (proj2 (H ("b", 6000%N) (ConnectionTracker.mk_info 0 ("b", 6000%N) server ConnectionTracker.CONNECTED
    (ConnectionTracker.mk_stats 0 0 0 0 0 0 None) 1 None) _ _ _) eq_refl); by vm_compute.
Defined.

(** The pass releases the tracker's mutex while it closes a connection, and a callback
    or another thread that removes the entry leaves it with an invalid iterator. *)
Theorem idle_pass_loses_iterator :
  let s := after (establish_connection 0 id ("b", 6000%N) server listening_star) in
  let forget s := set_tracker (ConnectionTracker.cleanup_connection server
    (ConnectionTracker.cleanup_connection ("b", 6000%N) (_connection_tracker s))) s in
  (process_idle_timeouts 400000 (λ _, true) forget s).1 = Undef "use of an invalid iterator".
Proof. by vm_compute. Qed.

(** ** Executions of the example *)

(** A connection from [b], and a byte sent over it. *)
Definition talk : list event := [wrote 1 [x01]; landed 1 2 [x01]; got 2 [x01]].
Definition connected_star : simulator := after (connect_pair 0 ("b", 6000%N) server 0 listening_star).
Definition after_talk : simulator :=
  after (take_buffered (Throw timeout_exception) 2 (finish_route 0 (("b", 6000%N), server) 2 [x01] connected_star)).

Lemma star_is_run bernoulli : run bernoulli (new_simulator, []) [] (connected_star, []).
Proof.
  unfold connected_star, listening_star, star, after.
  assert (∀ s s', run bernoulli (new_simulator, []) [] (s, []) → op_step s s' → run bernoulli (new_simulator, []) [] (s', [])) as Hop.
  { intros s s' Hrun Hop. apply (run_trans _ _ [] (s, []) []); [done|]. by apply run_one, step_op. }
  eapply Hop; [|apply op_connect; by vm_compute].
  eapply Hop; [|apply op_create_listener]. eapply Hop; [|apply op_start]. eapply Hop; [|apply op_add_edge].
  eapply Hop; [|apply op_add_edge]. eapply Hop; [|apply op_create_node]. eapply Hop; [|apply op_create_node].
  eapply Hop; [|apply op_create_node]. constructor.
Qed.

Lemma connections_are_streams_witness :
  (landed_at 2 talk = got_at 2 talk ++ buffered (connections after_talk) 2) ∧ mirrored (connections after_talk) 1 2 ∧
  wrote_by 1 talk ≡ₚ settled_of 1 talk ++ [].
Proof.
  destruct (connections_are_streams (λ _ _, false) talk after_talk []) as (H1 & H2 & H3).
  - apply (run_trans _ _ [] (connected_star, []) talk); [apply star_is_run|].
    apply (run_step _ _ [wrote 1 [x01]] (connected_star, [(1, 2, [x01])]) [landed 1 2 [x01]; got 2 [x01]]).
    { apply (step_write _ _ _ [] 1 (Connection.create ("b", 6000%N) server) 2 0); by vm_compute. }
    apply (run_step _ _ [landed 1 2 [x01]] (finish_route 0 (("b", 6000%N), server) 2 [x01] connected_star, []) [got 2 [x01]]).
    { apply (step_land _ 0 connected_star [] [] 1 (Connection.create ("b", 6000%N) server) 2 [x01]). by vm_compute. }
    apply (run_one _ _ [got 2 [x01]]). apply (step_read _ _ _ [] 2 [x01]). by vm_compute.
  - split_and!; [apply H1|apply (H2 1 2 [x01]); by right; left|apply H3].
Defined.
