(* ===== verification/SimRpc.v ===== *)
(** Remote calls over the network simulator ([include/raft/simulator_network.hpp]):
    [simulator_network_client], [simulator_network_server] and what any number of them
    promise together.

    A call is a message to port 5000 of the peer and a wait for a message at the own
    address.  The server tries one decoder after the other.  The state of the node
    behind a server is the type [S]; handlers are computations on it. *)

From stdpp Require Import strings pretty.
From Stdlib Require Import QArith.
From S2P Require Import Prelude Types ConfigEntry JsonSerializer CborSerializer SerializerRegistry SimObjects NetworkSim SimConnections SimProofs.

Local Open Scope nat_scope.

(** ** The calls *)

Inductive sim_rpc : Type :=
  | sr_request_vote | sr_request_pre_vote | sr_append_entries | sr_install_snapshot
  | sr_cluster_join | sr_cluster_leave | sr_fetch_log_entries.

#[export] Instance sim_rpc_eq_dec : EqDecision sim_rpc.
Proof. solve_decision. Defined.

Definition sr_request (k : sim_rpc) : message_kind :=
  match k with
  | sr_request_vote => k_request_vote_request
  | sr_request_pre_vote => k_request_pre_vote_request
  | sr_append_entries => k_append_entries_request
  | sr_install_snapshot => k_install_snapshot_request
  | sr_cluster_join => k_cluster_join_request
  | sr_cluster_leave => k_cluster_leave_request
  | sr_fetch_log_entries => k_fetch_log_entries_request
  end.

Definition sr_response (k : sim_rpc) : message_kind :=
  match k with
  | sr_request_vote => k_request_vote_response
  | sr_request_pre_vote => k_request_pre_vote_response
  | sr_append_entries => k_append_entries_response
  | sr_install_snapshot => k_install_snapshot_response
  | sr_cluster_join => k_cluster_join_response
  | sr_cluster_leave => k_cluster_leave_response
  | sr_fetch_log_entries => k_fetch_log_entries_response
  end.

Definition sr_name (k : sim_rpc) : string :=
  match k with
  | sr_request_vote => "RequestVote"
  | sr_request_pre_vote => "RequestPreVote"
  | sr_append_entries => "AppendEntries"
  | sr_install_snapshot => "InstallSnapshot"
  | sr_cluster_join => "ClusterJoin"
  | sr_cluster_leave => "ClusterLeave"
  | sr_fetch_log_entries => "FetchLogEntries"
  end.

(** The name of the fault that can be injected into a call. *)
Definition sr_fault (k : sim_rpc) : option string :=
  match k with
  | sr_request_vote => Some "chaos: send_request_vote"
  | sr_request_pre_vote => Some "chaos: send_request_pre_vote"
  | sr_append_entries => Some "chaos: send_append_entries"
  | sr_install_snapshot => Some "chaos: send_install_snapshot"
  | _ => None
  end.

Definition rpc_port : N := 5000.

(** ** The client *)

Section client.
Context (ser : rpc_serializer) (bernoulli : nat → Q → bool).
(** What other threads do while the request is under way, and while the client waits
    for a message. *)
Context (sending waiting : simulator → simulator).

(** From the construction of the message to the last continuation; the same in the
    seven functions. *)
Definition call (k : sim_rpc) (target : string) (request : message) : M node_world message :=
  let! w := mget in
  let! success := send sending bernoulli (mk_message (_address w.1) target rpc_port (ser_serialize ser request)) in
  if negb success then mthrow (network_exception ("Failed to send " +:+ sr_name k +:+ " RPC")) else
  let! response := receive_for waiting in
  mlift (ser_deserialize ser (sr_response k) (payload response)).

(** [send_request_vote], [send_request_pre_vote], [send_append_entries],
    [send_install_snapshot] and [send_fetch_log_entries] go to a node, the two others to
    an address.  [injected]: the fault point is enabled. *)
Definition send_to_node (injected : bool) (k : sim_rpc) (target : N) (request : message) : M node_world message :=
  match sr_fault k with
  | Some what => if injected then mthrow (network_exception what) else call k (pretty target) request
  | None => call k (pretty target) request
  end.
End client.

(** ** The server *)

Definition all_rpcs : list sim_rpc :=
  [sr_request_vote; sr_request_pre_vote; sr_append_entries; sr_install_snapshot; sr_cluster_join; sr_cluster_leave;
   sr_fetch_log_entries].

Definition handlers (S : Type) : Type := sim_rpc → option (message → M S message).

(** [register_request_vote_handler] and its six siblings. *)
Definition register_handler {S} (k : sim_rpc) (h : message → M S message) (hs : handlers S) : handlers S :=
  λ k', if decide (k' = k) then Some h else hs k'.

Section server.
Context {S : Type} (ser : rpc_serializer) (bernoulli : nat → Q → bool) (hs : handlers S).
Context (sending waiting : simulator → simulator).

(** The result of sending is not looked at. *)
Definition send_response (target : string) (response : message) : M (S * node_world) () := on_snd (λ w,
  let '(_, w) := send sending bernoulli (mk_message (_address w.1) target 0 (ser_serialize ser response)) w in
  (Ret tt, w)).

(** The [try] blocks of [handle_message]: one that does not throw ends it. *)
Fixpoint try_each (ks : list sim_rpc) (msg : sim_message) : M (S * node_world) () :=
  match ks with
  | [] => mreturn tt
  | k :: ks =>
      let! returned :=
        mcatch
          (let! request := mlift (ser_deserialize ser (sr_request k) (payload msg)) in
           match hs k with
           | None => mreturn true
           | Some handler =>
               let! response := on_fst (handler request) in
               do! send_response (source_address msg) response in
               mreturn true
           end)
          (λ _, mreturn false) in
      if returned then mreturn tt else try_each ks msg
  end.

Definition handle_message (msg : sim_message) : M (S * node_world) () := try_each all_rpcs msg.

(** One round of [process_messages]. *)
Definition process_message : M (S * node_world) () :=
  mcatch (let! msg := on_snd (receive_on waiting rpc_port) in handle_message msg) (λ _, mreturn tt).
End server.

(** ** Sending in two critical sections *)

Section begin_message.
Context (bernoulli : nat → Q → bool).

(** [route_message] until its lock is released; no delay: the message is not sent. *)
Definition begin_message (msg : sim_message) (s : simulator) : option Z * simulator :=
  if negb (_started s) then (None, s) else
  if negb (has_node (source_address msg) s) || negb (has_node (destination_address msg) s) then (None, s) else
  match find_path (_topology s) (source_address msg) (destination_address msg) with
  | None | Some [] => (None, s)
  | Some path => traverse bernoulli path 0 s
  end.

Lemma route_message_split meanwhile msg s :
  route_message bernoulli meanwhile msg s =
  match begin_message msg s with
  | (None, s) => (false, s)
  | (Some delay, s) =>
      if bool_decide (0 < delay)%Z then
        let s := meanwhile s in if negb (_started s) then (false, s) else (true, deliver_message msg s)
      else (true, deliver_message msg s)
  end.
Proof.
  unfold route_message, begin_message. destruct (_started s); [|done]. cbn [negb].
  destruct (negb (has_node _ s) || negb (has_node _ s)); [done|]. by destruct (find_path _ _ _) as [[|u path]|].
Qed.

(** It only draws random numbers. *)
Lemma begin_message_frame msg s : ∃ n, (begin_message msg s).2 = set_draws n s.
Proof.
  assert (∃ n, s = set_draws n s) as Hid by (exists (draws s); by destruct s).
  unfold begin_message. destruct (_started s); [|done]. cbn [negb].
  destruct (negb (has_node _ s) || negb (has_node _ s)); [done|]. destruct (find_path _ _ _) as [[|u path]|]; [done| |done].
  apply traverse_frame.
Qed.
End begin_message.

(** ** Handling without the network *)

Section handling.
Context {S : Type} (ser : rpc_serializer) (hs : handlers S).

(** The handlers that a message makes run, with what they are given and return. *)
Fixpoint handling (ks : list sim_rpc) (data : bytes) (st : S) : list (sim_rpc * message * outcome message) * S :=
  match ks with
  | [] => ([], st)
  | k :: ks =>
      match ser_deserialize ser (sr_request k) data with
      | Throw _ => handling ks data st
      | Undef _ => ([], st)
      | Ret request =>
          match hs k with
          | None => ([], st)
          | Some handler =>
              match handler request st with
              | (Throw e, st) => let '(runs, st) := handling ks data st in ((k, request, Throw e) :: runs, st)
              | (r, st) => ([(k, request, r)], st)
              end
          end
      end
  end.

Definition answers (runs : list (sim_rpc * message * outcome message)) : list message :=
  omap (λ '(_, _, r), match r with Ret m => Some m | _ => None end) runs.

(** [handle_message] runs these handlers and sends what they answer. *)
Lemma try_each_handling bernoulli sending ks msg st w :
  let '(runs, st') := handling ks (payload msg) st in
  (try_each ser bernoulli hs sending ks msg (st, w)).2 =
  foldl (λ w r, (send_response (S := S) ser bernoulli sending (source_address msg) r w).2) (st', w) (answers runs).
Proof.
  revert st. induction ks as [|k ks IH]; intros st; [done|]. cbn [handling try_each]. unfold mlet, mcatch, mlift.
  destruct (ser_deserialize ser (sr_request k) (payload msg)) as [request|e|u]; [|apply IH|done].
  destruct (hs k) as [handler|]; [|done]. unfold on_fst. cbn [fst snd].
  destruct (handler request st) as [[r|e|u] st1]; [| |done].
  - cbn. unfold send_response, on_snd. cbn [fst snd]. by destruct (send _ _ _ w) as [r' w'].
  - specialize (IH st1). destruct (handling ks (payload msg) st1) as [runs st2]. exact IH.
Qed.
End handling.

(** ** What a serializer promises *)

(** A message that fits is read back, and refused as a message of any other kind. *)
Class SerializerLaws (ser : rpc_serializer) (fits : message → Prop) : Prop := {
  law_reads_back m : fits m → ser_deserialize ser (kind_of m) (ser_serialize ser m) = Ret m;
  law_refuses m k : fits m → k ≠ kind_of m → ∃ e, ser_deserialize ser k (ser_serialize ser m) = Throw e
}.

#[export] Instance json_laws `{JL : JsonLib} `{JLok : !JsonLibOk} : SerializerLaws json_rpc_serializer message_ok.
Proof.
  split; [intros m Hm|intros m k Hm Hk]; cbn; rewrite deserialize_serialized by done.
  - by rewrite decide_True.
  - rewrite decide_False by done. by eexists.
Qed.

#[export] Instance cbor_laws : SerializerLaws cbor_rpc_serializer message_fits.
Proof.
  split; [intros m Hm|intros m k Hm Hk]; cbn; rewrite cbor_deserialize_serialized by done.
  - by rewrite decide_True.
  - rewrite decide_False by done. by eexists.
Qed.

Lemma sr_request_inj k k' : sr_request k = sr_request k' → k = k'.
Proof. by destruct k, k'. Qed.
Lemma sr_request_response k k' : sr_request k ≠ sr_response k'.
Proof. by destruct k, k'. Qed.
Lemma all_rpcs_complete k : ∃ before after, all_rpcs = before ++ k :: after ∧ (k ∉ before) ∧ (k ∉ after).
Proof.
  destruct k; [exists []|eexists [_]|eexists [_; _]|eexists [_; _; _]|eexists [_; _; _; _]|eexists [_; _; _; _; _]|eexists [_; _; _; _; _; _]];
    eexists; (split_and!; [reflexivity|set_solver..]).
Qed.

Section genuine.
Context {S : Type} (ser : rpc_serializer) (fits : message → Prop) `{!SerializerLaws ser fits} (hs : handlers S).

Lemma handling_refused ks m st : fits m → (∀ k, k ∈ ks → sr_request k ≠ kind_of m) → handling ser hs ks (ser_serialize ser m) st = ([], st).
Proof.
  intros Hm. induction ks as [|k ks IH]; intros Hks; [done|]. cbn [handling].
  destruct (law_refuses m (sr_request k) Hm) as [e ->]; [apply Hks; set_solver|]. apply IH. set_solver.
Qed.

(** A genuine request is given to the handler of its kind, and to no other. *)
Lemma handling_genuine k m st :
  fits m → kind_of m = sr_request k →
  handling ser hs all_rpcs (ser_serialize ser m) st =
  match hs k with Some h => let '(r, st') := h m st in ([(k, m, r)], st') | None => ([], st) end.
Proof.
  intros Hm Hk. destruct (all_rpcs_complete k) as (before & after & -> & Hb & Ha).
  assert (∀ k', k' ≠ k → sr_request k' ≠ kind_of m) as Hne by (intros k' Hne; rewrite Hk; by intros E%sr_request_inj).
  induction before as [|k' before IH]; cbn [app handling].
  - rewrite <- Hk, law_reads_back by done. destruct (hs k) as [h|]; [|done]. destruct (h m st) as [[r|e|u] st']; [done| |done].
    rewrite handling_refused; [done|done|]. intros k' Hk'. apply Hne. set_solver.
  - destruct (law_refuses m (sr_request k') Hm) as [e ->]; [apply Hne; set_solver|]. apply IH. set_solver.
Qed.
End genuine.

(** ** A network of clients and servers *)

Inductive phase : Type := sending_request | waiting_answer | ended.

Inductive event : Type :=
  | called (i : nat) (a b : string) (k : sim_rpc) (m : message)
  | took (b : string) (msg : sim_message)
  | handled (b : string) (msg : sim_message) (k : sim_rpc) (m : message) (r : outcome message)
  | got (i : nat) (a : string) (k : sim_rpc) (msg : sim_message) (r : outcome message).

(** [flights]: messages whose latency is not over, with the call they are of;
    [taken]: messages that a server took and has not handled yet. *)
Record cluster (S : Type) : Type := mk_cluster {
  net : simulator;
  servers : gmap string S;
  flights : list (option nat * sim_message);
  taken : list (string * sim_message);
  calls : gmap nat (string * sim_rpc * phase)
}.
Arguments mk_cluster {S}.
Arguments net {S}.
Arguments servers {S}.
Arguments flights {S}.
Arguments taken {S}.
Arguments calls {S}.

Definition set_phase (p : phase) (o : option nat) (cs : gmap nat (string * sim_rpc * phase)) : gmap nat (string * sim_rpc * phase) :=
  match o with Some i => alter (λ '(a, k, _), (a, k, p)) i cs | None => cs end.

(** The other operations of the simulator may drop queues but put nothing in them. *)
Definition queues_shrink (s s' : simulator) : Prop :=
  ∀ a q, _message_queues s' !! a = Some q → q = [] ∨ _message_queues s !! a = Some q.

Definition request_of (a b : string) (data : bytes) : sim_message := mk_message a b rpc_port data.
Definition response_of (b a : string) (data : bytes) : sim_message := mk_message b a 0 data.

Section cluster.
Context {S : Type} (ser : rpc_serializer) (fits : message → Prop) `{!SerializerLaws ser fits}.
Context (bernoulli : nat → Q → bool) (hs : string → handlers S).

Definition run_event (b : string) (msg : sim_message) (run : sim_rpc * message * outcome message) : event :=
  let '(k, m, r) := run in handled b msg k m r.

(** Answers enter the network one after the other. *)
Fixpoint begin_all (msgs : list sim_message) (s : simulator) : list (option nat * sim_message) * simulator :=
  match msgs with
  | [] => ([], s)
  | msg :: msgs =>
      let '(sent, s) := begin_message bernoulli msg s in
      let '(fl, s) := begin_all msgs s in
      (if sent is Some _ then (None, msg) :: fl else fl, s)
  end.

Inductive cluster_step (w : cluster S) : list event → cluster S → Prop :=
  | step_other s' : op_step (net w) s' → queues_shrink (net w) s' →
      cluster_step w [] (mk_cluster s' (servers w) (flights w) (taken w) (calls w))
  | step_call i a b k m sent s' : calls w !! i = None → fits m → kind_of m = sr_request k →
      begin_message bernoulli (request_of a b (ser_serialize ser m)) (net w) = (sent, s') →
      cluster_step w [called i a b k m]
        (mk_cluster s' (servers w) (flights w ++ (if sent is Some _ then [(Some i, request_of a b (ser_serialize ser m))] else []))
           (taken w) (<[i := (a, k, if sent is Some _ then sending_request else ended)]> (calls w)))
  | step_arrive l1 o msg l2 : flights w = l1 ++ (o, msg) :: l2 → _started (net w) = true →
      cluster_step w [] (mk_cluster (deliver_message msg (net w)) (servers w) (l1 ++ l2) (taken w) (set_phase waiting_answer o (calls w)))
  | step_lost l1 o msg l2 : flights w = l1 ++ (o, msg) :: l2 →
      cluster_step w [] (mk_cluster (net w) (servers w) (l1 ++ l2) (taken w) (set_phase ended o (calls w)))
  | step_get i a k msg s' : calls w !! i = Some (a, k, waiting_answer) → _closing (net w) = false →
      retrieve_message a (net w) = (Some msg, s') →
      cluster_step w [got i a k msg (ser_deserialize ser (sr_response k) (payload msg))]
        (mk_cluster s' (servers w) (flights w) (taken w) (set_phase ended (Some i) (calls w)))
  | step_give_up i a k : calls w !! i = Some (a, k, waiting_answer) →
      cluster_step w [] (mk_cluster (net w) (servers w) (flights w) (taken w) (set_phase ended (Some i) (calls w)))
  | step_take b msg s' : is_Some (servers w !! b) → retrieve_for_port b rpc_port (net w) = (Some msg, s') →
      cluster_step w [took b msg] (mk_cluster s' (servers w) (flights w) (taken w ++ [(b, msg)]) (calls w))
  | step_handle l1 b msg l2 st runs st' fl s' : taken w = l1 ++ (b, msg) :: l2 → servers w !! b = Some st →
      handling ser (hs b) all_rpcs (payload msg) st = (runs, st') →
      begin_all (response_of b (source_address msg) ∘ ser_serialize ser <$> answers runs) (net w) = (fl, s') →
      cluster_step w (run_event b msg <$> runs)
        (mk_cluster s' (<[b := st']> (servers w)) (flights w ++ fl) (l1 ++ l2) (calls w)).

(** From a network without messages and calls. *)
Inductive reaches (w0 : cluster S) : list event → cluster S → Prop :=
  | reaches_start : reaches w0 [] w0
  | reaches_step tr w es w' : reaches w0 tr w → cluster_step w es w' → reaches w0 (tr ++ es) w'.

Definition idle_cluster (w : cluster S) : Prop :=
  flights w = [] ∧ taken w = [] ∧ ∀ a q, _message_queues (net w) !! a = Some q → q = [].

(** *** Where every message is *)

Definition sent_in (tr : list event) : list sim_message :=
  omap (λ e, match e with
    | called _ a b _ m => Some (request_of a b (ser_serialize ser m))
    | handled b msg _ _ (Ret r) => Some (response_of b (source_address msg) (ser_serialize ser r))
    | _ => None
    end) tr.
Definition took_in (tr : list event) : list sim_message :=
  omap (λ e, match e with took _ msg => Some msg | _ => None end) tr.
Definition got_in (tr : list event) : list sim_message :=
  omap (λ e, match e with got _ _ _ msg _ => Some msg | _ => None end) tr.
Definition handled_in (tr : list event) : list sim_message :=
  omap (λ e, match e with handled _ msg _ _ _ => Some msg | _ => None end) tr.

Definition queued (s : simulator) : list sim_message := concat (map_to_list (_message_queues s)).*2.

(** What the events of an execution are made of. *)
Definition event_ok (e : event) : Prop :=
  match e with
  | called _ _ _ k m => fits m ∧ kind_of m = sr_request k
  | took b msg => destination_address msg = b ∧ destination_port msg = rpc_port
  | handled b msg k m r =>
      destination_address msg = b ∧ destination_port msg = rpc_port ∧ payload msg = ser_serialize ser m ∧
      fits m ∧ kind_of m = sr_request k ∧ ∀ x, r = Ret x → fits x ∧ kind_of x = sr_response k
  | got _ a k msg r => destination_address msg = a ∧ r = ser_deserialize ser (sr_response k) (payload msg)
  end.

Record cluster_ok (tr : list event) (w : cluster S) : Prop := {
  conserved : took_in tr ++ got_in tr ++ queued (net w) ++ (flights w).*2 ⊆+ sent_in tr;
  handled_taken : handled_in tr ++ (taken w).*2 ⊆+ took_in tr;
  queues_placed a q msg : _message_queues (net w) !! a = Some q → msg ∈ q → destination_address msg = a;
  taken_placed b msg : (b, msg) ∈ taken w → destination_address msg = b ∧ destination_port msg = rpc_port;
  events_genuine : Forall event_ok tr
}.

(** Handlers answer with a message of the kind of their call, as their types say. *)
Context (handlers_typed : ∀ b k h m st r st', hs b k = Some h → h m st = (Ret r, st') → fits r ∧ kind_of r = sr_response k).

Lemma queued_insert s a q q' :
  _message_queues s !! a = Some q →
  q ++ queued (set_queues (<[a := q']> (_message_queues s)) s) ≡ₚ q' ++ queued s.
Proof.
  intros Hq. unfold queued. cbn. rewrite <- insert_delete_eq.
  rewrite (map_to_list_insert (delete a _) a q') by apply lookup_delete_eq.
  rewrite <- (insert_delete_id _ _ _ Hq) at 2.
  rewrite (map_to_list_insert (delete a _) a q) by apply lookup_delete_eq. cbn. solve_Permutation.
Qed.

Lemma queues_below (m' m : gmap string (list sim_message)) :
  (∀ a q, m' !! a = Some q → q = [] ∨ m !! a = Some q) → concat (map_to_list m').*2 ⊆+ concat (map_to_list m).*2.
Proof.
  revert m. induction m' as [|a q m' Ha IH] using map_ind; intros m Hm; [rewrite map_to_list_empty; apply submseteq_nil_l|].
  rewrite map_to_list_insert by done. cbn.
  destruct (Hm a q) as [->|Hq]; [by rewrite lookup_insert_eq| |].
  - apply IH. intros a' q' Ha'. apply Hm. rewrite lookup_insert_ne; [done|]. intros ->. congruence.
  - rewrite <- (insert_delete_id _ _ _ Hq), map_to_list_insert by apply lookup_delete_eq. cbn. apply submseteq_skips_l, IH.
    intros a' q' Ha'. assert (a ≠ a') by congruence. destruct (Hm a' q') as [?|?]; [by rewrite lookup_insert_ne|by left|].
    right. by rewrite lookup_delete_ne.
Qed.

Lemma queued_draws n s : queued (set_draws n s) = queued s.
Proof. done. Qed.

Lemma queued_deliver msg s : queued (deliver_message msg s) ⊆+ msg :: queued s.
Proof.
  unfold deliver_message. destruct (_message_queues s !! destination_address msg) as [q|] eqn:Hq; [|by apply submseteq_cons].
  pose proof (queued_insert s _ q (q ++ [msg]) Hq) as H. rewrite <- app_assoc in H. apply Permutation_app_inv_l in H.
  by rewrite H.
Qed.

Lemma queued_retrieve a s msg s' : retrieve_message a s = (Some msg, s') →
  msg :: queued s' ≡ₚ queued s ∧ (∃ q, _message_queues s !! a = Some q ∧ msg ∈ q) ∧
  ∀ a' q' x, _message_queues s' !! a' = Some q' → x ∈ q' → ∃ q, _message_queues s !! a' = Some q ∧ x ∈ q.
Proof.
  unfold retrieve_message. destruct (_message_queues s !! a) as [[|m q]|] eqn:Hq; [done| |done]. intros [= <- <-]. split_and!.
  - pose proof (queued_insert s a (m :: q) q Hq) as H. change ((m :: q) ++ ?l) with (m :: q ++ l) in H.
    apply (Permutation_app_inv_l q). rewrite <- H. solve_Permutation.
  - exists (m :: q). set_solver.
  - cbn. intros a' q' x [[<- <-]|[Hne Hq']]%lookup_insert_Some Hx; [exists (m :: q); set_solver|by exists q'].
Qed.

Lemma queued_for_port a port s msg s' : retrieve_for_port a port s = (Some msg, s') →
  msg :: queued s' ≡ₚ queued s ∧ destination_port msg = port ∧ (∃ q, _message_queues s !! a = Some q ∧ msg ∈ q) ∧
  ∀ a' q' x, _message_queues s' !! a' = Some q' → x ∈ q' → ∃ q, _message_queues s !! a' = Some q ∧ x ∈ q.
Proof.
  unfold retrieve_for_port. destruct (_closing s); [done|]. destruct (_message_queues s !! a) as [q|] eqn:Hq; [|done].
  destruct (list_find _ q) as [[i m]|] eqn:Hf; [|done]. intros [= <- <-].
  apply list_find_Some in Hf as (Hi & Hp & _). split_and!; [| done | |].
  - pose proof (queued_insert s a q (delete i q) Hq) as H. pose proof (delete_Permutation _ _ _ Hi) as Hd.
    rewrite Hd in H at 1. change ((m :: delete i q) ++ ?l) with (m :: delete i q ++ l) in H.
    apply (Permutation_app_inv_l (delete i q)). rewrite <- H. solve_Permutation.
  - exists q. split; [done|]. by eapply list_elem_of_lookup_2.
  - cbn. intros a' q' x [[<- <-]|[Hne Hq']]%lookup_insert_Some Hx; [|by exists q'].
    exists q. split; [done|]. eapply elem_of_submseteq; [exact Hx|]. apply sublist_submseteq, sublist_delete.
Qed.

Lemma begin_all_frame msgs s : let '(fl, s') := begin_all msgs s in (fl.*2 ⊆+ msgs) ∧ ∃ n, s' = set_draws n s.
Proof.
  revert s. induction msgs as [|msg msgs IH]; intros s; cbn [begin_all]; [split; [done|exists (draws s); by destruct s]|].
  destruct (begin_message_frame bernoulli msg s) as [n Hn]. destruct (begin_message bernoulli msg s) as [sent s1]. cbn in Hn. subst s1.
  specialize (IH (set_draws n s)). destruct (begin_all msgs (set_draws n s)) as [fl s2]. destruct IH as [Hfl [n' ->]].
  split; [|by exists n']. destruct sent; cbn; [by apply submseteq_skip|by apply submseteq_cons].
Qed.

(** A message that a server took is the request of some call. *)
Lemma genuine_request tr w msg : cluster_ok tr w → msg ∈ took_in tr → destination_port msg = rpc_port →
  ∃ k m, fits m ∧ kind_of m = sr_request k ∧ payload msg = ser_serialize ser m.
Proof.
  intros H Hin Hport. assert (msg ∈ sent_in tr) as Hsent.
  { eapply elem_of_submseteq; [|exact (conserved _ _ H)]. set_solver. }
  unfold sent_in in Hsent. apply list_elem_of_omap in Hsent as (e & He & Hm).
  pose proof (proj1 (Forall_forall _ _) (events_genuine _ _ H) _ He) as Hok.
  destruct e as [i a b k m|b m0|b m0 k m [r|x|u]|i a k m0 r]; simplify_eq/=.
  exists k, m. by destruct Hok.
Qed.

(** Steps without events only move and drop messages. *)
Lemma ok_moves tr w w' : cluster_ok tr w →
  queued (net w') ++ (flights w').*2 ⊆+ queued (net w) ++ (flights w).*2 → taken w' = taken w →
  (∀ a q msg, _message_queues (net w') !! a = Some q → msg ∈ q → destination_address msg = a) →
  cluster_ok (tr ++ []) w'.
Proof.
  intros [H1 H2 H3 H4 H5] Hm Ht Hp. rewrite app_nil_r. split; rewrite ?Ht; try done.
  etrans; [|exact H1]. by do 2 apply submseteq_skips_l.
Qed.

Lemma arrive_ok tr w l1 o msg l2 cs : cluster_ok tr w → flights w = l1 ++ (o, msg) :: l2 →
  cluster_ok (tr ++ []) (mk_cluster (deliver_message msg (net w)) (servers w) (l1 ++ l2) (taken w) cs).
Proof.
  intros H Hf. apply (ok_moves _ w); [done| |done|].
  - cbn. rewrite Hf, !fmap_app. etrans; [apply submseteq_app; [apply queued_deliver|reflexivity]|].
    cbn. apply Permutation_submseteq. solve_Permutation.
  - cbn. intros a q m. unfold deliver_message.
    destruct (_message_queues (net w) !! destination_address msg) as [q0|] eqn:Hq; [|apply (queues_placed _ _ H)]. cbn.
    intros [[<- <-]|[_ Hq']]%lookup_insert_Some Hin; [|by eapply (queues_placed _ _ H)].
    apply elem_of_app in Hin as [Hin| ->%list_elem_of_singleton]; [by eapply (queues_placed _ _ H)|done].
Qed.

Lemma call_ok tr w i a b k m (sent : option Z) n cs : cluster_ok tr w → fits m → kind_of m = sr_request k →
  let msg := request_of a b (ser_serialize ser m) in
  cluster_ok (tr ++ [called i a b k m])
    (mk_cluster (set_draws n (net w)) (servers w) (flights w ++ (if sent is Some _ then [(Some i, msg)] else [])) (taken w) cs).
Proof.
  intros [H1 H2 H3 H4 H5] Hm Hk msg. split; cbn.
  - unfold took_in, got_in, sent_in in *. rewrite !omap_app, !fmap_app. cbn. rewrite !app_nil_r, queued_draws.
    rewrite !(assoc_L (++)). apply submseteq_app; [by rewrite <- !(assoc_L (++))|]. by destruct sent; cbn; [|apply submseteq_nil_l].
  - unfold handled_in, took_in in *. rewrite !omap_app. cbn. by rewrite !app_nil_r.
  - done.
  - done.
  - apply Forall_app. split; [done|]. by apply Forall_singleton.
Qed.

Lemma get_ok tr w i a k msg s' cs : cluster_ok tr w → retrieve_message a (net w) = (Some msg, s') →
  cluster_ok (tr ++ [got i a k msg (ser_deserialize ser (sr_response k) (payload msg))])
    (mk_cluster s' (servers w) (flights w) (taken w) cs).
Proof.
  intros [H1 H2 H3 H4 H5] (Hq & (q & Hq1 & Hin) & Hsub)%queued_retrieve. split; cbn.
  - unfold took_in, got_in, sent_in in *. rewrite !omap_app. cbn. rewrite !app_nil_r. etrans; [|exact H1].
    rewrite <- Hq. apply Permutation_submseteq. solve_Permutation.
  - unfold handled_in, took_in in *. rewrite !omap_app. cbn. by rewrite !app_nil_r.
  - intros a' q' x Hq' Hx. destruct (Hsub _ _ _ Hq' Hx) as (q0 & Hq0 & Hx0). by eapply H3.
  - done.
  - apply Forall_app. split; [done|]. apply Forall_singleton. cbn. split; [by eapply H3|done].
Qed.

Lemma take_ok tr w b msg s' : cluster_ok tr w → retrieve_for_port b rpc_port (net w) = (Some msg, s') →
  cluster_ok (tr ++ [took b msg]) (mk_cluster s' (servers w) (flights w) (taken w ++ [(b, msg)]) (calls w)).
Proof.
  intros [H1 H2 H3 H4 H5] (Hq & Hport & (q & Hq1 & Hin) & Hsub)%queued_for_port.
  assert (destination_address msg = b) as Hdest by (by eapply H3). split; cbn.
  - unfold took_in, got_in, sent_in in *. rewrite !omap_app. cbn. rewrite !app_nil_r. etrans; [|exact H1].
    rewrite <- Hq. apply Permutation_submseteq. solve_Permutation.
  - unfold handled_in, took_in in *. rewrite !omap_app, fmap_app. cbn. rewrite !app_nil_r, (assoc_L (++)). by apply submseteq_skips_r.
  - intros a' q' x Hq' Hx. destruct (Hsub _ _ _ Hq' Hx) as (q0 & Hq0 & Hx0). by eapply H3.
  - intros b' m' [Hin'|[= -> ->]%list_elem_of_singleton]%elem_of_app; [by apply H4|done].
  - apply Forall_app. split; [done|]. by apply Forall_singleton.
Qed.

(** A genuine request makes at most one handler run. *)
Lemma handle_ok tr w l1 b msg l2 st runs st' fl s' :
  cluster_ok tr w → taken w = l1 ++ (b, msg) :: l2 → handling ser (hs b) all_rpcs (payload msg) st = (runs, st') →
  begin_all (response_of b (source_address msg) ∘ ser_serialize ser <$> answers runs) (net w) = (fl, s') →
  cluster_ok (tr ++ (run_event b msg <$> runs))
    (mk_cluster s' (<[b := st']> (servers w)) (flights w ++ fl) (l1 ++ l2) (calls w)).
Proof.
  intros H Ht Hrun Hfl. pose proof H as [H1 H2 H3 H4 H5]. destruct (H4 b msg) as [Hdest Hport]; [rewrite Ht; set_solver|].
  destruct (genuine_request tr w msg H) as (k & m & Hm & Hk & Hp); [|done|].
  { eapply elem_of_submseteq; [|exact H2]. rewrite Ht, fmap_app. set_solver. }
  rewrite Hp, (handling_genuine ser fits (hs b) k m st Hm Hk) in Hrun.
  pose proof (begin_all_frame (response_of b (source_address msg) ∘ ser_serialize ser <$> answers runs) (net w)) as Hframe.
  rewrite Hfl in Hframe. destruct Hframe as [Hsub [n ->]].
  assert (runs = [] ∨ ∃ r, runs = [(k, m, r)] ∧ ∀ x, r = Ret x → fits x ∧ kind_of x = sr_response k) as Hruns.
  { destruct (hs b k) as [h|] eqn:Eh; [|left; congruence]. destruct (h m st) as [r st1] eqn:Er. right. exists r. split; [congruence|].
    intros x ->. by eapply handlers_typed. }
  assert (took_in (run_event b msg <$> runs) = [] ∧ got_in (run_event b msg <$> runs) = [] ∧
    sent_in (run_event b msg <$> runs) = (response_of b (source_address msg) ∘ ser_serialize ser <$> answers runs) ∧
    handled_in (run_event b msg <$> runs) ⊆+ [msg] ∧ Forall event_ok (run_event b msg <$> runs)) as (E1 & E2 & E3 & E4 & E5).
  { destruct Hruns as [->|(r & -> & Hr)]; cbn; [split_and!; done || apply submseteq_nil_l|].
    split_and!; [done|done|by destruct r|done|]. by apply Forall_singleton. }
  split; cbn.
  - unfold took_in, got_in, sent_in in *. rewrite !omap_app, E1, E2, E3, !fmap_app, !app_nil_r, queued_draws.
    rewrite !(assoc_L (++)). apply submseteq_app; [by rewrite <- !(assoc_L (++))|done].
  - unfold handled_in, took_in in *. rewrite !omap_app, E1, app_nil_r. etrans; [|exact H2]. rewrite Ht, !fmap_app, <- (assoc_L (++)).
    apply submseteq_skips_l. etrans; [apply submseteq_app; [exact E4|reflexivity]|]. cbn. apply Permutation_submseteq. solve_Permutation.
  - done.
  - intros b' m' Hin. apply H4. rewrite Ht. set_solver.
  - by apply Forall_app.
Qed.

Lemma cluster_step_ok tr w es w' : cluster_ok tr w → cluster_step w es w' → cluster_ok (tr ++ es) w'.
Proof.
  intros H Hstep. destruct Hstep as [s' Hop Hshrink|i a b k m sent s' Hi Hm Hk Hs|l1 o msg l2 Hf _|l1 o msg l2 Hf|
    i a k msg s' Hi Hc Hr|i a k Hi|b msg s' Hb Hr|l1 b msg l2 st runs st' fl s' Ht Hb Hrun Hfl].
  - apply (ok_moves _ w); [done| |done|]; cbn.
    + apply submseteq_skips_r. by apply queues_below.
    + intros a q msg Hq Hin. destruct (Hshrink a q Hq) as [->|?]; [by apply elem_of_nil in Hin|]. by eapply (queues_placed _ _ H).
  - destruct (begin_message_frame bernoulli (request_of a b (ser_serialize ser m)) (net w)) as [n Hn].
    rewrite Hs in Hn. cbn in Hn. subst s'. by apply call_ok.
  - by eapply arrive_ok.
  - apply (ok_moves _ w); [done| |done|apply (queues_placed _ _ H)]. cbn. rewrite Hf, !fmap_app. cbn.
    apply submseteq_skips_l, submseteq_skips_l. by apply submseteq_cons.
  - by apply get_ok.
  - apply (ok_moves _ w); [done|done|done|apply (queues_placed _ _ H)].
  - by apply take_ok.
  - by eapply handle_ok.
Qed.

Lemma reaches_ok w0 tr w : idle_cluster w0 → reaches w0 tr w → cluster_ok tr w.
Proof.
  intros (Hf & Ht & Hq). induction 1 as [|tr w es w' _ IH Hstep]; [|by eapply cluster_step_ok].
  split; cbn; rewrite ?Hf, ?Ht; try done.
  - cbn. rewrite app_nil_r. assert (queued (net w0) ⊆+ queued new_simulator) as Hs; [|done].
    apply queues_below. intros a q Ha. left. by eapply Hq.
  - intros a q msg Ha Hin. rewrite (Hq _ _ Ha) in Hin. by apply elem_of_nil in Hin.
  - intros b msg Hin. by apply elem_of_nil in Hin.
Qed.

(** *** Requests and answers *)

(** The requests made to [b], and those its handlers were given, with who made them. *)
Definition requests_to (b : string) (tr : list event) : list (string * message) :=
  omap (λ e, match e with called _ a b' _ m => if decide (b' = b) then Some (a, m) else None | _ => None end) tr.
Definition handled_by (b : string) (tr : list event) : list (string * message) :=
  omap (λ e, match e with handled b' msg _ m _ => if decide (b' = b) then Some (source_address msg, m) else None | _ => None end) tr.

(** What handlers answered to requests of [a], and what the calls made at [a] returned. *)
Definition answered_to (a : string) (tr : list event) : list message :=
  omap (λ e, match e with handled _ msg _ _ (Ret r) => if decide (source_address msg = a) then Some r else None | _ => None end) tr.
Definition returned_at (a : string) (tr : list event) : list message :=
  omap (λ e, match e with got _ a' _ _ (Ret r) => if decide (a' = a) then Some r else None | _ => None end) tr.

(** What a message says, by its port. *)
Definition says (kinds : list message_kind) (data : bytes) : option message :=
  head (omap (λ k, match ser_deserialize ser k data with Ret m => Some m | _ => None end) kinds).
Definition as_request (b : string) (msg : sim_message) : option (string * message) :=
  if decide (destination_address msg = b ∧ destination_port msg = rpc_port)
  then pair (source_address msg) <$> says (sr_request <$> all_rpcs) (payload msg) else None.
Definition as_response (a : string) (msg : sim_message) : option message :=
  if decide (destination_address msg = a ∧ destination_port msg = 0%N) then says (sr_response <$> all_rpcs) (payload msg) else None.

Lemma says_genuine kinds m : fits m → kind_of m ∈ kinds → says kinds (ser_serialize ser m) = Some m.
Proof.
  intros Hm. unfold says. induction kinds as [|k kinds IH]; intros Hin; [by apply elem_of_nil in Hin|]. cbn.
  destruct (decide (k = kind_of m)) as [->|Hne]; [by rewrite law_reads_back|].
  destruct (law_refuses m k Hm Hne) as [e ->]. apply IH. set_solver.
Qed.

Lemma request_kind_listed k : sr_request k ∈ sr_request <$> all_rpcs.
Proof. destruct (all_rpcs_complete k) as (? & ? & -> & _). set_solver. Qed.
Lemma response_kind_listed k : sr_response k ∈ sr_response <$> all_rpcs.
Proof. destruct (all_rpcs_complete k) as (? & ? & -> & _). set_solver. Qed.

Lemma requests_sent b tr : Forall event_ok tr → omap (as_request b) (sent_in tr) = requests_to b tr.
Proof.
  unfold sent_in, requests_to. induction 1 as [|e tr He _ IH]; [done|].
  destruct e as [i a b' k m|b' msg|b' msg k m [r|x|u]|i a k msg r]; cbn; try done.
  - destruct He as [Hm Hk]. unfold as_request at 1. cbn. destruct (decide (b' = b)) as [->|Hne].
    + rewrite decide_True by done. rewrite says_genuine; [|done|rewrite Hk; apply request_kind_listed]. cbn. by f_equal.
    + rewrite decide_False by naive_solver. done.
  - unfold as_request at 1. cbn. rewrite decide_False; [done|]. by intros [_ ?].
Qed.

Lemma requests_handled b tr : Forall event_ok tr → omap (as_request b) (handled_in tr) = handled_by b tr.
Proof.
  unfold handled_in, handled_by. induction 1 as [|e tr He _ IH]; [done|].
  destruct e as [i a b' k m|b' msg|b' msg k m r|i a k msg r]; cbn; try done.
  destruct He as (Hd & Hport & Hp & Hm & Hk & _). unfold as_request at 1. subst b'. destruct (decide (destination_address msg = b)) as [E|Hne].
  - rewrite decide_True by done. rewrite Hp, says_genuine; [|done|rewrite Hk; apply request_kind_listed]. cbn. by f_equal.
  - rewrite decide_False by naive_solver. done.
Qed.

Lemma responses_sent a tr : Forall event_ok tr → omap (as_response a) (sent_in tr) = answered_to a tr.
Proof.
  unfold sent_in, answered_to. induction 1 as [|e tr He _ IH]; [done|].
  destruct e as [i a' b' k m|b' msg|b' msg k m [r|x|u]|i a' k msg r]; cbn; try done.
  - unfold as_response at 1. cbn. rewrite decide_False; [done|]. by intros [_ ?].
  - destruct He as (_ & _ & _ & _ & _ & Hr). destruct (Hr r eq_refl) as [Hf Hk].
    unfold as_response at 1. cbn. destruct (decide (source_address msg = a)) as [Ha|Hne].
    + rewrite decide_True by done. rewrite says_genuine; [|done|rewrite Hk; apply response_kind_listed]. cbn. by f_equal.
    + rewrite decide_False by naive_solver. done.
Qed.

(** A call that returns took an answer: a request is refused as an answer. *)
Lemma response_got tr a k msg m : Forall event_ok tr → msg ∈ sent_in tr → destination_address msg = a →
  ser_deserialize ser (sr_response k) (payload msg) = Ret m → as_response a msg = Some m.
Proof.
  intros Hev Hin Ha Hd. unfold sent_in in Hin. apply list_elem_of_omap in Hin as (e & He & Hm).
  pose proof (proj1 (Forall_forall _ _) Hev _ He) as Hok.
  destruct e as [i' a' b' k' m'|b' msg'|b' msg' k' m' [r|x|u]|i' a' k' msg' r]; simplify_eq/=.
  - destruct Hok as [Hf Hk]. destruct (law_refuses m' (sr_response k) Hf) as [e Ee]; [rewrite Hk; apply not_eq_sym, sr_request_response|].
    congruence.
  - destruct Hok as (_ & _ & _ & _ & _ & Hr). destruct (Hr r eq_refl) as [Hf Hk]. unfold as_response. cbn. rewrite decide_True by done.
    destruct (decide (sr_response k = kind_of r)) as [E|Hne]; [|destruct (law_refuses r (sr_response k) Hf Hne); congruence].
    rewrite E, law_reads_back in Hd by done. injection Hd as <-. apply says_genuine; [done|]. rewrite Hk. apply response_kind_listed.
Qed.

Lemma responses_got all a tr : Forall event_ok tr → Forall event_ok all → got_in tr ⊆+ sent_in all →
  returned_at a tr ⊆+ omap (as_response a) (got_in tr).
Proof.
  intros Htr Hall Hgot. assert (∀ msg, msg ∈ got_in tr → msg ∈ sent_in all) as Hin by (intros msg Hm; by eapply elem_of_submseteq).
  clear Hgot. unfold got_in, returned_at in *. induction Htr as [|e tr He _ IH]; [done|].
  destruct e as [i a' b' k m|b' msg|b' msg k m r|i a' k msg r]; cbn in *; try (apply IH; set_solver).
  specialize (IH ltac:(set_solver)). destruct He as [Hd ->].
  destruct (ser_deserialize ser (sr_response k) (payload msg)) as [m|x|u] eqn:Em; cbn.
  2,3: by destruct (as_response a msg); [apply submseteq_cons|].
  destruct (decide (a' = a)) as [<-|Hne].
  - rewrite (response_got all a' k msg m Hall (Hin msg ltac:(set_solver)) Hd Em). by apply submseteq_skip.
  - by destruct (as_response a msg); [apply submseteq_cons|].
Qed.

(** C19. Calls over the simulator are genuine.  Let the serializer read back what it wrote
    and refuse it as any other type.  From a network with no message in it, in any
    execution of any number of clients and servers, with messages that are delayed and
    lost, calls that give up and other threads that change the network but put no
    message into it: every request is handled at most once, by the node it was made to,
    as it was made; and every answer that a call returns was given by a handler to a
    request of the node that made the call, and is returned once. *)
Theorem simulator_calls_genuine w0 tr w :
  idle_cluster w0 → reaches w0 tr w →
  (∀ b, handled_by b tr ⊆+ requests_to b tr) ∧ (∀ a, returned_at a tr ⊆+ answered_to a tr).
Proof.
  intros Hidle Hreach. destruct (reaches_ok _ _ _ Hidle Hreach) as [H1 H2 _ _ H5]. split.
  - intros b. rewrite <- requests_sent, <- requests_handled by done. apply omap_submseteq.
    etrans; [|exact H1]. etrans; [|apply submseteq_inserts_r; reflexivity]. etrans; [|exact H2]. apply submseteq_inserts_r. reflexivity.
  - intros a. assert (got_in tr ⊆+ sent_in tr) as Hgot.
    { etrans; [|exact H1]. apply submseteq_inserts_l, submseteq_inserts_r. reflexivity. }
    rewrite <- (responses_sent a) by done. etrans; [by apply (responses_got tr)|]. by apply omap_submseteq.
Qed.
End cluster.

(** ** The code's calls are executions *)

Section executions.
Context {S : Type} (ser : rpc_serializer) (fits : message → Prop) (bernoulli : nat → Q → bool) (hs : string → handlers S).
Local Abbreviation reaches := (reaches ser fits bernoulli hs).

Lemma reaches_trans w0 tr w tr' w' : reaches w0 tr w → reaches w tr' w' → reaches w0 (tr ++ tr') w'.
Proof.
  intros H. induction 1 as [|tr' w1 es w2 _ IH Hstep]; [by rewrite app_nil_r|]. rewrite (assoc_L (++)). by eapply reaches_step.
Qed.

Lemma reaches_one w es w' : cluster_step ser fits bernoulli hs w es w' → reaches w es w'.
Proof. intros H. change es with ([] ++ es). by eapply reaches_step; [constructor|]. Qed.

(** What other threads do while a thread sleeps: they may call, handle, and change the
    network, and leave alone what the thread has under way. *)
Definition others (i : nat) (b : string) (meanwhile : simulator → simulator) : Prop := ∀ w, ∃ tr sv cs,
  reaches w tr (mk_cluster (meanwhile (net w)) sv (flights w) (taken w) cs) ∧ cs !! i = calls w !! i ∧ sv !! b = servers w !! b.

(** A message under way, until [route_message] returns. *)
Lemma arrival_is_execution i b meanwhile o msg delay w r s' fl :
  others i b meanwhile → _started (net w) = true → flights w = fl ++ [(o, msg)] →
  (if bool_decide (0 < delay)%Z then
     let s := meanwhile (net w) in if negb (_started s) then (false, s) else (true, deliver_message msg s)
   else (true, deliver_message msg (net w))) = (r, s') →
  ∃ tr sv cs, reaches w tr (mk_cluster s' sv fl (taken w) (set_phase (if r : bool then waiting_answer else ended) o cs)) ∧
    cs !! i = calls w !! i ∧ sv !! b = servers w !! b.
Proof.
  intros Ho Hst Hfl. case_bool_decide.
  - destruct (Ho w) as (tr & sv & cs & Hr & Hc & Hs). cbv zeta. destruct (_started (meanwhile (net w))) eqn:Hst'; cbn [negb]; intros [= <- <-].
    + exists (tr ++ []), sv, cs. split_and!; [|done|done]. eapply reaches_step; [exact Hr|]. rewrite <- (app_nil_r fl).
      by eapply (step_arrive _ _ _ _ (mk_cluster _ _ _ _ _)).
    + exists (tr ++ []), sv, cs. split_and!; [|done|done]. eapply reaches_step; [exact Hr|]. rewrite <- (app_nil_r fl).
      by eapply (step_lost _ _ _ _ (mk_cluster _ _ _ _ _)).
  - intros [= <- <-]. exists [], (servers w), (calls w). split_and!; [|done|done]. apply reaches_one. rewrite <- (app_nil_r fl).
    by eapply step_arrive.
Qed.

Lemma begin_message_started msg s delay s' : begin_message bernoulli msg s = (Some delay, s') → _started s' = true.
Proof.
  intros H. destruct (begin_message_frame bernoulli msg s) as [n Hn]. rewrite H in Hn. cbn in Hn. subst s'.
  unfold begin_message in H. by destruct (_started s) eqn:E.
Qed.

(** The wait for a message. *)
Lemma receive_is_execution i b meanwhile n k w r w' :
  others i b meanwhile → calls w !! i = Some (_address n, k, waiting_answer) →
  (let! response := receive_for meanwhile in mlift (ser_deserialize ser (sr_response k) (payload response))) (n, Some (net w)) = (r, w') →
  (∀ u, r ≠ Undef u) →
  ∃ tr c s', reaches w tr c ∧ w' = (n, Some s') ∧ net c = s' ∧ flights c = flights w ∧ taken c = taken w ∧
    ∀ x, r = Ret x → ∃ msg, got i (_address n) k msg (Ret x) ∈ tr.
Proof.
  intros Ho Hi. unfold mlet, receive_for, retrieve_message_for.
  assert (∃ tr sv cs, reaches w tr (mk_cluster (if has_message (_address n) (net w) then net w else meanwhile (net w)) sv
    (flights w) (taken w) cs) ∧ cs !! i = calls w !! i) as (tr & sv & cs & Hr & Hc).
  { destruct (has_message (_address n) (net w)); [exists [], (servers w), (calls w); split; [destruct w; constructor|done]|].
    destruct (Ho w) as (tr & sv & cs & ? & ? & _). by exists tr, sv, cs. }
  set (s1 := if has_message (_address n) (net w) then net w else meanwhile (net w)) in *.
  rewrite Hi in Hc. destruct (negb (has_message (_address n) s1) || _closing s1) eqn:Hwait.
  - intros [= <- <-] _. eexists (tr ++ []), _, s1. split_and!; [eapply reaches_step; [exact Hr|by eapply (step_give_up _ _ _ _ (mk_cluster _ _ _ _ _))]|done..].
  - apply orb_false_iff in Hwait as [_ Hcl]. destruct (retrieve_message (_address n) s1) as [[msg|] s2] eqn:Hget.
    + unfold mlift. intros [= <- <-] _. eexists (tr ++ _), _, s2. split_and!; [eapply reaches_step; [exact Hr|by eapply (step_get _ _ _ _ (mk_cluster _ _ _ _ _))]|done..|].
      intros x Hx. exists msg. rewrite Hx. apply elem_of_app. right. by apply list_elem_of_singleton.
    + intros [= <- <-] Hu. by destruct (Hu "front of an empty queue").
Qed.

(** A call of [simulator_network_client], whatever other threads do while it sleeps and
    waits, is an execution; what it returns is what it took. *)
Theorem call_is_execution i b sending waiting n k target m w r w' :
  others i b sending → others i b waiting → calls w !! i = None → fits m → kind_of m = sr_request k →
  call ser bernoulli sending waiting k target m (n, Some (net w)) = (r, w') → (∀ u, r ≠ Undef u) →
  ∃ tr c s', reaches w tr c ∧ w' = (n, Some s') ∧ net c = s' ∧ flights c = flights w ∧ taken c = taken w ∧
    called i (_address n) target k m ∈ tr ∧ ∀ x, r = Ret x → ∃ msg, got i (_address n) k msg (Ret x) ∈ tr.
Proof.
  intros Hs Hw Hi Hm Hk. unfold call. rewrite (let_get (S := node_world)). cbn [fst]. unfold mlet at 1, send.
  set (msg := mk_message (_address n) target rpc_port (ser_serialize ser m)). rewrite route_message_split.
  destruct (begin_message bernoulli msg (net w)) as [[delay|] s1] eqn:Hb.
  2:{ cbn. intros [= <- <-] _. eexists [_], _, s1. split_and!; [apply reaches_one; by eapply step_call|done..|by cbn; rewrite app_nil_r|done|by left|done]. }
  pose proof (step_call _ fits _ hs w i (_address n) target k m _ _ Hi Hm Hk Hb) as Hcall.
  match type of Hcall with cluster_step _ _ _ _ _ _ ?c => set (w1 := c) in * end.
  destruct (if bool_decide (0 < delay)%Z then _ else _) as [sent s2] eqn:Hsent.
  destruct (arrival_is_execution i b sending (Some i) msg delay w1 sent s2 (flights w)) as (tr & sv & cs & Hr & Hc & _); try done.
  { by apply begin_message_started in Hb. }
  assert (cs !! i = Some (_address n, k, sending_request)) as Hc' by (rewrite Hc; apply lookup_insert_eq).
  assert (called i (_address n) target k m ∈ [called i (_address n) target k m] ++ tr) as Hcalled by by left.
  pose proof (reaches_trans _ _ _ _ _ (reaches_one _ _ _ Hcall) Hr) as Hreach. destruct sent; cbn [negb].
  2:{ intros [= <- <-] _. eexists _, _, s2. split_and!; [exact Hreach|done..]. }
  intros Hrec Hu. match type of Hreach with SimRpc.reaches _ _ _ _ _ _ ?c => set (w2 := c) in * end.
  destruct (receive_is_execution i b waiting n k w2 r w' Hw) as (tr2 & c & s' & Hr2 & -> & Hn & Hf & Ht & Hgot); [|exact Hrec|done|].
  { cbn. by rewrite lookup_alter_eq, Hc'. }
  exists (([called i (_address n) target k m] ++ tr) ++ tr2), c, s'. split_and!; [by eapply reaches_trans|done|done|done|done|set_solver|].
  intros x Hx. destruct (Hgot x Hx) as [y Hy]. exists y. set_solver.
Qed.

(** At most one handler answers. *)
Lemma handling_answers ks data st (hs' : handlers S) :
  answers (handling ser hs' ks data st).1 = [] ∨ ∃ x, answers (handling ser hs' ks data st).1 = [x].
Proof.
  revert st. induction ks as [|k ks IH]; intros st; cbn [handling]; [by left|].
  destruct (ser_deserialize ser (sr_request k) data) as [m|e|u]; [|apply IH|by left].
  destruct (hs' k) as [h|]; [|by left]. destruct (h m st) as [[x|e|u] st1]; [right; by exists x| |by left].
  specialize (IH st1). by destruct (handling ser hs' ks data st1) as [runs st2].
Qed.

Lemma response_is_execution i b sending n target x st w :
  others i b sending → servers w !! b = Some st → b = _address n →
  let msg := response_of b target (ser_serialize ser x) in
  let '(fl, s1) := begin_all bernoulli [msg] (net w) in
  ∃ tr c s', reaches (mk_cluster s1 (servers w) (flights w ++ fl) (taken w) (calls w)) tr c ∧
    (send_response ser bernoulli sending target x (st, (n, Some (net w)))).2 = (st, (n, Some s')) ∧
    net c = s' ∧ servers c !! b = Some st ∧ flights c = flights w ∧ taken c = taken w.
Proof.
  intros Ho Hb -> msg. cbn [begin_all]. unfold send_response, on_snd, send. cbn [fst snd].
  change (mk_message (_address n) target 0 (ser_serialize ser x)) with msg. rewrite route_message_split.
  destruct (begin_message bernoulli msg (net w)) as [[delay|] s1] eqn:Hbegin.
  2:{ exists [], (mk_cluster s1 (servers w) (flights w) (taken w) (calls w)), s1. rewrite app_nil_r. split_and!; try done. constructor. }
  set (w1 := mk_cluster s1 (servers w) (flights w ++ [(None, msg)]) (taken w) (calls w)).
  destruct (if bool_decide (0 < delay)%Z then _ else _) as [sent s2] eqn:Hsent.
  destruct (arrival_is_execution i (_address n) sending None msg delay w1 sent s2 (flights w)) as (tr & sv & cs & Hr & _ & Hs); try done.
  { by apply begin_message_started in Hbegin. }
  eexists tr, _, s2. split_and!; [exact Hr|done|done| |done|done]. cbn. by rewrite Hs.
Qed.

(** A round of [simulator_network_server] is an execution. *)
Theorem process_is_execution i b sending waiting n st w r st' w' :
  others i b sending → others i b waiting → b = _address n → servers w !! b = Some st →
  process_message ser bernoulli (hs b) sending waiting (st, (n, Some (net w))) = (r, (st', w')) →
  ∃ tr c s', reaches w tr c ∧ w' = (n, Some s') ∧ net c = s' ∧ servers c !! b = Some st' ∧
    flights c = flights w ∧ taken c = taken w.
Proof.
  intros Hs Hw Hb Hst Hp. assert ((process_message ser bernoulli (hs b) sending waiting (st, (n, Some (net w)))).2 = (st', w')) as Hp2 by by rewrite Hp.
  clear Hp r. revert Hp2. unfold process_message, mcatch, mlet, on_snd. cbn [fst snd]. unfold receive_on. rewrite <- Hb.
  assert (∃ tr sv cs, reaches w tr (mk_cluster (if has_port_message b rpc_port (net w) then net w else waiting (net w)) sv
    (flights w) (taken w) cs) ∧ sv !! b = Some st) as (tr & sv & cs & Hr & Hsv).
  { destruct (has_port_message b rpc_port (net w)); [exists [], (servers w), (calls w); split; [destruct w; constructor|done]|].
    destruct (Hw w) as (tr & sv & cs & ? & _ & ?). exists tr, sv, cs. split; [done|congruence]. }
  set (s1 := if has_port_message b rpc_port (net w) then net w else waiting (net w)) in *.
  destruct (retrieve_for_port b rpc_port s1) as [[msg|] s2] eqn:Hget.
  2:{ cbn. intros [= <- <-]. assert (s2 = s1) as ->.
      { revert Hget. unfold retrieve_for_port. repeat case_match; by intros [=]. }
      eexists tr, _, s1. split_and!; [exact Hr|done..]. }
  set (w1 := mk_cluster s2 sv (flights w) (taken w ++ [(b, msg)]) cs).
  assert (reaches w (tr ++ [took b msg]) w1) as Hr1.
  { eapply reaches_step; [exact Hr|]. by eapply (step_take _ _ _ _ (mk_cluster _ _ _ _ _)). }
  pose proof (try_each_handling ser (hs b) bernoulli sending all_rpcs msg st (n, Some s2)) as Htry.
  pose proof (handling_answers all_rpcs (payload msg) st (hs b)) as Hans.
  destruct (handling ser (hs b) all_rpcs (payload msg) st) as [runs st1] eqn:Hrun. cbn [fst] in Hans.
  destruct (begin_all bernoulli (response_of b (source_address msg) ∘ ser_serialize ser <$> answers runs) s2) as [fl s3] eqn:Hbegin.
  assert (reaches w ((tr ++ [took b msg]) ++ (run_event b msg <$> runs)) (mk_cluster s3 (<[b := st1]> sv) (flights w ++ fl) (taken w) cs)) as Hr2.
  { eapply reaches_step; [exact Hr1|]. rewrite <- (app_nil_r (taken w)). by eapply (step_handle _ _ _ _ w1). }
  intros Hp2. assert ((try_each ser bernoulli (hs b) sending all_rpcs msg (st, (n, Some s2))).2 = (st', w')) as Hend.
  { revert Hp2. unfold handle_message. match goal with |- (let (o, s') := try_each _ _ _ _ _ _ ?z in _).2 = _ → _ =>
      change (try_each ser bernoulli (hs b) sending all_rpcs msg (st, (n, Some s2))) with (try_each ser bernoulli (hs b) sending all_rpcs msg z);
      by destruct (try_each ser bernoulli (hs b) sending all_rpcs msg z) as [[?|?|?] ?] end. }
  apply (eq_trans (eq_sym Hend)) in Htry. destruct Hans as [Ha|[x Ha]]; rewrite Ha in Htry, Hbegin; cbn [foldl fmap list_fmap] in Htry, Hbegin.
  - injection Htry as -> ->. injection Hbegin as <- <-. rewrite app_nil_r in Hr2.
    eexists _, _, s2. split_and!; [exact Hr2|done|done|apply lookup_insert_eq|done|done].
  - pose proof (response_is_execution i b sending n (source_address msg) x st1 (mk_cluster s2 (<[b := st1]> sv) (flights w) (taken w) cs) Hs) as Hresp.
    cbn [net servers flights taken calls] in Hresp. specialize (Hresp (lookup_insert_eq _ _ _) Hb). cbv zeta in Hresp.
    change ((response_of b (source_address msg) ∘ ser_serialize ser) x) with (response_of b (source_address msg) (ser_serialize ser x)) in Hbegin.
    rewrite Hbegin in Hresp. destruct Hresp as (tr3 & c & s' & Hr3 & Hend3 & Hn & Hc & Hf & Ht).
    apply (λ E, eq_trans E Hend3) in Htry. injection Htry as -> ->. exists (((tr ++ [took b msg]) ++ (run_event b msg <$> runs)) ++ tr3), c, s'.
    split_and!; [by eapply reaches_trans|done..].
Qed.
End executions.

(** ** Executions by a list of actions *)

Inductive action : Type :=
  | a_call (i : nat) (a b : string) (k : sim_rpc) (m : message)
  | a_arrive (n : nat)
  | a_get (i : nat)
  | a_give_up (i : nat)
  | a_take (b : string)
  | a_handle (n : nat).

Section actions.
Context {S : Type} (ser : rpc_serializer) (fits : message → Prop) (bernoulli : nat → Q → bool) (hs : string → handlers S).

(** The step of an action, where it is possible. *)
Definition act (x : action) (w : cluster S) : option (list event * cluster S) :=
  match x with
  | a_call i a b k m =>
      if decide (calls w !! i = None ∧ kind_of m = sr_request k) then
        let msg := request_of a b (ser_serialize ser m) in
        let '(sent, s) := begin_message bernoulli msg (net w) in
        Some ([called i a b k m],
              mk_cluster s (servers w) (flights w ++ (if sent is Some _ then [(Some i, msg)] else [])) (taken w)
                (<[i := (a, k, if sent is Some _ then sending_request else ended)]> (calls w)))
      else None
  | a_arrive n =>
      match flights w !! n, _started (net w) with
      | Some (o, msg), true =>
          Some ([], mk_cluster (deliver_message msg (net w)) (servers w) (take n (flights w) ++ drop (1 + n) (flights w)) (taken w)
                      (set_phase waiting_answer o (calls w)))
      | _, _ => None
      end
  | a_get i =>
      match calls w !! i, _closing (net w) with
      | Some (a, k, waiting_answer), false =>
          match retrieve_message a (net w) with
          | (Some msg, s) =>
              Some ([got i a k msg (ser_deserialize ser (sr_response k) (payload msg))],
                    mk_cluster s (servers w) (flights w) (taken w) (set_phase ended (Some i) (calls w)))
          | _ => None
          end
      | _, _ => None
      end
  | a_give_up i =>
      match calls w !! i with
      | Some (_, _, waiting_answer) =>
          Some ([], mk_cluster (net w) (servers w) (flights w) (taken w) (set_phase ended (Some i) (calls w)))
      | _ => None
      end
  | a_take b =>
      match servers w !! b, retrieve_for_port b rpc_port (net w) with
      | Some _, (Some msg, s) => Some ([took b msg], mk_cluster s (servers w) (flights w) (taken w ++ [(b, msg)]) (calls w))
      | _, _ => None
      end
  | a_handle n =>
      match taken w !! n with
      | Some (b, msg) =>
          match servers w !! b with
          | Some st =>
              let '(runs, st') := handling ser (hs b) all_rpcs (payload msg) st in
              let '(fl, s) := begin_all bernoulli (response_of b (source_address msg) ∘ ser_serialize ser <$> answers runs) (net w) in
              Some (run_event b msg <$> runs,
                    mk_cluster s (<[b := st']> (servers w)) (flights w ++ fl) (take n (taken w) ++ drop (1 + n) (taken w)) (calls w))
          | None => None
          end
      | None => None
      end
  end.

Definition action_fits (x : action) : Prop := match x with a_call _ _ _ _ m => fits m | _ => True end.

Lemma act_step x w es w' : action_fits x → act x w = Some (es, w') → cluster_step ser fits bernoulli hs w es w'.
Proof.
  destruct x as [i a b k m|n|i|i|b|n]; cbn [act action_fits]; intros Hfits.
  - case_decide as Hc; [|done]. destruct Hc as [Hi Hk]. destruct (begin_message _ _ _) as [sent s] eqn:Hs. intros [= <- <-].
    by eapply step_call.
  - destruct (flights w !! n) as [[o msg]|] eqn:Hn; [|done]. destruct (_started (net w)) eqn:Hst; [|done]. intros [= <- <-].
    eapply step_arrive; [|done]. symmetry. by apply take_drop_middle.
  - destruct (calls w !! i) as [[[a k] []]|] eqn:Hi; [done| |done|done]. destruct (_closing (net w)) eqn:Hc; [done|].
    destruct (retrieve_message a (net w)) as [[msg|] s] eqn:Hr; [|done]. intros [= <- <-]. by eapply step_get.
  - destruct (calls w !! i) as [[[a k] []]|] eqn:Hi; [done| |done|done]. intros [= <- <-]. by eapply step_give_up.
  - destruct (servers w !! b) as [st|] eqn:Hb; [|done]. destruct (retrieve_for_port b rpc_port (net w)) as [[msg|] s] eqn:Hr; [|done].
    intros [= <- <-]. by eapply step_take.
  - destruct (taken w !! n) as [[b msg]|] eqn:Hn; [|done]. destruct (servers w !! b) as [st|] eqn:Hb; [|done].
    destruct (handling ser (hs b) all_rpcs (payload msg) st) as [runs st'] eqn:Hrun.
    match goal with |- context [begin_all bernoulli ?l (net w)] => destruct (begin_all bernoulli l (net w)) as [fl s] eqn:Hfl end. intros [= <- <-].
    eapply step_handle; [|done|exact Hrun|exact Hfl]. symmetry. by apply take_drop_middle.
Qed.

Fixpoint acts (xs : list action) (w : cluster S) : option (list event * cluster S) :=
  match xs with
  | [] => Some ([], w)
  | x :: xs =>
      match act x w with
      | Some (es, w) => match acts xs w with Some (tr, w) => Some (es ++ tr, w) | None => None end
      | None => None
      end
  end.

Lemma acts_reaches xs w0 tr w tr' w' : Forall action_fits xs → reaches ser fits bernoulli hs w0 tr w →
  acts xs w = Some (tr', w') → reaches ser fits bernoulli hs w0 (tr ++ tr') w'.
Proof.
  intros Hf. revert tr w tr'. induction Hf as [|x xs Hx _ IH]; intros tr w tr' Hr; cbn; [intros [= <- <-]; by rewrite app_nil_r|].
  destruct (act x w) as [[es w1]|] eqn:Hact; [|done]. destruct (acts xs w1) as [[tr1 w2]|] eqn:Hacts; [|done]. intros [= <- <-].
  rewrite (assoc_L (++)). eapply IH; [|exact Hacts]. eapply reaches_step; [exact Hr|]. by apply (act_step x).
Qed.
End actions.

(** ** A call that nothing disturbs *)

Section quiet.
Context {S : Type} (ser : rpc_serializer) (fits : message → Prop) `{!SerializerLaws ser fits}.
Context (bernoulli : nat → Q → bool) (hs : handlers S).

Definition linked (u v : string) (s : simulator) : Prop :=
  has_node u s = true ∧ has_node v s = true ∧ ∃ n, walk (_topology s) u n v.

(** Over working links a message arrives. *)
Lemma route_lands msg s :
  _started s = true → perfect_links s → linked (source_address msg) (destination_address msg) s →
  route_message bernoulli id msg s = (true, deliver_message msg s).
Proof.
  intros Hst Hperf (Hsrc & Hdst & n & Hw). unfold route_message. rewrite Hst, Hsrc, Hdst. cbn [negb orb].
  destruct (find_path_facts (_topology s) (source_address msg) (destination_address msg)) as (path & -> & Hnone & Hsome).
  destruct path as [|u path]; [exfalso; by apply (proj1 Hnone eq_refl n)|]. destruct Hsome as (_ & _ & Hp & _); [done|].
  destruct (traverse_perfect bernoulli (u :: path) 0 s Hperf Hp) as [total ->]. case_bool_decide; [|done]. cbn. by rewrite Hst.
Qed.

(** The state of the network that matters here, and what may be different. *)
Definition same_network (s s' : simulator) : Prop :=
  _topology s' = _topology s ∧ _started s' = _started s ∧ _closing s' = _closing s.

Lemma linked_same u v s s' : same_network s s' → linked u v s → linked u v s'.
Proof. intros (Ht & _) (H1 & H2 & H3). unfold linked, has_node in *. by rewrite Ht. Qed.
Lemma perfect_same s s' : same_network s s' → perfect_links s → perfect_links s'.
Proof. intros (Ht & _) H. unfold perfect_links. by rewrite Ht. Qed.

Lemma deliver_queue msg s q : _message_queues s !! destination_address msg = Some q →
  same_network s (deliver_message msg s) ∧
  _message_queues (deliver_message msg s) = <[destination_address msg := q ++ [msg]]> (_message_queues s).
Proof. intros Hq. unfold deliver_message. by rewrite Hq. Qed.

Definition on_network {X} (w : X * node_world) (s : simulator) : simulator := default s w.2.2.

(** A server whose only message is a request: the handler runs and the answer is put
    into the queue of the node that asked. *)
Lemma process_quiet (na nb : node) k h m r st st' s :
  let a := _address na in let b := _address nb in
  let request := request_of a b (ser_serialize ser m) in let response := response_of b a (ser_serialize ser r) in
  _started s = true → _closing s = false → perfect_links s → linked b a s → a ≠ b →
  _message_queues s !! a = Some [] → _message_queues s !! b = Some [request] →
  hs k = Some h → fits m → kind_of m = sr_request k → h m st = (Ret r, st') →
  ∃ s', (process_message ser bernoulli hs id id (st, (nb, Some s))).2 = (st', (nb, Some s')) ∧ same_network s s' ∧
    _message_queues s' = <[a := [response]]> (<[b := []]> (_message_queues s)).
Proof.
  intros a b request response Hst Hcl Hperf Hl Hab Ha Hb Hh Hm Hk Hr.
  set (s1 := set_queues (<[b := []]> (_message_queues s)) s).
  assert (receive_on id rpc_port (nb, Some s) = (Ret request, (nb, Some s1))) as E1.
  { unfold receive_on, retrieve_for_port, has_port_message. rewrite Hcl. fold b. rewrite Hb. cbn. rewrite Hcl. fold b. by rewrite Hb. }
  destruct (deliver_queue response s1 []) as [Hsame Hq]; [cbn; by rewrite lookup_insert_ne by done|].
  exists (deliver_message response s1). split_and!; [|by destruct Hsame as (? & ? & ?)|exact Hq].
  unfold process_message, mcatch, mlet, on_snd. cbn [fst snd]. rewrite E1. unfold handle_message.
  pose proof (try_each_handling ser hs bernoulli id all_rpcs request st (nb, Some s1)) as H.
  cbn [payload request request_of] in H. rewrite (handling_genuine ser fits hs k m st Hm Hk), Hh, Hr in H.
  change (answers [(k, m, Ret r)]) with [r] in H. change (source_address request) with a in H. cbn [foldl] in H.
  assert ((send_response ser bernoulli id a r (st', (nb, Some s1))).2 = (st', (nb, Some (deliver_message response s1)))) as E2.
  { unfold send_response, on_snd, send. cbn [fst snd]. fold b. change (mk_message b a 0 (ser_serialize ser r)) with response.
    by rewrite route_lands. }
  pose proof (eq_trans H E2) as H'. clear H.
  match goal with |- context [try_each _ _ _ _ _ _ ?w] =>
    assert ((try_each ser bernoulli hs id all_rpcs request w).2 = (st', (nb, Some (deliver_message response s1)))) as H2 by exact H';
    destruct (try_each ser bernoulli hs id all_rpcs request w) as [[x|e|u] w2]
  end; cbn in H2 |- *; by rewrite H2.
Qed.

(** C39. A call that nothing disturbs returns the handler's answer.  On a started
    simulator with working links both ways and empty queues, when the server takes its
    turn while the client waits: the call returns what the handler of its kind answers
    to the request, the handler has run once, and the queues are empty again. *)
Theorem quiet_call_returns (na nb : node) k h m r st st' s :
  let a := _address na in let b := _address nb in
  let server s := process_message ser bernoulli hs id id (st, (nb, Some s)) in
  _started s = true → _closing s = false → perfect_links s → linked a b s → linked b a s → a ≠ b →
  _message_queues s !! a = Some [] → _message_queues s !! b = Some [] →
  hs k = Some h → fits m → kind_of m = sr_request k → h m st = (Ret r, st') → fits r → kind_of r = sr_response k →
  (server (deliver_message (request_of a b (ser_serialize ser m)) s)).2.1 = st' ∧
  ∃ s2,
    call ser bernoulli id (λ s, on_network (server s).2 s) k b m (na, Some s) = (Ret r, (na, Some s2)) ∧
    _message_queues s2 = _message_queues s.
Proof.
  intros a b server Hst Hcl Hperf Hl Hl' Hab Ha Hb Hh Hm Hk Hr Hf Hkr.
  set (request := request_of a b (ser_serialize ser m)).
  destruct (deliver_queue request s [] Hb) as [Hsame1 Hq1]. set (s1 := deliver_message request s) in *.
  pose proof Hsame1 as (Ht1 & Hst1 & Hcl1). cbn in Hq1. fold b in Hq1.
  destruct (process_quiet na nb k h m r st st' s1) as (s2 & Hp & Hsame2 & Hq2); try done.
  { by rewrite Hst1. } { by rewrite Hcl1. } { by eapply perfect_same. } { by eapply linked_same. }
  { rewrite Hq1. by rewrite lookup_insert_ne. } { rewrite Hq1. by rewrite lookup_insert_eq. }
  fold a b in Hq2. destruct Hsame2 as (_ & _ & Hcl2).
  split; [unfold server; fold request; fold s1; by rewrite Hp|].
  exists (set_queues (<[a := []]> (_message_queues s2)) s2). split.
  - unfold call, mlet, mget, send. cbn [fst snd negb]. fold a. change (mk_message a b rpc_port (ser_serialize ser m)) with request.
    rewrite (route_lands request s Hst Hperf Hl). fold s1. cbn [negb]. unfold receive_for, retrieve_message_for. fold a.
    assert (has_message a s1 = false) as ->.
    { unfold has_message. rewrite Hcl1, Hcl, Hq1, lookup_insert_ne, Ha by done. done. }
    cbv beta iota zeta. unfold server, on_network. rewrite Hp. cbn [snd fst default from_option id]. cbv beta iota zeta.
    assert (_message_queues s2 !! a = Some [response_of b a (ser_serialize ser r)]) as Hqa by (rewrite Hq2; apply lookup_insert_eq).
    assert (has_message a s2 = true) as ->. { unfold has_message. rewrite Hqa. by destruct (_closing s2). }
    rewrite Hcl2, Hcl1, Hcl. cbn [negb orb]. unfold retrieve_message. rewrite Hqa. unfold mlift. cbn [payload response_of].
    by rewrite <- Hkr, law_reads_back.
  - cbn. rewrite Hq2, Hq1. rewrite insert_insert_eq, (insert_insert_eq _ b). rewrite (insert_id _ a []); [|by rewrite lookup_insert_ne].
    by apply insert_id.
Qed.
End quiet.

(** ** Two nodes *)

Module SimRpcExample.
Definition link : network_edge := mk_edge 5 (inject_Z 1).
Definition net0 : simulator :=
  start (add_edge "2" "1" link (add_edge "1" "2" link (create_node "2" (create_node "1" new_simulator)))).

(** The node counts the votes it gives. *)
Definition vote (m : message) : M nat message := λ n, (Ret (msg_request_vote_response (mk_vote_resp 1 true)), S n).
Definition voter : handlers nat := register_handler sr_request_vote vote (λ _, None).
Definition ballot : message := msg_request_vote_request (mk_vote_req 1 1 0 0).

Definition cluster0 : cluster nat := mk_cluster net0 {["2" := 0]} [] [] ∅.
Definition actions : list action := [a_call 0 "1" "2" sr_request_vote ballot; a_arrive 0; a_take "2"; a_handle 0; a_arrive 0; a_get 0].

Lemma voter_typed (b : string) k h m st r st' : voter k = Some h → h m st = (Ret r, st') → message_fits r ∧ kind_of r = sr_response k.
Proof. unfold voter, register_handler. case_decide as Hk; [|done]. intros [= <-] [= <- <-]. by subst k. Qed.

Lemma net0_idle : idle_cluster cluster0.
Proof.
  split_and!; [done|done|]. assert (map_Forall (λ _ q, q = []) (_message_queues net0)) as H by (apply (bool_decide_unpack _); by vm_compute).
  exact H.
Qed.

Lemma net0_perfect : perfect_links net0.
Proof.
  assert (map_Forall (λ _ edges, map_Forall (λ _ e, Qle_bool 1 (reliability e) = true) edges) (_topology net0)) as H
    by (apply (bool_decide_unpack _); by vm_compute).
  intros u edges v e Hu Hv. exact (H u edges Hu v e Hv).
Qed.

Lemma net0_linked u v : edge (_topology net0) u v → has_node u net0 = true → has_node v net0 = true → linked u v net0.
Proof. intros He Hu Hv. split_and!; [done|done|]. exists 1. by eapply (walk_step _ _ 0 u); [constructor|]. Qed.
End SimRpcExample.

Lemma simulator_calls_genuine_witness :
  ∃ tr w, acts cbor_rpc_serializer (λ _ _, false) (λ _, SimRpcExample.voter) SimRpcExample.actions SimRpcExample.cluster0 = Some (tr, w) ∧
    returned_at "1" tr = [msg_request_vote_response (mk_vote_resp 1 true)] ∧
    (∀ b, handled_by b tr ⊆+ requests_to b tr) ∧ (∀ a, returned_at a tr ⊆+ answered_to a tr).
Proof.
  assert (H : (λ p : list event * cluster nat, returned_at "1" p.1) <$>
    acts cbor_rpc_serializer (λ _ _, false) (λ _, SimRpcExample.voter) SimRpcExample.actions SimRpcExample.cluster0 =
    Some [msg_request_vote_response (mk_vote_resp 1 true)]) by (vm_compute; reflexivity).
  destruct (acts _ _ _ _ _) as [[tr w]|] eqn:E; [|done]. injection H as H. exists tr, w. split_and!; [done|done|..].
  all: apply (simulator_calls_genuine cbor_rpc_serializer message_fits (λ _ _, false) (λ _, SimRpcExample.voter)
    SimRpcExample.voter_typed SimRpcExample.cluster0 tr w SimRpcExample.net0_idle).
  all: refine (acts_reaches _ _ _ _ SimRpcExample.actions SimRpcExample.cluster0 [] SimRpcExample.cluster0 tr w _ (reaches_start _ _ _ _ _) E).
  all: unfold SimRpcExample.actions; repeat (apply Forall_cons; split); try exact I; [by cbn; split_and!|constructor].
Defined.

Lemma quiet_call_returns_witness :
  let server s := process_message cbor_rpc_serializer (λ _ _, false) SimRpcExample.voter id id (0, (mk_node "2" ∅, Some s)) in
  ∃ s2, call cbor_rpc_serializer (λ _ _, false) id (λ s, on_network (server s).2 s) sr_request_vote "2" SimRpcExample.ballot
    (mk_node "1" ∅, Some SimRpcExample.net0) = (Ret (msg_request_vote_response (mk_vote_resp 1 true)), (mk_node "1" ∅, Some s2)).
Proof.
  destruct (quiet_call_returns cbor_rpc_serializer message_fits (λ _ _, false) SimRpcExample.voter (mk_node "1" ∅) (mk_node "2" ∅)
    sr_request_vote SimRpcExample.vote SimRpcExample.ballot (msg_request_vote_response (mk_vote_resp 1 true)) 0 1 SimRpcExample.net0)
    as [_ (s2 & H & _)]; try done.
  - exact SimRpcExample.net0_perfect.
  - apply SimRpcExample.net0_linked; [by vm_compute; left|by vm_compute..].
  - apply SimRpcExample.net0_linked; [by vm_compute; left|by vm_compute..].
  - by exists s2.
Defined.
