(* ===== verification/SimRpcServers.v ===== *)
(** The lifetime of [simulator_network_server] ([include/raft/simulator_network.hpp]):
    objects, the thread each of them starts, stopping, moving and destruction.

    Objects are numbers, as are threads.  The function of a thread keeps the object that
    started it; the constructor and the assignment that move a server hand the thread
    over to the new object. *)

From S2P Require Import Prelude.

Local Open Scope nat_scope.

(** [_node] is a null pointer once it was moved from; [_server_thread] is joinable or
    not. *)
Record sim_server : Type := mk_sim_server {
  srv_node : option string;
  srv_running : bool;
  srv_thread : option nat
}.

(** [loops]: the threads that run [process_messages], with the object they run it of. *)
Record server_heap : Type := mk_heap {
  objects : gmap nat sim_server;
  loops : gmap nat nat
}.

Definition put_server (p : nat) (o : sim_server) (w : server_heap) : server_heap := mk_heap (<[p := o]> (objects w)) (loops w).

Definition construct (p : nat) (node : string) (w : server_heap) : server_heap :=
  put_server p (mk_sim_server (Some node) false None) w.

(** [t]: a new thread.  Assigning to a joinable thread ends the program. *)
Definition server_start (p t : nat) : M server_heap () := λ w,
  match objects w !! p with
  | None => (Undef "use of a destroyed server", w)
  | Some o =>
      if srv_running o then (Ret tt, w)
      else match srv_thread o with
           | Some _ => (Undef "std::terminate", put_server p (mk_sim_server (srv_node o) true (srv_thread o)) w)
           | None => (Ret tt, mk_heap (<[p := mk_sim_server (srv_node o) true (Some t)]> (objects w)) (<[t := p]> (loops w)))
           end
  end.

(** The test and the first statement of the loop of [process_messages]: whether the
    thread goes on. *)
Definition loop_round (t : nat) : M server_heap bool := λ w,
  match loops w !! t with
  | None => (Ret false, w)
  | Some p =>
      match objects w !! p with
      | None => (Undef "use of a destroyed server", w)
      | Some o =>
          if srv_running o
          then match srv_node o with
               | Some _ => (Ret true, w)
               | None => (Undef "null pointer", w)
               end
          else (Ret false, mk_heap (objects w) (delete t (loops w)))
      end
  end.

(** [stop] until it waits for the thread; [false]: there is nothing to wait for. *)
Definition stop_begin (p : nat) : M server_heap bool := λ w,
  match objects w !! p with
  | None => (Undef "use of a destroyed server", w)
  | Some o =>
      if srv_running o
      then (Ret (bool_decide (is_Some (srv_thread o))), put_server p (mk_sim_server (srv_node o) false (srv_thread o)) w)
      else (Ret false, w)
  end.

(** [join], which returns when the thread has ended. *)
Definition can_join (p : nat) (w : server_heap) : Prop :=
  ∃ o t, objects w !! p = Some o ∧ srv_thread o = Some t ∧ loops w !! t = None.
Definition join (p : nat) (w : server_heap) : server_heap :=
  match objects w !! p with
  | Some o => put_server p (mk_sim_server (srv_node o) (srv_running o) None) w
  | None => w
  end.

(** The constructor that moves [p] to the new object [q]. *)
Definition move_construct (p q : nat) : M server_heap () := λ w,
  match objects w !! p with
  | None => (Undef "use of a destroyed server", w)
  | Some o => (Ret tt, put_server q o (put_server p (mk_sim_server None (srv_running o) None) w))
  end.

(** The assignment of [p] to [q], after [stop] of [q]. *)
Definition move_assign (p q : nat) : M server_heap () := λ w,
  if decide (p = q) then (Ret tt, w) else
  match objects w !! p, objects w !! q with
  | Some o, Some old =>
      match srv_thread old with
      | Some _ => (Undef "std::terminate", w)
      | None => (Ret tt, put_server q o (put_server p (mk_sim_server None (srv_running o) None) w))
      end
  | _, _ => (Undef "use of a destroyed server", w)
  end.

(** The end of the destructor, after [stop]: a thread that is still joinable ends the
    program. *)
Definition destroy_end (p : nat) : M server_heap () := λ w,
  match objects w !! p with
  | None => (Undef "use of a destroyed server", w)
  | Some o =>
      match srv_thread o with
      | Some _ => (Undef "std::terminate", w)
      | None => (Ret tt, mk_heap (delete p (objects w)) (loops w))
      end
  end.

(** ** Servers that are moved only when they do not run *)

Definition at_rest (p : nat) (w : server_heap) : Prop :=
  ∃ o, objects w !! p = Some o ∧ srv_running o = false ∧ srv_thread o = None.

Inductive server_step (w : server_heap) : server_heap → Prop :=
  | step_construct p node : objects w !! p = None → server_step w (construct p node w)
  | step_start p t : loops w !! t = None → (∀ p o, objects w !! p = Some o → srv_thread o ≠ Some t) →
      (∀ o, objects w !! p = Some o → is_Some (srv_node o) ∧ (srv_running o = false → srv_thread o = None)) →
      server_step w (server_start p t w).2
  | step_loop t : server_step w (loop_round t w).2
  | step_stop p : server_step w (stop_begin p w).2
  | step_join p : can_join p w → server_step w (join p w)
  | step_move p q : at_rest p w → objects w !! q = None → server_step w (move_construct p q w).2
  | step_assign p q : at_rest p w → at_rest q w → server_step w (move_assign p q w).2
  | step_destroy p : at_rest p w → server_step w (destroy_end p w).2.

(** Each thread runs the loop of the object that holds it. *)
Record servers_ok (w : server_heap) : Prop := {
  loop_owned t p : loops w !! t = Some p → ∃ o, objects w !! p = Some o ∧ srv_thread o = Some t ∧ is_Some (srv_node o);
  running_looped p o : objects w !! p = Some o → srv_running o = true → ∃ t, srv_thread o = Some t ∧ loops w !! t = Some p
}.

Lemma empty_servers_ok : servers_ok (mk_heap ∅ ∅).
Proof. by split. Qed.

(** An object is replaced by one with the same thread and node. *)
Lemma put_ok p o o' w : servers_ok w → objects w !! p = Some o → srv_thread o' = srv_thread o → srv_node o' = srv_node o →
  (srv_running o' = true → srv_running o = true) → servers_ok (put_server p o' w).
Proof.
  intros [H1 H2] Hp Ht Hn Hr. split; cbn.
  - intros t q Hq. destruct (H1 t q Hq) as (x & Hx & Hxt & Hxn). destruct (decide (p = q)) as [<-|Hne].
    + exists o'. rewrite lookup_insert_eq. split_and!; [done|congruence|by simplify_eq; rewrite Hn].
    + exists x. by rewrite lookup_insert_ne.
  - intros q x [[<- <-]|[Hne Hx]]%lookup_insert_Some Hrun; [|by apply H2]. rewrite Ht. apply (H2 p o); auto.
Qed.

(** A server at rest has no thread, so that it can be dropped or replaced by one at
    rest. *)
Lemma rest_not_looped p w t q : servers_ok w → at_rest p w → loops w !! t = Some q → q ≠ p.
Proof.
  intros [H1 _] (o & Ho & _ & Ht) Hl ->. destruct (H1 t p Hl) as (x & Hx & Hxt & _). congruence.
Qed.

Lemma put_rest_ok p o w : servers_ok w → (objects w !! p = None ∨ at_rest p w) → srv_running o = false → servers_ok (put_server p o w).
Proof.
  intros Hok Hp Hr. pose proof Hok as [H1 H2]. split; cbn.
  - intros t q Hq. destruct (H1 t q Hq) as (x & Hx & ?). exists x. rewrite lookup_insert_ne; [done|]. intros ->.
    destruct Hp as [Hp|Hp]; [congruence|by eapply rest_not_looped].
  - intros q x [[<- <-]|[Hne Hx]]%lookup_insert_Some Hrun; [congruence|by apply H2].
Qed.

Lemma start_ok p t w : servers_ok w → loops w !! t = None → (∀ p o, objects w !! p = Some o → srv_thread o ≠ Some t) →
  (∀ o, objects w !! p = Some o → is_Some (srv_node o) ∧ (srv_running o = false → srv_thread o = None)) →
  servers_ok (server_start p t w).2.
Proof.
  intros [H1 H2] Ht Hfresh Hp. unfold server_start. destruct (objects w !! p) as [o|] eqn:Ho; [|done]. destruct (Hp o eq_refl) as [Hn Hth].
  destruct (srv_running o) eqn:Hr; [done|]. rewrite Hth by done. cbn. split; cbn.
  - intros t' q [[<- <-]|[Hne Hq]]%lookup_insert_Some; [eexists; rewrite lookup_insert_eq; by split_and!|].
    destruct (H1 t' q Hq) as (x & Hx & Hxt & Hxn). exists x. rewrite lookup_insert_ne; [done|]. intros ->. rewrite Ho in Hx. injection Hx as <-.
    by rewrite Hth in Hxt.
  - intros q x [[<- <-]|[Hne Hx]]%lookup_insert_Some Hrun; [exists t; split; [done|apply lookup_insert_eq]|].
    destruct (H2 q x Hx Hrun) as (t' & Hxt & Hl). exists t'. split; [done|]. rewrite lookup_insert_ne; [done|]. intros ->. by eapply Hfresh.
Qed.

Lemma loop_ok t w : servers_ok w → servers_ok (loop_round t w).2.
Proof.
  intros Hok. pose proof Hok as [H1 H2]. unfold loop_round. destruct (loops w !! t) as [p|] eqn:Ht; [|done].
  destruct (H1 t p Ht) as (o & Ho & Hot & Hn). rewrite Ho. destruct (srv_running o) eqn:Hr; [by destruct Hn as [a ->]|]. split; cbn.
  - intros t' q [_ Hq]%lookup_delete_Some. by apply H1.
  - intros q x Hx Hrun. destruct (H2 q x Hx Hrun) as (t' & Hxt & Hl). exists t'. split; [done|]. rewrite lookup_delete_ne; [done|].
    intros ->. simplify_eq. congruence.
Qed.

Lemma server_step_ok w w' : servers_ok w → server_step w w' → servers_ok w'.
Proof.
  intros Hok Hstep. pose proof Hok as [H1 H2]. destruct Hstep as [p node Hp|p t Ht Hf Hp|t|p|p (o & t & Ho & Hot & Hl)|p q Hp Hq|p q Hp Hq|p Hp].
  - apply put_rest_ok; [done|by left|done].
  - by apply start_ok.
  - by apply loop_ok.
  - unfold stop_begin. destruct (objects w !! p) as [o|] eqn:Ho; [|done]. destruct (srv_running o); [|done]. by eapply put_ok.
  - unfold join. rewrite Ho. split; cbn.
    + intros t' q Hq. destruct (H1 t' q Hq) as (x & Hx & Hxt & ?). exists x. rewrite lookup_insert_ne; [done|]. intros ->. congruence.
    + intros q x [[<- <-]|[Hne Hx]]%lookup_insert_Some Hrun; [|by apply H2]. destruct (H2 p o Ho Hrun) as (t' & ? & ?). congruence.
  - pose proof Hp as (o & Ho & Hr & Ht). unfold move_construct. rewrite Ho, Hr. cbn.
    apply put_rest_ok; [apply put_rest_ok; [done|by right|done]| |done]. left. cbn. rewrite lookup_insert_ne; [done|congruence].
  - pose proof Hp as (o & Ho & Hr & Ht). pose proof Hq as (o' & Ho' & Hr' & Ht'). unfold move_assign. case_decide; [done|]. rewrite Ho, Ho', Ht', Hr. cbn.
    apply put_rest_ok; [apply put_rest_ok; [done|by right|done]| |done]. right. exists o'. cbn. by rewrite lookup_insert_ne.
  - pose proof Hp as (o & Ho & Hr & Ht). unfold destroy_end. rewrite Ho, Ht. cbn. split; cbn.
    + intros t q Hq. destruct (H1 t q Hq) as (x & Hx & ?). exists x. rewrite lookup_delete_ne; [done|]. by apply not_eq_sym, (rest_not_looped _ w t).
    + intros q x [_ Hx]%lookup_delete_Some. by apply H2.
Qed.

(** As long as servers are moved and destroyed only at rest, no thread ever touches an
    object that is gone or was moved from, and a server whose [stop] has returned is
    touched by none. *)
Theorem server_threads_safe w t p :
  rtc server_step (mk_heap ∅ ∅) w →
  (∀ u, (loop_round t w).1 ≠ Undef u) ∧ (at_rest p w → ∀ t q, loops w !! t = Some q → q ≠ p).
Proof.
  intros Hreach. assert (servers_ok w) as Hok.
  { pose proof empty_servers_ok as H. induction Hreach as [|x y z Hstep _ IH]; [done|]. by apply IH, (server_step_ok x). }
  split; [|intros Hp t' q; by apply rest_not_looped]. intros u. unfold loop_round. destruct (loops w !! t) as [q|] eqn:Ht; [|done].
  destruct (loop_owned w Hok t q Ht) as (o & -> & _ & [a ->]). by destruct (srv_running o).
Qed.

Lemma server_threads_safe_witness :
  let w := (server_start 0 7 (construct 0 "1" (mk_heap ∅ ∅))).2 in
  loops w !! 7 = Some 0 ∧ ∀ u, (loop_round 7 w).1 ≠ Undef u.
Proof.
  split; [done|]. eapply (server_threads_safe _ 7 0). eapply rtc_l; [by apply (step_construct _ 0 "1")|]. apply rtc_once.
  apply step_start; [done|..].
  - cbn. intros p o [[<- <-]|[_ Ho]]%lookup_insert_Some; [done|by rewrite lookup_empty in Ho].
  - cbn. intros o [[_ <-]|[? ?]]%lookup_insert_Some; [by split|done].
Defined.

(** A server that is moved while it runs: its thread goes on with the old object, whose
    node is gone, and [stop] of the new one waits for a thread that its flag does not
    reach. *)
Theorem moved_running_server :
  let w := (server_start 0 7 (construct 0 "1" (mk_heap ∅ ∅))).2 in
  let moved := (move_construct 0 1 w).2 in
  let stopped := stop_begin 1 moved in
  (loop_round 7 moved).1 = Undef "null pointer" ∧
  stopped.1 = Ret true ∧ ¬ can_join 1 stopped.2 ∧ (loop_round 7 stopped.2).1 = Undef "null pointer".
Proof.
  cbv zeta. split_and!; [done|done| |done]. intros (o & t & Ho & Ht & Hl). vm_compute in Ho. injection Ho as <-.
  vm_compute in Ht. injection Ht as <-. by vm_compute in Hl.
Qed.

(** [stop] waits for its thread without the mutex: a [start] in the meantime assigns a
    new thread to one that is joinable. *)
Theorem start_during_stop_terminates :
  let w := (server_start 0 7 (construct 0 "1" (mk_heap ∅ ∅))).2 in
  (server_start 0 8 (stop_begin 0 w).2).1 = Undef "std::terminate".
Proof. done. Qed.
