(* ===== verification/SimRpcDivergence.v ===== *)
(** An answer that comes too late.

    [simulator_network_client] takes the next message at its own address for the
    answer of its call.  Here a leader gives up waiting for the answer to a heartbeat,
    and the next call, to another node, takes it: the leader counts a replica that does
    not exist and commits an entry that only it has.  And a client that waits takes a
    request that another node made to its own node. *)

From stdpp Require Import strings pretty.
From Stdlib Require Import QArith.
From S2P Require Import Prelude Types ConfigEntry Membership Persistence Node KvStateMachine Log Roles Sample AppendEntries.
From S2P Require Import Apply Election Snapshot Replication MembershipChange Client QuorumLoop Lifecycle Divergence.
From S2P Require Import JsonSerializer CborSerializer SerializerRegistry SimObjects NetworkSim SimConnections SimProofs SimRpc.

(** ** A leader, and a follower that has its first two entries *)

Module late_answer.
Definition candidate := campaign (sample_node 1).
Definition voted := vote_by candidate (sample_node 2).
Definition elected := submit stale_commit.put1 (elect candidate 2 voted.1).
Definition rejected := deliver 2 elected voted.2.
Definition backed_off := answered 2 2 rejected.1 elected.
Definition accepted := deliver 2 backed_off rejected.2.
Definition committed := answered 2 1 accepted.1 backed_off.

Definition node2 : sample_node_type := accepted.2.
Definition node3 : sample_node_type := sample_node 3.

(** The heartbeat to node 2, and after the next command the request to node 3. *)
Definition no_request : append_entries_request := mk_append_req 0 0 0 0 [] 0.
Definition heartbeat : append_entries_request := match heartbeat_request 2 committed with Ret r => r | _ => no_request end.
Definition leader : sample_node_type := submit stale_commit.put2 committed.
Definition request : append_entries_request := default no_request (request_to 3 leader).
End late_answer.
Import late_answer.

Definition append_handler (m : message) : M sample_node_type message :=
  match m with
  | msg_append_entries_request r => let! response := handle_append_entries r in mreturn (msg_append_entries_response response)
  | _ => mundef "wrong type"
  end.
Definition raft_handlers (b : string) : handlers sample_node_type := λ k,
  match k with sr_append_entries => Some append_handler | _ => None end.

Definition link : network_edge := mk_edge 5 (inject_Z 1).
Definition raft_network : simulator :=
  start (add_edge "3" "1" link (add_edge "1" "3" link (add_edge "2" "1" link (add_edge "1" "2" link
    (create_node "3" (create_node "2" (create_node "1" new_simulator))))))).
Definition raft_cluster : cluster sample_node_type := mk_cluster raft_network {["2" := node2; "3" := node3]} [] [] ∅.

Abbreviation raft_reaches := (reaches cbor_rpc_serializer message_fits (λ _ _, false) raft_handlers).

(** The heartbeat to node 2 arrives and the leader gives up; node 2 answers; the
    request to node 3 arrives and waits there; the leader takes the answer. *)
Definition late_actions : list action :=
  [a_call 0 "1" "2" sr_append_entries (msg_append_entries_request heartbeat); a_arrive 0; a_give_up 0; a_take "2"; a_handle 0;
   a_arrive 0; a_call 1 "1" "3" sr_append_entries (msg_append_entries_request request); a_arrive 0; a_get 1].

Definition answer_of_node2 : append_entries_response := mk_append_resp 1 true None None.
Definition late_message : sim_message :=
  response_of "2" "1" (cbor_serialize (msg_append_entries_response answer_of_node2)).

Lemma heartbeat_fits : message_fits (msg_append_entries_request heartbeat).
Proof.
  assert (heartbeat = mk_append_req 1 1 2 1 [] 2) as -> by (vm_compute; reflexivity).
  cbn. split_and!; try done.
Qed.
Lemma request_fits : message_fits (msg_append_entries_request request).
Proof.
  assert (request = mk_append_req 1 1 1 1 [put_entry 1 2 [x61] [x01]; put_entry 1 3 [x61] [x02]] 2) as -> by (vm_compute; reflexivity).
  cbn. split_and!; try done. split; [done|]. repeat constructor; by vm_compute.
Qed.

Lemma late_run : ∃ tr w,
  acts cbor_rpc_serializer (λ _ _, false) raft_handlers late_actions raft_cluster = Some (tr, w) ∧
  tr !! 3 = Some (called 1 "1" "3" sr_append_entries (msg_append_entries_request request)) ∧
  tr !! 4 = Some (got 1 "1" sr_append_entries late_message (Ret (msg_append_entries_response answer_of_node2))) ∧
  map_Forall (λ _ st, length (_log st) < 3) (servers w).
Proof.
  assert (H : (λ p : list event * cluster sample_node_type,
    (p.1 !! 3, p.1 !! 4, bool_decide (map_Forall (λ _ st, length (_log st) < 3) (servers p.2)))) <$>
      acts cbor_rpc_serializer (λ _ _, false) raft_handlers late_actions raft_cluster =
    Some (Some (called 1 "1" "3" sr_append_entries (msg_append_entries_request request)),
          Some (got 1 "1" sr_append_entries late_message (Ret (msg_append_entries_response answer_of_node2))), true))
    by (vm_compute; reflexivity).
  destruct (acts _ _ _ _ _) as [[tr w]|]; [|done]. injection H as H3 H4 H5.
  exists tr, w. split_and!; [done|done|done|]. by apply bool_decide_eq_true in H5.
Qed.

(** The call to node 3 returns what node 2 answered to the heartbeat.  The leader takes
    it as a success of node 3, and commits its third entry, which no other node has. *)
Theorem late_answer_commits_unreplicated :
  ∃ tr w msg response,
    raft_reaches raft_cluster tr w ∧
    called 1 "1" "3" sr_append_entries (msg_append_entries_request request) ∈ tr ∧
    got 1 "1" sr_append_entries msg (Ret (msg_append_entries_response response)) ∈ tr ∧
    source_address msg = "2" ∧
    _commit_index leader = 2%N ∧ _commit_index (answered 3 2 (Ret response) leader) = 3%N ∧
    (∀ b st, servers w !! b = Some st → length (_log st) < 3).
Proof.
  destruct late_run as (tr & w & E & H1 & H2 & H3).
  exists tr, w, late_message, answer_of_node2. split_and!; [| | |by vm_compute..|].
  - refine (acts_reaches _ _ _ _ late_actions raft_cluster [] raft_cluster tr w _ (reaches_start _ _ _ _ _) E).
    unfold late_actions. repeat (apply Forall_cons; split); try exact I; [exact heartbeat_fits|exact request_fits|constructor].
  - by eapply list_elem_of_lookup_2.
  - by eapply list_elem_of_lookup_2.
  - exact H3.
Qed.

(** Node 1 waits for an answer of node 3 when a heartbeat of node 2 arrives for it: the
    client takes the request for its answer and fails, and no handler is given it. *)
Definition stealing_actions : list action :=
  [a_call 0 "1" "3" sr_append_entries (msg_append_entries_request request); a_arrive 0;
   a_call 1 "2" "1" sr_append_entries (msg_append_entries_request heartbeat); a_arrive 0; a_get 0].
Definition stolen : sim_message := request_of "2" "1" (cbor_serialize (msg_append_entries_request heartbeat)).

Theorem waiting_client_steals_request :
  ∃ tr w e,
    acts cbor_rpc_serializer (λ _ _, false) raft_handlers stealing_actions
      (mk_cluster raft_network {["1" := leader; "3" := node3]} [] [] ∅) = Some (tr, w) ∧
    got 0 "1" sr_append_entries stolen (Throw e) ∈ tr ∧
    _message_queues (net w) !! "1" = Some [] ∧ taken w = [] ∧ handled_by "1" tr = [].
Proof.
  assert (H : (λ p : list event * cluster sample_node_type,
    (p.1 !! 2, _message_queues (net p.2) !! "1", taken p.2, handled_by "1" p.1)) <$>
      acts cbor_rpc_serializer (λ _ _, false) raft_handlers stealing_actions
        (mk_cluster raft_network {["1" := leader; "3" := node3]} [] [] ∅) =
    Some (Some (got 0 "1" sr_append_entries stolen
      (Throw (serialization_exception "Invalid message type, expected append_entries_response"))), Some [], [], []))
    by (vm_compute; reflexivity).
  destruct (acts _ _ _ _ _) as [[tr w]|]; [|done]. injection H as H2 H3 H4 H5.
  exists tr, w, (serialization_exception "Invalid message type, expected append_entries_response").
  split_and!; [done|by eapply list_elem_of_lookup_2|done..].
Qed.
