(* ===== verification/TcpRpc.v ===== *)
(** Remote calls over TCP ([include/raft/tcp_rpc.hpp]): frames on a byte stream, the
    client's call and the server's handling of a connection, with the JSON encoding
    of the messages.

    The operating system is a parameter: [io i] says what the [i]-th system call on
    a socket does, which is to move some of the bytes asked for or to fail.  A
    connection is the bytes still to be read and the bytes written so far. *)

From S2P Require Import Prelude Types Bytes ConfigEntry JsonSerializer FilePersistence Machines MachineProofs.

(** ** Sockets *)

(** A call moves at least one and at most [S k] bytes, or fails. *)
Inductive transfer : Type := moves (k : nat) | io_error.

Record socket : Type := mk_socket { incoming : bytes; outgoing : bytes; calls : nat }.

Section framing.
Context (io : nat → transfer).

(** [::write(fd, p, n)] *)
Definition sys_write (buf : bytes) : M socket Z := λ s,
  match io (calls s) with
  | moves k =>
      let w := min (S k) (length buf) in
      (Ret (Z.of_nat w), mk_socket (incoming s) (outgoing s ++ take w buf) (S (calls s)))
  | io_error => (Ret (-1)%Z, mk_socket (incoming s) (outgoing s) (S (calls s)))
  end.

(** [::read(fd, p, n)]: the count and the bytes; zero at the end of the stream. *)
Definition sys_read (n : nat) : M socket (Z * bytes) := λ s,
  match io (calls s) with
  | moves k =>
      let r := min (min (S k) n) (length (incoming s)) in
      (Ret (Z.of_nat r, take r (incoming s)), mk_socket (drop r (incoming s)) (outgoing s) (S (calls s)))
  | io_error => (Ret ((-1)%Z, []), mk_socket (incoming s) (outgoing s) (S (calls s)))
  end.

(** The loops end because a call that succeeds moves a byte: as many rounds as there
    are bytes are enough. *)
Fixpoint write_loop (fuel : nat) (buf : bytes) : M socket bool :=
  match buf with
  | [] => mreturn true
  | _ =>
      match fuel with
      | O => mundef "out of fuel"
      | S fuel =>
          let! w := sys_write buf in
          if (w <=? 0)%Z then mreturn false else write_loop fuel (drop (Z.to_nat w) buf)
      end
  end.
Definition write_all (buf : bytes) : M socket bool := write_loop (length buf) buf.

Fixpoint read_loop (fuel n : nat) (buf : bytes) : M socket (option bytes) :=
  match n with
  | O => mreturn (Some buf)
  | _ =>
      match fuel with
      | O => mundef "out of fuel"
      | S fuel =>
          let! (r, got) := sys_read n in
          if (r <=? 0)%Z then mreturn None else read_loop fuel (n - Z.to_nat r) (buf ++ got)
      end
  end.
Definition read_all (n : nat) : M socket (option bytes) := read_loop n n [].

(** A 32-bit number in network byte order. *)
Definition htonl (n : N) : bytes := rev (le_bytes 4 n).
Definition ntohl (b : bytes) : N := le_value (rev b).

Definition frame_send (payload : bytes) : M socket bool :=
  let! ok := write_all (htonl (N.of_nat (length payload) mod 2 ^ 32)) in
  if ok then write_all payload else mreturn false.

Definition max_frame : N := 64 * 1024 * 1024.

Definition frame_recv : M socket (option bytes) :=
  let! net_len := read_all 4 in
  match net_len with
  | None => mreturn None
  | Some net_len =>
      let len := ntohl net_len in
      if ((len =? 0) || (max_frame <? len))%N then mreturn None
      else read_all (N.to_nat len)
  end.
End framing.

(** ** The type of a message, from its text *)

(** [s.find(pattern)]: what follows the first occurrence. *)
Fixpoint find_text (pattern s : bytes) : option bytes :=
  match strip_prefix pattern s with
  | Some rest => Some rest
  | None => match s with [] => None | _ :: s => find_text pattern s end
  end.

Definition quoted (s : bytes) : bytes := x22 :: s ++ [x22].

Definition extract_type_field (json : bytes) : bytes :=
  match find_text (quoted (str "type")) json with
  | None => []
  | Some rest =>
      match find_delim x3a rest with
      | None => []
      | Some (_, rest) =>
          match find_delim x22 rest with
          | None => []
          | Some (_, rest) => match find_delim x22 rest with None => [] | Some (type, _) => type end
          end
      end
  end.

(** ** The four calls *)

Inductive rpc : Type :=
  | rpc_request_vote | rpc_request_pre_vote | rpc_append_entries | rpc_install_snapshot.

#[export] Instance rpc_eq_dec : EqDecision rpc.
Proof. solve_decision. Defined.

Definition request_of (k : rpc) : Type :=
  match k with
  | rpc_request_vote => request_vote_request
  | rpc_request_pre_vote => request_pre_vote_request
  | rpc_append_entries => append_entries_request
  | rpc_install_snapshot => install_snapshot_request
  end.

Definition response_of (k : rpc) : Type :=
  match k with
  | rpc_request_vote => request_vote_response
  | rpc_request_pre_vote => request_pre_vote_response
  | rpc_append_entries => append_entries_response
  | rpc_install_snapshot => install_snapshot_response
  end.

Definition request_message (k : rpc) : request_of k → message :=
  match k with
  | rpc_request_vote => msg_request_vote_request
  | rpc_request_pre_vote => msg_request_pre_vote_request
  | rpc_append_entries => msg_append_entries_request
  | rpc_install_snapshot => msg_install_snapshot_request
  end.

Definition response_message (k : rpc) : response_of k → message :=
  match k with
  | rpc_request_vote => msg_request_vote_response
  | rpc_request_pre_vote => msg_request_pre_vote_response
  | rpc_append_entries => msg_append_entries_response
  | rpc_install_snapshot => msg_install_snapshot_response
  end.

Definition json_to_request (k : rpc) : json → outcome (request_of k) :=
  match k with
  | rpc_request_vote => json_to_request_vote_request
  | rpc_request_pre_vote => json_to_request_pre_vote_request
  | rpc_append_entries => json_to_append_entries_request
  | rpc_install_snapshot => json_to_install_snapshot_request
  end.

Definition json_to_response (k : rpc) : json → outcome (response_of k) :=
  match k with
  | rpc_request_vote => json_to_request_vote_response
  | rpc_request_pre_vote => json_to_request_pre_vote_response
  | rpc_append_entries => json_to_append_entries_response
  | rpc_install_snapshot => json_to_install_snapshot_response
  end.

Definition request_type (k : rpc) : string :=
  match k with
  | rpc_request_vote => "request_vote_request"
  | rpc_request_pre_vote => "request_pre_vote_request"
  | rpc_append_entries => "append_entries_request"
  | rpc_install_snapshot => "install_snapshot_request"
  end.

(** The handlers a server has, [_rv], [_pv], [_ae] and [_is]; they act on the state
    [S] of the node that registered them. *)
Definition handlers (S : Type) : Type := ∀ k, option (request_of k → M S (response_of k)).

Definition no_handlers {S} : handlers S := λ _, None.

(** [register_request_vote_handler] and its three siblings. *)
Definition register_handler {S} (k : rpc) (h : request_of k → M S (response_of k)) (hs : handlers S) :
    handlers S := λ k',
  match decide (k = k') with
  | left E => Some (eq_rect k (λ k, request_of k → M S (response_of k)) h k' E)
  | right _ => hs k'
  end.

(** ** Peers and connections *)

Definition peer_registry : Type := gmap N (string * N).

Definition add_peer (id : N) (host : string) (port : N) (peers : peer_registry) : peer_registry :=
  <[id := (host, port)]> peers.

(** What the operating system answers when a connection is opened. *)
Inductive connect_answer : Type := connect_done | connect_in_progress | connect_refused.

Record os_answers : Type := mk_os {
  getaddrinfo_ok : bool;
  new_fd : Z;
  connect_rc : connect_answer;
  poll_rc : Z;
  getsockopt_ok : bool;
  so_error : Z
}.

(** [connect_to]: the state is the set of open file descriptors. *)
Definition connect_to (os : os_answers) : M (gset Z) Z :=
  if negb (getaddrinfo_ok os) then mreturn (-1)%Z
  else if (new_fd os <? 0)%Z then mreturn (-1)%Z
  else
    let fd := new_fd os in
    let close_fd := do! mmodify (λ fds, fds ∖ {[fd]}) in mreturn (-1)%Z in
    do! mmodify (λ fds, fds ∪ {[fd]}) in
    match connect_rc os with
    | connect_refused => close_fd
    | connect_done => mreturn fd
    | connect_in_progress =>
        if (poll_rc os <=? 0)%Z then close_fd
        else if negb (getsockopt_ok os) || negb (so_error os =? 0)%Z then close_fd
        else mreturn fd
    end.

(** ** A call *)

Section calls.
Context {JL : JsonLib} {S : Type}.
Context (client_io server_io : nat → transfer) (hs : handlers S).

(** Both ends of the connection and the node that serves it. *)
Record world : Type := mk_world { client : socket; server : socket; node_state : S }.

Definition on_client {A} (m : M socket A) : M world A := λ w,
  let '(r, s) := m (client w) in (r, mk_world s (server w) (node_state w)).
Definition on_server {A} (m : M socket A) : M world A := λ w,
  let '(r, s) := m (server w) in (r, mk_world (client w) s (node_state w)).
Definition on_node {A} (m : M S A) : M world A := λ w,
  let '(r, s) := m (node_state w) in (r, mk_world (client w) (server w) s).

(** The answer to a request of a type that has a handler. *)
Definition answer (k : rpc) (h : request_of k → M S (response_of k)) (data : bytes) : M world bytes :=
  let! request := mlift (let? v := json_parse data in json_to_request k v) in
  let! response := on_node (h request) in
  mreturn (serialize (response_message k response)).

Fixpoint dispatch (ks : list rpc) (type data : bytes) : M world (option bytes) :=
  match ks with
  | [] => mreturn None
  | k :: ks =>
      match hs k with
      | Some h =>
          if bool_decide (type = str (request_type k)) then
            let! response := answer k h data in mreturn (Some response)
          else dispatch ks type data
      | None => dispatch ks type data
      end
  end.

(** [tcp_rpc_server::handle] *)
Definition handle : M world () :=
  let! data := on_server (frame_recv server_io) in
  match data with
  | None => mreturn tt
  | Some data =>
      mcatch
        (let! response :=
           dispatch [rpc_request_vote; rpc_request_pre_vote; rpc_append_entries; rpc_install_snapshot]
             (extract_type_field data) data in
         match response with
         | None => mreturn tt
         | Some response => do! on_server (frame_send server_io response) in mreturn tt
         end)
        (λ _, mreturn tt)
  end.

(** The server's thread handles the connection: what the client has written is what
    the server can read, and the other way round. *)
Definition serve : M world () := λ w,
  let w := mk_world (client w) (mk_socket (outgoing (client w)) (outgoing (server w)) (calls (server w)))
             (node_state w) in
  let '(r, w) := handle w in
  (r, mk_world (mk_socket (outgoing (server w)) (outgoing (client w)) (calls (client w))) (server w)
        (node_state w)).

(** The end of a call, which reads the answer. *)
Definition receive (k : rpc) : M world (response_of k) :=
  let! response := on_client (frame_recv client_io) in
  match response with
  | None => mthrow (network_exception "tcp_rpc_client: recv failed")
  | Some response => mlift (let? v := json_parse response in json_to_response k v)
  end.

(** [tcp_rpc_client::call]; [connected] is whether [connect_to] gave a descriptor. *)
Definition call (k : rpc) (peers : peer_registry) (connected : string → N → bool) (target : N)
    (payload : bytes) : M world (response_of k) :=
  match peers !! target with
  | None => mthrow (network_exception "tcp_rpc_client: unknown peer")
  | Some (host, port) =>
      if negb (connected host port) then mthrow (network_exception "tcp_rpc_client: connect failed")
      else
        let! sent := on_client (frame_send client_io payload) in
        do! serve in
        if negb sent then mthrow (network_exception "tcp_rpc_client: send failed") else receive k
  end.

(** [send_request_vote], [send_request_pre_vote], [send_append_entries] and
    [send_install_snapshot] *)
Definition send (k : rpc) (peers : peer_registry) (connected : string → N → bool) (target : N)
    (request : request_of k) : M world (response_of k) :=
  call k peers connected target (serialize (request_message k request)).
End calls.

(** ** The listening server *)

Record tcp_rpc_server : Type := mk_tcp_server { _port : N; _listen_fd : Z; _running : bool; _accepting : bool }.

(** [start]; [fd] is what [::socket] gives and [bind_ok] whether [::bind] works. *)
Definition start (fd : Z) (bind_ok : bool) : M tcp_rpc_server () :=
  let! s := mget in
  if _running s then mreturn tt
  else
    let set_running b := mmodify (λ s, mk_tcp_server (_port s) (_listen_fd s) b (_accepting s)) in
    do! set_running true in
    if (fd <? 0)%Z then do! set_running false in mthrow (runtime_error "tcp_rpc_server: socket()")
    else if negb bind_ok then do! set_running false in mthrow (runtime_error "tcp_rpc_server: bind()")
    else mmodify (λ s, mk_tcp_server (_port s) fd (_running s) true).

(** [stop]: closing the descriptor ends the accept loop, whose thread is joined. *)
Definition stop : M tcp_rpc_server () :=
  mmodify (λ s, if _running s then mk_tcp_server (_port s) (-1) false false else s).

(** A server listens exactly while it is running, however it is started and stopped. *)
Definition server_ok (s : tcp_rpc_server) : Prop :=
  (_running s = true ↔ (0 <= _listen_fd s)%Z) ∧ _accepting s = _running s.

Lemma start_stop_ok fd bind_ok s :
  server_ok s → server_ok (start fd bind_ok s).2 ∧ server_ok (stop s).2 ∧ _running (stop s).2 = false.
Proof.
  intros [Hr Ha]. unfold start, stop, server_ok. destruct s as [port lfd [|] acc]; cbn in *.
  - split_and!; try done.
  - unfold mlet, mget, mmodify, mthrow. destruct (Z.ltb_spec fd 0); destruct bind_ok; cbn;
      split_and!; try done; split; intros; (done || lia).
Qed.

(** Opening a connection leaks no descriptor: it fails with the descriptors as they
    were, or gives the new one, which is open and connected. *)
Lemma connect_to_run os fds :
  new_fd os ∉ fds →
  connect_to os fds = (Ret (-1)%Z, fds) ∨
  connect_to os fds = (Ret (new_fd os), fds ∪ {[new_fd os]}) ∧ (0 <= new_fd os)%Z ∧
    (connect_rc os = connect_done ∨
     connect_rc os = connect_in_progress ∧ (0 < poll_rc os)%Z ∧ getsockopt_ok os = true ∧ so_error os = 0%Z).
Proof.
  intros Hfd. unfold connect_to. destruct (getaddrinfo_ok os); [|by left]. cbn [negb].
  destruct (Z.ltb_spec (new_fd os) 0); [by left|]. rewrite let_modify.
  assert (((fds ∪ {[new_fd os]}) ∖ {[new_fd os]} : gset Z) = fds) as Hclose by set_solver.
  destruct (connect_rc os); [right; auto| |left; by rewrite let_modify, Hclose].
  destruct (Z.leb_spec (poll_rc os) 0); [left; by rewrite let_modify, Hclose|].
  destruct (getsockopt_ok os) eqn:Eg, (Z.eqb_spec (so_error os) 0) as [Ee|]; cbn [negb orb];
    (left; rewrite let_modify, Hclose; done) || (right; split; [done|]; auto 6).
Qed.

(** ** Frames *)

Section frames.
Context (io : nat → transfer).
Definition reliable : Prop := ∀ i, io i ≠ io_error.

Definition frame (payload : bytes) : bytes := htonl (N.of_nat (length payload) mod 2 ^ 32) ++ payload.

(** The payloads a receiver takes. *)
Definition receivable (payload : bytes) : Prop :=
  (0 < N.of_nat (length payload) <= max_frame)%N.

Lemma write_loop_run fuel buf s :
  length buf ≤ fuel →
  ∃ sent s', write_loop io fuel buf s = (Ret (bool_decide (sent = buf)), s') ∧
    sent `prefix_of` buf ∧ incoming s' = incoming s ∧ outgoing s' = outgoing s ++ sent ∧
    (reliable → sent = buf).
Proof.
  revert buf s. induction fuel as [|fuel IH]; intros buf s Hf; (destruct buf as [|b buf];
    [exists [], s; by rewrite app_nil_r|]); [cbn in Hf; lia|].
  cbn [write_loop]. unfold mlet, sys_write. destruct (io (calls s)) as [k|] eqn:Eio.
  - set (w := min (S k) (length (b :: buf))). assert (1 ≤ w ≤ length (b :: buf)) as Hw by (cbn in *; lia).
    destruct (Z.leb_spec (Z.of_nat w) 0); [lia|]. rewrite Nat2Z.id.
    destruct (IH (drop w (b :: buf)) (mk_socket (incoming s) (outgoing s ++ take w (b :: buf)) (S (calls s))))
      as (sent & s' & E & Hp & Hi & Ho & Hr).
    { rewrite length_drop. cbn in *. lia. }
    exists (take w (b :: buf) ++ sent), s'. cbn [incoming outgoing] in *. rewrite E, Ho, app_assoc.
    split_and!; [|..|by intros ->%Hr; rewrite take_drop]; try done.
    + f_equal. f_equal. apply bool_decide_ext. rewrite <- (take_drop w (b :: buf)) at 3.
      split; [by intros ->|]. apply app_inv_head.
    + rewrite <- (take_drop w (b :: buf)) at 2. by apply prefix_app.
  - exists [], (mk_socket (incoming s) (outgoing s) (S (calls s))). cbn.
    rewrite app_nil_r. split_and!; try done; [apply prefix_nil|]. intros Hr. by destruct (Hr (calls s)).
Qed.

Lemma read_loop_run fuel n buf s :
  n ≤ fuel →
  ∃ got s', read_loop io fuel n buf s = (Ret (if length got =? n then Some (buf ++ got) else None), s') ∧
    incoming s = got ++ incoming s' ∧ outgoing s' = outgoing s ∧ length got ≤ n ∧
    (reliable → n ≤ length (incoming s) → length got = n).
Proof.
  revert n buf s. induction fuel as [|fuel IH]; intros n buf s Hf; (destruct n as [|n];
    [exists [], s; by rewrite app_nil_r|]); [lia|].
  cbn [read_loop]. unfold mlet, sys_read. destruct (io (calls s)) as [k|] eqn:Eio.
  - set (r := min (min (S k) (S n)) (length (incoming s))). destruct (Z.leb_spec (Z.of_nat r) 0).
    + exists [], (mk_socket (incoming s) (outgoing s) (S (calls s))). assert (r = 0) as Er by lia. rewrite Er. cbn.
      split_and!; try done; [lia|]. intros _ Hn. unfold r in Er. lia.
    + rewrite Nat2Z.id. assert (length (take r (incoming s)) = r) as Hl by (rewrite length_take; lia).
      destruct (IH (S n - r) (buf ++ take r (incoming s)) (mk_socket (drop r (incoming s)) (outgoing s) (S (calls s))))
        as (got & s' & E & Hi & Ho & Hg & Hr); [lia|]. cbn [incoming outgoing] in *.
      exists (take r (incoming s) ++ got), s'. rewrite E, <- !app_assoc, <- Hi, take_drop, !length_app, Hl.
      split_and!; try done; [|lia|].
      * destruct (Nat.eqb_spec (length got) (S n - r)), (Nat.eqb_spec (r + length got) (S n)); try lia; done.
      * rewrite length_drop in Hr. intros Hrel Hn. rewrite Hr by (done || lia). lia.
  - exists [], (mk_socket (incoming s) (outgoing s) (S (calls s))). cbn.
    split_and!; try done; [lia|]. intros Hr. by destruct (Hr (calls s)).
Qed.

Lemma htonl_length n : length (htonl n) = 4.
Proof. unfold htonl. by rewrite length_rev, le_bytes_length. Qed.

Lemma ntohl_htonl n : (n < 2 ^ 32)%N → ntohl (htonl n) = n.
Proof. intros H. unfold ntohl, htonl. rewrite rev_involutive. by apply le_value_bytes_small. Qed.

Lemma le_bytes_value l : le_bytes (length l) (le_value l) = l.
Proof.
  induction l as [|b l IH]; [done|]. cbn [length le_bytes le_value]. pose proof (to_N_lt b). f_equal.
  - unfold byte_of_N. rewrite (N.mul_comm 256), N.Div0.mod_add, N.mod_small by done. by rewrite Byte.of_to_N.
  - rewrite (N.mul_comm 256), N.div_add, N.div_small by (done || lia). by rewrite N.add_0_l.
Qed.

Lemma htonl_ntohl b : length b = 4 → htonl (ntohl b) = b.
Proof.
  intros Hb. unfold htonl, ntohl. rewrite <- Hb, <- length_rev, le_bytes_value. apply rev_involutive.
Qed.

Lemma frame_send_run payload s :
  ∃ sent s', frame_send io payload s = (Ret (bool_decide (sent = frame payload)), s') ∧
    sent `prefix_of` frame payload ∧ incoming s' = incoming s ∧ outgoing s' = outgoing s ++ sent ∧
    (reliable → sent = frame payload).
Proof.
  unfold frame_send, frame, write_all. set (header := htonl _).
  destruct (write_loop_run (length header) header s) as (sent1 & s1 & E1 & Hp1 & Hi1 & Ho1 & Hr1); [done|].
  erewrite let_eval by exact E1. case_bool_decide as Hs1.
  - subst sent1. destruct (write_loop_run (length payload) payload s1) as (sent2 & s2 & -> & Hp2 & Hi2 & Ho2 & Hr2);
      [done|]. exists (header ++ sent2), s2. rewrite Ho2, Ho1, app_assoc.
    split_and!; [|by apply prefix_app|congruence|done|by intros ->%Hr2].
    do 2 f_equal. apply bool_decide_ext. split; [by intros ->|apply app_inv_head].
  - exists sent1, s1. assert (length sent1 < length header) as Hlt.
    { destruct (Nat.lt_ge_cases (length sent1) (length header)) as [|Hge]; [done|].
      apply prefix_length_eq in Hp1; [done|lia]. }
    rewrite bool_decide_eq_false_2.
    + split_and!; try done; [by apply prefix_app_r|]. by intros ->%Hr1.
    + intros ->. rewrite length_app in Hlt. lia.
Qed.

Lemma frame_recv_run s :
  ∃ r s', frame_recv io s = (Ret r, s') ∧ outgoing s' = outgoing s ∧
    (∀ payload, r = Some payload → receivable payload ∧ incoming s = frame payload ++ incoming s') ∧
    (∀ payload rest, reliable → receivable payload → incoming s = frame payload ++ rest →
       r = Some payload ∧ incoming s' = rest).
Proof.
  unfold frame_recv, read_all.
  destruct (read_loop_run 4 4 [] s) as (header & s1 & E1 & Hi1 & Ho1 & Hl1 & Hr1); [done|].
  erewrite let_eval by exact E1. destruct (Nat.eqb_spec (length header) 4) as [H4|H4]; cycle 1.
  { exists None, s1. split_and!; try done. intros payload rest Hr _ E. exfalso. apply H4, Hr1; [done|].
    rewrite E. unfold frame. rewrite !length_app, htonl_length. lia. }
  cbn [app]. set (len := ntohl header). set (small := ((len =? 0) || (max_frame <? len))%N).
  assert (∀ payload rest, receivable payload → incoming s = frame payload ++ rest →
    small = false ∧ N.to_nat len = length payload ∧ incoming s1 = payload ++ rest) as Hframe.
  { intros payload rest [Hp1 Hp2] E. rewrite Hi1 in E. unfold frame in E. rewrite <- app_assoc in E.
    apply app_inj_1 in E as [Eh Et]; [|by rewrite htonl_length]. unfold max_frame in Hp2.
    rewrite N.mod_small in Eh by lia. assert (len = N.of_nat (length payload)) as El.
    { unfold len. rewrite Eh. apply ntohl_htonl. lia. }
    unfold small, max_frame. rewrite El. split_and!; [|lia|done].
    apply orb_false_iff. split; [apply N.eqb_neq|apply N.ltb_ge]; lia. }
  destruct small eqn:Esmall.
  { exists None, s1. split_and!; try done. intros payload rest _ Hp E. by destruct (Hframe _ _ Hp E). }
  apply orb_false_iff in Esmall as [E0%N.eqb_neq Emax%N.ltb_ge].
  destruct (read_loop_run (N.to_nat len) (N.to_nat len) [] s1) as (got & s2 & -> & Hi2 & Ho2 & Hl2 & Hr2); [done|].
  eexists _, s2. split; [done|]. split; [congruence|]. split.
  - intros payload. destruct (Nat.eqb_spec (length got) (N.to_nat len)) as [Eg|]; [|done]. intros [= <-]. cbn [app].
    split; [unfold receivable; lia|]. rewrite Hi1, Hi2, app_assoc. f_equal. unfold frame. f_equal.
    unfold max_frame in Emax. rewrite Eg, N2Nat.id, N.mod_small by lia. symmetry. by apply htonl_ntohl.
  - intros payload rest Hr Hp E. destruct (Hframe _ _ Hp E) as (_ & El & Es1).
    assert (length got = N.to_nat len) as Eg.
    { apply Hr2; [done|]. rewrite Es1, length_app. lia. }
    rewrite Eg, Nat.eqb_refl. cbn [app]. rewrite Hi2 in Es1. apply app_inj_1 in Es1 as [-> ->]; [done|lia].
Qed.

(** A frame that was cut off is not taken for another one. *)
Lemma frame_prefix_inj p q rest :
  receivable p → (N.of_nat (length q) < 2 ^ 32)%N → frame p ++ rest `prefix_of` frame q → p = q.
Proof.
  intros [Hp1 Hp2] Hq [tail E]. unfold frame in E. rewrite <- !app_assoc in E.
  apply app_inj_1 in E as [Eh Et]; [|by rewrite !htonl_length]. unfold max_frame in Hp2.
  rewrite !N.mod_small in Eh by lia. apply (f_equal ntohl) in Eh. rewrite !ntohl_htonl in Eh by lia.
  rewrite <- (app_nil_r q) in Et. by apply app_inj_1 in Et as [<- _]; [|lia].
Qed.
End frames.

(** ** Streams of frames *)

Fixpoint send_frames (io : nat → transfer) (payloads : list bytes) : M socket bool :=
  match payloads with
  | [] => mreturn true
  | p :: payloads => let! ok := frame_send io p in if ok then send_frames io payloads else mreturn false
  end.

Fixpoint recv_frames (io : nat → transfer) (n : nat) : M socket (list bytes) :=
  match n with
  | O => mreturn []
  | S n =>
      let! p := frame_recv io in
      match p with None => mreturn [] | Some p => let! ps := recv_frames io n in mreturn (p :: ps) end
  end.

Lemma send_frames_run io payloads s :
  reliable io → ∃ s', send_frames io payloads s = (Ret true, s') ∧
    outgoing s' = outgoing s ++ concat (map frame payloads).
Proof.
  intros Hr. revert s. induction payloads as [|p payloads IH]; intros s; [exists s; by rewrite app_nil_r|].
  cbn [send_frames map concat]. destruct (frame_send_run io p s) as (sent & s1 & E & _ & _ & Ho & Hs).
  rewrite (Hs Hr) in E, Ho. erewrite let_eval by exact E. rewrite bool_decide_eq_true_2 by done.
  destruct (IH s1) as (s2 & -> & Ho2). exists s2. by rewrite Ho2, Ho, <- app_assoc.
Qed.

Lemma recv_frames_run io payloads s rest :
  reliable io → Forall receivable payloads → incoming s = concat (map frame payloads) ++ rest →
  ∃ s', recv_frames io (length payloads) s = (Ret payloads, s') ∧ incoming s' = rest.
Proof.
  intros Hr Hp. revert s. induction Hp as [|p payloads Hp Hps IH]; intros s Hi; [by exists s|].
  cbn [recv_frames map concat length] in *. rewrite <- app_assoc in Hi.
  destruct (frame_recv_run io s) as (r & s1 & E & _ & _ & Hget). destruct (Hget _ _ Hr Hp Hi) as [-> Hi1].
  erewrite let_eval by exact E. destruct (IH s1 Hi1) as (s2 & E2 & Hi2).
  erewrite let_eval by exact E2. by exists s2.
Qed.

(** However the system splits and joins the reads and writes, the payloads sent on a
    connection are received as they were sent, in order, each exactly once. *)
Theorem frames_delivered_in_order out_io in_io payloads :
  reliable out_io → reliable in_io → Forall receivable payloads →
  ∃ s s', send_frames out_io payloads (mk_socket [] [] 0) = (Ret true, s) ∧
    recv_frames in_io (length payloads) (mk_socket (outgoing s) [] 0) = (Ret payloads, s') ∧ incoming s' = [].
Proof.
  intros Ho Hi Hp. destruct (send_frames_run out_io payloads (mk_socket [] [] 0) Ho) as (s & E & Hout).
  destruct (recv_frames_run in_io payloads (mk_socket (outgoing s) [] 0) [] Hi Hp) as (s' & E' & Hs').
  { by rewrite app_nil_r. }
  by exists s, s'.
Qed.

Lemma frames_delivered_in_order_witness :
  let p := [x61; x62; x63; x64; x65] in
  ∃ s s', send_frames (λ _, moves 0) [p; [x00]] (mk_socket [] [] 0) = (Ret true, s) ∧
    recv_frames (λ i, moves (i mod 4)) 2 (mk_socket (outgoing s) [] 0) = (Ret [p; [x00]], s') ∧ incoming s' = [].
Proof.
  apply (frames_delivered_in_order (λ _, moves 0) (λ i, moves (i mod 4)) [[x61; x62; x63; x64; x65]; [x00]]).
  - done.
  - done.
  - repeat constructor; vm_compute; done.
Defined.

(** ** The type field *)

Definition plain_byte (b : byte) : bool :=
  ((97 <=? Byte.to_N b) && (Byte.to_N b <=? 122) || (Byte.to_N b =? 95))%N.
Definition plain (s : string) : bool := forallb plain_byte (str s).

(** The printer is compact and keeps the order of the members: an object whose first
    member is a string starts with that member, and names of letters and underscores
    are printed as they are. *)
Class JsonLibText `{!JsonLib} : Prop := {
  json_serialize_first k s kv : plain k = true → plain s = true →
    ∃ tail, json_serialize (jobject ((k, jstring s) :: kv)) =
      x7b :: quoted (str k) ++ x3a :: quoted (str s) ++ tail
}.

Lemma message_first_field m :
  ∃ kv, message_to_json m = jobject (("type", jstring (kind_name (kind_of m))) :: kv).
Proof. by destruct m; eexists. Qed.

Lemma plain_not_quote s : plain s = true → x22 ∉ str s.
Proof.
  unfold plain. intros H Hin. rewrite forallb_forall in H. apply list_elem_of_In in Hin. by apply H in Hin.
Qed.

Lemma serialized_text `{!JsonLib, !JsonLibText} m :
  ∃ tail, serialize m = x7b :: quoted (str "type") ++ x3a :: quoted (str (kind_name (kind_of m))) ++ tail.
Proof.
  unfold serialize. destruct (message_first_field m) as [kv ->]. apply json_serialize_first; [done|].
  by destruct m.
Qed.

Lemma extract_serialized `{!JsonLib, !JsonLibText} m :
  extract_type_field (serialize m) = str (kind_name (kind_of m)).
Proof.
  destruct (serialized_text m) as [tail ->]. assert (plain (kind_name (kind_of m)) = true) as Hp by (by destruct m).
  generalize dependent (kind_name (kind_of m)). intros name Hp. unfold extract_type_field.
  set (rest := x3a :: quoted (str name) ++ tail).
  assert (find_text (quoted (str "type")) (x7b :: quoted (str "type") ++ rest) = Some rest) as -> by reflexivity.
  assert (find_delim x3a rest = Some ([], x22 :: str name ++ x22 :: tail)) as ->.
  { unfold rest, quoted. rewrite <- app_comm_cons, <- app_assoc. reflexivity. }
  assert (∀ l, find_delim x22 (x22 :: l) = Some ([], l)) as -> by reflexivity.
  by rewrite find_delim_app by (by apply plain_not_quote).
Qed.

(** ** Calls *)

Section at_most_once.
Context {JL : JsonLib} {JLok : JsonLibOk} {JLtext : JsonLibText} {S : Type}.
Context (client_io server_io : nat → transfer) (hs : handlers S).

(** A message that is encoded and whose length fits the header. *)
Definition sendable (m : message) : Prop := message_ok m ∧ (N.of_nat (length (serialize m)) < 2 ^ 32)%N.

(** The answer to a request, if the handler gives one, is a message of this kind. *)
Definition answer_sendable (k : rpc) (request : request_of k) (s : S) : Prop :=
  ∀ h response, hs k = Some h → (h request s).1 = Ret response → sendable (response_message k response).

Lemma request_parsed k request :
  message_ok (request_message k request) →
  (let? v := json_parse (serialize (request_message k request)) in json_to_request k v) = Ret request.
Proof.
  intros H. rewrite parse_serialized by done. apply json_to_message_inv in H. revert H. cbn [outcome_bind].
  destruct k; cbn [request_message kind_of json_to_message json_to_request];
    match goal with |- outcome_map _ ?o = _ → _ => destruct o end; by intros [= ->].
Qed.

Lemma response_parsed k response :
  message_ok (response_message k response) →
  (let? v := json_parse (serialize (response_message k response)) in json_to_response k v) = Ret response.
Proof.
  intros H. rewrite parse_serialized by done. apply json_to_message_inv in H. revert H. cbn [outcome_bind].
  destruct k; cbn [response_message kind_of json_to_message json_to_response];
    match goal with |- outcome_map _ ?o = _ → _ => destruct o end; by intros [= ->].
Qed.

Lemma dispatch_run k request (w : @world S) :
  message_ok (request_message k request) →
  dispatch hs [rpc_request_vote; rpc_request_pre_vote; rpc_append_entries; rpc_install_snapshot]
    (extract_type_field (serialize (request_message k request))) (serialize (request_message k request)) w =
  match hs k with
  | None => (Ret None, w)
  | Some h =>
      let '(r, s) := h request (node_state w) in
      (outcome_map (λ response, Some (serialize (response_message k response))) r,
       mk_world (client w) (server w) s)
  end.
Proof.
  intros H. rewrite extract_serialized. pose proof (request_parsed k request H) as Hparse.
  assert (kind_name (kind_of (request_message k request)) = request_type k) as -> by (by destruct k).
  assert (∀ k' ks type data, dispatch hs (k' :: ks) type data w =
    match hs k' with
    | Some h => if bool_decide (type = str (request_type k')) then
                  (let! response := answer k' h data in mreturn (Some response)) w
                else dispatch hs ks type data w
    | None => dispatch hs ks type data w
    end) as Hcons.
  { intros. cbn [dispatch]. destruct (hs k'); [|done]. by case_bool_decide. }
  assert (∀ h,
    (let! response := answer k h (serialize (request_message k request)) in mreturn (Some response)) w =
      let '(r, s) := h request (node_state w) in
      (outcome_map (λ response, Some (serialize (response_message k response))) r,
       mk_world (client w) (server w) s)) as Ha.
  { intros h. unfold answer, mlet, mlift, on_node. rewrite Hparse.
    by destruct (h request (node_state w)) as [[] ?]. }
  destruct (hs k) as [h|] eqn:Ek.
  - rewrite <- (Ha h). destruct k; rewrite !Hcons, Ek; repeat (destruct (hs _)); done.
  - destruct k; rewrite !Hcons, Ek; repeat (destruct (hs _)); done.
Qed.

(** What serving a connection does when the client wrote a part of a request, or
    all of it: nothing, or one run of the handler and a part of its answer. *)
Inductive served (k : rpc) (request : request_of k) (s : S) : outcome () → bytes → S → Prop :=
  | served_nothing : served k request s (Ret tt) [] s
  | served_answer h response s' sent :
      hs k = Some h → h request s = (Ret response, s') →
      sent `prefix_of` frame (serialize (response_message k response)) →
      (reliable server_io → sent = frame (serialize (response_message k response))) →
      served k request s (Ret tt) sent s'
  | served_throw h e s' : hs k = Some h → h request s = (Throw e, s') → served k request s (Ret tt) [] s'
  | served_undef h u s' : hs k = Some h → h request s = (Undef u, s') → served k request s (Undef u) [] s'.

Lemma handle_run k request (w : @world S) :
  sendable (request_message k request) →
  incoming (server w) `prefix_of` frame (serialize (request_message k request)) →
  ∃ r sent w', handle server_io hs w = (r, w') ∧ client w' = client w ∧
    outgoing (server w') = outgoing (server w) ++ sent ∧
    served k request (node_state w) r sent (node_state w') ∧
    (reliable server_io → receivable (serialize (request_message k request)) →
     incoming (server w) = frame (serialize (request_message k request)) →
     ∀ h response, hs k = Some h → (h request (node_state w)).1 = Ret response →
       sent = frame (serialize (response_message k response)) ∧ node_state w' = (h request (node_state w)).2).
Proof.
  intros [Hok Hlen] Hpre. unfold handle.
  destruct (frame_recv_run server_io (server w)) as (got & s1 & E & Ho & Hgot & Hrel).
  erewrite let_eval by (unfold on_server; by rewrite E). destruct got as [data|]; cycle 1.
  { eexists _, [], _. split; [done|]. rewrite app_nil_r. cbn. split_and!; try done; [constructor|].
    intros Hr Hv Hi. destruct (Hrel (serialize (request_message k request)) [] Hr Hv) as [[=] _].
    by rewrite app_nil_r. }
  destruct (Hgot data eq_refl) as [Hv Hi]. rewrite Hi in Hpre.
  apply (frame_prefix_inj data _ _ Hv Hlen) in Hpre. subst data. unfold mcatch.
  unfold mlet at 1. rewrite dispatch_run by done. cbn [node_state].
  destruct (hs k) as [h|] eqn:Ek; cycle 1.
  { eexists _, [], _. split; [done|]. rewrite app_nil_r. cbn. split_and!; try done. constructor. }
  destruct (h request (node_state w)) as [[response|e|u] s2] eqn:Eh; cbn [outcome_map outcome_bind].
  - destruct (frame_send_run server_io (serialize (response_message k response)) s1)
      as (sent & s3 & Es & Hp & _ & Ho3 & Hr3).
    unfold mlet, on_server. cbn [server client node_state]. rewrite Es. eexists _, sent, _. split; [done|]. cbn.
    rewrite Ho3, Ho. split_and!; try done; [by eapply served_answer|].
    intros Hr _ _ h' response' [= <-]. rewrite Eh. cbn. intros [= <-]. by rewrite Hr3.
  - eexists _, [], _. split; [done|]. rewrite app_nil_r. cbn. split_and!; try done; [by eapply served_throw|].
    intros _ _ _ h' response' [= <-]. by rewrite Eh.
  - eexists _, [], _. split; [done|]. rewrite app_nil_r. cbn. split_and!; try done; [by eapply served_undef|].
    intros _ _ _ h' response' [= <-]. by rewrite Eh.
Qed.

Lemma receive_nothing k (w : @world S) :
  incoming (client w) = [] → ∃ w' what, receive client_io k w = (Throw (network_exception what), w') ∧
    node_state w' = node_state w.
Proof.
  intros Hi. unfold receive. destruct (frame_recv_run client_io (client w)) as (got & s1 & E & _ & Hgot & _).
  erewrite let_eval by (unfold on_client; by rewrite E). destruct got as [data|]; [|by do 2 eexists].
  destruct (Hgot data eq_refl) as [_ Hf]. rewrite Hi in Hf. apply (f_equal length) in Hf. unfold frame in Hf.
  rewrite !length_app, htonl_length in Hf. cbn in Hf. lia.
Qed.

Lemma receive_run k response (w : @world S) :
  sendable (response_message k response) →
  incoming (client w) `prefix_of` frame (serialize (response_message k response)) →
  ∃ r w', receive client_io k w = (r, w') ∧ node_state w' = node_state w ∧
    (r = Ret response ∨ ∃ what, r = Throw (network_exception what)) ∧
    (reliable client_io → receivable (serialize (response_message k response)) →
     incoming (client w) = frame (serialize (response_message k response)) → r = Ret response).
Proof.
  intros [Hok Hlen] Hpre. unfold receive.
  destruct (frame_recv_run client_io (client w)) as (got & s1 & E & _ & Hgot & Hrel).
  erewrite let_eval by (unfold on_client; by rewrite E). destruct got as [data|]; cycle 1.
  { eexists _, _. split; [done|]. split; [done|]. split; [right; by eexists|]. intros Hr Hv Hi.
    destruct (Hrel (serialize (response_message k response)) [] Hr Hv) as [[=] _]. by rewrite app_nil_r. }
  destruct (Hgot data eq_refl) as [Hv Hi]. rewrite Hi in Hpre.
  apply (frame_prefix_inj data _ _ Hv Hlen) in Hpre. subst data. unfold mlift. rewrite response_parsed by done.
  eexists _, _. split; [done|]. split; [done|]. split; [by left|done].
Qed.

(** What the caller knows at the end: nothing happened, or the handler ran once. *)
Definition call_ended (k : rpc) (request : request_of k) (s s' : S) (r : outcome (response_of k)) : Prop :=
  s' = s ∧ (∃ what, r = Throw (network_exception what)) ∨
  ∃ h, hs k = Some h ∧ s' = (h request s).2 ∧
    match r with
    | Throw e => ∃ what, e = network_exception what
    | _ => r = (h request s).1
    end.

Lemma receive_served k request s reply (w : @world S) :
  answer_sendable k request s →
  served k request s (Ret tt) reply (node_state w) → incoming (client w) = reply →
  ∃ r w', receive client_io k w = (r, w') ∧ node_state w' = node_state w ∧
    call_ended k request s (node_state w) r ∧
    (∀ response, reliable client_io → receivable (serialize (response_message k response)) →
       reply = frame (serialize (response_message k response)) →
       ∀ h, hs k = Some h → (h request s).1 = Ret response → r = Ret response).
Proof.
  intros Hans Hserved Hin.
  inversion Hserved as [Hr0 Hreply Hn|h response s' ? Hh Hhr Hpre Hall|h e s' Hh Hhr Hr0 Hreply|].
  - destruct (receive_nothing k w) as (w4 & what & -> & Hw4); [by rewrite Hin|]. eexists _, w4.
    split_and!; try done. left. split; [done|by eexists].
  - subst. destruct (receive_run k response w (Hans h response Hh ltac:(by rewrite Hhr)) Hpre)
      as (r & w4 & -> & Hw4 & Hres & Hrel). exists r, w4. split_and!; try done.
    + right. exists h. rewrite Hhr. split_and!; try done. destruct Hres as [-> | [what ->]]; [done|by eexists].
    + intros response' Hr Hv Hf h'. rewrite Hh. intros [= <-]. rewrite Hhr. cbn. intros [= <-]. by apply Hrel.
  - destruct (receive_nothing k w) as (w4 & what & -> & Hw4); [by rewrite Hin|]. eexists _, w4.
    split_and!; try done. right. exists h. rewrite Hhr. split_and!; try done. by eexists.
Qed.

Context (peers : peer_registry) (connected : string → N → bool).

(** C18. A call runs the handler at most once and never makes an answer up.  Whatever
    the system calls of both sides do, either the node that serves is untouched and
    the caller gets a network exception, or the node's handler for this kind of call
    ran exactly once, on exactly the request sent, and what the caller gets is its
    answer or a network exception.  When the peer is known and reached, no call
    fails, and request and answer have at most 64 MiB, the caller gets the answer. *)
Theorem tcp_calls_at_most_once k target request w :
  sendable (request_message k request) → answer_sendable k request (node_state w) →
  outgoing (client w) = [] → outgoing (server w) = [] →
  let '(r, w') := send client_io server_io hs k peers connected target request w in
  call_ended k request (node_state w) (node_state w') r ∧
  (∀ host port h response,
     peers !! target = Some (host, port) → connected host port = true →
     reliable client_io → reliable server_io → hs k = Some h →
     (h request (node_state w)).1 = Ret response →
     receivable (serialize (request_message k request)) → receivable (serialize (response_message k response)) →
     r = Ret response ∧ node_state w' = (h request (node_state w)).2).
Proof.
  intros Hs Hans Hc0 Hs0. unfold send, call.
  destruct (peers !! target) as [[host port]|] eqn:Ep; [|by split; [left; eauto|]].
  destruct (connected host port) eqn:Ec; cbn [negb]; [|split; [left; eauto|]]; cycle 1.
  { intros ? ? ? ? [= <- <-]. congruence. }
  destruct (frame_send_run client_io (serialize (request_message k request)) (client w))
    as (sent & c1 & Ecl & Hp & _ & Ho & Hr).
  erewrite let_eval by (unfold on_client; by rewrite Ecl). rewrite Hc0 in Ho. cbn [app] in Ho.
  set (w1 := mk_world c1 (mk_socket sent [] (calls (server w))) (node_state w)).
  destruct (handle_run k request w1 Hs Hp) as (r1 & reply & w2 & Eh & Hcl & Hout & Hserved & Hlive).
  cbn in Hout, Hserved, Hlive.
  unfold mlet at 1. unfold serve. cbn [client server node_state]. rewrite Ho, Hs0. fold w1. rewrite Eh. cbv beta iota.
  set (w3 := mk_world (mk_socket (outgoing (server w2)) (outgoing (client w2)) (calls (client w2))) (server w2)
               (node_state w2)).
  assert (incoming (client w3) = reply) as Hin by done.
  destruct r1 as [[]|e1|u1]; [|by inversion Hserved|]; cycle 1.
  { inversion Hserved as [| | |h u s' Hh Hhr]; subst. split.
    - right. exists h. split; [done|]. by rewrite Hhr.
    - intros ? ? h' response _ _ _ _ Hh'. rewrite Hh in Hh'. injection Hh' as <-. by rewrite Hhr. }
  case_bool_decide as Hsent; cbn [negb]; cycle 1.
  { split; [|by intros ? ? ? ? _ _ Hrel; specialize (Hr Hrel)].
    inversion Hserved as [Hn|h response s' ? Hh Hhr|h e s' Hh Hhr|]; subst; cbn [node_state mthrow];
      [left; split; [done|by eexists]|..]; right; exists h; rewrite Hhr; split_and!; try done; by eexists. }
  destruct (receive_served k request (node_state w) reply w3 Hans Hserved Hin) as (r & w4 & -> & Hw4 & Hend & Hok).
  rewrite Hw4. split; [done|]. intros ? ? h response _ _ Hrc Hrs Hh Hhr Hv1 Hv2.
  destruct (Hlive Hrs Hv1 Hsent h response Hh Hhr) as [Hf Hn]. split; [|done]. by apply (Hok response Hrc Hv2 Hf h).
Qed.
End at_most_once.

(** ** A library whose text starts with the first member *)

Module TextJson.
Definition first_field (v : json) : option (string * string) :=
  match v with
  | jobject ((k, jstring s) :: _) => if plain k && plain s then Some (k, s) else None
  | _ => None
  end.

#[export] Instance text_json : JsonLib := {|
  json_serialize v :=
    let code := @json_serialize CodeJson.code_json v in
    match first_field v with
    | Some (k, s) => x7b :: quoted (str k) ++ x3a :: quoted (str s) ++ x2c :: code
    | None => x2c :: code
    end;
  json_parse b :=
    match find_delim x2c b with
    | Some (_, code) => @json_parse CodeJson.code_json code
    | None => Throw (json_error "syntax error")
    end
|}.

Lemma plain_not_comma s : plain s = true → x2c ∉ str s.
Proof.
  unfold plain. intros H Hin. rewrite forallb_forall in H. apply list_elem_of_In in Hin. by apply H in Hin.
Qed.

Lemma first_field_plain v k s : first_field v = Some (k, s) → plain k = true ∧ plain s = true.
Proof.
  unfold first_field. destruct v as [| | | | | |[|[k' [| | | |s'| |]] kv]]; try done.
  destruct (plain k') eqn:E1, (plain s') eqn:E2; try done. by intros [= <- <-].
Qed.

#[export] Instance text_json_ok : JsonLibOk.
Proof.
  constructor. intros v Hv. cbn [json_serialize json_parse text_json].
  rewrite <- (@json_parse_serialize CodeJson.code_json CodeJson.code_json_ok v Hv).
  set (code := @json_serialize CodeJson.code_json v). destruct (first_field v) as [[k s]|] eqn:E.
  - apply first_field_plain in E as [Hk%plain_not_comma Hs%plain_not_comma].
    assert (x7b :: quoted (str k) ++ x3a :: quoted (str s) ++ x2c :: code =
      (x7b :: quoted (str k) ++ x3a :: quoted (str s)) ++ x2c :: code) as ->.
    { unfold quoted. cbn. by rewrite <- !app_assoc; cbn; rewrite <- !app_assoc. }
    rewrite find_delim_app; [done|]. unfold quoted. rewrite !not_elem_of_cons, !not_elem_of_app, !not_elem_of_cons.
    rewrite !not_elem_of_app, !not_elem_of_cons. split_and!; try done; apply not_elem_of_nil.
  - pose proof (find_delim_app x2c [] code (not_elem_of_nil _)) as Hc. cbn [app] in Hc. by rewrite Hc.
Qed.

#[export] Instance text_json_text : JsonLibText.
Proof.
  constructor. intros k s kv Hk Hs. cbn [json_serialize text_json first_field]. rewrite Hk, Hs. cbn [andb]. by eexists.
Qed.
End TextJson.

(** A node that counts votes and grants each; the client's writes move one byte at a
    time. *)
Definition counting_handlers : handlers nat :=
  register_handler rpc_request_vote
    (λ request, do! mmodify S in mreturn (mk_vote_resp (rv_term request) true)) no_handlers.

Lemma tcp_calls_at_most_once_witness :
  let request := mk_vote_req 3 1 7 2 in
  (send (JL := TextJson.text_json) (λ _, moves 0) (λ _, moves 9) counting_handlers rpc_request_vote
     (add_peer 2 "node2" 7000 ∅) (λ _ _, true) 2 request (mk_world (mk_socket [] [] 0) (mk_socket [] [] 0) 4)).1 =
  Ret (mk_vote_resp 3 true).
Proof.
  intros request.
  pose proof (tcp_calls_at_most_once (JL := TextJson.text_json) (JLok := TextJson.text_json_ok)
    (JLtext := TextJson.text_json_text) (λ _, moves 0) (λ _, moves 9) counting_handlers (add_peer 2 "node2" 7000 ∅)
    (λ _ _, true) rpc_request_vote 2 request (mk_world (mk_socket [] [] 0) (mk_socket [] [] 0) 4)) as T.
  destruct (send _ _ _ _ _ _ _ _ _) as [r w']. cbn [fst].
  refine (proj1 (proj2 (T _ _ eq_refl eq_refl) _ _ _ (mk_vote_resp 3 true) eq_refl eq_refl _ _ eq_refl eq_refl _ _)).
  - split; [repeat constructor; vm_compute; discriminate|vm_compute; reflexivity].
  - intros h response [= <-] [= <-]. split; [vm_compute; discriminate|vm_compute; reflexivity].
  - done.
  - done.
  - split; vm_compute; [reflexivity|discriminate].
  - split; vm_compute; [reflexivity|discriminate].
Defined.
