(* ===== verification/HttpPools.v ===== *)
(** The connections that the three HTTP clients keep: [cpp_httplib_client]
    ([http_transport_impl.hpp]), [boost_beast_client]
    ([beast_http_transport_impl.hpp]) and [proxygen_client]
    ([proxygen_http_transport_impl.hpp]), and how the last two read a URL.

    A connection object is known by the number of its allocation.  Each function
    here is one critical section of the client's mutex; the clock is an argument.
    Name resolution and the constructors of the libraries' clients are parameters,
    metrics are left out. *)

From Stdlib Require Import Ascii.
From stdpp Require Import strings pretty.
From S2P Require Import Prelude Bytes.

(** ** URLs *)

(** [s.find(c)], [npos] being [None]. *)
Fixpoint find_char (c : ascii) (s : list ascii) : option nat :=
  match s with
  | [] => None
  | x :: s => if Ascii.eqb x c then Some 0 else S <$> find_char c s
  end.

(** [s.substr(pos, count)]; [count] is a [std::size_t]. *)
Definition substr (s : list ascii) (pos : nat) (count : N) : outcome (list ascii) :=
  if (length s <? pos)%nat then Throw (out_of_range "basic_string::substr")
  else Ret (if (N.of_nat (length s) <=? count)%N then drop pos s else take (N.to_nat count) (drop pos s)).

Definition npos : N := u64_modulus - 1.
Definition position (p : option nat) : N := from_option N.of_nat npos p.

Record authority : Type := mk_authority { is_https : bool; host : list ascii; port : list ascii }.

(** The part of [get_or_create_connection] and of [resolve_target] that takes a URL
    apart. *)
Definition parse_url (url : list ascii) : outcome authority :=
  let https := bool_decide (String.list_ascii_of_string "https://" `prefix_of` url) in
  let? authority := substr url (if https then 8 else 7) npos in
  let colon := find_char ":"%char authority in
  let slash := find_char "/"%char authority in
  let? host := substr authority 0 (N.min (position colon) (position slash)) in
  let? port :=
    match colon with
    | Some colon =>
        substr authority (S colon) (from_option N.of_nat (N.of_nat (length authority)) slash ⊖ N.of_nat (S colon))
    | None => Ret (String.list_ascii_of_string (if https then "443" else "80"))
    end in
  Ret (mk_authority https host port).

(** ** The least recently used entry *)

(** [std::min_element] over a map in its order of iteration: the first of the
    smallest. *)
Definition lru {A} (last_used : A → Z) (m : gmap N A) : option N :=
  match map_to_list m with
  | [] => None
  | first :: rest =>
      Some (foldl (λ best kv, if bool_decide (last_used kv.2 < last_used best.2)%Z then kv else best) first rest).1
  end.

(** ** [cpp_httplib_client] *)

Module CppHttplibPool.
Record t : Type := mk { _http_clients : gmap N N; _retired_clients : list N; next_client : N }.

Section pool.
Context (what : exn → string).
(** [httplib::Client]'s constructor and [configure_ssl_client]. *)
Context (make_client : string → outcome ()) (configure_ssl_client : outcome ()).
Context (_node_id_to_url : gmap N string).

Definition get_or_create_client (node_id : N) : M t N :=
  let! pool := mget in
  match _http_clients pool !! node_id with
  | Some client => mreturn client
  | None =>
      match _node_id_to_url !! node_id with
      | None => mthrow (runtime_error ("No URL mapping found for node " +:+ pretty node_id))
      | Some base_url =>
          let is_https := String.prefix "https://" base_url in
          match (let? _ := make_client base_url in if is_https then configure_ssl_client else Ret tt) with
          | Undef u => mundef u
          | Throw e => mthrow (ssl_configuration_error
              ("Failed to create HTTP client for node " +:+ pretty node_id +:+ ": " +:+ what e))
          | Ret _ =>
              let client := next_client pool in
              do! mmodify (λ pool, mk (<[node_id := client]> (_http_clients pool)) (_retired_clients pool) (client + 1)) in
              mreturn client
          end
      end
  end.

(** [reload_tls_material], after the material was validated: every client is
    retired. *)
Definition reload_tls_material (validated : outcome ()) : M t () :=
  let! _ := mlift validated in
  mmodify (λ pool, mk ∅ (_retired_clients pool ++ (map_to_list (_http_clients pool)).*2) (next_client pool)).
End pool.
End CppHttplibPool.

(** ** [boost_beast_client] *)

Module BeastPool.
Record pooled_connection : Type := mk_pooled { connection : N; host_header : list ascii; last_used : Z }.
Record t : Type := mk {
  _connections : gmap N pooled_connection;
  _retired_connections : list N;
  next_connection : N
}.

Record config : Type := mk_config { connection_pool_size : N; keep_alive_timeout : Z }.

Section pool.
Context (cfg : config).
(** [resolver.resolve], which throws when it fails. *)
Context (resolve : list ascii → list ascii → outcome (list N)) (has_ssl_context : bool).
Context (_node_id_to_url : gmap N (list ascii)).

(** The entry's connection is kept alive, the entry is erased. *)
Definition retire (target : N) (pool : t) : t :=
  match _connections pool !! target with
  | None => pool
  | Some conn => mk (delete target (_connections pool)) (_retired_connections pool ++ [connection conn])
      (next_connection pool)
  end.

Definition get_or_create_connection (target : N) (now : Z) : M t pooled_connection :=
  let! pool := mget in
  let create :=
    match _node_id_to_url !! target with
    | None => mthrow (runtime_error ("No URL mapping found for node " +:+ pretty target))
    | Some url =>
        let! a := mlift (parse_url url) in
        let! results := mlift (resolve (host a) (port a)) in
        match results with
        | [] => mthrow (runtime_error "Failed to resolve")
        | _ =>
            if is_https a && negb has_ssl_context then
              mthrow (ssl_configuration_error
                ("Node " +:+ pretty target +:+ " uses https:// but no TLS material is configured"))
            else
              do! mmodify (λ pool,
                if (connection_pool_size cfg <=? N.of_nat (size (_connections pool)))%N then
                  match lru last_used (_connections pool) with Some oldest => retire oldest pool | None => pool end
                else pool) in
              let! pool := mget in
              let conn := mk_pooled (next_connection pool) (host a) now in
              do! mmodify (λ pool, mk (<[target := conn]> (_connections pool)) (_retired_connections pool)
                (next_connection pool + 1)) in
              mreturn conn
        end
    end in
  match _connections pool !! target with
  | None => create
  | Some conn =>
      if bool_decide (keep_alive_timeout cfg < now - last_used conn)%Z then
        do! mmodify (retire target) in create
      else
        let conn := mk_pooled (connection conn) (host_header conn) now in
        do! mmodify (λ pool, mk (<[target := conn]> (_connections pool)) (_retired_connections pool) (next_connection pool)) in
        mreturn conn
  end.

Definition remove_connection (target : N) : M t () := mmodify (retire target).

Definition reload_tls_material (validated : outcome ()) : M t () :=
  let! _ := mlift validated in
  mmodify (λ pool, mk ∅ (_retired_connections pool ++ (map_to_list (connection <$> _connections pool)).*2)
    (next_connection pool)).
End pool.
End BeastPool.

(** ** [proxygen_client] *)

Module ProxygenPool.
(** A slot: the number of its event base, the number of the object that its session
    and connect state share, and the time. *)
Record pooled_connection : Type := mk_pooled { event_base : N; shared : N; last_used : Z }.
Record t : Type := mk { _connections : gmap N pooled_connection; next_slot : N }.

Section pool.
Context (connection_pool_size : N).
(** [_io_executor.getEventBase()], by the number of calls made. *)
Context (get_event_base : N → N).
(** [addr.setFromHostPort] and [std::stoi], which throw. *)
Context (set_from_host_port : list ascii → list ascii → outcome ()).
Context (_node_id_to_url : gmap N (list ascii)).

Definition get_or_create_slot (target : N) (now : Z) : M t pooled_connection :=
  let! pool := mget in
  match _connections pool !! target with
  | Some slot =>
      let slot := mk_pooled (event_base slot) (shared slot) now in
      do! mmodify (λ pool, mk (<[target := slot]> (_connections pool)) (next_slot pool)) in
      mreturn slot
  | None =>
      do! mmodify (λ pool,
        if (connection_pool_size <=? N.of_nat (size (_connections pool)))%N then
          match lru last_used (_connections pool) with
          | Some oldest => mk (delete oldest (_connections pool)) (next_slot pool)
          | None => pool
          end
        else pool) in
      let! pool := mget in
      let slot := mk_pooled (get_event_base (next_slot pool)) (next_slot pool) now in
      do! mmodify (λ pool, mk (<[target := slot]> (_connections pool)) (next_slot pool + 1)) in
      mreturn slot
  end.

Definition resolve_target (target : N) : outcome authority :=
  match _node_id_to_url !! target with
  | None => Throw (runtime_error ("No URL mapping found for node " +:+ pretty target))
  | Some url =>
      let? a := parse_url url in
      let? _ := set_from_host_port (host a) (port a) in
      Ret a
  end.
End pool.
End ProxygenPool.

(** ** URLs are read as they are written *)

Lemma find_char_app c before after :
  c ∉ before → find_char c (before ++ after) = (λ n, length before + n) <$> find_char c after.
Proof.
  induction before as [|x before IH]; cbn; intros Hc; [by destruct (find_char c after)|].
  destruct (Ascii.eqb_spec x c) as [->|]; [set_solver|]. rewrite IH by set_solver. by destruct (find_char c after).
Qed.

Lemma find_char_fresh c s : c ∉ s → find_char c s = None.
Proof. intros Hc. rewrite <- (app_nil_r s), find_char_app by done. done. Qed.

Lemma substr_take s count : (count <= N.of_nat (length s))%N → substr s 0 count = Ret (take (N.to_nat count) s).
Proof.
  intros Hle. unfold substr. destruct (Nat.ltb_spec (length s) 0); [lia|]. f_equal.
  destruct (N.leb_spec (N.of_nat (length s)) count); [|by rewrite drop_0].
  rewrite drop_0, take_ge; [done|lia].
Qed.

Lemma substr_middle a b c :
  substr (a ++ b ++ c) (length a) (N.of_nat (length b)) = Ret b.
Proof.
  unfold substr. rewrite !length_app. destruct (Nat.ltb_spec (length a + (length b + length c)) (length a)); [lia|].
  rewrite drop_app_length. f_equal. destruct (N.leb_spec (N.of_nat (length a + (length b + length c))) (N.of_nat (length b))).
  - assert (length c = 0) by lia. destruct c; [|done]. by rewrite app_nil_r.
  - by rewrite Nat2N.id, take_app_length.
Qed.

(** The characters of a scheme. *)
Definition scheme (https : bool) : list ascii := String.list_ascii_of_string (if https then "https://" else "http://").

(** What may follow the host and the port. *)
Definition path_like (path : list ascii) : Prop := path = [] ∨ ∃ rest, path = "/"%char :: rest.

Lemma substr_scheme https rest :
  (N.of_nat (length (scheme https ++ rest)) <= npos)%N →
  bool_decide (String.list_ascii_of_string "https://" `prefix_of` (scheme https ++ rest)) = https ∧
  substr (scheme https ++ rest) (if https then 8 else 7) npos = Ret rest.
Proof.
  intros Hlen. split.
  - destruct https; [apply bool_decide_eq_true_2; by exists rest|].
    apply bool_decide_eq_false_2. intros [k Hk]. by cbn in Hk.
  - unfold substr. destruct (Nat.ltb_spec (length (scheme https ++ rest)) (if https then 8 else 7)) as [Hlt|Hlt].
    { rewrite length_app in Hlt. destruct https; cbn in Hlt; lia. }
    destruct (N.leb_spec (N.of_nat (length (scheme https ++ rest))) npos); [|lia]. by destruct https.
Qed.

(** A URL of a host and a port, with or without a path, gives back that host and that
    port. *)
Theorem url_read_back https host port path :
  (":"%char ∉ host) → ("/"%char ∉ host) → ("/"%char ∉ port) → path_like path →
  let url := scheme https ++ host ++ ":"%char :: port ++ path in
  (N.of_nat (length url) < npos)%N →
  parse_url url = Ret (mk_authority https host port).
Proof.
  intros Hc Hs Hp Hpath url Hlen. unfold parse_url, url.
  destruct (substr_scheme https (host ++ ":"%char :: port ++ path)) as [-> ->]; [unfold url in Hlen; lia|].
  cbn [outcome_bind]. rewrite !find_char_app by done. cbn [find_char].
  change (Ascii.eqb ":" ":") with true. change (Ascii.eqb ":" "/") with false. cbn iota. rewrite find_char_app by done.
  unfold url in Hlen. rewrite !length_app in Hlen. cbn [length] in Hlen. rewrite length_app in Hlen.
  cbn [fmap option_fmap option_map]. rewrite Nat.add_0_r.
  assert (∀ slash, slash = None ∨ slash = Some (length host + S (length port)) →
    N.min (position (Some (length host))) (position slash) = N.of_nat (length host) ∧
    from_option N.of_nat (N.of_nat (length (host ++ ":"%char :: port))) slash ⊖ N.of_nat (S (length host))
      = N.of_nat (length port)) as Hpos.
  { intros slash [->| ->]; cbn [position from_option]; rewrite ?length_app; cbn [length].
    - split; [lia|]. rewrite u64_sub_small; [lia|lia|]. unfold is_u64, npos in *. lia.
    - split; [lia|]. rewrite u64_sub_small; [lia|lia|]. unfold is_u64, npos in *. lia. }
  change (host ++ ":"%char :: port ++ path) with (host ++ [":"%char] ++ port ++ path).
  assert (∀ n, n = length host → substr (host ++ [":"%char] ++ port ++ path) 0 (N.of_nat n) = Ret host) as Hhost.
  { intros n ->. rewrite substr_take; [|rewrite !length_app; lia]. by rewrite Nat2N.id, take_app_length. }
  assert (substr (host ++ [":"%char] ++ port ++ path) (S (length host)) (N.of_nat (length port)) = Ret port) as Hport.
  { rewrite app_assoc. replace (S (length host)) with (length (host ++ [":"%char])) by (rewrite length_app; cbn; lia).
    apply substr_middle. }
  destruct Hpath as [->|[rest ->]]; cbn [find_char fmap option_fmap option_map].
  - destruct (Hpos None) as [-> Hcount]; [by left|]. rewrite Hhost by done. cbn [outcome_bind].
    rewrite app_nil_r in *. cbn [app] in Hport |- *. rewrite Hcount, Hport. done.
  - change (Ascii.eqb "/" "/") with true. cbn [fmap option_fmap option_map]. rewrite Nat.add_0_r.
    destruct (Hpos (Some (length host + S (length port)))) as [-> Hcount]; [by right|]. rewrite Hhost by done.
    cbn [outcome_bind from_option] in *. rewrite Hcount. by rewrite Hport.
Qed.

Lemma url_read_back_witness :
  parse_url (String.list_ascii_of_string "https://node1:8443/v1") =
  Ret (mk_authority true (String.list_ascii_of_string "node1") (String.list_ascii_of_string "8443")).
Proof.
  apply (url_read_back true (String.list_ascii_of_string "node1") (String.list_ascii_of_string "8443")
    (String.list_ascii_of_string "/v1")); [cbn; set_solver..|right; by eexists|done].
Defined.

(** An IPv6 address in brackets is cut at its first colon. *)
Theorem ipv6_url_misread :
  parse_url (String.list_ascii_of_string "http://[::1]:8080") =
  Ret (mk_authority false (String.list_ascii_of_string "[") (String.list_ascii_of_string ":1]:8080")).
Proof. by vm_compute. Qed.

(** ** Connections stay alive and their number is bounded *)

Lemma lru_in {A} (last_used : A → Z) (m : gmap N A) :
  match lru last_used m with
  | Some k => ∃ a, m !! k = Some a ∧ ∀ k' a', m !! k' = Some a' → (last_used a ≤ last_used a')%Z
  | None => m = ∅
  end.
Proof.
  unfold lru. destruct (map_to_list m) as [|first rest] eqn:E; [by apply map_to_list_empty_iff|].
  set (best := foldl _ first rest).
  assert (best ∈ first :: rest ∧ ∀ kv, kv ∈ first :: rest → (last_used best.2 ≤ last_used kv.2)%Z) as [Hin Hmin].
  { subst best. clear E m. revert first. induction rest as [|kv rest IH]; intros first; cbn [foldl]; [set_solver by lia|].
    destruct (IH (if bool_decide (last_used kv.2 < last_used first.2)%Z then kv else first)) as [Hin Hmin].
    case_bool_decide as Hlt; split; [set_solver| |set_solver|].
    - pose proof (Hmin kv ltac:(left)). intros kv' [->|[->|Hkv']%elem_of_cons]%elem_of_cons; [lia|lia|].
      apply Hmin. by right.
    - pose proof (Hmin first ltac:(left)). intros kv' [->|[->|Hkv']%elem_of_cons]%elem_of_cons; [lia|lia|].
      apply Hmin. by right. }
  rewrite <- E in Hin, Hmin. exists best.2. split; [apply elem_of_map_to_list; by destruct best|].
  intros k' a' H'. apply (Hmin (k', a')). by apply elem_of_map_to_list.
Qed.

Module BeastPoolFacts.
Import BeastPool.

Definition live (pool : t) (c : N) : Prop :=
  (∃ target conn, _connections pool !! target = Some conn ∧ connection conn = c) ∨ c ∈ _retired_connections pool.

Record pool_ok (cfg : config) (pool : t) : Prop := mk_pool_ok {
  ok_fresh c : live pool c → (c < next_connection pool)%N;
  ok_distinct target target' conn conn' :
    _connections pool !! target = Some conn → _connections pool !! target' = Some conn' →
    connection conn = connection conn' → target = target';
  ok_retired target conn : _connections pool !! target = Some conn → connection conn ∉ _retired_connections pool;
  ok_bound : (N.of_nat (size (_connections pool)) <= N.max 1 (connection_pool_size cfg))%N
}.

(** A well-formed pool stays so, and no connection is destroyed. *)
Definition grows (cfg : config) (pool pool' : t) : Prop :=
  pool_ok cfg pool → pool_ok cfg pool' ∧ (next_connection pool <= next_connection pool')%N ∧
    ∀ c, live pool c → live pool' c.

#[export] Instance grows_preorder cfg : PreOrder (grows cfg).
Proof.
  split; [by intros pool Hok|]. intros p1 p2 p3 H12 H23 Hok. destruct (H12 Hok) as (Hok2 & Hn & Hl).
  destruct (H23 Hok2) as (Hok3 & Hn' & Hl'). split_and!; [done|lia|auto].
Qed.

Section facts.
Context (cfg : config).

Lemma retire_spec target pool :
  match _connections pool !! target with
  | None => retire target pool = pool
  | Some conn => _connections (retire target pool) = delete target (_connections pool) ∧
      _retired_connections (retire target pool) = _retired_connections pool ++ [connection conn] ∧
      next_connection (retire target pool) = next_connection pool
  end.
Proof. unfold retire. by destruct (_connections pool !! target). Qed.

Lemma retire_grows target pool : grows cfg pool (retire target pool).
Proof.
  intros Hok. pose proof (retire_spec target pool) as Hspec.
  destruct (_connections pool !! target) as [conn|] eqn:E; [|by rewrite Hspec].
  destruct Hspec as (Hc & Hr & Hn).
  assert (∀ c, live pool c ↔ live (retire target pool) c) as Hlive.
  { intros c. unfold live. rewrite Hc, Hr. split.
    - intros [(t & k & Ht & <-)|Hin]; [|right; set_solver].
      destruct (decide (t = target)) as [->|]; [right; set_solver by congruence|].
      left. exists t, k. by rewrite lookup_delete_ne.
    - intros [(t & k & [? Ht]%lookup_delete_Some & <-)|[Hin| ->%list_elem_of_singleton]%elem_of_app]; eauto. }
  split_and!; [|lia|by intros c Hlc; apply Hlive]. split.
  - intros c Hlc%Hlive. rewrite Hn. by apply Hok.
  - intros t t' k k'. rewrite Hc, !lookup_delete_Some. intros [_ Ht] [_ Ht']. by eapply Hok.
  - intros t k. rewrite Hc, Hr, lookup_delete_Some. intros [Hne Ht] [Hin|Hin%list_elem_of_singleton]%elem_of_app.
    + by eapply Hok.
    + by apply Hne, (ok_distinct _ _ Hok target t conn k).
  - rewrite Hc, map_size_delete, E. pose proof (ok_bound _ _ Hok). lia.
Qed.

(** A new connection where there is room for it. *)
Lemma insert_new_grows target hd now pool :
  (N.of_nat (size (_connections pool)) < N.max 1 (connection_pool_size cfg))%N →
  _connections pool !! target = None →
  grows cfg pool (mk (<[target := mk_pooled (next_connection pool) hd now]> (_connections pool))
    (_retired_connections pool) (next_connection pool + 1)).
Proof.
  intros Hroom Hnone Hok. set (conn := mk_pooled _ _ _).
  assert (∀ t k, _connections pool !! t = Some k → (connection k < next_connection pool)%N) as Hlt.
  { intros t k Ht. apply Hok. left. eauto. }
  split_and!; [split|cbn; lia|].
  - cbn. intros c [(t & k & Ht & <-)|Hin]; [|pose proof (ok_fresh _ _ Hok c ltac:(by right)); lia].
    cbn in Ht. apply lookup_insert_Some in Ht as [[<- <-]|[_ Ht]]; [cbn; lia|]. pose proof (Hlt _ _ Ht). lia.
  - cbn. intros t t' k k' [[<- <-]|[_ Ht]]%lookup_insert_Some [[<- <-]|[_ Ht']]%lookup_insert_Some Heq; [done| | |].
    + pose proof (Hlt _ _ Ht'). cbn in Heq. lia.
    + pose proof (Hlt _ _ Ht). cbn in Heq. lia.
    + by eapply Hok.
  - cbn. intros t k [[<- <-]|[_ Ht]]%lookup_insert_Some Hin; [|by eapply Hok].
    pose proof (ok_fresh _ _ Hok _ (or_intror Hin)). cbn in *. lia.
  - cbn. rewrite map_size_insert, Hnone. lia.
  - intros c [(t & k & Ht & <-)|Hin]; [|by right]. left. exists t, k. cbn. split; [|done].
    rewrite lookup_insert_ne; [done|]. by intros ->; rewrite Hnone in Ht.
Qed.

(** Using a connection again changes only its time. *)
Lemma touch_grows target conn now pool :
  _connections pool !! target = Some conn →
  grows cfg pool (mk (<[target := mk_pooled (connection conn) (host_header conn) now]> (_connections pool))
    (_retired_connections pool) (next_connection pool)).
Proof.
  intros E Hok. set (conn' := mk_pooled _ _ _). set (pool' := mk _ _ _).
  assert (∀ t k, _connections pool' !! t = Some k →
    ∃ k0, _connections pool !! t = Some k0 ∧ connection k0 = connection k) as Hback.
  { cbn. intros t k [[<- <-]|[_ Ht]]%lookup_insert_Some; [by exists conn|by exists k]. }
  assert (∀ t k, _connections pool !! t = Some k →
    ∃ k1, _connections pool' !! t = Some k1 ∧ connection k1 = connection k) as Hforth.
  { cbn. intros t k Ht. destruct (decide (target = t)) as [<-|].
    - exists conn'. rewrite lookup_insert_eq. split; [done|]. cbn. congruence.
    - exists k. by rewrite lookup_insert_ne. }
  split_and!; [split|cbn; lia|].
  - intros c [(t & k & Ht & <-)|Hin]; [|apply Hok; by right].
    destruct (Hback _ _ Ht) as (k0 & Ht0 & <-). apply Hok. left. eauto.
  - intros t t' k k' Ht Ht' Heq. destruct (Hback _ _ Ht) as (k0 & Ht0 & E0), (Hback _ _ Ht') as (k1 & Ht1 & E1).
    eapply (ok_distinct _ _ Hok t t' k0 k1); [done..|congruence].
  - intros t k Ht. destruct (Hback _ _ Ht) as (k0 & Ht0 & <-). by eapply Hok.
  - cbn. rewrite map_size_insert, E. apply Hok.
  - intros c [(t & k & Ht & <-)|Hin]; [|by right]. left. destruct (Hforth _ _ Ht) as (k1 & Ht1 & E1). eauto.
Qed.

Definition evict (pool : t) : t :=
  if (connection_pool_size cfg <=? N.of_nat (size (_connections pool)))%N then
    match lru last_used (_connections pool) with Some oldest => retire oldest pool | None => pool end
  else pool.

Lemma evict_spec target pool :
  pool_ok cfg pool → _connections pool !! target = None →
  grows cfg pool (evict pool) ∧ _connections (evict pool) !! target = None ∧
  (N.of_nat (size (_connections (evict pool))) < N.max 1 (connection_pool_size cfg))%N.
Proof.
  intros Hok Hnone. unfold evict. pose proof (ok_bound _ _ Hok) as Hb.
  destruct (N.leb_spec (connection_pool_size cfg) (N.of_nat (size (_connections pool)))) as [Hfull|]; [|split_and!; [done..|lia]].
  pose proof (lru_in last_used (_connections pool)) as Hlru. destruct (lru _ _) as [k|].
  - destruct Hlru as (conn & Hk & _). pose proof (retire_spec k pool) as Hspec. rewrite Hk in Hspec.
    destruct Hspec as (Hc & _ & _). split; [apply retire_grows|]. rewrite Hc, map_size_delete, Hk. split.
    + rewrite lookup_delete_None. by right.
    + assert (0 < size (_connections pool)); [|lia].
      destruct (size (_connections pool)) eqn:Es; [|lia]. apply map_size_empty_inv in Es. by rewrite Es in Hk.
  - rewrite Hlru in *. split_and!; [done..|]. change (size ∅) with 0. lia.
Qed.

Section operations.
Context (resolve : list ascii → list ascii → outcome (list N)) (has_ssl_context : bool).
Context (_node_id_to_url : gmap N (list ascii)).
Local Abbreviation get := (get_or_create_connection cfg resolve has_ssl_context _node_id_to_url).

(** The path that makes a connection, from a pool without one for the node. *)
Lemma create_grows target now pool :
  _connections pool !! target = None →
  let '(r, pool') := get target now pool in
  grows cfg pool pool' ∧ ∀ conn, r = Ret conn → _connections pool' !! target = Some conn.
Proof.
  intros Hnone. unfold get_or_create_connection. rewrite let_get, Hnone.
  destruct (_node_id_to_url !! target) as [url|]; [|by split].
  destruct (parse_url url) as [a|e|u]; [|by split..]. rewrite let_lift.
  destruct (resolve (host a) (port a)) as [[|x l]|e|u]; [by split| |by split..]. rewrite let_lift.
  destruct (is_https a && negb has_ssl_context); [by split|]. rewrite let_modify, let_get, let_modify.
  fold (evict pool). split; [|intros conn [= <-]; apply lookup_insert_eq].
  intros Hok. destruct (evict_spec target pool Hok Hnone) as (Hg & Hn & Hroom).
  apply (transitivity (R := grows cfg) Hg); [|done]. by apply insert_new_grows.
Qed.

Lemma get_grows target now pool :
  let '(r, pool') := get target now pool in
  grows cfg pool pool' ∧ ∀ conn, r = Ret conn → _connections pool' !! target = Some conn.
Proof.
  destruct (_connections pool !! target) as [conn|] eqn:E; [|by apply create_grows].
  pose proof (retire_spec target pool) as Hspec. rewrite E in Hspec. destruct Hspec as (Hc & _ & _).
  assert (_connections (retire target pool) !! target = None) as Hnone by (rewrite Hc; apply lookup_delete_eq).
  pose proof (create_grows target now (retire target pool) Hnone) as Hcreate.
  unfold get_or_create_connection in *. rewrite let_get, Hnone in Hcreate. rewrite let_get, E.
  case_bool_decide.
  - rewrite let_modify. match type of Hcreate with match ?x with _ => _ end => destruct x as [r pool'] end.
    destruct Hcreate as [Hg Hin]. split; [|done]. etrans; [apply retire_grows|done].
  - rewrite let_modify. split; [by apply touch_grows|]. intros k [= <-]. apply lookup_insert_eq.
Qed.

Lemma reload_grows validated : steps (grows cfg) (reload_tls_material validated).
Proof.
  unfold reload_tls_material. apply steps_let; [apply _|apply steps_lift, _|]. intros _.
  apply steps_modify. intros pool Hok.
  assert (∀ c, c ∈ (map_to_list (connection <$> _connections pool)).*2 ↔
    ∃ t k, _connections pool !! t = Some k ∧ connection k = c) as Hin.
  { intros c. rewrite list_elem_of_fmap. split.
    - intros ([t x] & -> & Hx%elem_of_map_to_list). apply lookup_fmap_Some in Hx as (k & <- & Hk). eauto.
    - intros (t & k & Hk & <-). exists (t, connection k). split; [done|]. apply elem_of_map_to_list.
      by rewrite lookup_fmap, Hk. }
  split_and!; [split|cbn; lia|].
  - cbn. intros c [(t & k & Ht & _)|Hc]; [cbn in Ht; by rewrite lookup_empty in Ht|]. cbn in Hc.
    apply elem_of_app in Hc as [Hc|Hc%Hin]; apply Hok; [by right|by left].
  - cbn. intros t t' k k'. by rewrite lookup_empty.
  - cbn. intros t k. by rewrite lookup_empty.
  - cbn. change (size ∅) with 0. lia.
  - intros c [Hc|Hc]; right; cbn; apply elem_of_app; [right; by apply Hin|by left].
Qed.

(** What the threads of a client do with its pool, in the order of the mutex. *)
Inductive operation : Type :=
  | op_get (target : N) (now : Z)
  | op_remove (target : N)
  | op_reload (validated : outcome ()).

(** One operation on the pool and on the list of the connections handed out. *)
Definition perform (s : t * list N) (op : operation) : t * list N :=
  let '(pool, handed) := s in
  match op with
  | op_get target now =>
      match get target now pool with
      | (Ret conn, pool) => (pool, handed ++ [connection conn])
      | (_, pool) => (pool, handed)
      end
  | op_remove target => ((remove_connection target pool).2, handed)
  | op_reload validated => ((reload_tls_material validated pool).2, handed)
  end.

Lemma perform_ok pool handed op :
  pool_ok cfg pool ∧ Forall (live pool) handed →
  pool_ok cfg (perform (pool, handed) op).1 ∧ Forall (live (perform (pool, handed) op).1) (perform (pool, handed) op).2.
Proof.
  intros [Hok Hh].
  assert (∀ pool', grows cfg pool pool' → pool_ok cfg pool' ∧ Forall (live pool') handed) as Hgrow.
  { intros pool' Hg. destruct (Hg Hok) as (Hok' & _ & Hl). split; [done|]. by eapply Forall_impl. }
  destruct op as [target now|target|validated]; cbn [perform].
  - pose proof (get_grows target now pool) as H. destruct (get target now pool) as [[conn|e|u] pool']; cbn;
      destruct H as [Hg Hin]; destruct (Hgrow _ Hg) as [Hok' Hh']; [|done..].
    split; [done|]. apply Forall_app. split; [done|]. constructor; [|done]. left. exists target, conn. by split; [apply Hin|].
  - apply Hgrow, retire_grows.
  - apply Hgrow, reload_grows.
Qed.

(** Whatever the threads of a client do, in whatever order: no connection that was
    handed to a call is destroyed, no two nodes share one, and at most
    [connection_pool_size] are in the pool, one if that is zero. *)
Theorem beast_connections_stay_alive ops :
  let '(pool, handed) := foldl perform (mk ∅ [] 0, []) ops in
  pool_ok cfg pool ∧ ∀ c, c ∈ handed → live pool c.
Proof.
  pose proof (foldl_invariant (λ s, pool_ok cfg s.1 ∧ Forall (live s.1) s.2) perform ops (mk ∅ [] 0, [])) as H.
  destruct (foldl perform _ ops) as [pool handed]. destruct H as [Hok Hh].
  - intros [p h] op. apply perform_ok.
  - split; [split; cbn|constructor].
    + intros c [(t & k & Ht & _)|Hc]; cbn in *; [by rewrite lookup_empty in Ht|by apply elem_of_nil in Hc].
    + intros t t' k k'. by rewrite lookup_empty.
    + intros t k. by rewrite lookup_empty.
    + change (size ∅) with 0. lia.
  - split; [done|]. by rewrite Forall_forall in Hh.
Qed.
End operations.
End facts.

(** [send_rpc] goes on using the entry that [get_or_create_connection] returned a
    reference to, after the mutex was released. *)
Definition use_reference (target : N) : M t N :=
  let! pool := mget in
  match _connections pool !! target with
  | Some conn => mreturn (connection conn)
  | None => mundef "reference to an erased entry"
  end.

(** Between the two another call may have erased the entry: with room for one
    connection, a call to node 2 while a call to node 1 is being made. *)
Theorem pooled_reference_dangles :
  let cfg := mk_config 1 60000 in
  let urls := <[1%N := String.list_ascii_of_string "http://a:1"]> {[2%N := String.list_ascii_of_string "http://b:2"]} in
  let get := get_or_create_connection cfg (λ _ _, Ret [0%N]) false urls in
  let first := get 1%N 0%Z (mk ∅ [] 0) in
  let second := get 2%N 1%Z first.2 in
  first.1 = Ret (mk_pooled 0 ["a"%char] 0) ∧ second.1 = Ret (mk_pooled 1 ["b"%char] 1) ∧
  result_of (use_reference 1) first.2 = Ret 0%N ∧
  result_of (use_reference 1) second.2 = Undef "reference to an erased entry".
Proof. by vm_compute. Qed.
End BeastPoolFacts.

(** A call to a node without a URL takes a place in [proxygen_client]'s pool all the
    same, and the least recently used connection loses its own. *)
Theorem unknown_node_evicts :
  let urls := {[1%N := String.list_ascii_of_string "http://a:1"]} in
  let slot := ProxygenPool.get_or_create_slot 1 (λ _, 0%N) in
  let pool := (slot 1%N 0%Z (ProxygenPool.mk ∅ 0)).2 in
  let pool' := (slot 9%N 1%Z pool).2 in
  ProxygenPool.resolve_target (λ _ _, Ret tt) urls 9 = Throw (runtime_error "No URL mapping found for node 9") ∧
  is_Some (ProxygenPool._connections pool !! 1%N) ∧ ProxygenPool._connections pool' !! 1%N = None ∧
  is_Some (ProxygenPool._connections pool' !! 9%N).
Proof. split_and!; [by vm_compute|by eexists|by vm_compute|by eexists]. Qed.
