(* ===== verification/HttpCalls.v ===== *)
(** Remote calls over HTTP: the servers and the clients of [http_transport_impl.hpp]
    (cpp-httplib), [beast_http_transport_impl.hpp] (Boost.Beast) and
    [proxygen_http_transport_impl.hpp] (Proxygen).

    A message is its path, its [Content-Type] and [Accept] headers and its body.  An
    exchange may lose the request or the answer, as an oracle decides; what is below
    it belongs to the libraries.  [HttpServes] and [HttpCalls] state what a server
    promises to a client and what a client does with an exchange; the three servers
    and the three clients are their instances, and the theorems are about any client
    with any server. *)

From Stdlib Require Import Ascii.
From stdpp Require Import strings pretty.
From S2P Require Import Prelude Types ConfigEntry Bytes Base64 JsonSerializer CborSerializer SerializerRegistry HttpPools.

Local Open Scope N_scope.

(** ** Messages *)

Inductive http_rpc : Type := http_request_vote | http_append_entries | http_install_snapshot.

Definition endpoint (k : http_rpc) : string :=
  match k with
  | http_request_vote => "/v1/raft/request_vote"
  | http_append_entries => "/v1/raft/append_entries"
  | http_install_snapshot => "/v1/raft/install_snapshot"
  end.

Definition request_kind (k : http_rpc) : message_kind :=
  match k with
  | http_request_vote => k_request_vote_request
  | http_append_entries => k_append_entries_request
  | http_install_snapshot => k_install_snapshot_request
  end.

Definition response_kind (k : http_rpc) : message_kind :=
  match k with
  | http_request_vote => k_request_vote_response
  | http_append_entries => k_append_entries_response
  | http_install_snapshot => k_install_snapshot_response
  end.

Record http_request : Type := mk_http_request {
  path : string;
  content_type : option string;
  accept : option string;
  request_body : bytes
}.

Record http_response : Type := mk_http_response {
  status : N;
  response_type : option string;
  response_body : bytes
}.

Definition text (s : string) : bytes := String.list_byte_of_string s.

(** A header as the functions of [SerializerRegistry] take and give it. *)
Definition chars : string → list ascii := String.list_ascii_of_string.
Definition of_chars : list ascii → string := String.string_of_list_ascii.

(** ** Headers *)

Section headers.
Context {R : Type} `{SerializerRegistry R}.

(** The declared type of a message, without parameters; the default when there is
    none. *)
Definition declared_type (registry : R) (header : option string) : string :=
  match header with
  | None => default_media_type registry
  | Some value =>
      match strip_media_type_parameters (chars value) with
      | [] => default_media_type registry
      | stripped => of_chars stripped
      end
  end.

Definition accepted_types (header : option string) : list string :=
  match header with
  | None => []
  | Some value => of_chars <$> parse_accept_header (chars value)
  end.

(** The [Accept] header of a request: every type we know, in our order. *)
Definition accept_all (registry : R) : option string :=
  match format_accept_header (chars <$> preferred_media_types registry) with
  | [] => None
  | header => Some (of_chars header)
  end.
End headers.

(** ** Servers *)

Section servers.
Context {R : Type} `{SerializerRegistry R}.
(** [e.what()] of an exception, as far as a peer is told. *)
Context (what : exn → string).
Context (registry : R) (handlers : http_rpc → option (message → outcome message)).

(** The [handle] of [boost_beast_server::dispatch].  The state is the list of the
    requests that a handler was given. *)
Definition handle (k : http_rpc) (request_media_type : string) (accepted : list string) (body : bytes) :
    M (list message) http_response :=
  let plain code s := mreturn (mk_http_response code (Some "text/plain") (text s)) in
  match handlers k with
  | None => plain 500 "Handler not registered"
  | Some handler =>
      if negb (supports registry request_media_type)
      then plain 415 ("Unsupported Content-Type: " +:+ request_media_type) else
      match select_output_media_type registry accepted with
      | None => mreturn (mk_http_response 406 (Some "text/plain") [])
      | Some output =>
          match decode_with registry (request_kind k) request_media_type body with
          | Undef u => mundef u
          | Throw e => plain 400 ("Bad Request: " +:+ what e)
          | Ret request =>
              do! mmodify (λ handled, handled ++ [request]) in
              match handler request with
              | Undef u => mundef u
              | Throw _ => plain 500 "Internal Server Error"
              | Ret response =>
                  match encode_with registry output response with
                  | Undef u => mundef u
                  | Throw _ => plain 500 "Internal Server Error"
                  | Ret data => mreturn (mk_http_response 200 (Some output) data)
                  end
              end
          end
      end
  end.

(** [boost_beast_server::dispatch] *)
Definition dispatch (target request_media_type : string) (accepted : list string) (body : bytes) :
    M (list message) http_response :=
  if String.eqb target (endpoint http_request_vote) then handle http_request_vote request_media_type accepted body
  else if String.eqb target (endpoint http_append_entries) then handle http_append_entries request_media_type accepted body
  else if String.eqb target (endpoint http_install_snapshot) then handle http_install_snapshot request_media_type accepted body
  else mreturn (mk_http_response 404 (Some "text/plain") (text "Not Found")).

(** A session of [boost_beast_server]: [handle_and_write] of a request that was read,
    and [handle_read_error] of one whose body was too long. *)
Definition beast_serve (max_request_body_size : N) (request : http_request) : M (list message) http_response :=
  if max_request_body_size <? N.of_nat (length (request_body request))
  then mreturn (mk_http_response 413 (Some "text/plain") (text "Request body exceeds maximum allowed size"))
  else dispatch (path request) (declared_type registry (content_type request)) (accepted_types (accept request))
    (request_body request).

(** [proxygen_server::dispatch]: the text of Beast's, but for the names of metrics. *)
Definition proxygen_dispatch := dispatch.

(** [rpc_request_handler] of Proxygen, from [onRequest] to [onEOM]; a body in several
    parts is the concatenation of them. *)
Definition proxygen_serve (request : http_request) : M (list message) http_response :=
  proxygen_dispatch (path request) (declared_type registry (content_type request)) (accepted_types (accept request))
    (request_body request).

(** The serializer that [cpp_httplib_server] is built with. *)
Context (_serializer : message_kind → bytes → outcome message).

(** [cpp_httplib_server::handle_rpc_endpoint], after an exception: the body is decoded
    once more to tell whose fault it was. *)
Definition error_answer (k : http_rpc) (body : bytes) (e : exn) : outcome http_response :=
  let bad_request := mk_http_response 400 (Some "text/plain") (text ("Bad Request: " +:+ what e)) in
  match body with
  | [] => Ret bad_request
  | _ =>
      match _serializer (request_kind k) body with
      | Ret _ => Ret (mk_http_response 500 (Some "text/plain") (text "Internal Server Error"))
      | Throw _ => Ret bad_request
      | Undef u => Undef u
      end
  end.

Definition handle_rpc_endpoint (k : http_rpc) (request : http_request) : M (list message) http_response :=
  mcatch
    (match handlers k with
     | None => mreturn (mk_http_response 500 (Some "text/plain") (text "Handler not registered"))
     | Some handler =>
         let request_media_type := declared_type registry (content_type request) in
         if negb (supports registry request_media_type)
         then mreturn (mk_http_response 415 (Some "text/plain") (text ("Unsupported Content-Type: " +:+ request_media_type)))
         else
           match select_output_media_type registry (accepted_types (accept request)) with
           | None => mreturn (mk_http_response 406 None [])
           | Some output =>
               let! m := mlift (decode_with registry (request_kind k) request_media_type (request_body request)) in
               do! mmodify (λ handled, handled ++ [m]) in
               let! response := mlift (handler m) in
               let! data := mlift (encode_with registry output response) in
               mreturn (mk_http_response 200 (Some output) data)
           end
     end)
    (λ e, mlift (error_answer k (request_body request) e)).

(** The routes of [setup_endpoints]; the library answers 413 to a body that is longer
    than it was told to take, and 404 on any other path. *)
Definition httplib_serve (max_request_body_size : N) (request : http_request) : M (list message) http_response :=
  if max_request_body_size <? N.of_nat (length (request_body request)) then mreturn (mk_http_response 413 None [])
  else if String.eqb (path request) (endpoint http_request_vote) then handle_rpc_endpoint http_request_vote request
  else if String.eqb (path request) (endpoint http_append_entries) then handle_rpc_endpoint http_append_entries request
  else if String.eqb (path request) (endpoint http_install_snapshot) then handle_rpc_endpoint http_install_snapshot request
  else mreturn (mk_http_response 404 None []).
End servers.

(** ** Exchanges *)

Inductive transport_error : Type :=
  | connection_timeout
  | read_error
  | other_error (what : string).

(** What becomes of an exchange that fails. *)
Inductive fault : Type :=
  | request_lost (e : transport_error)
  | answer_lost (e : transport_error).

(** What the peer handled, what the client knows of its peers, and the number of
    exchanges so far. *)
Record world : Type := mk_world {
  handled : list message;
  known_types : capability_cache;
  exchanges : nat
}.

Section exchange.
Context (server : http_request → M (list message) http_response) (faults : nat → option fault).

Definition exchange (request : http_request) : M world (http_response + transport_error) := λ w,
  let next log := mk_world log (known_types w) (S (exchanges w)) in
  match faults (exchanges w) with
  | Some (request_lost e) => (Ret (inr e), next (handled w))
  | f =>
      match server request (handled w) with
      | (Undef u, log) => (Undef u, next log)
      | (Throw _, log) => (Ret (inr (other_error "connection closed")), next log)
      | (Ret response, log) =>
          (Ret (match f with Some (answer_lost e) => inr e | _ => inl response end), next log)
      end
  end.
End exchange.

(** ** Clients *)

Section clients.
Context {R : Type} `{SerializerRegistry R}.
Context (what : exn → string).
Context (registry : R) (target : N) (k : http_rpc).
Context (ask : http_request → M world (http_response + transport_error)).

Definition http_post (content_type : string) (body : bytes) : http_request :=
  mk_http_request (endpoint k) (Some content_type) (accept_all registry) body.

(** The continuation of [boost_beast_client::send_rpc] that reads an answer. *)
Definition read_response (response : http_response) : M world message :=
  if status response =? 200 then
    let response_media_type := declared_type registry (response_type response) in
    if negb (supports registry response_media_type)
    then mthrow (unsupported_media_type_error response_media_type) else
    match decode_with registry (response_kind k) response_media_type (response_body response) with
    | Undef u => mundef u
    | Throw (unsupported_media_type_error mt) => mthrow (unsupported_media_type_error mt)
    | Throw e => mthrow (serialization_error ("Failed to deserialize response: " +:+ what e))
    | Ret decoded =>
        do! mmodify (λ w, mk_world (handled w) (cache_record target response_media_type (known_types w)) (exchanges w)) in
        mreturn decoded
    end
  else if (400 <=? status response) && (status response <? 500)
  then mthrow (http_client_error (status response) (response_body response))
  else if 500 <=? status response
  then mthrow (http_server_error (status response) (response_body response))
  else mthrow (runtime_error ("Unexpected HTTP status code: " +:+ pretty (status response))).

(** The type of a request, by the types that the peer refused. *)
Definition request_type (attempted : list string) (known : capability_cache) : outcome string :=
  match attempted with
  | [] => Ret (select_request_media_type registry known target)
  | _ => match next_request_media_type_after_rejection registry attempted with
         | Some mt => Ret mt
         | None => Throw bad_optional_access
         end
  end.

(** The outermost continuation of [send_rpc] in Beast and Proxygen: after a 415 the
    call is made again with the next type. *)
Definition after_rejection {S} (again : list string → M S message) (attempted : list string) (mt : string) (e : exn) :
    M S message :=
  match e with
  | http_client_error 415 _ =>
      let attempted := attempted ++ [mt] in
      match next_request_media_type_after_rejection registry attempted with
      | Some _ => again attempted
      | None => mthrow e
      end
  | _ => mthrow e
  end.

(** *** Boost.Beast *)

Section beast.
Context (cfg : BeastPool.config) (resolve : list ascii → list ascii → outcome (list N)) (has_ssl_context : bool).
Context (_node_id_to_url : gmap N (list ascii)).
(** The clock, by the number of exchanges made. *)
Context (clock : nat → Z).

Definition beast_fault (e : transport_error) : exn :=
  match e with
  | connection_timeout | read_error => system_error "timeout"
  | other_error w => system_error w
  end.

(** [boost_beast_client::send_rpc] *)
Fixpoint beast_send_rpc (fuel : nat) (attempted : list string) (request : message) : M (world * BeastPool.t) message :=
  match fuel with
  | O => mundef "out of fuel"
  | S fuel =>
      let! s := mget in
      let! _ := on_snd (BeastPool.get_or_create_connection cfg resolve has_ssl_context _node_id_to_url target
        (clock (exchanges s.1))) in
      let! mt := mlift (request_type attempted (known_types s.1)) in
      let! body := mlift (encode_with registry mt request) in
      mcatch
        (mcatch
          (let! answer := on_fst (ask (http_post mt body)) in
           match answer with
           | inr e => mthrow (beast_fault e)
           | inl response => on_fst (read_response response)
           end)
          (λ e, do! on_snd (BeastPool.remove_connection target) in mthrow e))
        (after_rejection (λ attempted, beast_send_rpc fuel attempted request) attempted mt)
  end.
End beast.

(** *** Proxygen *)

Section proxygen.
Context (connection_pool_size : N) (get_event_base : N → N) (set_from_host_port : list ascii → list ascii → outcome ()).
Context (_node_id_to_url : gmap N (list ascii)) (clock : nat → Z).

Definition proxygen_fault (e : transport_error) : exn :=
  match e with
  | connection_timeout | read_error => runtime_error "timeout"
  | other_error w => runtime_error w
  end.

(** [send_rpc_generic_bridge] *)
Definition send_rpc_generic_bridge (mt : string) (request : message) : M (world * ProxygenPool.t) message :=
  let! s := mget in
  let! _ := on_snd (ProxygenPool.get_or_create_slot connection_pool_size get_event_base target (clock (exchanges s.1))) in
  let! _ := mlift (ProxygenPool.resolve_target set_from_host_port _node_id_to_url target) in
  let! body := mlift (encode_with registry mt request) in
  let! answer := on_fst (ask (http_post mt body)) in
  match answer with
  | inr e => mthrow (proxygen_fault e)
  | inl response => on_fst (read_response response)
  end.

(** [send_rpc_folly_fast_path]: the same steps, with Folly's futures. *)
Definition send_rpc_folly_fast_path := send_rpc_generic_bridge.

(** [proxygen_client::send_rpc]; which of the two paths is taken is decided when the
    program is compiled. *)
Fixpoint proxygen_send_rpc (folly : bool) (fuel : nat) (attempted : list string) (request : message) :
    M (world * ProxygenPool.t) message :=
  match fuel with
  | O => mundef "out of fuel"
  | S fuel =>
      let! s := mget in
      let! mt := mlift (request_type attempted (known_types s.1)) in
      mcatch (if folly then send_rpc_folly_fast_path mt request else send_rpc_generic_bridge mt request)
        (after_rejection (λ attempted, proxygen_send_rpc folly fuel attempted request) attempted mt)
  end.
End proxygen.

(** *** cpp-httplib *)

Section httplib.
Context (make_client : string → outcome ()) (configure_ssl_client : outcome ()).
Context (_node_id_to_url : gmap N string) (timeout : Z).

(** The loop of [cpp_httplib_client::send_rpc] over the media types. *)
Fixpoint post_loop (fuel : nat) (attempted : list string) (content_type : string) (request : message) :
    M world (http_response + transport_error) :=
  match fuel with
  | O => mundef "out of fuel"
  | S fuel =>
      let attempted := attempted ++ [content_type] in
      let! body := mlift (encode_with registry content_type request) in
      let! answer := ask (http_post content_type body) in
      match answer with
      | inl response =>
          if status response =? 415 then
            match next_request_media_type_after_rejection registry attempted with
            | Some next => post_loop fuel attempted next request
            | None => mreturn answer
            end
          else mreturn answer
      | inr _ => mreturn answer
      end
  end.

Definition httplib_fault (e : transport_error) : exn :=
  match e with
  | connection_timeout | read_error => http_timeout_error ("HTTP request timed out after " +:+ pretty timeout +:+ "ms")
  | other_error w => runtime_error ("HTTP request failed: " +:+ w)
  end.

(** The rest of [send_rpc]: the future that is returned, by what it holds. *)
Definition read_result (answer : http_response + transport_error) : M world (outcome message) :=
  match answer with
  | inr e => mreturn (Throw (httplib_fault e))
  | inl response =>
      if status response =? 200 then
        let response_media_type := declared_type registry (response_type response) in
        if negb (supports registry response_media_type)
        then mreturn (Throw (unsupported_media_type_error response_media_type)) else
        match decode_with registry (response_kind k) response_media_type (response_body response) with
        | Undef u => mundef u
        | Throw e => mreturn (Throw (serialization_error ("Failed to deserialize response: " +:+ what e)))
        | Ret decoded =>
            do! mmodify (λ w, mk_world (handled w) (cache_record target response_media_type (known_types w)) (exchanges w)) in
            mreturn (Ret decoded)
        end
      else if (400 <=? status response) && (status response <? 500)
      then mreturn (Throw (http_client_error (status response) (response_body response)))
      else if 500 <=? status response
      then mreturn (Throw (http_server_error (status response) (response_body response)))
      else mreturn (Throw (runtime_error ("Unexpected HTTP status code: " +:+ pretty (status response))))
  end.

(** [cpp_httplib_client::send_rpc].  The handler around it copies what it caught as a
    [std::exception]. *)
Definition httplib_send_rpc (fuel : nat) (request : message) : M (world * CppHttplibPool.t) message :=
  let! future :=
    mcatch
      (let! _ := on_snd (CppHttplibPool.get_or_create_client what make_client configure_ssl_client _node_id_to_url target) in
       let! s := mget in
       let content_type := select_request_media_type registry (known_types s.1) target in
       let! answer := on_fst (post_loop fuel [] content_type request) in
       on_fst (read_result answer))
      (λ _, mreturn (Throw std_exception)) in
  mlift future.
End httplib.
End clients.

(** ** What a server promises *)

Class HttpServes {R : Type} `{SerializerRegistry R} (registry : R)
    (handlers : http_rpc → option (message → outcome message)) (max_body : N)
    (serve : http_request → M (list message) http_response) : Prop := {
  (** A request that can be read and answered is given to its handler. *)
  serves_request k handler request m answer output data log :
    path request = endpoint k → handlers k = Some handler → N.of_nat (length (request_body request)) <= max_body →
    supports registry (declared_type registry (content_type request)) = true →
    select_output_media_type registry (accepted_types (accept request)) = Some output →
    decode_with registry (request_kind k) (declared_type registry (content_type request)) (request_body request) = Ret m →
    handler m = Ret answer → encode_with registry output answer = Ret data →
    serve request log = (Ret (mk_http_response 200 (Some output) data), log ++ [m]);
  (** One in a type that is not known is refused. *)
  refuses_type k handler request log :
    path request = endpoint k → handlers k = Some handler → N.of_nat (length (request_body request)) <= max_body →
    supports registry (declared_type registry (content_type request)) = false →
    ∃ response, serve request log = (Ret response, log) ∧ status response = 415;
  (** Nothing is handled twice, and nothing that is answered with 415. *)
  handles_once request log :
    let '(r, log') := serve request log in
    (log' = log ∨ ∃ k m, path request = endpoint k ∧ log' = log ++ [m] ∧
      decode_with registry (request_kind k) (declared_type registry (content_type request)) (request_body request) = Ret m) ∧
    ∀ response, r = Ret response → status response = 415 → log' = log;
  (** A 200 carries what the handler answered. *)
  answers_handled request log response log' :
    serve request log = (Ret response, log') → status response = 200 →
    ∃ k handler m answer output,
      path request = endpoint k ∧ handlers k = Some handler ∧ log' = log ++ [m] ∧
      supports registry (declared_type registry (content_type request)) = true ∧
      select_output_media_type registry (accepted_types (accept request)) = Some output ∧
      decode_with registry (request_kind k) (declared_type registry (content_type request)) (request_body request) = Ret m ∧
      handler m = Ret answer ∧ response_type response = Some output ∧
      encode_with registry output answer = Ret (response_body response)
}.

Section server_instances.
Context {R : Type} `{SerializerRegistry R} (what : exn → string).
Context (registry : R) (handlers : http_rpc → option (message → outcome message)).

Lemma dispatch_endpoint k mt accepted body :
  dispatch what registry handlers (endpoint k) mt accepted body = handle what registry handlers k mt accepted body.
Proof. by destruct k. Qed.

Lemma handle_once k mt accepted body log :
  let '(r, log') := handle what registry handlers k mt accepted body log in
  (log' = log ∨ ∃ m, log' = log ++ [m] ∧ decode_with registry (request_kind k) mt body = Ret m) ∧
  ∀ response, r = Ret response → status response = 415 → log' = log.
Proof.
  unfold handle. destruct (handlers k) as [h|]; [|by split; [left|]].
  destruct (negb (supports registry mt)); [by split; [left|]|].
  destruct (select_output_media_type registry accepted); [|by split; [left|]].
  destruct (decode_with registry (request_kind k) mt body) as [m|e|u] eqn:Hd; [|by split; [left|]..].
  rewrite let_modify. destruct (h m) as [a|e|u]; [destruct (encode_with registry _ a)| |]; cbn;
    (split; [right; by exists m|]); by intros response [= <-].
Qed.

Lemma dispatch_once request log :
  let '(r, log') := dispatch what registry handlers (path request) (declared_type registry (content_type request))
    (accepted_types (accept request)) (request_body request) log in
  (log' = log ∨ ∃ k m, path request = endpoint k ∧ log' = log ++ [m] ∧
    decode_with registry (request_kind k) (declared_type registry (content_type request)) (request_body request) = Ret m) ∧
  ∀ response, r = Ret response → status response = 415 → log' = log.
Proof.
  assert (∀ k, String.eqb (path request) (endpoint k) = true → path request = endpoint k) as Heq
    by (intros k; apply String.eqb_eq).
  unfold dispatch.
  destruct (String.eqb _ (endpoint http_request_vote)) eqn:E1;
    [|destruct (String.eqb _ (endpoint http_append_entries)) eqn:E2;
      [|destruct (String.eqb _ (endpoint http_install_snapshot)) eqn:E3; [|by split; [left|intros response [= <-]]]]];
    match goal with |- context [handle what registry handlers ?k ?mt ?acc ?body log] =>
      pose proof (handle_once k mt acc body log) as Hh; destruct (handle what registry handlers k mt acc body log) as [r log'];
      destruct Hh as [[->|(m & -> & Hd)] H415]; (split; [|done]); [by left|right; exists k, m; by split; [apply Heq|]] end.
Qed.

(** What a 200 tells. *)
Definition answered (k : http_rpc) (mt : string) (accepted : list string) (body : bytes) (log : list message)
    (response : http_response) (log' : list message) : Prop :=
  ∃ handler m answer output,
    handlers k = Some handler ∧ log' = log ++ [m] ∧ supports registry mt = true ∧
    select_output_media_type registry accepted = Some output ∧ decode_with registry (request_kind k) mt body = Ret m ∧
    handler m = Ret answer ∧ response_type response = Some output ∧
    encode_with registry output answer = Ret (response_body response).

Lemma handle_answered k mt accepted body log response log' :
  handle what registry handlers k mt accepted body log = (Ret response, log') → status response = 200 →
  answered k mt accepted body log response log'.
Proof.
  unfold handle, answered. destruct (handlers k) as [h|]; [|by intros [= <- <-]].
  destruct (supports registry mt); [|by intros [= <- <-]]. cbn [negb].
  destruct (select_output_media_type registry accepted) as [out|]; [|by intros [= <- <-]].
  destruct (decode_with registry (request_kind k) mt body) as [m|e|u]; [|by intros [= <- <-]|done].
  rewrite let_modify. destruct (h m) as [a|e|u] eqn:Ha; [|by intros [= <- <-]|done].
  destruct (encode_with registry out a) as [d|e|u] eqn:He; [|by intros [= <- <-]|done].
  intros [= <- <-] _. by exists h, m, a, out.
Qed.

Lemma dispatch_answered request log response log' :
  dispatch what registry handlers (path request) (declared_type registry (content_type request))
    (accepted_types (accept request)) (request_body request) log = (Ret response, log') →
  status response = 200 →
  ∃ k, path request = endpoint k ∧ answered k (declared_type registry (content_type request))
    (accepted_types (accept request)) (request_body request) log response log'.
Proof.
  unfold dispatch. intros E Hs.
  destruct (String.eqb_spec (path request) (endpoint http_request_vote)) as [Hp|];
    [|destruct (String.eqb_spec (path request) (endpoint http_append_entries)) as [Hp|];
      [|destruct (String.eqb_spec (path request) (endpoint http_install_snapshot)) as [Hp|];
        [|by injection E as <- <-]]];
    eexists; (split; [exact Hp|]); by apply handle_answered.
Qed.

#[export] Instance proxygen_serves max_body : HttpServes registry handlers max_body (proxygen_serve what registry handlers).
Proof.
  split.
  - intros k h request m a out data log Hp Hh _ Hs Ho Hd Ha He.
    unfold proxygen_serve, proxygen_dispatch. rewrite Hp, dispatch_endpoint. unfold handle.
    rewrite Hh, Hs. cbn [negb]. by rewrite Ho, Hd, let_modify, Ha, He.
  - intros k h request log Hp Hh _ Hs. eexists. unfold proxygen_serve, proxygen_dispatch.
    rewrite Hp, dispatch_endpoint. unfold handle. by rewrite Hh, Hs.
  - intros request log. apply dispatch_once.
  - intros request log response log' E Hs. destruct (dispatch_answered request log response log' E Hs) as (k & Hp & Ha).
    unfold answered in Ha. naive_solver.
Qed.

#[export] Instance beast_serves max_body : HttpServes registry handlers max_body (beast_serve what registry handlers max_body).
Proof.
  split.
  - intros k h request m a out data log Hp Hh Hb Hs Ho Hd Ha He. unfold beast_serve.
    rewrite (proj2 (N.ltb_ge _ _) Hb). by eapply (serves_request (serve := proxygen_serve what registry handlers)).
  - intros k h request log Hp Hh Hb Hs. unfold beast_serve.
    rewrite (proj2 (N.ltb_ge _ _) Hb). by eapply (refuses_type (serve := proxygen_serve what registry handlers)).
  - intros request log. unfold beast_serve. destruct (_ <? _); [by split; [left|intros response [= <-]]|].
    apply dispatch_once.
  - intros request log response log'. unfold beast_serve. destruct (_ <? _); [by intros [= <- <-]|].
    apply (answers_handled (max_body := max_body) (serve := proxygen_serve what registry handlers)).
Qed.

Context (_serializer : message_kind → bytes → outcome message).

Lemma httplib_endpoint max_body k request log :
  path request = endpoint k → N.of_nat (length (request_body request)) <= max_body →
  httplib_serve what registry handlers _serializer max_body request log =
  handle_rpc_endpoint what registry handlers _serializer k request log.
Proof. intros Hp Hb. unfold httplib_serve. rewrite (proj2 (N.ltb_ge _ _) Hb), Hp. by destruct k. Qed.

Lemma error_answer_status k body e response :
  error_answer what _serializer k body e = Ret response → status response = 400 ∨ status response = 500.
Proof.
  unfold error_answer. destruct body; [intros [= <-]; by left|].
  destruct (_serializer _ _); intros [= <-]; [by right|by left].
Qed.

Lemma handle_rpc_endpoint_once k request log :
  let '(r, log') := handle_rpc_endpoint what registry handlers _serializer k request log in
  (log' = log ∨ ∃ m, log' = log ++ [m] ∧
    decode_with registry (request_kind k) (declared_type registry (content_type request)) (request_body request) = Ret m) ∧
  ∀ response, r = Ret response → status response = 415 → log' = log.
Proof.
  assert (∀ body e response, error_answer what _serializer k body e = Ret response → status response = 415 → False) as Herr.
  { intros body e response [H1|H1]%error_answer_status H2; by rewrite H1 in H2. }
  unfold handle_rpc_endpoint, mcatch. destruct (handlers k) as [h|]; [|by split; [left|]].
  destruct (negb (supports registry _)); [by split; [left|]|].
  destruct (select_output_media_type registry _) as [out|]; [|by split; [left|]].
  destruct (decode_with registry _ _ _) as [m|e|u]; cbn -[error_answer]; [|by split; [left|]..].
  destruct (h m) as [a|e|u]; cbn -[error_answer]; [destruct (encode_with registry out a) as [d|e|u]; cbn -[error_answer]| |];
    (split; [right; by exists m|]); intros response Hr H415; [by simplify_eq| |done| |done]; by apply Herr in Hr.
Qed.

Lemma handle_rpc_endpoint_answered k request log response log' :
  handle_rpc_endpoint what registry handlers _serializer k request log = (Ret response, log') → status response = 200 →
  answered k (declared_type registry (content_type request)) (accepted_types (accept request)) (request_body request)
    log response log'.
Proof.
  assert (∀ body e response, error_answer what _serializer k body e = Ret response → status response ≠ 200) as Herr.
  { intros body e r [H1|H1]%error_answer_status; by rewrite H1. }
  unfold handle_rpc_endpoint, mcatch, answered. destruct (handlers k) as [h|]; [|by intros [= <- <-]].
  destruct (supports registry _); [|by intros [= <- <-]]. cbn [negb].
  destruct (select_output_media_type registry _) as [out|]; [|by intros [= <- <-]].
  destruct (decode_with registry _ _ _) as [m|e|u]; cbn -[error_answer]; [|intros [= He <-] Hs; by eapply Herr in He|done].
  destruct (h m) as [a|e|u] eqn:Ha; cbn -[error_answer]; [|intros [= He <-] Hs; by eapply Herr in He|done].
  destruct (encode_with registry out a) as [d|e|u] eqn:Hd; cbn -[error_answer]; [|intros [= He <-] Hs; by eapply Herr in He|done].
  intros [= <- <-] _. by exists h, m, a, out.
Qed.

#[export] Instance httplib_serves max_body :
  HttpServes registry handlers max_body (httplib_serve what registry handlers _serializer max_body).
Proof.
  split.
  - intros k h request m a out data log Hp Hh Hb Hs Ho Hd Ha He. rewrite (httplib_endpoint _ k) by done.
    unfold handle_rpc_endpoint, mcatch. rewrite Hh, Hs, Ho, Hd. cbn [negb]. rewrite let_lift, let_modify, Ha, let_lift, He.
    done.
  - intros k h request log Hp Hh Hb Hs. eexists. rewrite (httplib_endpoint _ k) by done.
    unfold handle_rpc_endpoint, mcatch. by rewrite Hh, Hs.
  - intros request log. unfold httplib_serve. destruct (_ <? _); [by split; [left|intros response [= <-]]|].
    destruct (String.eqb_spec (path request) (endpoint http_request_vote)) as [Hp|];
      [|destruct (String.eqb_spec (path request) (endpoint http_append_entries)) as [Hp|];
        [|destruct (String.eqb_spec (path request) (endpoint http_install_snapshot)) as [Hp|];
          [|by split; [left|intros response [= <-]]]]];
      match goal with |- context [handle_rpc_endpoint what registry handlers _serializer ?k request log] =>
        pose proof (handle_rpc_endpoint_once k request log) as Hh;
        destruct (handle_rpc_endpoint what registry handlers _serializer k request log) as [r log'];
        destruct Hh as [[->|(m & -> & Hd)] H415]; (split; [|done]); [by left|right; by exists k, m] end.
  - intros request log response log' E Hs.
    assert (∃ k, path request = endpoint k ∧ handle_rpc_endpoint what registry handlers _serializer k request log =
      (Ret response, log')) as (k & Hp & Ek).
    { unfold httplib_serve in E. destruct (_ <? _); [by injection E as <- <-|].
      destruct (String.eqb_spec (path request) (endpoint http_request_vote)) as [Hp|]; [by eexists|].
      destruct (String.eqb_spec (path request) (endpoint http_append_entries)) as [Hp|]; [by eexists|].
      destruct (String.eqb_spec (path request) (endpoint http_install_snapshot)) as [Hp|]; [by eexists|].
      by injection E as <- <-. }
    assert (answered k (declared_type registry (content_type request)) (accepted_types (accept request))
      (request_body request) log response log') as Ha by by apply handle_rpc_endpoint_answered.
    unfold answered in Ha. naive_solver.
Qed.
End server_instances.

(** The servers give one answer where the serializer that [cpp_httplib_server] decodes
    with after an exception takes the bodies that the declared type's does. *)
Section same_answers.
Context {R : Type} `{SerializerRegistry R} (what : exn → string).
Context (registry : R) (handlers : http_rpc → option (message → outcome message)).
Context (_serializer : message_kind → bytes → outcome message).

Definition same_answer (a b : outcome http_response * list message) : Prop :=
  a.2 = b.2 ∧
  match a.1, b.1 with
  | Ret r, Ret r' => status r = status r' ∧ response_body r = response_body r'
  | Undef u, Undef u' => u = u'
  | _, _ => False
  end.

Lemma servers_agree max_body k request log :
  path request = endpoint k → N.of_nat (length (request_body request)) <= max_body →
  (∀ u, decode_with registry (request_kind k) (declared_type registry (content_type request)) (request_body request) ≠ Undef u) →
  match decode_with registry (request_kind k) (declared_type registry (content_type request)) (request_body request) with
  | Ret _ => request_body request ≠ [] ∧ ∃ m, _serializer (request_kind k) (request_body request) = Ret m
  | _ => ∃ e, _serializer (request_kind k) (request_body request) = Throw e
  end →
  same_answer (httplib_serve what registry handlers _serializer max_body request log)
    (beast_serve what registry handlers max_body request log).
Proof.
  intros Hp Hb Hu Hsame. rewrite (httplib_endpoint _ _ _ _ _ k) by done.
  unfold beast_serve. rewrite (proj2 (N.ltb_ge _ _) Hb), Hp, dispatch_endpoint.
  unfold handle_rpc_endpoint, handle, mcatch. destruct (handlers k) as [h|]; [|done].
  destruct (negb (supports registry _)); [done|].
  destruct (select_output_media_type registry _) as [out|]; [|done].
  destruct (decode_with registry _ _ _) as [m|e|u]; [| |by edestruct Hu].
  - destruct Hsame as (Hne & m' & Hm'). rewrite let_lift, !let_modify. unfold error_answer. rewrite Hm'.
    destruct (request_body request) eqn:Eb; [done|].
    destruct (h m) as [a|e|u]; cbn; [destruct (encode_with registry out a)| |]; done.
  - destruct Hsame as (e' & He'). unfold error_answer. cbn. destruct (request_body request); [done|]. by rewrite He'.
Qed.
End same_answers.

(** ** What a client does *)

Section reference.
Context {R : Type} `{SerializerRegistry R} (what : exn → string).
Context (registry : R) (target : N) (k : http_rpc).
Context (ask : http_request → M world (http_response + transport_error)).

(** A call without a pool: the type, the exchange, and the next type after a 415.  A
    failure of the transport is a value. *)
Fixpoint reference_call (fuel : nat) (attempted : list string) (request : message) :
    M world (message + transport_error) :=
  match fuel with
  | O => mundef "out of fuel"
  | S fuel =>
      let! w := mget in
      let! mt := mlift (request_type registry target attempted (known_types w)) in
      let! body := mlift (encode_with registry mt request) in
      let! answer := ask (http_post registry k mt body) in
      match answer with
      | inr e => mreturn (inr e)
      | inl response =>
          let rejected := attempted ++ [mt] in
          if (status response =? 415) && bool_decide (is_Some (next_request_media_type_after_rejection registry rejected))
          then reference_call fuel rejected request
          else let! m := read_response what registry target k response in mreturn (inl m)
      end
  end.

(** The result of a call, by how a transport reports its failures. *)
Definition report (fault_exn : transport_error → exn) (r : outcome (message + transport_error)) : outcome message :=
  match r with
  | Ret (inl m) => Ret m
  | Ret (inr e) => Throw (fault_exn e)
  | Throw e => Throw e
  | Undef u => Undef u
  end.

(** A client that can reach the node does as the reference, whatever its pool. *)
Class HttpCalls {P : Type} (ready : P → Prop) (fault_exn : transport_error → exn)
    (call : nat → message → M (world * P) message) : Prop :=
  calls_as_reference fuel request w pool :
    ready pool →
    ∃ pool', ready pool' ∧
      call fuel request (w, pool) =
        (report fault_exn (reference_call fuel [] request w).1, ((reference_call fuel [] request w).2, pool')).
End reference.

(** *** Beast *)

Section client_instances.
Context {R : Type} `{RegistryLaws R} (what : exn → string).
Context (registry : R) (target : N) (k : http_rpc).
Context (ask : http_request → M world (http_response + transport_error)).
Context (ask_total : ∀ request w e w', ask request w ≠ (Throw e, w')).
Local Abbreviation reference := (reference_call what registry target k ask).
Local Abbreviation read := (read_response what registry target k).

(** The status decides, and a status above 299 leaves everything as it is. *)
Lemma read_415 response w :
  status response = 415 → read response w = (Throw (http_client_error 415 (response_body response)), w).
Proof. intros Hs. unfold read_response. by rewrite Hs. Qed.

Lemma read_not_415 response w body :
  status response ≠ 415 → (read response w).1 ≠ Throw (http_client_error 415 body).
Proof.
  intros Hs. unfold read_response. destruct (_ =? 200); [|by repeat (case_match; cbn; try congruence)].
  destruct (negb _); [done|]. destruct (decode_with _ _ _ _) as [m|e|u]; [done| |done]. by destruct e.
Qed.

Lemma after_rejection_other {S} (again : list string → M S message) attempted mt e s :
  (∀ body, e ≠ http_client_error 415 body) → after_rejection registry again attempted mt e s = (Throw e, s).
Proof.
  intros Hne. unfold after_rejection. destruct e; try done.
  repeat (match goal with |- (match ?x with _ => _ end) _ = _ => is_var x; destruct x end; try done). by edestruct Hne.
Qed.

Lemma after_rejection_415 {S} (again : list string → M S message) attempted mt body s :
  after_rejection registry again attempted mt (http_client_error 415 body) s =
  if bool_decide (is_Some (next_request_media_type_after_rejection registry (attempted ++ [mt])))
  then again (attempted ++ [mt]) s else (Throw (http_client_error 415 body), s).
Proof.
  cbn. destruct (next_request_media_type_after_rejection registry (attempted ++ [mt])); [|done].
  rewrite bool_decide_eq_true_2; [done|by eexists].
Qed.

(** The common end of an attempt in Beast and Proxygen: [on_error] is what is done to
    the pool after a failure. *)
Section attempt.
Context {P : Type} (ready : P → Prop) (fault_exn : transport_error → exn) (on_error : P → P).
Context (fault_other : ∀ e body, fault_exn e ≠ http_client_error 415 body).
Context (on_error_ready : ∀ pool, ready pool → ready (on_error pool)).

Definition attempt (mt : string) (body : bytes) : M (world * P) message :=
  mcatch
    (let! answer := on_fst (ask (http_post registry k mt body)) in
     match answer with
     | inr e => mthrow (fault_exn e)
     | inl response => on_fst (read response)
     end)
    (λ e s, (Throw e, (s.1, on_error s.2))).

(** An attempt, and what follows it, is one step of the reference. *)
Lemma attempt_step again rest attempted mt body w pool :
  (∀ w pool, ready pool → ∃ pool', ready pool' ∧
    again (attempted ++ [mt]) (w, pool) = (report fault_exn (rest (attempted ++ [mt]) w).1, ((rest (attempted ++ [mt]) w).2, pool'))) →
  ready pool →
  let step :=
    let! answer := ask (http_post registry k mt body) in
    match answer with
    | inr e => mreturn (inr e)
    | inl response =>
        let rejected := attempted ++ [mt] in
        if (status response =? 415) && bool_decide (is_Some (next_request_media_type_after_rejection registry rejected))
        then rest rejected
        else let! m := read response in mreturn (inl m)
    end in
  ∃ pool', ready pool' ∧
    mcatch (attempt mt body) (after_rejection registry again attempted mt) (w, pool) =
      (report fault_exn (step w).1, ((step w).2, pool')).
Proof.
  intros Hagain Hready step. subst step. unfold attempt, mcatch, mlet, on_fst. cbn [fst snd].
  destruct (ask (http_post registry k mt body) w) as [[[response|e]|e|u] w'] eqn:Ea; cbn [fst snd].
  - destruct (N.eqb_spec (status response) 415) as [Hs|Hs].
    + rewrite read_415 by done. cbn [fst snd]. rewrite after_rejection_415.
      case_bool_decide as Hnext; cbn [andb]; [by apply Hagain, on_error_ready|].
      rewrite read_415 by done. exists (on_error pool). by split; [apply on_error_ready|].
    + cbn [andb]. pose proof (λ b, read_not_415 response w' b Hs) as Hne.
      destruct (read response w') as [[m|e|u] w''] eqn:Er; cbn in Hne |- *.
      * by exists pool.
      * exists (on_error pool). split; [by apply on_error_ready|]. rewrite after_rejection_other; [done|].
        intros b ->. by apply (Hne b).
      * by exists pool.
  - exists (on_error pool). split; [by apply on_error_ready|]. cbn. by rewrite after_rejection_other.
  - by apply ask_total in Ea.
  - by exists pool.
Qed.
End attempt.

(** The type of a request is one that we can encode. *)
Lemma request_type_in attempted known mt :
  request_type registry target attempted known = Ret mt → mt ∈ preferred_media_types registry ∧ mt ∉ attempted.
Proof.
  clear ask_total ask. unfold request_type. destruct attempted as [|t attempted]; [intros [= <-]; split; [apply request_type_supported|set_solver]|].
  pose proof (next_type_spec registry (t :: attempted)) as Hs. destruct (next_request_media_type_after_rejection _ _); naive_solver.
Qed.

Lemma catch_let {S A B} (m : M S A) (f : A → M S B) h s a s' :
  m s = (Ret a, s') → mcatch (mlet m f) h s = mcatch (f a) h s'.
Proof. unfold mcatch, mlet. by intros ->. Qed.

Lemma let_assoc {S A B C} (m : M S A) (f : A → M S B) (g : B → M S C) s :
  mlet (mlet m f) g s = mlet m (λ a, mlet (f a) g) s.
Proof. unfold mlet. by destruct (m s) as [[a|e|u] s']. Qed.

Lemma catch_same {S A} (m : M S A) (h : exn → M S A) (h0 : exn → M S A) s :
  (∀ e s, h0 e s = (Throw e, s)) → mcatch (mcatch m h0) h s = mcatch m h s.
Proof. intros Hid. unfold mcatch. destruct (m s) as [[a|e|u] s']; [done| |done]. by rewrite Hid. Qed.

Section beast_client.
Context (cfg : BeastPool.config) (resolve : list ascii → list ascii → outcome (list N)) (has_ssl_context : bool).
Context (_node_id_to_url : gmap N (list ascii)) (clock : nat → Z).
(** The node has a URL that can be read, its host an address, and TLS material is there
    if it is needed. *)
Context (url : list ascii) (a : authority) (address : N) (addresses : list N).
Context (url_known : _node_id_to_url !! target = Some url) (url_read : parse_url url = Ret a)
  (host_resolved : resolve (host a) (port a) = Ret (address :: addresses))
  (tls_there : is_https a && negb has_ssl_context = false).

Lemma beast_connection_had now pool :
  ∃ conn pool', BeastPool.get_or_create_connection cfg resolve has_ssl_context _node_id_to_url target now pool =
    (Ret conn, pool').
Proof.
  unfold BeastPool.get_or_create_connection. rewrite let_get, url_known, url_read.
  assert (∀ (f : authority → M BeastPool.t BeastPool.pooled_connection) s, mlet (mlift (Ret a)) f s = f a s) as Hl by done.
  destruct (BeastPool._connections pool !! target); [case_bool_decide|];
    rewrite ?let_modify, ?Hl, ?host_resolved, ?let_lift, ?tls_there, ?let_modify, ?let_get, ?let_modify; by eexists _, _.
Qed.

#[export] Instance beast_calls :
  HttpCalls what registry target k ask (λ _ : BeastPool.t, True) beast_fault
    (λ fuel, beast_send_rpc what registry target k ask cfg resolve has_ssl_context _node_id_to_url clock fuel []).
Proof.
  intros fuel request. generalize (@nil string) as attempted.
  induction fuel as [|fuel IH]; intros attempted w pool _; [by exists pool|].
  cbn [beast_send_rpc reference_call]. rewrite !let_get.
  destruct (beast_connection_had (clock (exchanges w)) pool) as (conn & pool' & E).
  erewrite let_eval by (unfold on_snd; cbn [snd fst]; by rewrite E). cbn [fst].
  destruct (request_type registry target attempted (known_types w)) as [mt|e|u] eqn:Et; [|by exists pool'..].
  rewrite !let_lift. destruct (law_encode registry mt request) as [body Hb]; [by eapply request_type_in|].
  rewrite Hb, !let_lift.
  apply (attempt_step (λ _, True) beast_fault (BeastPool.retire target) ltac:(by intros []) ltac:(done)
    (λ attempted, beast_send_rpc what registry target k ask cfg resolve has_ssl_context _node_id_to_url clock fuel
      attempted request) (λ attempted, reference fuel attempted request) attempted mt body w pool' (IH _)). done.
Qed.
End beast_client.

Section proxygen_client.
Context (connection_pool_size : N) (get_event_base : N → N) (set_from_host_port : list ascii → list ascii → outcome ()).
Context (_node_id_to_url : gmap N (list ascii)) (clock : nat → Z) (folly : bool).
Context (url : list ascii) (a : authority).
Context (url_known : _node_id_to_url !! target = Some url) (url_read : parse_url url = Ret a)
  (host_resolved : set_from_host_port (host a) (port a) = Ret tt).

Lemma proxygen_slot_had now pool :
  ∃ slot pool', ProxygenPool.get_or_create_slot connection_pool_size get_event_base target now pool = (Ret slot, pool').
Proof.
  unfold ProxygenPool.get_or_create_slot. rewrite let_get.
  destruct (ProxygenPool._connections pool !! target); rewrite ?let_modify, ?let_get, ?let_modify; by eexists _, _.
Qed.

#[export] Instance proxygen_calls :
  HttpCalls what registry target k ask (λ _ : ProxygenPool.t, True) proxygen_fault
    (λ fuel, proxygen_send_rpc what registry target k ask connection_pool_size get_event_base set_from_host_port
      _node_id_to_url clock folly fuel []).
Proof.
  intros fuel request. generalize (@nil string) as attempted.
  induction fuel as [|fuel IH]; intros attempted w pool _; [by exists pool|].
  cbn [proxygen_send_rpc reference_call]. rewrite !let_get. cbn [fst].
  destruct (request_type registry target attempted (known_types w)) as [mt|e|u] eqn:Et; [|by exists pool..].
  rewrite !let_lift. destruct (law_encode registry mt request) as [body Hb]; [by eapply request_type_in|].
  rewrite Hb, let_lift.
  replace (if folly then _ else _) with (send_rpc_generic_bridge what registry target k ask connection_pool_size
    get_event_base set_from_host_port _node_id_to_url clock mt request) by (by destruct folly).
  unfold send_rpc_generic_bridge. erewrite catch_let by done. cbn [fst].
  destruct (proxygen_slot_had (clock (exchanges w)) pool) as (slot & pool' & E).
  erewrite catch_let by (unfold on_snd; cbn [snd fst]; by rewrite E).
  erewrite catch_let by (unfold ProxygenPool.resolve_target, mlift; by rewrite url_known, url_read; cbn; rewrite host_resolved).
  rewrite Hb. erewrite catch_let by done.
  rewrite <- (catch_same _ _ (λ e s, (Throw e, (s.1, id s.2)))) by (by intros ? []).
  apply (attempt_step (λ _, True) proxygen_fault id ltac:(by intros []) ltac:(done)
    (λ attempted, proxygen_send_rpc what registry target k ask connection_pool_size get_event_base set_from_host_port
      _node_id_to_url clock folly fuel attempted request)
    (λ attempted, reference fuel attempted request) attempted mt body w pool' (IH _)). done.
Qed.
End proxygen_client.

Section httplib_client.
Context (make_client : string → outcome ()) (configure_ssl_client : outcome ()).
Context (_node_id_to_url : gmap N string) (timeout : Z).
Context (base_url : string) (url_known : _node_id_to_url !! target = Some base_url)
  (client_made : make_client base_url = Ret tt)
  (tls_configured : String.prefix "https://" base_url = true → configure_ssl_client = Ret tt).
(** A serializer does not report that it is unknown. *)
Context (decoders_known : ∀ kind mt data t, supports registry mt = true →
  decode_with registry kind mt data ≠ Throw (unsupported_media_type_error t)).

Lemma httplib_client_had pool :
  ∃ client pool', CppHttplibPool.get_or_create_client what make_client configure_ssl_client _node_id_to_url target pool =
    (Ret client, pool').
Proof.
  unfold CppHttplibPool.get_or_create_client. rewrite let_get.
  destruct (CppHttplibPool._http_clients pool !! target); [by eexists _, _|].
  rewrite url_known, client_made. cbn [outcome_bind].
  destruct (String.prefix "https://" base_url); [rewrite tls_configured by done|]; by eexists _, _.
Qed.

(** What the future holds; undefined behaviour is none of it. *)
Definition settled (r : outcome message) : outcome (outcome message) :=
  match r with Undef u => Undef u | _ => Ret r end.

Lemma read_result_as_read response w :
  read_result what registry target k timeout (inl response) w = (settled (read response w).1, (read response w).2).
Proof.
  unfold read_result, read_response.
  destruct (_ =? 200); [|by repeat (case_match; try done)].
  destruct (supports registry _) eqn:Hs; [|done]. cbn [negb].
  destruct (decode_with registry _ _ _) as [m|e|u] eqn:Hd; [done| |done].
  destruct e; try done. by eapply decoders_known in Hd.
Qed.

Lemma post_loop_as_reference fuel attempted mt request w :
  request_type registry target attempted (known_types w) = Ret mt →
  (let! answer := post_loop registry k ask fuel attempted mt request in read_result what registry target k timeout answer) w =
  (settled (report (httplib_fault timeout) (reference fuel attempted request w).1), (reference fuel attempted request w).2).
Proof.
  revert attempted mt w. induction fuel as [|fuel IH]; intros attempted mt w Ht; [done|].
  cbn [post_loop reference_call]. rewrite let_get, Ht, let_lift.
  destruct (law_encode registry mt request) as [body Hb]; [by eapply request_type_in|].
  rewrite let_assoc, Hb, !let_lift, let_assoc.
  destruct (ask (http_post registry k mt body) w) as [[answer|e|u] w'] eqn:Ea;
    [|by apply ask_total in Ea|by unfold mlet; rewrite Ea].
  rewrite !(let_eval _ _ _ _ _ Ea). destruct answer as [response|e]; [|done].
  assert ((let! answer := mreturn (inl response) in read_result what registry target k timeout answer) w' =
    (settled (report (httplib_fault timeout) ((let! m := read response in mreturn (inl m)) w').1),
     ((let! m := read response in mreturn (@inl message transport_error m)) w').2)) as Hread.
  { unfold mlet at 1. cbn [mreturn]. rewrite read_result_as_read. unfold mlet.
    by destruct (read response w') as [[m|e|u] w'']. }
  destruct (status response =? 415); cbn [andb]; [|done].
  destruct (next_request_media_type_after_rejection registry (attempted ++ [mt])) as [next|] eqn:En.
  - rewrite bool_decide_eq_true_2 by (by eexists). apply IH. unfold request_type. rewrite En. by destruct attempted.
  - rewrite bool_decide_eq_false_2 by (by intros [? ?]). done.
Qed.

#[export] Instance httplib_calls :
  HttpCalls what registry target k ask (λ _ : CppHttplibPool.t, True) (httplib_fault timeout)
    (httplib_send_rpc what registry target k ask make_client configure_ssl_client _node_id_to_url timeout).
Proof.
  intros fuel request w pool _. destruct (httplib_client_had pool) as (client & pool' & E). exists pool'. split; [done|].
  unfold httplib_send_rpc, mlet at 1.
  erewrite catch_let by (unfold on_snd; cbn [snd fst]; by rewrite E). erewrite catch_let by done. cbn [fst].
  pose proof (post_loop_as_reference fuel [] _ request w eq_refl :
    mlet (post_loop registry k ask fuel [] _ request) (read_result what registry target k timeout) w = _) as Hpost.
  assert (∀ (m : M world (http_response + transport_error)) (f : http_response + transport_error → M world (outcome message)),
    (let! answer := on_fst m in on_fst (f answer)) (w, pool') = on_fst (mlet m f) (w, pool')) as Hfst.
  { intros m f. unfold mlet, on_fst. cbn [fst snd]. by destruct (m w) as [[x|e|u] w']. }
  unfold mcatch. rewrite Hfst. unfold on_fst. cbn [fst snd]. rewrite Hpost.
  by destruct (reference fuel [] request w) as [[[m|e]|e|u] w'].
Qed.
End httplib_client.
End client_instances.

(** ** Any client with any server *)

Lemma exchange_total server faults request w e w' : exchange server faults request w ≠ (Throw e, w').
Proof.
  unfold exchange. destruct (faults (exchanges w)) as [[e0|e0]|]; [done| |];
    destruct (server request (handled w)) as [[r|e1|u] log]; done.
Qed.

(** A message's declared type survives the header. *)
Lemma declared_plain {R} `{SerializerRegistry R} (r : R) mt :
  plain_media_type (chars mt) → declared_type r (Some mt) = mt.
Proof.
  intros Hp. unfold declared_type, strip_media_type_parameters.
  pose proof Hp as (Hne & _ & Hs & _). rewrite before_semicolon_plain by done. rewrite trim_plain by done.
  destruct (chars mt) eqn:E; [done|]. rewrite <- E. apply String.string_of_list_ascii_of_string.
Qed.

Lemma accept_all_read {R} `{SerializerRegistry R} (r : R) :
  Forall (λ mt, plain_media_type (chars mt)) (preferred_media_types r) → preferred_media_types r ≠ [] →
  accepted_types (accept_all r) = preferred_media_types r.
Proof.
  intros Hp Hne. unfold accept_all.
  assert (Forall plain_media_type (chars <$> preferred_media_types r)) as Hp' by by apply Forall_fmap.
  pose proof (accept_header_roundtrip _ Hp') as Hround.
  destruct (format_accept_header _) as [|c header] eqn:E.
  { cbn in Hround. destruct (preferred_media_types r); done. }
  cbn [accepted_types]. unfold chars at 1, of_chars at 2. rewrite String.list_ascii_of_string_of_list_ascii, Hround.
  rewrite <- list_fmap_compose. rewrite <- (list_fmap_id (preferred_media_types r)) at 2. apply list_fmap_ext.
  intros i mt _. apply String.string_of_list_ascii_of_string.
Qed.

Section network.
Context {RC RS : Type} `{RegistryLaws RC} `{RegistryLaws RS} (what : exn → string).
Context (client : RC) (registry : RS) (target : N) (k : http_rpc).
Context (handlers : http_rpc → option (message → outcome message)) (max_body : N).
Context (serve : http_request → M (list message) http_response) `{!HttpServes registry handlers max_body serve}.
Context (request : message).

(** The client's types can be written in a header and are none of the wildcards; what
    one side encodes in a type that both have, the other decodes. *)
Context (plain_types : Forall (λ mt, plain_media_type (chars mt)) (preferred_media_types client))
  (exact_types : ∀ mt t, mt ∈ preferred_media_types client → accept_entry_matches mt t = String.eqb mt t)
  (request_understood : ∀ mt data, mt ∈ preferred_media_types client → mt ∈ preferred_media_types registry →
    encode_with client mt request = Ret data → decode_with registry (request_kind k) mt data = Ret request)
  (answer_understood : ∀ mt handler answer data, mt ∈ preferred_media_types client → mt ∈ preferred_media_types registry →
    handlers k = Some handler → handler request = Ret answer →
    encode_with registry mt answer = Ret data → decode_with client (response_kind k) mt data = Ret answer).

Local Abbreviation reference faults := (reference_call what client target k (exchange serve faults)).
Definition shared_type (mt : string) : Prop := mt ∈ preferred_media_types client ∧ mt ∈ preferred_media_types registry.

Lemma client_types_nonempty : preferred_media_types client ≠ [].
Proof. pose proof (law_default client). by destruct (preferred_media_types client). Qed.

Lemma client_type_plain mt : mt ∈ preferred_media_types client → plain_media_type (chars mt).
Proof. rewrite Forall_forall in plain_types. apply plain_types. Qed.

(** The type of an answer is one that both have. *)
Lemma answer_type_shared output :
  select_output_media_type registry (preferred_media_types client) = Some output → shared_type output.
Proof.
  intros (before & pattern & after & ours & rest & Ha & Hp & Hm & _)%law_select; [|apply client_types_nonempty].
  assert (pattern ∈ preferred_media_types client) as Hpat by (rewrite Ha; set_solver).
  rewrite exact_types in Hm by done. apply String.eqb_eq in Hm as ->. split; [done|]. rewrite Hp. set_solver.
Qed.

Lemma endpoint_inj k1 k2 : endpoint k1 = endpoint k2 → k1 = k2.
Proof. by destruct k1, k2. Qed.

(** One exchange: the peer handles the request or not, and a 200 is its answer. *)
Lemma exchange_once faults mt body w :
  mt ∈ preferred_media_types client → encode_with client mt request = Ret body →
  let '(r, w') := exchange serve faults (http_post client k mt body) w in
  known_types w' = known_types w ∧
  (handled w' = handled w ∨ handled w' = handled w ++ [request]) ∧
  (∀ response, r = Ret (inl response) → status response = 415 → handled w' = handled w) ∧
  (∀ response, r = Ret (inl response) → status response = 200 →
    handled w' = handled w ++ [request] ∧ ∃ handler answer output,
      handlers k = Some handler ∧ handler request = Ret answer ∧ shared_type output ∧
      response_type response = Some output ∧ encode_with registry output answer = Ret (response_body response)).
Proof.
  intros Hin Hb. set (post := http_post client k mt body).
  assert (declared_type registry (content_type post) = mt) as Hdecl by by apply declared_plain, client_type_plain.
  assert (accepted_types (accept post) = preferred_media_types client) as Hacc
    by (apply accept_all_read; [done|apply client_types_nonempty]).
  assert (∀ k' m, path post = endpoint k' → decode_with registry (request_kind k') mt (request_body post) = Ret m →
    m = request) as Hreq.
  { intros k' m <-%endpoint_inj Hd. change (request_body post) with body in Hd. destruct (decide (mt ∈ preferred_media_types registry)) as [Hs|Hs].
    - rewrite (request_understood mt body) in Hd by done. congruence.
    - destruct (law_unsupported registry mt request (request_kind k) body Hs) as [_ Hu]. by rewrite Hu in Hd. }
  pose proof (handles_once (serve := serve) post (handled w)) as Honce.
  pose proof (answers_handled (serve := serve) post (handled w)) as Hok.
  unfold exchange. rewrite Hdecl in Honce, Hok. rewrite Hacc in Hok.
  assert (∀ r log, serve post (handled w) = (r, log) →
    (log = handled w ∨ log = handled w ++ [request]) ∧
    (∀ response, r = Ret response → status response = 415 → log = handled w) ∧
    (∀ response, r = Ret response → status response = 200 → log = handled w ++ [request] ∧ ∃ handler answer output,
      handlers k = Some handler ∧ handler request = Ret answer ∧ shared_type output ∧
      response_type response = Some output ∧ encode_with registry output answer = Ret (response_body response)))
    as Hserve.
  { intros r log Es. rewrite Es in Honce. destruct Honce as [Hl H415]. split_and!; [|done|].
    - destruct Hl as [->|(k' & m & Hp & -> & Hd)]; [by left|right]. by rewrite (Hreq k' m Hp Hd).
    - intros response -> Hs.
      destruct (Hok response log Es Hs) as (k' & h & m & a & out & Hp & Hh & -> & _ & Ho & Hd & Ha & Ht & He).
      rewrite (Hreq k' m Hp Hd) in *. apply endpoint_inj in Hp as <-. split; [done|]. exists h, a, out.
      split_and!; try done; by apply answer_type_shared. }
  destruct (faults (exchanges w)) as [[e|e]|]; [split_and!; [done|by left|done..]| |];
    destruct (serve post (handled w)) as [[r|e'|u] log]; destruct (Hserve _ _ eq_refl) as (Hl & H415 & H200);
    cbn; split_and!; try done; intros response [= <-]; [by apply H415|by apply H200].
Qed.

(** Reading a 200 that the peer sent. *)
Lemma read_answer response w handler answer output :
  handlers k = Some handler → handler request = Ret answer →
  status response = 200 → shared_type output → response_type response = Some output →
  encode_with registry output answer = Ret (response_body response) →
  read_response what client target k response w =
    (Ret answer, mk_world (handled w) (<[target := output]> (known_types w)) (exchanges w)).
Proof.
  intros Hh Ha Hs [Hc Hr] Ht He. unfold read_response. rewrite Hs, Ht.
  rewrite declared_plain by by apply client_type_plain. rewrite (proj2 (law_supports client output) Hc). cbn [negb].
  by rewrite (answer_understood _ _ _ _ Hc Hr Hh Ha He).
Qed.

Lemma read_keeps_handled response w : handled (read_response what client target k response w).2 = handled w.
Proof.
  unfold read_response. destruct (_ =? 200); [|by repeat case_match]. destruct (negb _); [done|].
  destruct (decode_with _ _ _ _) as [m|e|u]; [done| |done]. by destruct e.
Qed.

Lemma reference_at_most_once faults fuel attempted w :
  let '(r, w') := reference faults fuel attempted request w in
  (handled w' = handled w ∨ handled w' = handled w ++ [request]) ∧
  (∀ answer, r = Ret (inl answer) → handled w' = handled w ++ [request] ∧
    ∃ handler, handlers k = Some handler ∧ handler request = Ret answer).
Proof.
  revert attempted w. induction fuel as [|fuel IH]; intros attempted w; [by split; [left|]|].
  cbn [reference_call]. rewrite let_get.
  destruct (request_type client target attempted (known_types w)) as [mt|e|u] eqn:Et; [|by split; [left|]..].
  destruct (request_type_in client target attempted _ mt Et) as [Hin _]. rewrite let_lift.
  destruct (law_encode client mt request Hin) as [body Hb]. rewrite Hb, let_lift.
  pose proof (exchange_once faults mt body w Hin Hb) as Hx. unfold mlet at 1.
  destruct (exchange serve faults (http_post client k mt body) w) as [[[response|e]|e|u] w1];
    destruct Hx as (_ & Hl & H415 & H200); [|by split|by split|by split].
  specialize (H415 response eq_refl). specialize (H200 response eq_refl).
  destruct (N.eqb_spec (status response) 415) as [Hs|Hs]; cbn [andb].
  - case_bool_decide.
    + specialize (IH (attempted ++ [mt]) w1). by rewrite H415 in IH.
    + unfold mlet. rewrite read_415 by done. rewrite H415 by done. by split; [left|].
  - destruct (N.eqb_spec (status response) 200) as [Hk|Hk].
    + destruct (H200 Hk) as (Hh & h & a & out & Hhd & Ha & Ho & Ht & He).
      rewrite (let_eval _ _ _ _ _ (read_answer response w1 h a out Hhd Ha Hk Ho Ht He)). cbn. split; [by right|].
      intros answer [= <-]. split; [done|]. by exists h.
    + pose proof (read_keeps_handled response w1) as Hkeep. unfold mlet.
      assert (∀ m, (read_response what client target k response w1).1 ≠ Ret m) as Hno.
      { intros m. unfold read_response. rewrite (proj2 (N.eqb_neq _ _) Hk). by repeat case_match. }
      destruct (read_response what client target k response w1) as [[m|e|u] w2]; [by edestruct Hno|..];
        cbn in Hkeep; rewrite Hkeep; by split.
Qed.

(** C25. Over a network that loses requests and answers as it likes, a call of any of the
    clients to any of the servers runs the peer's handler at most once, and on the
    request as it was made; when the call returns an answer, the handler was run and
    that is what it returned. *)
Theorem http_calls_at_most_once {P} ready fault_exn (call : nat → message → M (world * P) message) faults fuel w pool :
  HttpCalls what client target k (exchange serve faults) ready fault_exn call → ready pool →
  let '(r, (w', _)) := call fuel request (w, pool) in
  (handled w' = handled w ∨ handled w' = handled w ++ [request]) ∧
  (∀ answer, r = Ret answer → handled w' = handled w ++ [request] ∧
    ∃ handler, handlers k = Some handler ∧ handler request = Ret answer).
Proof.
  intros Hcall Hready. destruct (Hcall fuel request w pool Hready) as (pool' & _ & ->).
  pose proof (reference_at_most_once faults fuel [] w) as Href.
  destruct (reference faults fuel [] request w) as [r w']. destruct Href as [Hh Ha]. split; [done|].
  intros answer Hr. apply Ha. by destruct r as [[m|e]|e|u]; cbn in Hr; simplify_eq.
Qed.

(** *** Without faults *)

Context (handler : message → outcome message) (answer : message) (handler_there : handlers k = Some handler)
  (handled_well : handler request = Ret answer)
  (request_fits : ∀ mt data, encode_with client mt request = Ret data → N.of_nat (length data) <= max_body).

Lemma select_shared mt :
  shared_type mt → ∃ output, select_output_media_type registry (preferred_media_types client) = Some output.
Proof.
  intros [Hc Hr]. destruct (list_elem_of_split_l _ _ Hc) as (before & after & Hsplit & Hnot).
  (* the first of the client's types that the server has *)
  assert (∃ before t after, preferred_media_types client = before ++ t :: after ∧ t ∈ preferred_media_types registry ∧
    ∀ p, p ∈ before → p ∉ preferred_media_types registry) as (bf & t & af & Hs & Ht & Hb).
  { assert (mt ∈ preferred_media_types client ∧ mt ∈ preferred_media_types registry) as Hex by done.
    clear -Hex. destruct Hex as [Hc Hr]. induction (preferred_media_types client) as [|x l IH]; [set_solver|].
    destruct (decide (x ∈ preferred_media_types registry)) as [Hx|Hx]; [exists [], x, l; set_solver|].
    destruct IH as (bf & t & af & -> & Ht & Hb); [set_solver|]. exists (x :: bf), t, af. set_solver. }
  destruct (list_elem_of_split_l _ _ Ht) as (ours & rest & Ho & Hno).
  exists t. apply law_select; [apply client_types_nonempty|]. exists bf, t, af, ours, rest. split_and!; [done|done| | |].
  - rewrite exact_types by (rewrite Hs; set_solver). apply String.eqb_refl.
  - intros p t' Hp Ht'. rewrite exact_types by (rewrite Hs; set_solver). apply String.eqb_neq. intros ->. by apply (Hb t').
  - intros t' Ht'. rewrite exact_types by (rewrite Hs; set_solver). apply String.eqb_neq. intros ->. done.
Qed.

(** A request in a type of the server's is answered, one in another refused. *)
Lemma exchange_answers mt body w :
  mt ∈ preferred_media_types client → encode_with client mt request = Ret body →
  let next log := mk_world log (known_types w) (S (exchanges w)) in
  if decide (mt ∈ preferred_media_types registry) then
    ∃ output data, shared_type output ∧ encode_with registry output answer = Ret data ∧
      exchange serve (λ _, None) (http_post client k mt body) w =
        (Ret (inl (mk_http_response 200 (Some output) data)), next (handled w ++ [request]))
  else ∃ response, status response = 415 ∧
      exchange serve (λ _, None) (http_post client k mt body) w = (Ret (inl response), next (handled w)).
Proof.
  intros Hin Hb next. set (post := http_post client k mt body).
  assert (declared_type registry (content_type post) = mt) as Hdecl by by apply declared_plain, client_type_plain.
  assert (accepted_types (accept post) = preferred_media_types client) as Hacc
    by (apply accept_all_read; [done|apply client_types_nonempty]).
  unfold exchange. case_decide as Hr.
  - destruct (select_shared mt ltac:(done)) as [output Ho]. pose proof (answer_type_shared _ Ho) as Hout.
    destruct (law_encode registry output answer) as [data Hd]; [apply Hout|]. exists output, data. split_and!; [done..|].
    rewrite (serves_request (serve := serve) k handler post request answer output data); [done|done|done| | | | |done|done].
    + by eapply request_fits.
    + rewrite Hdecl. by apply law_supports.
    + by rewrite Hacc.
    + rewrite Hdecl. by apply request_understood.
  - destruct (refuses_type (serve := serve) k handler post (handled w)) as (response & Es & Hs); [done|done| | |].
    + by eapply request_fits.
    + rewrite Hdecl. apply not_true_iff_false. by rewrite law_supports.
    + exists response. split; [done|]. by rewrite Es.
Qed.

Lemma reference_from attempted fuel w :
  NoDup attempted → (∀ mt, mt ∈ attempted → mt ∈ preferred_media_types client ∧ mt ∉ preferred_media_types registry) →
  attempted = [] ∨ is_Some (next_request_media_type_after_rejection client attempted) →
  (length (preferred_media_types client) < fuel + length attempted)%nat →
  let '(r, w') := reference (λ _, None) fuel attempted request w in
  (exchanges w' + length attempted ≤ exchanges w + length (preferred_media_types client))%nat ∧
  ((∃ mt, shared_type mt) → r = Ret (inl answer) ∧ handled w' = handled w ++ [request] ∧
    ∃ mt, shared_type mt ∧ known_types w' = <[target := mt]> (known_types w)) ∧
  ((∀ mt, ¬ shared_type mt) → (∃ body, r = Throw (http_client_error 415 body)) ∧ handled w' = handled w ∧
    known_types w' = known_types w).
Proof.
  revert attempted w. induction fuel as [|fuel IH]; intros attempted w Hnd Htried Hnext Hfuel.
  { assert (length attempted ≤ length (preferred_media_types client))%nat; [|lia].
    apply submseteq_length, NoDup_submseteq; [done|]. intros mt Hmt. by apply Htried. }
  cbn [reference_call]. rewrite let_get.
  assert (∃ mt, request_type client target attempted (known_types w) = Ret mt) as [mt Et].
  { unfold request_type. destruct attempted as [|t attempted]; [by eexists|].
    destruct Hnext as [|[mt Hmt]]; [done|]. rewrite Hmt. by eexists. }
  destruct (request_type_in client target attempted _ mt Et) as [Hin Hnew]. rewrite Et, let_lift.
  assert (NoDup (attempted ++ [mt])) as Hnd'.
  { apply NoDup_app. split_and!; [done|set_solver|apply NoDup_singleton]. }
  assert (length (attempted ++ [mt]) ≤ length (preferred_media_types client))%nat as Hlen.
  { apply submseteq_length, NoDup_submseteq; [done|]. intros t [Ht|Ht]%elem_of_app; [by apply Htried|].
    by apply list_elem_of_singleton in Ht as ->. }
  rewrite length_app in Hlen. cbn [length] in Hlen.
  destruct (law_encode client mt request Hin) as [body Hb]. rewrite Hb, let_lift.
  pose proof (exchange_answers mt body w Hin Hb) as Hx. cbv zeta in Hx. case_decide as Hr.
  - destruct Hx as (output & data & Ho & Hd & Ex). rewrite (let_eval _ _ _ _ _ Ex). cbn [status N.eqb andb Pos.eqb].
    rewrite (let_eval _ _ _ _ _ (read_answer (mk_http_response 200 (Some output) data) _ handler answer output
      handler_there handled_well eq_refl Ho eq_refl Hd)).
    cbn. split; [lia|]. split; [intros _; split_and!; [done..|by exists output]|]. intros Hno. by destruct (Hno mt).
  - destruct Hx as (response & Hs & Ex). rewrite (let_eval _ _ _ _ _ Ex), Hs. cbn [N.eqb andb Pos.eqb].
    pose proof (next_type_spec client (attempted ++ [mt])) as Hspec.
    destruct (next_request_media_type_after_rejection client (attempted ++ [mt])) as [t|] eqn:En.
    + rewrite bool_decide_eq_true_2 by (by eexists).
      specialize (IH (attempted ++ [mt]) (mk_world (handled w) (known_types w) (S (exchanges w))) Hnd').
      destruct (reference _ _ _ _ _) as [r w']. rewrite length_app in IH. cbn [length exchanges] in IH.
      destruct IH as [He IH]; [set_solver|right; by eexists|lia|]. split; [lia|done].
    + rewrite bool_decide_eq_false_2 by (by intros [? ?]). unfold mlet. rewrite read_415 by done. cbn.
      split; [lia|]. split; [|intros _; split_and!; [by eexists|done..]]. intros [t [Hc Hsv]]. specialize (Hspec t Hc).
      apply elem_of_app in Hspec as [Ht| ->%list_elem_of_singleton]; [by apply Htried in Ht as [_ ?]|done].
Qed.

(** C26. Any client and any server that have a media type in common understand each other,
    whatever the client remembers.  Let the client reach the node and the exchanges not
    fail, its media types be plain and none of the wildcards, what one side encodes of
    this request and answer in a common type be decoded by the other to the same, the
    request in every type fit the server's limit on bodies, and the server have a
    handler that answers this request.  Then with a common type the call returns the
    handler's answer, the handler is run once, and the client remembers a type that both
    have; without one the call ends with the server's 415 and nothing is handled; and at
    most as many exchanges are made as the client has types. *)
Theorem http_calls_negotiate {P} ready fault_exn (call : nat → message → M (world * P) message) w pool :
  HttpCalls what client target k (exchange serve (λ _, None)) ready fault_exn call → ready pool →
  let '(r, (w', _)) := call (S (length (preferred_media_types client))) request (w, pool) in
  (exchanges w' ≤ exchanges w + length (preferred_media_types client))%nat ∧
  ((∃ mt, shared_type mt) → r = Ret answer ∧ handled w' = handled w ++ [request] ∧
    ∃ mt, shared_type mt ∧ known_types w' = <[target := mt]> (known_types w)) ∧
  ((∀ mt, ¬ shared_type mt) → (∃ body, r = Throw (http_client_error 415 body)) ∧ handled w' = handled w).
Proof.
  intros Hcall Hready. destruct (Hcall (S (length (preferred_media_types client))) request w pool Hready) as (pool' & _ & ->).
  pose proof (reference_from [] (S (length (preferred_media_types client))) w) as Href.
  destruct (reference _ _ _ _ _) as [r w']. destruct Href as (He & Hs & Hn); [constructor|set_solver|by left|cbn; lia|].
  split; [cbn in He |- *; lia|]. split; [intros Hex; by destruct (Hs Hex) as (-> & ? & ?)|].
  intros Hno. by destruct (Hn Hno) as ((body & ->) & ? & _); eauto.
Qed.
End network.

(** ** The clients agree *)

Section agree.
Context {R : Type} `{RegistryLaws R} (what : exn → string).
Context (registry : R) (target : N) (k : http_rpc).
Context (server : http_request → M (list message) http_response) (faults : nat → option fault).
Context (decoders_known : ∀ kind mt data t, supports registry mt = true →
  decode_with registry kind mt data ≠ Throw (unsupported_media_type_error t)).

(** Each of the three can reach the node. *)
Context (make_client : string → outcome ()) (configure_ssl_client : outcome ()) (base_url : string) (timeout : Z)
  (client_made : make_client base_url = Ret tt)
  (tls_configured : String.prefix "https://" base_url = true → configure_ssl_client = Ret tt).
Context (cfg : BeastPool.config) (resolve : list ascii → list ascii → outcome (list N)) (has_ssl_context : bool)
  (clock : nat → Z) (url : list ascii) (a : authority) (address : N) (addresses : list N)
  (url_read : parse_url url = Ret a) (host_resolved : resolve (host a) (port a) = Ret (address :: addresses))
  (tls_there : is_https a && negb has_ssl_context = false).
Context (connection_pool_size : N) (get_event_base : N → N) (set_from_host_port : list ascii → list ascii → outcome ())
  (folly : bool) (host_known : set_from_host_port (host a) (port a) = Ret tt).
Local Abbreviation ask := (exchange server faults).

(** C27. Whatever the server and the network do, the three clients send the same requests,
    leave the peer and what they know of it in the same state, and return the same
    answer or the same error; only a failure of the network is reported by each in its
    own way. *)
Theorem http_clients_agree fuel request w pool_h pool_b pool_p :
  ∃ r w',
    (let run := httplib_send_rpc what registry target k ask make_client configure_ssl_client {[target := base_url]}
       timeout fuel request (w, pool_h) in
     run.1 = report (httplib_fault timeout) r ∧ run.2.1 = w') ∧
    (let run := beast_send_rpc what registry target k ask cfg resolve has_ssl_context {[target := url]} clock
       fuel [] request (w, pool_b) in
     run.1 = report beast_fault r ∧ run.2.1 = w') ∧
    (let run := proxygen_send_rpc what registry target k ask connection_pool_size get_event_base set_from_host_port
       {[target := url]} clock folly fuel [] request (w, pool_p) in
     run.1 = report proxygen_fault r ∧ run.2.1 = w').
Proof.
  exists (reference_call what registry target k ask fuel [] request w).1,
    (reference_call what registry target k ask fuel [] request w).2.
  assert (∀ {A} (u : A), ({[target := u]} : gmap N A) !! target = Some u) as Hurl by (intros; apply lookup_singleton_eq).
  pose proof (exchange_total server faults) as Htotal. cbv zeta.
  destruct (httplib_calls what registry target k ask Htotal make_client configure_ssl_client {[target := base_url]}
    timeout base_url (Hurl _ _) client_made tls_configured decoders_known fuel request w pool_h I) as (p1 & _ & ->).
  destruct (beast_calls what registry target k ask Htotal cfg resolve has_ssl_context {[target := url]} clock
    url a address addresses (Hurl _ _) url_read host_resolved tls_there fuel request w pool_b I) as (p2 & _ & ->).
  destruct (proxygen_calls what registry target k ask Htotal connection_pool_size get_event_base set_from_host_port
    {[target := url]} clock folly url a (Hurl _ _) url_read host_known fuel request w pool_p I) as (p3 & _ & ->).
  done.
Qed.
End agree.

(** ** Examples *)

Module HttpExample.
(** A client of JSON and CBOR, in that order, and servers of CBOR; node 7 is at
    [http://n:80]. *)
Definition node_url : list ascii := chars "http://n:80".
Definition json_and_cbor : multi_registry := mk_multi (@json_rpc_serializer CodeJson.code_json) cbor_rpc_serializer [].
Definition response : message := msg_append_entries_response (mk_append_resp 3 true None None).
Definition answering (k : http_rpc) : option (message → outcome message) :=
  match k with http_append_entries => Some (λ _, Ret response) | _ => None end.
Definition failing (k : http_rpc) : option (message → outcome message) := Some (λ _, Throw (runtime_error "disk full")).
Definition quiet (e : exn) : string := EmptyString.

Definition beast_server := beast_serve quiet cbor_rpc_serializer answering 10485760.
Definition proxygen_server := proxygen_serve quiet cbor_rpc_serializer answering.
Definition beast_call (faults : nat → option fault) := λ fuel,
  beast_send_rpc quiet json_and_cbor 7 http_append_entries (exchange proxygen_server faults)
    (BeastPool.mk_config 10 60000) (λ _ _, Ret [1]) false {[7 := node_url]} (λ n, Z.of_nat n) fuel [].
Definition proxygen_call (faults : nat → option fault) := λ fuel,
  proxygen_send_rpc quiet json_and_cbor 7 http_append_entries (exchange beast_server faults)
    10 (λ _, 0) (λ _ _, Ret tt) {[7 := node_url]} (λ n, Z.of_nat n) true fuel [].

Lemma example_types mt : mt ∈ preferred_media_types json_and_cbor → mt = "application/json" ∨ mt = "application/cbor".
Proof. cbn. unfold Multi.preferred_media_types. cbn. set_solver. Qed.

Lemma example_plain : Forall (λ mt, plain_media_type (chars mt)) (preferred_media_types json_and_cbor).
Proof.
  assert (∀ l, bool_decide (l ≠ [] ∧ (","%char ∉ l) ∧ (";"%char ∉ l)) = true →
    option_map is_blank (head l) = Some false → option_map is_blank (last l) = Some false → plain_media_type l) as Hl.
  { intros l (H1 & H2 & H3)%bool_decide_eq_true_1 Hh Hl.
    split_and!; [done..| |]; intros c Hc; [rewrite Hc in Hh|rewrite Hc in Hl]; cbn in *; congruence. }
  apply Forall_forall. intros mt [->| ->]%example_types; apply Hl; by vm_compute.
Qed.

Lemma example_exact mt t : mt ∈ preferred_media_types json_and_cbor → accept_entry_matches mt t = String.eqb mt t.
Proof. by intros [->| ->]%example_types. Qed.

Lemma example_request mt data :
  mt ∈ preferred_media_types json_and_cbor → mt ∈ preferred_media_types cbor_rpc_serializer →
  encode_with json_and_cbor mt cbor_sample = Ret data →
  decode_with cbor_rpc_serializer (request_kind http_append_entries) mt data = Ret cbor_sample.
Proof.
  intros _ Hs. assert (mt = "application/cbor") as -> by (cbn in Hs; unfold Single.preferred_media_types in Hs; set_solver).
  intros E. vm_compute in E. injection E as <-. by vm_compute.
Qed.

Lemma example_answer mt handler answer data :
  mt ∈ preferred_media_types json_and_cbor → mt ∈ preferred_media_types cbor_rpc_serializer →
  answering http_append_entries = Some handler → handler cbor_sample = Ret answer →
  encode_with cbor_rpc_serializer mt answer = Ret data →
  decode_with json_and_cbor (response_kind http_append_entries) mt data = Ret answer.
Proof.
  intros _ Hs [= <-] [= <-].
  assert (mt = "application/cbor") as -> by (cbn in Hs; unfold Single.preferred_media_types in Hs; set_solver).
  intros E. vm_compute in E. injection E as <-. by vm_compute.
Qed.

Definition node_authority : authority := mk_authority false ["n"%char] ["8"%char; "0"%char].
Lemma node_url_read : parse_url node_url = Ret node_authority.
Proof. by vm_compute. Qed.

Lemma beast_call_ok faults :
  HttpCalls quiet json_and_cbor 7 http_append_entries (exchange proxygen_server faults) (λ _ : BeastPool.t, True)
    beast_fault (beast_call faults).
Proof.
  exact (beast_calls quiet json_and_cbor 7 http_append_entries (exchange proxygen_server faults)
    (exchange_total proxygen_server faults) (BeastPool.mk_config 10 60000) (λ _ _, Ret [1]) false {[7 := node_url]}
    (λ n, Z.of_nat n) node_url node_authority 1 [] (lookup_singleton_eq _ _) node_url_read eq_refl eq_refl).
Qed.

Lemma proxygen_call_ok faults :
  HttpCalls quiet json_and_cbor 7 http_append_entries (exchange beast_server faults) (λ _ : ProxygenPool.t, True)
    proxygen_fault (proxygen_call faults).
Proof.
  exact (proxygen_calls quiet json_and_cbor 7 http_append_entries (exchange beast_server faults)
    (exchange_total beast_server faults) 10 (λ _, 0) (λ _ _, Ret tt) {[7 := node_url]}
    (λ n, Z.of_nat n) true node_url node_authority (lookup_singleton_eq _ _) node_url_read eq_refl).
Qed.
End HttpExample.

(** The answer to the second request, the first that is understood, is lost. *)
Lemma http_calls_at_most_once_witness :
  let faults n := if decide (n = 1%nat) then Some (answer_lost read_error) else None in
  let '(r, (w, _)) := HttpExample.beast_call faults 3 cbor_sample (mk_world [] ∅ 0, BeastPool.mk ∅ [] 0) in
  (handled w = [] ∨ handled w = [cbor_sample]) ∧
  (∀ answer, r = Ret answer → handled w = [cbor_sample] ∧
    ∃ handler, HttpExample.answering http_append_entries = Some handler ∧ handler cbor_sample = Ret answer).
Proof.
  intros faults.
  apply (http_calls_at_most_once HttpExample.quiet HttpExample.json_and_cbor cbor_rpc_serializer 7
    http_append_entries HttpExample.answering 10485760 HttpExample.proxygen_server cbor_sample
    HttpExample.example_plain HttpExample.example_exact HttpExample.example_request HttpExample.example_answer
    (λ _, True) beast_fault (HttpExample.beast_call faults) faults 3 (mk_world [] ∅ 0)
    (BeastPool.mk ∅ [] 0) (HttpExample.beast_call_ok faults) I).
Defined.

Lemma http_calls_negotiate_witness :
  let '(r, (w, _)) := HttpExample.proxygen_call (λ _, None) 3 cbor_sample (mk_world [] ∅ 0, ProxygenPool.mk ∅ 0) in
  (exchanges w ≤ 2)%nat ∧ r = Ret HttpExample.response ∧ handled w = [cbor_sample] ∧
  ∃ mt, shared_type HttpExample.json_and_cbor cbor_rpc_serializer mt ∧ known_types w = <[7 := mt]> ∅.
Proof.
  pose proof (http_calls_negotiate HttpExample.quiet HttpExample.json_and_cbor cbor_rpc_serializer 7
    http_append_entries HttpExample.answering 10485760 HttpExample.beast_server cbor_sample
    HttpExample.example_plain HttpExample.example_exact HttpExample.example_request HttpExample.example_answer
    (λ _, Ret HttpExample.response) HttpExample.response eq_refl eq_refl) as Hcalls.
  specialize (λ Hfits, Hcalls Hfits _ _ _ _ (mk_world [] ∅ 0) (ProxygenPool.mk ∅ 0)
    (HttpExample.proxygen_call_ok (λ _, None)) I).
  change (S (length (preferred_media_types HttpExample.json_and_cbor))) with 3%nat in Hcalls.
  destruct (HttpExample.proxygen_call (λ _, None) 3 cbor_sample _) as [r [w p]]. destruct Hcalls as (Hcount & Hshared & _).
  - intros mt data E. destruct (decide (mt ∈ preferred_media_types HttpExample.json_and_cbor)) as [Hin|Hno].
    + destruct (HttpExample.example_types mt Hin) as [->| ->]; vm_compute in E; injection E as <-; by vm_compute.
    + destruct (law_unsupported HttpExample.json_and_cbor mt cbor_sample k_append_entries_request [] Hno) as [Hu _].
      by rewrite Hu in E.
  - split; [exact Hcount|]. apply Hshared. exists "application/cbor".
    split; cbn; unfold Multi.preferred_media_types, Single.preferred_media_types; cbn; set_solver.
Defined.

(** A format of one byte, whose decoder only ever complains about its bytes. *)
Definition one_byte_serializer : rpc_serializer :=
  mk_serializer "application/x-one" (λ _, [x01])
    (λ _ data, match data with [x01] => Ret HttpExample.response | _ => Throw (serialization_exception "not one") end).

Lemma http_clients_agree_witness :
  ∃ r w',
    (let run := httplib_send_rpc HttpExample.quiet one_byte_serializer 7 http_append_entries
       (exchange (proxygen_serve HttpExample.quiet one_byte_serializer HttpExample.answering) (λ _, None))
       (λ _, Ret tt) (Ret tt) {[7 := "http://n:80"]} 1000 2 HttpExample.response (mk_world [] ∅ 0, CppHttplibPool.mk ∅ [] 0) in
     run.1 = report (httplib_fault 1000) r ∧ run.2.1 = w') ∧
    (let run := beast_send_rpc HttpExample.quiet one_byte_serializer 7 http_append_entries
       (exchange (proxygen_serve HttpExample.quiet one_byte_serializer HttpExample.answering) (λ _, None))
       (BeastPool.mk_config 10 60000) (λ _ _, Ret [1]) false {[7 := HttpExample.node_url]} (λ n, Z.of_nat n) 2 []
       HttpExample.response (mk_world [] ∅ 0, BeastPool.mk ∅ [] 0) in
     run.1 = report beast_fault r ∧ run.2.1 = w') ∧
    (let run := proxygen_send_rpc HttpExample.quiet one_byte_serializer 7 http_append_entries
       (exchange (proxygen_serve HttpExample.quiet one_byte_serializer HttpExample.answering) (λ _, None))
       10 (λ _, 0) (λ _ _, Ret tt) {[7 := HttpExample.node_url]} (λ n, Z.of_nat n) true 2 []
       HttpExample.response (mk_world [] ∅ 0, ProxygenPool.mk ∅ 0) in
     run.1 = report proxygen_fault r ∧ run.2.1 = w').
Proof.
  eapply http_clients_agree; [|by vm_compute..].
  intros kind mt data t Hs. cbn. unfold Single.decode_with. cbn in Hs. rewrite Hs. cbn.
  destruct data as [|[] [|]]; done.
Defined.

(** ** Where the transports differ *)

Definition told (answer : outcome http_response) : outcome N := let? response := answer in Ret (status response).

(** A handler that fails on a request in CBOR: the answer of [cpp_httplib_server], built
    with JSON's serializer, says that the request was bad; Beast's says that the
    server failed. *)
Theorem handler_failure_reported_as_bad_request :
  let request := mk_http_request (endpoint http_append_entries) (Some "application/cbor") None (cbor_serialize cbor_sample) in
  let json := @deserialize CodeJson.code_json in
  told (httplib_serve HttpExample.quiet HttpExample.json_and_cbor HttpExample.failing json 1000 request []).1 = Ret 400 ∧
  told (beast_serve HttpExample.quiet HttpExample.json_and_cbor HttpExample.failing 1000 request []).1 = Ret 500.
Proof. by vm_compute. Qed.

(** A call to a node without a URL: what [cpp_httplib_client] reports does not say
    so. *)
Theorem unknown_node_unnamed what registry k ask make_client ssl timeout cfg resolve has_ssl clock fuel request w :
  result_of (httplib_send_rpc (R := rpc_serializer) what registry 9 k ask make_client ssl ∅ timeout fuel request)
    (w, CppHttplibPool.mk ∅ [] 0) = Throw std_exception ∧
  result_of (beast_send_rpc (R := rpc_serializer) what registry 9 k ask cfg resolve has_ssl ∅ clock (S fuel) [] request)
    (w, BeastPool.mk ∅ [] 0) = Throw (runtime_error "No URL mapping found for node 9").
Proof. split; by vm_compute. Qed.

(** A body above the limit: Beast answers 413, Proxygen has no limit. *)
Theorem body_limit_ignored :
  let request := mk_http_request (endpoint http_append_entries) (Some "application/cbor") None (cbor_serialize cbor_sample) in
  told (beast_serve HttpExample.quiet cbor_rpc_serializer HttpExample.answering 1 request []).1 = Ret 413 ∧
  told (HttpExample.proxygen_server request []).1 = Ret 200.
Proof. by vm_compute. Qed.
