(* ===== verification/HttpTls.v ===== *)
(** TLS for the HTTP transports: protocol versions, the validation of certificates and
    keys, and the reload of both ([http_transport_impl.hpp],
    [beast_http_transport_impl.hpp]).

    OpenSSL and the files are parameters: what a parser makes of a file's bytes,
    whether two keys are equal, whether a chain verifies, and what the operations of
    an [SSL_CTX] do.  Allocations succeed.  Exceptions carry the text of the code
    without the part that OpenSSL adds. *)

From stdpp Require Import strings.
From S2P Require Import Prelude Types.

(** ** Versions *)

(** [TLS1_VERSION] and the next. *)
Definition validate_tls_version (version : string) : outcome Z :=
  if String.eqb version "TLSv1.0" then Ret 769%Z
  else if String.eqb version "TLSv1.1" then Ret 770%Z
  else if String.eqb version "TLSv1.2" then Ret 771%Z
  else if String.eqb version "TLSv1.3" then Ret 772%Z
  else Throw (ssl_configuration_error ("Unsupported TLS version: " +:+ version)).

Definition empty (s : string) : bool := String.eqb s EmptyString.

Definition too_high (min_version max_version : string) : exn :=
  ssl_configuration_error ("Minimum TLS version (" +:+ min_version +:+ ") is higher than maximum TLS version (" +:+
    max_version +:+ ")").
Definition too_low (min_version : string) : exn :=
  ssl_configuration_error ("Minimum TLS version (" +:+ min_version +:+
    ") is below security requirements (TLS 1.2 minimum)").

Definition validate_tls_version_range (min_version max_version : string) : outcome () :=
  if empty min_version && empty max_version then Ret tt else
  let? min_ver := if empty min_version then Ret 771%Z else validate_tls_version min_version in
  let? max_ver := if empty max_version then Ret 772%Z else validate_tls_version max_version in
  if (max_ver <? min_ver)%Z then Throw (too_high min_version max_version)
  else if (min_ver <? 771)%Z then Throw (too_low min_version)
  else Ret tt.

Definition validate_tls_version_string (version : string) : outcome () :=
  if empty version then Ret tt
  else if negb (String.eqb version "TLSv1.0") && negb (String.eqb version "TLSv1.1") &&
          negb (String.eqb version "TLSv1.2") && negb (String.eqb version "TLSv1.3")
  then Throw (ssl_configuration_error ("Invalid TLS version string: " +:+ version))
  else Ret tt.

Definition get_tls_version_number (version : string) : outcome Z :=
  if empty version then Ret 0%Z
  else if String.eqb version "TLSv1.0" then Ret 10%Z
  else if String.eqb version "TLSv1.1" then Ret 11%Z
  else if String.eqb version "TLSv1.2" then Ret 12%Z
  else if String.eqb version "TLSv1.3" then Ret 13%Z
  else Throw (ssl_configuration_error ("Invalid TLS version: " +:+ version)).

Definition validate_tls_version_range_simple (min_version max_version : string) : outcome () :=
  let? _ := validate_tls_version_string min_version in
  let? _ := validate_tls_version_string max_version in
  if empty min_version && empty max_version then Ret tt else
  let? _ :=
    if negb (empty min_version) && negb (empty max_version) then
      let? min_ver := get_tls_version_number min_version in
      let? max_ver := get_tls_version_number max_version in
      if (max_ver <? min_ver)%Z then Throw (too_high min_version max_version) else Ret tt
    else Ret tt in
  if negb (empty min_version) then
    let? min_ver := get_tls_version_number min_version in
    if (min_ver <? 12)%Z then Throw (too_low min_version) else Ret tt
  else Ret tt.

(** ** Certificates and keys *)

Section openssl.
Context {X509 EVP_PKEY : Type}.
Context (exists_file : string → bool) (open_file : string → option bytes).
Context (PEM_read_X509 d2i_X509 : bytes → option X509) (PEM_read_PrivateKey : bytes → option EVP_PKEY).
Context (X509_get_pubkey : X509 → option EVP_PKEY) (EVP_PKEY_eq : EVP_PKEY → EVP_PKEY → bool).
(** [X509_cmp_current_time] of the two dates. *)
Context (not_yet_valid expired : X509 → bool).
(** [X509_verify_cert], with a CA or with those of the system. *)
Context (verify_cert : option X509 → X509 → bool).
Context (cipher_list_ok : string → bool).

(** PEM first, then DER. *)
Definition read_certificate (data : bytes) : option X509 :=
  match PEM_read_X509 data with Some cert => Some cert | None => d2i_X509 data end.

(** An [ifstream] that is not open reads as an empty file. *)
Definition content (path : string) : bytes := default [] (open_file path).

Definition check_dates (path : string) (cert : X509) : outcome () :=
  if not_yet_valid cert then Throw (certificate_validation_error ("Certificate not yet valid: " +:+ path))
  else if expired cert then Throw (certificate_validation_error ("Certificate has expired: " +:+ path))
  else Ret tt.

Definition validate_certificate_file (cert_path : string) : outcome () :=
  if empty cert_path then Ret tt
  else if negb (exists_file cert_path)
  then Throw (ssl_configuration_error ("Certificate file does not exist: " +:+ cert_path)) else
  match open_file cert_path with
  | None => Throw (ssl_configuration_error ("Cannot open certificate file: " +:+ cert_path))
  | Some data =>
      match read_certificate data with
      | None => Throw (certificate_validation_error ("Invalid certificate format in " +:+ cert_path))
      | Some cert => check_dates cert_path cert
      end
  end.

Definition validate_private_key_file (key_path : string) : outcome () :=
  if empty key_path then Ret tt
  else if negb (exists_file key_path)
  then Throw (ssl_configuration_error ("Private key file does not exist: " +:+ key_path)) else
  match open_file key_path with
  | None => Throw (ssl_configuration_error ("Cannot open private key file: " +:+ key_path))
  | Some data =>
      match PEM_read_PrivateKey data with
      | None => Throw (certificate_validation_error ("Invalid private key format in " +:+ key_path))
      | Some _ => Ret tt
      end
  end.

Definition validate_certificate_key_pair (cert_path key_path : string) : outcome () :=
  if empty cert_path || empty key_path then Ret tt else
  match read_certificate (content cert_path) with
  | None => Throw (certificate_validation_error ("Failed to load certificate for key pair validation: " +:+ cert_path))
  | Some cert =>
      match PEM_read_PrivateKey (content key_path) with
      | None => Throw (certificate_validation_error ("Failed to load private key for key pair validation: " +:+ key_path))
      | Some pkey =>
          match X509_get_pubkey cert with
          | None => Throw (certificate_validation_error ("Failed to extract public key from certificate: " +:+ cert_path))
          | Some cert_pkey =>
              if EVP_PKEY_eq pkey cert_pkey then Ret tt
              else Throw (certificate_validation_error
                ("Private key does not match certificate: " +:+ key_path +:+ " and " +:+ cert_path))
          end
      end
  end.

Definition validate_certificate_chain (cert_path ca_cert_path : string) : outcome () :=
  if empty cert_path then Ret tt else
  match read_certificate (content cert_path) with
  | None => Throw (certificate_validation_error ("Failed to load certificate for chain validation: " +:+ cert_path))
  | Some cert =>
      let? ca :=
        if empty ca_cert_path then Ret None else
        match read_certificate (content ca_cert_path) with
        | None => Throw (certificate_validation_error ("Failed to load CA certificate: " +:+ ca_cert_path))
        | Some ca => Ret (Some ca)
        end in
      if verify_cert ca cert then Ret tt
      else Throw (certificate_validation_error ("Certificate chain validation failed for " +:+ cert_path))
  end.

Definition check_certificate_expiration (cert_path : string) : outcome () :=
  if empty cert_path then Ret tt else
  match read_certificate (content cert_path) with
  | None => Throw (certificate_validation_error ("Failed to load certificate for expiration check: " +:+ cert_path))
  | Some cert => check_dates cert_path cert
  end.

Definition validate_cipher_suites (cipher_suites : string) : outcome () :=
  if empty cipher_suites || cipher_list_ok cipher_suites then Ret tt
  else Throw (ssl_configuration_error ("Invalid cipher suites '" +:+ cipher_suites +:+ "'")).

(** ** What a client and a server check when they are built *)

Record tls_config : Type := mk_tls {
  enable_ssl : bool;
  cert_path : string;
  key_path : string;
  ca_cert_path : string;
  require_client_cert : bool;
  cipher_suites : string;
  min_tls_version : string;
  max_tls_version : string
}.

(** [cpp_httplib_client::validate_certificate_files] *)
Definition validate_client_files (cfg : tls_config) : outcome () :=
  let? _ := validate_tls_version_range_simple (min_tls_version cfg) (max_tls_version cfg) in
  let? _ := validate_cipher_suites (cipher_suites cfg) in
  let? _ := validate_tls_version_range (min_tls_version cfg) (max_tls_version cfg) in
  let? _ :=
    if empty (ca_cert_path cfg) then Ret tt
    else let? _ := validate_certificate_file (ca_cert_path cfg) in check_certificate_expiration (ca_cert_path cfg) in
  if negb (empty (cert_path cfg)) then
    let? _ := validate_certificate_file (cert_path cfg) in
    let? _ := check_certificate_expiration (cert_path cfg) in
    if empty (key_path cfg)
    then Throw (ssl_configuration_error "Client certificate provided but no private key specified") else
    let? _ := validate_private_key_file (key_path cfg) in
    let? _ := validate_certificate_key_pair (cert_path cfg) (key_path cfg) in
    validate_certificate_chain (cert_path cfg) (ca_cert_path cfg)
  else if negb (empty (key_path cfg))
  then Throw (ssl_configuration_error "Client private key provided but no certificate specified")
  else Ret tt.

(** [cpp_httplib_server::validate_certificate_files] *)
Definition validate_server_files (cfg : tls_config) : outcome () :=
  if enable_ssl cfg then
    let? _ := validate_tls_version_range_simple (min_tls_version cfg) (max_tls_version cfg) in
    let? _ := validate_cipher_suites (cipher_suites cfg) in
    let? _ := validate_tls_version_range (min_tls_version cfg) (max_tls_version cfg) in
    if empty (cert_path cfg) then Throw (ssl_configuration_error "SSL enabled but no server certificate path provided")
    else if empty (key_path cfg) then Throw (ssl_configuration_error "SSL enabled but no server private key path provided")
    else
    let? _ := validate_certificate_file (cert_path cfg) in
    let? _ := check_certificate_expiration (cert_path cfg) in
    let? _ := validate_private_key_file (key_path cfg) in
    let? _ := validate_certificate_key_pair (cert_path cfg) (key_path cfg) in
    let? _ := validate_certificate_chain (cert_path cfg) (ca_cert_path cfg) in
    if require_client_cert cfg then
      if empty (ca_cert_path cfg)
      then Throw (ssl_configuration_error
        "Client certificate authentication enabled but no CA certificate path provided")
      else let? _ := validate_certificate_file (ca_cert_path cfg) in check_certificate_expiration (ca_cert_path cfg)
    else Ret tt
  else if negb (empty (cert_path cfg)) || negb (empty (key_path cfg)) || negb (empty (ca_cert_path cfg)) ||
          require_client_cert cfg || negb (empty (cipher_suites cfg))
  then Throw (ssl_configuration_error "SSL configuration provided but SSL is disabled")
  else Ret tt.

(** ** Contexts and reloading *)

Context {SSL_CTX : Type}.
(** The operations return the context after them, or nothing when they fail. *)
Context (set_cipher_list : string → SSL_CTX → option SSL_CTX) (set_min_proto set_max_proto : Z → SSL_CTX → option SSL_CTX).
Context (use_certificate_chain_file use_PrivateKey_file load_verify_locations : string → SSL_CTX → option SSL_CTX).
Context (check_private_key : SSL_CTX → bool).

(** An operation that fails leaves the context as it is. *)
Definition ctx_op (op : SSL_CTX → option SSL_CTX) (e : exn) : M SSL_CTX () := λ ctx,
  match op ctx with Some ctx' => (Ret tt, ctx') | None => (Throw e, ctx) end.

Definition configure_ssl_context (cipher_suites min_tls_version max_tls_version : string) : M SSL_CTX () :=
  do! (if empty cipher_suites then mreturn tt
       else ctx_op (set_cipher_list cipher_suites) (ssl_context_error ("Failed to set cipher suites '" +:+ cipher_suites +:+ "'"))) in
  do! (if empty min_tls_version then mreturn tt
       else let! v := mlift (validate_tls_version min_tls_version) in
         ctx_op (set_min_proto v) (ssl_context_error ("Failed to set minimum TLS version: " +:+ min_tls_version))) in
  if empty max_tls_version then mreturn tt
  else let! v := mlift (validate_tls_version max_tls_version) in
    ctx_op (set_max_proto v) (ssl_context_error ("Failed to set maximum TLS version: " +:+ max_tls_version)).

(** [cpp_httplib_server::reload_tls_material] of a running server: the context that
    handshakes use is changed in place. *)
Definition httplib_reload_tls_material (cfg : tls_config) : M SSL_CTX () :=
  do! mlift (validate_certificate_key_pair (cert_path cfg) (key_path cfg)) in
  do! (if require_client_cert cfg then mlift (validate_certificate_file (ca_cert_path cfg)) else mreturn tt) in
  let rejected := ssl_configuration_error "reload_tls_material: new cert/key rejected" in
  do! ctx_op (use_certificate_chain_file (cert_path cfg)) rejected in
  do! ctx_op (use_PrivateKey_file (key_path cfg)) rejected in
  let! ctx := mget in
  do! (if check_private_key ctx then mreturn tt else mthrow rejected) in
  if require_client_cert cfg
  then ctx_op (load_verify_locations (ca_cert_path cfg)) (ssl_configuration_error "reload_tls_material: new CA cert rejected")
  else mreturn tt.

(** [boost_beast_server::reload_tls_material]: a new context is built and takes the
    place of the old one. *)
Definition beast_reload_tls_material (validate_certificate_files : tls_config → outcome ())
    (build_ssl_context : tls_config → outcome SSL_CTX) (cfg : tls_config) : M SSL_CTX () :=
  if negb (enable_ssl cfg) then mthrow (ssl_configuration_error "SSL is not enabled on this server") else
  do! mlift (validate_certificate_files cfg) in
  let! new_ctx := mlift (build_ssl_context cfg) in
  mmodify (λ _, new_ctx).

(** ** [boost_beast_server]'s own checks *)

Definition beast_validate_certificate_file (cert_path : string) : outcome () :=
  if empty cert_path then Throw (certificate_validation_error "Certificate path is empty")
  else if negb (exists_file cert_path)
  then Throw (certificate_validation_error ("Certificate file does not exist: " +:+ cert_path)) else
  match open_file cert_path with
  | None => Throw (certificate_validation_error ("Failed to open certificate file: " +:+ cert_path))
  | Some data =>
      match PEM_read_X509 data with
      | None => Throw (certificate_validation_error ("Failed to parse certificate file: " +:+ cert_path))
      | Some _ => Ret tt
      end
  end.

Definition beast_validate_private_key_file (key_path : string) : outcome () :=
  if empty key_path then Throw (certificate_validation_error "Private key path is empty")
  else if negb (exists_file key_path)
  then Throw (certificate_validation_error ("Private key file does not exist: " +:+ key_path)) else
  match open_file key_path with
  | None => Throw (certificate_validation_error ("Failed to open private key file: " +:+ key_path))
  | Some data =>
      match PEM_read_PrivateKey data with
      | None => Throw (certificate_validation_error ("Failed to parse private key file: " +:+ key_path))
      | Some _ => Ret tt
      end
  end.

(** On a new context of its own. *)
Definition beast_validate_certificate_key_pair (new_ctx : SSL_CTX) (use_certificate_file : string → SSL_CTX → option SSL_CTX)
    (cert_path key_path : string) : outcome () :=
  match use_certificate_file cert_path new_ctx with
  | None => Throw (certificate_validation_error ("Failed to load certificate: " +:+ cert_path))
  | Some ctx =>
      match use_PrivateKey_file key_path ctx with
      | None => Throw (certificate_validation_error ("Failed to load private key: " +:+ key_path))
      | Some ctx =>
          if check_private_key ctx then Ret tt
          else Throw (certificate_validation_error ("Certificate/key mismatch: " +:+ cert_path +:+ " / " +:+ key_path))
      end
  end.

Definition beast_check_certificate_expiration (cert_path : string) : outcome () :=
  match open_file cert_path with
  | None => Throw (certificate_validation_error ("Failed to open certificate file: " +:+ cert_path))
  | Some data =>
      match PEM_read_X509 data with
      | None => Throw (certificate_validation_error ("Failed to parse certificate file: " +:+ cert_path))
      | Some cert => if expired cert then Throw (certificate_validation_error ("Certificate has expired: " +:+ cert_path)) else Ret tt
      end
  end.

(** [boost_beast_server::validate_certificate_files] *)
Definition beast_validate_server_files (key_pair : string → string → outcome ()) (cfg : tls_config) : outcome () :=
  let? _ := validate_tls_version_range (min_tls_version cfg) (max_tls_version cfg) in
  let? _ := validate_cipher_suites (cipher_suites cfg) in
  if negb (enable_ssl cfg) then Ret tt
  else if empty (cert_path cfg) || empty (key_path cfg)
  then Throw (ssl_configuration_error "enable_ssl is set but ssl_cert_path/ssl_key_path are not both provided") else
  let? _ := beast_validate_certificate_file (cert_path cfg) in
  let? _ := beast_check_certificate_expiration (cert_path cfg) in
  let? _ := beast_validate_private_key_file (key_path cfg) in
  let? _ := key_pair (cert_path cfg) (key_path cfg) in
  if negb (empty (ca_cert_path cfg)) then beast_validate_certificate_file (ca_cert_path cfg)
  else if require_client_cert cfg
  then Throw (ssl_configuration_error "require_client_cert is set but ca_cert_path is not provided")
  else Ret tt.
End openssl.

(** ** Versions that are accepted *)

(** The place of a version among the four, an empty one standing for [dflt]. *)
Definition version_rank (dflt : Z) (version : string) : option Z :=
  if String.eqb version EmptyString then Some dflt
  else if String.eqb version "TLSv1.0" then Some 0%Z
  else if String.eqb version "TLSv1.1" then Some 1%Z
  else if String.eqb version "TLSv1.2" then Some 2%Z
  else if String.eqb version "TLSv1.3" then Some 3%Z
  else None.

Lemma validate_tls_version_rank version :
  version ≠ EmptyString →
  match version_rank 0 version with
  | Some r => validate_tls_version version = Ret (769 + r)%Z ∧ get_tls_version_number version = Ret (10 + r)%Z ∧
      validate_tls_version_string version = Ret tt ∧ (0 ≤ r ≤ 3)%Z
  | None => (∃ e, validate_tls_version version = Throw e) ∧ ∃ e, validate_tls_version_string version = Throw e
  end.
Proof.
  intros Hne. unfold version_rank, validate_tls_version, get_tls_version_number, validate_tls_version_string, empty.
  destruct (String.eqb_spec version EmptyString) as [|_]; [done|].
  destruct (String.eqb_spec version "TLSv1.0") as [->|]; [by cbn; split_and!|].
  destruct (String.eqb_spec version "TLSv1.1") as [->|]; [by cbn; split_and!|].
  destruct (String.eqb_spec version "TLSv1.2") as [->|]; [by cbn; split_and!|].
  destruct (String.eqb_spec version "TLSv1.3") as [->|]; [by cbn; split_and!|]. cbn. eauto.
Qed.

(** Both directions, once every comparison is decided. *)
Ltac in_range :=
  split; [intros; naive_solver lia|]; intros (lo & hi & Hlo & Hhi & ?); simplify_eq; try done; lia.

(** The two checks that are made together accept exactly the ranges of known versions
    from TLS 1.2 on, a missing bound being 1.2 below and 1.3 above. *)
Theorem tls_range_accepted min_version max_version :
  (validate_tls_version_range_simple min_version max_version = Ret tt ∧
   validate_tls_version_range min_version max_version = Ret tt) ↔
  ∃ lo hi, version_rank 2 min_version = Some lo ∧ version_rank 3 max_version = Some hi ∧ (2 ≤ lo ≤ hi)%Z.
Proof.
  assert (∀ d version, version ≠ EmptyString → version_rank d version = version_rank 0 version) as Hd.
  { intros d version Hne. unfold version_rank. by destruct (String.eqb_spec version EmptyString). }
  unfold validate_tls_version_range_simple, validate_tls_version_range.
  destruct (decide (min_version = EmptyString)) as [->|Hmin], (decide (max_version = EmptyString)) as [->|Hmax].
  - cbn. split; [|done]. intros _. exists 2%Z, 3%Z. split_and!; [done|done|lia..].
  - pose proof (validate_tls_version_rank max_version Hmax) as Hr. rewrite (Hd 3%Z) by done.
    assert (empty max_version = false) as Hem by by apply String.eqb_neq.
    destruct (version_rank 0 max_version) as [r|]; [|destruct Hr as [[e ->] [e' ->]]; cbn; split; [naive_solver|naive_solver]].
    destruct Hr as (-> & Hn & -> & Hrng). cbn -[Z.add Z.ltb]. rewrite Hem. cbn -[Z.add Z.ltb].
    destruct (Z.ltb_spec (769 + r) 771); by in_range.
  - pose proof (validate_tls_version_rank min_version Hmin) as Hr. rewrite (Hd 2%Z) by done.
    assert (empty min_version = false) as Hem by by apply String.eqb_neq.
    destruct (version_rank 0 min_version) as [r|]; [|destruct Hr as [[e ->] [e' ->]]; cbn; split; [naive_solver|naive_solver]].
    destruct Hr as (-> & Hn & -> & Hrng). cbn -[Z.add Z.ltb]. rewrite Hem. cbn -[Z.add Z.ltb]. rewrite Hn. cbn -[Z.add Z.ltb].
    destruct (Z.ltb_spec 772 (769 + r)), (Z.ltb_spec (10 + r) 12), (Z.ltb_spec (769 + r) 771); by in_range.
  - pose proof (validate_tls_version_rank min_version Hmin) as Hr. pose proof (validate_tls_version_rank max_version Hmax) as Hr'.
    rewrite (Hd 2%Z), (Hd 3%Z) by done.
    assert (empty min_version = false) as Hem by by apply String.eqb_neq.
    assert (empty max_version = false) as Hem' by by apply String.eqb_neq.
    destruct (version_rank 0 min_version) as [r|]; [|destruct Hr as [[e ->] [e' ->]]; cbn; split; [naive_solver|naive_solver]].
    destruct Hr as (-> & Hn & -> & Hrng).
    destruct (version_rank 0 max_version) as [r'|]; [|destruct Hr' as [[e ->] [e' ->]]; cbn; split; [naive_solver|naive_solver]].
    destruct Hr' as (-> & Hn' & -> & Hrng'). cbn -[Z.add Z.ltb]. rewrite Hem, Hem'. cbn -[Z.add Z.ltb].
    rewrite Hn, Hn'. cbn -[Z.add Z.ltb].
    destruct (Z.ltb_spec (10 + r') (10 + r)), (Z.ltb_spec (769 + r') (769 + r)), (Z.ltb_spec (10 + r) 12),
      (Z.ltb_spec (769 + r) 771); cbn -[Z.add Z.ltb]; by in_range.
Qed.

(** ** What a server's material is, once accepted *)

Lemma bind_ret {A B} (o : outcome A) (f : A → outcome B) b : outcome_bind f o = Ret b ↔ ∃ a, o = Ret a ∧ f a = Ret b.
Proof. destruct o; cbn; naive_solver. Qed.

Lemma bind_unit {B} (o : outcome ()) (f : () → outcome B) b : outcome_bind f o = Ret b ↔ o = Ret tt ∧ f tt = Ret b.
Proof. rewrite bind_ret. split; [by intros ([] & ? & ?)|eauto]. Qed.

Section material.
Context {X509 EVP_PKEY : Type}.
Context (exists_file : string → bool) (open_file : string → option bytes).
Context (PEM_read_X509 d2i_X509 : bytes → option X509) (PEM_read_PrivateKey : bytes → option EVP_PKEY).
Context (X509_get_pubkey : X509 → option EVP_PKEY) (EVP_PKEY_eq : EVP_PKEY → EVP_PKEY → bool).
Context (not_yet_valid expired : X509 → bool) (verify_cert : option X509 → X509 → bool) (cipher_list_ok : string → bool).
Local Abbreviation certificate := (read_certificate PEM_read_X509 d2i_X509).

(** A file with a certificate that is valid now. *)
Definition holds_certificate (path : string) (cert : X509) : Prop :=
  exists_file path = true ∧ ∃ data, open_file path = Some data ∧ certificate data = Some cert ∧
    not_yet_valid cert = false ∧ expired cert = false.

Lemma check_dates_ok path cert :
  check_dates not_yet_valid expired path cert = Ret tt ↔ not_yet_valid cert = false ∧ expired cert = false.
Proof. unfold check_dates. destruct (not_yet_valid cert), (expired cert); naive_solver. Qed.

Lemma certificate_file_ok path :
  empty path = false →
  (validate_certificate_file exists_file open_file PEM_read_X509 d2i_X509 not_yet_valid expired path = Ret tt ↔
   ∃ cert, holds_certificate path cert).
Proof.
  intros He. unfold validate_certificate_file, holds_certificate. rewrite He.
  destruct (exists_file path); cbn [negb]; [|naive_solver].
  destruct (open_file path) as [data|]; [|naive_solver]. destruct (certificate data) as [cert|] eqn:Hc; [|naive_solver].
  rewrite check_dates_ok. naive_solver.
Qed.

Lemma holds_content path cert : holds_certificate path cert → certificate (content open_file path) = Some cert.
Proof. intros (_ & data & Ho & Hc & _). unfold content. by rewrite Ho. Qed.

Lemma expiration_ok path cert :
  empty path = false → holds_certificate path cert →
  check_certificate_expiration open_file PEM_read_X509 d2i_X509 not_yet_valid expired path = Ret tt.
Proof.
  intros He Hh. unfold check_certificate_expiration. rewrite He, (holds_content path cert Hh).
  apply check_dates_ok. by destruct Hh as (_ & data & _ & _ & ?).
Qed.

(** The certificate is valid now, the key is its key, its chain verifies against the CA
    that is named or those of the system, and the CA is there when clients have to
    show certificates. *)
Record valid_material (cfg : tls_config) : Prop := mk_material {
  material_versions : ∃ lo hi, version_rank 2 (min_tls_version cfg) = Some lo ∧
    version_rank 3 (max_tls_version cfg) = Some hi ∧ (2 ≤ lo ≤ hi)%Z;
  material_ciphers : empty (cipher_suites cfg) || cipher_list_ok (cipher_suites cfg) = true;
  material_paths : empty (cert_path cfg) = false ∧ empty (key_path cfg) = false;
  material_pair : ∃ cert key public, holds_certificate (cert_path cfg) cert ∧
    exists_file (key_path cfg) = true ∧
    (∃ data, open_file (key_path cfg) = Some data ∧ PEM_read_PrivateKey data = Some key) ∧
    X509_get_pubkey cert = Some public ∧ EVP_PKEY_eq key public = true ∧
    if empty (ca_cert_path cfg) then verify_cert None cert = true
    else ∃ ca, certificate (content open_file (ca_cert_path cfg)) = Some ca ∧ verify_cert (Some ca) cert = true;
  material_ca : require_client_cert cfg = true →
    empty (ca_cert_path cfg) = false ∧ ∃ ca, holds_certificate (ca_cert_path cfg) ca
}.

Local Abbreviation validate := (validate_server_files exists_file open_file PEM_read_X509 d2i_X509 PEM_read_PrivateKey
  X509_get_pubkey EVP_PKEY_eq not_yet_valid expired verify_cert cipher_list_ok).

Lemma pair_ok cert_path key_path cert :
  empty cert_path = false → empty key_path = false → certificate (content open_file cert_path) = Some cert →
  (validate_certificate_key_pair open_file PEM_read_X509 d2i_X509 PEM_read_PrivateKey X509_get_pubkey EVP_PKEY_eq
    cert_path key_path = Ret tt ↔
   ∃ key public, PEM_read_PrivateKey (content open_file key_path) = Some key ∧ X509_get_pubkey cert = Some public ∧
     EVP_PKEY_eq key public = true).
Proof.
  intros H1 H2 Hc. unfold validate_certificate_key_pair. rewrite H1, H2, Hc. cbn [orb].
  destruct (PEM_read_PrivateKey _) as [key|]; [|naive_solver]. destruct (X509_get_pubkey cert) as [public|]; [|naive_solver].
  destruct (EVP_PKEY_eq key public) eqn:E; (split; [intros [=]; by exists key, public|]);
    intros (? & ? & [= <-] & [= <-] & ?); congruence.
Qed.

Lemma chain_ok cert_path ca_path cert :
  empty cert_path = false → certificate (content open_file cert_path) = Some cert →
  (validate_certificate_chain open_file PEM_read_X509 d2i_X509 verify_cert cert_path ca_path = Ret tt ↔
   if empty ca_path then verify_cert None cert = true
   else ∃ ca, certificate (content open_file ca_path) = Some ca ∧ verify_cert (Some ca) cert = true).
Proof.
  intros H1 Hc. unfold validate_certificate_chain. rewrite H1, Hc. destruct (empty ca_path); cbn [outcome_bind].
  - by destruct (verify_cert None cert).
  - destruct (certificate (content open_file ca_path)) as [ca|]; [|naive_solver]. cbn [outcome_bind].
    destruct (verify_cert (Some ca) cert) eqn:E; (split; [intros [=]; by exists ca|]); intros (? & [= <-] & ?); congruence.
Qed.

Lemma key_file_ok key_path :
  empty key_path = false →
  (validate_private_key_file exists_file open_file PEM_read_PrivateKey key_path = Ret tt ↔
   exists_file key_path = true ∧ ∃ data key, open_file key_path = Some data ∧ PEM_read_PrivateKey data = Some key).
Proof.
  intros He. unfold validate_private_key_file. rewrite He. destruct (exists_file key_path); cbn [negb]; [|naive_solver].
  destruct (open_file key_path) as [data|]; [|naive_solver]. destruct (PEM_read_PrivateKey data) as [key|] eqn:E; naive_solver.
Qed.

Lemma ciphers_ok suites :
  validate_cipher_suites cipher_list_ok suites = Ret tt ↔ empty suites || cipher_list_ok suites = true.
Proof. unfold validate_cipher_suites. destruct (empty suites || cipher_list_ok suites); naive_solver. Qed.

Lemma ca_ok path :
  (if empty path then Throw (ssl_configuration_error
     "Client certificate authentication enabled but no CA certificate path provided")
   else let? _ := validate_certificate_file exists_file open_file PEM_read_X509 d2i_X509 not_yet_valid expired path in
     check_certificate_expiration open_file PEM_read_X509 d2i_X509 not_yet_valid expired path) = Ret tt ↔
  empty path = false ∧ ∃ ca, holds_certificate path ca.
Proof.
  destruct (empty path) eqn:E; [naive_solver|]. rewrite bind_unit, certificate_file_ok by done.
  split; [naive_solver|]. intros [_ [ca Hca]]. split; [by exists ca|]. by eapply expiration_ok.
Qed.

(** A server with TLS is built exactly when its material is valid. *)
Theorem server_accepts_valid_material cfg :
  enable_ssl cfg = true → (validate cfg = Ret tt ↔ valid_material cfg).
Proof.
  intros Hssl. unfold validate_server_files. rewrite Hssl, !bind_unit, ciphers_ok.
  assert (∀ A B C D : Prop, (A ∧ B ∧ C ∧ D) ↔ ((A ∧ C) ∧ B ∧ D)) as Hswap by tauto.
  rewrite Hswap, tls_range_accepted.
  destruct (empty (cert_path cfg)) eqn:E1; [split; [naive_solver|intros [_ _ [? _]]; congruence]|].
  destruct (empty (key_path cfg)) eqn:E2; [split; [naive_solver|intros [_ _ [_ ?]]; congruence]|].
  rewrite !bind_unit, certificate_file_ok by done. split.
  - intros (Hv & Hc & ((cert & Hcert) & _ & Hk & Hp & Hch & Hca)).
    pose proof (holds_content _ _ Hcert) as Hcc. apply (pair_ok _ _ cert) in Hp; [|done..].
    apply (chain_ok _ _ cert) in Hch; [|done..]. apply key_file_ok in Hk as (Hex & data & key & Ho & Hkey); [|done].
    destruct Hp as (key' & public & Hk' & Hpub & Heq). unfold content in Hk'. rewrite Ho in Hk'. cbn in Hk'.
    split; [done..| |].
    + exists cert, key', public. split_and!; eauto.
    + intros Hr. rewrite Hr in Hca. by apply ca_ok.
  - intros [Hv Hc _ (cert & key & public & Hcert & Hex & (data & Ho & Hkey) & Hpub & Heq & Hch) Hca].
    pose proof (holds_content _ _ Hcert) as Hcc. split_and!; [done|done|by exists cert|by eapply expiration_ok| | | |].
    + apply key_file_ok; [done|]. eauto.
    + apply (pair_ok _ _ cert); [done..|]. exists key, public. unfold content. by rewrite Ho.
    + by apply (chain_ok _ _ cert).
    + destruct (require_client_cert cfg); [|done]. apply ca_ok, Hca. done.
Qed.
End material.

(** ** Reloading *)

Section reload.
Context {X509 EVP_PKEY SSL_CTX : Type}.
Context (exists_file : string → bool) (open_file : string → option bytes).
Context (PEM_read_X509 d2i_X509 : bytes → option X509) (PEM_read_PrivateKey : bytes → option EVP_PKEY).
Context (X509_get_pubkey : X509 → option EVP_PKEY) (EVP_PKEY_eq : EVP_PKEY → EVP_PKEY → bool).
Context (not_yet_valid expired : X509 → bool).
Context (use_certificate_chain_file use_PrivateKey_file load_verify_locations : string → SSL_CTX → option SSL_CTX)
  (check_private_key : SSL_CTX → bool).
Local Abbreviation reload := (httplib_reload_tls_material exists_file open_file PEM_read_X509 d2i_X509 PEM_read_PrivateKey
  X509_get_pubkey EVP_PKEY_eq not_yet_valid expired use_certificate_chain_file use_PrivateKey_file load_verify_locations
  check_private_key).

(** [cpp_httplib_server]'s reload is not all or nothing: a CA file that passes the
    validation but that [SSL_CTX_load_verify_locations] does not take makes it throw
    after the new certificate and key are in use. *)
Theorem failed_reload_changes_context cfg ctx ctx1 ctx2 :
  validate_certificate_key_pair open_file PEM_read_X509 d2i_X509 PEM_read_PrivateKey X509_get_pubkey EVP_PKEY_eq
    (cert_path cfg) (key_path cfg) = Ret tt →
  validate_certificate_file exists_file open_file PEM_read_X509 d2i_X509 not_yet_valid expired (ca_cert_path cfg) = Ret tt →
  require_client_cert cfg = true →
  use_certificate_chain_file (cert_path cfg) ctx = Some ctx1 → use_PrivateKey_file (key_path cfg) ctx1 = Some ctx2 →
  check_private_key ctx2 = true → load_verify_locations (ca_cert_path cfg) ctx2 = None →
  reload cfg ctx = (Throw (ssl_configuration_error "reload_tls_material: new CA cert rejected"), ctx2).
Proof.
  intros Hp Hca Hr H1 H2 Hk H3. unfold httplib_reload_tls_material, ctx_op, mlet, mlift, mget.
  rewrite Hp, Hr, Hca, H1, H2. cbn. rewrite Hk. cbn. by rewrite H3.
Qed.

(** Beast's is: unless it succeeds, the old context stays. *)
Theorem beast_reload_all_or_nothing validate (build : tls_config → outcome SSL_CTX) cfg ctx :
  match beast_reload_tls_material validate build cfg ctx with
  | (Ret _, ctx') => build cfg = Ret ctx'
  | (_, ctx') => ctx' = ctx
  end.
Proof.
  unfold beast_reload_tls_material. destruct (negb (enable_ssl cfg)); [done|].
  unfold mlet, mlift. destruct (validate cfg); [|done..]. by destruct (build cfg).
Qed.
End reload.

(** Files whose first byte says PEM or DER and whose second is the key; a CA in DER. *)
Lemma failed_reload_changes_context_witness :
  let open_file (path : string) : option bytes :=
    if String.eqb path "ca" then Some [x44; x01] else Some [x50; x02] in
  let pem (data : bytes) : option byte := match data with [x50; key] => Some key | _ => None end in
  let der (data : bytes) : option byte := match data with [x44; key] => Some key | _ => None end in
  let load (set : byte → byte * byte → byte * byte) (path : string) (ctx : byte * byte) :=
    match open_file path with Some data => (λ key, set key ctx) <$> pem data | None => None end in
  httplib_reload_tls_material (λ _, true) open_file pem der pem Some Byte.eqb (λ _, false) (λ _, false)
    (load (λ key ctx, (key, ctx.2))) (load (λ key ctx, (ctx.1, key))) (load (λ _ ctx, ctx)) (λ ctx, Byte.eqb ctx.1 ctx.2)
    (mk_tls true "cert" "key" "ca" true EmptyString "TLSv1.2" "TLSv1.3") (x01, x01) =
  (Throw (ssl_configuration_error "reload_tls_material: new CA cert rejected"), (x02, x02)).
Proof. by eapply failed_reload_changes_context. Defined.
