(* ===== verification/HttpServers.v ===== *)
(** How the HTTP servers start and stop, and how connections are shared.

    The life of the three servers ([http_transport_impl.hpp],
    [beast_http_transport_impl.hpp], [proxygen_http_transport_impl.hpp]) with the
    threads they own; [std::terminate] is undefined behaviour here.  The sessions of
    [boost_beast_server] with its drain, and [connect_if_needed] of Proxygen, are
    step relations over the critical sections of the code and the callbacks of the
    library. *)

From S2P Require Import Prelude Types.

(** ** [cpp_httplib_server] *)

Module CppHttplibServer.
(** [thread]: whether [_server_thread] is joinable. *)
Record t : Type := mk { _running : bool; thread : bool }.
Definition init : t := mk false false.

(** Assigning to a [std::thread] and destroying it. *)
Definition assign_thread (s : t) : outcome () * t :=
  if thread s then (Undef "std::terminate", s) else (Ret tt, mk (_running s) true).
Definition destroy_thread (s : t) : outcome () * t :=
  if thread s then (Undef "std::terminate", s) else (Ret tt, s).

Section life.
Context (what : exn → string).

(** [configured]: what [configure_ssl_server] did, where TLS is on. *)
Definition start (configured : option (outcome ())) : M t () :=
  let! s := mget in
  if _running s then mreturn tt else
  do! match configured with
      | Some (Throw e) => mthrow (ssl_configuration_error ("Failed to configure SSL server: " +:+ what e))
      | Some (Undef u) => mundef u
      | _ => mreturn tt
      end in
  do! mmodify (λ s, mk true (thread s)) in
  assign_thread.

(** The thread: [listen] returned [false] or threw. *)
Definition listen_failed : M t () := mmodify (λ s, mk false (thread s)).

Definition stop : M t () :=
  let! s := mget in
  if negb (_running s) then mreturn tt else
  do! mmodify (λ s, mk false (thread s)) in
  mmodify (λ s, mk (_running s) false).

(** The destructor, and that of the member after it. *)
Definition destroy : M t () :=
  do! (let! s := mget in if _running s then stop else mreturn tt) in destroy_thread.
End life.
End CppHttplibServer.

(** ** [proxygen_server] *)

Module ProxygenServer.
Record t : Type := mk {
  _running : bool;
  _start_signaled : bool;
  _start_error : option exn;
  thread : bool
}.
Definition init : t := mk false false None false.

(** What [HTTPServer::start] calls back: [onSuccess], or [onError] with an exception. *)
Definition on_success (s : t) : t := mk true true (_start_error s) (thread s).
Definition on_error (e : exn) (s : t) : t := mk (_running s) true (Some e) (thread s).
Definition callback (result : option exn) (s : t) : t :=
  match result with None => on_success s | Some e => on_error e s end.

(** [start].  The wait ends when [_start_signaled] is set: at the callback, whose
    result is [result], or before it if the flag was set already and the thread is
    [slow].  What is left of the thread is returned. *)
Definition start (result : option exn) (slow : bool) : M t (option (option exn)) :=
  let! s := mget in
  if _running s then mreturn None else
  do! (if thread s then mundef "std::terminate" else mmodify (λ s, mk (_running s) (_start_signaled s) (_start_error s) true)) in
  let early := _start_signaled s && slow in
  do! mmodify (if early then id else callback result) in
  let! s := mget in
  match _start_error s with
  | Some e => do! mmodify (λ s, mk (_running s) false None false) in mthrow e
  | None => mreturn (if early then Some result else None)
  end.

(** [stop], after the drain. *)
Definition stop : M t () :=
  let! s := mget in
  if negb (_running s) then mreturn tt
  else mmodify (λ s, mk false (_start_signaled s) (_start_error s) false).

Definition destroy : M t () :=
  do! stop in
  let! s := mget in
  if thread s then mundef "std::terminate" else mreturn tt.
End ProxygenServer.

(** ** [boost_beast_server] *)

Module BeastServer.
(** The acceptor and the sessions.  [accepting] counts the handlers of [async_accept]
    that found the server running and did not register their session yet. *)
Record t : Type := mk {
  _running : bool;
  acceptor_open : bool;
  _session_closers : gset nat;
  closing : gset nat;
  accepting : nat;
  _next_session_id : nat;
  stopped : bool
}.
Definition init : t := mk false false ∅ ∅ 0 0 false.

(** [start], by what [bind] or [listen] throws.  Opening an acceptor that is open
    throws. *)
Definition start (bound : outcome ()) : M t () :=
  let! s := mget in
  if _running s then mreturn tt else
  do! (if acceptor_open s then mthrow (system_error "already open")
       else mmodify (λ s, mk (_running s) true (_session_closers s) (closing s) (accepting s) (_next_session_id s) (stopped s))) in
  do! mlift bound in
  mmodify (λ s, mk true (acceptor_open s) (_session_closers s) (closing s) (accepting s) (_next_session_id s) false).

(** The handler of [do_accept] up to its test. *)
Definition accept_test (s : t) : t :=
  if _running s
  then mk (_running s) (acceptor_open s) (_session_closers s) (closing s) (S (accepting s)) (_next_session_id s) (stopped s)
  else s.

(** [register_session], from the handler that passed the test. *)
Definition register_session (s : t) : t :=
  mk (_running s) (acceptor_open s) ({[_next_session_id s]} ∪ _session_closers s) (closing s) (pred (accepting s))
    (S (_next_session_id s)) (stopped s).

Definition session_finished (session_id : nat) (s : t) : t :=
  mk (_running s) (acceptor_open s) (_session_closers s ∖ {[session_id]}) (closing s ∖ {[session_id]}) (accepting s)
    (_next_session_id s) (stopped s).

(** [stop] up to the wait: every session that is registered is told to close. *)
Definition stop_begin (s : t) : t :=
  mk false false (_session_closers s) (_session_closers s) (accepting s) (_next_session_id s) (stopped s).

(** The end of the wait. *)
Definition stop_end (s : t) : t :=
  mk (_running s) (acceptor_open s) (_session_closers s) (closing s) (accepting s) (_next_session_id s) true.

(** The threads of a server that was started; [stopping] is the thread in [stop]. *)
Inductive step : t * bool → t * bool → Prop :=
  | step_accept s b : step (s, b) (accept_test s, b)
  | step_register s b : 0 < accepting s → step (s, b) (register_session s, b)
  | step_finish s b i : i ∈ _session_closers s → step (s, b) (session_finished i s, b)
  | step_stop s : _running s = true → step (s, false) (stop_begin s, true)
  | step_drained s : _session_closers s = ∅ → step (s, true) (stop_end s, false).
End BeastServer.

(** ** One connection per node in Proxygen *)

Module ProxygenConnect.
(** A slot of the pool and the requests that wait for it.  [session]: the pointer in
    the slot; [alive]: the sessions that are not destroyed; [usable]: those for which
    [isReusable()] holds; [owner]: the request whose promise the [connect_bridge]
    holds; [settled]: the promises that were fulfilled, with a session or with an
    error. *)
Record t : Type := mk {
  session : option nat;
  connecting : bool;
  waiters : list nat;
  owner : option nat;
  alive : gset nat;
  usable : gset nat;
  settled : list (nat * option nat);
  requested : list nat;
  next_session : nat
}.
Definition init : t := mk None false [] None ∅ ∅ [] [] 0.

Definition connect_if_needed (r : nat) (s : t) : t :=
  let requested := requested s ++ [r] in
  let existing := match session s with Some x => if decide (x ∈ usable s) then Some x else None | None => None end in
  match existing with
  | Some x => mk (session s) (connecting s) (waiters s) (owner s) (alive s) (usable s) (settled s ++ [(r, Some x)])
      requested (next_session s)
  | None =>
      if connecting s
      then mk (session s) true (waiters s ++ [r]) (owner s) (alive s) (usable s) (settled s) requested (next_session s)
      else mk (session s) true (waiters s) (Some r) (alive s) (usable s) (settled s) requested (next_session s)
  end.

(** What the bridge does with the promises: the waiters first, then its own. *)
Definition release (result : option nat) (s : t) : list (nat * option nat) :=
  settled s ++ map (λ r, (r, result)) (waiters s ++ option_list (owner s)).

Definition connectSuccess (s : t) : t :=
  let x := next_session s in
  mk (Some x) false [] None ({[x]} ∪ alive s) ({[x]} ∪ usable s) (release (Some x) s) (requested s) (S x).

Definition connectError (s : t) : t :=
  mk (session s) false [] None (alive s) (usable s) (release None s) (requested s) (next_session s).

(** [session_liveness_tracker::onDestroy] *)
Definition onDestroy (x : nat) (s : t) : t :=
  mk (if decide (session s = Some x) then None else session s) (connecting s) (waiters s) (owner s)
    (alive s ∖ {[x]}) (usable s ∖ {[x]}) (settled s) (requested s) (next_session s).

(** Events on the slot's [EventBase]; a session may stop being reusable at any time
    (it is draining), and is destroyed once. *)
Inductive step : t → t → Prop :=
  | step_request r s : r ∉ requested s → step s (connect_if_needed r s)
  | step_success s : is_Some (owner s) → step s (connectSuccess s)
  | step_error s : is_Some (owner s) → step s (connectError s)
  | step_drain x s : step s (mk (session s) (connecting s) (waiters s) (owner s) (alive s) (usable s ∖ {[x]}) (settled s)
      (requested s) (next_session s))
  | step_destroy x s : x ∈ alive s → step s (onDestroy x s).
End ProxygenConnect.

(** ** A transaction is settled once *)

Module TransactionBridge.
Inductive event : Type :=
  | onHeadersComplete (status : N)
  | onBody (data : bytes)
  | onEOM
  | onError (what : string)
  | detachTransaction.

Record t : Type := mk {
  status_code : N;
  body : bytes;
  _fulfilled : bool;
  promise : list (outcome (N * bytes))
}.
Definition init : t := mk 0 [] false [].

Definition fulfill (result : outcome (N * bytes)) (s : t) : t :=
  if _fulfilled s then s else mk (status_code s) (body s) true (promise s ++ [result]).

Definition handle (s : t) (e : event) : t :=
  match e with
  | onHeadersComplete status => mk status (body s) (_fulfilled s) (promise s)
  | onBody data => mk (status_code s) (body s ++ data) (_fulfilled s) (promise s)
  | onEOM => fulfill (Ret (status_code s, body s)) s
  | onError w => fulfill (Throw (runtime_error w)) s
  | detachTransaction => fulfill (Throw (runtime_error "proxygen transaction detached without completion")) s
  end.
End TransactionBridge.

(** ** Starting and stopping [cpp_httplib_server] *)

Section httplib_life.
Import CppHttplibServer.
Context (what : exn → string).

Inductive command : Type := do_start (configured : option (outcome ())) | do_stop.
Definition execute (c : command) : M t () := match c with do_start configured => start what configured | do_stop => stop end.
Definition configures (c : command) : Prop := ∀ u, c ≠ do_start (Some (Undef u)).

Lemma execute_ok c s :
  configures c → _running s = thread s →
  (∀ u, (execute c s).1 ≠ Undef u) ∧ _running (execute c s).2 = thread (execute c s).2.
Proof.
  intros Hc Hs. destruct s as [[] []]; cbn in Hs; try done; destruct c as [[[[]|e|u]|]|]; cbn; try done; by edestruct Hc.
Qed.

(** While [listen] does not fail, a server is started and stopped any number of times
    and destroyed without harm. *)
Theorem httplib_server_restarts commands :
  Forall configures commands →
  let s := foldl (λ s c, (execute c s).2) init commands in
  (∀ c u, configures c → (execute c s).1 ≠ Undef u) ∧ (destroy s).1 = Ret tt.
Proof.
  intros Hall s. assert (_running s = thread s) as Hs.
  { subst s. assert (_running init = thread init) as Hi by done. revert Hi. generalize init.
    induction Hall as [|c l Hc _ IH]; intros s Hs; cbn [foldl]; [done|]. apply IH. by apply execute_ok. }
  split; [intros c u Hc; by apply execute_ok|]. by destruct s as [[] []].
Qed.

(** After [listen] failed, the thread is still to be joined: starting again ends the
    program, and so does destroying the server. *)
Theorem failed_listen_terminates :
  result_of (let! _ := start what None in let! _ := listen_failed in destroy) init = Undef "std::terminate" ∧
  result_of (let! _ := start what None in let! _ := listen_failed in start what None) init = Undef "std::terminate".
Proof. by split. Qed.
End httplib_life.

Lemma httplib_server_restarts_witness :
  let s := foldl (λ s c, (execute (λ _, EmptyString) c s).2) CppHttplibServer.init [do_start None; do_stop; do_start None] in
  (∀ c u, configures c → (execute (λ _, EmptyString) c s).1 ≠ Undef u) ∧ (CppHttplibServer.destroy s).1 = Ret tt.
Proof. apply httplib_server_restarts. by repeat constructor. Defined.

(** ** Starting [proxygen_server] *)

Section proxygen_life.
Import ProxygenServer.

(** The first start tells the truth. *)
Theorem proxygen_first_start result slow :
  match start result slow init with
  | (Ret None, s) => result = None ∧ _running s = true
  | (Throw e, s) => result = Some e ∧ s = init
  | _ => False
  end.
Proof. by destruct result as [e|], slow. Qed.

(** A later one need not: [_start_signaled] is still set, so [start] may return before
    the server runs.  Then [stop] does nothing, a failure is not reported, and the
    server's destructor ends the program. *)
Theorem proxygen_restart_not_awaited e :
  let again result := let! _ := start None false in let! _ := stop in start result true in
  let '(r, s) := again None init in
  let '(r', s') := again (Some e) init in
  r = Ret (Some None) ∧ _running s = false ∧ result_of stop s = Ret tt ∧
  r' = Ret (Some (Some e)) ∧ result_of destroy (callback (Some e) s') = Undef "std::terminate".
Proof. by cbn. Qed.
End proxygen_life.

(** ** Starting and draining [boost_beast_server] *)

Section beast_life.
Import BeastServer.

(** After a bind that failed no start succeeds. *)
Theorem failed_bind_blocks_start e bound :
  result_of (let! _ := mcatch (start (Throw e)) (λ _, mreturn tt) in start bound) init = Throw (system_error "already open").
Proof. done. Qed.

(** Nothing is left, and no handler is on its way. *)
Definition at_rest (s : t) : Prop := _running s = false ∧ _session_closers s = ∅ ∧ accepting s = 0.

Lemma at_rest_step s b s' : at_rest s.1 → step s (s', b) → at_rest s'.
Proof.
  intros (Hr & Hs & Ha) Hstep. inversion Hstep; subst; cbn in *; unfold accept_test.
  - by rewrite Hr.
  - lia.
  - set_solver.
  - congruence.
  - done.
Qed.

(** Once [stop] has returned while no accept handler was between its test and its
    registration, there is no session and there will be none. *)
Theorem drained_beast_server_is_quiet s s' b :
  _running s = false → accepting s = 0 → step (s, true) (stop_end s, false) → rtc step (stop_end s, false) (s', b) →
  _session_closers s' = ∅ ∧ accepting s' = 0.
Proof.
  intros Hr Ha Hdrained Hsteps. assert (at_rest (stop_end s)) as Hrest.
  { inversion Hdrained; subst. by cbn. }
  assert (∀ x y, rtc step x y → at_rest x.1 → at_rest y.1) as Hkeep.
  { induction 1 as [x|x [y by'] z Hxy _ IH]; [done|]. intros Hx. apply IH. by eapply at_rest_step. }
  by destruct (Hkeep _ _ Hsteps Hrest) as (_ & ? & ?).
Qed.

(** Without that condition a session may be registered after [stop] has returned. *)
Theorem session_after_stop :
  ∃ s, rtc step ((start (Ret tt) init).2, false) (s, false) ∧ stopped s = true ∧ _session_closers s ≠ ∅.
Proof.
  set (s0 := (start (Ret tt) init).2).
  exists (register_session (stop_end (stop_begin (accept_test s0)))). split_and!; [|done|by vm_compute].
  eapply rtc_l; [apply step_accept|]. eapply rtc_l; [by apply step_stop|].
  eapply rtc_l; [by apply step_drained|]. apply rtc_once, step_register. by vm_compute; lia.
Qed.
End beast_life.

Lemma drained_beast_server_is_quiet_witness :
  BeastServer._session_closers (BeastServer.accept_test (BeastServer.stop_end (BeastServer.stop_begin
    (BeastServer.start (Ret tt) BeastServer.init).2))) = ∅ ∧
  BeastServer.accepting (BeastServer.accept_test (BeastServer.stop_end (BeastServer.stop_begin
    (BeastServer.start (Ret tt) BeastServer.init).2))) = 0.
Proof.
  apply (drained_beast_server_is_quiet (BeastServer.stop_begin (BeastServer.start (Ret tt) BeastServer.init).2) _ false);
    [done|done|by apply BeastServer.step_drained|apply rtc_once, BeastServer.step_accept].
Defined.

(** ** One connect at a time *)

Section connect.
Import ProxygenConnect.

(** The requests that wait for the connect that is under way. *)
Definition waiting (s : t) : list nat := waiters s ++ option_list (owner s).

Record connect_ok (s : t) : Prop := {
  one_connect : connecting s = true ↔ is_Some (owner s);
  nobody_forgotten : connecting s = false → waiters s = [];
  each_once : (settled s).*1 ++ waiting s ≡ₚ requested s;
  requests_distinct : NoDup (requested s);
  slot_alive x : session s = Some x → x ∈ alive s;
  usable_alive : usable s ⊆ alive s;
  sessions_known x : x ∈ alive s → x < next_session s
}.

Lemma release_first result s : (release result s).*1 = (settled s).*1 ++ waiting s.
Proof. unfold release, waiting. rewrite fmap_app. f_equal. induction (waiters s ++ _) as [|r l IH]; cbn; [done|by f_equal]. Qed.

Lemma request_ok r s : connect_ok s → r ∉ requested s → connect_ok (connect_if_needed r s).
Proof.
  intros [H1 H2 H3 H4 H5 H6 H7] Hr. unfold connect_if_needed.
  assert (NoDup (requested s ++ [r])) as Hnd by (apply NoDup_app; split_and!; [done|set_solver|apply NoDup_singleton]).
  destruct (match session s with Some x => _ | None => _ end) as [x|].
  - split; cbn; try done. rewrite fmap_app, <- H3. cbn. rewrite <- !app_assoc. f_equiv. by rewrite Permutation_app_comm.
  - destruct (connecting s) eqn:Ec.
    + split; cbn; try done. unfold waiting in *. cbn. rewrite <- H3, <- !app_assoc. f_equiv. f_equiv.
      by rewrite Permutation_app_comm.
    + assert (owner s = None) as Eo.
      { apply eq_None_not_Some. intros Ho. apply H1 in Ho. congruence. }
      split; cbn; try done. unfold waiting in *. cbn. rewrite Eo in H3.
      rewrite <- H3. cbn. rewrite app_nil_r. by rewrite app_assoc.
Qed.

Lemma connect_step_ok s s' : connect_ok s → step s s' → connect_ok s'.
Proof.
  intros Hok Hstep. destruct Hstep as [r s Hr|s Ho|s Ho|x s|x s Hx].
  - by apply request_ok.
  - destruct Hok as [H1 H2 H3 H4 H5 H6 H7]. split; cbn; try done.
    + by rewrite release_first, app_nil_r.
    + intros x [= <-]. set_solver.
    + set_solver.
    + intros x [->%elem_of_singleton|Hx]%elem_of_union; [lia|]. apply H7 in Hx. lia.
  - destruct Hok as [H1 H2 H3 H4 H5 H6 H7]. split; cbn; try done.
    by rewrite release_first, app_nil_r.
  - destruct Hok as [H1 H2 H3 H4 H5 H6 H7]. split; cbn; try done. set_solver.
  - destruct Hok as [H1 H2 H3 H4 H5 H6 H7]. split; cbn; try done.
    + intros y. case_decide as Hd; [done|]. intros Hy. apply elem_of_difference. split; [by apply H5|]. set_solver.
    + set_solver.
    + intros y Hy. apply H7. set_solver.
Qed.

(** At any time one connect at most is under way; every request that was made was
    settled once or waits for that connect; the slot refers to a session that was not
    destroyed. *)
Theorem connects_collapse s :
  rtc step init s →
  (connecting s = true ↔ is_Some (owner s)) ∧ (connecting s = false → waiting s = []) ∧
  NoDup ((settled s).*1 ++ waiting s) ∧ (∀ r, r ∈ requested s ↔ r ∈ (settled s).*1 ++ waiting s) ∧
  (∀ x, session s = Some x → x ∈ alive s).
Proof.
  intros Hreach. assert (connect_ok s) as Hok.
  { assert (connect_ok init) as Hi by (split; cbn; first [done|apply NoDup_nil_2|set_solver]).
    induction Hreach as [|x y z Hxy _ IH]; [done|]. by apply IH, (connect_step_ok x). }
  destruct Hok as [H1 H2 H3 H4 H5 _ _]. split_and!; try done.
  - intros Hc. unfold waiting. rewrite (H2 Hc). destruct (owner s); [|done]. by rewrite (proj2 H1) in Hc.
  - by rewrite H3.
  - intros r. by rewrite H3.
Qed.
End connect.

(** ** A transaction is settled once, by the first event that ends it *)

Section transaction.
Import TransactionBridge.

Fixpoint outcome_by (status : N) (data : bytes) (events : list event) : option (outcome (N * bytes)) :=
  match events with
  | [] => None
  | onHeadersComplete status :: events => outcome_by status data events
  | onBody more :: events => outcome_by status (data ++ more) events
  | onEOM :: _ => Some (Ret (status, data))
  | onError w :: _ => Some (Throw (runtime_error w))
  | detachTransaction :: _ => Some (Throw (runtime_error "proxygen transaction detached without completion"))
  end.

Lemma settled_stays events s : _fulfilled s = true → promise (foldl handle s events) = promise s.
Proof.
  revert s. induction events as [|e events IH]; intros s Hf; cbn [foldl]; [done|].
  rewrite IH; destruct e; cbn; unfold fulfill; by rewrite ?Hf.
Qed.

(** Whatever callbacks come, in whatever order, the promise is settled at most once,
    with the status and the body received up to the first event that ends the
    transaction. *)
Theorem transaction_settled_once events :
  promise (foldl handle init events) = option_list (outcome_by 0 [] events).
Proof.
  assert (∀ status data, promise (foldl handle (mk status data false []) events) = option_list (outcome_by status data events))
    as H; [|apply H].
  induction events as [|e events IH]; intros status data; cbn [foldl outcome_by]; [done|].
  destruct e; cbn [handle]; try apply IH; unfold fulfill; cbn; by rewrite settled_stays.
Qed.
End transaction.
