(* ===== verification/AsyncScope.v ===== *)
(** The drain barrier for asynchronous continuations ([include/raft/async_scope.hpp]).

    A continuation runs under a ticket; [close_and_drain] refuses new tickets and
    waits for those that are out.  Every critical section of the scope's mutex is one
    definition, the threads interleave as a step relation, and the condition variable
    may wake a waiting thread at any time, which includes notifications, spurious
    wake-ups and the ends of the time slices. *)

From S2P Require Import Prelude Types.

Record async_scope : Type := mk_scope { _in_flight : N; _closed : bool }.

(** The handles of type [ticket]: [true] while it refers to the scope, [false] after
    it was moved from. *)
Record scope_world : Type := mk_scope_world { scope : async_scope; tickets : gmap nat bool }.

Definition scope_init : scope_world := mk_scope_world (mk_scope 0 false) ∅.

(** ** The scope *)

(** [enter]: whether a ticket is given. *)
Definition enter : M async_scope bool := λ s,
  if _closed s then (Ret false, s) else (Ret true, mk_scope (_in_flight s ⊕ 1) (_closed s)).

(** [leave]: whether the waiting threads are notified. *)
Definition leave : M async_scope bool := λ s,
  let n := _in_flight s ⊖ 1 in (Ret (n =? 0)%N, mk_scope n (_closed s)).

(** ** Tickets *)

(** [ticket::release] of a handle's value. *)
Definition release (live : bool) (s : async_scope) : async_scope := if live then (leave s).2 else s.

(** The handle [i] is where [enter] puts the ticket it gives. *)
Definition enter_ticket (i : nat) (w : scope_world) : scope_world :=
  let '(given, s) := enter (scope w) in
  mk_scope_world s (match given with Ret true => <[i := true]> (tickets w) | _ => tickets w end).

(** The move constructor: [j] is made from [i]. *)
Definition move_ticket (i j : nat) (w : scope_world) : scope_world :=
  match tickets w !! i with
  | Some live => mk_scope_world (scope w) (<[j := live]> (<[i := false]> (tickets w)))
  | None => w
  end.

(** The move assignment [j = std::move(i)]. *)
Definition assign_ticket (i j : nat) (w : scope_world) : scope_world :=
  if bool_decide (i = j) then w
  else
    match tickets w !! i, tickets w !! j with
    | Some live, Some old => mk_scope_world (release old (scope w)) (<[j := live]> (<[i := false]> (tickets w)))
    | _, _ => w
    end.

Definition destroy_ticket (i : nat) (w : scope_world) : scope_world :=
  match tickets w !! i with
  | Some live => mk_scope_world (release live (scope w)) (delete i (tickets w))
  | None => w
  end.

(** ** close_and_drain *)

Inductive drainer : Type :=
  | not_draining
  | waiting (reported_slow : bool)
  | reporting
  | drained.

(** The test of the loop, with the mutex held. *)
Definition test_drained (reported : bool) (s : async_scope) : drainer :=
  if (_in_flight s =? 0)%N then drained else waiting reported.

Definition close (s : async_scope) : async_scope := mk_scope (_in_flight s) true.

(** The end of a wait: the predicate holds, or the slice is over and the caller's
    callback is called once, without the mutex. *)
Definition wake (has_callback reported : bool) (s : async_scope) : drainer :=
  if (_in_flight s =? 0)%N then drained
  else if negb reported && has_callback then reporting else waiting reported.

(** ** Threads *)

Record system : Type := mk_system { world : scope_world; drainers : list drainer }.

(** The number of handles that hold a ticket. *)
Definition live (ts : gmap nat bool) : nat := size (filter (λ kv : nat * bool, kv.2 = true) ts).

(** A process has room for fewer than 2{^64} tickets. *)
Definition has_room (w : scope_world) : Prop := (N.of_nat (live (tickets w)) < u64_modulus - 1)%N.

Inductive scope_step : system → system → Prop :=
  | step_enter w ds i :
      tickets w !! i = None → has_room w → scope_step (mk_system w ds) (mk_system (enter_ticket i w) ds)
  | step_move w ds i j :
      tickets w !! j = None → i ≠ j → scope_step (mk_system w ds) (mk_system (move_ticket i j w) ds)
  | step_assign w ds i j : scope_step (mk_system w ds) (mk_system (assign_ticket i j w) ds)
  | step_destroy w ds i : scope_step (mk_system w ds) (mk_system (destroy_ticket i w) ds)
  | step_close w ds d :
      ds !! d = Some not_draining →
      scope_step (mk_system w ds)
        (mk_system (mk_scope_world (close (scope w)) (tickets w)) (<[d := test_drained false (close (scope w))]> ds))
  | step_wake w ds d reported has_callback :
      ds !! d = Some (waiting reported) →
      scope_step (mk_system w ds) (mk_system w (<[d := wake has_callback reported (scope w)]> ds))
  | step_reported w ds d :
      ds !! d = Some reporting →
      scope_step (mk_system w ds) (mk_system w (<[d := test_drained true (scope w)]> ds)).

(** ** The invariant *)

Record scope_ok (s : system) : Prop := {
  count_exact : _in_flight (scope (world s)) = N.of_nat (live (tickets (world s)));
  count_fits : (N.of_nat (live (tickets (world s))) < u64_modulus)%N;
  draining_closed : ∀ d, d ∈ drainers s → d ≠ not_draining → _closed (scope (world s)) = true;
  drained_empty : drained ∈ drainers s → live (tickets (world s)) = 0
}.

Lemma live_insert i (b : bool) (ts : gmap nat bool) :
  ts !! i = None → live (<[i := b]> ts) = (if b then 1 else 0) + live ts.
Proof.
  intros Hi. unfold live. destruct b.
  - rewrite map_filter_insert_True by done. rewrite map_size_insert_None; [done|].
    apply map_lookup_filter_None. by left.
  - rewrite map_filter_insert_not'; [done|done|]. intros y Hy. congruence.
Qed.

Lemma live_delete i (b : bool) (ts : gmap nat bool) :
  ts !! i = Some b → live ts = (if b then 1 else 0) + live (delete i ts).
Proof.
  intros Hi. rewrite <- (live_insert i b (delete i ts)) by apply lookup_delete_eq.
  by rewrite insert_delete_id.
Qed.

(** What the operations on handles do to the number of tickets out. *)
Lemma release_count (b : bool) s n ts :
  _in_flight s = N.of_nat n → (N.of_nat n < u64_modulus)%N → n = (if b then 1 else 0) + live ts →
  _in_flight (release b s) = N.of_nat (live ts) ∧ _closed (release b s) = _closed s.
Proof.
  intros Hs Hn E. destruct b; cbn [release leave snd _in_flight _closed]; split; try done; [|rewrite Hs; lia].
  rewrite u64_sub_small by (unfold is_u64, u64_modulus in *; lia). lia.
Qed.

Lemma live_move i j (b : bool) (ts : gmap nat bool) :
  ts !! i = Some b → ts !! j = None → i ≠ j → live (<[j := b]> (<[i := false]> ts)) = live ts.
Proof.
  intros Hi Hj Hne. rewrite live_insert by (by rewrite lookup_insert_ne).
  rewrite <- insert_delete_eq, live_insert by apply lookup_delete_eq. by rewrite (live_delete i b ts Hi).
Qed.

Lemma live_assign i j (b old : bool) (ts : gmap nat bool) :
  ts !! i = Some b → ts !! j = Some old → i ≠ j →
  live ts = (if old then 1 else 0) + live (<[j := b]> (<[i := false]> ts)).
Proof.
  intros Hi Hj Hne. rewrite <- (insert_delete_eq (<[i := false]> ts) j), live_insert by apply lookup_delete_eq.
  rewrite delete_insert_ne by done. rewrite <- (insert_delete_eq (delete j ts) i), live_insert by apply lookup_delete_eq.
  rewrite (live_delete j old ts Hj), (live_delete i b (delete j ts)) by (by rewrite lookup_delete_ne). lia.
Qed.

(** An operation on handles keeps the count exact, never opens the scope, and gives
    no ticket when the scope is closed. *)
Definition tickets_step (w w' : scope_world) : Prop :=
  _in_flight (scope w) = N.of_nat (live (tickets w)) → (N.of_nat (live (tickets w)) < u64_modulus)%N →
  _in_flight (scope w') = N.of_nat (live (tickets w')) ∧ (N.of_nat (live (tickets w')) < u64_modulus)%N ∧
  _closed (scope w') = _closed (scope w) ∧
  (_closed (scope w) = true → live (tickets w') ≤ live (tickets w)).

Lemma enter_tickets i w : tickets w !! i = None → has_room w → tickets_step w (enter_ticket i w).
Proof.
  intros Hi Hroom Hc Hf. unfold enter_ticket, enter. destruct (_closed (scope w)) eqn:Ec; cbn.
  - split_and!; try done.
  - rewrite live_insert by done. unfold has_room in Hroom.
    rewrite Hc, u64_add_small by (unfold is_u64, u64_modulus in *; lia). split_and!; (done || lia).
Qed.

Lemma move_tickets i j w : tickets w !! j = None → i ≠ j → tickets_step w (move_ticket i j w).
Proof.
  intros Hj Hne Hc Hf. unfold move_ticket. destruct (tickets w !! i) as [b|] eqn:Hi; [|done]. cbn.
  by rewrite live_move.
Qed.

Lemma assign_tickets i j w : tickets_step w (assign_ticket i j w).
Proof.
  intros Hc Hf. unfold assign_ticket. case_bool_decide as Hne; [done|].
  destruct (tickets w !! i) as [b|] eqn:Hi; [|done]. destruct (tickets w !! j) as [old|] eqn:Hj; [|done]. cbn.
  pose proof (live_assign i j b old _ Hi Hj Hne) as Hl. destruct (release_count old _ _ _ Hc Hf Hl) as [-> ->].
  split_and!; (done || lia).
Qed.

Lemma destroy_tickets i w : tickets_step w (destroy_ticket i w).
Proof.
  intros Hc Hf. unfold destroy_ticket. destruct (tickets w !! i) as [b|] eqn:Hi; [|done]. cbn.
  pose proof (live_delete i b _ Hi) as Hl. destruct (release_count b _ _ _ Hc Hf Hl) as [-> ->].
  split_and!; (done || lia).
Qed.

Lemma tickets_step_ok w w' ds : tickets_step w w' → scope_ok (mk_system w ds) → scope_ok (mk_system w' ds).
Proof.
  intros Hstep [Hc Hf Hd He]. cbn in *. destruct (Hstep Hc Hf) as (Hc' & Hf' & Hcl & Hle). constructor; cbn; try done.
  - intros d. rewrite Hcl. apply Hd.
  - intros Hin. specialize (He Hin). specialize (Hd _ Hin ltac:(done)). specialize (Hle Hd). lia.
Qed.

(** A drainer that changes: what it became is right for the scope. *)
Lemma drainer_ok w ds d x x' :
  ds !! d = Some x → _closed (scope w) = true → (x' = drained → _in_flight (scope w) = 0%N) →
  scope_ok (mk_system w ds) → scope_ok (mk_system w (<[d := x']> ds)).
Proof.
  intros Hd Hcl Hx [Hc Hf Hcl' He]. cbn in *. constructor; cbn; try done.
  intros Hin. apply list_elem_of_lookup in Hin as [k Hk]. destruct (decide (k = d)) as [->|Hne].
  - rewrite list_lookup_insert_eq in Hk by (by eapply lookup_lt_Some). injection Hk as ->. specialize (Hx eq_refl). lia.
  - rewrite list_lookup_insert_ne in Hk by done. apply He. by eapply list_elem_of_lookup_2.
Qed.

Lemma scope_step_ok s s' : scope_step s s' → scope_ok s → scope_ok s'.
Proof.
  intros Hstep Hok. destruct Hstep as [w ds i Hi Hr|w ds i j Hj Hne|w ds i j|w ds i|w ds d Hd|w ds d rep cb Hd|w ds d Hd].
  - eapply tickets_step_ok; [by apply enter_tickets|done].
  - eapply tickets_step_ok; [by apply move_tickets|done].
  - eapply tickets_step_ok; [by apply assign_tickets|done].
  - eapply tickets_step_ok; [by apply destroy_tickets|done].
  - apply (drainer_ok _ _ _ _ _ Hd); [done| |].
    + unfold test_drained. by destruct (N.eqb_spec (_in_flight (close (scope w))) 0).
    + destruct Hok as [Hc Hf Hcl He]. by constructor.
  - assert (_closed (scope w) = true) as Hcl.
    { apply (draining_closed _ Hok (waiting rep)); [by eapply list_elem_of_lookup_2|done]. }
    apply (drainer_ok _ _ _ _ _ Hd); [done| |done].
    unfold wake. destruct (N.eqb_spec (_in_flight (scope w)) 0); [done|]. by destruct (negb rep && cb).
  - assert (_closed (scope w) = true) as Hcl.
    { apply (draining_closed _ Hok reporting); [by eapply list_elem_of_lookup_2|done]. }
    apply (drainer_ok _ _ _ _ _ Hd); [done| |done].
    unfold test_drained. by destruct (N.eqb_spec (_in_flight (scope w)) 0).
Qed.

Definition system_init (n : nat) : system := mk_system scope_init (replicate n not_draining).

Lemma reachable_ok n s : rtc scope_step (system_init n) s → scope_ok s.
Proof.
  intros Hr. assert (scope_ok (system_init n)) as H0.
  { constructor; cbn; [done|done| |]; intros; exfalso.
    - match goal with H : _ ∈ _ |- _ => apply elem_of_replicate in H as [-> _]; done end.
    - match goal with H : _ ∈ _ |- _ => by apply elem_of_replicate in H as [[=] _] end. }
  induction Hr as [|x y z Hxy _ IH]; [done|]. by apply IH, (scope_step_ok x).
Qed.

Lemma drained_stays s s' d : scope_step s s' → drainers s !! d = Some drained → drainers s' !! d = Some drained.
Proof.
  intros Hstep Hd. destruct Hstep; cbn in *; try done;
    (rewrite list_lookup_insert_ne; [done|]; intros ->; congruence).
Qed.

(** C22. Once a drain has returned the owner may be destroyed: in every execution, by
    any number of threads that take, move and drop tickets and drain the scope, after
    a call of [close_and_drain] returned no handle holds a ticket, and none ever will. *)
Theorem drained_scope_is_quiet n s s' d :
  rtc scope_step (system_init n) s → drainers s !! d = Some drained → rtc scope_step s s' →
  live (tickets (world s')) = 0 ∧ _in_flight (scope (world s')) = 0%N.
Proof.
  intros Hr Hd Hs. assert (drainers s' !! d = Some drained) as Hd'.
  { clear Hr. induction Hs; [done|]. eauto using drained_stays. }
  assert (scope_ok s') as Hok by (by apply (reachable_ok n), (rtc_trans _ s)).
  pose proof (drained_empty _ Hok (list_elem_of_lookup_2 _ _ _ Hd')) as E. split; [done|].
  by rewrite (count_exact _ Hok), E.
Qed.


Lemma drained_scope_is_quiet_witness :
  let w := enter_ticket 1 (mk_scope_world (mk_scope 0 true) ∅) in live (tickets w) = 0 ∧ _in_flight (scope w) = 0%N.
Proof.
  apply (drained_scope_is_quiet 1 (mk_system (mk_scope_world (mk_scope 0 true) ∅) [drained])
    (mk_system (enter_ticket 1 (mk_scope_world (mk_scope 0 true) ∅)) [drained]) 0).
  - eapply rtc_l; [by apply (step_enter _ _ 0)|].
    eapply rtc_l; [by apply (step_close _ _ 0)|].
    eapply rtc_l; [by apply (step_destroy _ _ 0)|].
    eapply rtc_l; [by apply (step_wake _ _ 0 false true)|]. apply rtc_refl.
  - done.
  - apply rtc_once. by apply (step_enter _ _ 1).
Defined.

(** ** Progress *)

Lemma closed_shrinks s s' :
  scope_ok s → _closed (scope (world s)) = true → rtc scope_step s s' →
  scope_ok s' ∧ _closed (scope (world s')) = true ∧ live (tickets (world s')) ≤ live (tickets (world s)).
Proof.
  intros Hok Hcl Hr. induction Hr as [|s s1 s' Hstep _ IH]; [done|].
  assert (_closed (scope (world s1)) = true ∧ live (tickets (world s1)) ≤ live (tickets (world s))) as [Hcl1 Hle].
  { pose proof (count_exact _ Hok) as Hc. pose proof (count_fits _ Hok) as Hf.
    destruct Hstep as [w ds i Hi Hroom|w ds i j Hj Hne|w ds i j|w ds i|w ds d Hd|w ds d rep cb Hd|w ds d Hd]; try done;
      cbn [world] in *; [destruct (enter_tickets i w Hi Hroom Hc Hf) as (_ & _ & -> & ?)
        |destruct (move_tickets i j w Hj Hne Hc Hf) as (_ & _ & -> & ?)
        |destruct (assign_tickets i j w Hc Hf) as (_ & _ & -> & ?)
        |destruct (destroy_tickets i w Hc Hf) as (_ & _ & -> & ?)]; auto. }
  destruct IH as (? & ? & ?); [by eapply scope_step_ok|done|]. split_and!; [done|done|lia].
Qed.

Lemma some_live ts : 0 < live ts → ∃ i, ts !! i = Some true.
Proof.
  intros H. unfold live in H. destruct (map_choose (filter (λ kv : nat * bool, kv.2 = true) ts)) as (i & b & Hi).
  { intros E. rewrite E, map_size_empty in H. lia. }
  apply map_lookup_filter_Some in Hi as [Hi Hb]. cbn in Hb. subst b. by exists i.
Qed.

(** Dropping the tickets one after the other leaves none. *)
Lemma tickets_can_be_dropped w ds :
  ∃ w', rtc scope_step (mk_system w ds) (mk_system w' ds) ∧ live (tickets w') = 0.
Proof.
  remember (live (tickets w)) as n eqn:En. revert w En. induction n as [|n IH]; intros w En; [by exists w|].
  destruct (some_live (tickets w)) as [i Hi]; [lia|].
  destruct (IH (destroy_ticket i w)) as (w' & Hr & Hw').
  { unfold destroy_ticket. rewrite Hi. cbn. rewrite (live_delete i true _ Hi) in En. cbn in En. lia. }
  exists w'. split; [|done]. eapply rtc_l; [apply step_destroy|done].
Qed.

(** A drain in progress waits for nothing but the tickets that are out: their number
    only falls, when it is zero every step of the drain ends it, and the threads
    that hold them can always get there. *)
Theorem drain_completes n s d x :
  rtc scope_step (system_init n) s → drainers s !! d = Some x → x ≠ not_draining →
  (∀ s', rtc scope_step s s' → live (tickets (world s')) ≤ live (tickets (world s)) ∧
     (live (tickets (world s')) = 0 → ∀ s'', scope_step s' s'' →
        drainers s'' !! d = drainers s' !! d ∨ drainers s'' !! d = Some drained)) ∧
  ∃ s', rtc scope_step s s' ∧ drainers s' !! d = Some drained.
Proof.
  intros Hr Hd Hx. pose proof (reachable_ok n s Hr) as Hok.
  pose proof (draining_closed _ Hok x (list_elem_of_lookup_2 _ _ _ Hd) Hx) as Hcl. split.
  - intros s' Hs'. destruct (closed_shrinks s s' Hok Hcl Hs') as (Hok' & Hcl' & Hle). split; [done|].
    intros H0 s'' Hstep. pose proof (count_exact _ Hok') as Hc. rewrite H0 in Hc.
    destruct Hstep as [w ds i Hi Hroom|w ds i j Hj Hne|w ds i j|w ds i|w ds k Hk|w ds k rep cb Hk|w ds k Hk]; try (by left);
      cbn in *; (destruct (decide (k = d)) as [->|]; [right|left; by rewrite list_lookup_insert_ne]);
      (rewrite list_lookup_insert_eq by (by eapply lookup_lt_Some)); unfold test_drained, wake, close; cbn; by rewrite Hc.
  - destruct s as [w ds]. cbn in *. destruct (tickets_can_be_dropped w ds) as (w' & Hw & H0).
    destruct (closed_shrinks _ _ Hok Hcl Hw) as (Hok' & _ & _).
    pose proof (count_exact _ Hok') as Hc. cbn in Hc. rewrite H0 in Hc.
    destruct x as [|rep| |]; [done|..].
    + eexists. split; [eapply rtc_r; [exact Hw|by apply (step_wake _ _ d rep true)]|]. cbn.
      rewrite list_lookup_insert_eq by (by eapply lookup_lt_Some). unfold wake. by rewrite Hc.
    + eexists. split; [eapply rtc_r; [exact Hw|by apply (step_reported _ _ d)]|]. cbn.
      rewrite list_lookup_insert_eq by (by eapply lookup_lt_Some). unfold test_drained. by rewrite Hc.
    + exists (mk_system w ds). split; [apply rtc_refl|done].
Qed.

Lemma drain_completes_witness :
  let s := mk_system (mk_scope_world (mk_scope 1 true) {[0 := true]}) [waiting false] in
  ∃ s', rtc scope_step s s' ∧ drainers s' !! 0 = Some drained.
Proof.
  refine (proj2 (drain_completes 1 (mk_system (mk_scope_world (mk_scope 1 true) {[0 := true]}) [waiting false])
    0 (waiting false) _ eq_refl _)).
  - eapply rtc_l; [by apply (step_enter _ _ 0)|].
    eapply rtc_l; [by apply (step_close _ _ 0)|]. apply rtc_refl.
  - done.
Defined.
