(* ===== verification/Gossip.v ===== *)
(** Peer-to-peer replicators ([include/raft/peer2peer_replication.hpp]) and the gossip
    transport that implements one ([include/raft/tcp_gossip_transport.hpp]).

    A replicator tells a lagging node which peer may have the entries it misses.  The
    gossip transport keeps a table of digests, one for each node it has heard of, and
    exchanges it with random peers.  Clocks are an argument; the order in which a hash
    map is walked, and the random choice of peers, are parameters. *)

From S2P Require Import Prelude Types ConfigEntry JsonSerializer FilePersistence Machines CoapMessages.

(** ** The interface: the concept [peer2peer_replicator] *)

Class Peer2peerReplicator (R : Type) : Type := {
  advertise_progress : N → string → N → N → Z → R → R;
  find_catch_up_source : N → Z → R → option peer_info;
  update_membership : list N → R → R
}.

(** What the node relies on: only current members are offered, and the membership is
    what [update_membership] last said. *)
Class Peer2peerLaws (R : Type) `{!Peer2peerReplicator R} : Type := {
  is_member : R → N → Prop;
  found_is_member r from now p : find_catch_up_source from now r = Some p → is_member r (pi_node_id p);
  membership_updated r ids id : is_member (update_membership ids r) id → id ∈ ids;
  advertising_keeps_members r self addr term last now id :
    is_member (advertise_progress self addr term last now r) id → is_member r id
}.

(** *** no_op_peer2peer_replicator *)

Module no_op_replicator.
#[export] Instance no_op : Peer2peerReplicator () := {|
  advertise_progress _ _ _ _ _ r := r;
  find_catch_up_source _ _ _ := None;
  update_membership _ r := r
|}.

#[export] Instance no_op_laws : Peer2peerLaws ().
Proof. by refine {| is_member _ _ := False |}. Defined.
End no_op_replicator.

(** *** static_peer2peer_replicator: a table that the nodes of a test share *)

Module static_replicator.
Record progress_digest : Type := mk_progress { address : string; term : N; last_log_index : N }.

Record replicator : Type := mk_static { _table : gmap N progress_digest; _member_ids : gset N }.

Section order.
Context (walk : gmap N progress_digest → list (N * progress_digest)).

Definition advertise (self_id : N) (self_address : string) (t last : N) (r : replicator) : replicator :=
  mk_static (<[self_id := mk_progress self_address t last]> (_table r)) (_member_ids r).

Fixpoint first_offer (from_index : N) (members : gset N) (l : list (N * progress_digest)) : option peer_info :=
  match l with
  | [] => None
  | (id, digest) :: l =>
      if negb (bool_decide (id ∈ members)) then first_offer from_index members l
      else if (from_index <=? last_log_index digest)%N then Some (mk_peer id (address digest))
      else first_offer from_index members l
  end.

Definition find_source (from_index : N) (r : replicator) : option peer_info :=
  first_offer from_index (_member_ids r) (walk (_table r)).

Definition set_members (ids : list N) (r : replicator) : replicator :=
  mk_static (_table r) (list_to_set ids).

#[export] Instance static : Peer2peerReplicator replicator := {|
  advertise_progress self addr t last _ r := advertise self addr t last r;
  find_catch_up_source from _ r := find_source from r;
  update_membership ids r := set_members ids r
|}.

Lemma first_offer_member from members l p : first_offer from members l = Some p → pi_node_id p ∈ members.
Proof.
  induction l as [|[id digest] l IH]; [done|]. cbn. case_bool_decide; cbn; [|done].
  destruct (from <=? last_log_index digest)%N; [|done]. by intros [= <-].
Qed.

#[export] Instance static_laws : Peer2peerLaws replicator.
Proof.
  refine {| is_member r id := id ∈ _member_ids r |}; cbn; [|set_solver|done].
  intros r from now p. apply first_offer_member.
Defined.
End order.
End static_replicator.

(** ** Digests and their encoding *)

Record gossip_digest : Type := mk_digest {
  d_node_id : N; d_address : string; d_term : N; d_last_log_index : N; d_fresh_until : Z
}.

Record gossip_exchange_message : Type := mk_gossip { sender_node_id : N; digests : list gossip_digest }.

(** [static_cast<std::int64_t>] of a [std::uint64_t]. *)
Definition i64_of_u64 (n : N) : Z := if (n <? 2 ^ 63)%N then Z.of_N n else (Z.of_N n - 2 ^ 64)%Z.

Definition node_id_to_json (id : N) : json := jint64 (i64_of_u64 id).
Definition node_id_from_json (v : json) : outcome N := let? z := as_int64 v in Ret (u64_of_Z z).

(** [obj.at(k)] *)
Definition at_key (obj : list (string * json)) (k : string) : outcome json :=
  match json_lookup obj k with Some v => Ret v | None => Throw (out_of_range k) end.

Definition digest_to_json (d : gossip_digest) : json :=
  jobject [("node_id", node_id_to_json (d_node_id d)); ("address", jstring (d_address d));
           ("term", juint64 (d_term d)); ("last_log_index", jint64 (i64_of_u64 (d_last_log_index d)));
           ("fresh_until", jint64 (d_fresh_until d))].

Definition gossip_to_json (msg : gossip_exchange_message) : json :=
  jobject [("sender_node_id", node_id_to_json (sender_node_id msg));
           ("digests", jarray (map digest_to_json (digests msg)))].

Definition digest_of_json (dv : json) : outcome gossip_digest :=
  let? dobj := as_object dv in
  let? id := (let? v := at_key dobj "node_id" in node_id_from_json v) in
  let? address := (let? v := at_key dobj "address" in as_string v) in
  let? term := (let? v := at_key dobj "term" in let? z := as_int64 v in Ret (u64_of_Z z)) in
  let? last := (let? v := at_key dobj "last_log_index" in let? z := as_int64 v in Ret (u64_of_Z z)) in
  let? fresh_until := (let? v := at_key dobj "fresh_until" in as_int64 v) in
  Ret (mk_digest id address term last fresh_until).

Fixpoint digests_of_json (l : list json) : outcome (list gossip_digest) :=
  match l with
  | [] => Ret []
  | dv :: l => let? d := digest_of_json dv in let? ds := digests_of_json l in Ret (d :: ds)
  end.

Definition gossip_of_json (parsed : json) : outcome gossip_exchange_message :=
  let? obj := as_object parsed in
  let? sender := (let? v := at_key obj "sender_node_id" in node_id_from_json v) in
  let? ds := (let? v := at_key obj "digests" in let? l := as_array v in digests_of_json l) in
  Ret (mk_gossip sender ds).

Section codec.
Context {JL : JsonLib}.

Definition encode_gossip_message (msg : gossip_exchange_message) : bytes := json_serialize (gossip_to_json msg).

Definition decode_gossip_message (json_str : bytes) : outcome gossip_exchange_message :=
  let? parsed := json_parse json_str in gossip_of_json parsed.
End codec.

(** ** The gossip replicator *)

Record tcp_gossip_config : Type := mk_gossip_config {
  address_book : list peer_info; fanout : nat; freshness_interval : Z
}.

Abbreviation gossip_table := (gmap N gossip_digest).

Record gossip : Type := mk_gossip_state {
  _self_id : option N; _table : gossip_table; _active_members : gset N
}.

(** [std::tie(d.term, d.last_log_index) > std::tie(e.term, e.last_log_index)] *)
Definition newer (d e : gossip_digest) : bool :=
  (d_term e <? d_term d)%N ||
  ((d_term e =? d_term d)%N && (d_last_log_index e <? d_last_log_index d)%N).

Definition merge_digest (table : gossip_table) (d : gossip_digest) : gossip_table :=
  match table !! d_node_id d with
  | None => <[d_node_id d := d]> table
  | Some e => if newer d e then <[d_node_id d := d]> table else table
  end.

Definition merge_table (incoming : list gossip_digest) (table : gossip_table) : gossip_table :=
  foldl merge_digest table incoming.

Definition merge (incoming : list gossip_digest) (g : gossip) : gossip :=
  mk_gossip_state (_self_id g) (merge_table incoming (_table g)) (_active_members g).

Definition prune_expired (now : Z) (g : gossip) : gossip :=
  mk_gossip_state (_self_id g) (filter (λ kv, ¬ (d_fresh_until kv.2 < now)%Z) (_table g)) (_active_members g).

Definition split_host_port (address : string) : outcome (bytes * N) :=
  let addr := str address in
  match find_delim x3a (rev addr) with
  | None => Ret (addr, 0%N)
  | Some (port, host) => let? p := stoi (rev port) in Ret (rev host, Z.to_N (p mod 65536))
  end.

Section replicator.
Context {JL : JsonLib} (cfg : tcp_gossip_config) (walk : gossip_table → list (N * gossip_digest)).

(** The two critical sections of [advertise_progress]. *)
Definition store_own_digest (self_id : N) (self_address : string) (term last : N) (now : Z) (g : gossip) : gossip :=
  mk_gossip_state (_self_id g)
    (<[self_id := mk_digest self_id self_address term last (now + freshness_interval cfg)]> (_table g))
    (_active_members g).
Definition set_self_id (self_id : N) (g : gossip) : gossip :=
  mk_gossip_state (Some self_id) (_table g) (_active_members g).

Definition gossip_advertise (self_id : N) (self_address : string) (term last : N) (now : Z) (g : gossip) : gossip :=
  set_self_id self_id (store_own_digest self_id self_address term last now g).

Fixpoint first_source (self : option N) (members : gset N) (from_index : N) (now : Z)
    (l : list (N * gossip_digest)) : option peer_info :=
  match l with
  | [] => None
  | (id, digest) :: l =>
      if bool_decide (self = Some id) then first_source self members from_index now l
      else if (d_fresh_until digest <? now)%Z then first_source self members from_index now l
      else if negb (bool_decide (id ∈ members)) then first_source self members from_index now l
      else if (from_index <=? d_last_log_index digest)%N then Some (mk_peer id (d_address digest))
      else first_source self members from_index now l
  end.

Definition gossip_find (from_index : N) (now : Z) (g : gossip) : option peer_info :=
  first_source (_self_id g) (_active_members g) from_index now (walk (_table g)).

Definition gossip_members (ids : list N) (g : gossip) : gossip :=
  mk_gossip_state (_self_id g) (_table g) (list_to_set ids).

#[export] Instance tcp_gossip : Peer2peerReplicator gossip := {|
  advertise_progress := gossip_advertise;
  find_catch_up_source := gossip_find;
  update_membership := gossip_members
|}.

Definition eligible_peers (g : gossip) : list peer_info :=
  filter (λ p, pi_node_id p ∈ _active_members g) (address_book cfg).

Definition snapshot_table (g : gossip) : list gossip_digest := map snd (walk (_table g)).

(** One push and pull with a peer.  [network] is what the connection gives back for
    the bytes sent, nothing if connecting, sending or receiving fails. *)
Definition exchange_with (network : peer_info → bytes → option bytes) (peer : peer_info) : M gossip () :=
  let! g := mget in
  match _self_id g with
  | None => mreturn tt
  | Some self_id =>
      do! mlift (split_host_port (pi_address peer)) in
      match network peer (encode_gossip_message (mk_gossip self_id (snapshot_table g))) with
      | None => mreturn tt
      | Some raw =>
          mcatch
            (let! response := mlift (decode_gossip_message raw) in mmodify (merge (digests response)))
            (λ _, mreturn tt)
      end
  end.

(** A round; [shuffle] is the random order of the peers' indices. *)
Definition run_one_round (network : peer_info → bytes → option bytes) (shuffle : nat → list nat) (now : Z) :
    M gossip () :=
  do! mmodify (prune_expired now) in
  let! g := mget in
  let peers := filter (λ p, _self_id g ≠ Some (pi_node_id p)) (eligible_peers g) in
  match peers with
  | [] => mreturn tt
  | _ =>
      mfor (take (min (fanout cfg) (length peers)) (shuffle (length peers))) (λ i,
        match peers !! i with
        | Some peer => exchange_with network peer
        | None => mundef "index out of range"
        end)
  end.

(** The body of the gossip thread's loop: what a round throws is dropped. *)
Definition gossip_round (network : peer_info → bytes → option bytes) (shuffle : nat → list nat) (now : Z) :
    M gossip () :=
  mcatch (run_one_round network shuffle now) (λ _, mreturn tt).

(** The answer to an incoming exchange: the frame received and the frame to send. *)
Definition handle_incoming_exchange (raw : option bytes) : M gossip (option bytes) :=
  match raw with
  | None => mreturn None
  | Some raw =>
      match decode_gossip_message raw with
      | Ret request =>
          do! mmodify (merge (digests request)) in
          let! g := mget in
          mreturn (Some (encode_gossip_message (mk_gossip (default 0%N (_self_id g)) (snapshot_table g))))
      | Throw _ => mreturn None
      | Undef u => mundef u
      end
  end.
End replicator.

(** ** The interface's laws and its client *)

Section laws.
Context (cfg : tcp_gossip_config) (walk : gossip_table → list (N * gossip_digest)).

(** What the search guarantees of the peer it gives. *)
Lemma first_source_spec self members from now l p :
  first_source self members from now l = Some p →
  ∃ d, (pi_node_id p, d) ∈ l ∧ self ≠ Some (pi_node_id p) ∧ (now <= d_fresh_until d)%Z ∧
    pi_node_id p ∈ members ∧ (from <= d_last_log_index d)%N ∧ pi_address p = d_address d.
Proof.
  induction l as [|[id d] l IH]; [done|]. cbn [first_source].
  assert (first_source self members from now l = Some p → ∃ d0, (pi_node_id p, d0) ∈ (id, d) :: l ∧
    self ≠ Some (pi_node_id p) ∧ (now <= d_fresh_until d0)%Z ∧ pi_node_id p ∈ members ∧
    (from <= d_last_log_index d0)%N ∧ pi_address p = d_address d0) as Hskip.
  { intros (d0 & Hin & H)%IH. exists d0. split; [by right|done]. }
  case_bool_decide as Hself; [done|]. destruct (Z.ltb_spec (d_fresh_until d) now); [done|].
  case_bool_decide as Hm; cbn [negb]; [|done]. destruct (N.leb_spec from (d_last_log_index d)); [|done].
  intros [= <-]. exists d. cbn. by split_and!; [left|..].
Qed.

#[export] Instance gossip_laws : @Peer2peerLaws gossip (tcp_gossip cfg walk).
Proof.
  refine (Build_Peer2peerLaws gossip (tcp_gossip cfg walk) (λ g id, id ∈ _active_members g) _ _ _); cbn;
    [|set_solver|done].
  intros g from now p (d & _ & _ & _ & Hm & _)%first_source_spec. done.
Defined.
End laws.

Inductive replicator_call : Type :=
  | call_advertise (self_id : N) (self_address : string) (term last_log_index : N) (now : Z)
  | call_update (member_ids : list N).

Section client.
Context {R : Type} `{!Peer2peerReplicator R} {laws : Peer2peerLaws R}.

Definition run_call (r : R) (c : replicator_call) : R :=
  match c with
  | call_advertise self addr term last now => advertise_progress self addr term last now r
  | call_update ids => update_membership ids r
  end.

(** The membership of the last update, if there was one. *)
Definition last_members (calls : list replicator_call) : option (list N) :=
  foldl (λ acc c, match c with call_update ids => Some ids | _ => acc end) None calls.

(** Whatever implements the interface, the source it offers after any calls is a
    member by the last update of the membership. *)
Theorem offers_current_members calls ids from now r p :
  last_members calls = Some ids → find_catch_up_source from now (foldl run_call r calls) = Some p →
  pi_node_id p ∈ ids.
Proof.
  intros Hl Hf. apply (found_is_member (Peer2peerLaws := laws)) in Hf. revert Hl Hf.
  induction calls as [|c calls IH] using rev_ind; [done|].
  unfold last_members in *. rewrite !foldl_app. cbn [foldl]. destruct c as [self addr term last t|ids'].
  - intros Hl Hm%advertising_keeps_members. auto.
  - intros [= ->]. apply membership_updated.
Qed.
End client.

Lemma offers_current_members_witness :
  let calls := [call_update [2; 3]%N; call_advertise 2 "b:1" 1 9 100] in
  last_members calls = Some [2; 3]%N ∧ (2 ∈ ([2; 3] : list N))%N.
Proof.
  intros calls. split; [done|].
  apply (offers_current_members (laws := static_replicator.static_laws (λ m, map_to_list m))
    calls [2; 3]%N 5 100 (static_replicator.mk_static ∅ ∅) (mk_peer 2 "b:1")); vm_compute; reflexivity.
Defined.

(** The shared table has no notion of the node that asks, so that a node can be
    offered itself. *)
Theorem static_replicator_offers_itself :
  let r := static_replicator.set_members [1%N]
             (static_replicator.advertise 1 "a:1" 1 9 (static_replicator.mk_static ∅ ∅)) in
  static_replicator.find_source map_to_list 5 r = Some (mk_peer 1 "a:1").
Proof. vm_compute. reflexivity. Qed.

(** ** The order of progress *)

Definition progress_of (d : gossip_digest) : N * N := (d_term d, d_last_log_index d).

Definition progress_lt (p q : N * N) : bool := (p.1 <? q.1)%N || ((p.1 =? q.1)%N && (p.2 <? q.2)%N).

(** The later of two, nothing being the earliest. *)
Definition later (p q : option (N * N)) : option (N * N) :=
  match p, q with
  | Some a, Some b => if progress_lt a b then Some b else Some a
  | None, _ => q
  | _, None => p
  end.

Lemma progress_lt_spec p q : progress_lt p q = true ↔ (p.1 < q.1 ∨ p.1 = q.1 ∧ p.2 < q.2)%N.
Proof.
  unfold progress_lt. rewrite orb_true_iff, andb_true_iff, N.ltb_lt, N.eqb_eq, N.ltb_lt. done.
Qed.

Ltac progress_cases :=
  repeat match goal with
  | |- context [progress_lt ?a ?b] =>
      let E := fresh "E" in destruct (progress_lt a b) eqn:E;
      [apply progress_lt_spec in E | apply not_true_iff_false in E; rewrite progress_lt_spec in E];
      cbn [fst snd] in E
  end.

Lemma later_comm p q : later p q = later q p.
Proof.
  destruct p as [[a b]|], q as [[c d]|]; try done. cbn [later]. progress_cases; try lia; [done..|].
  repeat f_equal; lia.
Qed.

Lemma later_assoc p q r : later p (later q r) = later (later p q) r.
Proof.
  destruct p as [[a b]|], q as [[c d]|], r as [[e f]|]; try done; cbn [later]; progress_cases; cbn [later];
    progress_cases; try done; try lia.
Qed.

Lemma later_idem p : later p p = p.
Proof. destruct p as [[a b]|]; [|done]. cbn. by destruct (progress_lt (a, b) (a, b)). Qed.

(** ** Tables up to progress *)

Definition progress (t : gossip_table) (id : N) : option (N * N) := progress_of <$> t !! id.

(** Two tables that know the same of every node. *)
Definition same_progress (t t' : gossip_table) : Prop := ∀ id, progress t id = progress t' id.

#[export] Instance same_progress_equivalence : Equivalence same_progress.
Proof.
  split; [done|by intros t t' H id|]. intros t1 t2 t3 H12 H23 id. by rewrite H12.
Qed.

Lemma newer_progress d e : newer d e = progress_lt (progress_of e) (progress_of d).
Proof. done. Qed.

Lemma merge_digest_progress t d id :
  progress (merge_digest t d) id =
  if decide (d_node_id d = id) then later (progress t id) (Some (progress_of d)) else progress t id.
Proof.
  unfold merge_digest, progress. case_decide as Hid.
  - subst id. destruct (t !! d_node_id d) as [e|] eqn:E; cbn [fmap option_fmap option_map].
    + rewrite newer_progress. cbn [later]. destruct (progress_lt _ _); [by rewrite (lookup_insert_eq t)|by rewrite E].
    + by rewrite (lookup_insert_eq t).
  - destruct (t !! d_node_id d) as [e|]; [destruct (newer d e); [|done]|]; by rewrite (lookup_insert_ne t).
Qed.

(** What a list of digests says of a node. *)
Definition reported (l : list gossip_digest) (id : N) : option (N * N) :=
  foldr (λ d p, if decide (d_node_id d = id) then later (Some (progress_of d)) p else p) None l.

Lemma merge_progress l t id : progress (merge_table l t) id = later (progress t id) (reported l id).
Proof.
  revert t. induction l as [|d l IH]; intros t; cbn [merge_table foldl reported foldr].
  { by destruct (progress t id). }
  change (foldl merge_digest (merge_digest t d) l) with (merge_table l (merge_digest t d)).
  rewrite IH, merge_digest_progress. fold (reported l id). case_decide; [by rewrite later_assoc|done].
Qed.

#[export] Instance merge_table_proper l : Proper (same_progress ==> same_progress) (merge_table l).
Proof. intros t t' H id. by rewrite !merge_progress, H. Qed.

Lemma merge_merge_comm l l' t :
  same_progress (merge_table l (merge_table l' t)) (merge_table l' (merge_table l t)).
Proof. intros id. rewrite !merge_progress, <- !later_assoc. f_equal. apply later_comm. Qed.

Lemma merge_again l t : same_progress (merge_table l (merge_table l t)) (merge_table l t).
Proof. intros id. by rewrite !merge_progress, <- later_assoc, later_idem. Qed.

(** ** Messages on the wire *)

(** The fields of a digest are within their types, and its address is ASCII. *)
Definition digest_ok (d : gossip_digest) : Prop :=
  is_u64 (d_node_id d) ∧ ascii_string (d_address d) ∧ is_u64 (d_term d) ∧ is_u64 (d_last_log_index d) ∧
  (- 2 ^ 63 <= d_fresh_until d < 2 ^ 63)%Z.

Definition gossip_ok (msg : gossip_exchange_message) : Prop :=
  is_u64 (sender_node_id msg) ∧ Forall digest_ok (digests msg).

Lemma i64_range n : is_u64 n → (- 2 ^ 63 <= i64_of_u64 n < 2 ^ 63)%Z.
Proof.
  unfold is_u64, u64_modulus, i64_of_u64. intros H. destruct (N.ltb_spec n (2 ^ 63)); lia.
Qed.

Lemma u64_of_i64 n : is_u64 n → u64_of_Z (i64_of_u64 n) = n.
Proof.
  unfold is_u64, u64_of_Z, i64_of_u64, u64_modulus. intros H. destruct (N.ltb_spec n (2 ^ 63)).
  - rewrite Z.mod_small by lia. lia.
  - replace (Z.of_N n - 2 ^ 64)%Z with (Z.of_N n + (-1) * Z.of_N 18446744073709551616)%Z by lia.
    rewrite Z_mod_plus_full, Z.mod_small by lia. lia.
Qed.

Lemma digest_decoded d :
  digest_ok d →
  digest_of_json (json_normalize (digest_to_json d)) =
  if (d_term d <=? int64_max)%N then Ret d else Throw (json_error "not an int64").
Proof.
  intros (Hid & _ & Ht & Hl & _). destruct d as [id a t last f]. cbn [d_node_id d_term d_last_log_index] in *.
  unfold digest_of_json, digest_to_json. cbn -[u64_of_Z i64_of_u64 N.leb].
  rewrite u64_of_i64 by done. cbn -[u64_of_Z i64_of_u64 N.leb].
  destruct (t <=? int64_max)%N eqn:E; cbn -[u64_of_Z i64_of_u64]; [|done].
  rewrite u64_of_i64 by done. apply N.leb_le in E. by rewrite (u64_of_Z_of_N t).
Qed.

Lemma digests_decoded ds :
  Forall digest_ok ds →
  digests_of_json (map json_normalize (map digest_to_json ds)) =
  if forallb (λ d, d_term d <=? int64_max)%N ds then Ret ds else Throw (json_error "not an int64").
Proof.
  induction 1 as [|d ds Hd _ IH]; [done|]. cbn [map digests_of_json forallb]. rewrite digest_decoded by done.
  destruct (d_term d <=? int64_max)%N; cbn [outcome_bind andb]; [|done]. rewrite IH.
  by destruct (forallb _ ds).
Qed.

Lemma digest_wf d : digest_ok d → json_wf (digest_to_json d).
Proof.
  intros (Hid & Ha & Ht & Hl & Hf). split; [by apply (bool_decide_eq_true_1 _)|].
  cbn -[ascii_string is_u64 i64_of_u64 Z.pow Z.opp Z.le Z.lt]. apply i64_range in Hid, Hl.
  repeat match goal with |- _ ∧ _ => split end; try (by apply ascii_string_decide); try done; tauto.
Qed.

Lemma gossip_wf msg : gossip_ok msg → json_wf (gossip_to_json msg).
Proof.
  intros [Hs Hd]. split; [by apply (bool_decide_eq_true_1 _)|]. cbn [map fold_right fst snd].
  repeat match goal with |- _ ∧ _ => split end; try (by apply ascii_string_decide); try (by apply i64_range); try done.
  cbn. induction Hd as [|d ds H _ IH]; [done|]. split; [by apply digest_wf|exact IH].
Qed.

Section wire.
Context {JL : JsonLib} {JLok : JsonLibOk}.

(** A message is read back from its encoding, with node ids and log indices up to the
    full 64 bits; a term of 2{^63} or more makes the whole message unreadable, as it is
    written as an unsigned number and read as a signed one. *)
Theorem gossip_message_roundtrip msg :
  gossip_ok msg →
  decode_gossip_message (encode_gossip_message msg) =
  if forallb (λ d, d_term d <=? int64_max)%N (digests msg) then Ret msg
  else Throw (json_error "not an int64").
Proof.
  intros Hok. unfold decode_gossip_message, encode_gossip_message.
  rewrite json_parse_serialize by (by apply gossip_wf). destruct msg as [s ds]. destruct Hok as [Hs Hd].
  unfold gossip_of_json, gossip_to_json. cbn -[u64_of_Z i64_of_u64 digests_of_json digest_to_json].
  rewrite u64_of_i64 by done. rewrite digests_decoded by done. by destruct (forallb _ ds).
Qed.
End wire.

Lemma gossip_message_roundtrip_witness :
  let msg := mk_gossip 18446744073709551615
    [mk_digest 1 "a:1" 9223372036854775807 18446744073709551615 100; mk_digest 2 "b:2" 3 4 (-1)] in
  @decode_gossip_message CodeJson.code_json (@encode_gossip_message CodeJson.code_json msg) = Ret msg.
Proof.
  apply (gossip_message_roundtrip (JL := CodeJson.code_json) (JLok := CodeJson.code_json_ok)
    (mk_gossip 18446744073709551615
      [mk_digest 1 "a:1" 9223372036854775807 18446744073709551615 100; mk_digest 2 "b:2" 3 4 (-1)])).
  split; [by vm_compute|]. repeat constructor; try (by vm_compute); by apply ascii_string_decide.
Defined.

(** ** Exchanges *)

(** A table maps a node to its own digest, which can be sent. *)
Definition table_ok (t : gossip_table) : Prop :=
  map_Forall (λ id d, d_node_id d = id ∧ digest_ok d ∧ (d_term d <= int64_max)%N) t.

Lemma merge_digest_ok t d : table_ok t → digest_ok d → (d_term d <= int64_max)%N → table_ok (merge_digest t d).
Proof.
  intros Ht Hd Hterm. unfold merge_digest.
  destruct (t !! d_node_id d) as [e|]; [destruct (newer d e); [|done]|]; by apply map_Forall_insert_2.
Qed.

Lemma merge_table_ok l t :
  table_ok t → Forall (λ d, digest_ok d ∧ (d_term d <= int64_max)%N) l → table_ok (merge_table l t).
Proof.
  intros Ht Hl. revert t Ht. induction Hl as [|d l [Hd Hterm] _ IH]; intros t Ht; [done|]. apply IH.
  by apply merge_digest_ok.
Qed.

Lemma reported_perm l l' id : l ≡ₚ l' → reported l id = reported l' id.
Proof.
  unfold reported. induction 1 as [|d l l' _ IH|d e l|l1 l2 l3 _ IH1 _ IH2]; [done| | |by etrans]; cbn [foldr].
  - by rewrite IH.
  - repeat case_decide; try done. rewrite !later_assoc. f_equal. apply later_comm.
Qed.

Section exchange.
Context {JL : JsonLib} {JLok : JsonLibOk} (cfg : tcp_gossip_config) (walk : gossip_table → list (N * gossip_digest)).
Context (walk_all : ∀ t, walk t ≡ₚ map_to_list t).

Lemma snapshot_elements g d : d ∈ snapshot_table walk g ↔ ∃ id, _table g !! id = Some d.
Proof.
  unfold snapshot_table. rewrite walk_all, list_elem_of_fmap. split.
  - intros ([id d'] & -> & Hin%elem_of_map_to_list). by exists id.
  - intros [id Hid]. exists (id, d). split; [done|]. by apply elem_of_map_to_list.
Qed.

Lemma reported_snapshot g id : table_ok (_table g) → reported (snapshot_table walk g) id = progress (_table g) id.
Proof.
  unfold snapshot_table. destruct g as [self t members]. cbn [_table]. intros Ht.
  rewrite (reported_perm _ (map snd (map_to_list t))) by (by rewrite walk_all).
  induction t as [|i d t Hi IH] using map_ind; [done|].
  apply map_Forall_insert_1_1 in Ht as Hd. apply map_Forall_insert_1_2 in Ht; [|done]. destruct Hd as [Hid _].
  rewrite (reported_perm _ (map snd ((i, d) :: map_to_list t))) 
    by (by apply Permutation_map, (map_to_list_insert t)).
  specialize (IH Ht).
  transitivity (if decide (d_node_id d = id) then later (Some (progress_of d)) (progress t id) else progress t id).
  { rewrite <- IH. reflexivity. }
  unfold progress.
  case_decide as E; rewrite Hid in E.
  - subst id. by rewrite Hi, (lookup_insert_eq t).
  - by rewrite (lookup_insert_ne t).
Qed.

Lemma snapshot_sendable self g :
  is_u64 self → table_ok (_table g) →
  decode_gossip_message (encode_gossip_message (mk_gossip self (snapshot_table walk g))) =
    Ret (mk_gossip self (snapshot_table walk g)).
Proof.
  intros Hs Ht.
  assert (Forall (λ d, digest_ok d ∧ (d_term d <= int64_max)%N) (snapshot_table walk g)) as Hall.
  { apply Forall_forall. intros d (id & Hid)%snapshot_elements. apply (Ht id d) in Hid. tauto. }
  assert (gossip_ok (mk_gossip self (snapshot_table walk g))) as Hok.
  { split; [done|]. eapply Forall_impl; [exact Hall|]. by intros d [? _]. }
  rewrite gossip_message_roundtrip by done. cbn [digests]. rewrite (proj2 (forallb_forall _ _)); [done|].
  intros d Hin. rewrite Forall_forall in Hall. apply N.leb_le. apply Hall. by apply list_elem_of_In.
Qed.

(** A whole exchange: what [a] gets back is what [b] answers to its request. *)
Definition exchange (peer : peer_info) (a b : gossip) : outcome () * gossip * gossip :=
  let served request := handle_incoming_exchange walk (Some request) b in
  let request := encode_gossip_message (mk_gossip (default 0%N (_self_id a)) (snapshot_table walk a)) in
  let answer r := match (served r).1 with Ret reply => reply | _ => None end in
  (exchange_with walk (λ _ r, answer r) peer a, (served request).2).

(** C24. An exchange leaves both ends with the same view, the union of what they knew:
    for every node each has the later of the two terms and log indices, whichever of
    them had it. *)
Theorem exchange_synchronises peer self hp a b :
  _self_id a = Some self → is_u64 self → is_u64 (default 0%N (_self_id b)) →
  split_host_port (pi_address peer) = Ret hp → table_ok (_table a) → table_ok (_table b) →
  let '(r, a', b') := exchange peer a b in
  r = Ret tt ∧ same_progress (_table a') (_table b') ∧
  ∀ id, progress (_table a') id = later (progress (_table a) id) (progress (_table b) id).
Proof.
  intros Hself Hu Hub Hhp Ha Hb. unfold exchange, exchange_with, handle_incoming_exchange.
  rewrite let_get, Hself. assert (default 0%N (Some self) = self) as -> by done. rewrite Hhp, let_lift, snapshot_sendable by done.
  cbn [digests]. rewrite !let_modify, !let_get. cbn [fst snd mreturn].
  set (b' := merge (snapshot_table walk a) b).
  assert (table_ok (_table b')) as Hb'.
  { apply merge_table_ok; [done|]. apply Forall_forall. intros d (id & Hid)%snapshot_elements.
    apply (Ha id d) in Hid. tauto. }
  assert (_self_id b' = _self_id b) as -> by done. rewrite snapshot_sendable by done.
  unfold mcatch, mlift, mlet, mmodify. cbn [digests].
  assert (∀ id, progress (_table b') id = later (progress (_table b) id) (progress (_table a) id)) as Pb.
  { intros id. unfold b'. cbn [merge _table]. by rewrite merge_progress, reported_snapshot. }
  assert (∀ id, progress (_table (merge (snapshot_table walk b') a)) id =
    later (progress (_table a) id) (progress (_table b) id)) as Pa.
  { intros id. cbn [merge _table]. rewrite merge_progress, reported_snapshot, Pb by done.
    rewrite (later_comm (progress (_table b) id)), later_assoc. by rewrite later_idem. }
  split_and!; [done| |done]. intros id. rewrite Pa, later_comm. symmetry. apply Pb.
Qed.
End exchange.

Lemma exchange_synchronises_witness :
  let walk := λ t : gossip_table, map_to_list t in
  let a := mk_gossip_state (Some 1%N) {[1%N := mk_digest 1 "a:1" 3 7 100; 3%N := mk_digest 3 "c:3" 2 9 90]} ∅ in
  let b := mk_gossip_state (Some 2%N) {[2%N := mk_digest 2 "b:2" 3 5 100; 3%N := mk_digest 3 "c:3" 3 1 80]} ∅ in
  let '(_, a', _) := exchange (JL := CodeJson.code_json) walk (mk_peer 2 "b:2") a b in
  progress (_table a') 3 = Some (3, 1)%N ∧ progress (_table a') 2 = Some (3, 5)%N.
Proof.
  intros walk a b.
  assert (table_ok (_table a) ∧ table_ok (_table b)) as [Ha Hb].
  { unfold table_ok, digest_ok. split; (apply map_Forall_insert_2; [|apply map_Forall_singleton]); split_and!;
      (by vm_compute) || by apply ascii_string_decide. }
  pose proof (exchange_synchronises (JL := CodeJson.code_json) (JLok := CodeJson.code_json_ok) walk
    (λ t, Permutation_refl (map_to_list t)) (mk_peer 2 "b:2") 1 (str "b", 2%N) a b eq_refl eq_refl eq_refl eq_refl Ha Hb) as T.
  destruct (exchange _ _ _ _) as [[r a'] b']. destruct T as (_ & _ & Hp). by rewrite !Hp.
Defined.

(** ** A network of replicators *)

Section network.
Context {JL : JsonLib} {JLok : JsonLibOk} (cfg : tcp_gossip_config) (walk : gossip_table → list (N * gossip_digest)).
Context (walk_all : ∀ t, walk t ≡ₚ map_to_list t).

(** The replicators, the messages ever sent, which may arrive at any time, more than
    once or never, what was advertised and when, and the time. *)
Record network : Type := mk_network {
  replicators : gmap N gossip; sent : list bytes; advertised : list (Z * gossip_digest); clock : Z
}.

Definition network_init (ids : list N) (now : Z) : network :=
  mk_network (list_to_map (map (λ i, (i, mk_gossip_state None ∅ ∅)) ids)) [] [] now.

(** Every critical section of a replicator is a step: storing the own digest and the
    own id, updating the membership, pruning, taking the snapshot for a request or an answer, merging a
    message that was received. *)
Inductive network_step : network → network → Prop :=
  | net_time w now :
      (clock w <= now)%Z → network_step w (mk_network (replicators w) (sent w) (advertised w) now)
  | net_advertise w i g address term last :
      replicators w !! i = Some g →
      let d := mk_digest i address term last (clock w + freshness_interval cfg) in
      digest_ok d → (term <= int64_max)%N →
      network_step w (mk_network (<[i := store_own_digest cfg i address term last (clock w) g]> (replicators w))
        (sent w) ((clock w, d) :: advertised w) (clock w))
  | net_self w i g :
      replicators w !! i = Some g →
      network_step w (mk_network (<[i := set_self_id i g]> (replicators w)) (sent w) (advertised w) (clock w))
  | net_members w i g ids :
      replicators w !! i = Some g →
      network_step w (mk_network (<[i := gossip_members ids g]> (replicators w)) (sent w) (advertised w) (clock w))
  | net_prune w i g :
      replicators w !! i = Some g →
      network_step w (mk_network (<[i := prune_expired (clock w) g]> (replicators w)) (sent w) (advertised w) (clock w))
  | net_send w i g :
      replicators w !! i = Some g → is_u64 (default 0%N (_self_id g)) →
      let msg := mk_gossip (default 0%N (_self_id g)) (snapshot_table walk g) in
      network_step w (mk_network (replicators w) (encode_gossip_message msg :: sent w) (advertised w) (clock w))
  | net_receive w i g raw msg :
      replicators w !! i = Some g → raw ∈ sent w → decode_gossip_message raw = Ret msg →
      network_step w (mk_network (<[i := merge (digests msg) g]> (replicators w)) (sent w) (advertised w) (clock w)).

(** A digest that some node advertised about itself. *)
Definition genuine (w : network) (d : gossip_digest) : Prop :=
  digest_ok d ∧ (d_term d <= int64_max)%N ∧
  ∃ t, (t, d) ∈ advertised w ∧ d_fresh_until d = (t + freshness_interval cfg)%Z ∧ (t <= clock w)%Z.

Definition table_genuine (w : network) (t : gossip_table) : Prop :=
  map_Forall (λ id d, d_node_id d = id ∧ genuine w d) t.

Record network_ok (w : network) : Prop := {
  tables_genuine : map_Forall (λ _ g, table_genuine w (_table g)) (replicators w);
  messages_genuine : ∀ raw msg, raw ∈ sent w → decode_gossip_message raw = Ret msg → Forall (genuine w) (digests msg)
}.

Lemma genuine_table_ok w t : table_genuine w t → table_ok t.
Proof. intros H. eapply map_Forall_impl; [exact H|]. intros id d (? & ? & ? & _). done. Qed.

(** What is known stays true as more is advertised and time passes. *)
Lemma genuine_mono w w' d :
  (∀ x, x ∈ advertised w → x ∈ advertised w') → (clock w <= clock w')%Z → genuine w d → genuine w' d.
Proof.
  intros Ha Hc (Hd & Ht & t & Hin & Hf & Hle). split; [done|]. split; [done|]. exists t.
  split; [by apply Ha|]. split; [done|lia].
Qed.

Lemma merge_genuine w l t : table_genuine w t → Forall (genuine w) l → table_genuine w (merge_table l t).
Proof.
  intros Ht Hl. revert t Ht. induction Hl as [|d l Hd _ IH]; intros t Ht; [done|]. apply IH. unfold merge_digest.
  destruct (t !! d_node_id d) as [e|]; [destruct (newer d e); [|done]|]; by apply map_Forall_insert_2.
Qed.

Lemma network_ok_mono w w' :
  replicators w' = replicators w → sent w' = sent w →
  (∀ x, x ∈ advertised w → x ∈ advertised w') → (clock w <= clock w')%Z → network_ok w → network_ok w'.
Proof.
  intros Er Es Ha Hc [Ht Hm]. constructor.
  - rewrite Er. eapply map_Forall_impl; [exact Ht|]. intros i g Hg. eapply map_Forall_impl; [exact Hg|].
    intros id d [? ?]. split; [done|]. by apply (genuine_mono w).
  - rewrite Es. intros raw msg Hin Hdec. eapply Forall_impl; [by apply (Hm raw)|]. intros d. by apply genuine_mono.
Qed.

Lemma network_ok_update w i g :
  network_ok w → table_genuine w (_table g) →
  network_ok (mk_network (<[i := g]> (replicators w)) (sent w) (advertised w) (clock w)).
Proof. intros [Ht Hm] Hg. constructor; [by apply map_Forall_insert_2|done]. Qed.

Lemma network_step_ok w w' : network_step w w' → network_ok w → network_ok w'.
Proof.
  intros Hstep Hok. destruct Hstep as [w now Hnow|w i g address term last Hi d Hd Ht|w i g Hi|w i g ids Hi|w i g Hi|w i g Hi Hu msg|w i g raw msg Hi Hin Hdec].
  - by apply (network_ok_mono w).
  - set (w1 := mk_network (replicators w) (sent w) ((clock w, d) :: advertised w) (clock w)).
    assert (network_ok w1) as Hok1 by (apply (network_ok_mono w); cbn; try done; set_solver).
    apply (network_ok_update w1); [done|]. apply map_Forall_insert_2; [|exact (tables_genuine w1 Hok1 i g Hi)].
    split; [done|]. split; [done|]. split; [done|]. exists (clock w). split; [by left|done].
  - apply network_ok_update; [done|]. exact (tables_genuine w Hok i g Hi).
  - apply network_ok_update; [done|]. exact (tables_genuine w Hok i g Hi).
  - apply network_ok_update; [done|]. pose proof (tables_genuine w Hok i g Hi) as Hg.
    cbn. intros id e [He _]%map_lookup_filter_Some. by apply Hg.
  - pose proof (tables_genuine w Hok i g Hi) as Hg. destruct Hok as [Ht Hm]. constructor; [done|].
    intros raw msg'. cbn. intros [->|Hin]%elem_of_cons Hdec; [|by apply (Hm raw)].
    unfold msg in Hdec. rewrite snapshot_sendable in Hdec by (done || exact (genuine_table_ok _ _ Hg)).
    injection Hdec as <-. apply Forall_forall. intros e (id & He)%snapshot_elements; [|done]. by apply (Hg id e) in He as [_ ?].
  - apply network_ok_update; [done|]. apply merge_genuine; [exact (tables_genuine w Hok i g Hi)|].
    by apply (messages_genuine w Hok raw).
Qed.

Lemma network_reachable_ok ids now w : rtc network_step (network_init ids now) w → network_ok w.
Proof.
  intros Hr. assert (network_ok (network_init ids now)) as H0.
  { constructor; [|by intros raw msg ?%elem_of_nil]. intros i g Hi. cbn in Hi.
    apply elem_of_list_to_map_2 in Hi. apply list_elem_of_fmap in Hi as (j & [= -> ->] & _). apply map_Forall_empty. }
  induction Hr as [|x y z Hxy _ IH]; [done|]. by apply IH, (network_step_ok x).
Qed.

(** C23. A catch-up source is never made up.  However the nodes advertise, prune,
    exchange and lose messages, a peer that the gossip replicator of a node offers is
    a current member, not the node that it knows as itself, and it advertised, of itself and with
    the address given, a log that reaches the index asked for, no longer ago than the
    freshness interval. *)
Theorem catch_up_source_genuine ids start w i g from p :
  rtc network_step (network_init ids start) w → replicators w !! i = Some g →
  gossip_find walk from (clock w) g = Some p →
  pi_node_id p ∈ _active_members g ∧ _self_id g ≠ Some (pi_node_id p) ∧
  ∃ t d, (t, d) ∈ advertised w ∧ d_node_id d = pi_node_id p ∧ d_address d = pi_address p ∧
    (from <= d_last_log_index d)%N ∧ (t <= clock w <= t + freshness_interval cfg)%Z.
Proof.
  intros Hr Hi (d & Hin & Hself & Hfresh & Hm & Hfrom & Haddr)%first_source_spec.
  split; [done|]. split; [done|]. rewrite walk_all, elem_of_map_to_list in Hin.
  destruct (tables_genuine w (network_reachable_ok _ _ _ Hr) i g Hi _ _ Hin) as (Hid & _ & _ & t & Ht & Hf & Hle).
  exists t, d. split_and!; try done. rewrite <- Hf. done.
Qed.
End network.

(** Node 2 advertises, node 1 learns of its membership and receives its digest. *)
Lemma catch_up_source_genuine_witness :
  let cfg := mk_gossip_config [] 3 5 in
  let d := mk_digest 2 "b:2" 1 9 105 in
  let g1 := mk_gossip_state None {[2%N := d]} {[2%N]} in
  gossip_find (λ t, map_to_list t) 7 100 g1 = Some (mk_peer 2 "b:2") ∧
  ∃ t d, (t, d) ∈ [(100%Z, mk_digest 2 "b:2" 1 9 105)] ∧ d_node_id d = 2%N ∧ (7 <= d_last_log_index d)%N ∧
    (t <= 100 <= t + 5)%Z.
Proof.
  intros cfg d g1. split; [by vm_compute|].
  set (walk := λ t : gossip_table, map_to_list t).
  set (g2 := mk_gossip_state (Some 2%N) {[2%N := d]} ∅).
  set (raw := @encode_gossip_message CodeJson.code_json (mk_gossip 2 [d])).
  set (w := mk_network {[1%N := g1; 2%N := g2]} [raw] [(100%Z, d)] 100).
  destruct (catch_up_source_genuine (JL := CodeJson.code_json) (JLok := CodeJson.code_json_ok) cfg walk
    (λ t, Permutation_refl (map_to_list t)) [1; 2]%N 100 w 1 g1 7 (mk_peer 2 "b:2")) as (_ & _ & t & e & H).
  - eapply rtc_l; [apply (net_advertise cfg walk _ 2 (mk_gossip_state None ∅ ∅) "b:2" 1 9); [by vm_compute| |by vm_compute]|].
    { unfold digest_ok. split_and!; (by vm_compute) || by apply ascii_string_decide. }
    eapply rtc_l; [by apply (net_self cfg walk _ 2 (mk_gossip_state None {[2%N := d]} ∅))|].
    eapply rtc_l; [by apply (net_members cfg walk _ 1 (mk_gossip_state None ∅ ∅) [2%N])|].
    eapply rtc_l; [by apply (net_send cfg walk _ 2 g2)|].
    eapply rtc_l; [apply (net_receive cfg walk _ 1 (mk_gossip_state None ∅ {[2%N]}) raw (mk_gossip 2 [d])); [by vm_compute|by left|by vm_compute]|].
    match goal with |- rtc _ ?x ?y => replace y with x; [apply rtc_refl|] end. by vm_compute.
  - by vm_compute.
  - by vm_compute.
  - exists t, e. destruct H as (Hin & Hid & _ & Hl & Hc). done.
Defined.

(** ** Refreshing *)

(** A digest that a node renews while its log does not change is not taken: where an
    earlier one is known, the peer is no longer offered once that one is over, however
    long the new one would hold, until it was pruned and is heard of again. *)
Theorem refresh_without_progress_ignored walk g d e from now p :
  (∀ t, walk t ≡ₚ map_to_list t) →
  _table g !! d_node_id d = Some e → progress_of e = progress_of d → (d_fresh_until e < now)%Z →
  gossip_find walk from now (merge [d] g) = Some p → pi_node_id p ≠ d_node_id d.
Proof.
  intros Hw He Hp Hold Hf Hid. apply first_source_spec in Hf as (d0 & Hin & _ & Hfresh & _).
  rewrite Hw, elem_of_map_to_list, Hid in Hin. cbn [merge _table merge_table foldl] in Hin. unfold merge_digest in Hin.
  rewrite He, newer_progress, Hp in Hin.
  destruct (progress_lt (progress_of d) (progress_of d)) eqn:E; [apply progress_lt_spec in E; lia|].
  rewrite He in Hin. injection Hin as ->. lia.
Qed.

Lemma refresh_without_progress_ignored_witness :
  let old := mk_digest 2 "b:2" 1 9 100 in
  let renewed := mk_digest 2 "b:2" 1 9 200 in
  let g := mk_gossip_state (Some 1%N) {[2%N := old; 3%N := mk_digest 3 "c:3" 1 9 200]} {[2%N; 3%N]} in
  (3 ≠ 2)%N.
Proof.
  intros old renewed g.
  apply (refresh_without_progress_ignored (λ t, map_to_list t) g renewed old 5 150 (mk_peer 3 "c:3"));
    [done|done|done|done|by vm_compute].
Defined.

(** An entry of the address book without a number for its port ends the round for the
    peers after it. *)
Theorem malformed_address_ends_round :
  let book := [mk_peer 2 "b:http"; mk_peer 3 "c:3"] in
  let g := mk_gossip_state (Some 1%N) {[1%N := mk_digest 1 "a:1" 1 9 200]} {[2%N; 3%N]} in
  ∀ network, (gossip_round (JL := CodeJson.code_json) (mk_gossip_config book 3 5) (λ t, map_to_list t) network (seq 0) 150 g) =
    (Ret tt, g) ∧
  ∃ e, (run_one_round (JL := CodeJson.code_json) (mk_gossip_config book 3 5) (λ t, map_to_list t) network (seq 0) 150 g).1 =
    Throw e.
Proof. intros book g network. split; [by vm_compute|]. eexists. by vm_compute. Qed.

(** ** Starting and stopping *)

Record gossip_threads : Type := mk_threads {
  _started : bool; _listener_running : bool; _listen_fd : Z; _gossip_running : bool
}.

Definition threads_init : gossip_threads := mk_threads false false (-1) false.

(** [fd] is what [::socket] gives and [bind_ok] whether [::bind] works. *)
Definition start_listener (fd : Z) (bind_ok : bool) : M gossip_threads () :=
  if (fd <? 0)%Z then mthrow (runtime_error "tcp_gossip_peer2peer_replicator: socket()")
  else if negb bind_ok then mthrow (runtime_error "tcp_gossip_peer2peer_replicator: bind()")
  else mmodify (λ s, mk_threads (_started s) true fd (_gossip_running s)).

Definition start_gossip_thread : M gossip_threads () :=
  mmodify (λ s, mk_threads (_started s) (_listener_running s) (_listen_fd s) true).

Definition gossip_start (fd : Z) (bind_ok : bool) : M gossip_threads () :=
  let! s := mget in
  do! mmodify (λ s, mk_threads true (_listener_running s) (_listen_fd s) (_gossip_running s)) in
  if _started s then mreturn tt
  else do! start_listener fd bind_ok in start_gossip_thread.

Definition stop_gossip_thread : M gossip_threads () :=
  mmodify (λ s, mk_threads (_started s) (_listener_running s) (_listen_fd s) false).

Definition stop_listener : M gossip_threads () :=
  mmodify (λ s, if _listener_running s then mk_threads (_started s) false (-1) (_gossip_running s) else s).

Definition gossip_stop : M gossip_threads () :=
  let! s := mget in
  do! mmodify (λ s, mk_threads false (_listener_running s) (_listen_fd s) (_gossip_running s)) in
  if negb (_started s) then mreturn tt
  else do! stop_gossip_thread in stop_listener.

(** Both threads run after a start that works, none after a stop; but a start that
    fails leaves the mark that it was started, so that the next one reports success
    and starts nothing. *)
Theorem failed_start_blocks_the_next fd :
  (0 <= fd)%Z →
  gossip_start fd true threads_init = (Ret tt, mk_threads true true fd true) ∧
  (gossip_stop (gossip_start fd true threads_init).2) = (Ret tt, threads_init) ∧
  let '(first, s) := gossip_start fd false threads_init in
  first = Throw (runtime_error "tcp_gossip_peer2peer_replicator: bind()") ∧
  gossip_start fd true s = (Ret tt, s) ∧ _listener_running s = false ∧ _gossip_running s = false.
Proof.
  intros Hfd. unfold gossip_start, start_listener, gossip_stop, mlet, mget, mmodify.
  destruct (Z.ltb_spec fd 0); [lia|]. done.
Qed.

Lemma failed_start_blocks_the_next_witness : gossip_start 4 true threads_init = (Ret tt, mk_threads true true 4 true).
Proof. refine (proj1 (failed_start_blocks_the_next 4 _)). done. Defined.
