(* ===== verification/QuorumManagers.v ===== *)
(** Quorum managers ([include/raft/quorum_management.hpp]: the concept and
    [no_op_quorum_manager]; [include/raft/docker_quorum_manager.hpp]: containers of a
    Docker daemon).

    The daemon is a parameter: a function from a request and its state to an answer,
    nothing if the connection fails, and the next state.  Every request is recorded. *)

From S2P Require Import Prelude Types Bytes ConfigEntry JsonSerializer FilePersistence Machines Node QuorumLoop.

Record node_placement : Type := mk_placement { np_node_id : N; np_group_id : string }.

(** ** The interface *)

Definition live_sum (health : list placement_group_health) : N := foldr (λ gh n, gh_live_count gh + n)%N 0%N health.

(** What a report on a cluster says at least.  The groups account for the live nodes
    when every node is in a group of the topology. *)
Definition health_ok (topology : list placement_group_target) (cluster : list node_placement) (r : quorum_health) : Prop :=
  qh_total_node_count r = N.of_nat (length cluster) ∧
  (qh_live_node_count r + N.of_nat (length (qh_unreachable_nodes r)) = qh_total_node_count r)%N ∧
  qh_unreachable_nodes r `sublist_of` map np_node_id cluster ∧
  (NoDup (map group_id topology) → Forall (λ np, np_group_id np ∈ map group_id topology) cluster →
   live_sum (qh_groups r) = qh_live_node_count r).

Class QuorumManager (Q : Type) : Type := {
  assess_quorum : list node_placement → M Q quorum_health;
  provision_node : string → option N → M Q peer_info;
  decommission_node : N → M Q ();
  topology : Q → list placement_group_target;
  maintain_quorum : list node_placement → M Q quorum_health
}.

Class QuorumManagerLaws (Q : Type) `{!QuorumManager Q} : Prop := {
  assessment_ok cluster q r q' :
    is_u64 (N.of_nat (length cluster)) → assess_quorum cluster q = (Ret r, q') → health_ok (topology q) cluster r;
  maintenance_ok cluster q r q' :
    is_u64 (N.of_nat (length cluster)) → maintain_quorum cluster q = (Ret r, q') → health_ok (topology q) cluster r
}.

(** ** no_op_quorum_manager *)

Module no_op_quorum_manager.
Record manager : Type := mk_manager { _topology : list placement_group_target }.

Definition target_of (groups : list placement_group_target) (group : string) : N :=
  match List.find (λ g, String.eqb (group_id g) group) groups with
  | Some g => target_count g
  | None => 0%N
  end.

(** A node of the cluster is counted in its group, which is added if it is new. *)
Fixpoint count_node (groups : list placement_group_target) (np : node_placement)
    (health : list placement_group_health) : list placement_group_health :=
  match health with
  | [] => [mk_group_health (np_group_id np) 1 (target_of groups (np_group_id np)) []]
  | gh :: health =>
      if String.eqb (gh_group_id gh) (np_group_id np)
      then mk_group_health (gh_group_id gh) (gh_live_count gh ⊕ 1) (gh_target_count gh) (gh_unreachable_nodes gh) :: health
      else gh :: count_node groups np health
  end.

Definition assess (cluster : list node_placement) (m : manager) : quorum_health :=
  let n := N.of_nat (length cluster) in
  mk_health healthy n n [] (foldl (λ health np, count_node (_topology m) np health) [] cluster).

#[export] Instance no_op : QuorumManager manager := {|
  assess_quorum cluster := λ m, (Ret (assess cluster m), m);
  provision_node _ _ := mthrow (runtime_error "no_op_quorum_manager: provisioning is not supported");
  decommission_node _ := mreturn tt;
  topology := _topology;
  maintain_quorum cluster := λ m, (Ret (assess cluster m), m)
|}.
End no_op_quorum_manager.

(** ** docker_quorum_manager *)

Inductive http_request : Type :=
  | http_get (path : bytes)
  | http_post (path body : bytes)
  | http_delete (path : bytes).

Definition http_response : Type := option (N * bytes).

Module docker_quorum_manager.
Record config : Type := mk_docker_config {
  image : string; cluster_name : string; network_name : string; node_port : N; cfg_group_id : string;
  cfg_target_count : N; extra_env : list string; extra_args : list string
}.

(** The constructor's checks. *)
Definition validate (cfg : config) : outcome () :=
  if String.eqb (image cfg) EmptyString then Throw (invalid_argument "docker_quorum_manager: image must be non-empty")
  else if String.eqb (cluster_name cfg) EmptyString
  then Throw (invalid_argument "docker_quorum_manager: cluster_name must be non-empty")
  else if String.eqb (network_name cfg) EmptyString
  then Throw (invalid_argument "docker_quorum_manager: network_name must be non-empty")
  else if (cfg_target_count cfg <? 1)%N
  then Throw (invalid_argument "docker_quorum_manager: target_count must be >= 1")
  else if (node_port cfg =? 0)%N then Throw (invalid_argument "docker_quorum_manager: node_port must be non-zero")
  else Ret tt.

Definition compute_status (live total : N) : quorum_status :=
  if (total =? 0)%N then healthy
  else
    let majority := (total / 2 + 1)%N in
    if (live <? majority)%N then lost
    else if (live =? majority)%N then critical
    else if (live <? total)%N then degraded
    else healthy.

Section docker.
Context {JL : JsonLib} {D : Type} (daemon : http_request → D → http_response * D) (cfg : config).

Record world : Type := mk_docker { daemon_state : D; requests : list http_request }.

(** [cli->Get], [Post] and [Delete] *)
Definition http (r : http_request) : M world http_response := λ w,
  let '(answer, d) := daemon r (daemon_state w) in (Ret answer, mk_docker d (requests w ++ [r])).

Definition text (b : bytes) : string := String.string_of_list_byte b.

Definition container_name (id : N) : bytes := str "kythira-" ++ str (cluster_name cfg) ++ str "-" ++ to_string id.

Definition containers (name tail : bytes) : bytes := str "/containers/" ++ name ++ tail.

(** Whether the daemon says that the container is running. *)
Definition is_running (body : bytes) : outcome bool :=
  let? jv := json_parse body in
  let? obj := as_object jv in
  if json_contains obj "State" then
    let? state := as_object (json_at obj "State") in
    if json_contains state "Status" then
      let? status := as_string (json_at state "Status") in Ret (String.eqb status "running")
    else Ret false
  else Ret false.

Definition is_live (id : N) : M world bool :=
  let! res := http (http_get (containers (container_name id) (str "/json"))) in
  match res with
  | Some (status, body) => if (status =? 200)%N then mlift (is_running body) else mreturn false
  | None => mreturn false
  end.

Fixpoint assess_nodes (cluster : list node_placement) : M world (N * list N) :=
  match cluster with
  | [] => mreturn (0%N, [])
  | np :: cluster =>
      let! alive := is_live (np_node_id np) in
      let! (live, unreachable) := assess_nodes cluster in
      mreturn (if alive then (live ⊕ 1, unreachable) else (live, np_node_id np :: unreachable))
  end.

Definition assess (cluster : list node_placement) : M world quorum_health :=
  mcatch
    (let! (live, unreachable) := assess_nodes cluster in
     let total := N.of_nat (length cluster) in
     mreturn (mk_health (compute_status live total) live total unreachable
       [mk_group_health (cfg_group_id cfg) live (cfg_target_count cfg) unreachable]))
    (λ _, mthrow (runtime_error "docker_quorum_manager::assess_quorum")).

(** The characters of the filter that are written as escapes in the path. *)
Definition url_encode (s : bytes) : bytes :=
  concat (map (λ c,
    if Byte.eqb c x7b then str "%7B" else if Byte.eqb c x7d then str "%7D"
    else if Byte.eqb c x22 then str "%22" else if Byte.eqb c x3a then str "%3A"
    else if Byte.eqb c x5b then str "%5B" else if Byte.eqb c x5d then str "%5D"
    else if Byte.eqb c x3d then str "%3D" else [c]) s).

Definition label_filter : bytes :=
  x7b :: x22 :: str "label" ++ [x22; x3a; x5b; x22] ++ str "kythira.cluster=" ++ str (cluster_name cfg) ++
  [x22; x5d; x7d].

(** The largest id among the labels of the containers listed. *)
Fixpoint max_label (max_id : N) (l : list json) : outcome N :=
  match l with
  | [] => Ret max_id
  | ct :: l =>
      let? obj := as_object ct in
      if negb (json_contains obj "Labels") then max_label max_id l
      else
        let? labels := as_object (json_at obj "Labels") in
        if negb (json_contains labels "kythira.node_id") then max_label max_id l
        else
          let? id_str := as_string (json_at labels "kythira.node_id") in
          let? id := stoull (str id_str) in
          max_label (if (max_id <? id)%N then id else max_id) l
  end.

Definition next_node_id : M world N :=
  let! res := http (http_get (str "/containers/json?filters=" ++ url_encode label_filter)) in
  let! max_id :=
    match res with
    | Some (status, body) =>
        if (status =? 200)%N then
          mlift (let? jv := json_parse body in let? l := as_array jv in max_label 0 l)
        else mreturn 0%N
    | None => mreturn 0%N
    end in
  mreturn (max_id ⊕ 1).

Definition remove_path (name : bytes) : bytes := containers name (str "?force=true").

(** What the library does when the connection fails is an empty answer, not an
    exception; the answer is not looked at. *)
Definition try_remove (name : bytes) : M world () :=
  do! http (http_delete (remove_path name)) in mreturn tt.

Definition create_body (id : N) : json :=
  let label := text (to_string id) in
  jobject
    ([("Image", jstring (image cfg));
      ("Labels", jobject [("kythira.cluster", jstring (cluster_name cfg)); ("kythira.node_id", jstring label)]);
      ("Env", jarray (map jstring
         (["KYTHIRA_NODE_ID=" +:+ label; "KYTHIRA_NODE_PORT=" +:+ text (to_string (node_port cfg));
           "KYTHIRA_CLUSTER=" +:+ cluster_name cfg] ++ extra_env cfg)))] ++
     (match extra_args cfg with [] => [] | args => [("Cmd", jarray (map jstring args))] end) ++
     [("NetworkingConfig", jobject [("EndpointsConfig", jobject [(network_name cfg, jobject [])])])]).

Definition create_path (name : bytes) : bytes := str "/containers/create?name=" ++ name.

(** [status < 200 || status >= 300] does not hold *)
Definition ok_status (res : http_response) : bool :=
  match res with Some (status, _) => (200 <=? status)%N && (status <? 300)%N | None => false end.

(** [status != 204 && status != 200] does not hold *)
Definition started_status (res : http_response) : bool :=
  match res with Some (status, _) => (status =? 204)%N || (status =? 200)%N | None => false end.

Definition provision (target_group : string) (replacing : option N) : M world peer_info :=
  let! new_id := mcatch next_node_id (λ _, mthrow (runtime_error "docker_quorum_manager::provision_node")) in
  let name := container_name new_id in
  let! create_res := http (http_post (create_path name) (json_serialize (create_body new_id))) in
  if negb (ok_status create_res) then
    do! try_remove name in mthrow (runtime_error "docker_quorum_manager: create failed")
  else
    let! start_res := http (http_post (containers name (str "/start")) []) in
    if negb (started_status start_res) then
      do! try_remove name in mthrow (runtime_error "docker_quorum_manager: start failed")
    else mreturn (mk_peer new_id (text (name ++ str ":" ++ to_string (node_port cfg)))).

Definition decommission (id : N) : M world () :=
  let! res := http (http_delete (remove_path (container_name id))) in
  if match res with Some (status, _) => (status =? 404)%N | None => false end then mreturn tt
  else if negb (ok_status res) then mthrow (runtime_error "docker_quorum_manager: decommission failed")
  else mreturn tt.

Definition docker_topology : list placement_group_target :=
  [mk_target (cfg_group_id cfg) (cfg_target_count cfg) None].

(** The group of a node, the configured one if the node is not in the cluster. *)
Definition group_of (cluster : list node_placement) (id : N) : string :=
  match List.find (λ np, (np_node_id np =? id)%N) cluster with
  | Some np => np_group_id np
  | None => cfg_group_id cfg
  end.

(** Removes the unreachable nodes; the last one removed of each group. *)
Fixpoint remove_unreachable (cluster : list node_placement) (ids : list N) (last_replaced : gmap string N) :
    M world (gmap string N) :=
  match ids with
  | [] => mreturn last_replaced
  | id :: ids =>
      let! last_replaced :=
        mcatch (do! decommission id in mreturn (<[group_of cluster id := id]> last_replaced))
               (λ _, mreturn last_replaced) in
      remove_unreachable cluster ids last_replaced
  end.

Fixpoint provision_times (n : nat) (group : string) (hint : option N) : M world () :=
  match n with
  | O => mreturn tt
  | S n => do! mcatch (do! provision group hint in mreturn tt) (λ _, mreturn tt) in provision_times n group hint
  end.

Definition live_in (groups : list placement_group_health) (group : string) : N :=
  match List.find (λ gh, String.eqb (gh_group_id gh) group) groups with
  | Some gh => gh_live_count gh
  | None => 0%N
  end.

(** The counts are below 2{^63}, so that their difference as a signed number is exact. *)
Definition maintain (cluster : list node_placement) : M world quorum_health :=
  let! health := assess cluster in
  let! last_replaced := remove_unreachable cluster (qh_unreachable_nodes health) ∅ in
  do! mfor docker_topology (λ gt,
        provision_times (N.to_nat (target_count gt - live_in (qh_groups health) (group_id gt))) (group_id gt)
          (last_replaced !! group_id gt)) in
  mreturn health.

#[export] Instance docker : QuorumManager world := {|
  assess_quorum := assess;
  provision_node := provision;
  decommission_node := decommission;
  topology _ := docker_topology;
  maintain_quorum := maintain
|}.
End docker.
End docker_quorum_manager.

(** ** The laws of the two managers *)

Section no_op_laws.
Import no_op_quorum_manager.

Lemma count_node_sum groups np health :
  is_u64 (live_sum health + 1)%N → live_sum (count_node groups np health) = (live_sum health + 1)%N.
Proof.
  unfold live_sum. induction health as [|gh health IH]; intros H; [done|]. cbn [count_node foldr] in *.
  destruct (String.eqb _ _); cbn [foldr gh_live_count].
  - rewrite u64_add_small by (unfold is_u64, u64_modulus in *; lia). lia.
  - rewrite IH; [lia|]. unfold is_u64 in *. lia.
Qed.

Lemma no_op_report cluster m : is_u64 (N.of_nat (length cluster)) → health_ok (_topology m) cluster (assess cluster m).
Proof.
  intros Hu. unfold health_ok, assess. cbn [qh_total_node_count qh_live_node_count qh_unreachable_nodes qh_groups length].
  split_and!; [done|lia|apply sublist_nil_l|]. intros _ _.
  enough (∀ health, is_u64 (live_sum health + N.of_nat (length cluster))%N →
    live_sum (foldl (λ h np, count_node (_topology m) np h) health cluster) = (live_sum health + N.of_nat (length cluster))%N)
    as H by (by apply (H [])).
  clear Hu. induction cluster as [|np cluster IH]; intros health Hu; cbn [foldl length]; [lia|].
  rewrite IH; rewrite count_node_sum; unfold is_u64 in *; cbn [length] in *; lia.
Qed.

#[export] Instance no_op_manager_laws : QuorumManagerLaws manager.
Proof. constructor; intros cluster m r m' Hu [= <- <-]; by apply no_op_report. Qed.
End no_op_laws.

Section docker_laws.
Import docker_quorum_manager.
Context {JL : JsonLib} {D : Type} (daemon : http_request → D → http_response * D) (cfg : config).

Lemma assess_nodes_counts cluster w live unreachable w' :
  assess_nodes daemon cfg cluster w = (Ret (live, unreachable), w') → is_u64 (N.of_nat (length cluster)) →
  (live + N.of_nat (length unreachable) = N.of_nat (length cluster))%N ∧
  unreachable `sublist_of` map np_node_id cluster.
Proof.
  revert w live unreachable w'. induction cluster as [|np cluster IH]; intros w live unreachable w'.
  { intros [= <- <- _] _. done. }
  cbn [assess_nodes]. unfold mlet. destruct (is_live daemon cfg (np_node_id np) w) as [[alive|e|u] w1]; [|done..].
  destruct (assess_nodes daemon cfg cluster w1) as [[[live1 un1]|e|u] w2] eqn:E; [|done..].
  intros H Hu. cbn [length] in Hu. destruct (IH _ _ _ _ E) as [Hc Hs]; [unfold is_u64 in *; lia|].
  destruct alive; injection H as <- <- _; cbn [map length].
  - rewrite u64_add_small by (unfold is_u64, u64_modulus in *; lia). split; [lia|by apply sublist_cons].
  - split; [lia|by apply sublist_skip].
Qed.

(** What an assessment that returns says. *)
Lemma docker_report cluster w r w' :
  is_u64 (N.of_nat (length cluster)) → assess daemon cfg cluster w = (Ret r, w') →
  health_ok (docker_topology cfg) cluster r ∧ qh_status r = compute_status (qh_live_node_count r) (qh_total_node_count r) ∧
  live_in (qh_groups r) (cfg_group_id cfg) = qh_live_node_count r.
Proof.
  intros Hu. unfold assess, mcatch. unfold mlet.
  destruct (assess_nodes daemon cfg cluster w) as [[[live un]|e|u] w1] eqn:E; [|done..].
  intros [= <- _]. destruct (assess_nodes_counts _ _ _ _ _ E Hu) as [Hc Hs].
  split; [|split; [done|]].
  - unfold health_ok. cbn. split_and!; [done|done|done|intros; lia].
  - unfold live_in. cbn. by rewrite String.eqb_refl.
Qed.

Lemma maintain_assesses cluster w r w' :
  maintain daemon cfg cluster w = (Ret r, w') → ∃ w1, assess daemon cfg cluster w = (Ret r, w1).
Proof.
  unfold maintain. unfold mlet at 1. destruct (assess daemon cfg cluster w) as [[h|e|u] w1]; [|done..].
  unfold mlet at 1. destruct (remove_unreachable _ _ _ _ _ w1) as [[lr|e|u] w2]; [|done..].
  unfold mlet at 1. destruct (mfor _ _ w2) as [[[]|e|u] w3]; [|done..]. intros [= -> _]. by exists w1.
Qed.

#[export] Instance docker_manager_laws : @QuorumManagerLaws world (docker daemon cfg).
Proof.
  constructor; intros cluster w r w' Hu H.
  - by apply docker_report in H as [? _].
  - apply maintain_assesses in H as [w1 H]. by apply docker_report in H as [? _].
Qed.
End docker_laws.

(** ** The status *)

(** The status is what its documentation says: lost when the live nodes are no
    majority, critical when they are one that the next failure ends, and otherwise
    degraded or healthy by whether all nodes are live. *)
Theorem status_by_majorities live total :
  (0 < total)%N → (live <= total)%N →
  let majority n := (total < 2 * n)%N in
  let status := docker_quorum_manager.compute_status live total in
  (status = lost ↔ ¬ majority live) ∧
  (status = critical ↔ majority live ∧ ¬ majority (live - 1)%N) ∧
  (status = degraded ↔ majority (live - 1)%N ∧ (live < total)%N) ∧
  (status = healthy ↔ majority (live - 1)%N ∧ live = total).
Proof.
  intros Ht Hl majority status. unfold status, majority, docker_quorum_manager.compute_status.
  assert (∃ h, (total = 2 * h ∨ total = 2 * h + 1) ∧ total / 2 = h)%N as (h & Hh & Eh).
  { exists (total / 2)%N. split; [|done]. pose proof (N.div_mod total 2 ltac:(done)).
    pose proof (N.mod_lt total 2 ltac:(done)). generalize dependent (total mod 2)%N. generalize (total / 2)%N. lia. }
  rewrite Eh. destruct (N.eqb_spec total 0); [lia|].
  destruct (N.ltb_spec live (h + 1)); [|destruct (N.eqb_spec live (h + 1)); [|destruct (N.ltb_spec live total)]];
    (split; [|split; [|split]]); split; intros Hs; first [done | lia | exfalso; lia].
Qed.

(** ** What maintenance asks of the daemon *)

Section maintenance.
Import docker_quorum_manager.
Context {JL : JsonLib} {D : Type} (daemon : http_request → D → http_response * D) (cfg : config).

Definition is_get (r : http_request) : Prop := match r with http_get _ => True | _ => False end.

Definition is_create (r : http_request) : bool :=
  match r with
  | http_post path _ => match strip_prefix (str "/containers/create?name=") path with Some _ => true | None => false end
  | _ => false
  end.

Definition creates (l : list http_request) : nat := length (List.filter is_create l).

Definition removal (id : N) : http_request := http_delete (remove_path (container_name cfg id)).

Lemma http_adds r w : requests (http (D := D) daemon r w).2 = requests w ++ [r].
Proof. unfold http. by destruct (daemon r (daemon_state w)). Qed.

(** A computation that asks for at most [n] creations. *)
Definition creates_at_most {A} (n : nat) (m : M (@world D) A) : Prop :=
  ∀ w, ∃ tr, requests (m w).2 = requests w ++ tr ∧ creates tr ≤ n.

Lemma creates_none {A} n (m : M (@world D) A) : (∀ w, requests (m w).2 = requests w) → creates_at_most n m.
Proof. intros H w. exists []. rewrite H, app_nil_r. split; [done|]. cbn. lia. Qed.

Lemma creates_http r n : (is_create r = true → 1 ≤ n) → creates_at_most n (http daemon r).
Proof.
  intros Hn w. exists [r]. rewrite http_adds. split; [done|]. unfold creates. cbn. destruct (is_create r); cbn; [auto|lia].
Qed.

Lemma creates_let {A B} n1 n2 (m : M (@world D) A) (f : A → M world B) :
  creates_at_most n1 m → (∀ a, creates_at_most n2 (f a)) → creates_at_most (n1 + n2) (mlet m f).
Proof.
  intros Hm Hf w. destruct (Hm w) as (tr1 & E1 & H1). unfold mlet. destruct (m w) as [[a|e|u] w1]; cbn [snd] in *.
  - destruct (Hf a w1) as (tr2 & E2 & H2). exists (tr1 ++ tr2). rewrite E2, E1, <- app_assoc. split; [done|].
    unfold creates in *. rewrite List.filter_app, length_app. lia.
  - exists tr1. split; [done|lia].
  - exists tr1. split; [done|lia].
Qed.

Lemma creates_catch {A} n1 n2 (m : M (@world D) A) h :
  creates_at_most n1 m → (∀ e, creates_at_most n2 (h e)) → creates_at_most (n1 + n2) (mcatch m h).
Proof.
  intros Hm Hh w. destruct (Hm w) as (tr1 & E1 & H1). unfold mcatch. destruct (m w) as [[a|e|u] w1]; cbn [snd] in *;
    [exists tr1; split; [done|lia]| |exists tr1; split; [done|lia]].
  destruct (Hh e w1) as (tr2 & E2 & H2). exists (tr1 ++ tr2). rewrite E2, E1, <- app_assoc. split; [done|].
  unfold creates in *. rewrite List.filter_app, length_app. lia.
Qed.

Lemma provision_creates group hint : creates_at_most 1 (provision daemon cfg group hint).
Proof.
  unfold provision.
  assert (∀ name (e : exn), creates_at_most 0 (do! try_remove daemon name in mthrow (A := peer_info) e)) as Hremove.
  { intros name e. apply (creates_let 0 0); [|intros; by apply creates_none].
    apply (creates_let 0 0); [by apply creates_http|intros; by apply creates_none]. }
  apply (creates_let 0 1).
  - apply (creates_catch 0 0); [|intros; by apply creates_none].
    apply (creates_let 0 0); [by apply creates_http|]. intros res.
    apply (creates_let 0 0); [|intros; by apply creates_none].
    destruct res as [[status body]|]; [destruct (status =? 200)%N|]; by apply creates_none.
  - intros id. apply (creates_let 1 0); [by apply creates_http|]. intros res.
    destruct (ok_status res); cbn [negb]; [|apply Hremove].
    apply (creates_let 0 0); [by apply creates_http|]. intros res'.
    destruct (started_status res'); cbn [negb]; [by apply creates_none|apply Hremove].
Qed.

Lemma provision_times_creates n group hint : creates_at_most n (provision_times daemon cfg n group hint).
Proof.
  induction n as [|n IH]; [by apply creates_none|]. cbn [provision_times]. apply (creates_let 1 n); [|done].
  apply (creates_catch 1 0); [|intros; by apply creates_none].
  apply (creates_let 1 0); [apply provision_creates|intros; by apply creates_none].
Qed.

Lemma assess_nodes_looks cluster w :
  ∃ tr, requests (assess_nodes daemon cfg cluster w).2 = requests w ++ tr ∧ Forall is_get tr.
Proof.
  revert w. induction cluster as [|np cluster IH]; intros w; [exists []; by rewrite app_nil_r|].
  cbn [assess_nodes]. assert (∃ r, requests (is_live daemon cfg (np_node_id np) w).2 = requests w ++ [r] ∧ is_get r)
    as (r & Er & Hr).
  { exists (http_get (containers (container_name cfg (np_node_id np)) (str "/json"))). split; [|done].
    unfold is_live, mlet.
    pose proof (http_adds (http_get (containers (container_name cfg (np_node_id np)) (str "/json"))) w) as E.
    destruct (http daemon _ w) as [[[[status body]|]|e|u] w1]; cbn in *; try done. by destruct (status =? 200)%N. }
  unfold mlet at 1. destruct (is_live daemon cfg (np_node_id np) w) as [[alive|e|u] w1]; cbn [snd] in *;
    [|exists [r]; by split; [|repeat constructor]..].
  destruct (IH w1) as (tr & E & Htr). exists (r :: tr). unfold mlet.
  destruct (assess_nodes daemon cfg cluster w1) as [[[live un]|e|u] w2]; cbn [snd mreturn] in *;
    rewrite E, Er, <- app_assoc; (split; [done|by constructor]).
Qed.

Lemma remove_unreachable_run cluster ids replaced w :
  ∃ replaced' w', remove_unreachable daemon cfg cluster ids replaced w = (Ret replaced', w') ∧
    requests w' = requests w ++ map removal ids.
Proof.
  revert replaced w. induction ids as [|id ids IH]; intros replaced w.
  { exists replaced, w. by rewrite app_nil_r. }
  cbn [remove_unreachable map].
  assert (∃ r1 w1, mcatch (do! decommission daemon cfg id in mreturn (<[group_of cfg cluster id := id]> replaced))
    (λ _, mreturn replaced) w = (Ret r1, w1) ∧ requests w1 = requests w ++ [removal id]) as (r1 & w1 & E & H1).
  { unfold mcatch, decommission, mlet. pose proof (http_adds (removal id) w) as E. unfold removal in E.
    assert (∃ res w1, http daemon (http_delete (remove_path (container_name cfg id))) w = (Ret res, w1)) as (res & w1 & Eh).
    { unfold http. destruct (daemon _ _). by do 2 eexists. }
    rewrite Eh in E |- *. cbn [snd] in E. destruct (match res with Some _ => _ | None => _ end); [by do 2 eexists|].
    destruct (ok_status res); by do 2 eexists. }
  erewrite let_eval by exact E. destruct (IH r1 w1) as (r2 & w2 & E2 & H2). exists r2, w2.
  split; [done|]. by rewrite H2, H1, <- app_assoc.
Qed.

(** Maintenance does what the assessment calls for, and no more: it looks at the nodes,
    removes exactly those found unreachable, in their order, and asks for at most as
    many new ones as the group lacks. *)
Theorem maintenance_within_deficit cluster w r w' :
  is_u64 (N.of_nat (length cluster)) → maintain daemon cfg cluster w = (Ret r, w') →
  health_ok (docker_topology cfg) cluster r ∧
  ∃ looks provisions,
    requests w' = requests w ++ looks ++ map removal (qh_unreachable_nodes r) ++ provisions ∧
    Forall is_get looks ∧ creates provisions ≤ N.to_nat (cfg_target_count cfg - qh_live_node_count r).
Proof.
  intros Hu. unfold maintain. unfold mlet at 1. destruct (assess daemon cfg cluster w) as [[h|e|u] w1] eqn:Ea; [|done..].
  destruct (docker_report daemon cfg cluster w h w1 Hu Ea) as (Hok & _ & Hlive).
  assert (∃ tr, requests w1 = requests w ++ tr ∧ Forall is_get tr) as (looks & E1 & Hl).
  { destruct (assess_nodes_looks cluster w) as (tr & E & Htr). exists tr. split; [|done]. rewrite <- E.
    revert Ea. unfold assess, mcatch, mlet. by destruct (assess_nodes daemon cfg cluster w) as [[[]|e|u] w2]; intros [= <- <-]. }
  destruct (remove_unreachable_run cluster (qh_unreachable_nodes h) ∅ w1) as (replaced & w2 & E2 & H2).
  erewrite let_eval by exact E2. cbn [docker_topology mfor target_count group_id]. rewrite Hlive.
  set (n := N.to_nat _). destruct (provision_times_creates n (cfg_group_id cfg) (replaced !! cfg_group_id cfg) w2) as (tr & E3 & H3).
  unfold mlet. destruct (provision_times daemon cfg n _ _ w2) as [[[]|e|u] w3]; [|done..]. intros [= <- <-]. cbn [snd] in E3.
  split; [done|]. exists looks, tr. split_and!; [|done|done]. by rewrite E3, H2, E1, <- !app_assoc.
Qed.
End maintenance.

(** A daemon that knows the names of its containers; it lists none of them, as when
    they have other labels or were created after the list was made. *)
Definition name_daemon (r : http_request) (names : gset bytes) : http_response * gset bytes :=
  match r with
  | http_get _ => (Some (200%N, @json_serialize CodeJson.code_json (jarray [])), names)
  | http_post path _ =>
      match strip_prefix (str "/containers/create?name=") path with
      | Some name => if bool_decide (name ∈ names) then (Some (409%N, []), names) else (Some (201%N, []), names ∪ {[name]})
      | None => (Some (204%N, []), names)
      end
  | http_delete path =>
      match strip_prefix (str "/containers/") path with
      | Some rest =>
          match find_delim x3f rest with Some (name, _) => (Some (204%N, []), names ∖ {[name]}) | None => (Some (404%N, []), names) end
      | None => (Some (404%N, []), names)
      end
  end.

Definition sample_docker : docker_quorum_manager.config :=
  docker_quorum_manager.mk_docker_config "kythira" "c" "net" 7000 "default" 3 [] [].

(** No node answers, and every creation works. *)
Lemma maintenance_within_deficit_witness :
  let daemon := λ r (d : ()),
    match r with http_get _ => (None, d) | http_post _ _ => (Some (200%N, []), d) | http_delete _ => (Some (404%N, []), d) end in
  let w := docker_quorum_manager.mk_docker tt [] in
  let cluster := [mk_placement 1 "default"; mk_placement 2 "default"] in
  let '(r, w') := docker_quorum_manager.maintain (JL := CodeJson.code_json) daemon sample_docker cluster w in
  ∃ looks provisions,
    docker_quorum_manager.requests w' = looks ++ map (removal sample_docker) [1; 2]%N ++ provisions ∧
    creates provisions ≤ 3.
Proof.
  intros daemon w cluster.
  destruct (docker_quorum_manager.maintain (JL := CodeJson.code_json) daemon sample_docker cluster w) as [r w'] eqn:E.
  assert (∃ h, r = Ret h ∧ qh_unreachable_nodes h = [1; 2]%N ∧ qh_live_node_count h = 0%N) as (h & -> & Hu & Hl).
  { pose proof (f_equal fst E) as E1. vm_compute in E1. subst r. by eexists. }
  destruct (maintenance_within_deficit (JL := CodeJson.code_json) daemon sample_docker cluster w h w' eq_refl E)
    as (_ & looks & provisions & Hreq & _ & Hc).
  exists looks, provisions. rewrite Hu in Hreq. rewrite Hl in Hc. split; [exact Hreq|exact Hc].
Defined.

(** When creating a container fails, its name is removed by force.  A failure because
    the name is taken removes the container that has it, which the manager did not
    make. *)
Theorem failed_creation_removes_namesake :
  let w := docker_quorum_manager.mk_docker ({[str "kythira-c-1"]} : gset bytes) [] in
  let '(r, w') := docker_quorum_manager.provision (JL := CodeJson.code_json) name_daemon sample_docker "default" None w in
  r = Throw (runtime_error "docker_quorum_manager: create failed") ∧ docker_quorum_manager.daemon_state w' = ∅.
Proof. vm_compute. done. Qed.

(** ** New identifiers *)

Section fresh.
Import docker_quorum_manager.
Context {JL : JsonLib} {D : Type} (daemon : http_request → D → http_response * D) (cfg : config).

(** The id on a container's label. *)
Definition label_id (ct : json) : option N :=
  match ct with
  | jobject obj =>
      match json_lookup obj "Labels" with
      | Some (jobject labels) =>
          match json_lookup labels "kythira.node_id" with
          | Some (jstring s) => match stoull (str s) with Ret id => Some id | _ => None end
          | _ => None
          end
      | _ => None
      end
  | _ => None
  end.

Lemma max_label_bounds l max_id r :
  max_label max_id l = Ret r →
  (max_id <= r)%N ∧ (∀ ct id, ct ∈ l → label_id ct = Some id → (id <= r)%N) ∧
  (r = max_id ∨ ∃ ct, ct ∈ l ∧ label_id ct = Some r).
Proof.
  revert max_id. induction l as [|ct l IH]; intros max_id; cbn [max_label].
  { intros [= ->]. split_and!; [lia|by intros ct id ?%elem_of_nil|by left]. }
  destruct ct as [| | | | | |obj]; try done. cbn [as_object outcome_bind]. unfold json_contains, json_at.
  assert (∀ max', (max_id <= max')%N → (∀ id, label_id (jobject obj) = Some id → (id <= max')%N) →
    (max' = max_id ∨ label_id (jobject obj) = Some max') → max_label max' l = Ret r →
    (max_id <= r)%N ∧ (∀ ct id, ct ∈ jobject obj :: l → label_id ct = Some id → (id <= r)%N) ∧
    (r = max_id ∨ ∃ ct, ct ∈ jobject obj :: l ∧ label_id ct = Some r)) as Hnext.
  { intros max' Hle Hid Hmax (Hr & Hl & Hatt)%IH. split_and!; [lia| |].
    - intros ct id [->|Hin]%elem_of_cons Hc; [|by apply (Hl ct)]. apply Hid in Hc. lia.
    - destruct Hatt as [->|(ct & Hin & Hct)]; [|right; exists ct; split; [by right|done]].
      destruct Hmax as [->|Hmax]; [by left|right]. eexists. split; [by left|done]. }
  cbn [label_id] in Hnext. destruct (json_lookup obj "Labels") as [labels|]; cbn [negb default from_option];
    [|by apply Hnext; [lia| |left]]. destruct labels as [| | | | | |labels]; try done.
  cbn [as_object outcome_bind Datatypes.id].
  destruct (json_lookup labels "kythira.node_id") as [v|]; cbn [negb default from_option];
    [|by apply Hnext; [lia| |left]].
  destruct v as [| | | |s| |]; try done. cbn [as_string outcome_bind Datatypes.id]. destruct (stoull (str s)) as [id|e|u]; try done.
  cbn [outcome_bind].
  destruct (N.ltb_spec max_id id); apply Hnext; try lia; try (intros ? [= <-]; lia). by right.
Qed.

(** A node that was provisioned has an id that none of the containers listed by the
    daemon had on its label, unless the largest one was the last of 64 bits. *)
Theorem provisioned_id_is_new group hint w p w' l :
  provision daemon cfg group hint w = (Ret p, w') →
  (daemon (http_get (str "/containers/json?filters=" ++ url_encode (label_filter cfg))) (daemon_state w)).1 =
    Some (200%N, json_serialize (jarray l)) →
  json_parse (json_serialize (jarray l)) = Ret (jarray l) →
  (∀ ct id, ct ∈ l → label_id ct = Some id → (id < u64_modulus - 1)%N) →
  ∀ ct id, ct ∈ l → label_id ct = Some id → id ≠ pi_node_id p.
Proof.
  intros Hp Hlist Hparse Hsmall. revert Hp. unfold provision. unfold mlet at 1. unfold mcatch at 1.
  unfold next_node_id. unfold mlet at 1, http at 1. destruct (daemon _ (daemon_state w)) as [res d]. cbn [fst] in Hlist. subst res.
  cbn [N.eqb Pos.eqb]. unfold mlet at 1, mlift. rewrite Hparse. cbn [outcome_bind as_array].
  destruct (max_label 0 l) as [max_id|e|u] eqn:E; [|done..]. cbn [mreturn].
  destruct (max_label_bounds l 0 max_id E) as (_ & Hmax & Hatt).
  assert (max_id < u64_modulus - 1)%N as Hlt.
  { destruct Hatt as [->|(ct & Hin & Hct)]; [done|by apply (Hsmall ct)]. }
  rewrite u64_add_small by (unfold is_u64, u64_modulus in *; lia). intros Hp ct id Hin Hct.
  assert (pi_node_id p = max_id + 1)%N as ->; [|pose proof (Hmax ct id Hin Hct); lia].
  revert Hp. unfold mlet at 1. destruct (http daemon _ _) as [[res|e|u] w1]; [|done..].
  destruct (ok_status res); cbn [negb]; unfold mlet; [|by destruct (try_remove daemon _ w1) as [[]?]].
  destruct (http daemon _ w1) as [[res'|e|u] w2]; [|done..].
  destruct (started_status res'); cbn [negb]; [by intros [= <- _]|by destruct (try_remove daemon _ w2) as [[]?]].
Qed.
End fresh.
